(* ===== verification/_CoqProject ===== *)
-Q . S2P
Prelude.v
JsLib.v
JsMap.v
Ids.v
IdsFacts.v
Utils.v
Proto.v
Types.v
TimelineTypes.v
TimelineEvent.v
StreamEvents.v
StreamViews.v
Usernames.v
UsernamesFacts.v
DisplayNames.v
EnsAddresses.v
Nfts.v
MemberMetadata.v
MemberMetadataFacts.v
Solicitations.v
Content.v
Fixtures.v
Members.v
MembersFacts.v
MemberEventsFacts.v
Timelines.v
TimelinesView.v
TimelinesFacts.v
Channels.v
Space.v
UserStreams.v
Migrations.v
MigrationsFacts.v
ContentLaws.v
ContentFacts.v
StreamState.v
StreamStateFacts.v
Stream.v
StreamFacts.v
StreamLifecycle.v
SyncLoop.v
SyncLoopFacts.v
SyncBooks.v
UnreadMarkers.v
UnreadMarkersFacts.v
RuleTrees.v
RuleTreesFacts.v
Entitlements.v
EntitlementsFacts.v
Sign.v
Unpack.v
SignFacts.v
Decryption.v
DecryptionFacts.v
DecryptionKeys.v
DecryptionContent.v
ClientDecryption.v
ClientDecryptionFacts.v
DecryptionWitness.v
Persistence.v
SyncedStream.v
PersistenceFacts.v
SyncedStreamFacts.v
StreamLoading.v
StreamLoadingFacts.v
Sending.v
LocalCopyFacts.v
SendingFacts.v
Scrollback.v
ScrollbackFacts.v
Tags.v
TagsFacts.v
Transforms.v
TransformsFacts.v
