(* ===== verification/Prelude.v ===== *)
(** * The streams of the Towns SDK, verified

    ** The program

    The Towns protocol keeps every space, channel, conversation and user as a
    stream of signed events. The TypeScript SDK (src/packages/sdk/src) turns a
    stream into a view: a [Stream] (stream.ts) owns a [StreamStateView]
    (streamStateView.ts), which takes a snapshot, miniblocks and new events,
    keeps the events that no miniblock confirms yet in a pool, and passes each
    event on to the members of the stream (streamStateView_Members.ts, with the
    metadata of members and the key solicitations) or to its content, one of
    nine kinds given by the prefix of the stream id (id.ts). The views write
    what they know to shared stores (views/streams), and the timeline that
    users see is computed by the reducers of views/streams/timelinesModel.ts
    from events converted by views/models/timelineEvent.ts. Old snapshots are
    migrated first (migrations). A [SyncedStreamsLoop] (syncedStreamsLoop.ts)
    keeps one connection to a node, asks for updates of the streams in batches
    and hands each update to its stream. A [SyncedStream] (syncedStream.ts) keeps
    a copy of its stream in a database (persistenceStore.ts, streamUtils.ts),
    and when the client starts, a loader (syncedStreamsExtension.ts) reads the
    streams from there and asks the network for the rest. What a node sends is
    first unpacked and its signatures are checked (sign.ts, signerContext.ts).
    The client (client.ts) sends events, with retries, and tags them for
    notifications (tags.ts); it prepends older miniblocks when the user scrolls
    back. Encrypted content
    that streams emit goes to a queue (decryptionExtensions.ts, with the
    client's part in clientDecryptionExtensions.ts) that decrypts it, asks other
    members for missing keys and answers their requests. Which messages are
    unread is computed from the timelines (unreadMarkersTransform.ts), and lists
    of conversations, spaces and mentions from the stores (views/transforms,
    spaceMentionsTransform.ts). Who may
    enter a space is a rule (web3/src/space/entitlements) that is built, stored
    in contracts and evaluated against several chains at once.

    ** How the code is modelled

    A method is an action of the monad [M O S A] of this file: it takes the
    state [S], returns or throws ([Res]), and gives the state it leaves, also
    when it throws, and the events it emits ([O]); [post], [res] and [out] are
    these three. An emitter that may be undefined is a boolean, [emit] being
    [emitter?.emit]. Event objects are shared between the pool, the members and
    the contents, and mutated; they live in a heap ([Heap] in Types.v) and are
    named by [ObjId]s. [Env V X] (Content.v) is the heap, the stores and the
    object whose method runs. A bigint is a [Z], a string a [string] of its bytes
    in UTF-8, a [Uint8Array] a list of bytes, a [Map] whose order matters a [jsmap]
    (JsMap.v), an object used as a map a [gmap], a [Set] a [gset]. Functions
    of the language that the code uses are in JsLib.v, with truthiness written
    out where the code relies on it.

    Code outside the repository is a parameter: [EthLib] (Ids.v) is the address
    and hash functions of ethers, with the laws in [EthLaws], and the host's
    lower-casing of Unicode text; [Codec] (Types.v) is the generated protobuf
    decoders and the log parser; [Lodash] (TimelinesView.v) is isEqual;
    [CryptoLib] and [EnvelopeCodec] (Sign.v) are the curve, hashes, wallets and
    codecs of envelopes, with the laws in [CryptoLaws] (SignFacts.v, for keys in
    canonical form and 64-bit expiries); [AbiLib] (RuleTrees.v) is viem's codec,
    with [AbiLaws], in which addresses come back with their checksum and bytes
    in lower case; [Chains] (Entitlements.v) is what chains and nodes answer;
    [PersistenceCodec] (Persistence.v) is the protobuf codec of what is stored,
    with the round trips in [PersistenceLaws] (PersistenceFacts.v); [Collation]
    and [MentionsEqual] (Transforms.v) are localeCompare and isEqual.
    Fixtures.v, [ModelEth] (IdsFacts.v) and modules like them instantiate them,
    and each theorem that has hypotheses is applied to a concrete state in a
    module named [...Witness].

    ** The files

    - Prelude.v: errors, the monad, record update, and the frameworks [keeps]
      (a method leaves a part of the state alone) and [moves] (a method stays
      in a preorder), with the tactics [run], [keeps] and [moves].
    - JsLib.v, JsMap.v: strings, arrays, numbers and maps of JavaScript.
    - Ids.v, IdsFacts.v: id.ts and the conversions of binary.ts.
    - Utils.v: removeCommon (utils.ts) and bigIntToBytes (binary.ts).
    - Proto.v: the messages of protocol.proto and payloads.proto.
    - Types.v: types.ts, encryptedContentTypes.ts, the heap.
    - TimelineTypes.v, TimelineEvent.v: views/models.
    - StreamEvents.v: everything that is emitted (streamEvents.ts).
    - StreamViews.v: the stores of views/streams.
    - Usernames.v, DisplayNames.v, EnsAddresses.v, Nfts.v, MemberMetadata.v:
      the memberMetadata_*.ts files and streamStateView_MemberMetadata.ts.
    - Solicitations.v, Members.v: streamStateView_Members*.ts.
    - Content.v: streamStateView_AbstractContent.ts as the class
      [AbstractContent], and what a stream relies on as the class
      [ContentLaws]; Channels.v, Space.v, UserStreams.v: the nine contents;
      ContentLaws.v: their instances of the laws.
    - Timelines.v, TimelinesView.v: timelinesModel.ts and timelines.ts.
    - Migrations.v: migrations.
    - StreamState.v, Stream.v: streamStateView.ts and stream.ts.
    - SyncLoop.v: syncedStreamsLoop.ts. An asynchronous method is cut at its
      [await]s into stretches that run without interruption; where the loop, a
      tick or a removal waits is part of the state, and answers of the node,
      timers and the clock are inputs ([LoopOp] in SyncLoopFacts.v).

    - UnreadMarkers.v: views/streams/unreadMarkersTransform.ts.
    - RuleTrees.v, Entitlements.v: entitlement.ts and ConvertersEntitlements.ts
      of web3, the rules and their concurrent evaluation.
    - Sign.v, Unpack.v: sign.ts and signerContext.ts; eventIdsFromSnapshot.
    - Decryption.v: decryptionExtensions.ts, cut at its [await]s like the sync
      loop; the events are [DecOp] in DecryptionFacts.v. ClientDecryption.v:
      clientDecryptionExtensions.ts over the stream views of StreamState.v.
    - Persistence.v: streamUtils.ts and persistenceStore.ts over four tables;
      the errors that requests to the database will meet are part of the state.
      SyncedStream.v: syncedStream.ts, over Stream.v and the store.
    - StreamLoading.v: syncedStreamsExtension.ts, cut at its [await]s; the
      events are [LoadOp] in StreamLoadingFacts.v.
    - Sending.v: makeEventAndAddToStream and makeEventWithHashAndAddToStream of
      client.ts, cut at the request, with the error functions of
      rpcInterceptors.ts; a whole call with its attempts is [Sends] in
      SendingFacts.v. Scrollback.v: getMiniblocks and scrollback of client.ts
      and getMiniblocks of makeStreamRpcClient.ts, over the cache and a list of
      answers of the node.
    - Tags.v: tags.ts. Transforms.v: views/transforms and
      spaceMentionsTransform.ts.

    The theorems are in Utils.v and the files whose names end in Facts;
    StreamLifecycle.v has what a stopped or restarted stream does, SyncBooks.v
    the lists of streams that the sync loop keeps, LocalCopyFacts.v what leaves
    the local copy of a message alone, DecryptionKeys.v whom keys are sent to,
    DecryptionContent.v where encrypted content is, and DecryptionWitness.v
    concrete runs of the queue.

    ** What is proved

    - Ids: ids are made and recognised consistently; conversions between
      addresses, user ids and stream ids lose nothing.
    - Members: the view is at every point where a deterministic machine is that
      runs on the appended and confirmed membership events, and in which
      membership changes only by confirming a waiting event; the member list is
      always sorted and right; pins, tips, reviews and solicitations do what
      their events say; events of people who are not members are refused.
    - Names: a username that is shown hashes to the checksum its user claims,
      unless the cache of cleartexts supplied it, so nobody is shown under
      another's username otherwise; claims on usernames are exclusive; snapshots
      give a username to its first claimant; display names, ENS addresses and
      NFTs change on confirmation.
    - Timelines: nobody but the author and administrators can alter a
      message; redactions are final until the stream is initialised again; an
      edit and its message may arrive in either order; confirmations only
      confirm.
    - Streams: in every reachable state the pool is indexed by hash, the range
      of miniblocks only grows and the kind of content is fixed; a batch of
      events is never lost to an error in one of them; headers confirm exactly
      what they name, are accepted when they are new, and ignored when they
      are not; a local message and its remote event are one. These are proved
      against the interface [ContentLaws], not against the nine contents.
    - Contents: the image of a space and the properties of a group are those
      that arrived last, under every interleaving of decryptions; a file is
      reassembled from chunks in any order.
    - Migrations: total, idempotent, and exact in what they drop; members and
      channels stay.
    - Sync loop: under every interleaving of responses, errors, ticks, timers
      and calls, the waiting place, the state and the sync id agree; a stopped
      loop ends when it next runs; retries back off within bounds; the lists
      of pending streams and streams in flight are consistent until the loop
      ends, except after a removal that waited; a tick sends the most urgent
      streams, in bounded batches.
    - Unread markers: what was read stays read; the search finds what a linear
      one would.
    - Entitlements: rules survive their arrays and encodings; the evaluation
      refines the rule as a formula, whatever settles first.
    - Signatures: an envelope is accepted exactly when it is authentic; what is
      made is accepted; two messages of any kinds are not signed as the same
      bytes, but for the high bits of an expiry and the sign of an expiration.
    - Decryption queue: while the queue may run and there is work, a timer or an
      answer that goes on with it is pending, unless a priority threw, after
      which nothing but [stop] gets the queue out; content is never lost or
      doubled, and comes back when its key arrives; keys go only to members who
      asked for them, and a request is valid exactly when it is signed for its
      creator; viewed conversations are served first; all content that streams
      emit is queued in order.
    - Persistence: whatever was saved and whichever requests failed, what loads
      is a gapless run of saved blocks with its snapshot; a stream that is
      restarted from its copy resumes from the last cookie that was stored with
      all blocks since the snapshot.
    - Loader: under every interleaving of timers, answers and calls no stream
      is lost, and without [stop] the loader never falls asleep; when it ends
      every stream was initialised or refused by the network, and the status
      says so, except after the failures that [clean] excludes.
    - Client: a message that is sent stays in the pool through all attempts and
      ends as sent under the id of the accepted event, or as failed when the
      node refuses, whatever the stream receives meanwhile short of a miniblock
      that confirms the message; scrolling back gives a gapless run of blocks
      that joins the view, with a bounded number of requests.
    - Tags name exactly the users a message concerns; the list of conversations
      is complete, each once, and in order.

    ** Fuel

    Seven loops take fuel: [removeCommon_loop], [hex_length] and
    [bigIntToBytes_loop] (Utils.v), [bisect] (UnreadMarkers.v), [joinAll]
    (RuleTrees.v), [numberToUint8Array64LE_loop] (Sign.v) and
    [fnReadRetryer_loop] (Persistence.v). Each advances an index, halves a range
    or a list, shifts its argument or makes a request in every round; the fuel
    given (the sum of the lengths, the binary logarithm, the number of bytes,
    the number of events, the length of the list, eight, the number of requests
    that will fail and one) is proved enough in the theorems about them. All
    other recursion is structural.

    ** Not modelled

    Logging, with the sort of the streams for the log of the decryption queue;
    subscriptions and throttling; delivery to listeners other than the
    decryption queue's. Asynchronous code is modelled where a content awaits a
    decryption, in the sync loop, in the evaluation of rules, in the loader, in
    the decryption queue, and in the client between a request and its answer;
    the time at which a timer fires is arbitrary. The calls of [SyncedStream]
    are awaited one after the other. Of the client, only the sending of events
    and scrollback are treated: the rest creates streams, builds payloads with
    the factories of types.ts and forwards calls; that one scrollback of a
    stream runs at a time ([getScrollbackRequests]) is left out, since it only
    shares a result. Encryption (olm), the registry of streams
    (syncedStreams.ts), the versions of the database and the RPC transport are
    input and output around third-party code. The contracts, the Go node and
    the applications are other programs. *)

From stdpp Require Export base gmap strings list fin_maps sorting.
From Stdlib Require Export ZArith Lia.

#[global] Open Scope Z_scope.

(** ** Results: a JavaScript call returns a value or throws *)

(** The error codes of the protocol ([Err] of protocol.proto) that the
    modelled code raises. *)
Inductive Err :=
  | ERR_UNSPECIFIED
  | UNIMPLEMENTED
  | STREAM_BAD_EVENT
  | STREAM_EMPTY
  | INTERNAL_ERROR_SWITCH
  | BAD_EVENT
  | BAD_EVENT_ID
  | BAD_EVENT_SIGNATURE
  | BAD_DELEGATE_SIG
  | BAD_PUBLIC_KEY
  | BAD_PAYLOAD
  | BAD_HASH_FORMAT.

#[export] Instance Err_eq_dec : EqDecision Err.
Proof. solve_decision. Defined.

(** What is thrown: [throwWithCode] of dlog/src/check.ts raises a
    [CodeException]; [new Error(...)] is [PlainError]; [TypeError] is raised
    by the language itself (a property of [undefined]), [SyntaxError] by
    [BigInt(s)] on a string that is no integer literal, [RangeError] by
    [Array(n)] on a negative length, [DexieError] by the database. *)
Inductive JsError :=
  | CodeException (message : string) (code : Err)
  | PlainError (message : string)
  | TypeError (message : string)
  | SyntaxError (message : string)
  | RangeError (message : string)
  | DexieError (name : string).

#[export] Instance JsError_eq_dec : EqDecision JsError.
Proof. solve_decision. Defined.

Inductive Res (A : Type) :=
  | Ok (a : A)
  | Throw (e : JsError).
Arguments Ok {A} a.
Arguments Throw {A} e.

#[export] Instance Res_eq_dec `{EqDecision A} : EqDecision (Res A).
Proof. solve_decision. Defined.

#[export] Instance Res_ret : MRet Res := @Ok.
#[export] Instance Res_bind : MBind Res := λ A B f r,
  match r with Ok a => f a | Throw e => Throw e end.
#[export] Instance Res_fmap : FMap Res := λ A B f r,
  match r with Ok a => Ok (f a) | Throw e => Throw e end.

Definition is_Ok {A} (r : Res A) : bool := match r with Ok _ => true | Throw _ => false end.

(** [l.map(f)] of an [f] that may throw, and [Promise.all] of calls that may reject *)
Definition traverse {A B} (f : A → Res B) : list A → Res (list B) :=
  fix go l := match l with
              | [] => Ok []
              | x :: l => y ← f x; r ← go l; Ok (y :: r)
              end.

(** ** The effect monad

    A method of a class mutates the fields of its object, may throw (what was
    mutated before the throw stays mutated) and emits events to listeners.
    [M O S A] passes the state [S] explicitly, returns a [Res A] and lists
    what was emitted, in order. *)

Definition M (O S A : Type) : Type := S → Res A * S * list O.

Section Monad.
Context {O S : Type}.

#[export] Instance M_ret : MRet (M O S) := λ A a s, (Ok a, s, []).

#[export] Instance M_bind : MBind (M O S) := λ A B f m s,
  match m s with
  | (Ok a, s1, o1) =>
      match f a s1 with (r, s2, o2) => (r, s2, o1 ++ o2) end
  | (Throw e, s1, o1) => (Throw e, s1, o1)
  end.

Definition throwM {A} (e : JsError) : M O S A := λ s, (Throw e, s, []).

Definition liftR {A} (r : Res A) : M O S A := λ s, (r, s, []).

Definition getM : M O S S := λ s, (Ok s, s, []).

Definition gets {A} (f : S → A) : M O S A := λ s, (Ok (f s), s, []).

Definition modify (f : S → S) : M O S unit := λ s, (Ok tt, f s, []).

(** [emitter?.emit(...)]: nothing happens when the emitter is undefined. *)
Definition emit (present : bool) (o : O) : M O S unit := λ s,
  (Ok tt, s, if present then [o] else []).

Definition whenM (b : bool) (m : M O S unit) : M O S unit :=
  if b then m else mret tt.

(** [try { m } catch (e) { h(e) }] *)
Definition catchM {A} (m : M O S A) (h : JsError → M O S A) : M O S A := λ s,
  match m s with
  | (Ok a, s1, o1) => (Ok a, s1, o1)
  | (Throw e, s1, o1) => match h e s1 with (r, s2, o2) => (r, s2, o1 ++ o2) end
  end.

(** [for (const x of l) f(x)] *)
Fixpoint forM {A} (l : list A) (f : A → M O S unit) : M O S unit :=
  match l with
  | [] => mret tt
  | x :: l' => _ ← f x; forM l' f
  end.

Definition res {A} (m : M O S A) (s : S) : Res A := (m s).1.1.
Definition post {A} (m : M O S A) (s : S) : S := (m s).1.2.
Definition out {A} (m : M O S A) (s : S) : list O := (m s).2.
End Monad.

(** [check(value, message, code)] of dlog/src/check.ts. *)
Definition throwWithCode {O S A} (message : string) (code : Err) : M O S A :=
  throwM (CodeException message code).

Definition check {O S} (value : bool) (message : string) (code : Err) : M O S unit :=
  if value then mret tt else throwWithCode message code.

Definition checkR (value : bool) (message : string) (code : Err) : Res unit :=
  if value then Ok tt else Throw (CodeException message code).

(** Run a method of a component that lives inside a larger object. *)
Definition zoom {O S T A} (get : S → T) (put : T → S → S) (m : M O T A) : M O S A := λ s,
  match m (get s) with (r, t, o) => (r, put t s, o) end.

(** ** Record update

    [r <| f := v |>] is the record [r] with the field [f] replaced. A record
    type declares its eta expansion once; the setter of each field is
    abstracted from it. *)

Class Eta (R : Type) := eta_of : R → R.
Class Setter {R T : Type} (p : R → T) := over : (T → T) → R → R.
Arguments over {R T} p {_} f r /.

Ltac derive_setter :=
  match goal with
  | |- @Setter ?R ?T ?p =>
      let e := constr:(eta_of : R → R) in
      let e := eval hnf in e in
      let g := eval pattern p in e in
      match g with
      | ?h p => exact (λ (f : T → T), h (λ r : R, f (p r)))
      end
  end.

#[export] Hint Extern 0 (Setter _) => derive_setter : typeclass_instances.

Declare Scope record_scope.
Delimit Scope record_scope with rec.
#[global] Open Scope record_scope.
Notation "r <| p := v |>" := (over p (λ _, v) r)
  (at level 1, left associativity, p at level 9, v at level 99) : record_scope.
Notation "r <| p ::= f |>" := (over p f r)
  (at level 1, left associativity, p at level 9, f at level 99) : record_scope.

(** ** Reasoning about methods

    [pres I m]: the method [m] preserves the invariant [I], also when it
    throws. [runs R m]: every run of [m] relates the state before to the state
    after by [R]; for a preorder this composes like an invariant. *)

Definition pres {O S A} (I : S → Prop) (m : M O S A) : Prop :=
  ∀ s, I s → I (post m s).

Definition runs {O S A} (R : relation S) (m : M O S A) : Prop :=
  ∀ s, R s (post m s).

(** [spec P m Q] is a total-correctness triple: the result, the state after
    and the emitted events of [m] satisfy [Q] from every state in [P]. *)
Definition spec {O S A} (P : S → Prop) (m : M O S A)
    (Q : S → Res A → S → list O → Prop) : Prop :=
  ∀ s, P s → Q s (res m s) (post m s) (out m s).

(** ** Results *)

Lemma bind_Ok {A B} (m : Res A) (f : A → Res B) b : (m ≫= f) = Ok b ↔ ∃ a, m = Ok a ∧ f a = Ok b.
Proof. destruct m as [a|e]; simpl; naive_solver. Qed.
#[export] Instance Ok_inj {A} : Inj (=) (=) (@Ok A).
Proof. by intros a b [= ->]. Qed.
Lemma checkR_Ok b message code u : checkR b message code = Ok u → b = true.
Proof. by destruct b. Qed.

Lemma traverse_ok {A B} (f : A → Res B) l r :
  traverse f l = Ok r ↔ Forall2 (λ x y, f x = Ok y) l r.
Proof.
  revert r. induction l as [|x l IH]; intros r; simpl.
  - split; [intros [= <-]; constructor|by inversion 1].
  - destruct (f x) as [y|e] eqn:E; simpl.
    + destruct (traverse f l) as [r'|e'] eqn:E'; simpl.
      * split; [intros [= <-]; constructor; [done|by apply IH]|]. inversion 1 as [|? y' ? r'' Hy Hr]; subst.
        apply IH in Hr. congruence.
      * split; [done|]. inversion 1 as [|? y' ? r'' Hy Hr]; subst. apply IH in Hr. congruence.
    + split; [done|]. inversion 1; congruence.
Qed.

Lemma traverse_app {A B} (f : A → Res B) l1 l2 r1 r2 :
  traverse f l1 = Ok r1 → traverse f l2 = Ok r2 → traverse f (l1 ++ l2) = Ok (r1 ++ r2).
Proof. rewrite !traverse_ok. apply Forall2_app. Qed.

Lemma traverse_throws {A B} (f : A → Res B) l : Exists (λ x, ∃ e, f x = Throw e) l → ∃ e, traverse f l = Throw e.
Proof.
  induction 1 as [x l [e E]|x l _ [e IH]]; simpl; [rewrite E; by exists e|].
  destruct (f x) as [y|e']; simpl; [rewrite IH; by exists e|by exists e'].
Qed.

(** Takes a hypothesis that says a composed call returned apart. *)
Ltac ok_inv :=
  repeat match goal with
  | H : (_ ≫= _) = Ok _ |- _ => apply bind_Ok in H as (? & ? & H)
  | H : mbind _ _ = Ok _ |- _ => apply bind_Ok in H as (? & ? & H)
  | H : checkR _ _ _ = Ok _ |- _ => apply checkR_Ok in H
  | H : Ok _ = Ok _ |- _ => apply (inj Ok) in H
  end.

Create HintDb pres.

Section Pres.
Context {O S : Type}.
Implicit Types I : S → Prop.

Lemma post_bind {A B} (m : M O S A) (f : A → M O S B) s :
  post (m ≫= f) s = match res m s with
                    | Ok a => post (f a) (post m s)
                    | Throw _ => post m s
                    end.
Proof.
  unfold post, res, mbind, M_bind. destruct (m s) as [[[a|e] s1] o1]; simpl; [|done].
  by destruct (f a s1) as [[? ?] ?].
Qed.

Lemma res_bind {A B} (m : M O S A) (f : A → M O S B) s :
  res (m ≫= f) s = match res m s with
                   | Ok a => res (f a) (post m s)
                   | Throw e => Throw e
                   end.
Proof.
  unfold post, res, mbind, M_bind. destruct (m s) as [[[a|e] s1] o1]; simpl; [|done].
  by destruct (f a s1) as [[? ?] ?].
Qed.

Lemma out_bind {A B} (m : M O S A) (f : A → M O S B) s :
  out (m ≫= f) s = match res m s with
                   | Ok a => out m s ++ out (f a) (post m s)
                   | Throw _ => out m s
                   end.
Proof.
  unfold post, res, out, mbind, M_bind. destruct (m s) as [[[a|e] s1] o1]; simpl; [|done].
  by destruct (f a s1) as [[? ?] ?].
Qed.

(** Symbolic execution of a method: the database [run] steps [post], [res] and
    [out] through the primitives at the head of a method. *)
Lemma post_ret {A} (a : A) s : post (mret a : M O S A) s = s.
Proof. done. Qed.
Lemma res_ret {A} (a : A) s : res (mret a : M O S A) s = Ok a.
Proof. done. Qed.
Lemma out_ret {A} (a : A) s : out (mret a : M O S A) s = [].
Proof. done. Qed.
Lemma post_modify (f : S → S) s : post (modify f : M O S unit) s = f s.
Proof. done. Qed.
Lemma res_modify (f : S → S) s : res (modify f : M O S unit) s = Ok tt.
Proof. done. Qed.
Lemma out_modify (f : S → S) s : out (modify f : M O S unit) s = [].
Proof. done. Qed.
Lemma post_emit b o s : post (emit b o : M O S unit) s = s.
Proof. done. Qed.
Lemma res_emit b o s : res (emit b o : M O S unit) s = Ok tt.
Proof. done. Qed.
Lemma out_emit b o s : out (emit b o : M O S unit) s = if b then [o] else [].
Proof. done. Qed.
Lemma post_throw {A} e s : post (throwM e : M O S A) s = s.
Proof. done. Qed.
Lemma res_throw {A} e s : res (throwM e : M O S A) s = Throw e.
Proof. done. Qed.
Lemma out_throw {A} e s : out (throwM e : M O S A) s = [].
Proof. done. Qed.
Lemma post_lift {A} (r : Res A) s : post (liftR r : M O S A) s = s.
Proof. done. Qed.
Lemma res_lift {A} (r : Res A) s : res (liftR r : M O S A) s = r.
Proof. done. Qed.
Lemma out_lift {A} (r : Res A) s : out (liftR r : M O S A) s = [].
Proof. done. Qed.

Section BindSteps.
Context {B : Type}.
Lemma bind_ret {A} (a : A) (k : A → M O S B) s : (mret a ≫= k) s = k a s.
Proof. unfold mbind, M_bind, mret, M_ret. by destruct (k a s) as [[??]?]. Qed.
Lemma bind_getM (k : S → M O S B) s : (getM ≫= k) s = k s s.
Proof. unfold mbind, M_bind, getM. by destruct (k s s) as [[??]?]. Qed.
Lemma bind_gets {A} (g : S → A) (k : A → M O S B) s : (gets g ≫= k) s = k (g s) s.
Proof. unfold mbind, M_bind, gets. by destruct (k (g s) s) as [[??]?]. Qed.
Lemma bind_modify (f : S → S) (k : unit → M O S B) s : (modify f ≫= k) s = k tt (f s).
Proof. unfold mbind, M_bind, modify. by destruct (k tt (f s)) as [[??]?]. Qed.
Lemma bind_throw {A} e (k : A → M O S B) s : (throwM e ≫= k) s = (Throw e, s, []).
Proof. done. Qed.
Lemma bind_assoc {A C} (m : M O S A) (f : A → M O S C) (k : C → M O S B) s :
  ((m ≫= f) ≫= k) s = (m ≫= λ a, f a ≫= k) s.
Proof.
  unfold mbind, M_bind. destruct (m s) as [[[a|e] s1] o1]; [|done].
  destruct (f a s1) as [[[c|e] s2] o2]; [|done].
  destruct (k c s2) as [[??]?]. by rewrite app_assoc.
Qed.

Lemma post_bind_ret {A} (a : A) (k : A → M O S B) s : post (mret a ≫= k) s = post (k a) s.
Proof. unfold post. by rewrite bind_ret. Qed.
Lemma res_bind_ret {A} (a : A) (k : A → M O S B) s : res (mret a ≫= k) s = res (k a) s.
Proof. unfold res. by rewrite bind_ret. Qed.
Lemma out_bind_ret {A} (a : A) (k : A → M O S B) s : out (mret a ≫= k) s = out (k a) s.
Proof. unfold out. by rewrite bind_ret. Qed.
Lemma post_bind_getM (k : S → M O S B) s : post (getM ≫= k) s = post (k s) s.
Proof. unfold post. by rewrite bind_getM. Qed.
Lemma res_bind_getM (k : S → M O S B) s : res (getM ≫= k) s = res (k s) s.
Proof. unfold res. by rewrite bind_getM. Qed.
Lemma out_bind_getM (k : S → M O S B) s : out (getM ≫= k) s = out (k s) s.
Proof. unfold out. by rewrite bind_getM. Qed.
Lemma post_bind_gets {A} (g : S → A) (k : A → M O S B) s :
  post (gets g ≫= k) s = post (k (g s)) s.
Proof. unfold post. by rewrite bind_gets. Qed.
Lemma res_bind_gets {A} (g : S → A) (k : A → M O S B) s :
  res (gets g ≫= k) s = res (k (g s)) s.
Proof. unfold res. by rewrite bind_gets. Qed.
Lemma out_bind_gets {A} (g : S → A) (k : A → M O S B) s :
  out (gets g ≫= k) s = out (k (g s)) s.
Proof. unfold out. by rewrite bind_gets. Qed.
Lemma post_bind_modify (f : S → S) (k : unit → M O S B) s :
  post (modify f ≫= k) s = post (k tt) (f s).
Proof. unfold post. by rewrite bind_modify. Qed.
Lemma res_bind_modify (f : S → S) (k : unit → M O S B) s :
  res (modify f ≫= k) s = res (k tt) (f s).
Proof. unfold res. by rewrite bind_modify. Qed.
Lemma out_bind_modify (f : S → S) (k : unit → M O S B) s :
  out (modify f ≫= k) s = out (k tt) (f s).
Proof. unfold out. by rewrite bind_modify. Qed.
Lemma post_bind_emit b o (k : unit → M O S B) s : post (emit b o ≫= k) s = post (k tt) s.
Proof. by rewrite post_bind. Qed.
Lemma res_bind_emit b o (k : unit → M O S B) s : res (emit b o ≫= k) s = res (k tt) s.
Proof. by rewrite res_bind. Qed.
Lemma out_bind_emit b o (k : unit → M O S B) s :
  out (emit b o ≫= k) s = (if b then [o] else []) ++ out (k tt) s.
Proof. by rewrite out_bind. Qed.
Lemma post_bind_throw {A} e (k : A → M O S B) s : post (throwM e ≫= k) s = s.
Proof. done. Qed.
Lemma res_bind_throw {A} e (k : A → M O S B) s : res (throwM e ≫= k) s = Throw e.
Proof. done. Qed.
Lemma out_bind_throw {A} e (k : A → M O S B) s : out (throwM e ≫= k) s = [].
Proof. done. Qed.
Lemma post_bind_liftOk {A} (a : A) (k : A → M O S B) s : post (liftR (Ok a) ≫= k) s = post (k a) s.
Proof. apply post_bind_ret. Qed.
Lemma res_bind_liftOk {A} (a : A) (k : A → M O S B) s : res (liftR (Ok a) ≫= k) s = res (k a) s.
Proof. apply res_bind_ret. Qed.
Lemma out_bind_liftOk {A} (a : A) (k : A → M O S B) s : out (liftR (Ok a) ≫= k) s = out (k a) s.
Proof. apply out_bind_ret. Qed.
Lemma post_bind_liftThrow {A} e (k : A → M O S B) s : post (liftR (Throw e) ≫= k) s = s.
Proof. done. Qed.
Lemma res_bind_liftThrow {A} e (k : A → M O S B) s : res (liftR (Throw e) ≫= k) s = Throw e.
Proof. done. Qed.
Lemma out_bind_liftThrow {A} e (k : A → M O S B) s : out (liftR (Throw e) ≫= k) s = [].
Proof. done. Qed.
Lemma post_bind_assoc {A C} (m : M O S A) (f : A → M O S C) (k : C → M O S B) s :
  post ((m ≫= f) ≫= k) s = post (m ≫= λ a, f a ≫= k) s.
Proof. unfold post. by rewrite bind_assoc. Qed.
Lemma res_bind_assoc {A C} (m : M O S A) (f : A → M O S C) (k : C → M O S B) s :
  res ((m ≫= f) ≫= k) s = res (m ≫= λ a, f a ≫= k) s.
Proof. unfold res. by rewrite bind_assoc. Qed.
Lemma out_bind_assoc {A C} (m : M O S A) (f : A → M O S C) (k : C → M O S B) s :
  out ((m ≫= f) ≫= k) s = out (m ≫= λ a, f a ≫= k) s.
Proof. unfold out. by rewrite bind_assoc. Qed.
End BindSteps.

Lemma pres_ret {A} I (a : A) : pres I (mret a : M O S A).
Proof. by intros s. Qed.
Lemma pres_throw {A} I e : pres I (throwM e : M O S A).
Proof. by intros s. Qed.
Lemma pres_lift {A} I (r : Res A) : pres I (liftR r : M O S A).
Proof. by intros s. Qed.
Lemma pres_getM I : pres I (getM : M O S S).
Proof. by intros s. Qed.
Lemma pres_gets {A} I (f : S → A) : pres I (gets f : M O S A).
Proof. by intros s. Qed.
Lemma pres_emit I b o : pres I (emit b o : M O S unit).
Proof. by intros s. Qed.
Lemma pres_check I b msg c : pres I (check b msg c : M O S unit).
Proof. by destruct b; intros s Hs. Qed.
Lemma pres_throwWithCode {A} I msg c : pres I (throwWithCode msg c : M O S A).
Proof. by intros s. Qed.
Lemma pres_modify I (f : S → S) : (∀ s, I s → I (f s)) → pres I (modify f : M O S unit).
Proof. intros H s. apply H. Qed.
Lemma pres_when I b (m : M O S unit) : (b = true → pres I m) → pres I (whenM b m).
Proof. destruct b; [auto | intros _; apply pres_ret]. Qed.

Lemma pres_bind {A B} I (m : M O S A) (f : A → M O S B) :
  pres I m → (∀ a, pres I (f a)) → pres I (m ≫= f).
Proof.
  intros Hm Hf s Hs. rewrite post_bind. destruct (res m s); [apply Hf|]; by apply Hm.
Qed.

(** The continuation of a read runs in the state that was read. *)
Lemma pres_bind_get {B} I (f : S → M O S B) :
  (∀ s, I s → I (post (f s) s)) → pres I (getM ≫= f).
Proof. intros Hf s Hs. rewrite post_bind. cbn. by apply Hf. Qed.

Lemma pres_bind_gets {A B} I (g : S → A) (f : A → M O S B) :
  (∀ s, I s → I (post (f (g s)) s)) → pres I (gets g ≫= f).
Proof. intros Hf s Hs. rewrite post_bind. cbn. by apply Hf. Qed.

Lemma pres_catch {A} I (m : M O S A) h :
  pres I m → (∀ e, pres I (h e)) → pres I (catchM m h).
Proof.
  intros Hm Hh s Hs. specialize (Hm s Hs). revert Hm. unfold post, catchM.
  destruct (m s) as [[[a|e] s1] o1]; simpl; [done|]. intros H1.
  specialize (Hh e s1 H1). revert Hh. unfold post.
  by destruct (h e s1) as [[? ?] ?].
Qed.

Lemma pres_forM {A} I (l : list A) (f : A → M O S unit) :
  (∀ x, x ∈ l → pres I (f x)) → pres I (forM l f).
Proof.
  induction l as [|x l IH]; simpl; intros Hf; [apply pres_ret|].
  apply pres_bind; [apply Hf; set_solver|]. intros _. apply IH. set_solver.
Qed.

Lemma post_zoom {T A} (get : S → T) put (m : M O T A) s :
  post (zoom get put m) s = put (post m (get s)) s.
Proof. unfold post, zoom. by destruct (m (get s)) as [[??]?]. Qed.
Lemma res_zoom {T A} (get : S → T) put (m : M O T A) s :
  res (zoom get put m) s = res m (get s).
Proof. unfold res, zoom. by destruct (m (get s)) as [[??]?]. Qed.
Lemma out_zoom {T A} (get : S → T) put (m : M O T A) s :
  out (zoom get put m) s = out m (get s).
Proof. unfold out, zoom. by destruct (m (get s)) as [[??]?]. Qed.

(** A method that returns runs on. *)
Lemma post_bind_ok {A B} (m : M O S A) (f : A → M O S B) a s :
  res m s = Ok a → post (m ≫= f) s = post (f a) (post m s).
Proof. intros H. by rewrite post_bind, H. Qed.
Lemma res_bind_ok {A B} (m : M O S A) (f : A → M O S B) a s :
  res m s = Ok a → res (m ≫= f) s = res (f a) (post m s).
Proof. intros H. by rewrite res_bind, H. Qed.
Lemma out_bind_ok {A B} (m : M O S A) (f : A → M O S B) a s :
  res m s = Ok a → out (m ≫= f) s = out m s ++ out (f a) (post m s).
Proof. intros H. by rewrite out_bind, H. Qed.

(** An error that is caught and replaced by a value *)
Lemma catch_post {A} (m : M O S A) a s : post (catchM m (λ _, mret a)) s = post m s.
Proof. unfold post, catchM. by destruct (m s) as [[[?|?] ?] ?]. Qed.
Lemma catch_res {A} (m : M O S A) a s :
  res (catchM m (λ _, mret a)) s = match res m s with Ok x => Ok x | Throw _ => Ok a end.
Proof. unfold res, catchM. by destruct (m s) as [[[?|?] ?] ?]. Qed.
Lemma catch_out {A} (m : M O S A) a s : out (catchM m (λ _, mret a)) s = out m s.
Proof. unfold out, catchM. destruct (m s) as [[[?|?] ?] ?]; simpl; [done|apply app_nil_r]. Qed.

Lemma forM_snoc_ok {A} (l : list A) x (f : A → M O S unit) s :
  res (forM l f) s = Ok tt →
  post (forM (l ++ [x]) f) s = post (f x) (post (forM l f) s)
  ∧ res (forM (l ++ [x]) f) s = res (f x) (post (forM l f) s)
  ∧ out (forM (l ++ [x]) f) s = out (forM l f) s ++ out (f x) (post (forM l f) s).
Proof.
  assert (∀ s, post (f x ≫= λ _, mret tt) s = post (f x) s ∧
               res (f x ≫= λ _, mret tt) s = res (f x) s ∧
               out (f x ≫= λ _, mret tt) s = out (f x) s) as Hx.
  { intros s'. rewrite post_bind, res_bind, out_bind.
    destruct (res (f x) s') as [[]|]; [|done]. by rewrite post_ret, res_ret, out_ret, app_nil_r. }
  revert s. induction l as [|y l IH]; intros s; simpl.
  - intros _. destruct (Hx s) as (-> & -> & ->). done.
  - rewrite res_bind. destruct (res (f y) s) as [[]|] eqn:E; [|done]. intros H.
    rewrite !(post_bind_ok _ _ tt), !(res_bind_ok _ _ tt), !(out_bind_ok _ _ tt) by done.
    destruct (IH _ H) as (-> & -> & ->). by rewrite app_assoc.
Qed.

Lemma pres_zoom {T A} (I : S → Prop) (J : T → Prop) get put (m : M O T A) :
  (∀ s, I s → J (get s)) → (∀ s t, I s → J t → I (put t s)) →
  pres J m → pres I (zoom get put m).
Proof.
  intros Hg Hp Hm s Hs. specialize (Hm (get s) (Hg s Hs)). revert Hm.
  unfold post, zoom. destruct (m (get s)) as [[r t] o]; simpl. auto.
Qed.

Lemma pres_and {A} I1 I2 (m : M O S A) : pres I1 m → pres I2 m → pres (λ s, I1 s ∧ I2 s) m.
Proof. intros H1 H2 s [??]. split; [by apply H1 | by apply H2]. Qed.

Lemma runs_of_pres {A} (R : relation S) `{!Reflexive R} (m : M O S A) :
  (∀ s0, pres (R s0) m) → runs R m.
Proof. intros H s. by apply (H s s). Qed.
End Pres.

#[export] Hint Resolve pres_ret pres_throw pres_lift pres_getM pres_gets pres_emit
  pres_check pres_throwWithCode pres_bind pres_when pres_catch pres_forM : pres.

#[export] Hint Rewrite @post_bind_liftOk @res_bind_liftOk @out_bind_liftOk
  @post_bind_liftThrow @res_bind_liftThrow @out_bind_liftThrow : run.
#[export] Hint Rewrite @post_zoom @res_zoom @out_zoom : run.
#[export] Hint Rewrite @post_ret @res_ret @out_ret @post_modify @res_modify @out_modify
  @post_emit @res_emit @out_emit @post_throw @res_throw @out_throw @post_lift @res_lift
  @out_lift @post_bind_ret @res_bind_ret @out_bind_ret @post_bind_getM @res_bind_getM
  @out_bind_getM @post_bind_gets @res_bind_gets @out_bind_gets @post_bind_modify
  @res_bind_modify @out_bind_modify @post_bind_emit @res_bind_emit @out_bind_emit
  @post_bind_throw @res_bind_throw @out_bind_throw @post_bind_assoc @res_bind_assoc
  @out_bind_assoc : run.

(** [run] executes the head of a method; [run_case] also splits on the conditions
    it meets, keeping the equations. *)
Ltac run := unfold check, throwWithCode in *; repeat (progress (autorewrite with run; cbn [negb andb orb])).
Ltac run_case :=
  repeat (run; try match goal with
    | |- context [post (match ?c with _ => _ end ≫= _) _] => let E := fresh "E" in destruct c eqn:E
    | |- context [post (match ?c with _ => _ end) _] => let E := fresh "E" in destruct c eqn:E
    | |- context [post (whenM ?c _ ≫= _) _] =>
        let E := fresh "E" in destruct c eqn:E; unfold whenM
    | |- context [post (whenM ?c _) _] => let E := fresh "E" in destruct c eqn:E; unfold whenM
    end).

(** ** Frames

    [keeps π m]: the method [m] leaves the part [π] of the state alone, also
    when it throws. The tactic [keeps] proves such facts by walking through the
    method, with the lemmas of the database [keeps] for the methods it calls. *)

Definition keeps {O S A T} (π : S → T) (m : M O S A) : Prop := ∀ s, π (post m s) = π s.

Create HintDb keeps.

Section Keeps.
Context {O S T : Type}.
Implicit Types π : S → T.

Lemma keeps_ret {A} π (a : A) : keeps π (mret a : M O S A).
Proof. by intros s. Qed.
Lemma keeps_throw {A} π e : keeps π (throwM e : M O S A).
Proof. by intros s. Qed.
Lemma keeps_throwWithCode {A} π msg c : keeps π (throwWithCode msg c : M O S A).
Proof. by intros s. Qed.
Lemma keeps_lift {A} π (r : Res A) : keeps π (liftR r : M O S A).
Proof. by intros s. Qed.
Lemma keeps_getM π : keeps π (getM : M O S S).
Proof. by intros s. Qed.
Lemma keeps_gets {A} π (f : S → A) : keeps π (gets f : M O S A).
Proof. by intros s. Qed.
Lemma keeps_emit π b o : keeps π (emit b o : M O S unit).
Proof. by intros s. Qed.
Lemma keeps_check π b msg c : keeps π (check b msg c : M O S unit).
Proof. by destruct b; intros s. Qed.
Lemma keeps_modify π (f : S → S) : (∀ s, π (f s) = π s) → keeps π (modify f : M O S unit).
Proof. intros H s. apply H. Qed.
Lemma keeps_when π b (m : M O S unit) : keeps π m → keeps π (whenM b m).
Proof. by destruct b. Qed.
Lemma keeps_bind {A B} π (m : M O S A) (f : A → M O S B) :
  keeps π m → (∀ a, keeps π (f a)) → keeps π (m ≫= f).
Proof.
  intros Hm Hf s. rewrite post_bind. destruct (res m s); [|apply Hm]. rewrite Hf. apply Hm.
Qed.
Lemma keeps_catch {A} π (m : M O S A) h :
  keeps π m → (∀ e, keeps π (h e)) → keeps π (catchM m h).
Proof.
  intros Hm Hh s. specialize (Hm s). revert Hm. unfold post, catchM.
  destruct (m s) as [[[a|e] s1] o1]; simpl; [done|]. intros H1.
  specialize (Hh e s1). revert Hh. unfold post.
  destruct (h e s1) as [[? ?] ?]. simpl. congruence.
Qed.
Lemma keeps_forM {A} π (l : list A) (f : A → M O S unit) :
  (∀ x, keeps π (f x)) → keeps π (forM l f).
Proof.
  intros Hf. induction l; cbn [forM]; [apply keeps_ret|]. by apply keeps_bind; [apply Hf|].
Qed.
Lemma keeps_zoom {U A} π (get : S → U) put (m : M O U A) :
  (∀ s t, π (put t s) = π s) → keeps π (zoom get put m).
Proof. intros Hp s. by rewrite post_zoom. Qed.

Lemma keeps_pres {A} π (P : T → Prop) (m : M O S A) : keeps π m → pres (λ s, P (π s)) m.
Proof. intros Hk s. by rewrite Hk. Qed.
End Keeps.

Ltac keeps :=
  repeat first
    [ apply keeps_ret | apply keeps_throw | apply keeps_throwWithCode | apply keeps_lift
    | apply keeps_getM | apply keeps_gets | apply keeps_emit | apply keeps_check
    | solve [auto with keeps nocore]
    | apply keeps_when | apply keeps_bind; [|intros ?] | apply keeps_catch; [|intros ?]
    | apply keeps_forM; intros ?
    | apply keeps_zoom; intros ? ?; reflexivity
    | apply keeps_modify; intros ?; reflexivity
    | match goal with |- keeps _ (match ?x with _ => _ end) => destruct x end
    | match goal with |- keeps _ (let _ := ?x in _) => cbv zeta end ].

(** ** Growth

    [moves R m]: whatever [m] does, also when it throws, takes a state to an
    [R]-related one; [R] is a preorder on states. The tactic [moves] walks
    through a method like [keeps] does. *)

Definition moves {O S A} (R : relation S) (m : M O S A) : Prop := ∀ s, R s (post m s).

Create HintDb moves.

Section Moves.
Context {O S : Type} (R : relation S) `{!PreOrder R}.

Lemma moves_keeps {A} (m : M O S A) : keeps id m → moves R m.
Proof. intros Hk s. rewrite (Hk s : post m s = s). reflexivity. Qed.
Lemma moves_modify (f : S → S) : (∀ s, R s (f s)) → moves R (modify f : M O S unit).
Proof. intros Hf s. apply Hf. Qed.
Lemma moves_when b (m : M O S unit) : moves R m → moves R (whenM b m).
Proof. intros Hm. destruct b; [done|]. intros s. reflexivity. Qed.
Lemma moves_bind {A B} (m : M O S A) (f : A → M O S B) :
  moves R m → (∀ a, moves R (f a)) → moves R (m ≫= f).
Proof.
  intros Hm Hf s. rewrite post_bind. destruct (res m s); [|apply Hm].
  etrans; [apply Hm|apply Hf].
Qed.
Lemma moves_catch {A} (m : M O S A) h :
  moves R m → (∀ e, moves R (h e)) → moves R (catchM m h).
Proof.
  intros Hm Hh s. specialize (Hm s). revert Hm. unfold post, catchM.
  destruct (m s) as [[[a|e] s1] o1]; simpl; [done|]. intros H1.
  specialize (Hh e s1). revert Hh. unfold post.
  destruct (h e s1) as [[? ?] ?]. simpl. intros H2. by etrans.
Qed.
Lemma moves_forM {A} (l : list A) (f : A → M O S unit) :
  (∀ x, moves R (f x)) → moves R (forM l f).
Proof.
  intros Hf. induction l; cbn [forM]; [intros s; reflexivity|].
  by apply moves_bind; [apply Hf|].
Qed.
Lemma moves_zoom {U A} (R' : relation U) (get : S → U) put (m : M O U A) :
  moves R' m → (∀ s t, R' (get s) t → R s (put t s)) → moves R (zoom get put m).
Proof. intros Hm Hp s. rewrite post_zoom. apply Hp, Hm. Qed.
End Moves.

Ltac moves :=
  repeat first
    [ apply moves_keeps; [typeclasses eauto|]; first
        [ apply keeps_ret | apply keeps_throw | apply keeps_throwWithCode | apply keeps_lift
        | apply keeps_getM | apply keeps_gets | apply keeps_emit | apply keeps_check
        | solve [auto with keeps nocore] ]
    | solve [auto with moves nocore]
    | apply moves_when; [typeclasses eauto|]
    | apply moves_bind; [typeclasses eauto| |intros ?]
    | apply moves_catch; [typeclasses eauto| |intros ?]
    | apply moves_forM; [typeclasses eauto|intros ?]
    | match goal with |- moves _ (match ?x with _ => _ end) => destruct x end
    | match goal with |- moves _ (let _ := ?x in _) => cbv zeta end ].
