(* ===== verification/JsLib.v ===== *)
(** * JsLib: the parts of the JavaScript standard library the SDK uses

    Strings ([startsWith], [slice], [padEnd], ...), arrays ([findIndex],
    [splice], [sort]), truthiness, and [Map] with its insertion order.
    Strings are Rocq strings of 8-bit characters: every string the modelled
    code builds or compares (ids, hex, addresses, keys) is ASCII, and on ASCII
    the UTF-16 code-unit order of [<] and [sort] is the order of [String.le]. *)

From S2P Require Import Prelude.
From Stdlib Require Import Ascii.

(** ** Truthiness *)

Definition truthy_str (s : string) : bool := negb (String.eqb s "").
(** [x ? ... : ...] for [x : string | undefined] *)
Definition truthy (o : option string) : bool :=
  match o with Some s => truthy_str s | None => false end.
Definition isDefined {A} (o : option A) : bool :=
  match o with Some _ => true | None => false end.
(** [x && ...] for [x : bigint | undefined]: [0n] is falsy. *)
Definition truthy_bigint (o : option Z) : bool :=
  match o with Some z => negb (z =? 0) | None => false end.

(** ** Strings *)

Module Str.
Definition length (s : string) : Z := Z.of_nat (String.length s).

Definition startsWith (s p : string) : bool := String.prefix p s.

(** [s.slice(i, j)] for [0 <= i <= j] *)
Definition slice (i j : nat) (s : string) : string := String.substring i (j - i) s.

(** [s.slice(i)] *)
Definition slice_from (i : nat) (s : string) : string :=
  String.substring i (String.length s - i) s.

(** [s.at(i)], [s[i]] *)
Definition charAt (i : nat) (s : string) : option ascii := String.get i s.

(** [c.repeat(n)] *)
Fixpoint repeat (c : ascii) (n : nat) : string :=
  match n with
  | O => ""
  | S n => String c (repeat c n)
  end.

(** [s.padEnd(n, c)] *)
Definition padEnd (s : string) (n : nat) (c : ascii) : string :=
  s +:+ repeat c (n - String.length s).

Definition endsWith (s p : string) : bool :=
  let i := (String.length s - String.length p)%nat in
  (String.length p <=? String.length s)%nat && String.eqb (slice_from i s) p.

Definition lower_ascii (c : ascii) : ascii :=
  let n := nat_of_ascii c in
  if (65 <=? n)%nat && (n <=? 90)%nat then ascii_of_nat (n + 32) else c.

Fixpoint map (f : ascii → ascii) (s : string) : string :=
  match s with
  | "" => ""
  | String c s => String (f c) (map f s)
  end.

Definition toLowerCase (s : string) : string := map lower_ascii s.

Fixpoint all (f : ascii → bool) (s : string) : bool :=
  match s with
  | "" => true
  | String c s => f c && all f s
  end.

Definition ltb (s1 s2 : string) : bool := String.ltb s1 s2.

(** ** Lemmas *)

Lemma length_app s1 s2 : String.length (s1 +:+ s2) = (String.length s1 + String.length s2)%nat.
Proof. induction s1; simpl; [done|]. unfold String.app in *. simpl. by f_equal. Qed.

Lemma length_repeat c n : String.length (repeat c n) = n.
Proof. induction n; simpl; congruence. Qed.

Lemma length_map f s : String.length (map f s) = String.length s.
Proof. induction s; simpl; congruence. Qed.

Lemma app_nil_r s : s +:+ "" = s.
Proof. induction s; [done|]. unfold String.app in *. simpl. by f_equal. Qed.

Lemma app_assoc s1 s2 s3 : s1 +:+ (s2 +:+ s3) = (s1 +:+ s2) +:+ s3.
Proof. induction s1; [done|]. unfold String.app in *. simpl. by f_equal. Qed.

Lemma app_cons c s1 s2 : String c s1 +:+ s2 = String c (s1 +:+ s2).
Proof. done. Qed.

Lemma all_app f s1 s2 : all f (s1 +:+ s2) = all f s1 && all f s2.
Proof. induction s1; [done|]. rewrite app_cons. simpl. rewrite IHs1. by destruct (f a). Qed.

Lemma all_repeat f c n : f c = true → all f (repeat c n) = true.
Proof. intros H. induction n; simpl; [done|]. by rewrite H. Qed.

Lemma map_id f s : (∀ c, f c = c) → map f s = s.
Proof. intros H. induction s; simpl; congruence. Qed.

Lemma substring_full s : String.substring 0 (String.length s) s = s.
Proof. induction s; simpl; congruence. Qed.

Lemma substring_app_l n s1 s2 :
  (n <= String.length s1)%nat → String.substring 0 n (s1 +:+ s2) = String.substring 0 n s1.
Proof.
  revert n. induction s1 as [|c s1 IH]; intros n Hn; simpl in Hn.
  - assert (n = 0)%nat as -> by lia. by destruct s2.
  - rewrite app_cons. destruct n; [done|]. simpl. f_equal. apply IH. lia.
Qed.

Lemma substring_app_r i n s1 s2 :
  (String.length s1 <= i)%nat →
  String.substring i n (s1 +:+ s2) = String.substring (i - String.length s1) n s2.
Proof.
  revert i. induction s1 as [|c s1 IH]; intros i Hi; simpl in Hi.
  - by rewrite Nat.sub_0_r.
  - rewrite app_cons. destruct i; [lia|]. simpl. apply IH. lia.
Qed.

Lemma slice_app_exact s1 s2 s3 i j :
  i = String.length s1 → j = (i + String.length s2)%nat →
  slice i j (s1 +:+ s2 +:+ s3) = s2.
Proof.
  intros -> ->. unfold slice. rewrite substring_app_r by lia.
  replace (String.length s1 + String.length s2 - String.length s1)%nat
    with (String.length s2) by lia.
  rewrite Nat.sub_diag, substring_app_l by lia. apply substring_full.
Qed.

Lemma slice_from_app s1 s2 i :
  i = String.length s1 → slice_from i (s1 +:+ s2) = s2.
Proof.
  intros ->. unfold slice_from. rewrite length_app, substring_app_r by lia.
  rewrite Nat.sub_diag.
  replace (String.length s1 + String.length s2 - String.length s1)%nat
    with (String.length s2) by lia.
  apply substring_full.
Qed.

Lemma split_at n s :
  (n <= String.length s)%nat →
  s = String.substring 0 n s +:+ slice_from n s ∧
  String.length (String.substring 0 n s) = n.
Proof.
  revert n. induction s as [|c s IH]; intros n Hn; simpl in Hn.
  - assert (n = 0)%nat as -> by lia. done.
  - destruct n as [|n].
    + split; [|done]. unfold slice_from. simpl String.length. rewrite Nat.sub_0_r.
      by rewrite <- (substring_full (String c s)) at 1.
    + destruct (IH n ltac:(lia)) as [H1 H2]. split.
      * unfold slice_from in *. simpl. rewrite app_cons. by rewrite <- H1.
      * simpl. by rewrite H2.
Qed.

Lemma length_slice_from n s : String.length (slice_from n s) = (String.length s - n)%nat.
Proof.
  destruct (decide (n <= String.length s)%nat) as [Hn|Hn].
  - destruct (split_at n s Hn) as [H1 H2].
    pose proof (f_equal String.length H1) as H3. rewrite length_app, H2 in H3. lia.
  - unfold slice_from. replace (String.length s - n)%nat with 0%nat by lia.
    clear. revert n. induction s; intros [|n]; simpl; auto.
Qed.

Lemma startsWith_app p s : startsWith (p +:+ s) p = true.
Proof.
  unfold startsWith. induction p as [|c p IH]; [by destruct s|].
  rewrite app_cons. simpl. destruct (ascii_dec c c); done.
Qed.

Lemma startsWith_inv s p : startsWith s p = true → ∃ t, s = p +:+ t.
Proof.
  unfold startsWith. revert s. induction p as [|c p IH]; intros s H; [by exists s|].
  destruct s as [|c' s]; [done|]. simpl in H.
  destruct (ascii_dec c c') as [->|]; [|done]. destruct (IH s H) as [t ->]. by exists t.
Qed.
End Str.

(** ** Arrays *)

(** [l.findIndex(f)]; [None] is the -1 of JavaScript. *)
Fixpoint findIndex {A} (f : A → bool) (l : list A) : option nat :=
  match l with
  | [] => None
  | x :: l => if f x then Some O else S <$> findIndex f l
  end.

(** [l.splice(i, 1)] *)
Definition splice1 {A} (i : nat) (l : list A) : list A := take i l ++ drop (S i) l.

(** [l.find(f)] *)
Definition findJs {A} (f : A → bool) (l : list A) : option A :=
  match findIndex f l with Some i => l !! i | None => None end.

Section FindIndex.
Context {A : Type}.
Implicit Types (f : A → bool) (l : list A).

Lemma findIndex_Some f l i :
  findIndex f l = Some i ↔
  ∃ x, l !! i = Some x ∧ f x = true ∧ ∀ j y, (j < i)%nat → l !! j = Some y → f y = false.
Proof.
  revert i. induction l as [|a l IH]; intros i; simpl.
  { split; [done|]. by intros (x & Hx & _). }
  destruct (f a) eqn:Ha.
  - split.
    + intros [= <-]. exists a. split_and!; [done..|]. lia.
    + intros (x & Hx & Hf & Hlt). destruct i; [done|].
      by rewrite (Hlt O a) in Ha by (done || lia).
  - split.
    + intros (i' & Hi & ->)%fmap_Some. apply IH in Hi as (x & Hx & Hf & Hlt).
      exists x. split_and!; [done..|]. intros [|j] y Hj Hy; [by simplify_eq/=|].
      apply (Hlt j y); [lia|done].
    + intros (x & Hx & Hf & Hlt). destruct i as [|i]; [simplify_eq/=; congruence|].
      apply fmap_Some. exists i. split; [|done]. apply IH. exists x.
      split_and!; [done..|]. intros j y Hj Hy. apply (Hlt (S j) y); [lia|done].
Qed.

Lemma findIndex_None f l : findIndex f l = None ↔ ∀ x, x ∈ l → f x = false.
Proof.
  induction l as [|a l IH]; simpl; [set_solver|].
  destruct (f a) eqn:Ha.
  - split; [done|]. intros H. by rewrite (H a) in Ha by set_solver.
  - rewrite fmap_None, IH. setoid_rewrite elem_of_cons. naive_solver.
Qed.

Lemma findIndex_lt f l i : findIndex f l = Some i → (i < length l)%nat.
Proof. intros (x & Hx & _)%findIndex_Some. by eapply lookup_lt_Some. Qed.

Lemma findJs_Some f l x : findJs f l = Some x → x ∈ l ∧ f x = true.
Proof.
  unfold findJs. destruct (findIndex f l) as [i|] eqn:E; [|done].
  apply findIndex_Some in E as (y & Hy & Hf & _). rewrite Hy. intros [= ->].
  split; [by eapply list_elem_of_lookup_2|done].
Qed.

Lemma findJs_cons f x l : findJs f (x :: l) = if f x then Some x else findJs f l.
Proof. unfold findJs. simpl. destruct (f x); [done|]. by destruct (findIndex f l). Qed.

Lemma findJs_app f l1 l2 :
  findJs f (l1 ++ l2) = match findJs f l1 with Some x => Some x | None => findJs f l2 end.
Proof.
  induction l1 as [|x l1 IH]; [done|]. rewrite <- app_comm_cons, !findJs_cons.
  by destruct (f x).
Qed.

Lemma findJs_None f l : findJs f l = None ↔ findIndex f l = None.
Proof.
  unfold findJs. destruct (findIndex f l) as [i|] eqn:E; [|done].
  apply findIndex_Some in E as (y & -> & _). done.
Qed.

(** Replacing the element that [findIndex] found *)
Lemma findJs_insert_same f l i x :
  findIndex f l = Some i → f x = true → findJs f (<[i := x]> l) = Some x.
Proof.
  intros Hi Hx. revert i Hi. induction l as [|a l IH]; intros i Hi; [done|]. simpl in Hi.
  destruct (f a) eqn:Ha.
  - injection Hi as <-. simpl. by rewrite findJs_cons, Hx.
  - apply fmap_Some in Hi as (j & Hj & ->). simpl. by rewrite findJs_cons, Ha, (IH j Hj).
Qed.

Lemma findJs_insert_other f g l i x :
  findIndex f l = Some i → f x = true → (∀ y, f y = true → g y = false) →
  findJs g (<[i := x]> l) = findJs g l.
Proof.
  intros Hi Hx Hg. revert i Hi. induction l as [|a l IH]; intros i Hi; [done|]. simpl in Hi.
  destruct (f a) eqn:Ha.
  - injection Hi as <-. simpl. by rewrite !findJs_cons, !Hg.
  - apply fmap_Some in Hi as (j & Hj & ->). simpl. by rewrite !findJs_cons, (IH j Hj).
Qed.

Lemma length_splice1 i l : (i < length l)%nat → length (splice1 i l) = (length l - 1)%nat.
Proof. intros. unfold splice1. rewrite length_app, length_take, length_drop. lia. Qed.

Lemma splice1_Permutation i l x : l !! i = Some x → l ≡ₚ x :: splice1 i l.
Proof.
  intros H. unfold splice1. rewrite <- (take_drop_middle l i x H) at 1.
  by rewrite Permutation_middle.
Qed.
End FindIndex.

(** ** Sorting

    [Array.prototype.sort] is stable and, for a consistent comparator, returns
    the unique stable sorted permutation: [stable_sort leb], where
    [leb a b] is [!(comparator(a, b) > 0)]. *)

Section Sort.
Context {A : Type} (leb : A → A → bool).

Fixpoint sort_insert (x : A) (l : list A) : list A :=
  match l with
  | [] => [x]
  | y :: l' => if leb x y then x :: l else y :: sort_insert x l'
  end.

Definition stable_sort (l : list A) : list A := foldr sort_insert [] l.

Lemma sort_insert_Permutation x l : sort_insert x l ≡ₚ x :: l.
Proof.
  induction l as [|y l IH]; simpl; [done|].
  destruct (leb x y); [done|]. by rewrite IH, Permutation_swap.
Qed.

Lemma stable_sort_Permutation l : stable_sort l ≡ₚ l.
Proof. induction l as [|x l IH]; simpl; [done|]. by rewrite sort_insert_Permutation, IH. Qed.

Lemma length_stable_sort l : length (stable_sort l) = length l.
Proof. apply Permutation_length, stable_sort_Permutation. Qed.

Let R (x y : A) : Prop := leb x y = true.

Lemma sort_insert_Sorted x l :
  (∀ a b, leb a b = true ∨ leb b a = true) → Sorted R l → Sorted R (sort_insert x l).
Proof.
  intros Htot. induction l as [|y l IH]; intros Hl; simpl; [by repeat constructor|].
  destruct (leb x y) eqn:E; [constructor; [done|constructor; exact E]|].
  apply Sorted_inv in Hl as [Hl Hy]. constructor; [by apply IH|].
  assert (leb y x = true) as Hyx by (destruct (Htot x y); congruence).
  destruct l as [|z l]; simpl; [by constructor|].
  inversion Hy; subst. by destruct (leb x z); constructor.
Qed.

Lemma stable_sort_Sorted l :
  (∀ a b, leb a b = true ∨ leb b a = true) → Sorted R (stable_sort l).
Proof.
  intros Htot. induction l; simpl; [constructor|]. by apply sort_insert_Sorted.
Qed.

(** Stability: the elements equivalent to [k] keep their order. *)
Lemma sort_insert_filter_other (P : A → bool) x l :
  P x = false → List.filter P (sort_insert x l) = List.filter P l.
Proof.
  intros Hx. induction l as [|y l IH]; simpl; [by rewrite Hx|].
  destruct (leb x y); simpl; rewrite ?Hx; [done|]. by rewrite IH.
Qed.

Lemma sort_insert_filter_same (P : A → bool) x l :
  P x = true → (∀ y, P y = true → leb x y = true) →
  List.filter P (sort_insert x l) = x :: List.filter P l.
Proof.
  intros Hx Hle. induction l as [|y l IH]; simpl; [by rewrite Hx|].
  destruct (leb x y) eqn:E; simpl; [by rewrite Hx|].
  destruct (P y) eqn:Py; [by rewrite Hle in E|]. done.
Qed.

Lemma stable_sort_stable (P : A → bool) l :
  (∀ x y, P x = true → P y = true → leb x y = true) →
  List.filter P (stable_sort l) = List.filter P l.
Proof.
  intros HP. induction l as [|x l IH]; simpl; [done|].
  destruct (P x) eqn:Px.
  - rewrite sort_insert_filter_same by auto. by rewrite IH.
  - by rewrite sort_insert_filter_other.
Qed.
End Sort.

Lemma StronglySorted_lookup {A} (R : relation A) l i j x y :
  StronglySorted R l → (i < j)%nat → l !! i = Some x → l !! j = Some y → R x y.
Proof.
  intros Hs. revert i j. induction Hs as [|a l Hs IH Ha]; intros i j Hij Hi Hj; [done|].
  destruct j as [|j]; [lia|]. simpl in Hj. destruct i as [|i]; simplify_eq/=.
  - rewrite Forall_forall in Ha. by eapply Ha, list_elem_of_lookup_2.
  - eapply IH; [|done..]. lia.
Qed.

(** Sorting by a numeric key *)
Lemma stable_sort_key_le {A} (key : A → Z) l i j x y :
  (i <= j)%nat →
  stable_sort (λ a b, key a <=? key b) l !! i = Some x →
  stable_sort (λ a b, key a <=? key b) l !! j = Some y → key x <= key y.
Proof.
  intros Hij Hi Hj. destruct (decide (i = j)) as [->|Hne]; [simplify_eq; lia|].
  apply Z.leb_le.
  apply (StronglySorted_lookup (λ a b, (key a <=? key b) = true) _ i j x y) in Hj;
    [done| |lia|done].
  apply Sorted_StronglySorted; [intros a b c; rewrite !Z.leb_le; lia|].
  apply (stable_sort_Sorted (λ a b, key a <=? key b)). intros a b. rewrite !Z.leb_le. lia.
Qed.

(** [l.sort()], [l.toSorted()] on strings *)
Definition sort_strings (l : list string) : list string := merge_sort String.le l.

Lemma sort_strings_Permutation l : sort_strings l ≡ₚ l.
Proof. apply merge_sort_Permutation. Qed.

Lemma sort_strings_Sorted l : Sorted String.le (sort_strings l).
Proof. apply Sorted_merge_sort, _. Qed.

Lemma sort_strings_unique l1 l2 : l1 ≡ₚ l2 → Sorted String.le l2 → sort_strings l1 = l2.
Proof.
  intros HP HS. apply (Sorted_unique String.le); [apply sort_strings_Sorted | done |].
  by rewrite sort_strings_Permutation.
Qed.

Lemma StronglySorted_filter {A} (R : relation A) (P : A → Prop) `{!∀ x, Decision (P x)} l :
  StronglySorted R l → StronglySorted R (filter P l).
Proof.
  induction 1 as [|x l Hl IH Hx]; [constructor|]. rewrite filter_cons. case_decide; [|done].
  constructor; [done|]. rewrite Forall_forall in Hx |- *.
  intros y [_ Hy]%list_elem_of_filter. by apply Hx.
Qed.

Lemma sort_strings_filter (P : string → Prop) `{!∀ x, Decision (P x)} l :
  filter P (sort_strings l) = sort_strings (filter P l).
Proof.
  symmetry. apply sort_strings_unique.
  - by rewrite sort_strings_Permutation.
  - apply StronglySorted_Sorted, StronglySorted_filter, Sorted_StronglySorted; [exact _|].
    apply sort_strings_Sorted.
Qed.

(** ** Numbers *)

(** The digits of an integer literal in the given radix, most significant
    first; [None] on a character that is not a digit of the radix. *)
Definition digit_value (c : ascii) : Z :=
  let n := Z.of_nat (nat_of_ascii (Str.lower_ascii c)) in
  if (48 <=? n) && (n <=? 57) then n - 48
  else if (97 <=? n) && (n <=? 122) then n - 87
  else 99.

Fixpoint digits_value (radix acc : Z) (s : string) : option Z :=
  match s with
  | "" => Some acc
  | String c s =>
      if digit_value c <? radix then digits_value radix (acc * radix + digit_value c) s
      else None
  end.

Definition nonempty_digits (radix : Z) (s : string) : option Z :=
  if String.eqb s "" then None else digits_value radix 0 s.

Definition is_space (c : ascii) : bool :=
  let n := nat_of_ascii c in (n =? 32)%nat || ((9 <=? n)%nat && (n <=? 13)%nat).

Fixpoint trim_start (s : string) : string :=
  match s with
  | "" => ""
  | String c s' => if is_space c then trim_start s' else s
  end.

Fixpoint trim_end (s : string) : string :=
  match s with
  | "" => ""
  | String c s' =>
      match trim_end s' with
      | "" => if is_space c then "" else String c ""
      | r => String c r
      end
  end.

(** [BigInt(s)]: white space around it is dropped, the empty string is 0, a
    literal is decimal with an optional sign or, without one, has a prefix
    0x, 0o or 0b. *)
Definition BigInt_string (s : string) : Res Z :=
  let s := trim_end (trim_start s) in
  let r :=
    match s with
    | "" => Some 0
    | String "0" (String c r) =>
        if Ascii.eqb (Str.lower_ascii c) "x" then nonempty_digits 16 r
        else if Ascii.eqb (Str.lower_ascii c) "o" then nonempty_digits 8 r
        else if Ascii.eqb (Str.lower_ascii c) "b" then nonempty_digits 2 r
        else nonempty_digits 10 s
    | String "-" r => Z.opp <$> nonempty_digits 10 r
    | String "+" r => nonempty_digits 10 r
    | _ => nonempty_digits 10 s
    end in
  match r with
  | Some z => Ok z
  | None => Throw (SyntaxError "Cannot convert to a BigInt")
  end.
