(* ===== verification/JsMap.v ===== *)
(** * JsMap: the JavaScript [Map], with its insertion order

    [set] on a present key keeps the key's position, [set] on an absent key
    appends, [delete] removes the key. Maps whose iteration order the code
    never observes are modelled by stdpp's [gmap] instead. *)

From S2P Require Import Prelude.

Record jsmap (K V : Type) := JsMap { entries : list (K * V) }.
Arguments JsMap {K V} entries.
Arguments entries {K V} _.

Section JsMapOps.
Context {K V : Type} `{!EqDecision K}.
Implicit Types (k : K) (v : V) (m : jsmap K V).

Fixpoint al_get (k : K) (l : list (K * V)) : option V :=
  match l with
  | [] => None
  | (k', v) :: l => if decide (k = k') then Some v else al_get k l
  end.

Fixpoint al_set (k : K) (v : V) (l : list (K * V)) : list (K * V) :=
  match l with
  | [] => [(k, v)]
  | (k', v') :: l => if decide (k = k') then (k', v) :: l else (k', v') :: al_set k v l
  end.

Fixpoint al_del (k : K) (l : list (K * V)) : list (K * V) :=
  match l with
  | [] => []
  | (k', v') :: l => if decide (k = k') then al_del k l else (k', v') :: al_del k l
  end.

#[export] Instance jsmap_empty : Empty (jsmap K V) := JsMap [].
#[export] Instance jsmap_lookup : Lookup K V (jsmap K V) := λ k m, al_get k (entries m).
#[export] Instance jsmap_insert : Insert K V (jsmap K V) := λ k v m, JsMap (al_set k v (entries m)).
#[export] Instance jsmap_delete : Delete K (jsmap K V) := λ k m, JsMap (al_del k (entries m)).

Definition jm_has (k : K) (m : jsmap K V) : bool :=
  match m !! k with Some _ => true | None => false end.
(** [Array.from(m.keys())], [Array.from(m.values())] *)
Definition jm_keys (m : jsmap K V) : list K := (entries m).*1.
Definition jm_values (m : jsmap K V) : list V := (entries m).*2.
(** Mutation of the object stored under [k]. *)
Definition jm_alter (f : V → V) (k : K) (m : jsmap K V) : jsmap K V :=
  match m !! k with Some v => <[k := f v]> m | None => m end.

(** The representation invariant: each key once. *)
Definition jm_wf (m : jsmap K V) : Prop := NoDup (jm_keys m).

Lemma jm_lookup_empty k : (∅ : jsmap K V) !! k = None.
Proof. done. Qed.

Lemma jm_lookup_insert k k' v m :
  (<[k := v]> m) !! k' = if decide (k = k') then Some v else m !! k'.
Proof.
  unfold lookup, insert, jsmap_lookup, jsmap_insert. destruct m as [l]; simpl.
  induction l as [|[k1 v1] l IH]; simpl; [repeat case_decide; simplify_eq; done|].
  repeat case_decide; simplify_eq/=; repeat case_decide; simplify_eq; done.
Qed.

Lemma jm_lookup_insert_eq k v m : (<[k := v]> m) !! k = Some v.
Proof. rewrite jm_lookup_insert. by rewrite decide_True. Qed.
Lemma jm_lookup_insert_ne k k' v m : k ≠ k' → (<[k := v]> m) !! k' = m !! k'.
Proof. intros. rewrite jm_lookup_insert. by rewrite decide_False. Qed.

Lemma jm_lookup_delete k k' m :
  (delete k m) !! k' = if decide (k = k') then None else m !! k'.
Proof.
  unfold lookup, delete, jsmap_lookup, jsmap_delete. destruct m as [l]; simpl.
  induction l as [|[k1 v1] l IH]; simpl; [by case_decide|].
  repeat case_decide; simplify_eq/=; repeat case_decide; simplify_eq; done.
Qed.

Lemma jm_lookup_delete_eq k m : (delete k m) !! k = None.
Proof. rewrite jm_lookup_delete. by rewrite decide_True. Qed.
Lemma jm_lookup_delete_ne k k' m : k ≠ k' → (delete k m) !! k' = m !! k'.
Proof. intros. rewrite jm_lookup_delete. by rewrite decide_False. Qed.

Lemma jm_lookup_alter f k k' m :
  (jm_alter f k m) !! k' = if decide (k = k') then f <$> m !! k' else m !! k'.
Proof.
  unfold jm_alter. case_decide; subst.
  - destruct (m !! k') eqn:E; [by rewrite jm_lookup_insert_eq|by rewrite E].
  - destruct (m !! k); [by rewrite jm_lookup_insert_ne|done].
Qed.

Lemma jm_elem_keys k m : k ∈ jm_keys m ↔ is_Some (m !! k).
Proof.
  unfold lookup, jsmap_lookup, jm_keys. destruct m as [l]; simpl.
  induction l as [|[k1 v1] l IH]; simpl.
  - split; [by intros ?%not_elem_of_nil|by intros [??]].
  - rewrite elem_of_cons. case_decide; simplify_eq.
    + split; [by eexists|by left].
    + rewrite <- IH. split; [by intros [?|?]|by right].
Qed.

Lemma jm_has_spec k m : jm_has k m = true ↔ k ∈ jm_keys m.
Proof.
  rewrite jm_elem_keys. unfold jm_has. destruct (m !! k).
  - split; [by eexists|done].
  - split; [done|by intros [??]].
Qed.

Lemma jm_has_false k m : jm_has k m = false ↔ m !! k = None.
Proof. unfold jm_has. by destruct (m !! k). Qed.

Lemma jm_keys_insert k v m :
  jm_keys (<[k := v]> m) = if decide (k ∈ jm_keys m) then jm_keys m else jm_keys m ++ [k].
Proof.
  unfold insert, jsmap_insert, jm_keys. destruct m as [l]; simpl.
  induction l as [|[k1 v1] l IH]; [done|]. cbn [al_set].
  destruct (decide (k = k1)) as [->|Hne]; rewrite !fmap_cons; cbn [fst].
  - rewrite decide_True; [done|apply list_elem_of_here].
  - rewrite IH. destruct (decide (k ∈ l.*1)) as [Hin|Hin].
    + rewrite decide_True; [done|by apply list_elem_of_further].
    + rewrite decide_False; [done|]. by intros [?|?]%elem_of_cons.
Qed.

Lemma jm_keys_insert_present k v m : is_Some (m !! k) → jm_keys (<[k := v]> m) = jm_keys m.
Proof. intros. rewrite jm_keys_insert, decide_True; [done|]. by apply jm_elem_keys. Qed.

Lemma jm_keys_alter f k m : jm_keys (jm_alter f k m) = jm_keys m.
Proof.
  unfold jm_alter. destruct (m !! k) eqn:E; [|done].
  apply jm_keys_insert_present. by eexists.
Qed.

Lemma jm_keys_delete k m : jm_keys (delete k m) = filter (λ k', k ≠ k') (jm_keys m).
Proof.
  unfold delete, jsmap_delete, jm_keys. destruct m as [l]; simpl.
  induction l as [|[k1 v1] l IH]; simpl; [done|].
  rewrite filter_cons. repeat case_decide; simplify_eq/=; [done|by rewrite IH].
Qed.

Lemma jm_wf_empty : jm_wf ∅.
Proof. apply NoDup_nil_2. Qed.

Lemma jm_wf_insert k v m : jm_wf m → jm_wf (<[k := v]> m).
Proof.
  unfold jm_wf. intros H. rewrite jm_keys_insert. case_decide; [done|].
  apply NoDup_app. split_and!; [done|set_solver|apply NoDup_singleton].
Qed.

Lemma jm_wf_delete k m : jm_wf m → jm_wf (delete k m).
Proof. unfold jm_wf. rewrite jm_keys_delete. apply NoDup_filter. Qed.

Lemma jm_wf_alter f k m : jm_wf m → jm_wf (jm_alter f k m).
Proof. unfold jm_wf. by rewrite jm_keys_alter. Qed.

Lemma jm_elem_values v m : v ∈ jm_values m → ∃ k, (k, v) ∈ entries m.
Proof.
  unfold jm_values. rewrite list_elem_of_fmap. intros ([k v'] & -> & H). by exists k.
Qed.

Lemma jm_lookup_entries k v m : m !! k = Some v → (k, v) ∈ entries m.
Proof.
  unfold lookup, jsmap_lookup. destruct m as [l]; simpl.
  induction l as [|[k1 v1] l IH]; simpl; [done|]. case_decide; [intros [= ->]; subst; by left|]. right. auto.
Qed.

Lemma jm_wf_lookup k v m : jm_wf m → (k, v) ∈ entries m → m !! k = Some v.
Proof.
  unfold jm_wf, lookup, jsmap_lookup, jm_keys. destruct m as [l]; simpl.
  induction l as [|[k1 v1] l IH]; simpl; [by intros _ ?%not_elem_of_nil|].
  intros [Hn Hl]%NoDup_cons [?|Hin]%elem_of_cons; simplify_eq.
  - by rewrite decide_True.
  - rewrite decide_False; [by apply IH|]. intros ->. apply Hn.
    apply list_elem_of_fmap. by exists (k1, v).
Qed.
End JsMapOps.

Create HintDb jsmap.
#[export] Hint Resolve jm_wf_empty jm_wf_insert jm_wf_delete jm_wf_alter : jsmap.
#[export] Hint Rewrite @jm_lookup_insert @jm_lookup_delete @jm_lookup_alter @jm_lookup_empty : jsmap.
