(* ===== verification/Ids.v ===== *)
(** * Ids: stream ids and user ids (sdk/src/id.ts, sdk/src/utils.ts)

    The third-party libraries the ids are built on (ethers and
    ethereum-cryptography) are the class [EthLib]; what the code relies on is
    the class [EthLaws]. *)

From S2P Require Import Prelude JsLib.
From Stdlib Require Import Ascii Strings.Byte.

(** [Uint8Array] *)
Abbreviation bytes := (list byte).

#[export] Instance byte_eq_dec : EqDecision byte := Byte.byte_eq_dec.

(** ** Third-party code *)

Class EthLib := {
  (** ethereum-cryptography/utils *)
  bytesToHex : bytes → string;
  hexToBytes : string → Res bytes;
  (** ethereum-cryptography/keccak *)
  keccak256 : bytes → bytes;
  (** ethers utils *)
  getAddress : string → Res string;
  isAddress : string → bool;
  arrayify : string → Res bytes;
  (** [String.prototype.toLowerCase] on text that users write, by the Unicode
      tables of the host; ids and addresses are ASCII, for which
      [Str.toLowerCase] is written out *)
  text_toLowerCase : string → string;
}.

Definition is_hex_digit (c : ascii) : bool :=
  let n := nat_of_ascii c in
  ((48 <=? n)%nat && (n <=? 57)%nat) || ((97 <=? n)%nat && (n <=? 102)%nat).

(** [/^[0-9a-f]*$/.test(input)], id.ts *)
Definition isLowercaseHex (input : string) : bool := Str.all is_hex_digit input.

(** The documented behaviour of those libraries that the ids rely on:
    [bytesToHex] is the lower-case hex encoding and [hexToBytes] inverts it;
    [getAddress] accepts 20 bytes of lower-case hex, with or without the 0x
    prefix, and only changes the case of the digits (the checksum);
    [arrayify] decodes an address that [getAddress] returned; [isAddress] accepts what [getAddress]
    returned; keccak256 digests have 32 bytes. *)
Class EthLaws `{EthLib} := {
  bytesToHex_hex b : isLowercaseHex (bytesToHex b) = true;
  bytesToHex_length b : String.length (bytesToHex b) = (2 * length b)%nat;
  hexToBytes_toHex b : hexToBytes (bytesToHex b) = Ok b;
  getAddress_hex b :
    length b = 20%nat →
    ∃ a, getAddress (bytesToHex b) = Ok a ∧ getAddress ("0x" +:+ bytesToHex b) = Ok a
         ∧ Str.toLowerCase a = "0x" +:+ bytesToHex b;
  getAddress_idem s a : getAddress s = Ok a → getAddress a = Ok a ∧ isAddress a = true;
  arrayify_address a b :
    getAddress a = Ok a → Str.toLowerCase a = "0x" +:+ bytesToHex b → arrayify a = Ok b;
  keccak256_length b : length (keccak256 b) = 32%nat;
}.

(** ** dlog/src/binary.ts *)

Section Ids.
Context `{EthLib}.

Definition bin_fromHexString (hexString : string) : Res bytes := hexToBytes hexString.
Definition bin_toHexString (uint8Array : bytes) : string := bytesToHex uint8Array.

Definition bin_equal (a b : option bytes) : bool :=
  let empty (x : option bytes) := match x with None => true | Some l => (length l =? 0)%nat end in
  if empty a && empty b then true
  else match a, b with
       | Some a, Some b => bool_decide (a = b)
       | _, _ => false
       end.

(** ** sdk/src/utils.ts *)

(** [string | Uint8Array] *)
Inductive StrOrBytes := SStr (s : string) | SBytes (b : bytes).

Definition isEthereumAddress (address : StrOrBytes) : bool :=
  match address with
  | SBytes b => (length b =? 20)%nat
  | SStr s => isAddress s
  end.

Definition ethereumAddressToBytes (address : string) : Res bytes := bin_fromHexString address.
Definition ethereumAddressFromBytes (b : bytes) : string := bin_toHexString b.
Definition ethereumAddressAsString (address : StrOrBytes) : string :=
  match address with SStr s => s | SBytes b => ethereumAddressFromBytes b end.
Definition ethereumAddressAsBytes (address : StrOrBytes) : Res bytes :=
  match address with SStr s => ethereumAddressToBytes s | SBytes b => Ok b end.

(** [new TextEncoder().encode(s)]: a [string] holds the UTF-8 bytes of a text. *)
Definition textEncode (s : string) : bytes := String.list_byte_of_string s.
(** [new TextDecoder().decode(b)] on UTF-8 *)
Definition textDecode (b : bytes) : string := String.string_of_list_byte b.

(** [bytesToUtf8] *)
Definition bin_toString (buf : bytes) : string := textDecode buf.

Definition hashString (s : string) : string := bin_toHexString (keccak256 (textEncode s)).

Definition usernameChecksum (username streamId : string) : string :=
  hashString (text_toLowerCase username +:+ ":" +:+ streamId).

(** ** sdk/src/id.ts *)

Definition STREAM_ID_BYTES_LENGTH : nat := 32.
Definition STREAM_ID_STRING_LENGTH : nat := STREAM_ID_BYTES_LENGTH * 2.

Definition userIdFromAddress (address : bytes) : Res string :=
  getAddress (bin_toHexString address).

Definition addressFromUserId (userId : string) : Res bytes :=
  normalizedAddress ← getAddress userId;
  arrayify normalizedAddress.

Definition streamIdToBytes := ethereumAddressToBytes.
Definition streamIdFromBytes := ethereumAddressFromBytes.
Definition streamIdAsString := ethereumAddressAsString.
Definition streamIdAsBytes := ethereumAddressAsBytes.
Definition isUserId := isEthereumAddress.

Inductive StreamPrefix :=
  | Channel | DM | GDM | Media | Space | User | UserMetadata | UserInbox | UserSettings | Metadata.

#[export] Instance StreamPrefix_eq_dec : EqDecision StreamPrefix.
Proof using. solve_decision. Defined.

Definition prefix_str (p : StreamPrefix) : string :=
  match p with
  | Channel => "20"
  | DM => "88"
  | GDM => "77"
  | Media => "ff"
  | Space => "10"
  | User => "a8"
  | UserMetadata => "ad"
  | UserInbox => "a1"
  | UserSettings => "a5"
  | Metadata => "dd"
  end.

(** [Object.values(StreamPrefix)] *)
Definition allowedStreamPrefixes : list StreamPrefix :=
  [Channel; DM; GDM; Media; Space; User; UserMetadata; UserInbox; UserSettings; Metadata].

Definition expectedIdentityLenByPrefix (p : StreamPrefix) : nat :=
  match p with
  | User | UserMetadata | UserSettings | UserInbox | Space => 40
  | Channel | Media | DM | GDM => 62
  | Metadata => 16
  end.

(** A string read [as StreamPrefix]: the enum value it spells, if any. *)
Definition asPrefix (s : string) : option StreamPrefix :=
  findJs (λ p, String.eqb (prefix_str p) s) allowedStreamPrefixes.

Definition areValidStreamIdParts (prefix identity : string) : bool :=
  match asPrefix prefix with
  | None => false
  | Some p =>
      if negb (isLowercaseHex identity) then false
      else if negb (String.length identity =? expectedIdentityLenByPrefix p)%nat then
        if negb (String.length identity =? 62)%nat then false
        else forallb (λ i, bool_decide (Str.charAt i identity = Some "0"%char))
               (seq (expectedIdentityLenByPrefix p)
                    (String.length identity - expectedIdentityLenByPrefix p))
      else true
  end.

Definition isValidStreamId (streamId : string) : bool :=
  areValidStreamIdParts (Str.slice 0 2 streamId) (Str.slice_from 2 streamId).

Definition checkStreamId (streamId : string) : Res unit :=
  checkR (isValidStreamId streamId) "Invalid stream id" ERR_UNSPECIFIED.

Definition makeStreamId (prefix : StreamPrefix) (identity : string) : Res string :=
  let identity := Str.toLowerCase identity in
  let identity := if Str.startsWith identity "0x" then Str.slice_from 2 identity else identity in
  _ ← checkR (areValidStreamIdParts (prefix_str prefix) identity)
        "Invalid stream id parts" ERR_UNSPECIFIED;
  Ok (Str.padEnd (prefix_str prefix +:+ identity) STREAM_ID_STRING_LENGTH "0"%char).

(** [makeUserStreamId], [makeUserSettingsStreamId], [makeUserMetadataStreamId]
    and [makeUserInboxStreamId] differ in the prefix only. *)
Definition makeUserStreamIdWith (p : StreamPrefix) (userId : StrOrBytes) : Res string :=
  _ ← checkR (isUserId userId) "Invalid user id" ERR_UNSPECIFIED;
  id ← match userId with SBytes b => userIdFromAddress b | SStr s => Ok s end;
  makeStreamId p id.

Definition makeUserStreamId := makeUserStreamIdWith User.
Definition makeUserSettingsStreamId := makeUserStreamIdWith UserSettings.
Definition makeUserMetadataStreamId := makeUserStreamIdWith UserMetadata.
Definition makeUserInboxStreamId := makeUserStreamIdWith UserInbox.

Definition makeSpaceStreamId (spaceContractAddress : string) : Res string :=
  makeStreamId Space spaceContractAddress.

(** [genId(22)] is the random argument [rand]. *)
Definition makeUniqueChannelStreamId (spaceId rand : string) : Res string :=
  makeStreamId Channel (Str.slice 2 42 spaceId +:+ rand).

Definition makeDefaultChannelStreamId (spaceContractAddressOrId : string) : Res string :=
  if Str.startsWith spaceContractAddressOrId (prefix_str Space)
  then Ok (prefix_str Channel +:+ Str.slice_from 2 spaceContractAddressOrId)
  else makeStreamId Channel (spaceContractAddressOrId +:+ Str.repeat "0"%char 22).

(** [genId()] is the random argument [rand]. *)
Definition makeUniqueGDMChannelStreamId (rand : string) : Res string := makeStreamId GDM rand.
Definition makeUniqueMediaStreamId (rand : string) : Res string := makeStreamId Media rand.

Definition makeDMStreamId (userIdA userIdB : string) : Res string :=
  let concatenated :=
    match sort_strings (Str.toLowerCase <$> [userIdA; userIdB]) with
    | [] => ""
    | x :: l => foldl (λ acc y, acc +:+ "-" +:+ y) x l
    end in
  makeStreamId DM (Str.slice 0 62 (hashString concatenated)).

Definition hasPrefix (p : StreamPrefix) (streamId : StrOrBytes) : bool :=
  Str.startsWith (streamIdAsString streamId) (prefix_str p).
Definition isUserStreamId := hasPrefix User.
Definition isSpaceStreamId := hasPrefix Space.
Definition isChannelStreamId := hasPrefix Channel.
Definition isDMChannelStreamId := hasPrefix DM.
Definition isUserDeviceStreamId := hasPrefix UserMetadata.
Definition isUserSettingsStreamId := hasPrefix UserSettings.
Definition isMediaStreamId := hasPrefix Media.
Definition isGDMChannelStreamId := hasPrefix GDM.
Definition isUserInboxStreamId := hasPrefix UserInbox.
Definition isMetadataStreamId := hasPrefix Metadata.

Definition contractAddressFromSpaceId (spaceId : string) : Res string :=
  _ ← checkR (isSpaceStreamId (SStr spaceId)) "Invalid space id" ERR_UNSPECIFIED;
  Ok ("0x" +:+ Str.slice 2 42 spaceId).

Definition spaceIdFromChannelId (channelId : string) : Res string :=
  _ ← checkR (isChannelStreamId (SStr channelId)) "Invalid channel id" ERR_UNSPECIFIED;
  makeStreamId Space (Str.slice 2 42 channelId +:+ Str.repeat "0"%char 22).

Definition isDefaultChannelId (streamId : string) : bool :=
  let prefix := Str.slice 0 2 streamId in
  if negb (String.eqb prefix (prefix_str Channel)) then false
  else Str.endsWith streamId (Str.repeat "0"%char 22).

Definition getUserAddressFromStreamId (streamId : string) : Res bytes :=
  let prefix := Str.slice 0 2 streamId in
  if negb (String.eqb prefix (prefix_str User)) && negb (String.eqb prefix (prefix_str UserMetadata))
     && negb (String.eqb prefix (prefix_str UserSettings)) && negb (String.eqb prefix (prefix_str UserInbox))
  then Throw (PlainError "Invalid stream id")
  else if negb (String.length streamId =? STREAM_ID_STRING_LENGTH)%nat || negb (isLowercaseHex streamId)
  then Throw (PlainError "Invalid stream id format")
  else
    let addressPart := Str.slice 2 42 streamId in
    let paddingPart := Str.slice_from 42 streamId in
    if negb (String.eqb paddingPart (Str.repeat "0"%char 22))
    then Throw (PlainError "Invalid stream id padding")
    else addressFromUserId ("0x" +:+ addressPart).

Definition getUserIdFromStreamId (streamId : string) : Res string :=
  address ← getUserAddressFromStreamId streamId;
  userIdFromAddress address.
End Ids.
