(* ===== verification/IdsFacts.v ===== *)
(** * IdsFacts: correctness of the stream ids of Ids.v *)

From Stdlib Require Import Ascii Strings.Byte.
From S2P Require Import Prelude JsLib Ids.

(** ** Valid identities *)

Lemma asPrefix_str p : asPrefix (prefix_str p) = Some p.
Proof. by destruct p. Qed.

Lemma asPrefix_inv s p : asPrefix s = Some p → s = prefix_str p.
Proof.
  unfold asPrefix. intros [_ Heq]%findJs_Some. by apply String.eqb_eq in Heq.
Qed.

Lemma expectedLen_bound p : (expectedIdentityLenByPrefix p <= 62)%nat.
Proof. destruct p; simpl; lia. Qed.

Lemma prefix_length p : String.length (prefix_str p) = 2%nat.
Proof. by destruct p. Qed.

Lemma prefix_hex p : isLowercaseHex (prefix_str p) = true.
Proof. by destruct p. Qed.

Lemma zeros_hex n : isLowercaseHex (Str.repeat "0"%char n) = true.
Proof. by apply Str.all_repeat. Qed.

(** The padding loop of [areValidStreamIdParts] accepts exactly the zeros. *)
Lemma zero_tail_spec s :
  forallb (λ i, bool_decide (Str.charAt i s = Some "0"%char)) (seq 0 (String.length s)) = true
  ↔ s = Str.repeat "0"%char (String.length s).
Proof.
  induction s as [|c s IH]; [done|]. cbn [String.length seq forallb Str.repeat].
  rewrite <- seq_shift, andb_true_iff, bool_decide_eq_true.
  assert (forallb (λ i, bool_decide (Str.charAt i (String c s) = Some "0"%char))
            (map S (seq 0 (String.length s))) =
          forallb (λ i, bool_decide (Str.charAt i s = Some "0"%char))
            (seq 0 (String.length s))) as ->.
  { clear IH. induction (seq 0 (String.length s)) as [|i l IHl]; [done|].
    cbn [List.map forallb]. rewrite IHl. reflexivity. }
  rewrite IH. split.
  - intros [Hc Hs]. assert (c = "0"%char) as -> by (cbv in Hc; congruence). by rewrite <- Hs.
  - intros Hs. injection Hs as -> Hs. done.
Qed.

Lemma charAt_app_r a b i : Str.charAt (String.length a + i) (a +:+ b) = Str.charAt i b.
Proof. induction a; [done|]. rewrite Str.app_cons. apply IHa. Qed.

Lemma zero_loop_spec a b :
  forallb (λ i, bool_decide (Str.charAt i (a +:+ b) = Some "0"%char))
    (seq (String.length a) (String.length b)) = true
  ↔ b = Str.repeat "0"%char (String.length b).
Proof.
  rewrite <- zero_tail_spec.
  rewrite <- (Nat.add_0_r (String.length a)), <- fmap_add_seq.
  induction (seq 0 (String.length b)) as [|i l IHl]; [done|].
  cbn [fmap list_fmap forallb]. rewrite !andb_true_iff, IHl, charAt_app_r. done.
Qed.

(** An identity is valid when it is lower-case hex of the length of its prefix,
    possibly padded with zeros to 62 digits. *)
Lemma validParts_spec p i :
  areValidStreamIdParts (prefix_str p) i = true ↔
  isLowercaseHex i = true ∧
  ∃ j n, i = j +:+ Str.repeat "0"%char n ∧
    String.length j = expectedIdentityLenByPrefix p ∧
    (n = 0 ∨ n = 62 - expectedIdentityLenByPrefix p)%nat.
Proof.
  unfold areValidStreamIdParts. rewrite asPrefix_str.
  pose proof (expectedLen_bound p) as Hb.
  destruct (isLowercaseHex i) eqn:Hhex; simpl; [|naive_solver].
  destruct (String.length i =? expectedIdentityLenByPrefix p)%nat eqn:Hl; simpl.
  - apply Nat.eqb_eq in Hl. split; [intros _|done]. split; [done|].
    exists i, 0%nat. rewrite Str.app_nil_r. auto.
  - apply Nat.eqb_neq in Hl.
    destruct (String.length i =? 62)%nat eqn:H62; simpl.
    + apply Nat.eqb_eq in H62.
      destruct (Str.split_at (expectedIdentityLenByPrefix p) i ltac:(lia)) as [Hi Hj].
      set (j := String.substring 0 (expectedIdentityLenByPrefix p) i) in *.
      set (k := Str.slice_from (expectedIdentityLenByPrefix p) i) in *.
      assert (String.length k = (62 - expectedIdentityLenByPrefix p)%nat) as Hk.
      { pose proof (f_equal String.length Hi) as E. rewrite Str.length_app in E. lia. }
      rewrite Hi, Str.length_app, <- Hj.
      replace (String.length j + String.length k - String.length j)%nat
        with (String.length k) by lia.
      rewrite zero_loop_spec. split.
      * intros Hz. split; [done|]. exists j, (String.length k).
        split_and!; [by rewrite Hz at 1|done|]. right. by rewrite Hj.
      * intros [_ (j' & n & Heq & Hj' & Hn)].
        assert (n = String.length k) as ->.
        { pose proof (f_equal String.length Heq) as E.
          rewrite !Str.length_app, Str.length_repeat in E. lia. }
        assert (Str.slice_from (String.length j) (j +:+ k) =
                Str.slice_from (String.length j) (j' +:+ Str.repeat "0"%char (String.length k)))
          as E by (by f_equal).
        rewrite Str.slice_from_app in E by done.
        rewrite Str.slice_from_app in E by lia. done.
    + apply Nat.eqb_neq in H62. split; [done|].
      intros [_ (j & n & -> & Hj & [->| ->])];
        rewrite Str.length_app, Str.length_repeat in *; lia.
Qed.

Definition strip0x (identity : string) : string :=
  let identity := Str.toLowerCase identity in
  if Str.startsWith identity "0x" then Str.slice_from 2 identity else identity.

Lemma makeStreamId_unfold p i :
  makeStreamId p i =
    if areValidStreamIdParts (prefix_str p) (strip0x i)
    then Ok (Str.padEnd (prefix_str p +:+ strip0x i) 64 "0"%char)
    else Throw (CodeException "Invalid stream id parts" ERR_UNSPECIFIED).
Proof.
  unfold makeStreamId, strip0x, checkR.
  by destruct (areValidStreamIdParts _ _).
Qed.

Lemma isLowercaseHex_app a b : isLowercaseHex (a +:+ b) = isLowercaseHex a && isLowercaseHex b.
Proof. apply Str.all_app. Qed.

Lemma repeat_app_zeros a b :
  Str.repeat "0"%char a +:+ Str.repeat "0"%char b = Str.repeat "0"%char (a + b).
Proof. induction a; [done|]. simpl. rewrite Str.app_cons. by f_equal. Qed.

(** A valid identity padded by [makeStreamId] is one of the full 62 digits. *)
Lemma makeStreamId_shape p i s :
  makeStreamId p i = Ok s ↔
  ∃ j, s = prefix_str p +:+ j +:+ Str.repeat "0"%char (62 - expectedIdentityLenByPrefix p)
       ∧ isLowercaseHex j = true ∧ String.length j = expectedIdentityLenByPrefix p
       ∧ (strip0x i = j ∨
          strip0x i = j +:+ Str.repeat "0"%char (62 - expectedIdentityLenByPrefix p)).
Proof.
  pose proof (expectedLen_bound p) as Hb.
  rewrite makeStreamId_unfold. split.
  - destruct (areValidStreamIdParts _ _) eqn:Hv; [|done]. intros [= <-].
    apply validParts_spec in Hv as (Hhex & j & n & Hi & Hj & Hn). exists j.
    rewrite Hi, isLowercaseHex_app, andb_true_iff in Hhex.
    rewrite Hi. split_and!; [|naive_solver|done|].
    + unfold Str.padEnd. rewrite !Str.length_app, prefix_length, Str.length_repeat, Hj.
      rewrite <- !Str.app_assoc, repeat_app_zeros. do 3 f_equal. lia.
    + destruct Hn as [->| ->]; [left; by rewrite Str.app_nil_r|by right].
  - intros (j & -> & Hhex & Hj & Hi).
    assert (areValidStreamIdParts (prefix_str p) (strip0x i) = true) as ->.
    { apply validParts_spec. split.
      - destruct Hi as [-> | ->]; [done|]. by rewrite isLowercaseHex_app, Hhex, zeros_hex.
      - destruct Hi as [-> | ->].
        + exists j, 0%nat. rewrite Str.app_nil_r. auto.
        + by exists j, (62 - expectedIdentityLenByPrefix p)%nat; auto. }
    f_equal. unfold Str.padEnd.
    destruct Hi as [-> | ->]; rewrite ?Str.length_app, ?prefix_length, ?Str.length_repeat, Hj.
    + by rewrite <- Str.app_assoc.
    + rewrite <- !Str.app_assoc. replace (64 - _)%nat with 0%nat by lia.
      by rewrite Str.app_nil_r.
Qed.

(** ** Kinds of ids *)

Lemma startsWith_prefix p q s :
  Str.startsWith (prefix_str p +:+ s) (prefix_str q) = bool_decide (p = q).
Proof. destruct p, q; by destruct s. Qed.

Lemma prefix_slice p s : Str.slice 0 2 (prefix_str p +:+ s) = prefix_str p.
Proof. destruct p; by destruct s. Qed.

Lemma prefix_slice_from p s : Str.slice_from 2 (prefix_str p +:+ s) = s.
Proof. apply Str.slice_from_app. by rewrite prefix_length. Qed.

Lemma isValidStreamId_app p j :
  isValidStreamId (prefix_str p +:+ j) = areValidStreamIdParts (prefix_str p) j.
Proof. unfold isValidStreamId. by rewrite prefix_slice, prefix_slice_from. Qed.

Lemma lower_ascii_hex c : is_hex_digit c = true → Str.lower_ascii c = c.
Proof.
  unfold is_hex_digit, Str.lower_ascii. intros Hc.
  destruct ((65 <=? nat_of_ascii c)%nat && (nat_of_ascii c <=? 90)%nat) eqn:E; [|done].
  rewrite orb_true_iff, !andb_true_iff, !Nat.leb_le in Hc.
  rewrite andb_true_iff, !Nat.leb_le in E. lia.
Qed.

Lemma toLowerCase_hex s : isLowercaseHex s = true → Str.toLowerCase s = s.
Proof.
  unfold isLowercaseHex, Str.toLowerCase. induction s as [|c s IH]; [done|]. simpl.
  rewrite andb_true_iff. intros [Hc Hs]. by rewrite lower_ascii_hex, IH.
Qed.

Lemma hex_not_0x s : isLowercaseHex s = true → Str.startsWith s "0x" = false.
Proof.
  destruct (Str.startsWith s "0x") eqn:E; [|done].
  by apply Str.startsWith_inv in E as [t ->].
Qed.

Lemma strip0x_hex s : isLowercaseHex s = true → strip0x s = s.
Proof. intros Hs. unfold strip0x. by rewrite toLowerCase_hex, hex_not_0x. Qed.

Lemma strip0x_length s : (String.length (strip0x s) <= String.length s)%nat.
Proof.
  assert (String.length (Str.toLowerCase s) = String.length s) as E by apply Str.length_map.
  unfold strip0x. destruct (Str.startsWith _ _); rewrite ?Str.length_slice_from; lia.
Qed.

Lemma strip0x_0x s t : Str.toLowerCase s = "0x" +:+ t → strip0x s = t.
Proof. intros Hs. unfold strip0x. rewrite Hs, Str.startsWith_app. by apply Str.slice_from_app. Qed.

(** Hex identities of the full width of their kind. *)
Lemma makeStreamId_hex p j :
  isLowercaseHex j = true → String.length j = expectedIdentityLenByPrefix p →
  makeStreamId p j =
    Ok (prefix_str p +:+ j +:+ Str.repeat "0"%char (62 - expectedIdentityLenByPrefix p)).
Proof.
  intros Hj Hl. apply makeStreamId_shape. exists j. split_and!; try done.
  left. by apply strip0x_hex.
Qed.

Lemma makeStreamId_0x p i j :
  Str.toLowerCase i = "0x" +:+ j →
  isLowercaseHex j = true → String.length j = expectedIdentityLenByPrefix p →
  makeStreamId p i =
    Ok (prefix_str p +:+ j +:+ Str.repeat "0"%char (62 - expectedIdentityLenByPrefix p)).
Proof.
  intros Hi Hj Hl. apply makeStreamId_shape. exists j. split_and!; try done.
  left. by apply strip0x_0x.
Qed.

(** ** A concrete instance of the libraries

    Lower-case hex, an address normal form without the mixed-case checksum and
    a digest that repeats its input: it satisfies [EthLaws], so the theorems
    below are not vacuous. *)
Module ModelEth.
Definition hex_char (n : nat) : ascii :=
  ascii_of_nat (if (n <? 10)%nat then 48 + n else 87 + n).
Definition unhex_char (c : ascii) : option nat :=
  let n := nat_of_ascii c in
  if (48 <=? n)%nat && (n <=? 57)%nat then Some (n - 48)%nat
  else if (97 <=? n)%nat && (n <=? 102)%nat then Some (n - 87)%nat
  else None.
Definition byte_hex (b : byte) : string :=
  let n := Byte.to_nat b in
  String (hex_char (n / 16)) (String (hex_char (n mod 16)) "").
Definition toHex (l : bytes) : string := foldr (λ b s, byte_hex b +:+ s) "" l.
Fixpoint unhex (s : string) : option bytes :=
  match s with
  | "" => Some []
  | String c (String d s) =>
      match unhex_char c, unhex_char d, unhex s with
      | Some x, Some y, Some l => match Byte.of_nat (16 * x + y) with
                                  | Some b => Some (b :: l)
                                  | None => None
                                  end
      | _, _, _ => None
      end
  | _ => None
  end.
Definition fromHex (s : string) : Res bytes :=
  match unhex (strip0x s) with
  | Some l => Ok l
  | None => Throw (PlainError "hex string expected")
  end.
Definition address (s : string) : Res string :=
  if isLowercaseHex (strip0x s) && (String.length (strip0x s) =? 40)%nat
  then Ok ("0x" +:+ strip0x s)
  else Throw (PlainError "invalid address").
Definition digest (b : bytes) : bytes := take 32 (b ++ replicate 32 x00).

#[export] Instance eth : EthLib := {|
  bytesToHex := toHex; hexToBytes := fromHex; keccak256 := digest;
  getAddress := address; isAddress := λ s, is_Ok (address s); arrayify := fromHex;
  text_toLowerCase := Str.toLowerCase |}.

Lemma byte_hex_hex b : isLowercaseHex (byte_hex b) = true.
Proof. by destruct b. Qed.

Lemma unhex_digits b :
  unhex_char (hex_char (Byte.to_nat b / 16)) = Some (Byte.to_nat b / 16)%nat ∧
  unhex_char (hex_char (Byte.to_nat b mod 16)) = Some (Byte.to_nat b mod 16)%nat.
Proof. destruct b; split; vm_compute; reflexivity. Qed.

Lemma unhex_byte b s : unhex (byte_hex b +:+ s) = cons b <$> unhex s.
Proof.
  destruct (unhex_digits b) as [H1 H2]. unfold byte_hex. rewrite !Str.app_cons.
  change (String.app "" s) with s. cbn [unhex]. rewrite H1, H2.
  rewrite <- Nat.div_mod_eq, Byte.of_to_nat. by destruct (unhex s).
Qed.

Lemma toHex_hex l : isLowercaseHex (toHex l) = true.
Proof.
  induction l as [|b l IH]; [done|]. cbn [toHex foldr].
  rewrite isLowercaseHex_app, byte_hex_hex. exact IH.
Qed.

Lemma toHex_length l : String.length (toHex l) = (2 * length l)%nat.
Proof.
  induction l as [|b l IH]; [done|].
  change (toHex (b :: l)) with (byte_hex b +:+ toHex l).
  rewrite Str.length_app, IH. simpl. lia.
Qed.

Lemma unhex_toHex l : unhex (toHex l) = Some l.
Proof.
  induction l as [|b l IH]; [done|].
  change (toHex (b :: l)) with (byte_hex b +:+ toHex l).
  by rewrite unhex_byte, IH.
Qed.

Lemma toLowerCase_0x j : isLowercaseHex j = true → Str.toLowerCase ("0x" +:+ j) = "0x" +:+ j.
Proof.
  intros Hj. unfold Str.toLowerCase. rewrite !Str.app_cons. cbn [Str.map].
  fold (Str.toLowerCase (String.app "" j)). change (String.app "" j) with j.
  by rewrite toLowerCase_hex.
Qed.

Lemma strip0x_of_0x j : isLowercaseHex j = true → strip0x ("0x" +:+ j) = j.
Proof. intros Hj. by apply strip0x_0x, toLowerCase_0x. Qed.

#[export] Instance laws : EthLaws.
Proof.
  split; cbn [bytesToHex hexToBytes keccak256 getAddress isAddress arrayify eth].
  - apply toHex_hex.
  - apply toHex_length.
  - intros b. unfold fromHex. by rewrite strip0x_hex, unhex_toHex by apply toHex_hex.
  - intros b Hb. exists ("0x" +:+ toHex b). unfold address.
    rewrite strip0x_of_0x, strip0x_hex, toHex_length, Hb, toHex_hex, toLowerCase_0x
      by apply toHex_hex. done.
  - intros s a. unfold address.
    destruct (isLowercaseHex (strip0x s) && _) eqn:E; [|done]. intros [= <-].
    rewrite strip0x_of_0x, E; [done|]. by apply andb_true_iff in E as [? _].
  - intros a b _ Ha. unfold fromHex. by rewrite (strip0x_0x _ _ Ha), unhex_toHex.
  - intros b. unfold digest. rewrite length_take, length_app, length_replicate. lia.
Qed.
End ModelEth.

(** ** User ids *)

Definition isUserKind (p : StreamPrefix) : bool :=
  match p with User | UserMetadata | UserSettings | UserInbox => true | _ => false end.

Section UserIds.
Context `{EthLib, !EthLaws}.

Lemma bytesToHex_40 b : length b = 20%nat → String.length (bytesToHex b) = 40%nat.
Proof. intros Hb. rewrite bytesToHex_length. lia. Qed.

Lemma userIdFromAddress_spec b :
  length b = 20%nat →
  ∃ a, userIdFromAddress b = Ok a ∧ Str.toLowerCase a = "0x" +:+ bytesToHex b
       ∧ getAddress a = Ok a ∧ isAddress a = true.
Proof.
  intros Hb. destruct (getAddress_hex b Hb) as (a & Ha & _ & Hl).
  destruct (getAddress_idem _ _ Ha) as [Hi Hs]. by exists a.
Qed.

Lemma addressFromUserId_spec b a :
  getAddress a = Ok a → Str.toLowerCase a = "0x" +:+ bytesToHex b → addressFromUserId a = Ok b.
Proof. intros Ha Hl. unfold addressFromUserId. rewrite Ha. cbn. by apply arrayify_address. Qed.

Lemma makeUserStreamIdWith_bytes p b :
  isUserKind p = true → length b = 20%nat →
  makeUserStreamIdWith p (SBytes b) =
    Ok (prefix_str p +:+ bytesToHex b +:+ Str.repeat "0"%char 22).
Proof.
  intros Hp Hb. destruct (userIdFromAddress_spec b Hb) as (a & Ha & Hl & _ & _).
  unfold makeUserStreamIdWith, isUserId, isEthereumAddress. rewrite Hb, Ha.
  change (makeStreamId p a = Ok (prefix_str p +:+ bytesToHex b +:+ Str.repeat "0"%char 22)).
  rewrite (makeStreamId_0x p a _ Hl (bytesToHex_hex b)); [by destruct p|].
  rewrite bytesToHex_40 by done. by destruct p.
Qed.

Lemma makeUserStreamIdWith_userId p b a :
  isUserKind p = true → length b = 20%nat → userIdFromAddress b = Ok a →
  makeUserStreamIdWith p (SStr a) = makeUserStreamIdWith p (SBytes b).
Proof.
  intros Hp Hb Ha. destruct (userIdFromAddress_spec b Hb) as (a' & Ha' & _ & _ & Hs).
  assert (a' = a) as -> by congruence.
  unfold makeUserStreamIdWith, isUserId, isEthereumAddress. by rewrite Hb, Ha, Hs.
Qed.

Lemma getUserAddress_shape p b :
  isUserKind p = true → length b = 20%nat →
  getUserAddressFromStreamId (prefix_str p +:+ bytesToHex b +:+ Str.repeat "0"%char 22) = Ok b.
Proof.
  intros Hp Hb. unfold getUserAddressFromStreamId. rewrite prefix_slice.
  pose proof (bytesToHex_40 b Hb) as H40.
  replace (negb (prefix_str p =? prefix_str User)%string && _ && _ && _) with false
    by (by destruct p).
  rewrite !isLowercaseHex_app, prefix_hex, bytesToHex_hex, zeros_hex.
  rewrite !Str.length_app, prefix_length, H40, Str.length_repeat. cbn [negb andb orb].
  rewrite Str.slice_app_exact by (rewrite ?prefix_length, ?H40; done).
  rewrite Str.app_assoc, Str.slice_from_app
    by (rewrite Str.length_app, prefix_length, H40; done).
  rewrite String.eqb_refl. change (addressFromUserId ("0x" +:+ bytesToHex b) = Ok b).
  destruct (getAddress_hex b Hb) as (a & _ & Ha & Hl). unfold addressFromUserId.
  rewrite Ha. cbn. apply arrayify_address; [by apply (getAddress_idem _ _ Ha)|done].
Qed.
End UserIds.

(** ** Space and channel ids *)

Definition spaceIdOf (j : string) : string := prefix_str Space +:+ j +:+ Str.repeat "0"%char 22.

Lemma slice_2_42 p j k :
  String.length j = 40%nat → Str.slice 2 42 (prefix_str p +:+ j +:+ k) = j.
Proof. intros Hj. apply Str.slice_app_exact; by rewrite ?prefix_length, ?Hj. Qed.

Lemma makeSpaceStreamId_shape a s :
  makeSpaceStreamId a = Ok s →
  ∃ j, s = spaceIdOf j ∧ isLowercaseHex j = true ∧ String.length j = 40%nat
       ∧ (strip0x a = j ∨ strip0x a = j +:+ Str.repeat "0"%char 22).
Proof. intros (j & -> & Hj & Hl & Hi)%makeStreamId_shape. by exists j. Qed.

Lemma makeChannel_shape j k :
  isLowercaseHex j = true → String.length j = 40%nat →
  isLowercaseHex k = true → String.length k = 22%nat →
  makeUniqueChannelStreamId (spaceIdOf j) k = Ok (prefix_str Channel +:+ j +:+ k).
Proof.
  intros Hj Hl Hk Hkl. unfold makeUniqueChannelStreamId, spaceIdOf.
  rewrite slice_2_42 by done. rewrite makeStreamId_hex.
  - simpl. by rewrite Str.app_nil_r.
  - by rewrite isLowercaseHex_app, Hj.
  - by rewrite Str.length_app, Hl, Hkl.
Qed.

Lemma spaceIdFromChannelId_shape `{EthLib} j k :
  isLowercaseHex j = true → String.length j = 40%nat →
  spaceIdFromChannelId (prefix_str Channel +:+ j +:+ k) = Ok (spaceIdOf j).
Proof.
  intros Hj Hl. unfold spaceIdFromChannelId, isChannelStreamId, hasPrefix.
  cbn [streamIdAsString ethereumAddressAsString].
  rewrite startsWith_prefix, slice_2_42 by done.
  change (makeStreamId Space (j +:+ Str.repeat "0"%char 22) = Ok (spaceIdOf j)).
  apply makeStreamId_shape. exists j. split_and!; try done.
  right. rewrite strip0x_hex; [done|]. by rewrite isLowercaseHex_app, Hj.
Qed.

Lemma toLowerCase_app a b : Str.toLowerCase (a +:+ b) = Str.toLowerCase a +:+ Str.toLowerCase b.
Proof.
  unfold Str.toLowerCase. induction a as [|c a IH]; [done|].
  rewrite !Str.app_cons. cbn. by rewrite IH.
Qed.

Lemma endsWith_app s t : Str.endsWith (s +:+ t) t = true.
Proof.
  unfold Str.endsWith. rewrite Str.length_app, andb_true_iff. split.
  - apply Nat.leb_le. lia.
  - rewrite Str.slice_from_app by lia. apply String.eqb_refl.
Qed.

Lemma strip0x_app_hex a k :
  (2 <= String.length a)%nat → isLowercaseHex k = true → strip0x (a +:+ k) = strip0x a +:+ k.
Proof.
  intros Ha Hk. unfold strip0x. rewrite toLowerCase_app, (toLowerCase_hex k) by done.
  assert (2 <= String.length (Str.toLowerCase a))%nat as Ha'
    by (unfold Str.toLowerCase; by rewrite Str.length_map).
  destruct (Str.toLowerCase a) as [|c [|d r]]; [simpl in Ha'; lia..|].
  rewrite !Str.app_cons. unfold Str.startsWith, String.prefix.
  destruct (ascii_dec "0" c); [|done]. destruct (ascii_dec "x" d); [|done].
  assert (∀ r : string, Str.slice_from 2 (String c (String d r)) = r) as E.
  { intros r'. by apply (Str.slice_from_app (String c (String d "")) r'). }
  by rewrite !E; destruct r, k.
Qed.

(** ** Direct-message ids *)

Lemma lower_ascii_idem c : Str.lower_ascii (Str.lower_ascii c) = Str.lower_ascii c.
Proof. destruct c as [[] [] [] [] [] [] [] []]; reflexivity. Qed.

Lemma toLowerCase_idem s : Str.toLowerCase (Str.toLowerCase s) = Str.toLowerCase s.
Proof.
  unfold Str.toLowerCase. induction s as [|c s IH]; [done|]. cbn.
  by rewrite lower_ascii_idem, IH.
Qed.

Lemma hashString_spec `{EthLib, !EthLaws} s :
  isLowercaseHex (hashString s) = true ∧ String.length (hashString s) = 64%nat.
Proof.
  unfold hashString, bin_toHexString. split; [apply bytesToHex_hex|].
  by rewrite bytesToHex_length, keccak256_length.
Qed.

Lemma makeDMStreamId_ok `{EthLib, !EthLaws} userIdA userIdB :
  ∃ s, makeDMStreamId userIdA userIdB = Ok s ∧ isDMChannelStreamId (SStr s) = true.
Proof.
  unfold makeDMStreamId. set (h := hashString _).
  destruct (hashString_spec (match sort_strings (Str.toLowerCase <$> [userIdA; userIdB]) with
    | [] => "" | x :: l => foldl (λ acc y, acc +:+ "-" +:+ y) x l end)) as [Hh Hl].
  fold h in Hh, Hl. unfold Str.slice.
  destruct (Str.split_at 62 h ltac:(lia)) as [E1 E2].
  rewrite E1, isLowercaseHex_app in Hh. apply andb_true_iff in Hh as [Hh _].
  rewrite makeStreamId_hex by done. eexists. split; [done|]. apply startsWith_prefix.
Qed.

(** ** Theorems *)

(** [makeStreamId] either throws, exactly when the parts are invalid, or
    returns an id of 64 lower-case hex digits that [isValidStreamId] accepts,
    whose kind predicates ([isSpaceStreamId], [isChannelStreamId], ...) all
    reject it but the one of its prefix, and that is a fixed point: making an
    id from its own identity part gives the same id. *)
Theorem makeStreamId_correct `{EthLib} p i :
  match makeStreamId p i with
  | Ok s =>
      String.length s = STREAM_ID_STRING_LENGTH ∧ isLowercaseHex s = true
      ∧ isValidStreamId s = true
      ∧ (∀ q, hasPrefix q (SStr s) = bool_decide (p = q))
      ∧ makeStreamId p (Str.slice_from 2 s) = Ok s
  | Throw e =>
      e = CodeException "Invalid stream id parts" ERR_UNSPECIFIED
      ∧ areValidStreamIdParts (prefix_str p) (strip0x i) = false
  end.
Proof.
  destruct (makeStreamId p i) as [s|e] eqn:E.
  - apply makeStreamId_shape in E as (j & -> & Hj & Hl & _).
    pose proof (expectedLen_bound p).
    assert (isLowercaseHex (j +:+ Str.repeat "0"%char (62 - expectedIdentityLenByPrefix p)) = true)
      as Hhex by (by rewrite isLowercaseHex_app, Hj, zeros_hex).
    split_and!.
    + rewrite !Str.length_app, prefix_length, Str.length_repeat, Hl.
      unfold STREAM_ID_STRING_LENGTH, STREAM_ID_BYTES_LENGTH. lia.
    + by rewrite isLowercaseHex_app, prefix_hex.
    + rewrite isValidStreamId_app. apply validParts_spec. split; [done|].
      exists j, (62 - expectedIdentityLenByPrefix p)%nat. auto.
    + intros q. apply startsWith_prefix.
    + rewrite prefix_slice_from. apply makeStreamId_shape. exists j. split_and!; try done.
      right. by apply strip0x_hex.
  - rewrite makeStreamId_unfold in E. destruct (areValidStreamIdParts _ _) eqn:Hv; by simplify_eq.
Qed.

(** User ids and user stream ids invert each other: for every 20-byte
    address and each of the four user stream kinds, the stream id made from
    the address (or from its checksummed user id) exists, and
    [getUserAddressFromStreamId] and [getUserIdFromStreamId] give the address
    and the user id back; [addressFromUserId] inverts [userIdFromAddress]. *)
Theorem user_stream_roundtrip `{EthLib, !EthLaws} p b :
  isUserKind p = true → length b = 20%nat →
  ∃ userId streamId,
    userIdFromAddress b = Ok userId ∧ addressFromUserId userId = Ok b
    ∧ makeUserStreamIdWith p (SBytes b) = Ok streamId
    ∧ makeUserStreamIdWith p (SStr userId) = Ok streamId
    ∧ getUserAddressFromStreamId streamId = Ok b
    ∧ getUserIdFromStreamId streamId = Ok userId.
Proof.
  intros Hp Hb. destruct (userIdFromAddress_spec b Hb) as (a & Ha & Hl & Hi & _).
  exists a, (prefix_str p +:+ bytesToHex b +:+ Str.repeat "0"%char 22).
  rewrite (makeUserStreamIdWith_userId p b a) by done.
  rewrite makeUserStreamIdWith_bytes by done. unfold getUserIdFromStreamId.
  rewrite getUserAddress_shape by done. split_and!; try done. by apply addressFromUserId_spec.
Qed.

(** A channel id determines its space: for every space id made from a
    contract address and every random suffix of 22 hex digits, the unique
    channel id made in that space is a channel id from which
    [spaceIdFromChannelId] recovers the space; the default channel made from
    the address and the one made from the space id are the same id, which
    [isDefaultChannelId] recognises and which maps back to the space too. *)
Theorem channel_space_roundtrip `{EthLib} address spaceId rand :
  makeSpaceStreamId address = Ok spaceId →
  String.length (strip0x address) = 40%nat →
  Str.startsWith address (prefix_str Space) = false →
  isLowercaseHex rand = true → String.length rand = 22%nat →
  (∃ channelId, makeUniqueChannelStreamId spaceId rand = Ok channelId
     ∧ isChannelStreamId (SStr channelId) = true
     ∧ spaceIdFromChannelId channelId = Ok spaceId) ∧
  (∃ defaultId, makeDefaultChannelStreamId address = Ok defaultId
     ∧ makeDefaultChannelStreamId spaceId = Ok defaultId
     ∧ isDefaultChannelId defaultId = true
     ∧ spaceIdFromChannelId defaultId = Ok spaceId).
Proof.
  intros (j & -> & Hj & Hl & Hi)%makeSpaceStreamId_shape Ha Hs Hr Hrl.
  assert (strip0x address = j) as Hij.
  { destruct Hi as [|Hi]; [done|].
    rewrite Hi, Str.length_app, Str.length_repeat in Ha. lia. }
  split.
  - exists (prefix_str Channel +:+ j +:+ rand). rewrite makeChannel_shape by done.
    split_and!; [done|apply startsWith_prefix|]. by apply spaceIdFromChannelId_shape.
  - exists (prefix_str Channel +:+ j +:+ Str.repeat "0"%char 22). split_and!.
    + unfold makeDefaultChannelStreamId. rewrite Hs.
      apply makeStreamId_shape. exists (j +:+ Str.repeat "0"%char 22). split_and!.
      * simpl Str.repeat at 2. by rewrite Str.app_nil_r.
      * by rewrite isLowercaseHex_app, Hj.
      * by rewrite Str.length_app, Hl.
      * left. rewrite strip0x_app_hex; [by rewrite Hij| |done].
        pose proof (strip0x_length address). lia.
    + unfold makeDefaultChannelStreamId, spaceIdOf.
      by rewrite Str.startsWith_app, prefix_slice_from.
    + unfold isDefaultChannelId. rewrite prefix_slice. simpl String.eqb. simpl negb.
      cbv iota. rewrite Str.app_assoc. apply endsWith_app.
    + by apply spaceIdFromChannelId_shape.
Qed.

(** The id of a direct-message stream does not depend on the order or on
    the case of the two user ids, and it always exists: the hash of the sorted
    pair gives 62 hex digits, so [makeDMStreamId] never throws. *)
Theorem makeDMStreamId_symmetric `{EthLib, !EthLaws} userIdA userIdB :
  makeDMStreamId userIdA userIdB = makeDMStreamId userIdB userIdA
  ∧ makeDMStreamId (Str.toLowerCase userIdA) userIdB = makeDMStreamId userIdA userIdB
  ∧ ∃ s, makeDMStreamId userIdA userIdB = Ok s ∧ isDMChannelStreamId (SStr s) = true.
Proof.
  split_and!.
  - unfold makeDMStreamId.
    rewrite (sort_strings_unique _ (sort_strings (Str.toLowerCase <$> [userIdB; userIdA])));
      [done| |apply sort_strings_Sorted].
    rewrite sort_strings_Permutation. apply Permutation_swap.
  - unfold makeDMStreamId. cbn [fmap list_fmap]. by rewrite toLowerCase_idem.
  - apply makeDMStreamId_ok.
Qed.

(** ** The hypotheses can be met *)
Module IdsWitness.
Import ModelEth.

Lemma user_stream_roundtrip_witness :
  ∃ userId streamId,
    userIdFromAddress (replicate 20 x0a) = Ok userId
    ∧ addressFromUserId userId = Ok (replicate 20 x0a)
    ∧ makeUserStreamIdWith UserInbox (SBytes (replicate 20 x0a)) = Ok streamId
    ∧ makeUserStreamIdWith UserInbox (SStr userId) = Ok streamId
    ∧ getUserAddressFromStreamId streamId = Ok (replicate 20 x0a)
    ∧ getUserIdFromStreamId streamId = Ok userId.
Proof. apply (user_stream_roundtrip UserInbox); reflexivity. Defined.

Lemma channel_space_roundtrip_witness :
  let address := "0xABCDEFabcdef0123456789abcdef012345678900" in
  let spaceId := "10abcdefabcdef0123456789abcdef0123456789000000000000000000000000" in
  let rand := "00000000000000000000ab" in
  (∃ channelId, makeUniqueChannelStreamId spaceId rand = Ok channelId
     ∧ isChannelStreamId (SStr channelId) = true
     ∧ spaceIdFromChannelId channelId = Ok spaceId) ∧
  (∃ defaultId, makeDefaultChannelStreamId address = Ok defaultId
     ∧ makeDefaultChannelStreamId spaceId = Ok defaultId
     ∧ isDefaultChannelId defaultId = true
     ∧ spaceIdFromChannelId defaultId = Ok spaceId).
Proof. intros address spaceId rand. apply channel_space_roundtrip; reflexivity. Defined.

Lemma makeDMStreamId_symmetric_witness :
  makeDMStreamId "0xAb" "0xaa" = makeDMStreamId "0xaa" "0xAb"
  ∧ makeDMStreamId (Str.toLowerCase "0xAb") "0xaa" = makeDMStreamId "0xAb" "0xaa"
  ∧ ∃ s, makeDMStreamId "0xAb" "0xaa" = Ok s ∧ isDMChannelStreamId (SStr s) = true.
Proof. apply makeDMStreamId_symmetric. Defined.
End IdsWitness.
