(* ===== verification/Utils.v ===== *)
(** * Utils: removeCommon and bigIntToBytes (sdk/src/utils.ts, dlog/src/binary.ts) *)

From Stdlib Require Import Strings.Byte.
From S2P Require Import Prelude JsLib Ids.

(** ** removeCommon *)

(** The [while] loop, from the indices [i] and [j], with the elements pushed so
    far; it runs at most [length x + length y] times. *)
Fixpoint removeCommon_loop (fuel : nat) (x y : list string) (i j : nat) (result : list string)
    : nat * list string :=
  match fuel with
  | O => (i, result)
  | S fuel =>
      match x !! i, y !! j with
      | Some xi, Some yj =>
          if Str.ltb xi yj then removeCommon_loop fuel x y (S i) j (result ++ [xi])
          else if Str.ltb yj xi then removeCommon_loop fuel x y i (S j) result
          else removeCommon_loop fuel x y (S i) (S j) result
      | _, _ => (i, result)
      end
  end.

Definition removeCommon (x y : list string) : list string :=
  let '(i, result) := removeCommon_loop (length x + length y) x y O O [] in
  if (i <? length x)%nat then result ++ drop i x else result.

(** ** bigIntToBytes *)

(** [abs.toString(16).length], by repeated division *)
Fixpoint hex_length (fuel : nat) (n : Z) : Z :=
  match fuel with
  | O => 1
  | S fuel => if n <? 16 then 1 else 1 + hex_length fuel (n / 16)
  end.

(** The loop over [i] from [byteLength - 1] down to 0; what is written so far is
    the tail of the buffer. *)
Fixpoint bigIntToBytes_loop (i : nat) (temp : Z) (tail : list Z) : list Z :=
  match i with
  | O => tail
  | S i => bigIntToBytes_loop i (Z.shiftr temp 8) (Z.land temp 255 :: tail)
  end.

(** The bytes as numbers. *)
Definition bigIntToBytes (value : Z) : list Z :=
  let abs := if value <? 0 then - value else value in
  let byteLength := (hex_length (Z.to_nat (Z.log2 abs)) abs + 1) / 2 in
  bigIntToBytes_loop (Z.to_nat byteLength) abs [].

(** ** removeCommon is a multiset difference *)

Fixpoint diff (x : list string) : list string → list string :=
  match x with
  | [] => λ _, []
  | a :: x' =>
      fix go (y : list string) : list string :=
        match y with
        | [] => a :: x'
        | b :: y' => if Str.ltb a b then a :: diff x' y
                     else if Str.ltb b a then go y' else diff x' y'
        end
  end.

Lemma ltb_true a b : Str.ltb a b = true ↔ String.le a b ∧ a ≠ b.
Proof.
  unfold Str.ltb, String.ltb, String.le, String.leb.
  assert (∀ s, String.compare s s = Eq) as Hrefl.
  { intros s. pose proof (String.compare_antisym s s) as H. by destruct (String.compare s s). }
  destruct (String.compare a b) eqn:E; simpl.
  - apply String.compare_eq_iff in E as ->. naive_solver.
  - split; [|done]. intros _. split; [done|]. intros ->. by rewrite Hrefl in E.
  - split; [done|]. by intros [[] _].
Qed.

Lemma ltb_trichotomy a b : Str.ltb a b = false → Str.ltb b a = false → a = b.
Proof.
  intros H1 H2. destruct (decide (a = b)) as [|Hne]; [done|]. exfalso.
  destruct (total String.le a b) as [Hle|Hle].
  - assert (Str.ltb a b = true) by by apply ltb_true. congruence.
  - assert (Str.ltb b a = true) by by apply ltb_true. congruence.
Qed.

Lemma diff_nil_r x : diff x [] = x.
Proof. by destruct x. Qed.

Lemma diff_cons a x b y :
  diff (a :: x) (b :: y) =
    if Str.ltb a b then a :: diff x (b :: y)
    else if Str.ltb b a then diff (a :: x) y else diff x y.
Proof. done. Qed.

(** The loop computes [diff] of what is left, whatever fuel beyond the sum of
    the lengths it has. *)
Lemma loop_spec fuel x y i j result :
  (length x - i + (length y - j) <= fuel)%nat → (i <= length x)%nat →
  let '(i', result') := removeCommon_loop fuel x y i j result in
  result' ++ drop i' x = result ++ diff (drop i x) (drop j y).
Proof.
  revert i j result. induction fuel as [|fuel IH]; intros i j result Hf Hi.
  { simpl. rewrite (drop_ge x i), (drop_ge y j) by lia. done. }
  cbn [removeCommon_loop]. destruct (x !! i) as [xi|] eqn:Hx.
  2: { apply lookup_ge_None in Hx. by rewrite (drop_ge x i). }
  destruct (y !! j) as [yj|] eqn:Hy.
  2: { apply lookup_ge_None in Hy. by rewrite (drop_ge y j), diff_nil_r. }
  pose proof (lookup_lt_Some _ _ _ Hx). pose proof (lookup_lt_Some _ _ _ Hy).
  rewrite (drop_S x xi i Hx), (drop_S y yj j Hy), diff_cons, <- (drop_S y yj j Hy).
  destruct (Str.ltb xi yj).
  - specialize (IH (S i) j (result ++ [xi]) ltac:(lia) ltac:(lia)).
    destruct (removeCommon_loop _ _ _ _ _ _). by rewrite IH, <- app_assoc.
  - destruct (Str.ltb yj xi).
    + specialize (IH i (S j) result ltac:(lia) ltac:(lia)).
      destruct (removeCommon_loop _ _ _ _ _ _). by rewrite IH, (drop_S x xi i Hx).
    + specialize (IH (S i) (S j) result ltac:(lia) ltac:(lia)).
      by destruct (removeCommon_loop _ _ _ _ _ _).
Qed.

Lemma removeCommon_diff x y : removeCommon x y = diff x y.
Proof.
  unfold removeCommon. pose proof (loop_spec (length x + length y) x y 0 0 [] ltac:(lia) ltac:(lia)) as H.
  destruct (removeCommon_loop _ _ _ _ _ _) as [i result]. rewrite !drop_0 in H. simpl in H.
  destruct (Nat.ltb_spec i (length x)); [done|]. by rewrite drop_ge, app_nil_r in H by lia.
Qed.

(** Multiplicities *)
Definition count (k : string) (l : list string) : nat :=
  length (List.filter (String.eqb k) l).

Lemma count_cons k a l : count k (a :: l) = ((if String.eqb k a then 1 else 0) + count k l)%nat.
Proof. unfold count. simpl. by destruct (String.eqb k a). Qed.

Lemma count_lt k l : Forall (λ b, Str.ltb k b = true) l → count k l = 0%nat.
Proof.
  induction 1 as [|b l Hb _ IH]; [done|]. rewrite count_cons, IH.
  apply ltb_true in Hb as [_ Hne]. by apply String.eqb_neq in Hne as ->.
Qed.

Lemma Forall_ltb a b l :
  Str.ltb a b = true → Forall (String.le b) l → Forall (λ c, Str.ltb a c = true) (b :: l).
Proof.
  intros Hab Hl. constructor; [done|]. eapply Forall_impl; [done|]. intros c Hbc.
  apply ltb_true in Hab as [Hle Hne]. apply ltb_true. split; [by etrans|].
  intros ->. by apply Hne, (anti_symm String.le).
Qed.

Lemma diff_count k x y :
  StronglySorted String.le x → StronglySorted String.le y →
  count k (diff x y) = (count k x - count k y)%nat.
Proof.
  intros Hx. revert y. induction Hx as [|a x Hx IHx Ha]; [done|].
  induction 1 as [|b y Hy IHy Hb]; [rewrite diff_nil_r; unfold count at 3; simpl; lia|].
  rewrite diff_cons. destruct (Str.ltb a b) eqn:Eab.
  - rewrite !(count_cons k a), IHx by by constructor.
    destruct (String.eqb_spec k a) as [->|]; [|lia].
    rewrite (count_lt a (b :: y)) by by apply Forall_ltb. lia.
  - destruct (Str.ltb b a) eqn:Eba.
    + rewrite IHy, (count_cons k b). destruct (String.eqb_spec k b) as [->|]; [|lia].
      rewrite (count_lt b (a :: x)) by by apply Forall_ltb. lia.
    + pose proof (ltb_trichotomy _ _ Eab Eba) as ->. rewrite IHx by done.
      rewrite !count_cons. destruct (String.eqb k b); lia.
Qed.

Lemma diff_subset x y k : k ∈ diff x y → k ∈ x.
Proof.
  revert y. induction x as [|a x IHx]; [done|]. induction y as [|b y IHy]; [done|].
  rewrite diff_cons. destruct (Str.ltb a b); [|destruct (Str.ltb b a); [done|]].
  - rewrite !elem_of_cons. intros [->|Hk]; [by left|right; by eapply IHx].
  - intros Hk. apply elem_of_cons. right. by eapply IHx.
Qed.

Lemma diff_sorted x y : StronglySorted String.le x → StronglySorted String.le (diff x y).
Proof.
  intros Hx. revert y. induction Hx as [|a x Hx IHx Ha]; [constructor|].
  induction y as [|b y IHy]; [by constructor|]. rewrite diff_cons.
  repeat case_match; [|done|done]. constructor; [done|].
  rewrite Forall_forall in Ha |- *. intros c Hc. by eapply Ha, diff_subset.
Qed.

(** ** bigIntToBytes is the minimal big-endian representation *)

Definition be_value (l : list Z) : Z := foldl (λ acc b, acc * 256 + b) 0 l.
Definition is_byte (b : Z) : Prop := 0 <= b <= 255.

Lemma be_value_acc l acc :
  foldl (λ acc b, acc * 256 + b) acc l = acc * 256 ^ Z.of_nat (length l) + be_value l.
Proof.
  unfold be_value. revert acc. induction l as [|b l IH]; intros acc; cbn [foldl length].
  - rewrite Z.pow_0_r. lia.
  - rewrite IH, (IH (0 * 256 + b)), Nat2Z.inj_succ, Z.pow_succ_r by lia. ring.
Qed.

Lemma be_value_cons b l : be_value (b :: l) = b * 256 ^ Z.of_nat (length l) + be_value l.
Proof. unfold be_value at 1. cbn [foldl]. rewrite be_value_acc. ring. Qed.

Lemma be_value_bound l : Forall is_byte l → 0 <= be_value l < 256 ^ Z.of_nat (length l).
Proof.
  induction 1 as [|b l Hb _ IH]; [done|]. rewrite be_value_cons. cbn [length].
  rewrite Nat2Z.inj_succ, Z.pow_succ_r by lia. unfold is_byte in Hb. nia.
Qed.

Lemma land_255 t : Z.land t 255 = t mod 256.
Proof. change 255 with (Z.ones 8). by rewrite Z.land_ones. Qed.

Lemma loop_length i t tail : length (bigIntToBytes_loop i t tail) = (i + length tail)%nat.
Proof.
  revert t tail. induction i as [|i IH]; intros t tail; [done|]. cbn [bigIntToBytes_loop].
  rewrite IH. cbn [length]. lia.
Qed.

Lemma loop_bytes i t tail : Forall is_byte tail → Forall is_byte (bigIntToBytes_loop i t tail).
Proof.
  revert t tail. induction i as [|i IH]; intros t tail Ht; [done|]. cbn [bigIntToBytes_loop].
  apply IH. constructor; [|done]. rewrite land_255. unfold is_byte.
  pose proof (Z.mod_pos_bound t 256). lia.
Qed.

Lemma loop_value i t tail :
  0 <= t < 256 ^ Z.of_nat i →
  be_value (bigIntToBytes_loop i t tail) = t * 256 ^ Z.of_nat (length tail) + be_value tail.
Proof.
  revert t tail. induction i as [|i IH]; intros t tail Ht.
  { rewrite Z.pow_0_r in Ht. assert (t = 0) as -> by lia. done. }
  rewrite Nat2Z.inj_succ, Z.pow_succ_r in Ht by lia. cbn [bigIntToBytes_loop].
  rewrite Z.shiftr_div_pow2, land_255 by lia. change (2 ^ 8) with 256.
  rewrite IH by (split; [apply Z.div_pos; lia|apply Z.div_lt_upper_bound; lia]).
  rewrite be_value_cons. cbn [length]. rewrite Nat2Z.inj_succ, Z.pow_succ_r by lia.
  rewrite (Z.div_mod t 256) at 3 by lia. ring.
Qed.

Lemma hex_length_spec fuel n :
  0 < n → n < 2 ^ (Z.of_nat fuel + 1) →
  0 < hex_length fuel n ∧ 16 ^ (hex_length fuel n - 1) <= n < 16 ^ hex_length fuel n.
Proof.
  revert n. induction fuel as [|fuel IH]; intros n Hn Hf; cbn [hex_length].
  { change (2 ^ (Z.of_nat 0 + 1)) with 2 in Hf. simpl. lia. }
  destruct (Z.ltb_spec n 16); [change (16 ^ (1 - 1)) with 1; lia|].
  assert (n / 16 < 2 ^ (Z.of_nat fuel + 1)) as Hlt.
  { apply Z.div_lt_upper_bound; [lia|]. rewrite Nat2Z.inj_succ in Hf.
    replace (Z.succ (Z.of_nat fuel) + 1) with (Z.succ (Z.of_nat fuel + 1)) in Hf by lia.
    rewrite Z.pow_succ_r in Hf by lia. pose proof (Z.pow_pos_nonneg 2 (Z.of_nat fuel + 1)). lia. }
  assert (0 < n / 16) as Hpos by (apply Z.div_str_pos; lia).
  destruct (IH (n / 16) Hpos Hlt) as (H0 & H1 & H2). set (h := hex_length fuel (n / 16)) in *.
  split; [lia|]. pose proof (Z.div_mod n 16). pose proof (Z.mod_pos_bound n 16). split.
  - replace (1 + h - 1) with (Z.succ (h - 1)) by lia. rewrite Z.pow_succ_r by lia. lia.
  - replace (1 + h) with (Z.succ h) by lia. rewrite Z.pow_succ_r by lia. lia.
Qed.

Lemma byteLength_spec n :
  0 < n →
  let k := (hex_length (Z.to_nat (Z.log2 n)) n + 1) / 2 in
  1 <= k ∧ 256 ^ (k - 1) <= n < 256 ^ k.
Proof.
  intros Hn. pose proof (Z.log2_spec n Hn) as [_ Hl]. pose proof (Z.log2_nonneg n).
  destruct (hex_length_spec (Z.to_nat (Z.log2 n)) n Hn) as (H0 & H1 & H2).
  { by rewrite Z2Nat.id, Z.add_1_r by lia. }
  set (h := hex_length _ n) in *. cbv zeta.
  pose proof (Z.div_mod (h + 1) 2). pose proof (Z.mod_pos_bound (h + 1) 2).
  set (k := (h + 1) / 2) in *. split; [lia|].
  change 256 with (16 ^ 2). rewrite <- !Z.pow_mul_r by lia.
  pose proof (Z.pow_le_mono_r 16 (2 * (k - 1)) (h - 1)).
  pose proof (Z.pow_le_mono_r 16 h (2 * k)). lia.
Qed.

(** On sorted inputs, which is how the solicitations use it,
    [removeCommon] is the multiset difference: its result is sorted and every
    string occurs in it as often as in [x] minus as often as in [y] (and
    [length x + length y] iterations of its loop are enough). *)
Theorem removeCommon_multiset_difference x y :
  StronglySorted String.le x → StronglySorted String.le y →
  StronglySorted String.le (removeCommon x y)
  ∧ ∀ k, count k (removeCommon x y) = (count k x - count k y)%nat.
Proof.
  intros Hx Hy. rewrite removeCommon_diff. split; [by apply diff_sorted|].
  intros k. by apply diff_count.
Qed.

Lemma removeCommon_multiset_difference_witness :
  removeCommon ["a"; "b"; "b"; "d"] ["b"; "c"; "d"] = ["a"; "b"]
  ∧ ∀ k, count k (removeCommon ["a"; "b"; "b"; "d"] ["b"; "c"; "d"])
         = (count k ["a"; "b"; "b"; "d"] - count k ["b"; "c"; "d"])%nat.
Proof.
  split; [reflexivity|].
  apply (removeCommon_multiset_difference ["a"; "b"; "b"; "d"] ["b"; "c"; "d"]);
    apply (bool_decide_unpack _); vm_compute; exact I.
Defined.

(** [bigIntToBytes] returns bytes (each between 0 and 255) that, read
    big-endian, are the absolute value of its argument, for integers of any
    size; the representation is minimal: no leading zero byte, except that 0
    is the single byte 0. *)
Theorem bigIntToBytes_correct value :
  be_value (bigIntToBytes value) = Z.abs value
  ∧ Forall is_byte (bigIntToBytes value)
  ∧ (value = 0 → bigIntToBytes value = [0])
  ∧ (value ≠ 0 → ∃ b l, bigIntToBytes value = b :: l ∧ 0 < b).
Proof.
  unfold bigIntToBytes. replace (if value <? 0 then - value else value) with (Z.abs value)
    by (destruct (Z.ltb_spec value 0); [rewrite Z.abs_neq|rewrite Z.abs_eq]; lia).
  destruct (decide (value = 0)) as [->|Hv].
  { split_and!; [done| |done|by intros []]. repeat constructor; done. }
  set (n := Z.abs value). assert (0 < n) as Hn by lia.
  destruct (byteLength_spec n Hn) as (Hk & Hlo & Hhi). set (k := (_ + 1) / 2) in *.
  set (l := bigIntToBytes_loop (Z.to_nat k) n []).
  assert (be_value l = n) as Hval.
  { subst l. rewrite loop_value by (rewrite Z2Nat.id by lia; lia). cbn [length].
    rewrite Z.pow_0_r. unfold be_value. simpl. lia. }
  assert (Forall is_byte l) as Hb by by apply loop_bytes.
  assert (length l = Z.to_nat k) as Hlen by (subst l; rewrite loop_length; simpl; lia).
  split_and!; [done|done|lia|]. intros _. destruct l as [|b l]; [simpl in Hlen; lia|].
  exists b, l. split; [done|]. simpl in Hlen. rewrite be_value_cons in Hval.
  apply Forall_cons in Hb as [Hb Hl]. unfold is_byte in Hb.
  pose proof (be_value_bound l Hl) as Hbound.
  replace (Z.of_nat (length l)) with (k - 1) in * by lia. nia.
Qed.
