(* ===== verification/Proto.v ===== *)
(** * Proto: the protocol messages (protocol/protocol.proto, protocol/payloads.proto)

    One record per message and one inductive per [oneof], as protobuf-es
    exposes them to TypeScript: singular message fields and [optional] fields
    are [option]s, [map] fields are finite maps, a [oneof] that is not set is
    the constructor [..._unset]. Proto3 enums are open: a number outside the
    declared values is kept by the [..._OTHER] constructor. Field names carry
    an abbreviation of their message. *)

From S2P Require Import Prelude JsLib Ids.

(** ** Enums *)

Inductive MembershipOp :=
  | SO_UNSPECIFIED | SO_INVITE | SO_JOIN | SO_LEAVE | SO_OTHER (n : Z).
#[export] Instance MembershipOp_eq_dec : EqDecision MembershipOp.
Proof. solve_decision. Defined.

Inductive MembershipReason := MR_NONE | MR_NOT_ENTITLED | MR_EXPIRED | MR_OTHER (n : Z).
#[export] Instance MembershipReason_eq_dec : EqDecision MembershipReason.
Proof. solve_decision. Defined.

Inductive ChannelOp :=
  | CO_UNSPECIFIED | CO_CREATED | CO_DELETED | CO_UPDATED | CO_OTHER (n : Z).
#[export] Instance ChannelOp_eq_dec : EqDecision ChannelOp.
Proof. solve_decision. Defined.

Inductive EncryptedDataVersion :=
  | ENCRYPTED_DATA_VERSION_0 | ENCRYPTED_DATA_VERSION_1 | ENCRYPTED_DATA_VERSION_OTHER (n : Z).
#[export] Instance EncryptedDataVersion_eq_dec : EqDecision EncryptedDataVersion.
Proof. solve_decision. Defined.

Inductive SpaceReview_Action := SR_Add | SR_Update | SR_Delete | SR_OTHER (n : Z).
#[export] Instance SpaceReview_Action_eq_dec : EqDecision SpaceReview_Action.
Proof. solve_decision. Defined.

(** ** Shared messages *)

Record EncryptedData := {
  ed_ciphertext : string;
  ed_algorithm : string;
  ed_senderKey : string;
  ed_sessionId : string;
  ed_checksum : option string;
  ed_refEventId : option string;
  ed_ciphertextBytes : bytes;
  ed_ivBytes : bytes;
  ed_sessionIdBytes : bytes;
  ed_version : EncryptedDataVersion;
}.
#[export] Instance EncryptedData_eq_dec : EqDecision EncryptedData.
Proof. solve_decision. Defined.

Record WrappedEncryptedData := {
  wed_data : option EncryptedData;
  wed_eventNum : Z;
  wed_eventHash : bytes;
}.
#[export] Instance WrappedEncryptedData_eq_dec : EqDecision WrappedEncryptedData.
Proof. solve_decision. Defined.

Record EventRef := { ref_streamId : bytes; ref_hash : bytes; ref_signature : bytes }.
Record StreamSettings := { ss_disableMiniblockCreation : bool; ss_lightStream : bool }.

Record SyncCookie := {
  ck_nodeAddress : bytes;
  ck_streamId : bytes;
  ck_minipoolGen : Z;
  ck_prevMiniblockHash : bytes;
}.

(** ** Blockchain transactions *)

Record Tip_Event := {
  te_tokenId : Z;
  te_currency : bytes;
  te_sender : bytes;
  te_receiver : bytes;
  te_amount : Z;
  te_messageId : bytes;
  te_channelId : bytes;
}.
Record Tip := { tip_event : option Tip_Event; tip_toUserAddress : bytes }.

Record TokenTransfer := {
  tt_address : bytes;
  tt_amount : string;
  tt_sender : bytes;
  tt_messageId : bytes;
  tt_channelId : bytes;
  tt_isBuy : bool;
}.

Record SpaceReview_Event := { sre_user : bytes; sre_rating : Z }.
Record SpaceReview := {
  sr_spaceAddress : bytes;
  sr_action : SpaceReview_Action;
  sr_event : option SpaceReview_Event;
}.

Record Receipt_Log := { log_address : bytes; log_topics : list bytes; log_data : bytes }.
Record BlockchainTransactionReceipt := {
  rc_chainId : Z;
  rc_transactionHash : bytes;
  rc_blockNumber : Z;
  rc_to : bytes;
  rc_from : bytes;
  rc_logs : list Receipt_Log;
}.

Record Solana_TokenBalance := {
  stb_mint : string;
  stb_owner : string;
  stb_amount : option (string * Z);
}.
Record SolanaBlockchainTransactionReceipt := {
  sol_slot : Z;
  sol_transaction : option (list string);
  sol_meta : option (list Solana_TokenBalance * list Solana_TokenBalance);
}.

Inductive BlockchainTransaction_content :=
  | BT_unset
  | BT_tip (v : Tip)
  | BT_tokenTransfer (v : TokenTransfer)
  | BT_spaceReview (v : SpaceReview).

Record BlockchainTransaction := {
  bt_receipt : option BlockchainTransactionReceipt;
  bt_solanaReceipt : option SolanaBlockchainTransactionReceipt;
  bt_content : BlockchainTransaction_content;
}.

(** ** MemberPayload *)

Record MP_Membership := {
  mm_op : MembershipOp;
  mm_userAddress : bytes;
  mm_initiatorAddress : bytes;
  mm_streamParentId : option bytes;
  mm_reason : MembershipReason;
  mm_appAddress : option bytes;
}.

Record MP_KeySolicitation := {
  ks_deviceKey : string;
  ks_fallbackKey : string;
  ks_isNewDevice : bool;
  ks_sessionIds : list string;
}.

Record MP_KeyFulfillment := {
  kf_userAddress : bytes;
  kf_deviceKey : string;
  kf_sessionIds : list string;
}.

Record MP_Nft := { nft_chainId : Z; nft_contractAddress : bytes; nft_tokenId : bytes }.
#[export] Instance MP_Nft_eq_dec : EqDecision MP_Nft.
Proof. solve_decision. Defined.

Record MP_MemberBlockchainTransaction := {
  mbt_transaction : option BlockchainTransaction;
  mbt_fromUserAddress : bytes;
}.

Record MP_Snapshot_Member := {
  sm_userAddress : bytes;
  sm_miniblockNum : Z;
  sm_eventNum : Z;
  sm_solicitations : list MP_KeySolicitation;
  sm_username : option WrappedEncryptedData;
  sm_displayName : option WrappedEncryptedData;
  sm_ensAddress : bytes;
  sm_nft : option MP_Nft;
  sm_tipsSent : gmap string Z;
  sm_tipsReceived : gmap string Z;
  sm_tipsSentCount : gmap string Z;
  sm_tipsReceivedCount : gmap string Z;
}.

(** A pin carries a whole [StreamEvent]; the messages that contain one take
    the type of events as the parameter [E]. *)
Record MP_Pin_ (E : Type) := { pin_eventId : bytes; pin_event : option E }.
Arguments pin_eventId {E} _.
Arguments pin_event {E} _.

Record MP_SnappedPin_ (E : Type) := { sp_creatorAddress : bytes; sp_pin : option (MP_Pin_ E) }.
Arguments sp_creatorAddress {E} _.
Arguments sp_pin {E} _.

Record MP_Snapshot_ (E : Type) := {
  ms_joined : list MP_Snapshot_Member;
  ms_pins : list (MP_SnappedPin_ E);
  (** [EncryptionAlgorithm]: the message, then its optional field *)
  ms_encryptionAlgorithm : option (option string);
  ms_tips : gmap string Z;
  ms_tipsCount : gmap string Z;
}.
Arguments ms_joined {E} _.
Arguments ms_pins {E} _.
Arguments ms_encryptionAlgorithm {E} _.
Arguments ms_tips {E} _.
Arguments ms_tipsCount {E} _.

Inductive MemberPayload_ (E : Type) :=
  | MP_unset
  | MP_membership (v : MP_Membership)
  | MP_keySolicitation (v : MP_KeySolicitation)
  | MP_keyFulfillment (v : MP_KeyFulfillment)
  | MP_username (v : EncryptedData)
  | MP_displayName (v : EncryptedData)
  | MP_ensAddress (v : bytes)
  | MP_nft (v : MP_Nft)
  | MP_pin (v : MP_Pin_ E)
  | MP_unpin (eventId : bytes)
  | MP_memberBlockchainTransaction (v : MP_MemberBlockchainTransaction)
  | MP_encryptionAlgorithm (algorithm : option string).
Arguments MP_unset {E}.
Arguments MP_membership {E} v.
Arguments MP_keySolicitation {E} v.
Arguments MP_keyFulfillment {E} v.
Arguments MP_username {E} v.
Arguments MP_displayName {E} v.
Arguments MP_ensAddress {E} v.
Arguments MP_nft {E} v.
Arguments MP_pin {E} v.
Arguments MP_unpin {E} eventId.
Arguments MP_memberBlockchainTransaction {E} v.
Arguments MP_encryptionAlgorithm {E} algorithm.

(** ** SpacePayload *)

Record SP_ChannelSettings := { cs_autojoin : bool; cs_hideUserJoinLeaveEvents : bool }.
#[export] Instance SP_ChannelSettings_eq_dec : EqDecision SP_ChannelSettings.
Proof. solve_decision. Defined.

Record SP_ChannelMetadata := {
  cm_op : ChannelOp;
  cm_channelId : bytes;
  cm_originEvent : option EventRef;
  cm_updatedAtEventNum : Z;
  cm_settings : option SP_ChannelSettings;
}.
Record SP_ChannelUpdate := {
  cu_op : ChannelOp;
  cu_channelId : bytes;
  cu_originEvent : option EventRef;
  cu_settings : option SP_ChannelSettings;
}.
Record SP_SnappedSpaceImage := {
  si_creatorAddress : bytes;
  si_data : option EncryptedData;
  si_eventNum : Z;
  si_eventHash : bytes;
}.
Record SP_Inception := { spi_streamId : bytes; spi_settings : option StreamSettings }.
Record SP_UpdateChannelAutojoin := { uca_channelId : bytes; uca_autojoin : bool }.
Record SP_UpdateChannelHideUserJoinLeaveEvents := {
  uch_channelId : bytes;
  uch_hideUserJoinLeaveEvents : bool;
}.
Record SP_Snapshot := {
  sps_inception : option SP_Inception;
  sps_channels : list SP_ChannelMetadata;
  sps_spaceImage : option SP_SnappedSpaceImage;
}.
Inductive SpacePayload :=
  | SP_unset
  | SP_inception (v : SP_Inception)
  | SP_channel (v : SP_ChannelUpdate)
  | SP_spaceImage (v : EncryptedData)
  | SP_updateChannelAutojoin (v : SP_UpdateChannelAutojoin)
  | SP_updateChannelHideUserJoinLeaveEvents (v : SP_UpdateChannelHideUserJoinLeaveEvents).

(** ** ChannelPayload, DmChannelPayload, GdmChannelPayload *)

Record CP_Inception := {
  cpi_streamId : bytes;
  cpi_spaceId : bytes;
  cpi_settings : option StreamSettings;
  cpi_channelSettings : option SP_ChannelSettings;
}.
Inductive ChannelPayload :=
  | CP_unset
  | CP_inception (v : CP_Inception)
  | CP_message (v : EncryptedData)
  | CP_redaction (eventId : bytes).
Record CP_Snapshot := { cps_inception : option CP_Inception }.

Record DM_Inception := {
  dmi_streamId : bytes;
  dmi_firstPartyAddress : bytes;
  dmi_secondPartyAddress : bytes;
  dmi_settings : option StreamSettings;
}.
Inductive DmChannelPayload :=
  | DMP_unset
  | DMP_inception (v : DM_Inception)
  | DMP_message (v : EncryptedData).
Record DM_Snapshot := { dms_inception : option DM_Inception }.

Record GDM_Inception := {
  gdi_streamId : bytes;
  gdi_channelProperties : option EncryptedData;
  gdi_settings : option StreamSettings;
}.
Inductive GdmChannelPayload :=
  | GDMP_unset
  | GDMP_inception (v : GDM_Inception)
  | GDMP_message (v : EncryptedData)
  | GDMP_channelProperties (v : EncryptedData).
Record GDM_Snapshot := {
  gds_inception : option GDM_Inception;
  gds_channelProperties : option WrappedEncryptedData;
}.

(** ** The user streams *)

(** Inception of the four user streams *)
Record U_Inception := {
  ui_streamId : bytes;
  ui_settings : option StreamSettings;
  ui_appAddress : option bytes;
}.

Record UP_UserMembership := {
  um_streamId : bytes;
  um_op : MembershipOp;
  um_inviter : option bytes;
  um_streamParentId : option bytes;
  um_reason : option MembershipReason;
}.
#[export] Instance UP_UserMembership_eq_dec : EqDecision UP_UserMembership.
Proof. solve_decision. Defined.
Record UP_UserMembershipAction := {
  uma_streamId : bytes;
  uma_userId : bytes;
  uma_op : MembershipOp;
  uma_streamParentId : option bytes;
  uma_reason : option MembershipReason;
}.
Record UP_ReceivedBlockchainTransaction := {
  rbt_transaction : option BlockchainTransaction;
  rbt_fromUserAddress : bytes;
}.
Record UP_Snapshot := {
  ups_inception : option U_Inception;
  ups_memberships : list UP_UserMembership;
  ups_tipsSent : gmap string Z;
  ups_tipsReceived : gmap string Z;
  ups_tipsSentCount : gmap string Z;
  ups_tipsReceivedCount : gmap string Z;
}.
Inductive UserPayload :=
  | UP_unset
  | UP_inception (v : U_Inception)
  | UP_userMembership (v : UP_UserMembership)
  | UP_userMembershipAction (v : UP_UserMembershipAction)
  | UP_blockchainTransaction (v : BlockchainTransaction)
  | UP_receivedBlockchainTransaction (v : UP_ReceivedBlockchainTransaction).

Record DeviceSummary := { ds_lowerBound : Z; ds_upperBound : Z }.
#[export] Instance DeviceSummary_eq_dec : EqDecision DeviceSummary.
Proof. solve_decision. Defined.
Record UIP_Snapshot := {
  uis_inception : option U_Inception;
  uis_deviceSummary : gmap string DeviceSummary;
}.
Record GroupEncryptionSessions := {
  ges_streamId : bytes;
  ges_senderKey : string;
  ges_sessionIds : list string;
  ges_ciphertexts : gmap string string;
  ges_algorithm : string;
}.
Record UIP_Ack := { ack_deviceKey : string; ack_miniblockNum : Z }.
Inductive UserInboxPayload :=
  | UIP_unset
  | UIP_inception (v : U_Inception)
  | UIP_ack (v : UIP_Ack)
  | UIP_groupEncryptionSessions (v : GroupEncryptionSessions).

Record Block := { blk_isBlocked : bool; blk_eventNum : Z }.
Record UserBlocks := { ub_userId : bytes; ub_blocks : list Block }.
(** [UserSettingsPayload.FullyReadMarkers]: [content] is a message of one
    string, the JSON of the markers *)
Record USP_FullyReadMarkers := { frm_streamId : bytes; frm_content : option string }.
Record USP_UserBlock := { usb_userId : bytes; usb_isBlocked : bool; usb_eventNum : Z }.
Record USP_Snapshot := {
  uss_inception : option U_Inception;
  uss_fullyReadMarkers : list USP_FullyReadMarkers;
  uss_userBlocksList : list UserBlocks;
}.
Inductive UserSettingsPayload :=
  | USP_unset
  | USP_inception (v : U_Inception)
  | USP_fullyReadMarkers (v : USP_FullyReadMarkers)
  | USP_userBlock (v : USP_UserBlock).

Record EncryptionDevice := { dev_deviceKey : string; dev_fallbackKey : string }.
#[export] Instance EncryptionDevice_eq_dec : EqDecision EncryptionDevice.
Proof. solve_decision. Defined.
Record UMP_Snapshot := {
  umps_inception : option U_Inception;
  umps_encryptionDevices : list EncryptionDevice;
  umps_profileImage : option WrappedEncryptedData;
  umps_bio : option WrappedEncryptedData;
}.
Inductive UserMetadataPayload :=
  | UMP_unset
  | UMP_inception (v : U_Inception)
  | UMP_encryptionDevice (v : EncryptionDevice)
  | UMP_profileImage (v : EncryptedData)
  | UMP_bio (v : EncryptedData).

(** ** MediaPayload *)

Record MDP_Inception := {
  mdi_streamId : bytes;
  mdi_channelId : option bytes;
  mdi_chunkCount : Z;
  mdi_settings : option StreamSettings;
  mdi_spaceId : option bytes;
  mdi_userId : option bytes;
  mdi_perChunkEncryption : option bool;
}.
Record MDP_Chunk := { ch_data : bytes; ch_chunkIndex : Z; ch_iv : option bytes }.
Inductive MediaPayload :=
  | MDP_unset
  | MDP_inception (v : MDP_Inception)
  | MDP_chunk (v : MDP_Chunk).
Record MDP_Snapshot := { mds_inception : option MDP_Inception }.

(** ** Snapshot, MiniblockHeader, StreamEvent

    The SDK reads nothing of a [MetadataPayload] but the name of its content
    case, and nothing of its snapshot. *)

Inductive Snapshot_content :=
  | SC_unset
  | SC_spaceContent (v : SP_Snapshot)
  | SC_channelContent (v : CP_Snapshot)
  | SC_userContent (v : UP_Snapshot)
  | SC_userSettingsContent (v : USP_Snapshot)
  | SC_userMetadataContent (v : UMP_Snapshot)
  | SC_mediaContent (v : MDP_Snapshot)
  | SC_dmChannelContent (v : DM_Snapshot)
  | SC_gdmChannelContent (v : GDM_Snapshot)
  | SC_userInboxContent (v : UIP_Snapshot)
  | SC_metadataContent.

Record Snapshot_ (E : Type) := {
  sn_members : option (MP_Snapshot_ E);
  sn_snapshotVersion : Z;
  sn_content : Snapshot_content;
}.
Arguments Build_Snapshot_ {E} _ _ _.
Arguments sn_members {E} _.
Arguments sn_snapshotVersion {E} _.
Arguments sn_content {E} _.

Record MiniblockHeader_ (E : Type) := {
  mh_miniblockNum : Z;
  mh_prevMiniblockHash : bytes;
  mh_timestampMs : Z;
  mh_eventHashes : list bytes;
  mh_snapshot : option (Snapshot_ E);
  mh_eventNumOffset : Z;
  mh_prevSnapshotMiniblockNum : Z;
  mh_snapshotHash : option bytes;
  (** the [oneof content]: [true] when it is set, to [none] *)
  mh_content : bool;
}.
Arguments mh_miniblockNum {E} _.
Arguments mh_prevMiniblockHash {E} _.
Arguments mh_timestampMs {E} _.
Arguments mh_eventHashes {E} _.
Arguments mh_snapshot {E} _.
Arguments mh_eventNumOffset {E} _.
Arguments mh_prevSnapshotMiniblockNum {E} _.
Arguments mh_snapshotHash {E} _.
Arguments mh_content {E} _.

Inductive Payload_ (E : Type) :=
  | P_unset
  | P_miniblockHeader (v : MiniblockHeader_ E)
  | P_memberPayload (v : MemberPayload_ E)
  | P_spacePayload (v : SpacePayload)
  | P_channelPayload (v : ChannelPayload)
  | P_userPayload (v : UserPayload)
  | P_userSettingsPayload (v : UserSettingsPayload)
  | P_userMetadataPayload (v : UserMetadataPayload)
  | P_userInboxPayload (v : UserInboxPayload)
  | P_mediaPayload (v : MediaPayload)
  | P_dmChannelPayload (v : DmChannelPayload)
  | P_gdmChannelPayload (v : GdmChannelPayload)
  | P_metadataPayload (contentCase : option string).
Arguments P_unset {E}.
Arguments P_miniblockHeader {E} v.
Arguments P_memberPayload {E} v.
Arguments P_spacePayload {E} v.
Arguments P_channelPayload {E} v.
Arguments P_userPayload {E} v.
Arguments P_userSettingsPayload {E} v.
Arguments P_userMetadataPayload {E} v.
Arguments P_userInboxPayload {E} v.
Arguments P_mediaPayload {E} v.
Arguments P_dmChannelPayload {E} v.
Arguments P_gdmChannelPayload {E} v.
Arguments P_metadataPayload {E} contentCase.

Inductive MessageInteractionType :=
  | MIT_UNSPECIFIED | MIT_REPLY | MIT_REACTION | MIT_POST | MIT_EDIT | MIT_REDACTION | MIT_TIP | MIT_TRADE
  | MIT_OTHER (n : Z).
Inductive GroupMentionType := GMT_UNSPECIFIED | GMT_AT_CHANNEL | GMT_OTHER (n : Z).

Record Tags := {
  tg_messageInteractionType : MessageInteractionType;
  tg_groupMentionTypes : list GroupMentionType;
  tg_mentionedUserAddresses : list bytes;
  tg_participatingUserAddresses : list bytes;
  tg_threadId : option bytes;
}.
#[export] Instance MessageInteractionType_eq_dec : EqDecision MessageInteractionType.
Proof. solve_decision. Defined.
#[export] Instance GroupMentionType_eq_dec : EqDecision GroupMentionType.
Proof. solve_decision. Defined.

Inductive StreamEvent := Build_StreamEvent {
  ev_creatorAddress : bytes;
  ev_delegateSig : bytes;
  ev_salt : bytes;
  ev_prevMiniblockHash : option bytes;
  ev_createdAtEpochMs : Z;
  ev_delegateExpiryEpochMs : Z;
  ev_tags : option Tags;
  ev_prevMiniblockNum : option Z;
  ev_payload : Payload_ StreamEvent;
}.

Abbreviation MP_Pin := (MP_Pin_ StreamEvent).
Abbreviation MP_SnappedPin := (MP_SnappedPin_ StreamEvent).
Abbreviation MP_Snapshot := (MP_Snapshot_ StreamEvent).
Abbreviation MemberPayload := (MemberPayload_ StreamEvent).
Abbreviation Snapshot := (Snapshot_ StreamEvent).
Abbreviation MiniblockHeader := (MiniblockHeader_ StreamEvent).
Abbreviation Payload := (Payload_ StreamEvent).

(** ** Envelopes *)

Record Envelope := { env_hash : bytes; env_signature : bytes; env_event : bytes }.
Record Miniblock := { mbk_events : list Envelope; mbk_header : option Envelope }.
Record StreamAndCookie := {
  sac_events : list Envelope;
  sac_nextSyncCookie : option SyncCookie;
  sac_miniblocks : list Miniblock;
  sac_syncReset : bool;
  sac_snapshot : option Envelope;
}.

(** ** ChannelMessage (payloads.proto) *)

Record MediaInfo := {
  mi_mimetype : string;
  mi_sizeBytes : Z;
  mi_widthPixels : Z;
  mi_heightPixels : Z;
  mi_filename : string;
}.
Record EmbeddedMedia := { em_info : option MediaInfo; em_content : bytes }.
Record AESGCM := { aes_iv : bytes; aes_secretKey : bytes }.
Record ChunkedMedia := {
  cmd_info : option MediaInfo;
  cmd_streamId : string;
  cmd_thumbnail : option EmbeddedMedia;
  (** [oneof encryption]; [aesgcm] is its only case *)
  cmd_encryption : option AESGCM;
}.

Record Image_Info := {
  ii_url : string;
  ii_mimetype : string;
  ii_size : option Z;
  ii_width : option Z;
  ii_height : option Z;
}.
Record PostImage := {
  img_title : string;
  img_info : option Image_Info;
  img_thumbnail : option Image_Info;
}.
Record PostGM := { gm_typeUrl : string; gm_value : option bytes }.

Inductive MentionBehavior := MB_unset | MB_atChannel | MB_atRole (roleId : Z).
Record PostMention := {
  mn_userId : string;
  mn_displayName : string;
  mn_mentionBehavior : MentionBehavior;
}.

Record EmbeddedMessage_Info := {
  emi_userId : string;
  emi_createdAtEpochMs : Z;
  emi_spaceId : string;
  emi_channelId : string;
  emi_messageId : string;
  emi_replyId : option string;
}.
Record EmbeddedMessage_StaticInfo := {
  ems_userName : option string;
  ems_displayName : option string;
  ems_channelName : option string;
  ems_spaceName : option string;
  ems_ensName : option string;
}.
Record UnfurledImage := { ufi_height : Z; ufi_width : Z; ufi_url : string }.
Record UnfurledURL := {
  uf_url : string;
  uf_description : string;
  uf_title : string;
  uf_image : option UnfurledImage;
}.
Record Ticker := { tk_address : string; tk_chainId : string }.

(** A post may embed a post; the messages between take the type of posts as
    the parameter [P]. *)
Record EmbeddedMessage_ (P : Type) := {
  emm_url : string;
  emm_post : option P;
  emm_info : option EmbeddedMessage_Info;
  emm_staticInfo : option EmbeddedMessage_StaticInfo;
}.
Arguments Build_EmbeddedMessage_ {P} _ _ _ _.
Arguments emm_url {P} _.
Arguments emm_post {P} _.
Arguments emm_info {P} _.
Arguments emm_staticInfo {P} _.

Inductive PostAttachment_ (P : Type) :=
  | PA_unset
  | PA_image (v : PostImage)
  | PA_embeddedMedia (v : EmbeddedMedia)
  | PA_chunkedMedia (v : ChunkedMedia)
  | PA_embeddedMessage (v : EmbeddedMessage_ P)
  | PA_unfurledUrl (v : UnfurledURL)
  | PA_ticker (v : Ticker).
Arguments PA_unset {P}.
Arguments PA_image {P} v.
Arguments PA_embeddedMedia {P} v.
Arguments PA_chunkedMedia {P} v.
Arguments PA_embeddedMessage {P} v.
Arguments PA_unfurledUrl {P} v.
Arguments PA_ticker {P} v.

Record PostText_ (P : Type) := {
  txt_body : string;
  txt_mentions : list PostMention;
  txt_attachments : list (PostAttachment_ P);
}.
Arguments Build_PostText_ {P} _ _ _.
Arguments txt_body {P} _.
Arguments txt_mentions {P} _.
Arguments txt_attachments {P} _.

Inductive PostContent_ (P : Type) :=
  | PC_unset
  | PC_text (v : PostText_ P)
  | PC_image (v : PostImage)
  | PC_gm (v : PostGM).
Arguments PC_unset {P}.
Arguments PC_text {P} v.
Arguments PC_image {P} v.
Arguments PC_gm {P} v.

Inductive Post := Build_Post {
  po_threadId : option string;
  po_threadPreview : option string;
  po_replyId : option string;
  po_replyPreview : option string;
  po_content : PostContent_ Post;
}.

Abbreviation EmbeddedMessage := (EmbeddedMessage_ Post).
Abbreviation PostAttachment := (PostAttachment_ Post).
Abbreviation PostText := (PostText_ Post).
Abbreviation PostContent := (PostContent_ Post).

(** [ChannelMessage]: its [oneof payload] *)
Inductive ChannelMessage :=
  | CM_unset
  | CM_post (v : Post)
  | CM_reaction (refEventId reaction : string)
  | CM_edit (refEventId : string) (post : option Post)
  | CM_redaction (refEventId : string) (reason : option string).

Record ChannelProperties := { cpr_name : string; cpr_topic : string }.
#[export] Instance ChannelProperties_eq_dec : EqDecision ChannelProperties.
Proof. solve_decision. Defined.

(** [FullyReadMarkers.Content] *)
Record FullyReadMarker := {
  fr_channelId : string;
  fr_threadParentId : option string;
  fr_eventId : string;
  fr_eventNum : Z;
  fr_beginUnreadWindow : Z;
  fr_endUnreadWindow : Z;
  fr_isUnread : bool;
  fr_markedReadAtTs : Z;
  fr_mentions : Z;
}.
#[export] Instance FullyReadMarker_eq_dec : EqDecision FullyReadMarker.
Proof. solve_decision. Defined.

Record UserBio := { bio_bio : string; bio_updatedAtEpochMs : option Z }.

Record BearerToken := { btk_delegatePrivateKey : string; btk_delegateSig : bytes; btk_expiryEpochMs : Z }.
