(* ===== verification/Types.v ===== *)
(** * Types: the events of a stream (sdk/src/types.ts, sdk/src/encryptedContentTypes.ts,
    sdk/src/sign.ts, web3/src/space/IReviewShim.ts)

    A [StreamTimelineEvent] is a mutable object that the minipool, the pins and
    the lists handed to the timelines share; it lives in a [Heap] and is passed
    around by its [ObjId]. *)

From S2P Require Import Prelude JsLib Ids Proto.

(** [Uint8Array | string] of a decrypted payload *)
Inductive Cleartext := CText (s : string) | CBytes (b : bytes).

(** [if (cleartext)]: the empty string is falsy, every array is truthy. *)
Definition truthy_cleartext (c : option Cleartext) : option Cleartext :=
  match c with
  | Some (CText s) => if truthy_str s then c else None
  | _ => c
  end.

(** [typeof cleartext === 'string' ? cleartext : textDecoder.decode(cleartext)] *)
Definition cleartext_string (c : Cleartext) : string :=
  match c with CText s => s | CBytes b => textDecode b end.

(** [cleartexts : Record<string, Uint8Array | string> | undefined] *)
Abbreviation Cleartexts := (option (gmap string Cleartext)).

(** [cleartexts?.[eventId]] *)
Definition cleartext_at (cleartexts : Cleartexts) (eventId : string) : option Cleartext :=
  m ← cleartexts; m !! eventId.

(** ** sdk/src/types.ts *)

Inductive LocalEventStatus := sending | sent | failed.

Record LocalEvent := {
  le_localId : string;
  le_channelMessage : ChannelMessage;
  le_status : LocalEventStatus;
}.

Record ParsedEvent := {
  pe_event : StreamEvent;
  pe_hash : bytes;
  pe_hashStr : string;
  pe_signature : option bytes;
  pe_creatorUserId : string;
}.

Inductive ContentKind := kind_text | kind_channelMessage | kind_channelProperties.

Record EncryptedContent := { ec_kind : ContentKind; ec_content : EncryptedData }.

Inductive DecryptedContent :=
  | DC_text (content : string)
  | DC_channelMessage (content : ChannelMessage)
  | DC_channelProperties (content : ChannelProperties)
  | DC_unsupported (content : Cleartext).

(** The [error] field, of type [unknown], is only logged. *)
Record DecryptionSessionError := {
  dse_missingSession : bool;
  dse_kind : string;
  dse_encryptedData : EncryptedData;
}.

Record StreamTimelineEvent := {
  ste_hashStr : string;
  ste_creatorUserId : string;
  ste_eventNum : Z;
  ste_createdAtEpochMs : Z;
  ste_localEvent : option LocalEvent;
  ste_remoteEvent : option ParsedEvent;
  ste_decryptedContent : option DecryptedContent;
  ste_decryptedContentError : option DecryptionSessionError;
  ste_miniblockNum : option Z;
  ste_confirmedEventNum : option Z;
}.
#[export] Instance eta_StreamTimelineEvent : Eta StreamTimelineEvent := λ r,
  Build_StreamTimelineEvent (ste_hashStr r) (ste_creatorUserId r) (ste_eventNum r)
    (ste_createdAtEpochMs r) (ste_localEvent r) (ste_remoteEvent r) (ste_decryptedContent r)
    (ste_decryptedContentError r) (ste_miniblockNum r) (ste_confirmedEventNum r).
#[export] Instance eta_LocalEvent : Eta LocalEvent := λ r,
  Build_LocalEvent (le_localId r) (le_channelMessage r) (le_status r).

Definition isLocalEvent (event : StreamTimelineEvent) : bool := isDefined (ste_localEvent event).
Definition isRemoteEvent (event : StreamTimelineEvent) : bool := isDefined (ste_remoteEvent event).
Definition isDecryptedEvent (event : StreamTimelineEvent) : bool :=
  isDefined (ste_decryptedContent event) && isDefined (ste_remoteEvent event).
Definition isConfirmedEvent (event : StreamTimelineEvent) : bool :=
  isRemoteEvent event && isDefined (ste_confirmedEventNum event)
  && isDefined (ste_miniblockNum event).

(** decryptionExtensions.ts *)
Record EventSignatureBundle := {
  sb_hash : bytes;
  sb_signature : option bytes;
  sb_creatorAddress : bytes;
  sb_delegateSig : bytes;
  sb_delegateExpiryEpochMs : Z;
}.

Definition getEventSignature (remoteEvent : ParsedEvent) : EventSignatureBundle := {|
  sb_hash := pe_hash remoteEvent;
  sb_signature := pe_signature remoteEvent;
  sb_creatorAddress := ev_creatorAddress (pe_event remoteEvent);
  sb_delegateSig := ev_delegateSig (pe_event remoteEvent);
  sb_delegateExpiryEpochMs := ev_delegateExpiryEpochMs (pe_event remoteEvent);
|}.

Definition makeRemoteTimelineEvent (parsedEvent : ParsedEvent) (eventNum : Z)
    (miniblockNum confirmedEventNum : option Z) : StreamTimelineEvent := {|
  ste_hashStr := pe_hashStr parsedEvent;
  ste_creatorUserId := pe_creatorUserId parsedEvent;
  ste_eventNum := eventNum;
  ste_createdAtEpochMs := ev_createdAtEpochMs (pe_event parsedEvent);
  ste_localEvent := None;
  ste_remoteEvent := Some parsedEvent;
  ste_decryptedContent := None;
  ste_decryptedContentError := None;
  ste_miniblockNum := miniblockNum;
  ste_confirmedEventNum := confirmedEventNum;
|}.

Record ParsedMiniblock := {
  mb_hash : bytes;
  mb_header : MiniblockHeader;
  mb_events : list ParsedEvent;
}.

Record KeySolicitationContent := {
  ksc_deviceKey : string;
  ksc_fallbackKey : string;
  ksc_isNewDevice : bool;
  ksc_sessionIds : list string;
}.
#[export] Instance KeySolicitationContent_eq_dec : EqDecision KeySolicitationContent.
Proof. solve_decision. Defined.

(** The payload of a remote event; a [RemoteTimelineEvent] has one. *)
Definition ste_payload (event : StreamTimelineEvent) : Payload :=
  match ste_remoteEvent event with
  | Some pe => ev_payload (pe_event pe)
  | None => P_unset
  end.

(** ** Third-party code: protobuf-es codecs and the ethers log parser *)

Inductive ParsedLog :=
  | ReviewAdded (user comment : string) (rating : Z)
  | ReviewUpdated (user comment : string) (rating : Z)
  | ReviewDeleted (user : string)
  | OtherLog (name : string).

Class Codec := {
  (** [fromBinary], [fromJsonString] of @bufbuild/protobuf *)
  channelMessage_fromBinary : bytes → Res ChannelMessage;
  channelMessage_fromJsonString : string → Res ChannelMessage;
  channelProperties_fromBinary : bytes → Res ChannelProperties;
  channelProperties_fromJsonString : string → Res ChannelProperties;
  fullyReadMarkers_fromJsonString : string → Res (gmap string FullyReadMarker);
  (** [IReview__factory.createInterface().parseLog] on address, topics, data *)
  parseLog : string → list string → string → Res ParsedLog;
}.

(** ** sdk/src/encryptedContentTypes.ts *)

Section Types.
Context `{EthLib, Codec}.

Definition toDecryptedContent (kind : ContentKind) (dataVersion : EncryptedDataVersion)
    (cleartext : Cleartext) : Res DecryptedContent :=
  match dataVersion with
  | ENCRYPTED_DATA_VERSION_0 =>
      match cleartext with
      | CBytes _ => Throw (PlainError "cleartext is not a string when dataversion is 0")
      | CText cleartext =>
          match kind with
          | kind_text => Ok (DC_text cleartext)
          | kind_channelMessage =>
              content ← channelMessage_fromJsonString cleartext; Ok (DC_channelMessage content)
          | kind_channelProperties =>
              content ← channelProperties_fromJsonString cleartext; Ok (DC_channelProperties content)
          end
      end
  | ENCRYPTED_DATA_VERSION_1 =>
      match cleartext with
      | CText _ => Throw (PlainError "cleartext is a string when dataversion is 1")
      | CBytes cleartext =>
          match kind with
          | kind_text => Ok (DC_text (textDecode cleartext))
          | kind_channelProperties =>
              content ← channelProperties_fromBinary cleartext; Ok (DC_channelProperties content)
          | kind_channelMessage =>
              content ← channelMessage_fromBinary cleartext; Ok (DC_channelMessage content)
          end
      end
  | ENCRYPTED_DATA_VERSION_OTHER _ => Ok (DC_unsupported cleartext)
  end.

(** ** sdk/src/sign.ts *)

(** Every caller passes the hash, so the hash computed in its absence is not
    modelled. *)
Definition makeParsedEvent (event : StreamEvent) (hash : bytes) (signature : option bytes)
    : Res ParsedEvent :=
  creatorUserId ← userIdFromAddress (ev_creatorAddress event);
  Ok {| pe_event := event;
        pe_hash := hash;
        pe_hashStr := bin_toHexString hash;
        pe_signature := signature;
        pe_creatorUserId := creatorUserId |}.

(** ** web3/src/space/IReviewShim.ts *)

Inductive SpaceReviewAction := SRA_None | SRA_Add | SRA_Update | SRA_Delete.

Record SpaceReviewEventObject := {
  rev_user : string;
  rev_comment : option string;
  rev_rating : Z;
  rev_action : SpaceReviewAction;
}.

Fixpoint getSpaceReviewEventData (logs : list (string * list string * string))
    (senderAddress : string) : SpaceReviewEventObject :=
  match logs with
  | [] => {| rev_user := ""; rev_comment := None; rev_rating := 0; rev_action := SRA_None |}
  | (address, topics, data) :: logs =>
      let sent (user : string) :=
        String.eqb (Str.toLowerCase user) (Str.toLowerCase senderAddress) in
      match parseLog address topics data with
      | Ok (ReviewAdded user comment rating) =>
          if sent user
          then {| rev_user := user; rev_comment := Some comment; rev_rating := rating;
                  rev_action := SRA_Add |}
          else getSpaceReviewEventData logs senderAddress
      | Ok (ReviewUpdated user comment rating) =>
          if sent user
          then {| rev_user := user; rev_comment := Some comment; rev_rating := rating;
                  rev_action := SRA_Update |}
          else getSpaceReviewEventData logs senderAddress
      | Ok (ReviewDeleted user) =>
          if sent user
          then {| rev_user := user; rev_comment := None; rev_rating := 0;
                  rev_action := SRA_Delete |}
          else getSpaceReviewEventData logs senderAddress
      | Ok (OtherLog _) | Throw _ => getSpaceReviewEventData logs senderAddress
      end
  end.

Definition getSpaceReviewEventDataBin (binLogs : list Receipt_Log) (from : bytes)
    : SpaceReviewEventObject :=
  let logs := (λ log, ("0x" +:+ bin_toHexString (log_address log),
                       (λ topic, "0x" +:+ bin_toHexString topic) <$> log_topics log,
                       "0x" +:+ bin_toHexString (log_data log))) <$> binLogs in
  let senderWallet := "0x" +:+ bin_toHexString from in
  getSpaceReviewEventData logs senderWallet.
End Types.

(** ** The heap of event objects *)

Definition ObjId := nat.

Record Heap := { objects : gmap ObjId StreamTimelineEvent; next_id : ObjId }.
#[export] Instance eta_Heap : Eta Heap := λ r, Build_Heap (objects r) (next_id r).

Definition empty_heap : Heap := {| objects := ∅; next_id := O |}.

Definition alloc_obj (e : StreamTimelineEvent) (h : Heap) : ObjId * Heap :=
  (next_id h, {| objects := <[next_id h := e]> (objects h); next_id := S (next_id h) |}).

(** Reads and writes through a reference; a method only holds references to
    allocated objects. *)
Definition get_obj (o : ObjId) (h : Heap) : option StreamTimelineEvent := objects h !! o.
Definition update_obj (o : ObjId) (f : StreamTimelineEvent → StreamTimelineEvent) (h : Heap)
    : Heap := h <| objects ::= alter f o |>.
