(* ===== verification/TimelineTypes.v ===== *)
(** * TimelineTypes: the events of a timeline (sdk/src/views/models/timelineTypes.ts) *)

From S2P Require Import Prelude JsLib Ids Proto Types.

(** ** Attachments and messages *)

Record ThumbnailData := { th_content : bytes; th_info : MediaInfo }.
Record UnfurledLinkImage := {
  uli_height : option Z;
  uli_width : option Z;
  uli_url : option string;
}.

(** An embedded message carries a [ChannelMessageEvent], the parameter [C]. *)
Inductive Attachment_ (C : Type) :=
  | AT_image (info : Image_Info) (id : string)
  | AT_chunkedMedia (streamId : string) (encryption : AESGCM) (info : MediaInfo) (id : string)
      (thumbnail : option ThumbnailData)
  | AT_embeddedMedia (info : MediaInfo) (content : bytes) (id : string)
  | AT_embeddedMessage (url : string) (post : option Post) (channelMessageEvent : option C)
      (info : EmbeddedMessage_Info) (staticInfo : option EmbeddedMessage_StaticInfo) (id : string)
  | AT_unfurledLink (url : string) (description title : option string)
      (image : option UnfurledLinkImage) (id : string)
  | AT_ticker (id address chainId : string).
Arguments AT_image {C} info id.
Arguments AT_chunkedMedia {C} streamId encryption info id thumbnail.
Arguments AT_embeddedMedia {C} info content id.
Arguments AT_embeddedMessage {C} url post channelMessageEvent info staticInfo id.
Arguments AT_unfurledLink {C} url description title image id.
Arguments AT_ticker {C} id address chainId.

Inductive ChannelMessageEventContent :=
  | MT_Image (info thumbnail : option Image_Info)
  | MT_GM (data : option bytes)
  | MT_Text.

Inductive ChannelMessageEvent := Build_ChannelMessageEvent {
  cme_threadId : option string;
  cme_threadPreview : option string;
  cme_replyId : option string;
  cme_replyPreview : option string;
  cme_body : string;
  cme_mentions : list PostMention;
  cme_editsEventId : option string;
  cme_content : ChannelMessageEventContent;
  cme_attachments : option (list (Attachment_ ChannelMessageEvent));
}.
#[export] Instance eta_ChannelMessageEvent : Eta ChannelMessageEvent := λ r,
  Build_ChannelMessageEvent (cme_threadId r) (cme_threadPreview r) (cme_replyId r)
    (cme_replyPreview r) (cme_body r) (cme_mentions r) (cme_editsEventId r) (cme_content r)
    (cme_attachments r).

Abbreviation Attachment := (Attachment_ ChannelMessageEvent).

(** ** Timeline events *)

Inductive Membership := Mb_Join | Mb_Invite | Mb_Leave | Mb_None.
Definition Membership_str (m : Membership) : string :=
  match m with Mb_Join => "join" | Mb_Invite => "invite" | Mb_Leave => "leave" | Mb_None => "" end.

Inductive EventStatus :=
  | ES_NOT_SENT | ES_ENCRYPTING | ES_SENDING | ES_QUEUED | ES_SENT | ES_CANCELLED | ES_RECEIVED.

Inductive TimelineEvent_OneOf :=
  | TE_ChannelCreate (creatorId channelId : string) (channelOp : option ChannelOp)
      (channelSettings : option SP_ChannelSettings)
  | TE_ChannelMessage (message : ChannelMessageEvent)
  | TE_ChannelMessageEncrypted (error : option DecryptionSessionError)
  | TE_ChannelMessageEncryptedWithRef (refEventId : string)
  | TE_ChannelMessageMissing (eventId : string)
  | TE_ChannelProperties (properties : ChannelProperties)
  | TE_EncryptedChannelProperties (error : option DecryptionSessionError)
  | TE_Fulfillment (sessionIds : list string) (deviceKey to from : string)
  | TE_Inception (creatorId : string) (type : option string) (spaceId : option string)
  | TE_KeySolicitation (sessionIds : list string) (deviceKey : string) (isNewDevice : bool)
  | TE_MemberBlockchainTransaction (transaction : option BlockchainTransaction)
      (fromUserId : string)
  | TE_MiniblockHeader (miniblockNum : Z) (hasSnapshot : bool)
  | TE_Pin (userId pinnedEventId : string)
  | TE_Reaction (targetEventId reaction : string)
  | TE_RedactedEvent (isAdminRedaction : bool)
  | TE_RedactionActionEvent (refEventId : string) (adminRedaction : bool)
  | TE_SpaceUpdateAutojoin (channelId : string) (autojoin : bool)
  | TE_SpaceUpdateHideUserJoinLeaves (channelId : string) (hideUserJoinLeaves : bool)
  | TE_SpaceImage
  | TE_SpaceUsername (userId username : string)
  | TE_SpaceDisplayName (userId displayName : string)
  | TE_SpaceEnsAddress (userId : string) (ensAddress : bytes)
  | TE_SpaceNft (userId contractAddress tokenId : string) (chainId : Z)
  | TE_SpaceReview (action : SpaceReview_Action) (rating : Z) (comment : option string)
      (fromUserId : string)
  | TE_StreamEncryptionAlgorithm (algorithm : option string)
  | TE_StreamMembership (userId initiatorId : string) (membership : Membership)
      (reason : option MembershipReason) (streamId : option string)
  | TE_TipEvent (transaction : BlockchainTransaction) (tip : Tip)
      (transactionHash fromUserId refEventId toUserId : string)
  | TE_TokenTransfer (transaction : BlockchainTransaction) (transfer : TokenTransfer)
      (fromUserId : string) (createdAtEpochMs : Z) (threadParentId : string)
  | TE_Unpin (userId unpinnedEventId : string)
  | TE_UserBlockchainTransaction (transaction : BlockchainTransaction)
  | TE_UserReceivedBlockchainTransaction
      (receivedTransaction : UP_ReceivedBlockchainTransaction).

(** [RiverTimelineEvent], the [kind] of a content *)
Definition RiverTimelineEvent (c : TimelineEvent_OneOf) : string :=
  match c with
  | TE_ChannelCreate _ _ _ _ => "m.channel.create"
  | TE_ChannelMessage _ => "m.channel.message"
  | TE_ChannelMessageEncrypted _ => "m.channel.encrypted"
  | TE_ChannelMessageEncryptedWithRef _ => "m.channel.encrypted_with_ref"
  | TE_ChannelMessageMissing _ => "m.channel.missing"
  | TE_ChannelProperties _ => "m.channel.properties"
  | TE_EncryptedChannelProperties _ => "m.channel.encrypted_properties"
  | TE_Fulfillment _ _ _ _ => "m.fulfillment"
  | TE_Inception _ _ _ => "m.inception"
  | TE_KeySolicitation _ _ _ => "m.key_solicitation"
  | TE_MemberBlockchainTransaction _ _ => "m.member_blockchain_transaction"
  | TE_MiniblockHeader _ _ => "m.miniblockheader"
  | TE_Pin _ _ => "m.pin"
  | TE_Reaction _ _ => "m.reaction"
  | TE_RedactedEvent _ => "m.redacted_event"
  | TE_RedactionActionEvent _ _ => "m.redaction_action"
  | TE_SpaceUpdateAutojoin _ _ => "m.space.update_autojoin"
  | TE_SpaceUpdateHideUserJoinLeaves _ _ => "m.space.update_channel_hide_user_join_leaves"
  | TE_SpaceImage => "m.space.image"
  | TE_SpaceUsername _ _ => "m.space.username"
  | TE_SpaceDisplayName _ _ => "m.space.display_name"
  | TE_SpaceEnsAddress _ _ => "m.space.ens_name"
  | TE_SpaceNft _ _ _ _ => "m.space.nft"
  | TE_SpaceReview _ _ _ _ => "m.space.review"
  | TE_StreamEncryptionAlgorithm _ => "m.stream_encryption_algorithm"
  | TE_StreamMembership _ _ _ _ _ => "m.stream_membership"
  | TE_TipEvent _ _ _ _ _ _ => "m.tip_event"
  | TE_TokenTransfer _ _ _ _ _ => "m.token_transfer"
  | TE_Unpin _ _ => "m.unpin"
  | TE_UserBlockchainTransaction _ => "m.user_blockchain_transaction"
  | TE_UserReceivedBlockchainTransaction _ => "m.user_received_blockchain_transaction"
  end.

Record TimelineEvent := {
  tl_eventId : string;
  tl_localEventId : option string;
  tl_eventNum : Z;
  tl_latestEventId : string;
  tl_latestEventNum : Z;
  tl_status : EventStatus;
  tl_createdAtEpochMs : Z;
  tl_updatedAtEpochMs : option Z;
  tl_content : option TimelineEvent_OneOf;
  tl_fallbackContent : string;
  tl_isEncrypting : bool;
  tl_isLocalPending : bool;
  tl_isSendFailed : bool;
  tl_confirmedEventNum : option Z;
  tl_confirmedInBlockNum : option Z;
  tl_threadParentId : option string;
  tl_replyParentId : option string;
  tl_reactionParentId : option string;
  tl_isMentioned : bool;
  tl_isRedacted : bool;
  tl_sender : string;
  tl_sessionId : option string;
}.
#[export] Instance eta_TimelineEvent : Eta TimelineEvent := λ r,
  Build_TimelineEvent (tl_eventId r) (tl_localEventId r) (tl_eventNum r) (tl_latestEventId r)
    (tl_latestEventNum r) (tl_status r) (tl_createdAtEpochMs r) (tl_updatedAtEpochMs r)
    (tl_content r) (tl_fallbackContent r) (tl_isEncrypting r) (tl_isLocalPending r)
    (tl_isSendFailed r) (tl_confirmedEventNum r) (tl_confirmedInBlockNum r)
    (tl_threadParentId r) (tl_replyParentId r) (tl_reactionParentId r) (tl_isMentioned r)
    (tl_isRedacted r) (tl_sender r) (tl_sessionId r).

Record TimelineEventConfirmation := {
  tc_eventId : string;
  tc_confirmedEventNum : Z;
  tc_confirmedInBlockNum : Z;
}.

Record ThreadStatsData := {
  ts_replyEventIds : gset string;
  ts_userIds : gset string;
  ts_latestTs : Z;
  ts_parentId : string;
  ts_parentEvent : option TimelineEvent;
  ts_parentMessageContent : option ChannelMessageEvent;
  ts_isParticipating : bool;
}.
#[export] Instance eta_ThreadStatsData : Eta ThreadStatsData := λ r,
  Build_ThreadStatsData (ts_replyEventIds r) (ts_userIds r) (ts_latestTs r) (ts_parentId r)
    (ts_parentEvent r) (ts_parentMessageContent r) (ts_isParticipating r).

(** reaction name, then user id, then the id of the reaction event *)
Abbreviation MessageReactions := (gmap string (gmap string string)).

Definition isMessageTipEvent (event : TimelineEvent) : bool :=
  match tl_content event with
  | Some (TE_TipEvent transaction _ _ _ _ _) =>
      match bt_content transaction with BT_tip _ => true | _ => false end
  | _ => false
  end.

Definition getEditsId (content : option TimelineEvent_OneOf) : option string :=
  match content with Some (TE_ChannelMessage m) => cme_editsEventId m | _ => None end.
Definition getRedactsId (content : option TimelineEvent_OneOf) : option string :=
  match content with Some (TE_RedactionActionEvent refEventId _) => Some refEventId | _ => None end.
Definition getThreadParentId (content : option TimelineEvent_OneOf) : option string :=
  match content with
  | Some (TE_ChannelMessage m) => cme_threadId m
  | Some (TE_TokenTransfer _ _ _ _ threadParentId) => Some threadParentId
  | _ => None
  end.
Definition getReplyParentId (content : option TimelineEvent_OneOf) : option string :=
  match content with Some (TE_ChannelMessage m) => cme_replyId m | _ => None end.
Definition getReactionParentId (content : option TimelineEvent_OneOf) : option string :=
  match content with Some (TE_Reaction targetEventId _) => Some targetEventId | _ => None end.

(** [localeCompare] with base sensitivity on two lower-cased ids is equality
    on the ASCII strings that ids are. *)
Definition getIsMentioned (content : option TimelineEvent_OneOf) (userId : string) : bool :=
  match content with
  | Some (TE_ChannelMessage m) =>
      isDefined (findIndex (λ x, String.eqb (Str.toLowerCase (mn_userId x))
                                            (Str.toLowerCase userId)) (cme_mentions m))
  | _ => false
  end.

(** ** transformAttachments *)

(** One attachment, given the translation [post_of] of an embedded message. *)
Definition transformAttachment {C : Type} (post_of : C → Post) (attachment : Attachment_ C)
    : option PostAttachment :=
  match attachment with
  | AT_chunkedMedia streamId encryption info _ thumbnail =>
      Some (PA_chunkedMedia {|
        cmd_info := Some info;
        cmd_streamId := streamId;
        cmd_thumbnail := Some {| em_info := th_info <$> thumbnail;
                                 em_content := default [] (th_content <$> thumbnail) |};
        cmd_encryption := Some encryption |})
  | AT_embeddedMedia info content _ =>
      Some (PA_embeddedMedia {| em_info := Some info; em_content := content |})
  | AT_image info _ =>
      Some (PA_image {| img_title := ""; img_info := Some info; img_thumbnail := None |})
  | AT_embeddedMessage url _ channelMessageEvent info staticInfo _ =>
      match channelMessageEvent with
      | None => None
      | Some c => Some (PA_embeddedMessage {|
          emm_url := url; emm_post := Some (post_of c); emm_info := Some info;
          emm_staticInfo := staticInfo |})
      end
  | AT_unfurledLink url description title image _ =>
      Some (PA_unfurledUrl {|
        uf_url := url; uf_description := default "" description; uf_title := default "" title;
        uf_image := (λ i, {| ufi_height := default 0 (uli_height i);
                             ufi_width := default 0 (uli_width i);
                             ufi_url := default "" (uli_url i) |}) <$> image |})
  | AT_ticker _ address chainId =>
      Some (PA_ticker {| tk_address := address; tk_chainId := chainId |})
  end.

(** The post that carries an embedded message: a text post with the thread of
    the message and its transformed attachments. *)
Fixpoint embeddedPost (c : ChannelMessageEvent) : Post := {|
  po_threadId := cme_threadId c;
  po_threadPreview := cme_threadPreview c;
  po_replyId := None;
  po_replyPreview := None;
  po_content := PC_text {|
    txt_body := cme_body c;
    txt_mentions := cme_mentions c;
    txt_attachments :=
      match c with
      | Build_ChannelMessageEvent _ _ _ _ _ _ _ _ None => []
      | Build_ChannelMessageEvent _ _ _ _ _ _ _ _ (Some l) =>
          omap (transformAttachment embeddedPost) l
      end |}
|}.

Definition transformAttachments (attachments : option (list Attachment)) : list PostAttachment :=
  match attachments with
  | None => []
  | Some attachments => omap (transformAttachment embeddedPost) attachments
  end.
