(* ===== verification/TimelineEvent.v ===== *)
(** * TimelineEvent: stream events to timeline events
    (sdk/src/views/models/timelineEvent.ts) *)

From stdpp Require Import pretty.
From S2P Require Import Prelude JsLib Ids Proto Types TimelineTypes.

(** [TownsContentResult] *)
Inductive TownsContentResult :=
  | TR_content (content : TimelineEvent_OneOf)
  | TR_error (error : string).

Definition result_content (r : TownsContentResult) : option TimelineEvent_OneOf :=
  match r with TR_content c => Some c | TR_error _ => None end.
Definition result_error (r : TownsContentResult) : option string :=
  match r with TR_content _ => None | TR_error e => Some e end.

(** ** Names of oneof cases *)

Definition payload_case (p : Payload) : option string :=
  match p with
  | P_unset => None
  | P_miniblockHeader _ => Some "miniblockHeader"
  | P_memberPayload _ => Some "memberPayload"
  | P_spacePayload _ => Some "spacePayload"
  | P_channelPayload _ => Some "channelPayload"
  | P_userPayload _ => Some "userPayload"
  | P_userSettingsPayload _ => Some "userSettingsPayload"
  | P_userMetadataPayload _ => Some "userMetadataPayload"
  | P_userInboxPayload _ => Some "userInboxPayload"
  | P_mediaPayload _ => Some "mediaPayload"
  | P_dmChannelPayload _ => Some "dmChannelPayload"
  | P_gdmChannelPayload _ => Some "gdmChannelPayload"
  | P_metadataPayload _ => Some "metadataPayload"
  end.

(** [payload.value.content.case] *)
Definition content_case (p : Payload) : option string :=
  match p with
  | P_unset => None
  | P_miniblockHeader h => if mh_content h then Some "none" else None
  | P_memberPayload m =>
      match m with
      | MP_unset => None
      | MP_membership _ => Some "membership"
      | MP_keySolicitation _ => Some "keySolicitation"
      | MP_keyFulfillment _ => Some "keyFulfillment"
      | MP_username _ => Some "username"
      | MP_displayName _ => Some "displayName"
      | MP_ensAddress _ => Some "ensAddress"
      | MP_nft _ => Some "nft"
      | MP_pin _ => Some "pin"
      | MP_unpin _ => Some "unpin"
      | MP_memberBlockchainTransaction _ => Some "memberBlockchainTransaction"
      | MP_encryptionAlgorithm _ => Some "encryptionAlgorithm"
      end
  | P_spacePayload s =>
      match s with
      | SP_unset => None
      | SP_inception _ => Some "inception"
      | SP_channel _ => Some "channel"
      | SP_spaceImage _ => Some "spaceImage"
      | SP_updateChannelAutojoin _ => Some "updateChannelAutojoin"
      | SP_updateChannelHideUserJoinLeaveEvents _ => Some "updateChannelHideUserJoinLeaveEvents"
      end
  | P_channelPayload c =>
      match c with
      | CP_unset => None
      | CP_inception _ => Some "inception"
      | CP_message _ => Some "message"
      | CP_redaction _ => Some "redaction"
      end
  | P_userPayload u =>
      match u with
      | UP_unset => None
      | UP_inception _ => Some "inception"
      | UP_userMembership _ => Some "userMembership"
      | UP_userMembershipAction _ => Some "userMembershipAction"
      | UP_blockchainTransaction _ => Some "blockchainTransaction"
      | UP_receivedBlockchainTransaction _ => Some "receivedBlockchainTransaction"
      end
  | P_userSettingsPayload u =>
      match u with
      | USP_unset => None
      | USP_inception _ => Some "inception"
      | USP_fullyReadMarkers _ => Some "fullyReadMarkers"
      | USP_userBlock _ => Some "userBlock"
      end
  | P_userMetadataPayload u =>
      match u with
      | UMP_unset => None
      | UMP_inception _ => Some "inception"
      | UMP_encryptionDevice _ => Some "encryptionDevice"
      | UMP_profileImage _ => Some "profileImage"
      | UMP_bio _ => Some "bio"
      end
  | P_userInboxPayload u =>
      match u with
      | UIP_unset => None
      | UIP_inception _ => Some "inception"
      | UIP_ack _ => Some "ack"
      | UIP_groupEncryptionSessions _ => Some "groupEncryptionSessions"
      end
  | P_mediaPayload m =>
      match m with
      | MDP_unset => None
      | MDP_inception _ => Some "inception"
      | MDP_chunk _ => Some "chunk"
      end
  | P_dmChannelPayload c =>
      match c with
      | DMP_unset => None
      | DMP_inception _ => Some "inception"
      | DMP_message _ => Some "message"
      end
  | P_gdmChannelPayload c =>
      match c with
      | GDMP_unset => None
      | GDMP_inception _ => Some "inception"
      | GDMP_message _ => Some "message"
      | GDMP_channelProperties _ => Some "channelProperties"
      end
  | P_metadataPayload c => c
  end.

Definition transaction_case (c : BlockchainTransaction_content) : option string :=
  match c with
  | BT_unset => None
  | BT_tip _ => Some "tip"
  | BT_tokenTransfer _ => Some "tokenTransfer"
  | BT_spaceReview _ => Some "spaceReview"
  end.

Definition bool_str (b : bool) : string := if b then "true" else "false".
(** [`${x}`] for [x : string | undefined] *)
Definition undefined_str (o : option string) : string := default "undefined" o.
(** The number of an enum value *)
Definition MembershipReason_num (r : MembershipReason) : Z :=
  match r with MR_NONE => 0 | MR_NOT_ENTITLED => 1 | MR_EXPIRED => 2 | MR_OTHER n => n end.

(** [l.join(',')] *)
Definition join_comma (l : list string) : string :=
  match l with [] => "" | x :: l => foldl (λ acc y, acc +:+ "," +:+ y) x l end.

(** ** Posts and attachments *)

(** [attachments.map((attachment, index) => ...).filter(isDefined)] *)
Fixpoint omap_index {A B} (f : nat → A → option B) (i : nat) (l : list A) : list B :=
  match l with
  | [] => []
  | x :: l =>
      match f i x with
      | Some y => y :: omap_index f (S i) l
      | None => omap_index f (S i) l
      end
  end.

(** [toAttachment], given the translation [message_of] of an embedded post. *)
Definition toAttachment_ (message_of : Post → string → option string → string →
    TownsContentResult) (parentEventId : string) (index : nat)
    (attachment : PostAttachment) : option Attachment :=
  let id := parentEventId +:+ "-" +:+ pretty (Z.of_nat index) in
  match attachment with
  | PA_chunkedMedia v =>
      match cmd_info v with
      | None => None
      | Some info =>
          let thumbnail :=
            match cmd_thumbnail v with
            | Some {| em_info := Some thumbnailInfo; em_content := thumbnailContent |} =>
                Some {| th_content := thumbnailContent; th_info := thumbnailInfo |}
            | _ => None
            end in
          match cmd_encryption v with
          | None => None
          | Some encryption =>
              Some (AT_chunkedMedia (cmd_streamId v) encryption info id thumbnail)
          end
      end
  | PA_embeddedMedia v =>
      match em_info v with
      | None => None
      | Some info => Some (AT_embeddedMedia info (em_content v) id)
      end
  | PA_image v =>
      match img_info v with
      | None => None
      | Some info => Some (AT_image info id)
      end
  | PA_embeddedMessage v =>
      match emm_post v, emm_info v with
      | Some post, Some info =>
          match result_content (message_of post (emi_messageId info) None "") with
          | Some (TE_ChannelMessage channelMessageEvent) =>
              Some (AT_embeddedMessage (emm_url v) (Some post)
                      (Some channelMessageEvent) info (emm_staticInfo v) id)
          | _ => None
          end
      | _, _ => None
      end
  | PA_unfurledUrl v =>
      Some (AT_unfurledLink (uf_url v) (Some (uf_description v)) (Some (uf_title v))
              ((λ i, {| uli_height := Some (ufi_height i); uli_width := Some (ufi_width i);
                        uli_url := Some (ufi_url i) |}) <$> uf_image v) id)
  | PA_ticker v => Some (AT_ticker id (tk_address v) (tk_chainId v))
  | PA_unset => None
  end.

Fixpoint toTownsContent_ChannelPayload_Message_Post (value : Post) (eventId : string)
    (editsEventId : option string) (description : string) : TownsContentResult :=
  match value with
  | Build_Post threadId threadPreview replyId replyPreview content =>
      match content with
      | PC_text (Build_PostText_ body mentions attachments) =>
          TR_content (TE_ChannelMessage {|
            cme_threadId := threadId;
            cme_threadPreview := threadPreview;
            cme_replyId := replyId;
            cme_replyPreview := replyPreview;
            cme_body := body;
            cme_mentions := mentions;
            cme_editsEventId := editsEventId;
            cme_content := MT_Text;
            cme_attachments :=
              Some (omap_index
                      (toAttachment_ toTownsContent_ChannelPayload_Message_Post eventId)
                      O attachments) |})
      | PC_image v =>
          TR_content (TE_ChannelMessage {|
            cme_threadId := threadId;
            cme_threadPreview := threadPreview;
            cme_replyId := None;
            cme_replyPreview := None;
            cme_body := img_title v;
            cme_mentions := [];
            cme_editsEventId := editsEventId;
            cme_content := MT_Image (img_info v) (img_thumbnail v);
            cme_attachments := None |})
      | PC_gm v =>
          TR_content (TE_ChannelMessage {|
            cme_threadId := threadId;
            cme_threadPreview := threadPreview;
            cme_replyId := None;
            cme_replyPreview := None;
            cme_body := gm_typeUrl v;
            cme_mentions := [];
            cme_editsEventId := editsEventId;
            cme_content := MT_GM (gm_value v);
            cme_attachments := None |})
      | PC_unset => TR_error ("Undefined payload case: " +:+ description)
      end
  end.

Definition toAttachment (attachment : PostAttachment) (parentEventId : string) (index : nat)
    : option Attachment :=
  toAttachment_ toTownsContent_ChannelPayload_Message_Post parentEventId index attachment.

Definition toAttachments (attachments : list PostAttachment) (parentEventId : string)
    : list Attachment :=
  omap_index (λ i a, toAttachment a parentEventId i) O attachments.

(** [toTownsContent_FromChannelMessage] *)
Definition toTownsContent_FromChannelMessage (channelMessage : ChannelMessage)
    (description eventId : string) : TownsContentResult :=
  match channelMessage with
  | CM_post v => toTownsContent_ChannelPayload_Message_Post v eventId None description
  | CM_reaction refEventId reaction => TR_content (TE_Reaction refEventId reaction)
  | CM_redaction refEventId _ => TR_content (TE_RedactionActionEvent refEventId false)
  | CM_edit refEventId post =>
      match post with
      | None => TR_error (description +:+ " no post in edit")
      | Some newPost =>
          toTownsContent_ChannelPayload_Message_Post newPost eventId (Some refEventId) description
      end
  | CM_unset => TR_error ("Undefined payload case: " +:+ description)
  end.

Definition toTownsContent_ChannelPayload_Message (timelineEvent : StreamTimelineEvent)
    (payload : EncryptedData) : TownsContentResult :=
  match ed_refEventId payload with
  | Some refEventId =>
      if truthy_str refEventId
      then TR_content (TE_ChannelMessageEncryptedWithRef refEventId)
      else TR_content (TE_ChannelMessageEncrypted (ste_decryptedContentError timelineEvent))
  | None => TR_content (TE_ChannelMessageEncrypted (ste_decryptedContentError timelineEvent))
  end.

Definition toTownsContent_ChannelPayload_ChannelProperties (timelineEvent : StreamTimelineEvent)
    : TownsContentResult :=
  match ste_decryptedContent timelineEvent with
  | Some (DC_channelProperties content) => TR_content (TE_ChannelProperties content)
  | _ => TR_content (TE_EncryptedChannelProperties (ste_decryptedContentError timelineEvent))
  end.

(** [value : ChannelPayload | DmChannelPayload | GdmChannelPayload], by the
    case of its content *)
Inductive AnyChannelContent :=
  | CC_unset
  | CC_inception
  | CC_message (v : EncryptedData)
  | CC_channelProperties (v : EncryptedData)
  | CC_redaction (eventId : bytes).

Definition channel_content (p : ChannelPayload) : AnyChannelContent :=
  match p with
  | CP_unset => CC_unset
  | CP_inception _ => CC_inception
  | CP_message v => CC_message v
  | CP_redaction eventId => CC_redaction eventId
  end.
Definition dm_content (p : DmChannelPayload) : AnyChannelContent :=
  match p with
  | DMP_unset => CC_unset
  | DMP_inception _ => CC_inception
  | DMP_message v => CC_message v
  end.
Definition gdm_content (p : GdmChannelPayload) : AnyChannelContent :=
  match p with
  | GDMP_unset => CC_unset
  | GDMP_inception _ => CC_inception
  | GDMP_message v => CC_message v
  | GDMP_channelProperties v => CC_channelProperties v
  end.

Definition toMembership (membershipOp : MembershipOp) : Res Membership :=
  match membershipOp with
  | SO_JOIN => Ok Mb_Join
  | SO_INVITE => Ok Mb_Invite
  | SO_LEAVE => Ok Mb_Leave
  | SO_UNSPECIFIED => Ok Mb_None
  | SO_OTHER n => Throw (CodeException "Unhandled switch value" INTERNAL_ERROR_SWITCH)
  end.

Definition getEventStatus (timelineEvent : StreamTimelineEvent) : EventStatus :=
  if isDefined (ste_remoteEvent timelineEvent) then ES_SENT
  else match ste_localEvent timelineEvent with
       | Some localEvent =>
           if Str.startsWith (ste_hashStr timelineEvent) "~" then ES_ENCRYPTING
           else match le_status localEvent with
                | failed => ES_NOT_SENT
                | sending => ES_SENDING
                | sent => ES_SENT
                end
       | None => ES_NOT_SENT
       end.

Definition validateEvent (eventId : string) (message : ParsedEvent) : string + string :=
  match payload_case (ev_payload (pe_event message)) with
  | None => inl "payloadless payload"
  | Some case =>
      match content_case (ev_payload (pe_event message)) with
      | None => inl (case +:+ " - caseless payload content")
      | Some content => inr (case +:+ "::" +:+ content +:+ " id: " +:+ eventId)
      end
  end.

Definition toTownsContent_MiniblockHeader (value : MiniblockHeader) : TownsContentResult :=
  TR_content (TE_MiniblockHeader (mh_miniblockNum value)
    (isDefined (mh_snapshot value) || isDefined (mh_snapshotHash value))).

Section ToEvent.
Context `{EthLib, Codec}.

Definition toTownsContent_MemberPayload (event : StreamTimelineEvent) (message : ParsedEvent)
    (value : MemberPayload) (description : string) : Res TownsContentResult :=
  match value with
  | MP_membership v =>
      userId ← userIdFromAddress (mm_userAddress v);
      initiatorId ← userIdFromAddress (mm_initiatorAddress v);
      membership ← toMembership (mm_op v);
      Ok (TR_content (TE_StreamMembership userId initiatorId membership (Some (mm_reason v)) None))
  | MP_keySolicitation v =>
      Ok (TR_content (TE_KeySolicitation (ks_sessionIds v) (ks_deviceKey v) (ks_isNewDevice v)))
  | MP_keyFulfillment v =>
      to ← userIdFromAddress (kf_userAddress v);
      Ok (TR_content (TE_Fulfillment (kf_sessionIds v) (kf_deviceKey v) to
                        (pe_creatorUserId message)))
  | MP_displayName v =>
      Ok (TR_content (TE_SpaceDisplayName (pe_creatorUserId message)
            match ste_decryptedContent event with
            | Some (DC_text content) => content
            | _ => ed_ciphertext v
            end))
  | MP_username v =>
      Ok (TR_content (TE_SpaceUsername (pe_creatorUserId message)
            match ste_decryptedContent event with
            | Some (DC_text content) => content
            | _ => ed_ciphertext v
            end))
  | MP_ensAddress v => Ok (TR_content (TE_SpaceEnsAddress (pe_creatorUserId message) v))
  | MP_nft v =>
      Ok (TR_content (TE_SpaceNft (pe_creatorUserId message)
            (bin_toHexString (nft_contractAddress v)) (bin_toHexString (nft_tokenId v))
            (nft_chainId v)))
  | MP_pin v =>
      Ok (TR_content (TE_Pin (pe_creatorUserId message) (bin_toHexString (pin_eventId v))))
  | MP_unpin eventId =>
      Ok (TR_content (TE_Unpin (pe_creatorUserId message) (bin_toHexString eventId)))
  | MP_memberBlockchainTransaction v =>
      let fromUserAddress := mbt_fromUserAddress v in
      match mbt_transaction v with
      | None => Ok (TR_error (description +:+ " no transaction"))
      | Some transaction =>
          match bt_content transaction with
          | BT_tip tipContent =>
              match bt_receipt transaction with
              | None => Ok (TR_error (description +:+ " no transactionHash"))
              | Some receipt =>
                  match tip_event tipContent with
                  | None => Ok (TR_error (description +:+ " no event in tip"))
                  | Some tipEvent =>
                      fromUserId ← userIdFromAddress fromUserAddress;
                      toUserId ← userIdFromAddress (tip_toUserAddress tipContent);
                      Ok (TR_content (TE_TipEvent transaction tipContent
                            (bin_toHexString (rc_transactionHash receipt)) fromUserId
                            (bin_toHexString (te_messageId tipEvent)) toUserId))
                  end
              end
          | BT_spaceReview reviewContent =>
              match bt_receipt transaction with
              | None => Ok (TR_error (description +:+ " no receipt"))
              | Some receipt =>
                  match sr_event reviewContent with
                  | None => Ok (TR_error (description +:+ " no event in space review"))
                  | Some reviewEvent =>
                      let review := getSpaceReviewEventDataBin (rc_logs receipt)
                                      (sre_user reviewEvent) in
                      fromUserId ← userIdFromAddress fromUserAddress;
                      Ok (TR_content (TE_SpaceReview (sr_action reviewContent)
                            (rev_rating review) (rev_comment review) fromUserId))
                  end
              end
          | BT_tokenTransfer transferContent =>
              fromUserId ← userIdFromAddress fromUserAddress;
              Ok (TR_content (TE_TokenTransfer transaction transferContent fromUserId
                    (ste_createdAtEpochMs event)
                    (bin_toHexString (tt_messageId transferContent))))
          | BT_unset =>
              Ok (TR_content (TE_MemberBlockchainTransaction (Some transaction)
                    (bin_toHexString fromUserAddress)))
          end
      end
  | MP_encryptionAlgorithm _ =>
      Ok (TR_error ("Encryption Algorithm not supported: " +:+ description))
  | MP_unset => Ok (TR_error ("Undefined payload case: " +:+ description))
  end.

Definition toTownsContent_UserPayload (message : ParsedEvent) (value : UserPayload)
    (description : string) : Res TownsContentResult :=
  match value with
  | UP_inception _ =>
      Ok (TR_content (TE_Inception (pe_creatorUserId message)
            (payload_case (ev_payload (pe_event message))) None))
  | UP_userMembership payload =>
      let streamId := streamIdFromBytes (um_streamId payload) in
      membership ← toMembership (um_op payload);
      Ok (TR_content (TE_StreamMembership "" "" membership None (Some streamId)))
  | UP_userMembershipAction payload =>
      userId ← userIdFromAddress (uma_userId payload);
      membership ← toMembership (uma_op payload);
      Ok (TR_content (TE_StreamMembership userId (pe_creatorUserId message) membership None None))
  | UP_blockchainTransaction v => Ok (TR_content (TE_UserBlockchainTransaction v))
  | UP_receivedBlockchainTransaction v =>
      Ok (TR_content (TE_UserReceivedBlockchainTransaction v))
  | UP_unset => Ok (TR_error ("Undefined payload case: " +:+ description))
  end.

Definition toTownsContent_ChannelPayload (eventId : string) (timelineEvent : StreamTimelineEvent)
    (message : ParsedEvent) (value : AnyChannelContent) (description : string)
    : TownsContentResult :=
  match value with
  | CC_inception =>
      TR_content (TE_Inception (pe_creatorUserId message)
        (payload_case (ev_payload (pe_event message))) None)
  | CC_message payload =>
      match ste_decryptedContent timelineEvent with
      | Some (DC_channelMessage content) =>
          toTownsContent_FromChannelMessage content description eventId
      | _ => toTownsContent_ChannelPayload_Message timelineEvent payload
      end
  | CC_channelProperties _ => toTownsContent_ChannelPayload_ChannelProperties timelineEvent
  | CC_redaction refEventId =>
      TR_content (TE_RedactionActionEvent (bin_toHexString refEventId) true)
  | CC_unset => TR_error ("Undefined payload case: " +:+ description)
  end.

Definition toTownsContent_SpacePayload (message : ParsedEvent) (value : SpacePayload)
    (description : string) : TownsContentResult :=
  match value with
  | SP_inception _ =>
      TR_content (TE_Inception (pe_creatorUserId message)
        (payload_case (ev_payload (pe_event message))) None)
  | SP_channel payload =>
      let childId := streamIdAsString (SBytes (cu_channelId payload)) in
      TR_content (TE_ChannelCreate (pe_creatorUserId message) childId (Some (cu_op payload))
                    (cu_settings payload))
  | SP_updateChannelAutojoin payload =>
      TR_content (TE_SpaceUpdateAutojoin (streamIdAsString (SBytes (uca_channelId payload)))
                    (uca_autojoin payload))
  | SP_updateChannelHideUserJoinLeaveEvents payload =>
      TR_content (TE_SpaceUpdateHideUserJoinLeaves
                    (streamIdAsString (SBytes (uch_channelId payload)))
                    (uch_hideUserJoinLeaveEvents payload))
  | SP_spaceImage _ => TR_content TE_SpaceImage
  | SP_unset => TR_error ("Undefined payload case: " +:+ description)
  end.

Definition toTownsContent_fromParsedEvent (eventId : string) (timelineEvent : StreamTimelineEvent)
    (message : ParsedEvent) : Res TownsContentResult :=
  match validateEvent eventId message with
  | inl error => Ok (TR_error error)
  | inr description =>
      match ev_payload (pe_event message) with
      | P_userPayload v => toTownsContent_UserPayload message v description
      | P_channelPayload v =>
          Ok (toTownsContent_ChannelPayload eventId timelineEvent message (channel_content v)
                description)
      | P_dmChannelPayload v =>
          Ok (toTownsContent_ChannelPayload eventId timelineEvent message (dm_content v)
                description)
      | P_gdmChannelPayload v =>
          Ok (toTownsContent_ChannelPayload eventId timelineEvent message (gdm_content v)
                description)
      | P_spacePayload v => Ok (toTownsContent_SpacePayload message v description)
      | P_userMetadataPayload _ =>
          Ok (TR_error (description +:+ " userMetadataPayload not implemented"))
      | P_userSettingsPayload _ =>
          Ok (TR_error (description +:+ " userSettingsPayload not implemented"))
      | P_userInboxPayload _ =>
          Ok (TR_error (description +:+ " userInboxPayload not implemented"))
      | P_miniblockHeader v => Ok (toTownsContent_MiniblockHeader v)
      | P_mediaPayload _ => Ok (TR_error (description +:+ " mediaPayload not supported?"))
      | P_memberPayload v => toTownsContent_MemberPayload timelineEvent message v description
      | P_metadataPayload _ =>
          Ok (TR_error (description +:+ " metadataPayload not supported for timeline events"))
      | P_unset => Ok (TR_error ("Undefined payload case: " +:+ description))
      end
  end.

Definition toTownsContent (timelineEvent : StreamTimelineEvent) : Res TownsContentResult :=
  match ste_localEvent timelineEvent, ste_remoteEvent timelineEvent with
  | Some localEvent, _ =>
      Ok (toTownsContent_FromChannelMessage (le_channelMessage localEvent) "local event"
            (ste_hashStr timelineEvent))
  | None, Some message =>
      toTownsContent_fromParsedEvent (ste_hashStr timelineEvent) timelineEvent message
  | None, None => Ok (TR_error "unknown event content type")
  end.

Definition getSenderId (timelineEvent : StreamTimelineEvent) : Res string :=
  match ste_payload timelineEvent with
  | P_memberPayload (MP_memberBlockchainTransaction v) =>
      userIdFromAddress (mbt_fromUserAddress v)
  | _ => Ok (ste_creatorUserId timelineEvent)
  end.

Definition extractSessionId (event : StreamTimelineEvent) : option string :=
  match ste_payload event with
  | P_channelPayload (CP_message v) =>
      Some (if (0 <? length (ed_sessionIdBytes v))%nat
            then bin_toHexString (ed_sessionIdBytes v)
            else ed_sessionId v)
  | _ => None
  end.

Definition getFallbackContent_BlockchainTransaction (transaction : option BlockchainTransaction)
    : string :=
  match transaction with
  | None => "??"
  | Some transaction =>
      match bt_content transaction with
      | BT_tip tip =>
          match tip_event tip with
          | None => "??"
          | Some event =>
              "kind: tip messageId: " +:+ bin_toHexString (te_messageId event)
                +:+ " receiver: " +:+ bin_toHexString (te_receiver event)
                +:+ " amount: " +:+ pretty (te_amount event)
          end
      | c => "kind: " +:+ default "unspecified" (transaction_case c)
      end
  end.

Definition getFallbackContent (senderDisplayName : string) (content : option TimelineEvent_OneOf)
    (error : option string) : Res string :=
  match truthy error, error, content with
  | true, Some error, _ => Ok error
  | _, _, None => Throw (PlainError "Either content or error should be defined")
  | _, _, Some content =>
      Ok match content with
      | TE_MiniblockHeader miniblockNum hasSnapshot =>
          "Miniblock miniblockNum:" +:+ pretty miniblockNum +:+ ", hasSnapshot:"
            +:+ bool_str hasSnapshot
      | TE_Reaction targetEventId reaction =>
          senderDisplayName +:+ " reacted with " +:+ reaction +:+ " to " +:+ targetEventId
      | TE_Inception _ type _ =>
          if truthy type then "type: " +:+ default "" type else ""
      | TE_ChannelMessageEncrypted _ => "Decrypting..."
      | TE_StreamMembership userId initiatorId membership reason _ =>
          "[" +:+ Membership_str membership +:+ "] userId: " +:+ userId +:+ " initiatorId: "
            +:+ initiatorId +:+
          match reason with
          | Some reason =>
              if MembershipReason_num reason =? 0 then ""
              else " reason: " +:+ pretty (MembershipReason_num reason)
          | None => ""
          end
      | TE_ChannelMessage message => senderDisplayName +:+ ": " +:+ cme_body message
      | TE_ChannelProperties properties =>
          "properties: " +:+ cpr_name properties +:+ " " +:+ cpr_topic properties
      | TE_EncryptedChannelProperties _ => "Decrypting Channel Properties..."
      | TE_SpaceUsername _ username => "username: " +:+ username
      | TE_SpaceDisplayName _ displayName => "username: " +:+ displayName
      | TE_SpaceEnsAddress _ ensAddress => "ensAddress: " +:+ bin_toHexString ensAddress
      | TE_SpaceNft _ contractAddress tokenId chainId =>
          "contractAddress: " +:+ contractAddress +:+ ", tokenId: " +:+ tokenId
            +:+ ", chainId: " +:+ pretty chainId
      | TE_RedactedEvent _ => "~Redacted~"
      | TE_RedactionActionEvent refEventId adminRedaction =>
          "Redacts " +:+ refEventId +:+ " adminRedaction: " +:+ bool_str adminRedaction
      | TE_ChannelCreate _ channelId _ channelSettings =>
          match channelSettings with
          | Some settings =>
              "channelId: " +:+ channelId +:+ " autojoin: " +:+ bool_str (cs_autojoin settings)
                +:+ " hideUserJoinLeaves: " +:+ bool_str (cs_hideUserJoinLeaveEvents settings)
          | None => "channelId: " +:+ channelId
          end
      | TE_SpaceUpdateAutojoin channelId autojoin =>
          "channelId: " +:+ channelId +:+ " autojoin: " +:+ bool_str autojoin
      | TE_SpaceUpdateHideUserJoinLeaves channelId hideUserJoinLeaves =>
          "channelId: " +:+ channelId +:+ " hideUserJoinLeaves: " +:+ bool_str hideUserJoinLeaves
      | TE_SpaceImage => "SpaceImage"
      | TE_Fulfillment sessionIds deviceKey _ from =>
          "Fulfillment from: " +:+ from +:+ " to: " +:+ deviceKey +:+ " count: "
            +:+ pretty (Z.of_nat (length sessionIds)) +:+ " sessionIds: "
            +:+ (if (length sessionIds =? 0)%nat then "forNewDevice: true"
                 else join_comma sessionIds)
      | TE_KeySolicitation sessionIds deviceKey isNewDevice =>
          "KeySolicitation deviceKey: " +:+ deviceKey +:+ " sessionIds: "
            +:+ pretty (Z.of_nat (length sessionIds)) +:+ " isNewDevice: " +:+ bool_str isNewDevice
      | TE_ChannelMessageMissing eventId => "eventId: " +:+ eventId
      | TE_ChannelMessageEncryptedWithRef refEventId => "refEventId: " +:+ refEventId
      | TE_Pin userId pinnedEventId =>
          "pinnedEventId: " +:+ pinnedEventId +:+ " by: " +:+ userId
      | TE_Unpin userId unpinnedEventId =>
          "unpinnedEventId: " +:+ unpinnedEventId +:+ " by: " +:+ userId
      | TE_UserBlockchainTransaction transaction =>
          getFallbackContent_BlockchainTransaction (Some transaction)
      | TE_MemberBlockchainTransaction transaction fromUserId =>
          "memberTransaction from: " +:+ fromUserId +:+ " "
            +:+ getFallbackContent_BlockchainTransaction transaction
      | TE_TipEvent _ tip _ fromUserId refEventId toUserId =>
          "tip from: " +:+ fromUserId +:+ " to: " +:+ toUserId +:+ " refEventId: "
            +:+ refEventId +:+ " amount: "
            +:+ default "??" ((λ e, pretty (te_amount e)) <$> tip_event tip)
      | TE_TokenTransfer _ transfer fromUserId _ _ =>
          "tokenTransfer from: " +:+ fromUserId +:+ " amount: " +:+ tt_amount transfer
      | TE_SpaceReview _ rating comment fromUserId =>
          "spaceReview from: " +:+ fromUserId +:+ " rating: " +:+ pretty rating
            +:+ " comment: " +:+ undefined_str comment
      | TE_UserReceivedBlockchainTransaction received =>
          "kind: " +:+ default "??" (t ← rbt_transaction received; transaction_case (bt_content t))
            +:+ " fromUserAddress: " +:+ bin_toHexString (rbt_fromUserAddress received)
      | TE_StreamEncryptionAlgorithm algorithm => "algorithm: " +:+ undefined_str algorithm
      end
  end.

Definition toEvent (timelineEvent : StreamTimelineEvent) (userId : string) : Res TimelineEvent :=
  let eventId := ste_hashStr timelineEvent in
  senderId ← getSenderId timelineEvent;
  result ← toTownsContent timelineEvent;
  let content := result_content result in
  let error := result_error result in
  let isSender := String.eqb senderId userId in
  fallback ← getFallbackContent senderId content error;
  let fbc := default "??" (RiverTimelineEvent <$> content) +:+ " " +:+ fallback in
  let sessionId := extractSessionId timelineEvent in
  Ok {| tl_eventId := eventId;
        tl_localEventId := le_localId <$> ste_localEvent timelineEvent;
        tl_eventNum := ste_eventNum timelineEvent;
        tl_latestEventId := eventId;
        tl_latestEventNum := ste_eventNum timelineEvent;
        tl_status := if isSender then getEventStatus timelineEvent else ES_RECEIVED;
        tl_createdAtEpochMs := ste_createdAtEpochMs timelineEvent;
        tl_updatedAtEpochMs := None;
        tl_content := content;
        tl_fallbackContent := fbc;
        tl_isEncrypting := Str.startsWith eventId "~";
        tl_isLocalPending := negb (isDefined (ste_remoteEvent timelineEvent));
        tl_isSendFailed := match ste_localEvent timelineEvent with
                           | Some {| le_status := failed |} => true
                           | _ => false
                           end;
        tl_confirmedEventNum := ste_confirmedEventNum timelineEvent;
        tl_confirmedInBlockNum := ste_miniblockNum timelineEvent;
        tl_threadParentId := getThreadParentId content;
        tl_replyParentId := getReplyParentId content;
        tl_reactionParentId := getReactionParentId content;
        tl_isMentioned := getIsMentioned content userId;
        tl_isRedacted := false;
        tl_sender := senderId;
        tl_sessionId := sessionId |}.
End ToEvent.

Definition toDecryptedEvent (event : TimelineEvent) (decryptedContent : DecryptedContent)
    (userId : string) : TimelineEvent :=
  match tl_content event with
  | None => event
  | Some (TE_ChannelMessageEncrypted _) | Some (TE_ChannelMessageEncryptedWithRef _) =>
      match decryptedContent with
      | DC_channelMessage message =>
          match toTownsContent_FromChannelMessage message
                  ("ChannelMessage: " +:+ tl_eventId event) (tl_eventId event) with
          | TR_error _ => event
          | TR_content content =>
              event <| tl_content := Some content |>
                    <| tl_threadParentId := getThreadParentId (Some content) |>
                    <| tl_replyParentId := getReplyParentId (Some content) |>
                    <| tl_reactionParentId := getReactionParentId (Some content) |>
                    <| tl_isMentioned := getIsMentioned (Some content) userId |>
          end
      | _ => event
      end
  | Some (TE_SpaceDisplayName user _) =>
      match decryptedContent with
      | DC_text content => event <| tl_content := Some (TE_SpaceDisplayName user content) |>
      | _ => event
      end
  | Some (TE_SpaceUsername user _) =>
      match decryptedContent with
      | DC_text content => event <| tl_content := Some (TE_SpaceUsername user content) |>
      | _ => event
      end
  | Some (TE_EncryptedChannelProperties _) =>
      match decryptedContent with
      | DC_channelProperties content => event <| tl_content := Some (TE_ChannelProperties content) |>
      | _ => event
      end
  | Some _ => event
  end.

Definition toDecryptedContentErrorEvent (event : TimelineEvent) (error : DecryptionSessionError)
    : TimelineEvent :=
  match tl_content event with
  | Some (TE_ChannelMessageEncrypted _) =>
      event <| tl_content := Some (TE_ChannelMessageEncrypted (Some error)) |>
  | Some (TE_EncryptedChannelProperties _) =>
      event <| tl_content := Some (TE_EncryptedChannelProperties (Some error)) |>
  | _ => event
  end.
