(* ===== verification/StreamEvents.v ===== *)
(** * StreamEvents: what streams emit (sdk/src/streamEvents.ts)

    [StreamEncryptionEvents] and [StreamStateEvents] as one type, a constructor
    per event with the arguments it is emitted with. The emitters themselves
    only record: listeners are not modelled. A [Pin] holds a reference to its
    event object. *)

From S2P Require Import Prelude JsLib Ids Proto Types TimelineTypes.

(** [SnapshotCaseType], the kind of a stream's content *)
Inductive SnapshotCase :=
  | spaceContent | channelContent | userContent | userSettingsContent | userMetadataContent
  | mediaContent | dmChannelContent | gdmChannelContent | userInboxContent.
#[export] Instance SnapshotCase_eq_dec : EqDecision SnapshotCase.
Proof. solve_decision. Defined.

(** streamStateView_Members.ts *)
Record Pin := { pin_creatorUserId : string; pin_obj : ObjId }.
#[export] Instance Pin_eq_dec : EqDecision Pin.
Proof. solve_decision. Defined.

Record MemberTokenTransfer := {
  mtt_address : bytes;
  mtt_amount : Z;
  mtt_isBuy : bool;
  mtt_chainId : string;
  mtt_userId : string;
  mtt_sender : bytes;
  mtt_createdAtEpochMs : Z;
  mtt_messageId : string;
}.

(** [UserDevice] of the encryption package *)
Record UserDevice := { ud_deviceKey : string; ud_fallbackKey : string }.
#[export] Instance UserDevice_eq_dec : EqDecision UserDevice.
Proof. solve_decision. Defined.

Inductive Emit :=
  (* StreamEncryptionEvents *)
  | newGroupSessions (sessions : GroupEncryptionSessions) (senderId : string)
  | newEncryptedContent (streamId eventId : string) (content : EncryptedContent)
  | newKeySolicitation (streamId eventHashStr fromUserId : string) (fromUserAddress : bytes)
      (event : KeySolicitationContent) (sigBundle : EventSignatureBundle)
  | updatedKeySolicitation (streamId eventHashStr fromUserId : string) (fromUserAddress : bytes)
      (event : KeySolicitationContent) (sigBundle : EventSignatureBundle)
  | initKeySolicitations (streamId eventHashStr : string)
      (members : list (string * bytes * list KeySolicitationContent))
      (sigBundle : EventSignatureBundle)
  | userDeviceKeyMessage (streamId userId : string) (userDevice : UserDevice)
  (* StreamStateEvents *)
  | streamNewUserJoined (streamId userId : string)
  | streamNewUserInvited (streamId userId : string)
  | streamUserLeft (streamId userId : string)
  | streamMembershipUpdated (streamId userId : string)
  | streamPendingMembershipUpdated (streamId userId : string)
  | userJoinedStream (streamId : string)
  | userInvitedToStream (streamId : string)
  | userLeftStream (streamId : string)
  | userStreamMembershipChanged (streamId : string) (payload : UP_UserMembership)
  | userProfileImageUpdated (streamId : string)
  | userBioUpdated (streamId : string)
  | userInboxDeviceSummaryUpdated (streamId deviceKey : string) (summary : option DeviceSummary)
  | userDeviceKeysUpdated (streamId : string) (deviceKeys : list UserDevice)
  | userTipSent (streamId currency : string) (amount : Z)
  | userTipReceived (streamId currency : string) (amount : Z)
  | streamTipped (streamId eventId : string) (transaction : Tip)
  | spaceChannelCreated (spaceId channelId : string)
  | spaceChannelUpdated (spaceId channelId : string) (updatedAtEventNum : Z)
  | spaceChannelAutojoinUpdated (spaceId channelId : string) (autojoin : bool)
  | spaceChannelHideUserJoinLeaveEventsUpdated (spaceId channelId : string)
      (hideUserJoinLeaveEvents : bool)
  | spaceChannelDeleted (spaceId channelId : string)
  | spaceImageUpdated (spaceId : string)
  | spaceReviewsUpdated (streamId : string) (review : SpaceReviewEventObject)
  | channelPinAdded (channelId : string) (pin : Pin)
  | channelPinRemoved (channelId : string) (pin : Pin) (index : nat)
  | channelPinDecrypted (channelId : string) (pin : Pin) (index : nat)
  | fullyReadMarkersUpdated (channelId : string) (markers : gmap string FullyReadMarker)
  | userBlockUpdated (userBlock : USP_UserBlock)
  | eventDecrypted (streamId : string) (contentKind : SnapshotCase) (event : TimelineEvent)
  | streamInitialized (streamId : string) (contentKind : SnapshotCase)
  | streamLocalEventUpdated (streamId : string) (contentKind : SnapshotCase)
      (localEventId : string) (event : ObjId)
  | streamLatestTimestampUpdated (streamId : string)
  | streamUsernameUpdated (streamId userId : string)
  | streamDisplayNameUpdated (streamId userId : string)
  | streamPendingUsernameUpdated (streamId userId : string)
  | streamPendingDisplayNameUpdated (streamId userId : string)
  | streamEnsAddressUpdated (streamId userId : string)
  | streamNftUpdated (streamId userId : string)
  | streamChannelPropertiesUpdated (streamId : string)
  | streamEncryptionAlgorithmUpdated (streamId : string) (algorithm : option string)
  | streamTokenTransfer (streamId : string) (transfer : MemberTokenTransfer).
