(* ===== verification/StreamViews.v ===== *)
(** * StreamViews: the observable stores the streams write to
    (sdk/src/views/streams, sdk/src/observable/observableRecord.ts)

    An [ObservableRecord] is a record from stream ids to models; [get] returns
    a default for a missing key. [set] notifies subscribers, which are not
    modelled; a store is its value. *)

From S2P Require Import Prelude JsLib Ids Proto Types.

(** [ObservableRecord.get]: [this.value[key] ?? this.makeDefault(key)] *)
Definition get {V} (makeDefault : string → V) (key : string) (store : gmap string V) : V :=
  default (makeDefault key) (store !! key).

(** [this.set((prev) => ({...prev, [key]: f(prev[key] ?? this.makeDefault(key))}))] *)
Definition update {V} (makeDefault : string → V) (key : string) (f : V → V)
    (store : gmap string V) : gmap string V :=
  <[key := f (get makeDefault key store)]> store.

Definition setValueFor {V} (key : string) (value : V) (store : gmap string V) : gmap string V :=
  <[key := value]> store.

(** ** streamStatus.ts *)

Record StreamStatusModel := {
  sst_streamId : string;
  sst_isInitialized : bool;
  sst_isUpToDate : bool;
}.
#[export] Instance eta_StreamStatusModel : Eta StreamStatusModel := λ r,
  Build_StreamStatusModel (sst_streamId r) (sst_isInitialized r) (sst_isUpToDate r).
Definition StreamStatus_default (streamId : string) : StreamStatusModel :=
  {| sst_streamId := streamId; sst_isInitialized := false; sst_isUpToDate := false |}.
Definition setIsUpToDate (streamId : string) (isUpToDate : bool) :=
  update StreamStatus_default streamId (λ m, m <| sst_isUpToDate := isUpToDate |>).
Definition setIsInitialized (streamId : string) (isInitialized : bool) :=
  update StreamStatus_default streamId (λ m, m <| sst_isInitialized := isInitialized |>).

(** ** streamMemberIds.ts *)

Abbreviation StreamMemberIds := (gmap string (list string)).
Definition memberIds_get : string → StreamMemberIds → list string := get (λ _, []).
Definition setMembers (streamId : string) (memberIds : list string)
    : StreamMemberIds → StreamMemberIds :=
  setValueFor streamId (sort_strings memberIds).
Definition addMember (streamId memberId : string) (prev : StreamMemberIds) : StreamMemberIds :=
  let newMemberIds := sort_strings (memberId :: default [] (prev !! streamId)) in
  <[streamId := newMemberIds]> prev.
Definition removeMember (streamId memberId : string) (prev : StreamMemberIds) : StreamMemberIds :=
  match prev !! streamId with
  | None => prev
  | Some ids =>
      let newMemberIds := List.filter (λ id, negb (String.eqb id memberId)) ids in
      <[streamId := newMemberIds]> prev
  end.

(** ** dmStreams.ts *)

Record DmStreamModel := {
  dmm_streamId : string;
  dmm_firstPartyId : option string;
  dmm_secondPartyId : option string;
  dmm_lastEventCreatedAtEpochMs : Z;
}.
#[export] Instance eta_DmStreamModel : Eta DmStreamModel := λ r,
  Build_DmStreamModel (dmm_streamId r) (dmm_firstPartyId r) (dmm_secondPartyId r)
    (dmm_lastEventCreatedAtEpochMs r).
Definition DmStream_default (streamId : string) : DmStreamModel :=
  {| dmm_streamId := streamId; dmm_firstPartyId := None; dmm_secondPartyId := None;
     dmm_lastEventCreatedAtEpochMs := 0 |}.
Definition setParticipants (streamId firstPartyId secondPartyId : string) :=
  update DmStream_default streamId (λ m, m <| dmm_firstPartyId := Some firstPartyId |>
                                           <| dmm_secondPartyId := Some secondPartyId |>).
Definition dm_setLastEventCreatedAtEpochMs (streamId : string) (ms : Z) :=
  update DmStream_default streamId (λ m, m <| dmm_lastEventCreatedAtEpochMs := ms |>).

(** ** gdmStreams.ts *)

Record GdmStreamModel := {
  gdm_streamId : string;
  gdm_lastEventCreatedAtEpochMs : Z;
  gdm_metadata : option ChannelProperties;
  gdm_metadataEventId : option string;
  gdm_latestMetadataEventId : option string;
}.
#[export] Instance eta_GdmStreamModel : Eta GdmStreamModel := λ r,
  Build_GdmStreamModel (gdm_streamId r) (gdm_lastEventCreatedAtEpochMs r) (gdm_metadata r)
    (gdm_metadataEventId r) (gdm_latestMetadataEventId r).
Definition GdmStream_default (streamId : string) : GdmStreamModel :=
  {| gdm_streamId := streamId; gdm_lastEventCreatedAtEpochMs := 0; gdm_metadata := None;
     gdm_metadataEventId := None; gdm_latestMetadataEventId := None |}.
Definition gdm_setLastEventCreatedAtEpochMs (streamId : string) (ms : Z) :=
  update GdmStream_default streamId (λ m, m <| gdm_lastEventCreatedAtEpochMs := ms |>).
Definition setMetadata (streamId : string) (metadata : ChannelProperties) (eventId : string) :=
  update GdmStream_default streamId (λ m, m <| gdm_metadata := Some metadata |>
                                            <| gdm_metadataEventId := Some eventId |>).
Definition setLatestMetadataEventId (streamId eventId : string) :=
  update GdmStream_default streamId (λ m, m <| gdm_latestMetadataEventId := Some eventId |>).

(** ** spaceStreams.ts *)

Record ParsedChannelProperties := {
  pcp_isDefault : bool;
  pcp_updatedAtEventNum : Z;
  pcp_isAutojoin : bool;
  pcp_hideUserJoinLeaveEvents : bool;
}.
#[export] Instance eta_ParsedChannelProperties : Eta ParsedChannelProperties := λ r,
  Build_ParsedChannelProperties (pcp_isDefault r) (pcp_updatedAtEventNum r) (pcp_isAutojoin r)
    (pcp_hideUserJoinLeaveEvents r).
#[export] Instance ParsedChannelProperties_eq_dec : EqDecision ParsedChannelProperties.
Proof. solve_decision. Defined.
Record SpaceStreamModel := {
  spm_streamId : string;
  spm_channelsMetadata : gmap string ParsedChannelProperties;
}.
#[export] Instance eta_SpaceStreamModel : Eta SpaceStreamModel := λ r,
  Build_SpaceStreamModel (spm_streamId r) (spm_channelsMetadata r).
Definition SpaceStream_default (spaceStreamId : string) : SpaceStreamModel :=
  {| spm_streamId := spaceStreamId; spm_channelsMetadata := ∅ |}.

(** [delete], which reports whether it changed the record *)
Definition space_delete (spaceStreamId channelId : string) (prev : gmap string SpaceStreamModel)
    : bool * gmap string SpaceStreamModel :=
  match prev !! spaceStreamId with
  | Some m =>
      match spm_channelsMetadata m !! channelId with
      | None => (false, prev)
      | Some _ => (true, <[spaceStreamId := m <| spm_channelsMetadata ::= delete channelId |>]> prev)
      end
  | None => (false, prev)
  end.

Definition ParsedChannelProperties_default : ParsedChannelProperties :=
  {| pcp_isDefault := false; pcp_updatedAtEventNum := 0; pcp_isAutojoin := false;
     pcp_hideUserJoinLeaveEvents := false |}.

(** [properties : Partial<ParsedChannelProperties>] is the change [f] it makes. *)
Definition updateChannelMetadata (spaceStreamId channelId : string)
    (f : ParsedChannelProperties → ParsedChannelProperties) :=
  update SpaceStream_default spaceStreamId (λ m, m <| spm_channelsMetadata ::=
    λ c, <[channelId := f (default ParsedChannelProperties_default (c !! channelId))]> c |>).

(** ** userSettingsStreams.ts *)

Record UserSettingsStreamModel := {
  usm_streamId : string;
  usm_fullyReadMarkers : gmap string (gmap string FullyReadMarker);
  usm_userBlocks : gmap string UserBlocks;
}.
#[export] Instance eta_UserSettingsStreamModel : Eta UserSettingsStreamModel := λ r,
  Build_UserSettingsStreamModel (usm_streamId r) (usm_fullyReadMarkers r) (usm_userBlocks r).
Definition UserSettings_default (streamId : string) : UserSettingsStreamModel :=
  {| usm_streamId := streamId; usm_fullyReadMarkers := ∅; usm_userBlocks := ∅ |}.
Definition EMPTY_USER_BLOCKS : UserBlocks := {| ub_userId := []; ub_blocks := [] |}.
Definition setFullyReadMarkers (userSettingsStreamId streamId : string)
    (fullyReadMarkers : gmap string FullyReadMarker) :=
  update UserSettings_default userSettingsStreamId
    (λ m, m <| usm_fullyReadMarkers ::= <[streamId := fullyReadMarkers]> |>).
Definition setUserBlocks (userSettingsStreamId userId : string) (userBlocks : UserBlocks) :=
  update UserSettings_default userSettingsStreamId
    (λ m, m <| usm_userBlocks ::= <[userId := userBlocks]> |>).
Definition updateUserBlock (userSettingsStreamId userId : string) (userBlock : Block) :=
  update UserSettings_default userSettingsStreamId (λ m, m <| usm_userBlocks ::=
    λ ub, let prev := default EMPTY_USER_BLOCKS (ub !! userId) in
          <[userId := {| ub_userId := ub_userId prev;
                         ub_blocks := ub_blocks prev ++ [userBlock] |}]> ub |>).

(** ** userStreamsView.ts *)

Record UserStreamModel := {
  uvm_streamId : string;
  uvm_streamMemberships : gmap string UP_UserMembership;
  uvm_tipsSent : gmap string Z;
  uvm_tipsReceived : gmap string Z;
  uvm_tipsSentCount : gmap string Z;
  uvm_tipsReceivedCount : gmap string Z;
  uvm_tokenTransfers : list TokenTransfer;
}.
#[export] Instance eta_UserStreamModel : Eta UserStreamModel := λ r,
  Build_UserStreamModel (uvm_streamId r) (uvm_streamMemberships r) (uvm_tipsSent r)
    (uvm_tipsReceived r) (uvm_tipsSentCount r) (uvm_tipsReceivedCount r) (uvm_tokenTransfers r).
Definition UserStream_default (userStreamId : string) : UserStreamModel :=
  {| uvm_streamId := userStreamId; uvm_streamMemberships := ∅; uvm_tipsSent := ∅;
     uvm_tipsReceived := ∅; uvm_tipsSentCount := ∅; uvm_tipsReceivedCount := ∅;
     uvm_tokenTransfers := [] |}.

(** [{...m, [currency]: (m[currency] ?? 0n) + amount}] *)
Definition add_amount (currency : string) (amount : Z) (m : gmap string Z) : gmap string Z :=
  <[currency := default 0 (m !! currency) + amount]> m.

Definition setMembership (userStreamId streamId : string) (membership : UP_UserMembership) :=
  update UserStream_default userStreamId
    (λ m, m <| uvm_streamMemberships ::= <[streamId := membership]> |>).
Definition setTips (userStreamId : string)
    (tipsSent tipsReceived tipsSentCount tipsReceivedCount : gmap string Z) :=
  update UserStream_default userStreamId
    (λ m, m <| uvm_tipsSent := tipsSent |> <| uvm_tipsReceived := tipsReceived |>
            <| uvm_tipsSentCount := tipsSentCount |> <| uvm_tipsReceivedCount := tipsReceivedCount |>).
Definition prependTokenTransfer (userStreamId : string) (tokenTransfer : TokenTransfer) :=
  update UserStream_default userStreamId (λ m, m <| uvm_tokenTransfers ::= cons tokenTransfer |>).
Definition appendTokenTransfer (userStreamId : string) (tokenTransfer : TokenTransfer) :=
  update UserStream_default userStreamId
    (λ m, m <| uvm_tokenTransfers ::= λ l, l ++ [tokenTransfer] |>).
Definition appendTipSent (userStreamId currency : string) (amount : Z) :=
  update UserStream_default userStreamId
    (λ m, m <| uvm_tipsSent ::= add_amount currency amount |>
            <| uvm_tipsSentCount ::= add_amount currency 1 |>).
Definition appendTipReceived (userStreamId currency : string) (amount : Z) :=
  update UserStream_default userStreamId
    (λ m, m <| uvm_tipsReceived ::= add_amount currency amount |>
            <| uvm_tipsReceivedCount ::= add_amount currency 1 |>).
