(* ===== verification/Usernames.v ===== *)
(** * Usernames: the usernames of a stream's members (sdk/src/memberMetadata_Usernames.ts)

    A username event claims the checksum of the encrypted name. The state maps
    users to their current event, events to their claim, and keeps the set of
    claimed checksums; no two users may hold the same checksum. *)

From S2P Require Import Prelude JsLib Ids Proto Types TimelineTypes StreamEvents.

(** ** State *)

Record UsernameEvent := {
  ue_checksum : string;
  ue_userId : string;
  ue_pending : bool;
}.
#[export] Instance UsernameEvent_eq_dec : EqDecision UsernameEvent.
Proof. solve_decision. Defined.

Record Usernames := {
  streamId : string;
  plaintextUsernames : gmap string string;
  userIdToEventId : gmap string string;
  confirmedUserIds : gset string;
  usernameEvents : gmap string UsernameEvent;
  checksums : gset string;
}.
#[export] Instance eta_Usernames : Eta Usernames := λ r,
  Build_Usernames (streamId r) (plaintextUsernames r) (userIdToEventId r) (confirmedUserIds r)
    (usernameEvents r) (checksums r).

Definition new (streamId : string) : Usernames := {|
  streamId := streamId;
  plaintextUsernames := ∅;
  userIdToEventId := ∅;
  confirmedUserIds := ∅;
  usernameEvents := ∅;
  checksums := ∅;
|}.

Abbreviation UM := (M Emit Usernames).

(** ** Operations *)

Definition setLocalUsername (userId username : string) (emitter : bool) : UM unit :=
  _ ← modify (λ s, s <| plaintextUsernames ::= <[userId := username]> |>);
  this ← getM;
  emit emitter (streamPendingUsernameUpdated (streamId this) userId).

Definition resetLocalUsername (userId : string) (emitter : bool) : UM unit :=
  _ ← modify (λ s, s <| plaintextUsernames ::= delete userId |>);
  this ← getM;
  emit emitter (streamPendingUsernameUpdated (streamId this) userId).

Definition usernameAvailable (checksum : string) (this : Usernames) : bool :=
  bool_decide (checksum ∉ checksums this).

Definition cleartextUsernameAvailable `{EthLib} (username : string) (this : Usernames) : bool :=
  usernameAvailable (usernameChecksum username (streamId this)) this.

Definition emitUsernameUpdated (eventId : string) (emitter : bool) : UM unit :=
  this ← getM;
  match usernameEvents this !! eventId with
  | None => mret tt
  | Some event =>
      if negb (isDefined (plaintextUsernames this !! ue_userId event)) then mret tt
      else emit emitter
             (if ue_pending event
              then streamPendingUsernameUpdated (streamId this) (ue_userId event)
              else streamUsernameUpdated (streamId this) (ue_userId event))
  end.

Definition removeUsernameEventForUserId (userId : string) : UM unit :=
  this ← getM;
  match userIdToEventId this !! userId with
  | None => mret tt
  | Some eventId =>
      if negb (truthy_str eventId) then mret tt
      else match usernameEvents this !! eventId with
           | None => mret tt
           | Some event =>
               _ ← modify (λ s, s <| checksums ::= (.∖ {[ue_checksum event]}) |>);
               modify (λ s, s <| usernameEvents ::= delete eventId |>)
           end
  end.

Definition addUsernameEventForUserId (userId eventId : string) (encryptedData : EncryptedData)
    (pending : bool) : UM unit :=
  match ed_checksum encryptedData with
  | None => mret tt
  | Some checksum =>
      if negb (truthy_str checksum) then mret tt
      else
        _ ← modify (λ s, s <| userIdToEventId ::= <[userId := eventId]> |>);
        _ ← modify (λ s, s <| checksums ::= union {[checksum]} |>);
        modify (λ s, s <| usernameEvents ::=
          <[eventId := {| ue_checksum := checksum; ue_userId := userId; ue_pending := pending |}]> |>)
  end.

Definition addEncryptedData (eventId : string) (encryptedData : EncryptedData) (userId : string)
    (pending : bool) (cleartext : option Cleartext) (encryptionEmitter stateEmitter : bool)
    : UM unit :=
  match ed_checksum encryptedData with
  | None => mret tt
  | Some checksum =>
      if negb (truthy_str checksum) then mret tt
      else
        this ← getM;
        if negb (usernameAvailable checksum this) then mret tt
        else
          _ ← removeUsernameEventForUserId userId;
          _ ← addUsernameEventForUserId userId eventId encryptedData pending;
          _ ← match truthy_cleartext cleartext with
              | Some cleartext =>
                  modify (λ s, s <| plaintextUsernames ::= <[userId := cleartext_string cleartext]> |>)
              | None =>
                  _ ← modify (λ s, s <| plaintextUsernames ::= delete userId |>);
                  emit encryptionEmitter (newEncryptedContent (streamId this) eventId
                    {| ec_kind := kind_text; ec_content := encryptedData |})
              end;
          _ ← whenM (negb pending)
                (modify (λ s, s <| confirmedUserIds ::= union {[userId]} |>));
          emitUsernameUpdated eventId stateEmitter
  end.

Definition onConfirmEvent (eventId : string) (emitter : bool) : UM unit :=
  this ← getM;
  match usernameEvents this !! eventId with
  | None => mret tt
  | Some event =>
      _ ← modify (λ s, s <| usernameEvents ::= <[eventId :=
            {| ue_checksum := ue_checksum event; ue_userId := ue_userId event;
               ue_pending := false |}]> |>);
      _ ← modify (λ s, s <| confirmedUserIds ::= union {[ue_userId event]} |>);
      whenM (isDefined (plaintextUsernames this !! ue_userId event))
        (emitUsernameUpdated eventId emitter)
  end.

Definition onDecryptedContent `{EthLib} (eventId content : string) (emitter : bool) : UM unit :=
  this ← getM;
  match usernameEvents this !! eventId with
  | None => mret tt
  | Some event =>
      let checksum := ue_checksum event in
      if negb (truthy_str checksum) then mret tt
      else
        let calculatedChecksum := usernameChecksum content (streamId this) in
        if negb (String.eqb checksum calculatedChecksum) then mret tt
        else
          _ ← modify (λ s, s <| plaintextUsernames ::= <[ue_userId event := content]> |>);
          emitUsernameUpdated eventId emitter
  end.

Record UsernameInfo := {
  ui_username : string;
  ui_usernameConfirmed : bool;
  ui_usernameEncrypted : bool;
}.

Definition info (userId : string) (this : Usernames) : UsernameInfo :=
  let name := default "" (plaintextUsernames this !! userId) in
  match userIdToEventId this !! userId with
  | Some eventId =>
      if negb (truthy_str eventId)
      then {| ui_username := name; ui_usernameConfirmed := false; ui_usernameEncrypted := false |}
      else
        let encrypted := isDefined (usernameEvents this !! eventId)
                         && negb (isDefined (plaintextUsernames this !! userId)) in
        {| ui_username := name;
           ui_usernameConfirmed := bool_decide (userId ∈ confirmedUserIds this);
           ui_usernameEncrypted := encrypted |}
  | None =>
      {| ui_username := name; ui_usernameConfirmed := false; ui_usernameEncrypted := false |}
  end.
