(* ===== verification/UsernamesFacts.v ===== *)
(** * UsernamesFacts: a username belongs to at most one member

    The invariant [wf] of [Usernames], and the refinement of the three maps to
    one abstract map from users to claimed checksums. *)

From S2P Require Import Prelude JsLib Ids IdsFacts Proto Types TimelineTypes StreamEvents Usernames.

(** ** Invariant *)

(** Every event claims a checksum of the set, is the current event of its user,
    and no two events claim the same checksum. *)
Record wf (s : Usernames) : Prop := {
  wf_claimed e v : usernameEvents s !! e = Some v → ue_checksum v ∈ checksums s;
  wf_current e v : usernameEvents s !! e = Some v → userIdToEventId s !! ue_userId v = Some e;
  wf_unique e1 e2 v1 v2 :
    usernameEvents s !! e1 = Some v1 → usernameEvents s !! e2 = Some v2 →
    ue_checksum v1 = ue_checksum v2 → e1 = e2;
  wf_ids u e : userIdToEventId s !! u = Some e → e ≠ "";
}.

(** No checksum is kept that no event claims. *)
Definition tight (s : Usernames) : Prop :=
  ∀ c, c ∈ checksums s → ∃ e v, usernameEvents s !! e = Some v ∧ ue_checksum v = c.

(** ** The abstract state: who claims what *)

Definition claim_of (s : Usernames) (u : string) : option string :=
  e ← userIdToEventId s !! u; ue_checksum <$> usernameEvents s !! e.

(** The maps agree: the current event of a user exists and is the user's own. *)
Definition owned (s : Usernames) : Prop :=
  ∀ u e, userIdToEventId s !! u = Some e →
    ∃ v, usernameEvents s !! e = Some v ∧ ue_userId v = u.

Record inv (s : Usernames) : Prop := {
  inv_wf : wf s;
  inv_tight : tight s;
  inv_owned : owned s;
}.

(** ** Execution *)

Definition removed (u : string) (s : Usernames) : Usernames :=
  match userIdToEventId s !! u with
  | Some e =>
      match usernameEvents s !! e with
      | Some v => s <| checksums ::= (.∖ {[ue_checksum v]}) |> <| usernameEvents ::= delete e |>
      | None => s
      end
  | None => s
  end.

Lemma remove_post u s :
  wf s → post (removeUsernameEventForUserId u) s = removed u s
         ∧ res (removeUsernameEventForUserId u) s = Ok tt.
Proof.
  intros Hwf. unfold removeUsernameEventForUserId, removed. run.
  destruct (userIdToEventId s !! u) as [e|] eqn:Hu; [|done].
  pose proof (wf_ids _ Hwf _ _ Hu) as He. unfold truthy_str.
  apply String.eqb_neq in He. rewrite He. simpl.
  by destruct (usernameEvents s !! e).
Qed.

(** The state after an accepted claim, up to the plaintexts and confirmations. *)
Definition claimed (u e c : string) (pending : bool) (s : Usernames) : Usernames :=
  (removed u s) <| userIdToEventId ::= <[u := e]> |>
    <| checksums ::= union {[c]} |>
    <| usernameEvents ::= <[e := {| ue_checksum := c; ue_userId := u; ue_pending := pending |}]> |>.

(** Two states with the same claims. *)
Definition same_claims (s1 s2 : Usernames) : Prop :=
  userIdToEventId s1 = userIdToEventId s2 ∧ checksums s1 = checksums s2 ∧
  usernameEvents s1 = usernameEvents s2.

Lemma emit_post e b s : post (emitUsernameUpdated e b) s = s ∧ res (emitUsernameUpdated e b) s = Ok tt.
Proof. unfold emitUsernameUpdated. run. repeat case_match; done. Qed.

(** Whether [addEncryptedData] accepts the claim. *)
Definition accepted (data : EncryptedData) (s : Usernames) : option string :=
  c ← ed_checksum data; if truthy_str c && usernameAvailable c s then Some c else None.

Lemma add_accepted e data u pending ct enc st s c :
  wf s → accepted data s = Some c →
  same_claims (post (addEncryptedData e data u pending ct enc st) s) (claimed u e c pending s)
  ∧ res (addEncryptedData e data u pending ct enc st) s = Ok tt.
Proof.
  intros Hwf. unfold accepted. destruct (ed_checksum data) as [c'|] eqn:Hd; [|done]. simpl.
  destruct (truthy_str c') eqn:Ht; [|done]. destruct (usernameAvailable c' s) eqn:Ha; [|done].
  simpl. intros [= ->]. unfold addEncryptedData. rewrite Hd, Ht. run. rewrite Ha. simpl negb.
  cbv iota. rewrite post_bind, res_bind. destruct (remove_post u s Hwf) as [-> ->].
  unfold addUsernameEventForUserId. rewrite Hd, Ht. simpl negb. cbv iota. run.
  destruct (truthy_cleartext ct); run; destruct pending; simpl; unfold whenM; run;
    rewrite !(proj1 (emit_post _ _ _)), !(proj2 (emit_post _ _ _));
    unfold claimed, same_claims; simpl; by split_and!.
Qed.

Lemma add_rejected e data u pending ct enc st s :
  accepted data s = None →
  post (addEncryptedData e data u pending ct enc st) s = s
  ∧ res (addEncryptedData e data u pending ct enc st) s = Ok tt
  ∧ out (addEncryptedData e data u pending ct enc st) s = [].
Proof.
  unfold accepted, addEncryptedData. destruct (ed_checksum data) as [c|]; [|done]. simpl.
  destruct (truthy_str c); [|done]. simpl. run.
  by destruct (usernameAvailable c s).
Qed.

Lemma add_rejected_strong e data u pending ct enc st s :
  accepted data s = None →
  out (addEncryptedData e data u pending ct enc st) s = [] ∧
  post (addEncryptedData e data u pending ct enc st) s = s.
Proof. intros H. split; by apply add_rejected. Qed.

(** ** Preservation *)

Lemma removed_claims u s e v :
  usernameEvents (removed u s) !! e = Some v → usernameEvents s !! e = Some v.
Proof.
  unfold removed. repeat case_match; simpl; auto. intros H'. by apply lookup_delete_Some in H' as [_ ?].
Qed.

Lemma removed_map u s : userIdToEventId (removed u s) = userIdToEventId s.
Proof. unfold removed. by repeat case_match. Qed.

(** The events that remain after the removal are not the current event of [u]. *)
Lemma removed_other u s e v :
  wf s → usernameEvents (removed u s) !! e = Some v → ue_userId v ≠ u.
Proof.
  intros Hwf Hv Hu. pose proof (removed_claims _ _ _ _ Hv) as Hv'.
  pose proof (wf_current _ Hwf _ _ Hv') as Hc. rewrite Hu in Hc.
  revert Hv. unfold removed. rewrite Hc, Hv'. simpl. by rewrite lookup_delete_eq.
Qed.

Lemma removed_checksum u s e v :
  wf s → usernameEvents (removed u s) !! e = Some v → ue_checksum v ∈ checksums (removed u s).
Proof.
  intros Hwf Hv. pose proof (removed_claims _ _ _ _ Hv) as Hv'.
  pose proof (wf_claimed _ Hwf _ _ Hv') as Hc. revert Hv. unfold removed.
  destruct (userIdToEventId s !! u) as [e1|]; [|done].
  destruct (usernameEvents s !! e1) as [v1|] eqn:Hv1; [|done]. simpl.
  rewrite lookup_delete_Some. intros [Hne _]. apply elem_of_difference. split; [done|].
  rewrite elem_of_singleton. intros Heq. apply Hne. by eapply wf_unique.
Qed.

Lemma removed_subset u s : checksums (removed u s) ⊆ checksums s.
Proof. unfold removed. repeat case_match; simpl; set_solver. Qed.

Lemma claimed_wf u e c pending s :
  wf s → e ≠ "" → c ∉ checksums s → wf (claimed u e c pending s).
Proof.
  intros Hwf He Hc. split; unfold claimed; simpl.
  - intros e' v. rewrite lookup_insert_Some. intros [[<- <-]|[_ Hv]]; simpl; [set_solver|].
    pose proof (removed_checksum _ _ _ _ Hwf Hv). set_solver.
  - intros e' v. rewrite removed_map, lookup_insert_Some.
    intros [[<- <-]|[Hne Hv]]; simpl; [by rewrite lookup_insert_eq|].
    rewrite lookup_insert_ne by (symmetry; by eapply removed_other).
    eapply wf_current, removed_claims; done.
  - intros e1 e2 v1 v2. rewrite !lookup_insert_Some.
    intros [[<- <-]|[Hne1 Hv1]] [[<- <-]|[Hne2 Hv2]]; simpl; try done.
    + intros ->. exfalso. apply Hc. eapply wf_claimed, removed_claims; done.
    + intros <-. exfalso. apply Hc. eapply wf_claimed, removed_claims; done.
    + eapply wf_unique; eauto using removed_claims.
  - intros u' e'. rewrite removed_map, lookup_insert_Some.
    intros [[_ <-]|[_ Hu]]; [done|]. by eapply wf_ids.
Qed.

Lemma wf_same_claims s1 s2 : same_claims s1 s2 → wf s2 → wf s1.
Proof.
  intros (H1 & H2 & H3) Hwf. split; rewrite ?H1, ?H2, ?H3; apply Hwf.
Qed.

Lemma accepted_fresh data s c : accepted data s = Some c → c ∉ checksums s.
Proof.
  unfold accepted. destruct (ed_checksum data); [|done]. simpl. unfold usernameAvailable.
  destruct (truthy_str _); [|done]. simpl. case_bool_decide; [|done]. by intros [= <-].
Qed.

Lemma accepted_checksum data s c : accepted data s = Some c → ed_checksum data = Some c.
Proof.
  unfold accepted. destruct (ed_checksum data) as [c'|]; [|done]. simpl.
  destruct (truthy_str c' && usernameAvailable c' s); congruence.
Qed.

Lemma add_wf e data u pending ct enc st s :
  wf s → e ≠ "" → wf (post (addEncryptedData e data u pending ct enc st) s).
Proof.
  intros Hwf He. destruct (accepted data s) as [c|] eqn:Ha.
  - destruct (add_accepted e data u pending ct enc st s c Hwf Ha) as [Hs _].
    eapply wf_same_claims; [done|]. apply claimed_wf; [done..|]. by eapply accepted_fresh.
  - by destruct (add_rejected e data u pending ct enc st s Ha) as [-> _].
Qed.

(** Under [inv] the removal takes away exactly the event of [u]. *)
Lemma removed_keeps u s e v :
  inv s → usernameEvents s !! e = Some v → ue_userId v ≠ u →
  usernameEvents (removed u s) !! e = Some v.
Proof.
  intros Hs Hv Hu. unfold removed.
  destruct (userIdToEventId s !! u) as [e1|] eqn:Hm; [|done].
  destruct (inv_owned _ Hs _ _ Hm) as (v1 & Hv1 & Ho). rewrite Hv1. simpl.
  rewrite lookup_delete_ne; [done|]. intros ->. congruence.
Qed.

Lemma removed_tight u s :
  inv s → ∀ c, c ∈ checksums (removed u s) →
  ∃ e v, usernameEvents (removed u s) !! e = Some v ∧ ue_checksum v = c.
Proof.
  intros Hs c Hc. destruct (inv_tight _ Hs c (removed_subset u s c Hc)) as (e & v & Hv & <-).
  exists e, v. split; [|done]. apply removed_keeps; [done..|]. intros Hu.
  pose proof (wf_current _ (inv_wf _ Hs) _ _ Hv) as Hm. rewrite Hu in Hm.
  revert Hc. unfold removed. rewrite Hm, Hv. simpl. set_solver.
Qed.

Lemma claimed_inv u e c pending s :
  inv s → e ≠ "" → c ∉ checksums s → usernameEvents s !! e = None →
  inv (claimed u e c pending s).
Proof.
  intros Hs He Hc Hf.
  assert (∀ e' v, usernameEvents (removed u s) !! e' = Some v → e ≠ e') as Hne.
  { intros e' v Hv ->. apply removed_claims in Hv. congruence. }
  split; [by apply claimed_wf; [apply inv_wf|..]| |].
  - intros c'. unfold claimed. simpl. rewrite elem_of_union, elem_of_singleton. intros [->|Hc'].
    + eexists _, _. by rewrite lookup_insert_eq.
    + destruct (removed_tight u s Hs c' Hc') as (e' & v & Hv & <-). exists e', v.
      split; [|done]. rewrite lookup_insert_ne; [done|]. by eapply Hne.
  - intros u' e'. unfold claimed. simpl. rewrite removed_map, lookup_insert_Some.
    intros [[<- <-]|[Hu Hm]]; [eexists; by rewrite lookup_insert_eq|].
    destruct (inv_owned _ Hs _ _ Hm) as (v & Hv & Ho). exists v.
    assert (usernameEvents (removed u s) !! e' = Some v) as Hv'
      by (apply removed_keeps; [done..|congruence]).
    rewrite lookup_insert_ne; [done|]. by eapply Hne.
Qed.

Lemma claim_of_claimed u e c pending s u' :
  inv s → usernameEvents s !! e = None →
  claim_of (claimed u e c pending s) u' = if String.eqb u' u then Some c else claim_of s u'.
Proof.
  intros Hs Hf. unfold claim_of, claimed. simpl. rewrite removed_map.
  destruct (String.eqb_spec u' u) as [->|Hu].
  { rewrite lookup_insert_eq. simpl. by rewrite lookup_insert_eq. }
  rewrite lookup_insert_ne by done.
  destruct (userIdToEventId s !! u') as [e'|] eqn:Hm; [|done]. simpl.
  destruct (inv_owned _ Hs _ _ Hm) as (v & Hv & Ho).
  rewrite lookup_insert_ne by congruence. rewrite Hv.
  rewrite (removed_keeps u s e' v) by (done || congruence). done.
Qed.

Lemma same_claims_inv s1 s2 : same_claims s1 s2 → inv s2 → inv s1.
Proof.
  intros Hs [Hw Ht Ho]. split; [by eapply wf_same_claims| |];
    destruct Hs as (H1 & H2 & H3); unfold tight, owned; by rewrite ?H1, ?H2, ?H3.
Qed.

Lemma same_claims_claim s1 s2 u : same_claims s1 s2 → claim_of s1 u = claim_of s2 u.
Proof. intros (H1 & H2 & H3). unfold claim_of. by rewrite H1, H3. Qed.

(** Availability is exact: a checksum is available iff no user claims it. *)
Lemma available_spec c s :
  inv s → usernameAvailable c s = true ↔ ∀ u, claim_of s u ≠ Some c.
Proof.
  intros Hs. unfold usernameAvailable. rewrite bool_decide_eq_true. split.
  - intros Hc u. unfold claim_of. destruct (userIdToEventId s !! u) as [e|]; [|done]. simpl.
    destruct (usernameEvents s !! e) as [v|] eqn:Hv; [|done]. simpl. intros [= <-].
    by apply Hc, (wf_claimed _ (inv_wf _ Hs) e).
  - intros Hu Hc. destruct (inv_tight _ Hs c Hc) as (e & v & Hv & <-).
    apply (Hu (ue_userId v)). unfold claim_of.
    rewrite (wf_current _ (inv_wf _ Hs) _ _ Hv). simpl. by rewrite Hv.
Qed.

Lemma claim_unique s u1 u2 c :
  inv s → claim_of s u1 = Some c → claim_of s u2 = Some c → u1 = u2.
Proof.
  intros Hs. unfold claim_of.
  destruct (userIdToEventId s !! u1) as [e1|] eqn:M1; [|done].
  destruct (userIdToEventId s !! u2) as [e2|] eqn:M2; [|done]. simpl.
  destruct (inv_owned _ Hs _ _ M1) as (v1 & V1 & <-).
  destruct (inv_owned _ Hs _ _ M2) as (v2 & V2 & <-). rewrite V1, V2. simpl.
  intros [= <-] [= Hc]. assert (e1 = e2) as -> by (by eapply wf_unique; [apply inv_wf|..]).
  congruence.
Qed.

Lemma new_inv sid : inv (new sid).
Proof. split; [split|..]; unfold tight, owned, new; simpl; intros *; rewrite ?lookup_empty; set_solver. Qed.

(** ** The other operations keep the claims *)

Lemma confirm_claims e b s :
  let s' := post (onConfirmEvent e b) s in
  userIdToEventId s' = userIdToEventId s ∧ checksums s' = checksums s ∧
  (∀ e' v, usernameEvents s' !! e' = Some v →
     ∃ v0, usernameEvents s !! e' = Some v0 ∧ ue_checksum v0 = ue_checksum v
           ∧ ue_userId v0 = ue_userId v) ∧
  (∀ e' v0, usernameEvents s !! e' = Some v0 →
     ∃ v, usernameEvents s' !! e' = Some v ∧ ue_checksum v0 = ue_checksum v
           ∧ ue_userId v0 = ue_userId v).
Proof.
  unfold onConfirmEvent. run. destruct (usernameEvents s !! e) as [v|] eqn:Hv; [|run; naive_solver].
  run. unfold whenM. destruct (isDefined _); run; rewrite ?(proj1 (emit_post _ _ _)); simpl;
    split_and!; try done; intros e' v'; rewrite ?lookup_insert_Some.
  all: try (intros [[<- <-]|[Hne Hv']]; naive_solver).
  all: intros Hv'; destruct (decide (e = e')) as [<-|Hne]; simplify_eq;
    [eexists; by rewrite lookup_insert_eq | exists v'; by rewrite lookup_insert_ne].
Qed.

Lemma confirm_inv e b s : inv s → inv (post (onConfirmEvent e b) s).
Proof.
  intros [[W1 W2 W3 W4] Ht Ho].
  destruct (confirm_claims e b s) as (H1 & H2 & H3 & H4). split; [split|..].
  - intros e' v (v0 & Hv0 & <- & _)%H3. rewrite H2. by eapply W1.
  - intros e' v (v0 & Hv0 & _ & <-)%H3. rewrite H1. by apply W2.
  - intros e1 e2 v1 v2 (w1 & Hw1 & <- & _)%H3 (w2 & Hw2 & <- & _)%H3. by apply W3.
  - intros u e'. rewrite H1. apply W4.
  - intros c. rewrite H2. intros (e' & v0 & (v & Hv & Hc & _)%H4 & <-)%Ht.
    exists e', v. by rewrite Hc.
  - intros u e'. rewrite H1. intros (v0 & (v & Hv & _ & Hvu)%H4 & Hu)%Ho.
    exists v. split; [done|congruence].
Qed.

Lemma confirm_wf e b s : wf s → wf (post (onConfirmEvent e b) s).
Proof.
  intros [W1 W2 W3 W4]. destruct (confirm_claims e b s) as (H1 & H2 & H3 & _). split.
  - intros e' v (v0 & Hv0 & <- & _)%H3. rewrite H2. by eapply W1.
  - intros e' v (v0 & Hv0 & _ & <-)%H3. rewrite H1. by apply W2.
  - intros e1 e2 v1 v2 (w1 & Hw1 & <- & _)%H3 (w2 & Hw2 & <- & _)%H3. by apply W3.
  - intros u e'. rewrite H1. apply W4.
Qed.

Lemma confirm_claim_of e b s u : claim_of (post (onConfirmEvent e b) s) u = claim_of s u.
Proof.
  destruct (confirm_claims e b s) as (H1 & _ & H3 & H4). unfold claim_of. rewrite H1.
  destruct (userIdToEventId s !! u) as [e'|]; [|done]. simpl.
  destruct (usernameEvents s !! e') as [v0|] eqn:E0.
  - apply H4 in E0 as (v & -> & Hc & _). simpl. by rewrite Hc.
  - destruct (usernameEvents (post (onConfirmEvent e b) s) !! e') as [v|] eqn:E1; [|done].
    apply H3 in E1 as (? & ? & _). congruence.
Qed.

Lemma decrypted_claims `{EthLib} e content b s :
  same_claims (post (onDecryptedContent e content b) s) s.
Proof.
  unfold onDecryptedContent. run.
  repeat case_match; run; rewrite ?(proj1 (emit_post _ _ _)); done.
Qed.

(** ** Reachable states *)

(** Any operation of the class; event ids are hashes, so not empty. *)
Inductive step `{EthLib} : relation Usernames :=
  | step_add e data u pending ct enc st s :
      e ≠ "" → step s (post (addEncryptedData e data u pending ct enc st) s)
  | step_confirm e b s : step s (post (onConfirmEvent e b) s)
  | step_decrypted e content b s : step s (post (onDecryptedContent e content b) s)
  | step_setLocal u name b s : step s (post (setLocalUsername u name b) s)
  | step_resetLocal u b s : step s (post (resetLocalUsername u b) s).

(** The operations driven by the stream, with new event ids, and the cleartexts
    that came from the cache with the events, under their ids *)
Inductive stream_step `{EthLib} : relation (list (string * string) * Usernames) :=
  | sstep_add e data u pending ct enc st cached s :
      e ≠ "" → usernameEvents s !! e = None →
      stream_step (cached, s)
        (match truthy_cleartext ct with Some t => (e, cleartext_string t) :: cached | None => cached end,
         post (addEncryptedData e data u pending ct enc st) s)
  | sstep_confirm e b cached s : stream_step (cached, s) (cached, post (onConfirmEvent e b) s)
  | sstep_decrypted e content b cached s :
      stream_step (cached, s) (cached, post (onDecryptedContent e content b) s).

Section Reach.
Context `{EthLib}.

Lemma step_wf s s' : step s s' → wf s → wf s'.
Proof.
  destruct 1; intros Hwf; [by apply add_wf|by apply confirm_wf|..].
  - eapply wf_same_claims; [apply decrypted_claims|done].
  - by eapply wf_same_claims; [|exact Hwf].
  - by eapply wf_same_claims; [|exact Hwf].
Qed.

Lemma reach_wf sid s : rtc step (new sid) s → wf s.
Proof.
  intros Hr. remember (new sid) as s0 eqn:E. assert (wf s0) as Hwf by (subst; apply new_inv).
  clear E. induction Hr; eauto using step_wf.
Qed.

Lemma add_inv e data u pending ct enc st s :
  inv s → e ≠ "" → usernameEvents s !! e = None →
  inv (post (addEncryptedData e data u pending ct enc st) s).
Proof.
  intros Hs He Hf. destruct (accepted data s) as [c|] eqn:Ha.
  - destruct (add_accepted e data u pending ct enc st s c (inv_wf _ Hs) Ha) as [Hc _].
    eapply same_claims_inv; [done|]. apply claimed_inv; [done..| |done]. by eapply accepted_fresh.
  - by destruct (add_rejected e data u pending ct enc st s Ha) as [-> _].
Qed.

(** The name of a user came from the cache with the event that holds the
    user's current claim. *)
Definition from_cache (cached : list (string * string)) (s : Usernames) (u name : string) : Prop :=
  ∃ e, userIdToEventId s !! u = Some e ∧ (e, name) ∈ cached.

(** The displayed names are the claimed ones, or came from the cache. *)
Definition verified (cached : list (string * string)) (s : Usernames) : Prop :=
  ∀ u name, plaintextUsernames s !! u = Some name →
    claim_of s u = Some (usernameChecksum name (streamId s)) ∨ from_cache cached s u name.

Lemma from_cache_same cached s s' u name :
  userIdToEventId s' = userIdToEventId s → from_cache cached s u name → from_cache cached s' u name.
Proof. unfold from_cache. by intros ->. Qed.

Lemma add_plaintext e data u pending ct enc st s c :
  wf s → accepted data s = Some c →
  streamId (post (addEncryptedData e data u pending ct enc st) s) = streamId s ∧
  plaintextUsernames (post (addEncryptedData e data u pending ct enc st) s) =
    match truthy_cleartext ct with
    | Some t => <[u := cleartext_string t]> (plaintextUsernames s)
    | None => delete u (plaintextUsernames s)
    end.
Proof.
  intros Hwf. unfold accepted. destruct (ed_checksum data) as [c'|] eqn:Hd; [|done]. simpl.
  destruct (truthy_str c') eqn:Ht; [|done]. destruct (usernameAvailable c' s) eqn:Ha; [|done].
  simpl. intros [= ->]. unfold addEncryptedData. rewrite Hd, Ht. run. rewrite Ha. simpl negb.
  cbv iota. rewrite post_bind. destruct (remove_post u s Hwf) as [-> ->].
  unfold addUsernameEventForUserId. rewrite Hd, Ht. run.
  assert (plaintextUsernames (removed u s) = plaintextUsernames s ∧
          streamId (removed u s) = streamId s) as [E1 E2]
    by (unfold removed; by repeat case_match).
  destruct (truthy_cleartext ct); run; destruct pending; simpl; unfold whenM; run;
    rewrite !(proj1 (emit_post _ _ _)); simpl; rewrite E1, E2; done.
Qed.

Lemma add_verified e data u pending ct enc st cached s :
  inv s → verified cached s → e ≠ "" → usernameEvents s !! e = None →
  verified (match truthy_cleartext ct with Some t => (e, cleartext_string t) :: cached | None => cached end)
    (post (addEncryptedData e data u pending ct enc st) s).
Proof.
  intros Hs Hv He Hf. destruct (accepted data s) as [c|] eqn:Ha.
  2: { destruct (add_rejected e data u pending ct enc st s Ha) as [-> _]. intros u' name Hn.
    destruct (Hv u' name Hn) as [?|(e' & ? & ?)]; [by left|right; exists e'; split; [done|]].
    destruct (truthy_cleartext ct); [by right|done]. }
  destruct (add_accepted e data u pending ct enc st s c (inv_wf _ Hs) Ha) as [Hc _].
  destruct (add_plaintext e data u pending ct enc st s c (inv_wf _ Hs) Ha) as [Hsid Hp].
  intros u' name. rewrite Hp, Hsid, (same_claims_claim _ _ u' Hc), claim_of_claimed by done.
  assert (Hmap : userIdToEventId (post (addEncryptedData e data u pending ct enc st) s)
                 = <[u := e]> (userIdToEventId s)).
  { destruct Hc as (-> & _). unfold claimed. simpl. by rewrite removed_map. }
  assert (Hother : ∀ cached', u ≠ u' → plaintextUsernames s !! u' = Some name → (∀ p, p ∈ cached → p ∈ cached') →
    (if String.eqb u' u then Some c else claim_of s u') = Some (usernameChecksum name (streamId s))
    ∨ from_cache cached' (post (addEncryptedData e data u pending ct enc st) s) u' name).
  { intros cached' Hne Hn Hsub. destruct (String.eqb_spec u' u) as [->|_]; [done|].
    destruct (Hv u' name Hn) as [?|(e' & ? & ?)]; [by left|right]. exists e'.
    rewrite Hmap, lookup_insert_ne by done. auto. }
  destruct (truthy_cleartext ct) as [t|] eqn:Et.
  - rewrite lookup_insert_Some. intros [[<- <-]|[Hne Hn]].
    + right. exists e. rewrite Hmap, lookup_insert_eq. split; [done|by left].
    + apply Hother; [done..|]. intros p Hin. by right.
  - rewrite lookup_delete_Some. intros [Hne Hn]. by apply Hother.
Qed.

Lemma decrypted_plaintext e content b s :
  let s' := post (onDecryptedContent e content b) s in
  streamId s' = streamId s ∧
  (plaintextUsernames s' = plaintextUsernames s ∨
   ∃ v, usernameEvents s !! e = Some v ∧ ue_checksum v = usernameChecksum content (streamId s) ∧
        plaintextUsernames s' = <[ue_userId v := content]> (plaintextUsernames s)).
Proof.
  unfold onDecryptedContent. run. destruct (usernameEvents s !! e) as [v|] eqn:Hv; [|run; auto].
  destruct (truthy_str _); [|run; auto]. run.
  destruct (String.eqb_spec (ue_checksum v) (usernameChecksum content (streamId s))) as [Hc|Hc];
    run; [|auto]. rewrite (proj1 (emit_post _ _ _)). simpl. split; [done|]. right. eauto.
Qed.

Lemma decrypted_verified e content b cached s :
  inv s → verified cached s → verified cached (post (onDecryptedContent e content b) s).
Proof.
  intros Hs Hv u name. rewrite (same_claims_claim _ _ u (decrypted_claims e content b s)).
  assert (Hkeep : plaintextUsernames s !! u = Some name →
    claim_of s u = Some (usernameChecksum name (streamId s))
    ∨ from_cache cached (post (onDecryptedContent e content b) s) u name).
  { intros [?|Hc]%Hv; [by left|right]. eapply from_cache_same; [|done]. by destruct (decrypted_claims e content b s). }
  destruct (decrypted_plaintext e content b s) as [-> [->|(v & He & Hc & ->)]]; [apply Hkeep|].
  rewrite lookup_insert_Some. intros [[<- <-]|[_ Hn]]; [left|by apply Hkeep].
  unfold claim_of. rewrite (wf_current _ (inv_wf _ Hs) _ _ He). simpl. rewrite He. simpl.
  by rewrite Hc.
Qed.

Lemma confirm_verified e b cached s : verified cached s → verified cached (post (onConfirmEvent e b) s).
Proof.
  intros Hv u name. rewrite confirm_claim_of.
  assert (plaintextUsernames (post (onConfirmEvent e b) s) = plaintextUsernames s ∧
          streamId (post (onConfirmEvent e b) s) = streamId s) as [-> ->].
  { unfold onConfirmEvent. run. destruct (usernameEvents s !! e); [|done]. run. unfold whenM.
    destruct (isDefined _); run; by rewrite ?(proj1 (emit_post _ _ _)). }
  intros [?|Hc]%Hv; [by left|right]. eapply from_cache_same; [|done]. by destruct (confirm_claims e b s).
Qed.

Lemma stream_step_inv p p' :
  stream_step p p' → inv p.2 ∧ verified p.1 p.2 → inv p'.2 ∧ verified p'.1 p'.2.
Proof.
  destruct 1; cbn [fst snd]; intros [Hs Hv]; split;
    eauto using add_inv, add_verified, confirm_inv, confirm_verified, decrypted_verified.
  eapply same_claims_inv; [apply decrypted_claims|done].
Qed.

Lemma stream_reach_inv sid cached s : rtc stream_step ([], new sid) (cached, s) → inv s ∧ verified cached s.
Proof.
  intros Hr. change (inv (cached, s).2 ∧ verified (cached, s).1 (cached, s).2).
  remember ([], new sid) as p eqn:E. remember (cached, s) as p' eqn:E'. clear E'.
  assert (inv p.2 ∧ verified p.1 p.2) as Hs by (subst; split; [apply new_inv|by intros u name]).
  clear E. induction Hr; eauto using stream_step_inv.
Qed.
End Reach.

(** ** Theorems *)

(** Whatever operations run, in whatever order, with whatever data: no two
    username events ever claim the same checksum, a user never has two events,
    and a claimed checksum is never reported available. *)
Theorem usernames_exclusive `{EthLib} sid s :
  rtc step (new sid) s →
  ∀ e1 e2 v1 v2, usernameEvents s !! e1 = Some v1 → usernameEvents s !! e2 = Some v2 →
    (ue_checksum v1 = ue_checksum v2 ∨ ue_userId v1 = ue_userId v2 → e1 = e2)
    ∧ usernameAvailable (ue_checksum v1) s = false.
Proof.
  intros Hwf%reach_wf e1 e2 v1 v2 H1 H2. split.
  - intros [Hc|Hu]; [by eapply wf_unique|].
    pose proof (wf_current _ Hwf _ _ H1). pose proof (wf_current _ Hwf _ _ H2). congruence.
  - unfold usernameAvailable. apply bool_decide_eq_false.
    intros Hn. by eapply Hn, wf_claimed.
Qed.

(** [addEncryptedData] refines one abstract map from users to the checksum
    they claim. A claim with a non-empty checksum that nobody holds becomes the
    claim of its user, replacing the user's old one and leaving all others;
    every other claim (no checksum, or one that is taken, also by the same
    user) changes nothing and emits nothing. A checksum is reported available
    exactly when no user claims it, so a replaced name is free again. *)
Theorem addEncryptedData_refines_claims e data u pending ct enc st s :
  inv s → e ≠ "" → usernameEvents s !! e = None →
  let m := addEncryptedData e data u pending ct enc st in
  res m s = Ok tt ∧ inv (post m s)
  ∧ (∀ c, usernameAvailable c (post m s) = true ↔ ∀ u', claim_of (post m s) u' ≠ Some c)
  ∧ (∀ c, ed_checksum data = Some c → c ≠ "" → (∀ u', claim_of s u' ≠ Some c) →
       ∀ u', claim_of (post m s) u' = if String.eqb u' u then Some c else claim_of s u')
  ∧ (∀ c u', ed_checksum data = Some c → claim_of s u' = Some c → post m s = s ∧ out m s = [])
  ∧ (ed_checksum data = None ∨ ed_checksum data = Some "" → post m s = s ∧ out m s = []).
Proof.
  intros Hs He Hf. cbv zeta. pose proof (add_inv e data u pending ct enc st s Hs He Hf) as Hi. split_and!.
  - destruct (accepted data s) eqn:Ha; [by eapply add_accepted; [apply inv_wf|]|by apply add_rejected].
  - done.
  - intros c. by apply available_spec.
  - intros c Hd Hc Hn u'. apply (available_spec c s Hs) in Hn.
    assert (accepted data s = Some c) as Ha.
    { unfold accepted. rewrite Hd. simpl. unfold truthy_str. apply String.eqb_neq in Hc.
      by rewrite Hc, Hn. }
    destruct (add_accepted e data u pending ct enc st s c (inv_wf _ Hs) Ha) as [Hsc _].
    rewrite (same_claims_claim _ _ u' Hsc). by apply claim_of_claimed.
  - intros c u' Hd Hc. apply and_comm. apply add_rejected_strong. unfold accepted.
    rewrite Hd. simpl. destruct (usernameAvailable c s) eqn:Ha; [|by rewrite andb_false_r].
    by apply (available_spec c s Hs) with (u := u') in Ha.
  - intros [Hd|Hd]; apply and_comm, add_rejected_strong; unfold accepted; by rewrite Hd.
Qed.

(** C7. Usernames are checked. In every state reached from the events of the
    stream, each event added once, in any interleaving of new events,
    confirmations and decryptions, a name that is shown hashes to the checksum
    its user claims, unless it came from the cache of cleartexts with the user's
    current event. So two different users are shown names that are equal up to
    case only if the cache gave one of the two a name that is not the claimed
    one. *)
Theorem usernames_no_impersonation `{EthLib} sid cached s u1 u2 name1 name2 :
  rtc stream_step ([], new sid) (cached, s) →
  plaintextUsernames s !! u1 = Some name1 → plaintextUsernames s !! u2 = Some name2 →
  (claim_of s u1 = Some (usernameChecksum name1 (streamId s)) ∨ from_cache cached s u1 name1)
  ∧ (text_toLowerCase name1 = text_toLowerCase name2 → u1 ≠ u2 →
     ∃ u name, (u = u1 ∧ name = name1 ∨ u = u2 ∧ name = name2)
       ∧ from_cache cached s u name ∧ claim_of s u ≠ Some (usernameChecksum name (streamId s))).
Proof.
  intros [Hs Hv]%stream_reach_inv H1 H2. split; [by apply Hv|]. intros Hl Hne.
  assert (usernameChecksum name1 (streamId s) = usernameChecksum name2 (streamId s)) as Hc
    by (unfold usernameChecksum; by rewrite Hl).
  destruct (decide (claim_of s u1 = Some (usernameChecksum name1 (streamId s)))) as [C1|C1].
  - exists u2, name2. assert (C2 : claim_of s u2 ≠ Some (usernameChecksum name2 (streamId s))).
    { rewrite <- Hc. intros C2. by apply Hne, (claim_unique s u1 u2 _ Hs C1). }
    split_and!; [auto| |done]. by destruct (Hv _ _ H2).
  - exists u1, name1. split_and!; [auto| |done]. by destruct (Hv _ _ H1).
Qed.

(** ** The hypotheses can be met *)
Module UsernamesWitness.
Import ModelEth.

Definition data (name : string) : EncryptedData := {|
  ed_ciphertext := ""; ed_algorithm := ""; ed_senderKey := ""; ed_sessionId := "";
  ed_checksum := Some (usernameChecksum name "s"); ed_refEventId := None;
  ed_ciphertextBytes := []; ed_ivBytes := []; ed_sessionIdBytes := [];
  ed_version := ENCRYPTED_DATA_VERSION_0 |}.

Definition s1 := post (addEncryptedData "e1" (data "Ann") "ann" true None true true) (new "s").
Definition s2 := post (addEncryptedData "e2" (data "bob") "bob" true None true true) s1.
Definition s3 := post (onDecryptedContent "e1" "Ann" true) s2.

Lemma s1_inv : inv s1.
Proof. apply add_inv; [apply new_inv|done|reflexivity]. Qed.

Lemma usernames_exclusive_witness :
  let v1 := {| ue_checksum := usernameChecksum "Ann" "s"; ue_userId := "ann"; ue_pending := true |} in
  let v2 := {| ue_checksum := usernameChecksum "bob" "s"; ue_userId := "bob"; ue_pending := true |} in
  (ue_checksum v1 = ue_checksum v2 ∨ ue_userId v1 = ue_userId v2 → "e1" = "e2")
  ∧ usernameAvailable (ue_checksum v1) s2 = false.
Proof.
  apply (usernames_exclusive "s" s2).
  - apply (rtc_l _ _ s1); [by apply step_add|]. apply (rtc_l _ _ s2); [by apply step_add|].
    apply rtc_refl.
  - vm_compute. reflexivity.
  - vm_compute. reflexivity.
Defined.

Lemma addEncryptedData_refines_claims_witness :
  claim_of (post (addEncryptedData "e2" (data "bob") "bob" true None true true) s1) "bob"
  = Some (usernameChecksum "bob" "s").
Proof.
  destruct (addEncryptedData_refines_claims "e2" (data "bob") "bob" true None true true s1)
    as (_ & _ & _ & H & _); [apply s1_inv|done|vm_compute; reflexivity|].
  rewrite (H (usernameChecksum "bob" "s")); [reflexivity|reflexivity|done|].
  apply (available_spec _ _ s1_inv). vm_compute. reflexivity.
Defined.

Lemma usernames_no_impersonation_witness :
  claim_of s3 "ann" = Some (usernameChecksum "Ann" (streamId s3)) ∨ from_cache [] s3 "ann" "Ann".
Proof.
  apply (usernames_no_impersonation "s" [] s3 "ann" "ann" "Ann" "Ann").
  - apply (rtc_l _ _ ([], s1)); [apply (sstep_add "e1" (data "Ann") "ann" true None); [done|reflexivity]|].
    apply (rtc_l _ _ ([], s2)); [apply (sstep_add "e2" (data "bob") "bob" true None); [done|vm_compute; reflexivity]|].
    apply (rtc_l _ _ ([], s3)); [apply sstep_decrypted|]. apply rtc_refl.
  - vm_compute. reflexivity.
  - vm_compute. reflexivity.
Defined.

(** Bob claims a checksum of his own and encrypts Ann's name. The name is refused
    when it is decrypted, but the cleartext is in the cache by then, and when the
    stream is loaded again it is shown as Bob's. *)
Definition s4 := post (onDecryptedContent "e2" "Ann" true) s2.
Definition s5 := post (addEncryptedData "e2" (data "bob") "bob" true (Some (CText "Ann")) true true) s1.
Lemma cached_name_unchecked :
  plaintextUsernames s4 !! "bob" = None
  ∧ plaintextUsernames (post (onDecryptedContent "e1" "Ann" true) s5) = <["ann" := "Ann"]> {["bob" := "Ann"]}.
Proof. split; vm_compute; reflexivity. Qed.
End UsernamesWitness.
