(* ===== verification/DisplayNames.v ===== *)
(** * DisplayNames: the display names of a stream's members
    (sdk/src/memberMetadata_DisplayNames.ts)

    Display names need not be unique; what is bounded is how many of them are
    handed to the decryption queue. *)

From S2P Require Import Prelude JsLib Ids Proto Types TimelineTypes StreamEvents.

Definition MAX_DECRYPTED_NAMES_PER_STREAM : Z := 50.

Record DisplayNameEvent := { dne_userId : string; dne_pending : bool }.

Record DisplayNames := {
  decryptionDispatchCount : Z;
  streamId : string;
  userIdToEventId : gmap string string;
  plaintextDisplayNames : gmap string string;
  displayNameEvents : gmap string DisplayNameEvent;
}.
#[export] Instance eta_DisplayNames : Eta DisplayNames := λ r,
  Build_DisplayNames (decryptionDispatchCount r) (streamId r) (userIdToEventId r)
    (plaintextDisplayNames r) (displayNameEvents r).

Definition new (streamId : string) : DisplayNames := {|
  decryptionDispatchCount := 0;
  streamId := streamId;
  userIdToEventId := ∅;
  plaintextDisplayNames := ∅;
  displayNameEvents := ∅;
|}.

Abbreviation DM := (M Emit DisplayNames).

Definition emitDisplayNameUpdated (eventId : string) (emitter : bool) : DM unit :=
  this ← getM;
  match displayNameEvents this !! eventId with
  | None => mret tt
  | Some event =>
      if negb (isDefined (plaintextDisplayNames this !! dne_userId event)) then mret tt
      else emit emitter
             (if dne_pending event
              then streamPendingDisplayNameUpdated (streamId this) (dne_userId event)
              else streamDisplayNameUpdated (streamId this) (dne_userId event))
  end.

Definition removeEventForUserId (userId : string) : DM unit :=
  this ← getM;
  match userIdToEventId this !! userId with
  | None => mret tt
  | Some eventId =>
      if negb (truthy_str eventId) then mret tt
      else match displayNameEvents this !! eventId with
           | None => mret tt
           | Some _ => modify (λ s, s <| displayNameEvents ::= delete eventId |>)
           end
  end.

Definition addEventForUserId (userId eventId : string) (pending : bool) : DM unit :=
  _ ← modify (λ s, s <| userIdToEventId ::= <[userId := eventId]> |>);
  modify (λ s, s <| displayNameEvents ::=
    <[eventId := {| dne_userId := userId; dne_pending := pending |}]> |>).

Definition addEncryptedData (eventId : string) (encryptedData : EncryptedData) (userId : string)
    (pending : bool) (cleartext : option Cleartext) (encryptionEmitter stateEmitter : bool)
    : DM unit :=
  _ ← removeEventForUserId userId;
  _ ← addEventForUserId userId eventId pending;
  _ ← match truthy_cleartext cleartext with
      | Some cleartext =>
          modify (λ s, s <| plaintextDisplayNames ::= <[userId := cleartext_string cleartext]> |>)
      | None =>
          this ← getM;
          whenM (decryptionDispatchCount this <? MAX_DECRYPTED_NAMES_PER_STREAM)
            (_ ← modify (λ s, s <| decryptionDispatchCount ::= Z.add 1 |>);
             _ ← modify (λ s, s <| plaintextDisplayNames ::= delete userId |>);
             emit encryptionEmitter (newEncryptedContent (streamId this) eventId
               {| ec_kind := kind_text; ec_content := encryptedData |}))
      end;
  emitDisplayNameUpdated eventId stateEmitter.

Definition onConfirmEvent (eventId : string) (emitter : bool) : DM unit :=
  this ← getM;
  match displayNameEvents this !! eventId with
  | None => mret tt
  | Some event =>
      _ ← modify (λ s, s <| displayNameEvents ::=
            <[eventId := {| dne_userId := dne_userId event; dne_pending := false |}]> |>);
      whenM (isDefined (plaintextDisplayNames this !! dne_userId event))
        (emitDisplayNameUpdated eventId emitter)
  end.

Definition onDecryptedContent (eventId content : string) (emitter : bool) : DM unit :=
  this ← getM;
  match displayNameEvents this !! eventId with
  | None => mret tt
  | Some event =>
      _ ← modify (λ s, s <| plaintextDisplayNames ::= <[dne_userId event := content]> |>);
      emitDisplayNameUpdated eventId emitter
  end.

Record DisplayNameInfo := { di_displayName : string; di_displayNameEncrypted : bool }.

Definition info (userId : string) (this : DisplayNames) : DisplayNameInfo :=
  let displayName := default "" (plaintextDisplayNames this !! userId) in
  let displayNameEncrypted := negb (isDefined (plaintextDisplayNames this !! userId))
                              && isDefined (userIdToEventId this !! userId) in
  {| di_displayName := displayName; di_displayNameEncrypted := displayNameEncrypted |}.
