(* ===== verification/EnsAddresses.v ===== *)
(** * EnsAddresses: the ENS addresses of a stream's members
    (sdk/src/memberMetadata_EnsAddresses.ts) *)

From S2P Require Import Prelude JsLib Ids Proto Types TimelineTypes StreamEvents.

Record EnsAddressEvent := { ene_ensAddress : bytes; ene_userId : string; ene_pending : bool }.
#[export] Instance eta_EnsAddressEvent : Eta EnsAddressEvent := λ r,
  Build_EnsAddressEvent (ene_ensAddress r) (ene_userId r) (ene_pending r).

Record EnsAddresses := {
  streamId : string;
  userIdToEventId : gmap string string;
  confirmedEnsAddresses : gmap string string;
  ensAddressEvents : gmap string EnsAddressEvent;
}.
#[export] Instance eta_EnsAddresses : Eta EnsAddresses := λ r,
  Build_EnsAddresses (streamId r) (userIdToEventId r) (confirmedEnsAddresses r)
    (ensAddressEvents r).

Definition new (streamId : string) : EnsAddresses := {|
  streamId := streamId;
  userIdToEventId := ∅;
  confirmedEnsAddresses := ∅;
  ensAddressEvents := ∅;
|}.

Abbreviation EM := (M Emit EnsAddresses).

Section EnsAddresses.
Context `{EthLib}.

Definition emitEnsAddressUpdated (eventId : string) (emitter : bool) : EM unit :=
  this ← getM;
  match ensAddressEvents this !! eventId with
  | None => mret tt
  | Some event =>
      if ene_pending event then mret tt
      else emit emitter (streamEnsAddressUpdated (streamId this) (ene_userId event))
  end.

Definition removeEventForUserId (userId : string) : EM unit :=
  this ← getM;
  match userIdToEventId this !! userId with
  | None => mret tt
  | Some eventId =>
      if negb (truthy_str eventId) then mret tt
      else match ensAddressEvents this !! eventId with
           | None => mret tt
           | Some _ => modify (λ s, s <| ensAddressEvents ::= delete eventId |>)
           end
  end.

Definition addEventForUserId (userId eventId : string) (ensAddress : bytes) (pending : bool)
    : EM unit :=
  _ ← modify (λ s, s <| userIdToEventId ::= <[userId := eventId]> |>);
  modify (λ s, s <| ensAddressEvents ::=
    <[eventId := {| ene_ensAddress := ensAddress; ene_userId := userId;
                    ene_pending := pending |}]> |>).

(** The branch shared by [addEnsAddressEvent] and [onConfirmEvent]: an empty
    address clears the entry. *)
Definition setConfirmed (userId : string) (ensAddress : bytes) : EM unit :=
  if (0 <? length ensAddress)%nat then
    address ← liftR (userIdFromAddress ensAddress);
    modify (λ s, s <| confirmedEnsAddresses ::= <[userId := address]> |>)
  else modify (λ s, s <| confirmedEnsAddresses ::= delete userId |>).

Definition applySnapshot (ensAddresses : list (string * bytes)) : EM unit :=
  forM ensAddresses (λ '(userId, ensAddress),
    whenM (0 <? length ensAddress)%nat
      (address ← liftR (userIdFromAddress ensAddress);
       modify (λ s, s <| confirmedEnsAddresses ::= <[userId := address]> |>))).

Definition addEnsAddressEvent (eventId : string) (ensAddress : bytes) (userId : string)
    (pending stateEmitter : bool) : EM unit :=
  _ ← removeEventForUserId userId;
  _ ← whenM (negb pending) (setConfirmed userId ensAddress);
  _ ← addEventForUserId userId eventId ensAddress pending;
  emitEnsAddressUpdated eventId stateEmitter.

Definition onConfirmEvent (eventId : string) (emitter : bool) : EM unit :=
  this ← getM;
  match ensAddressEvents this !! eventId with
  | None => mret tt
  | Some event =>
      _ ← modify (λ s, s <| ensAddressEvents ::=
            <[eventId := event <| ene_pending := false |>]> |>);
      _ ← setConfirmed (ene_userId event) (ene_ensAddress event);
      emitEnsAddressUpdated eventId emitter
  end.

Definition info (userId : string) (this : EnsAddresses) : option string :=
  confirmedEnsAddresses this !! userId.
End EnsAddresses.
