(* ===== verification/Nfts.v ===== *)
(** * Nfts: the NFTs of a stream's members (sdk/src/memberMetadata_Nft.ts) *)

From S2P Require Import Prelude JsLib Ids Proto Types TimelineTypes StreamEvents.

Record NftEvent := { nfe_nft : MP_Nft; nfe_userId : string; nfe_pending : bool }.
#[export] Instance eta_NftEvent : Eta NftEvent := λ r,
  Build_NftEvent (nfe_nft r) (nfe_userId r) (nfe_pending r).

Record Nfts := {
  streamId : string;
  userIdToEventId : gmap string string;
  confirmedNfts : gmap string MP_Nft;
  nftEvents : gmap string NftEvent;
}.
#[export] Instance eta_Nfts : Eta Nfts := λ r,
  Build_Nfts (streamId r) (userIdToEventId r) (confirmedNfts r) (nftEvents r).

Definition new (streamId : string) : Nfts := {|
  streamId := streamId; userIdToEventId := ∅; confirmedNfts := ∅; nftEvents := ∅ |}.

Abbreviation NM := (M Emit Nfts).

Definition isValidNft (nft : MP_Nft) : bool :=
  (0 <? length (nft_tokenId nft))%nat && (0 <? length (nft_contractAddress nft))%nat
  && (0 <? nft_chainId nft).

Definition emitNftUpdated (eventId : string) (emitter : bool) : NM unit :=
  this ← getM;
  match nftEvents this !! eventId with
  | None => mret tt
  | Some event =>
      if nfe_pending event then mret tt
      else emit emitter (streamNftUpdated (streamId this) (nfe_userId event))
  end.

Definition removeEventForUserId (userId : string) : NM unit :=
  this ← getM;
  match userIdToEventId this !! userId with
  | None => mret tt
  | Some eventId =>
      if negb (truthy_str eventId) then mret tt
      else match nftEvents this !! eventId with
           | None => mret tt
           | Some _ => modify (λ s, s <| nftEvents ::= delete eventId |>)
           end
  end.

Definition addEventForUserId (userId eventId : string) (nft : MP_Nft) (pending : bool)
    : NM unit :=
  _ ← modify (λ s, s <| userIdToEventId ::= <[userId := eventId]> |>);
  modify (λ s, s <| nftEvents ::=
    <[eventId := {| nfe_nft := nft; nfe_userId := userId; nfe_pending := pending |}]> |>).

(** The branch shared by [addNftEvent] and [onConfirmEvent]: an invalid NFT
    clears the entry. *)
Definition setConfirmed (userId : string) (nft : MP_Nft) : NM unit :=
  if isValidNft nft
  then modify (λ s, s <| confirmedNfts ::= <[userId := nft]> |>)
  else modify (λ s, s <| confirmedNfts ::= delete userId |>).

Definition applySnapshot (nfts : list (string * MP_Nft)) : NM unit :=
  forM nfts (λ '(userId, nft),
    whenM (isValidNft nft) (modify (λ s, s <| confirmedNfts ::= <[userId := nft]> |>))).

Definition addNftEvent (eventId : string) (nft : MP_Nft) (userId : string)
    (pending stateEmitter : bool) : NM unit :=
  _ ← removeEventForUserId userId;
  _ ← whenM (negb pending) (setConfirmed userId nft);
  _ ← addEventForUserId userId eventId nft pending;
  emitNftUpdated eventId stateEmitter.

Definition onConfirmEvent (eventId : string) (emitter : bool) : NM unit :=
  this ← getM;
  match nftEvents this !! eventId with
  | None => mret tt
  | Some event =>
      _ ← modify (λ s, s <| nftEvents ::= <[eventId := event <| nfe_pending := false |>]> |>);
      _ ← setConfirmed (nfe_userId event) (nfe_nft event);
      emitNftUpdated eventId emitter
  end.

Record NftInfo := { ni_tokenId : string; ni_contractAddress : string; ni_chainId : Z }.

Definition info `{EthLib} (userId : string) (this : Nfts) : Res (option NftInfo) :=
  match confirmedNfts this !! userId with
  | None => Ok None
  | Some nft =>
      contractAddress ← userIdFromAddress (nft_contractAddress nft);
      Ok (Some {| ni_tokenId := bin_toString (nft_tokenId nft);
                  ni_contractAddress := contractAddress;
                  ni_chainId := nft_chainId nft |})
  end.
