(* ===== verification/MemberMetadata.v ===== *)
(** * MemberMetadata: names, ENS addresses and NFTs of the members
    (sdk/src/streamStateView_MemberMetadata.ts) *)

From S2P Require Import Prelude JsLib Ids Proto Types TimelineTypes StreamEvents.
From S2P Require Import Usernames DisplayNames EnsAddresses Nfts.

Record MemberMetadata := {
  usernames : Usernames.Usernames;
  displayNames : DisplayNames.DisplayNames;
  ensAddresses : EnsAddresses.EnsAddresses;
  nfts : Nfts.Nfts;
}.
#[export] Instance eta_MemberMetadata : Eta MemberMetadata := λ r,
  Build_MemberMetadata (usernames r) (displayNames r) (ensAddresses r) (nfts r).

Definition new (streamId : string) : MemberMetadata := {|
  usernames := Usernames.new streamId;
  displayNames := DisplayNames.new streamId;
  ensAddresses := EnsAddresses.new streamId;
  nfts := Nfts.new streamId;
|}.

Abbreviation MMd := (M Emit MemberMetadata).

(** Methods of the four parts, run on the whole. *)
Definition on_usernames {A} (m : M Emit Usernames.Usernames A) : MMd A :=
  zoom usernames (λ t s, s <| usernames := t |>) m.
Definition on_displayNames {A} (m : M Emit DisplayNames.DisplayNames A) : MMd A :=
  zoom displayNames (λ t s, s <| displayNames := t |>) m.
Definition on_ensAddresses {A} (m : M Emit EnsAddresses.EnsAddresses A) : MMd A :=
  zoom ensAddresses (λ t s, s <| ensAddresses := t |>) m.
Definition on_nfts {A} (m : M Emit Nfts.Nfts A) : MMd A :=
  zoom nfts (λ t s, s <| nfts := t |>) m.

Record NamePayload := { np_userId : string; np_wrappedEncryptedData : WrappedEncryptedData }.

Definition sortPayloads (payloads : list NamePayload) : list NamePayload :=
  stable_sort (λ a b, wed_eventNum (np_wrappedEncryptedData a)
                      <=? wed_eventNum (np_wrappedEncryptedData b)) payloads.

Section MemberMetadata.
Context `{EthLib}.

Definition applyUsername (cleartexts : Cleartexts) (encryptionEmitter : bool)
    (payload : NamePayload) : MMd unit :=
  match wed_data (np_wrappedEncryptedData payload) with
  | None => mret tt
  | Some data =>
      let eventId := bin_toHexString (wed_eventHash (np_wrappedEncryptedData payload)) in
      on_usernames (Usernames.addEncryptedData eventId data (np_userId payload) false
                      (cleartext_at cleartexts eventId) encryptionEmitter false)
  end.

Definition applyDisplayName (cleartexts : Cleartexts) (encryptionEmitter : bool)
    (payload : NamePayload) : MMd unit :=
  match wed_data (np_wrappedEncryptedData payload) with
  | None => mret tt
  | Some data =>
      let eventId := bin_toHexString (wed_eventHash (np_wrappedEncryptedData payload)) in
      on_displayNames (DisplayNames.addEncryptedData eventId data (np_userId payload) false
                         (cleartext_at cleartexts eventId) encryptionEmitter false)
  end.

Definition applySnapshot (usernames displayNames : list NamePayload)
    (ensAddresses : list (string * bytes)) (nfts : list (string * MP_Nft))
    (cleartexts : Cleartexts) (encryptionEmitter : bool) : MMd unit :=
  let sortedUsernames := sortPayloads usernames in
  _ ← forM sortedUsernames (applyUsername cleartexts encryptionEmitter);
  let sortedDisplayNames := sortPayloads displayNames in
  _ ← forM sortedDisplayNames (applyDisplayName cleartexts encryptionEmitter);
  _ ← on_ensAddresses (EnsAddresses.applySnapshot ensAddresses);
  on_nfts (Nfts.applySnapshot nfts).

Definition onConfirmedEvent (eventId : string) (stateEmitter : bool) : MMd unit :=
  _ ← on_usernames (Usernames.onConfirmEvent eventId stateEmitter);
  _ ← on_displayNames (DisplayNames.onConfirmEvent eventId stateEmitter);
  _ ← on_ensAddresses (EnsAddresses.onConfirmEvent eventId stateEmitter);
  on_nfts (Nfts.onConfirmEvent eventId stateEmitter).

Definition appendDisplayName (eventId : string) (data : EncryptedData) (userId : string)
    (cleartext : option Cleartext) (encryptionEmitter stateEmitter : bool) : MMd unit :=
  on_displayNames (DisplayNames.addEncryptedData eventId data userId true cleartext
                     encryptionEmitter stateEmitter).

Definition appendUsername (eventId : string) (data : EncryptedData) (userId : string)
    (cleartext : option Cleartext) (encryptionEmitter stateEmitter : bool) : MMd unit :=
  on_usernames (Usernames.addEncryptedData eventId data userId true cleartext
                  encryptionEmitter stateEmitter).

Definition appendEnsAddress (eventId : string) (EnsAddress : bytes) (userId : string)
    (stateEmitter : bool) : MMd unit :=
  on_ensAddresses (EnsAddresses.addEnsAddressEvent eventId EnsAddress userId true stateEmitter).

Definition appendNft (eventId : string) (nft : MP_Nft) (userId : string) (stateEmitter : bool)
    : MMd unit :=
  on_nfts (Nfts.addNftEvent eventId nft userId true stateEmitter).

Definition onDecryptedContent (eventId content : string) (emitter : bool) : MMd unit :=
  _ ← on_displayNames (DisplayNames.onDecryptedContent eventId content emitter);
  on_usernames (Usernames.onDecryptedContent eventId content emitter).

Record UserInfo := {
  info_username : UsernameInfo;
  info_displayName : DisplayNameInfo;
  info_ensAddress : option string;
  info_nft : option NftInfo;
}.

Definition userInfo (userId : string) (this : MemberMetadata) : Res UserInfo :=
  let usernameInfo := Usernames.info userId (usernames this) in
  let displayNameInfo := DisplayNames.info userId (displayNames this) in
  let ensAddress := EnsAddresses.info userId (ensAddresses this) in
  nft ← Nfts.info userId (nfts this);
  Ok {| info_username := usernameInfo; info_displayName := displayNameInfo;
        info_ensAddress := ensAddress; info_nft := nft |}.
End MemberMetadata.
