(* ===== verification/MemberMetadataFacts.v ===== *)
(** * MemberMetadataFacts: snapshots, display-name budget, confirmations *)

From Stdlib Require Import Strings.Byte.
From S2P Require Import Prelude JsLib Ids IdsFacts Proto Types TimelineTypes StreamEvents.
From S2P Require Import Usernames UsernamesFacts DisplayNames EnsAddresses Nfts MemberMetadata.

(** ** Usernames of a snapshot *)

Section Snapshot.
Context `{EthLib}.

Definition np_eventId (p : NamePayload) : string :=
  bin_toHexString (wed_eventHash (np_wrappedEncryptedData p)).
Definition np_eventNum (p : NamePayload) : Z := wed_eventNum (np_wrappedEncryptedData p).
(** The checksum a payload claims, if it claims one. *)
Definition np_checksum (p : NamePayload) : option string :=
  d ← wed_data (np_wrappedEncryptedData p); c ← ed_checksum d;
  if truthy_str c then Some c else None.

(** What the usernames of a snapshot must satisfy: one payload per user and per
    event, as the map of members and the hash give them. *)
Record good_payloads (l : list NamePayload) : Prop := {
  gp_users : NoDup (np_userId <$> l);
  gp_events : NoDup (np_eventId <$> l);
  gp_ids p : p ∈ l → np_eventId p ≠ "";
}.

(** [u] holds [c] after the payloads [l]: it claimed [c] first. *)
Definition first_claim (l : list NamePayload) (u c : string) : Prop :=
  ∃ i p, l !! i = Some p ∧ np_userId p = u ∧ np_checksum p = Some c ∧
    ∀ j p', (j < i)%nat → l !! j = Some p' → np_checksum p' ≠ Some c.

Lemma first_claim_snoc l x u c :
  first_claim (l ++ [x]) u c ↔
  first_claim l u c ∨
  (np_userId x = u ∧ np_checksum x = Some c ∧ ∀ p, p ∈ l → np_checksum p ≠ Some c).
Proof.
  unfold first_claim. split.
  - intros (i & p & Hi & Hu & Hc & Hf). rewrite lookup_app in Hi.
    destruct (l !! i) as [p'|] eqn:E; simplify_eq.
    + left. exists i, p. split_and!; try done. intros j p' Hj Hp'.
      apply (Hf j); [done|]. by rewrite lookup_app, Hp'.
    + right. apply list_lookup_singleton_Some in Hi as [Hi ->].
      split_and!; [done..|]. intros q Hq. apply list_elem_of_lookup in Hq as [j Hj].
      apply (Hf j); [|by rewrite lookup_app, Hj]. apply lookup_lt_Some in Hj.
      apply lookup_ge_None in E. lia.
  - intros [(i & p & Hi & Hu & Hc & Hf)|(Hu & Hc & Hf)].
    + exists i, p. pose proof (lookup_lt_Some _ _ _ Hi) as Hlt.
      split_and!; [by rewrite lookup_app, Hi|done..|]. intros j p' Hj Hp'.
      rewrite lookup_app_l in Hp' by lia. by apply (Hf j).
    + exists (length l), x. split_and!; [by rewrite list_lookup_middle|done..|].
      intros j p' Hj Hp'. rewrite lookup_app_l in Hp' by lia.
      by apply Hf, list_elem_of_lookup_2 with j.
Qed.

Lemma apply_step ct enc p s :
  usernames (post (applyUsername ct enc p) s) =
    match wed_data (np_wrappedEncryptedData p) with
    | Some d => post (Usernames.addEncryptedData (np_eventId p) d (np_userId p) false
                        (cleartext_at ct (np_eventId p)) enc false) (usernames s)
    | None => usernames s
    end
  ∧ res (applyUsername ct enc p) s =
    match wed_data (np_wrappedEncryptedData p) with
    | Some d => res (Usernames.addEncryptedData (np_eventId p) d (np_userId p) false
                        (cleartext_at ct (np_eventId p)) enc false) (usernames s)
    | None => Ok tt
    end.
Proof.
  unfold applyUsername, on_usernames. destruct (wed_data _); [|done]. by run.
Qed.

(** The events known to the state are those of the payloads. *)
Definition events_of (l : list NamePayload) (s : Usernames.Usernames) : Prop :=
  ∀ e v, Usernames.usernameEvents s !! e = Some v → e ∈ (np_eventId <$> l).

Lemma added_events e d u pending ct enc st s e' v :
  wf s →
  Usernames.usernameEvents (post (Usernames.addEncryptedData e d u pending ct enc st) s) !! e'
    = Some v → e' = e ∨ Usernames.usernameEvents s !! e' = Some v.
Proof.
  intros Hwf. destruct (accepted d s) as [c|] eqn:Ha.
  - destruct (add_accepted e d u pending ct enc st s c Hwf Ha) as [(_ & _ & ->) _].
    unfold claimed. simpl. rewrite lookup_insert_Some. intros [[-> _]|[_ Hv]]; [auto|].
    right. by eapply removed_claims.
  - destruct (add_rejected e d u pending ct enc st s Ha) as [-> _]. auto.
Qed.

Lemma first_claim_exists l p c :
  p ∈ l → np_checksum p = Some c → ∃ u, first_claim l u c.
Proof.
  revert p. induction l as [|x l IH] using rev_ind; intros p Hp Hc; [by apply not_elem_of_nil in Hp|].
  setoid_rewrite first_claim_snoc.
  destruct (findIndex (λ q, bool_decide (np_checksum q = Some c)) l) as [i|] eqn:E.
  - apply findIndex_Some in E as (q & Hq & Hb & _). apply bool_decide_eq_true in Hb.
    destruct (IH q) as [u Hu]; [by eapply list_elem_of_lookup_2|done|]. exists u. auto.
  - assert (∀ q, q ∈ l → np_checksum q ≠ Some c) as Hn.
    { intros q Hq. rewrite findIndex_None in E. by apply E, bool_decide_eq_false in Hq. }
    apply elem_of_app in Hp as [Hp|Hp%list_elem_of_singleton]; [by destruct (Hn p)|].
    subst. exists (np_userId x). auto.
Qed.

Lemma first_claim_user l u c : first_claim l u c → u ∈ (np_userId <$> l).
Proof.
  intros (i & p & Hi & <- & _). apply list_elem_of_fmap. exists p.
  split; [done|]. by eapply list_elem_of_lookup_2.
Qed.

(** The effect of one payload on the claims. *)
Lemma apply_claims ct enc l x s :
  good_payloads (l ++ [x]) → inv (usernames s) → events_of l (usernames s) →
  (∀ u c, claim_of (usernames s) u = Some c ↔ first_claim l u c) →
  let s' := post (applyUsername ct enc x) s in
  res (applyUsername ct enc x) s = Ok tt ∧ inv (usernames s')
  ∧ ∀ u c, claim_of (usernames s') u = Some c ↔ first_claim (l ++ [x]) u c.
Proof.
  intros [Hu He Hids] Hs Hev Hcl. destruct (apply_step ct enc x s) as [Hp Hr].
  cbv zeta. rewrite Hp, Hr. clear Hp Hr. setoid_rewrite first_claim_snoc.
  rewrite fmap_app in Hu, He. apply NoDup_app in Hu as (_ & Hu & _).
  apply NoDup_app in He as (_ & He & _).
  assert (np_userId x ∉ (np_userId <$> l)) as Hux by (intros Hx; apply (Hu _ Hx); by left).
  assert (Usernames.usernameEvents (usernames s) !! np_eventId x = None) as Hfresh.
  { apply eq_None_not_Some. intros [v Hv]. apply Hev in Hv. apply (He _ Hv). by left. }
  assert (np_eventId x ≠ "") as Hid by (apply Hids, elem_of_app; right; by left).
  unfold np_checksum. destruct (wed_data (np_wrappedEncryptedData x)) as [d|] eqn:Hd; simpl;
    [|split_and!; [done..|]; intros u c; rewrite <- Hcl; naive_solver].
  set (m := Usernames.addEncryptedData _ d _ _ _ _ _).
  destruct (ed_checksum d) as [c|] eqn:Hc; simpl.
  2: { destruct (add_rejected (np_eventId x) d (np_userId x) false
         (cleartext_at ct (np_eventId x)) enc false (usernames s)) as (Hp & Hr & _).
       { unfold accepted. by rewrite Hc. }
       fold m in Hp, Hr. rewrite Hp, Hr. split_and!; [done..|].
       intros u c; rewrite <- Hcl; naive_solver. }
  destruct (truthy_str c && usernameAvailable c (usernames s)) eqn:Ha.
  - destruct (add_accepted (np_eventId x) d (np_userId x) false
      (cleartext_at ct (np_eventId x)) enc false (usernames s) c (inv_wf _ Hs)) as (Hp & Hr).
    { unfold accepted. rewrite Hc. simpl. by rewrite Ha. }
    fold m in Hp, Hr. apply andb_true_iff in Ha as [Ht Ha]. rewrite Ht.
    split_and!; [done|by apply add_inv|]. intros u c'.
    rewrite (same_claims_claim _ _ u Hp), claim_of_claimed by done.
    pose proof (proj1 (available_spec c _ Hs) Ha) as Hfree.
    assert (∀ p, p ∈ l → np_checksum p ≠ Some c) as Hnone.
    { intros p Hpl Hpc. destruct (first_claim_exists l p c Hpl Hpc) as [u' Hu'%Hcl].
      by eapply Hfree. }
    destruct (String.eqb_spec u (np_userId x)) as [->|Hne].
    + split; [intros [= <-]; auto|]. intros [Hf|(_ & [= ->] & _)]; [|done].
      by apply first_claim_user in Hf.
    + rewrite Hcl. naive_solver.
  - destruct (add_rejected (np_eventId x) d (np_userId x) false
      (cleartext_at ct (np_eventId x)) enc false (usernames s)) as (Hp & Hr & _).
    { unfold accepted. rewrite Hc. simpl. by rewrite Ha. }
    fold m in Hp, Hr. rewrite Hp, Hr. split_and!; [done..|]. intros u c'. rewrite Hcl.
    split; [auto|]. intros [?|(<- & Hc' & Hn)]; [done|]. exfalso.
    destruct (truthy_str c); [|done]. simplify_eq. simpl in Ha.
    assert (usernameAvailable c' (usernames s) = true) as Hav; [|congruence].
    apply available_spec; [done|]. intros u' (i & p & Hi & _ & Hpc & _)%Hcl.
    eapply (Hn p); [by eapply list_elem_of_lookup_2|done].
Qed.

Lemma snapshot_claims ct enc sid l s :
  usernames s = Usernames.new sid → good_payloads l →
  let s' := post (forM l (applyUsername ct enc)) s in
  res (forM l (applyUsername ct enc)) s = Ok tt ∧ inv (usernames s')
  ∧ events_of l (usernames s')
  ∧ ∀ u c, claim_of (usernames s') u = Some c ↔ first_claim l u c.
Proof.
  intros Hs. induction l as [|x l IH] using rev_ind; intros Hg.
  { cbn [forM]. run. rewrite Hs. split_and!; [done|apply new_inv|by intros e v|].
    intros u c. split; [done|]. by intros (i & p & Hi & _). }
  destruct IH as (Hr & Hi & Hev & Hcl).
  { destruct Hg as [G1 G2 G3]. rewrite fmap_app in G1, G2. split.
    - by apply NoDup_app in G1 as (? & _ & _).
    - by apply NoDup_app in G2 as (? & _ & _).
    - intros p Hp. apply G3, elem_of_app. auto. }
  destruct (forM_snoc_ok l x (applyUsername ct enc) s Hr) as (Hp & Hr' & _).
  destruct (apply_claims ct enc l x _ Hg Hi Hev Hcl) as (H1 & H2 & H3).
  cbv zeta. rewrite Hp, Hr'. split_and!; [done..| |done].
  intros e v. rewrite (proj1 (apply_step ct enc x _)), fmap_app, elem_of_app.
  destruct (wed_data _); [|by intros ?%Hev; left].
  intros [->|?%Hev]%added_events; [|by left|by apply inv_wf]. right. by left.
Qed.

(** The rest of a snapshot leaves the usernames alone. *)
Lemma applySnapshot_usernames us ds es ns ct enc s :
  res (forM (sortPayloads us) (applyUsername ct enc)) s = Ok tt →
  usernames (post (applySnapshot us ds es ns ct enc) s) =
  usernames (post (forM (sortPayloads us) (applyUsername ct enc)) s).
Proof.
  intros Hr. unfold applySnapshot. cbv zeta. rewrite (post_bind_ok _ _ tt) by done.
  set (s1 := post (forM _ _) s). set (m := forM (sortPayloads ds) _ ≫= _).
  enough (pres (λ t, usernames t = usernames s1) m) as Hm by by apply Hm. subst m.
  apply pres_bind; [apply pres_forM; intros p _|intros _; apply pres_bind; [|intros _]].
  - unfold applyDisplayName. destruct (wed_data _); [|apply pres_ret].
    intros t Ht. unfold on_displayNames. by rewrite post_zoom.
  - intros t Ht. unfold on_ensAddresses. by rewrite post_zoom.
  - intros t Ht. unfold on_nfts. by rewrite post_zoom.
Qed.

Lemma sortPayloads_Permutation l : sortPayloads l ≡ₚ l.
Proof. apply stable_sort_Permutation. Qed.

Lemma sortPayloads_good l : good_payloads l → good_payloads (sortPayloads l).
Proof.
  intros [G1 G2 G3]. split.
  - by rewrite (sortPayloads_Permutation l).
  - by rewrite (sortPayloads_Permutation l).
  - intros p. rewrite (sortPayloads_Permutation l). apply G3.
Qed.

Lemma sortPayloads_le l i j p q :
  (i <= j)%nat → sortPayloads l !! i = Some p → sortPayloads l !! j = Some q →
  np_eventNum p <= np_eventNum q.
Proof. apply stable_sort_key_le. Qed.
End Snapshot.

(** ** The budget of display names *)

Inductive DisplayOp :=
  | DO_add (eventId : string) (data : EncryptedData) (userId : string) (pending : bool)
      (cleartext : option Cleartext) (encryptionEmitter stateEmitter : bool)
  | DO_confirm (eventId : string) (emitter : bool)
  | DO_decrypted (eventId content : string) (emitter : bool).

Definition exec_display (op : DisplayOp) : M Emit DisplayNames.DisplayNames unit :=
  match op with
  | DO_add e d u pending ct enc st => DisplayNames.addEncryptedData e d u pending ct enc st
  | DO_confirm e b => DisplayNames.onConfirmEvent e b
  | DO_decrypted e content b => DisplayNames.onDecryptedContent e content b
  end.

Definition is_dispatch (o : Emit) : bool :=
  match o with newEncryptedContent _ _ _ => true | _ => false end.
Definition dispatches (l : list Emit) : Z := Z.of_nat (length (List.filter is_dispatch l)).

Lemma dispatches_app l1 l2 : dispatches (l1 ++ l2) = dispatches l1 + dispatches l2.
Proof. unfold dispatches. rewrite List.filter_app, length_app. lia. Qed.

Abbreviation dcount := DisplayNames.decryptionDispatchCount.

(** A method stays within the budget: it counts what it dispatches. *)
Definition budgeted (m : M Emit DisplayNames.DisplayNames unit) : Prop :=
  ∀ s, dcount s <= MAX_DECRYPTED_NAMES_PER_STREAM →
    res m s = Ok tt ∧ dcount (post m s) <= MAX_DECRYPTED_NAMES_PER_STREAM ∧
    dispatches (out m s) <= dcount (post m s) - dcount s.

Lemma budgeted_bind m1 m2 : budgeted m1 → budgeted m2 → budgeted (m1 ≫= λ _, m2).
Proof.
  intros H1 H2 s Hs. destruct (H1 s Hs) as (R1 & B1 & D1). destruct (H2 _ B1) as (R2 & B2 & D2).
  rewrite (res_bind_ok _ _ tt), (post_bind_ok _ _ tt), (out_bind_ok _ _ tt), dispatches_app by done.
  split_and!; [done..|lia].
Qed.

Lemma budgeted_getM k : (∀ t, budgeted (k t)) → budgeted (getM ≫= k).
Proof. intros Hk s Hs. run. by apply Hk. Qed.

Lemma budgeted_modify f : (∀ s, dcount (f s) = dcount s) → budgeted (modify f).
Proof. intros Hf s Hs. run. rewrite Hf. split_and!; try done. unfold dispatches. simpl. lia. Qed.

Lemma budgeted_ret : budgeted (mret tt).
Proof. intros s Hs. run. unfold dispatches. simpl. split_and!; (done || lia). Qed.

Lemma budgeted_emit b o : is_dispatch o = false → budgeted (emit b o).
Proof.
  intros Ho s Hs. run. unfold dispatches. split_and!; [done..|].
  destruct b; simpl; rewrite ?Ho; simpl; lia.
Qed.

Lemma budgeted_emitUpdated e b : budgeted (DisplayNames.emitDisplayNameUpdated e b).
Proof.
  apply budgeted_getM. intros t. case_match; [|apply budgeted_ret].
  case_match; [apply budgeted_ret|]. apply budgeted_emit. by case_match.
Qed.

Lemma budgeted_add e d u pending ct enc st :
  budgeted (DisplayNames.addEncryptedData e d u pending ct enc st).
Proof.
  unfold DisplayNames.addEncryptedData. apply budgeted_bind.
  { apply budgeted_getM. intros t.
    repeat case_match; (apply budgeted_ret || by apply budgeted_modify). }
  apply budgeted_bind; [by apply budgeted_bind; apply budgeted_modify|].
  apply budgeted_bind; [|apply budgeted_emitUpdated].
  destruct (truthy_cleartext ct); [by apply budgeted_modify|].
  intros s Hs. run. unfold whenM.
  destruct (Z.ltb_spec (dcount s) MAX_DECRYPTED_NAMES_PER_STREAM); [|by apply budgeted_ret].
  run. unfold dispatches. cbn [over decryptionDispatchCount]. split_and!; [done|lia|].
  destruct enc; simpl; lia.
Qed.

Lemma budgeted_exec op : budgeted (exec_display op).
Proof.
  destruct op as [| e b | e content b]; cbn [exec_display]; [apply budgeted_add|..];
    apply budgeted_getM; intros t; (case_match; [|apply budgeted_ret]);
    (apply budgeted_bind; [by apply budgeted_modify|]).
  - unfold whenM. case_match; [apply budgeted_emitUpdated|apply budgeted_ret].
  - apply budgeted_emitUpdated.
Qed.

Lemma budgeted_forM ops : budgeted (forM ops exec_display).
Proof.
  induction ops; cbn [forM]; [apply budgeted_ret|]. by apply budgeted_bind; [apply budgeted_exec|].
Qed.

(** ** Confirmed metadata *)

Section Confirmed.
Context `{EthLib}.

Lemma usernames_confirm_ok e b s : res (Usernames.onConfirmEvent e b) s = Ok tt.
Proof.
  unfold Usernames.onConfirmEvent. run. case_match; [|done]. run. unfold whenM.
  case_match; run; [|done]. apply emit_post.
Qed.

Lemma displayNames_confirm_ok e b s : res (DisplayNames.onConfirmEvent e b) s = Ok tt.
Proof.
  unfold DisplayNames.onConfirmEvent. run. case_match; [|done]. run. unfold whenM.
  case_match; run; [|done]. unfold DisplayNames.emitDisplayNameUpdated. run.
  by repeat case_match.
Qed.

(** What a confirmed address shows: the empty address clears it. *)
Definition ens_view (addr : bytes) : Res (option string) :=
  if (0 <? length addr)%nat then a ← userIdFromAddress addr; Ok (Some a) else Ok None.

Lemma ens_add_pending e addr u st s :
  let m := EnsAddresses.addEnsAddressEvent e addr u true st in
  res m s = Ok tt ∧ out m s = []
  ∧ confirmedEnsAddresses (post m s) = confirmedEnsAddresses s
  ∧ ensAddressEvents (post m s) !! e
    = Some {| ene_ensAddress := addr; ene_userId := u; ene_pending := true |}.
Proof.
  unfold EnsAddresses.addEnsAddressEvent, EnsAddresses.removeEventForUserId,
    EnsAddresses.addEventForUserId, EnsAddresses.emitEnsAddressUpdated.
  cbv zeta. run. cbn [whenM].
  destruct (EnsAddresses.userIdToEventId s !! u) as [e'|];
    [destruct (truthy_str e'); [destruct (ensAddressEvents s !! e')|]|];
    run; simpl; rewrite lookup_insert_eq; simpl; run; simpl;
    by rewrite lookup_insert_eq.
Qed.

Lemma ens_confirm e ev v b s :
  ensAddressEvents s !! e = Some ev → ens_view (ene_ensAddress ev) = Ok v →
  let m := EnsAddresses.onConfirmEvent e b in
  res m s = Ok tt
  ∧ out m s = (if b then [streamEnsAddressUpdated (EnsAddresses.streamId s) (ene_userId ev)] else [])
  ∧ ∀ u, confirmedEnsAddresses (post m s) !! u
         = if String.eqb u (ene_userId ev) then v else confirmedEnsAddresses s !! u.
Proof.
  intros He Hv. unfold EnsAddresses.onConfirmEvent, EnsAddresses.setConfirmed,
    EnsAddresses.emitEnsAddressUpdated. cbv zeta. run. rewrite He. run.
  unfold ens_view in Hv. destruct (0 <? length (ene_ensAddress ev))%nat.
  - destruct (userIdFromAddress (ene_ensAddress ev)) as [a|] eqn:Ha; [|done].
    injection Hv as <-. run. simpl. rewrite lookup_insert_eq. simpl. run. split_and!; [done..|]. intros u. simpl.
    destruct (String.eqb_spec u (ene_userId ev)) as [->|Hne];
      [by rewrite lookup_insert_eq|by rewrite lookup_insert_ne].
  - injection Hv as <-. run. simpl. rewrite lookup_insert_eq. simpl. run. split_and!; [done..|].
    intros u. simpl. destruct (String.eqb_spec u (ene_userId ev)) as [->|Hne];
      [by rewrite lookup_delete_eq|by rewrite lookup_delete_ne].
Qed.

Lemma nft_add_pending e nft u st s :
  let m := Nfts.addNftEvent e nft u true st in
  res m s = Ok tt ∧ out m s = []
  ∧ confirmedNfts (post m s) = confirmedNfts s
  ∧ nftEvents (post m s) !! e
    = Some {| nfe_nft := nft; nfe_userId := u; nfe_pending := true |}.
Proof.
  unfold Nfts.addNftEvent, Nfts.removeEventForUserId, Nfts.addEventForUserId,
    Nfts.emitNftUpdated. cbv zeta. run. cbn [whenM].
  destruct (Nfts.userIdToEventId s !! u) as [e'|];
    [destruct (truthy_str e'); [destruct (nftEvents s !! e')|]|];
    run; simpl; rewrite lookup_insert_eq; simpl; run; simpl;
    by rewrite lookup_insert_eq.
Qed.

Lemma nft_confirm e ev b s :
  nftEvents s !! e = Some ev →
  let m := Nfts.onConfirmEvent e b in
  res m s = Ok tt
  ∧ ∀ u, confirmedNfts (post m s) !! u
         = if String.eqb u (nfe_userId ev)
           then if isValidNft (nfe_nft ev) then Some (nfe_nft ev) else None
           else confirmedNfts s !! u.
Proof.
  intros He. unfold Nfts.onConfirmEvent, Nfts.setConfirmed, Nfts.emitNftUpdated.
  cbv zeta. run. rewrite He. run. destruct (isValidNft (nfe_nft ev)); run; simpl;
    rewrite lookup_insert_eq; simpl; run; simpl; (split; [done|]); intros u;
    destruct (String.eqb_spec u (nfe_userId ev)) as [->|Hne];
    by rewrite ?lookup_insert_eq, ?lookup_insert_ne, ?lookup_delete_eq, ?lookup_delete_ne.
Qed.

Lemma confirmed_parts e st s :
  res (EnsAddresses.onConfirmEvent e st) (ensAddresses s) = Ok tt →
  ensAddresses (post (onConfirmedEvent e st) s)
    = post (EnsAddresses.onConfirmEvent e st) (ensAddresses s)
  ∧ nfts (post (onConfirmedEvent e st) s) = post (Nfts.onConfirmEvent e st) (nfts s).
Proof.
  intros Hr. unfold onConfirmedEvent, on_usernames, on_displayNames, on_ensAddresses, on_nfts.
  rewrite (post_bind_ok _ _ tt) by (rewrite res_zoom; apply usernames_confirm_ok).
  rewrite (post_bind_ok _ _ tt) by (rewrite res_zoom; apply displayNames_confirm_ok).
  rewrite (post_bind_ok _ _ tt) by (rewrite res_zoom, !post_zoom; exact Hr).
  by rewrite !post_zoom.
Qed.
End Confirmed.

(** ** Theorems *)

(** First come, first served: after a snapshot is applied to a new view,
    a member whose claim on a username precedes (by event number) every other
    member's claim on it holds the name, and a member who claimed a name after
    somebody else holds no name at all, whatever the order in which the
    snapshot lists the members. *)
Theorem snapshot_first_claim_wins `{EthLib} sid us ds es ns ct enc p c :
  good_payloads us → p ∈ us → np_checksum p = Some c →
  let s := post (applySnapshot us ds es ns ct enc) (new sid) in
  ((∀ q, q ∈ us → np_checksum q = Some c → q = p ∨ np_eventNum p < np_eventNum q) →
     claim_of (usernames s) (np_userId p) = Some c) ∧
  ((∃ q, q ∈ us ∧ np_checksum q = Some c ∧ np_eventNum q < np_eventNum p) →
     claim_of (usernames s) (np_userId p) = None).
Proof.
  intros Hg Hp Hc. cbv zeta.
  destruct (snapshot_claims ct enc sid (sortPayloads us) (new sid) eq_refl
              (sortPayloads_good _ Hg)) as (Hr & _ & _ & Hcl).
  rewrite applySnapshot_usernames by done.
  rewrite <- (sortPayloads_Permutation us) in Hp.
  apply list_elem_of_lookup in Hp as [i Hi]. split.
  - intros Hfirst. apply Hcl. exists i, p. split_and!; [done..|].
    intros j q Hj Hq Hqc. destruct (Hfirst q) as [->|Hlt]; [|done|..].
    + rewrite <- (sortPayloads_Permutation us). by eapply list_elem_of_lookup_2.
    + pose proof (NoDup_fmap_1 _ _ (gp_users _ (sortPayloads_good _ Hg))) as Hnd.
      pose proof (NoDup_lookup _ _ _ _ Hnd Hi Hq). lia.
    + pose proof (sortPayloads_le us j i q p ltac:(lia) Hq Hi). lia.
  - intros (q & Hq & Hqc & Hlt).
    rewrite <- (sortPayloads_Permutation us) in Hq. apply list_elem_of_lookup in Hq as [j Hj].
    destruct (claim_of _ _) as [c'|] eqn:E; [|done]. apply Hcl in E as (k & r & Hk & Hu & Hrc & Hf).
    pose proof (gp_users _ (sortPayloads_good _ Hg)) as Hnd.
    assert (k = i) as ->.
    { eapply NoDup_lookup; [exact Hnd|..]; rewrite list_lookup_fmap; [rewrite Hk|rewrite Hi]; simpl;
        [by rewrite Hu|done]. }
    assert (r = p) as -> by congruence. assert (c' = c) as -> by congruence.
    destruct (decide (j < i)%nat) as [Hji|Hji]; [by destruct (Hf j q Hji Hj)|].
    pose proof (sortPayloads_le us i j p q ltac:(lia) Hi Hj). lia.
Qed.

(** However many display names a stream receives, in whatever order they
    are added, confirmed and decrypted, at most
    [MAX_DECRYPTED_NAMES_PER_STREAM] of them are handed to the decryption
    queue, and no operation throws. *)
Theorem display_name_dispatch_bounded sid ops :
  let m := forM ops exec_display in
  res m (DisplayNames.new sid) = Ok tt
  ∧ dispatches (out m (DisplayNames.new sid)) <= MAX_DECRYPTED_NAMES_PER_STREAM.
Proof.
  destruct (budgeted_forM ops (DisplayNames.new sid)) as (Hr & Hb & Hd); [done|].
  cbv zeta. split; [done|]. simpl in Hd. lia.
Qed.

(** Pending ENS addresses are invisible and confirmed ones visible: adding
    an address event changes nobody's address and emits nothing; once the event
    is confirmed its author shows the checksummed address (or none, for an
    empty one), everybody else what they showed before, and one update is
    emitted. *)
Theorem ens_address_confirmed `{EthLib} e addr u st s v :
  ens_view addr = Ok v →
  let s1 := post (appendEnsAddress e addr u st) s in
  let s2 := post (onConfirmedEvent e st) s1 in
  out (appendEnsAddress e addr u st) s = []
  ∧ (∀ u', EnsAddresses.info u' (ensAddresses s1) = EnsAddresses.info u' (ensAddresses s))
  ∧ (∀ u', EnsAddresses.info u' (ensAddresses s2)
           = if String.eqb u' u then v else EnsAddresses.info u' (ensAddresses s)).
Proof.
  intros Hv. cbv zeta. unfold appendEnsAddress, on_ensAddresses at 1 2 3. run.
  destruct (ens_add_pending e addr u st (ensAddresses s)) as (_ & Ho & Hc & He).
  split_and!; [done| |].
  - intros u'. unfold EnsAddresses.info. simpl. by rewrite Hc.
  - intros u'. unfold EnsAddresses.info.
    destruct (ens_confirm e _ v st _ He Hv) as (Hr & _ & Hi).
    edestruct (confirmed_parts e st) as [-> _]; [exact Hr|]. simpl in Hi |- *.
    by rewrite Hi, Hc.
Qed.

(** Likewise for NFTs: a pending NFT changes nobody's NFT; after its
    confirmation its author shows it if it has a token, a contract and a
    positive chain id and shows none otherwise, and everybody else's NFT is
    unchanged. *)
Theorem nft_confirmed `{EthLib} e nft u st s :
  ensAddressEvents (ensAddresses s) !! e = None →
  let s1 := post (appendNft e nft u st) s in
  let s2 := post (onConfirmedEvent e st) s1 in
  out (appendNft e nft u st) s = []
  ∧ (∀ u', confirmedNfts (nfts s1) !! u' = confirmedNfts (nfts s) !! u')
  ∧ (∀ u', confirmedNfts (nfts s2) !! u'
           = if String.eqb u' u then if isValidNft nft then Some nft else None
             else confirmedNfts (nfts s) !! u').
Proof.
  intros Hens. cbv zeta. unfold appendNft, on_nfts at 1 2 3. run.
  destruct (nft_add_pending e nft u st (nfts s)) as (_ & Ho & Hc & He).
  split_and!; [done| |].
  - intros u'. simpl. by rewrite Hc.
  - intros u'. destruct (nft_confirm e _ st _ He) as (_ & Hi).
    edestruct (confirmed_parts e st) as [_ ->].
    { simpl. unfold EnsAddresses.onConfirmEvent. run. by rewrite Hens. }
    simpl in Hi |- *. by rewrite Hi, Hc.
Qed.

(** Past the budget the old display name of a user stays on show, as not
    encrypted, although the user has set a new one. *)
Lemma display_name_stale e d u pending enc st s name :
  dcount s = MAX_DECRYPTED_NAMES_PER_STREAM → plaintextDisplayNames s !! u = Some name →
  DisplayNames.info u (post (DisplayNames.addEncryptedData e d u pending None enc st) s)
  = {| di_displayName := name; di_displayNameEncrypted := false |}.
Proof.
  intros Hc Hn. set (m := DisplayNames.addEncryptedData _ _ _ _ _ _ _).
  assert (plaintextDisplayNames (post m s) = plaintextDisplayNames s) as E.
  { subst m. unfold DisplayNames.addEncryptedData, DisplayNames.removeEventForUserId,
      DisplayNames.addEventForUserId, DisplayNames.emitDisplayNameUpdated.
    cbn [truthy_cleartext]. run.
    destruct (DisplayNames.userIdToEventId s !! u) as [e'|];
      [destruct (truthy_str e'); [destruct (displayNameEvents s !! e')|]|];
      run; simpl; rewrite Hc; unfold whenM; rewrite Z.ltb_irrefl; run; simpl;
      rewrite lookup_insert_eq; simpl; rewrite Hn; by run. }
  unfold DisplayNames.info. by rewrite E, Hn.
Qed.

(** ** The hypotheses can be met *)
Module MetadataWitness.
Import ModelEth.

Definition wrapped (name : string) (num : Z) (hash : bytes) : WrappedEncryptedData := {|
  wed_data := Some (UsernamesWitness.data name); wed_eventNum := num; wed_eventHash := hash |}.
Definition ann := {| np_userId := "ann"; np_wrappedEncryptedData := wrapped "Neo" 7 [x01] |}.
Definition bob := {| np_userId := "bob"; np_wrappedEncryptedData := wrapped "neo" 3 [x02] |}.

Lemma good : good_payloads [ann; bob].
Proof.
  split; [| |intros p Hp]; [apply (bool_decide_unpack _); vm_compute; exact I..|].
  rewrite !elem_of_cons in Hp. destruct Hp as [->|[->|Hp]]; [done..|].
  by apply not_elem_of_nil in Hp.
Qed.

Lemma snapshot_first_claim_wins_witness :
  let s := post (applySnapshot [ann; bob] [] [] [] None true) (new "s") in
  claim_of (usernames s) "ann" = None.
Proof.
  destruct (snapshot_first_claim_wins "s" [ann; bob] [] [] [] None true ann
              (usernameChecksum "neo" "s")) as [_ H];
    [exact good|by left|reflexivity|].
  apply H. exists bob. split; [right; by left|]. split; [reflexivity|]. reflexivity.
Defined.

Lemma ens_address_confirmed_witness :
  let s1 := post (appendEnsAddress "e1" (replicate 20 x0a) "ann" true) (new "s") in
  EnsAddresses.info "ann" (ensAddresses (post (onConfirmedEvent "e1" true) s1))
  = Some "0x0a0a0a0a0a0a0a0a0a0a0a0a0a0a0a0a0a0a0a0a".
Proof.
  destruct (ens_address_confirmed "e1" (replicate 20 x0a) "ann" true (new "s")
              (Some "0x0a0a0a0a0a0a0a0a0a0a0a0a0a0a0a0a0a0a0a0a")) as (_ & _ & H);
    [vm_compute; reflexivity|].
  apply (H "ann").
Defined.

Definition nft1 := {| nft_chainId := 1; nft_contractAddress := [x01]; nft_tokenId := [x02] |}.

Lemma nft_confirmed_witness :
  let s1 := post (appendNft "e1" nft1 "ann" true) (new "s") in
  confirmedNfts (nfts (post (onConfirmedEvent "e1" true) s1)) !! "ann" = Some nft1.
Proof.
  destruct (nft_confirmed "e1" nft1 "ann" true (new "s")) as (_ & _ & H); [reflexivity|].
  apply (H "ann").
Defined.
End MetadataWitness.
