(* ===== verification/Solicitations.v ===== *)
(** * Solicitations: requests for session keys
    (sdk/src/streamStateView_Members_Solicitations.ts)

    The methods change a [StreamMember] of the caller; here they take the
    member's solicitations and return them. *)

From S2P Require Import Prelude JsLib Ids Proto Types TimelineTypes StreamEvents Utils.

Record Solicitations := {
  snapshotSigBundle : option EventSignatureBundle;
  snapshotEventId : option string;
  streamId : string;
}.
#[export] Instance eta_Solicitations : Eta Solicitations := λ r,
  Build_Solicitations (snapshotSigBundle r) (snapshotEventId r) (streamId r).

Definition new (streamId : string) : Solicitations :=
  {| snapshotSigBundle := None; snapshotEventId := None; streamId := streamId |}.

Abbreviation SoM := (M Emit Solicitations).

Definition initSolicitations (eventHashStr : string)
    (members : list (string * bytes * list KeySolicitationContent))
    (sigBundle : EventSignatureBundle) (encryptionEmitter : bool) : SoM unit :=
  _ ← modify (λ s, s <| snapshotSigBundle := Some sigBundle |>);
  _ ← modify (λ s, s <| snapshotEventId := Some eventHashStr |>);
  this ← getM;
  emit encryptionEmitter (initKeySolicitations (streamId this) eventHashStr members sigBundle).

Definition applySolicitation (userId : string) (userAddress : bytes)
    (solicitations : list KeySolicitationContent) (eventId : string)
    (solicitation : MP_KeySolicitation) (sigBundle : EventSignatureBundle)
    (encryptionEmitter : bool) : SoM (list KeySolicitationContent) :=
  let solicitations :=
    List.filter (λ x, negb (String.eqb (ksc_deviceKey x) (ks_deviceKey solicitation)))
      solicitations in
  let newSolicitation := {|
    ksc_deviceKey := ks_deviceKey solicitation;
    ksc_fallbackKey := ks_fallbackKey solicitation;
    ksc_isNewDevice := ks_isNewDevice solicitation;
    ksc_sessionIds := sort_strings (ks_sessionIds solicitation) |} in
  this ← getM;
  _ ← emit encryptionEmitter (newKeySolicitation (streamId this) eventId userId userAddress
                                newSolicitation sigBundle);
  mret (solicitations ++ [newSolicitation]).

Definition applyFulfillment (userId : string) (userAddress : bytes)
    (solicitations : list KeySolicitationContent) (fulfillment : MP_KeyFulfillment)
    (encryptionEmitter : bool) : SoM (list KeySolicitationContent) :=
  this ← getM;
  _ ← check (isDefined (snapshotSigBundle this)) "snapshotSigBundle not set" ERR_UNSPECIFIED;
  _ ← check (isDefined (snapshotEventId this)) "snapshotEventId not set" ERR_UNSPECIFIED;
  match findIndex (λ x, String.eqb (ksc_deviceKey x) (kf_deviceKey fulfillment)) solicitations with
  | None => mret solicitations
  | Some index =>
      match solicitations !! index, snapshotEventId this, snapshotSigBundle this with
      | Some prev, Some eventId, Some sigBundle =>
          let newEvent := {|
            ksc_deviceKey := ksc_deviceKey prev;
            ksc_fallbackKey := ksc_fallbackKey prev;
            ksc_isNewDevice := false;
            ksc_sessionIds := removeCommon (ksc_sessionIds prev)
                                (sort_strings (kf_sessionIds fulfillment)) |} in
          _ ← emit encryptionEmitter (updatedKeySolicitation (streamId this) eventId userId
                                        userAddress newEvent sigBundle);
          mret (<[index := newEvent]> solicitations)
      | _, _, _ => mret solicitations
      end
  end.
