(* ===== verification/Content.v ===== *)
(** * Content: the interface of stream contents
    (sdk/src/streamStateView_AbstractContent.ts)

    A content object [X] holds references to the view store [V] it writes to
    and receives event objects of the heap; its methods run on an [Env]. The
    class [AbstractContent] is the interface the stream calls. *)

From S2P Require Import Prelude JsLib Ids Proto Types TimelineTypes StreamEvents.

Record Env (V X : Type) := Build_Env { heap : Heap; view : V; self : X }.
Arguments Build_Env {V X} _ _ _.
Arguments heap {V X} _.
Arguments view {V X} _.
Arguments self {V X} _.
#[export] Instance eta_Env V X : Eta (Env V X) := λ r, Build_Env (heap r) (view r) (self r).

Section Env.
Context {V X : Type}.

(** A field read through a reference; references are never dangling. *)
Definition deref (o : ObjId) : M Emit (Env V X) StreamTimelineEvent :=
  env ← getM;
  match get_obj o (heap env) with
  | Some e => mret e
  | None => throwM (TypeError "undefined event")
  end.

Definition mutate (o : ObjId) (f : StreamTimelineEvent → StreamTimelineEvent)
    : M Emit (Env V X) unit :=
  modify (λ env, env <| heap ::= update_obj o f |>).

(** A new event object *)
Definition newEvent (e : StreamTimelineEvent) : M Emit (Env V X) ObjId := λ env,
  let '(o, h) := alloc_obj e (heap env) in (Ok o, env <| heap := h |>, []).

Definition on_view (f : V → V) : M Emit (Env V X) unit := modify (λ env, env <| view ::= f |>).
Definition on_self (f : X → X) : M Emit (Env V X) unit := modify (λ env, env <| self ::= f |>).

(** A method of a part [T] of the content *)
Definition on_part {T A} (get : X → T) (put : T → X → X) (m : M Emit T A)
    : M Emit (Env V X) A :=
  zoom (λ env, get (self env)) (λ t env, env <| self ::= put t |>) m.

Definition decryptEvent `{Codec} (streamId : string) (kind : ContentKind) (event : ObjId)
    (content : EncryptedData) (cleartext : option Cleartext) (encryptionEmitter : bool)
    : M Emit (Env V X) unit :=
  match truthy_cleartext cleartext with
  | Some cleartext =>
      decrypted ← liftR (toDecryptedContent kind (ed_version content) cleartext);
      mutate event (λ e, e <| ste_decryptedContent := Some decrypted |>)
  | None =>
      e ← deref event;
      emit encryptionEmitter (newEncryptedContent streamId (ste_hashStr e)
                                {| ec_kind := kind; ec_content := content |})
  end.
End Env.

(** What a content promises to the stream: its operations, each of which may
    change the content, its view and the events it is given, but never frees or
    renames an event object. *)
Class AbstractContent (V X : Type) := {
  content_prependEvent : ObjId → option Cleartext → bool → bool → M Emit (Env V X) unit;
  content_appendEvent : ObjId → option Cleartext → bool → bool → M Emit (Env V X) unit;
  content_onConfirmedEvent : ObjId → bool → bool → M Emit (Env V X) unit;
  content_onDecryptedContent : string → DecryptedContent → bool → M Emit (Env V X) unit;
  content_onAppendLocalEvent : ObjId → bool → M Emit (Env V X) unit;
}.

(** Objects are allocated in order. *)
Definition heap_wf (h : Heap) : Prop := ∀ o, is_Some (objects h !! o) → (o < next_id h)%nat.

(** Every object keeps its identity: what a content may change of an existing
    event is its decrypted content, and it may add objects. *)
Definition heap_ext (h h' : Heap) : Prop :=
  heap_wf h →
  heap_wf h' ∧ (next_id h <= next_id h')%nat ∧
  ∀ o e, get_obj o h = Some e →
    ∃ e', get_obj o h' = Some e' ∧
      e' <| ste_decryptedContent := ste_decryptedContent e |> = e.

#[export] Instance heap_ext_preorder : PreOrder heap_ext.
Proof.
  split.
  - intros h Hw. split_and!; [done|lia|]. intros o e He. exists e. split; [done|]. by destruct e.
  - intros h1 h2 h3 H12 H23 W1. destruct (H12 W1) as (W2 & N1 & H1).
    destruct (H23 W2) as (W3 & N2 & H2). split_and!; [done|lia|]. intros o e He.
    destruct (H1 o e He) as (e1 & He1 & E1). destruct (H2 o e1 He1) as (e2 & He2 & E2).
    exists e2. split; [done|]. destruct e, e1, e2. simpl in *. congruence.
Qed.

Definition env_ext {V X} : relation (Env V X) := λ env env', heap_ext (heap env) (heap env').

#[export] Instance env_ext_preorder V X : PreOrder (@env_ext V X).
Proof. split; [intros env; unfold env_ext; reflexivity|intros e1 e2 e3; unfold env_ext; apply transitivity]. Qed.

(** ** Execution *)

Section Run.
Context {V X B : Type}.
Implicit Types (env : Env V X) (k : StreamTimelineEvent → M Emit (Env V X) B).

Lemma deref_run o env :
  deref o env = match get_obj o (heap env) with
                | Some e => (Ok e, env, [])
                | None => (Throw (TypeError "undefined event"), env, [])
                end.
Proof. unfold deref. cbv [mbind M_bind getM]. simpl. by destruct (get_obj o (heap env)). Qed.

Lemma post_bind_deref o e k env :
  get_obj o (heap env) = Some e → post (deref o ≫= k) env = post (k e) env.
Proof. intros H. rewrite post_bind. unfold res, post. by rewrite deref_run, H. Qed.
Lemma res_bind_deref o e k env :
  get_obj o (heap env) = Some e → res (deref o ≫= k) env = res (k e) env.
Proof. intros H. rewrite res_bind. unfold res, post. by rewrite deref_run, H. Qed.
Lemma out_bind_deref o e k env :
  get_obj o (heap env) = Some e → out (deref o ≫= k) env = out (k e) env.
Proof. intros H. rewrite out_bind. unfold res, post, out. by rewrite deref_run, H. Qed.

Lemma post_bind_dangling o k env :
  get_obj o (heap env) = None → post (deref o ≫= k) env = env.
Proof. intros H. rewrite post_bind. unfold res, post. by rewrite deref_run, H. Qed.

Definition allocated (e : StreamTimelineEvent) (env : Env V X) : Env V X :=
  env <| heap := (alloc_obj e (heap env)).2 |>.

Lemma post_bind_newEvent e (k : ObjId → M Emit (Env V X) B) env :
  post (newEvent e ≫= k) env = post (k (next_id (heap env))) (allocated e env).
Proof. by rewrite post_bind. Qed.
Lemma res_bind_newEvent e (k : ObjId → M Emit (Env V X) B) env :
  res (newEvent e ≫= k) env = res (k (next_id (heap env))) (allocated e env).
Proof. by rewrite res_bind. Qed.
Lemma out_bind_newEvent e (k : ObjId → M Emit (Env V X) B) env :
  out (newEvent e ≫= k) env = out (k (next_id (heap env))) (allocated e env).
Proof. by rewrite out_bind. Qed.

Lemma get_obj_alloc e (h : Heap) : get_obj (next_id h) (alloc_obj e h).2 = Some e.
Proof. unfold get_obj. simpl. by rewrite lookup_insert_eq. Qed.
Lemma get_obj_alloc_ne o e (h : Heap) :
  o ≠ next_id h → get_obj o (alloc_obj e h).2 = get_obj o h.
Proof. intros Hn. unfold get_obj. simpl. by rewrite lookup_insert_ne. Qed.
Lemma get_obj_update o o' f (h : Heap) :
  get_obj o' (update_obj o f h) = if decide (o = o') then f <$> get_obj o' h else get_obj o' h.
Proof.
  unfold get_obj. simpl. case_decide; subst; [by rewrite lookup_alter_eq|by rewrite lookup_alter_ne].
Qed.
End Run.

#[export] Hint Rewrite @post_bind_newEvent @res_bind_newEvent @out_bind_newEvent : run.

(** [run_env]: [run] on the methods of a content; [at_event H] reads the event
    object that [H : get_obj o (heap env) = Some e] describes. *)
Ltac run_env := unfold on_self, on_view, on_part, mutate in *; run.
Ltac at_event H :=
  first [ rewrite (post_bind_deref _ _ _ _ H) | rewrite (res_bind_deref _ _ _ _ H)
        | rewrite (out_bind_deref _ _ _ _ H) ].

(** ** Frames *)

Lemma keeps_deref {V X T} (π : Env V X → T) o : keeps π (deref o).
Proof. unfold deref. keeps. Qed.
Lemma keeps_mutate {V X T} (π : Env V X → T) o f :
  (∀ env, π (env <| heap ::= update_obj o f |>) = π env) → keeps π (mutate o f).
Proof. intros Hp. by apply keeps_modify. Qed.
Lemma keeps_newEvent {V X T} (π : Env V X → T) e :
  (∀ env h, π (env <| heap := h |>) = π env) → keeps π (newEvent e).
Proof. intros Hp env. apply Hp. Qed.
#[export] Hint Resolve keeps_deref : keeps.
#[export] Hint Extern 2 (keeps _ (mutate _ _)) => apply keeps_mutate; intros ?; reflexivity : keeps.
#[export] Hint Extern 2 (keeps _ (newEvent _)) => apply keeps_newEvent; intros ? ?; reflexivity : keeps.
#[export] Hint Extern 2 (keeps _ (on_self _)) => apply keeps_modify; intros ?; reflexivity : keeps.
#[export] Hint Extern 2 (keeps _ (on_view _)) => apply keeps_modify; intros ?; reflexivity : keeps.
#[export] Hint Extern 2 (keeps _ (on_part _ _ _)) => apply keeps_zoom; intros ? ?; reflexivity : keeps.

Lemma keeps_decryptEvent `{Codec} {V X T} (π : Env V X → T) sid kind o content ct enc :
  (∀ env f, π (env <| heap ::= update_obj o f |>) = π env) →
  keeps π (decryptEvent sid kind o content ct enc).
Proof. intros Hp. unfold decryptEvent. keeps. apply keeps_mutate. intros. apply Hp. Qed.
#[export] Hint Extern 2 (keeps _ (decryptEvent _ _ _ _ _ _)) =>
  apply keeps_decryptEvent; intros ? ?; reflexivity : keeps.

(** ** Growth of the heap *)

Lemma heap_ext_alloc e (h : Heap) : heap_ext h (alloc_obj e h).2.
Proof.
  intros Hw. split_and!.
  - intros o. simpl. rewrite lookup_insert_is_Some. intros [->|[_ Ho]]; [lia|].
    apply Hw in Ho. lia.
  - simpl. lia.
  - intros o e' He. exists e'. split; [|by destruct e'].
    rewrite get_obj_alloc_ne; [done|]. intros ->. assert (next_id h < next_id h)%nat; [|lia].
    apply Hw. by eexists.
Qed.

Lemma heap_ext_decrypted o d (h : Heap) :
  heap_ext h (update_obj o (λ e, e <| ste_decryptedContent := d |>) h).
Proof.
  intros Hw. split_and!.
  - intros o'. simpl. rewrite lookup_alter_is_Some. apply Hw.
  - simpl. lia.
  - intros o' e He. rewrite get_obj_update. case_decide; [subst|].
    + rewrite He. eexists. split; [done|]. by destruct e.
    + exists e. split; [done|]. by destruct e.
Qed.

Lemma moves_keeps_heap {V X A} (m : M Emit (Env V X) A) : keeps heap m → moves env_ext m.
Proof. intros Hk env. unfold env_ext. rewrite (Hk env). reflexivity. Qed.
Lemma moves_newEvent {V X} e : moves env_ext (newEvent e : M Emit (Env V X) ObjId).
Proof. intros env. apply heap_ext_alloc. Qed.
Lemma moves_decrypted {V X} o d :
  moves env_ext (mutate o (λ e, e <| ste_decryptedContent := d |>) : M Emit (Env V X) unit).
Proof. intros env. apply heap_ext_decrypted. Qed.
Lemma moves_decryptEvent `{Codec} {V X} sid kind o content ct enc :
  moves env_ext (decryptEvent sid kind o content ct enc : M Emit (Env V X) unit).
Proof. unfold decryptEvent. moves. apply moves_decrypted. Qed.
#[export] Hint Resolve moves_newEvent moves_decrypted moves_decryptEvent : moves.
#[export] Hint Extern 3 (moves env_ext (on_self _)) =>
  apply moves_keeps_heap, keeps_modify; intros ?; reflexivity : moves.
#[export] Hint Extern 3 (moves env_ext (on_view _)) =>
  apply moves_keeps_heap, keeps_modify; intros ?; reflexivity : moves.
#[export] Hint Extern 3 (moves env_ext (on_part _ _ _)) =>
  apply moves_keeps_heap, keeps_zoom; intros ? ?; reflexivity : moves.

(** The methods of the base class that a content may leave as they are *)
Definition no_confirm {V X} (_ : ObjId) (_ _ : bool) : M Emit (Env V X) unit := mret tt.
Definition no_decrypt {V X} (_ : string) (_ : DecryptedContent) (_ : bool)
    : M Emit (Env V X) unit := mret tt.
Definition no_local {V X} (_ : ObjId) (_ : bool) : M Emit (Env V X) unit := mret tt.

(** [event.remoteEvent] of a [RemoteTimelineEvent] and its payload *)
Definition remoteOf {V X} (o : ObjId) : M Emit (Env V X) (StreamTimelineEvent * ParsedEvent) :=
  e ← deref o;
  match ste_remoteEvent e with
  | Some remote => mret (e, remote)
  | None => throwM (TypeError "Cannot read properties of undefined (reading 'event')")
  end.

Lemma moves_remoteOf {V X} o :
  moves env_ext (remoteOf o : M Emit (Env V X) (StreamTimelineEvent * ParsedEvent)).
Proof. unfold remoteOf. moves. Qed.
#[export] Hint Resolve moves_remoteOf : moves.

(** What the stream relies on: a content never frees or renames an event. *)
Class ContentLaws {V X : Type} (C : AbstractContent V X) : Prop := {
  prependEvent_grows o ct enc st : moves env_ext (content_prependEvent o ct enc st);
  appendEvent_grows o ct enc st : moves env_ext (content_appendEvent o ct enc st);
  onConfirmedEvent_grows o st enc : moves env_ext (content_onConfirmedEvent o st enc);
  onDecryptedContent_grows id d st : moves env_ext (content_onDecryptedContent id d st);
  onAppendLocalEvent_grows o st : moves env_ext (content_onAppendLocalEvent o st);
}.
