(* ===== verification/Fixtures.v ===== *)
(** * Fixtures: concrete libraries and events

    A model of the protobuf and log codecs and builders of small events, with
    which the theorems are instantiated. *)

From Stdlib Require Import Strings.Byte.
From S2P Require Import Prelude JsLib Ids IdsFacts Proto Types.

Module Fixtures.
Import ModelEth.

Definition textPost (body : string) : Post := {|
  po_threadId := None; po_threadPreview := None; po_replyId := None; po_replyPreview := None;
  po_content := PC_text {| txt_body := body; txt_mentions := []; txt_attachments := [] |} |}.

(** Messages are encoded as the text of a post, channel properties as the name. *)
#[export] Instance codec : Codec := {|
  channelMessage_fromBinary := λ b, Ok (CM_post (textPost (textDecode b)));
  channelMessage_fromJsonString := λ s, Ok (CM_post (textPost s));
  channelProperties_fromBinary := λ b, Ok {| cpr_name := textDecode b; cpr_topic := "" |};
  channelProperties_fromJsonString := λ s, Ok {| cpr_name := s; cpr_topic := "" |};
  fullyReadMarkers_fromJsonString := λ s,
    Ok {[ s := {| fr_channelId := s; fr_threadParentId := None; fr_eventId := ""; fr_eventNum := 0;
                  fr_beginUnreadWindow := 0; fr_endUnreadWindow := 0; fr_isUnread := false;
                  fr_markedReadAtTs := 0; fr_mentions := 0 |} ]};
  parseLog := λ address _ data, Ok (ReviewAdded address data 5);
|}.

Definition addr (b : byte) : bytes := replicate 20 b.
Definition user (b : byte) : string := "0x" +:+ toHex (addr b).

Definition streamEvent (creator : byte) (payload : Payload) : StreamEvent := {|
  ev_creatorAddress := addr creator; ev_delegateSig := []; ev_salt := [];
  ev_prevMiniblockHash := None; ev_createdAtEpochMs := 1000; ev_delegateExpiryEpochMs := 0; ev_tags := None;
  ev_prevMiniblockNum := None; ev_payload := payload |}.

Definition parsed (hash creator : byte) (payload : Payload) : ParsedEvent := {|
  pe_event := streamEvent creator payload; pe_hash := [hash];
  pe_hashStr := bin_toHexString [hash]; pe_signature := None; pe_creatorUserId := user creator |}.

Definition remote (hash creator : byte) (payload : Payload) : StreamTimelineEvent :=
  makeRemoteTimelineEvent (parsed hash creator payload) 0 None None.

(** The heap with the events of the list at 0, 1, ... *)
Definition heap_of (l : list StreamTimelineEvent) : Heap := {|
  objects := list_to_map (imap pair l); next_id := length l |}.

Definition encrypted (text : string) : EncryptedData := {|
  ed_ciphertext := text; ed_algorithm := ""; ed_senderKey := ""; ed_sessionId := "";
  ed_checksum := None; ed_refEventId := None; ed_ciphertextBytes := []; ed_ivBytes := [];
  ed_sessionIdBytes := []; ed_version := ENCRYPTED_DATA_VERSION_0 |}.

Definition membership (op : MembershipOp) (u : byte) : MP_Membership := {|
  mm_op := op; mm_userAddress := addr u; mm_initiatorAddress := addr u;
  mm_streamParentId := None; mm_reason := MR_NONE; mm_appAddress := None |}.

Definition snapshotMember (u : byte) (solicitations : list MP_KeySolicitation)
    : MP_Snapshot_Member := {|
  sm_userAddress := addr u; sm_miniblockNum := 0; sm_eventNum := 0;
  sm_solicitations := solicitations; sm_username := None; sm_displayName := None;
  sm_ensAddress := []; sm_nft := None; sm_tipsSent := ∅; sm_tipsReceived := ∅;
  sm_tipsSentCount := ∅; sm_tipsReceivedCount := ∅ |}.

Definition memberSnapshot (l : list MP_Snapshot_Member) : MP_Snapshot := {|
  ms_joined := l; ms_pins := []; ms_encryptionAlgorithm := None; ms_tips := ∅; ms_tipsCount := ∅ |}.

Definition snapshot (l : list MP_Snapshot_Member) : Snapshot :=
  Build_Snapshot_ (Some (memberSnapshot l)) 1 SC_unset.
End Fixtures.
