(* ===== verification/Members.v ===== *)
(** * Members: the membership of a stream (sdk/src/streamStateView_Members.ts)

    Membership events are applied in two phases: [appendEvent] updates [joined]
    and the pending sets when the event arrives, [onConfirmedEvent] moves the
    user to the confirmed sets when a miniblock header confirms it. *)

From stdpp Require Import pretty.
From S2P Require Import Prelude JsLib JsMap Ids Proto Types TimelineTypes StreamEvents.
From S2P Require Import StreamViews Content Usernames MemberMetadata Solicitations.

(** ** State *)

Record StreamMember := {
  me_userId : string;
  me_userAddress : bytes;
  me_miniblockNum : option Z;
  me_eventNum : option Z;
  me_solicitations : list KeySolicitationContent;
  me_encryptedUsername : option WrappedEncryptedData;
  me_encryptedDisplayName : option WrappedEncryptedData;
  me_ensAddress : option bytes;
  me_nft : option MP_Nft;
  me_tipsSent : option (gmap string Z);
  me_tipsReceived : option (gmap string Z);
  me_tipsSentCount : option (gmap string Z);
  me_tipsReceivedCount : option (gmap string Z);
}.
#[export] Instance eta_StreamMember : Eta StreamMember := λ r,
  Build_StreamMember (me_userId r) (me_userAddress r) (me_miniblockNum r) (me_eventNum r)
    (me_solicitations r) (me_encryptedUsername r) (me_encryptedDisplayName r) (me_ensAddress r)
    (me_nft r) (me_tipsSent r) (me_tipsReceived r) (me_tipsSentCount r) (me_tipsReceivedCount r).

Record MemberSpaceReview := {
  msr_review : SpaceReviewEventObject;
  msr_createdAtEpochMs : Z;
  msr_eventHashStr : string;
}.

Record Members := {
  streamId : string;
  joined : jsmap string StreamMember;
  joinedUsers : gset string;
  invitedUsers : gset string;
  leftUsers : gset string;
  pendingJoinedUsers : gset string;
  pendingInvitedUsers : gset string;
  pendingLeftUsers : gset string;
  pendingMembershipEvents : gmap string MP_Membership;
  solicitHelper : Solicitations.Solicitations;
  memberMetadata : MemberMetadata.MemberMetadata;
  pins : list Pin;
  tips : gmap string Z;
  tipsCount : gmap string Z;
  encryptionAlgorithm : option string;
  spaceReviews : list MemberSpaceReview;
  tokenTransfers : list MemberTokenTransfer;
}.
#[export] Instance eta_Members : Eta Members := λ r,
  Build_Members (streamId r) (joined r) (joinedUsers r) (invitedUsers r) (leftUsers r)
    (pendingJoinedUsers r) (pendingInvitedUsers r) (pendingLeftUsers r)
    (pendingMembershipEvents r) (solicitHelper r) (memberMetadata r) (pins r) (tips r)
    (tipsCount r) (encryptionAlgorithm r) (spaceReviews r) (tokenTransfers r).

Definition new (streamId : string) : Members := {|
  streamId := streamId;
  joined := ∅;
  joinedUsers := ∅;
  invitedUsers := ∅;
  leftUsers := ∅;
  pendingJoinedUsers := ∅;
  pendingInvitedUsers := ∅;
  pendingLeftUsers := ∅;
  pendingMembershipEvents := ∅;
  solicitHelper := Solicitations.new streamId;
  memberMetadata := MemberMetadata.new streamId;
  pins := [];
  tips := ∅;
  tipsCount := ∅;
  encryptionAlgorithm := None;
  spaceReviews := [];
  tokenTransfers := [];
|}.

(** The methods share the heap of events and the store of member ids. *)
Abbreviation MEnv := (Env StreamMemberIds Members).
Abbreviation MM := (M Emit MEnv).

Definition streamMemberIds (env : MEnv) : list string :=
  memberIds_get (streamId (self env)) (view env).

Definition on_metadata {A} (m : M Emit MemberMetadata.MemberMetadata A) : MM A :=
  on_part memberMetadata (λ t s, s <| memberMetadata := t |>) m.
Definition on_solicit {A} (m : M Emit Solicitations.Solicitations A) : MM A :=
  on_part solicitHelper (λ t s, s <| solicitHelper := t |>) m.
(** Mutation of a member object found in [joined]. *)
Definition on_member (userId : string) (f : StreamMember → StreamMember) : MM unit :=
  on_self (λ s, s <| joined ::= jm_alter f userId |>).

(** ** Membership changes *)

Inductive ConfirmationType := pending | confirmed.

Definition emitMembershipChange (userId : string) (stateEmitter : bool) (streamId : string)
    : MM unit :=
  emit stateEmitter (streamMembershipUpdated streamId userId).

(** [Set.add] returns the set, so the conditions of the pending branches always
    hold. *)
Definition applyMembershipEvent (userId : string) (op : MembershipOp) (type : ConfirmationType)
    (stateEmitter : bool) : MM unit :=
  env ← getM;
  let this := self env in
  match op with
  | SO_INVITE =>
      match type with
      | confirmed =>
          _ ← on_self (λ s, s <| pendingInvitedUsers ::= (.∖ {[userId]}) |>);
          _ ← on_self (λ s, s <| invitedUsers ::= union {[userId]} |>);
          _ ← emit stateEmitter (streamNewUserInvited (streamId this) userId);
          emitMembershipChange userId stateEmitter (streamId this)
      | pending =>
          _ ← on_self (λ s, s <| pendingInvitedUsers ::= union {[userId]} |>);
          emit stateEmitter (streamPendingMembershipUpdated (streamId this) userId)
      end
  | SO_JOIN =>
      match type with
      | confirmed =>
          _ ← on_self (λ s, s <| pendingJoinedUsers ::= (.∖ {[userId]}) |>);
          _ ← on_self (λ s, s <| joinedUsers ::= union {[userId]} |>);
          _ ← emit stateEmitter (streamNewUserJoined (streamId this) userId);
          emitMembershipChange userId stateEmitter (streamId this)
      | pending =>
          _ ← on_self (λ s, s <| pendingJoinedUsers ::= union {[userId]} |>);
          emit stateEmitter (streamPendingMembershipUpdated (streamId this) userId)
      end
  | SO_LEAVE =>
      match type with
      | confirmed =>
          let wasJoined := bool_decide (userId ∈ joinedUsers this) in
          _ ← on_self (λ s, s <| joinedUsers ::= (.∖ {[userId]}) |>);
          let wasInvited := bool_decide (userId ∈ invitedUsers this) in
          _ ← on_self (λ s, s <| invitedUsers ::= (.∖ {[userId]}) |>);
          _ ← on_self (λ s, s <| pendingLeftUsers ::= (.∖ {[userId]}) |>);
          _ ← on_self (λ s, s <| leftUsers ::= union {[userId]} |>);
          whenM (wasJoined || wasInvited)
            (_ ← emit stateEmitter (streamUserLeft (streamId this) userId);
             emitMembershipChange userId stateEmitter (streamId this))
      | pending =>
          _ ← on_self (λ s, s <| pendingLeftUsers ::= union {[userId]} |>);
          emit stateEmitter (streamPendingMembershipUpdated (streamId this) userId)
      end
  | SO_UNSPECIFIED => mret tt
  | SO_OTHER _ => mret tt
  end.

Section Members.
Context `{EthLib, Codec}.

(** ** Pins *)

(** [pin.event.hashStr === eventId] *)
Definition pin_has_hash (h : Heap) (eventId : string) (pin : Pin) : bool :=
  match get_obj (pin_obj pin) h with
  | Some e => String.eqb (ste_hashStr e) eventId
  | None => false
  end.

(** The encrypted message of a channel, DM or GDM event *)
Definition message_content (p : Payload) : option EncryptedData :=
  match p with
  | P_channelPayload (CP_message v) => Some v
  | P_dmChannelPayload (DMP_message v) => Some v
  | P_gdmChannelPayload (GDMP_message v) => Some v
  | _ => None
  end.

Definition addPin (creatorUserId : string) (event : ObjId) (cleartext : option Cleartext)
    (encryptionEmitter stateEmitter : bool) : MM unit :=
  let newPin := {| pin_creatorUserId := creatorUserId; pin_obj := event |} in
  _ ← on_self (λ s, s <| pins ::= λ l, l ++ [newPin] |>);
  e ← deref event;
  env ← getM;
  _ ← match message_content (ste_payload e) with
      | Some content =>
          decryptEvent (streamId (self env)) kind_channelMessage event content cleartext
            encryptionEmitter
      | None => mret tt
      end;
  emit stateEmitter (channelPinAdded (streamId (self env)) newPin).

Definition removePin (eventId : bytes) (stateEmitter : bool) : MM unit :=
  let eventIdStr := bin_toHexString eventId in
  env ← getM;
  match findIndex (pin_has_hash (heap env) eventIdStr) (pins (self env)) with
  | None => mret tt
  | Some index =>
      match pins (self env) !! index with
      | None => mret tt
      | Some pin =>
          _ ← on_self (λ s, s <| pins ::= splice1 index |>);
          emit stateEmitter (channelPinRemoved (streamId (self env)) pin index)
      end
  end.

(** ** Token transfers *)

Definition addTokenTransfer (payload : MP_MemberBlockchainTransaction)
    (transferContent : TokenTransfer) (createdAtEpochMs : Z) (stateEmitter prepend : bool)
    : MM unit :=
  let receipt := t ← mbt_transaction payload; bt_receipt t in
  let solanaReceipt := t ← mbt_transaction payload; bt_solanaReceipt t in
  userId ← liftR (userIdFromAddress (mbt_fromUserAddress payload));
  amount ← liftR (BigInt_string (tt_amount transferContent));
  let transferData := {|
    mtt_address := tt_address transferContent;
    mtt_amount := amount;
    mtt_isBuy := tt_isBuy transferContent;
    mtt_chainId := match receipt, solanaReceipt with
                   | Some receipt, _ => pretty (rc_chainId receipt)
                   | None, Some _ => "solana-mainnet"
                   | None, None => "unknown chain"
                   end;
    mtt_userId := userId;
    mtt_sender := tt_sender transferContent;
    mtt_createdAtEpochMs := createdAtEpochMs;
    mtt_messageId := bin_toHexString (tt_messageId transferContent) |} in
  _ ← on_self (λ s, s <| tokenTransfers ::=
        λ l, if prepend then transferData :: l else l ++ [transferData] |>);
  env ← getM;
  emit stateEmitter (streamTokenTransfer (streamId (self env)) transferData).

(** ** applySnapshot *)

Definition snapshot_solicitation (s : MP_KeySolicitation) : KeySolicitationContent := {|
  ksc_deviceKey := ks_deviceKey s;
  ksc_fallbackKey := ks_fallbackKey s;
  ksc_isNewDevice := ks_isNewDevice s;
  ksc_sessionIds := ks_sessionIds s;
|}.

Definition snapshot_member (userId : string) (member : MP_Snapshot_Member) : StreamMember := {|
  me_userId := userId;
  me_userAddress := sm_userAddress member;
  me_miniblockNum := Some (sm_miniblockNum member);
  me_eventNum := Some (sm_eventNum member);
  me_solicitations := snapshot_solicitation <$> sm_solicitations member;
  me_encryptedUsername := sm_username member;
  me_encryptedDisplayName := sm_displayName member;
  me_ensAddress := Some (sm_ensAddress member);
  me_nft := sm_nft member;
  me_tipsSent := Some (sm_tipsSent member);
  me_tipsReceived := Some (sm_tipsReceived member);
  me_tipsSentCount := Some (sm_tipsSentCount member);
  me_tipsReceivedCount := Some (sm_tipsReceivedCount member);
|}.

(** The loop over [snapshot.members.joined]; returns [memberIds]. *)
Fixpoint applySnapshot_joined (members : list MP_Snapshot_Member) (memberIds : list string)
    : MM (list string) :=
  match members with
  | [] => mret memberIds
  | member :: members =>
      userId ← liftR (userIdFromAddress (sm_userAddress member));
      _ ← on_self (λ s, s <| joined ::= <[userId := snapshot_member userId member]> |>);
      _ ← applyMembershipEvent userId SO_JOIN confirmed false;
      applySnapshot_joined members (memberIds ++ [userId])
  end.

(** The body of the loop over [snapshot.members.pins] *)
Definition applySnapshot_pin (cleartexts : Cleartexts) (encryptionEmitter : bool)
    (snappedPin : MP_SnappedPin) : MM unit :=
  match sp_pin snappedPin with
  | Some pin =>
      match pin_event pin with
      | Some event =>
          parsedEvent ← liftR (makeParsedEvent event (pin_eventId pin) None);
          remoteEvent ← newEvent (makeRemoteTimelineEvent parsedEvent 0 None None);
          let cleartext := cleartext_at cleartexts (pe_hashStr parsedEvent) in
          creatorUserId ← liftR (userIdFromAddress (sp_creatorAddress snappedPin));
          addPin creatorUserId remoteEvent cleartext encryptionEmitter false
      | None => mret tt
      end
  | None => mret tt
  end.

Definition applySnapshot (event : ParsedEvent) (snapshot : Snapshot) (cleartexts : Cleartexts)
    (encryptionEmitter : bool) : MM unit :=
  match sn_members snapshot with
  | None => mret tt
  | Some members =>
      memberIds ← applySnapshot_joined (ms_joined members) [];
      env ← getM;
      _ ← on_view (setMembers (streamId (self env)) memberIds);
      let values := jm_values (joined (self env)) in
      let usernames := omap (λ m, Build_NamePayload (me_userId m) <$> me_encryptedUsername m) values in
      let displayNames :=
        omap (λ m, Build_NamePayload (me_userId m) <$> me_encryptedDisplayName m) values in
      let ensAddresses := omap (λ m, pair (me_userId m) <$> me_ensAddress m) values in
      let nfts := omap (λ m, pair (me_userId m) <$> me_nft m) values in
      _ ← on_metadata (MemberMetadata.applySnapshot usernames displayNames ensAddresses nfts
                         cleartexts encryptionEmitter);
      let sigBundle := getEventSignature event in
      _ ← on_solicit (Solicitations.initSolicitations (pe_hashStr event)
            ((λ m, (me_userId m, me_userAddress m, me_solicitations m)) <$> values)
            sigBundle encryptionEmitter);
      _ ← forM (ms_pins members) (applySnapshot_pin cleartexts encryptionEmitter);
      _ ← on_self (λ s, s <| tips := ms_tips members |>);
      _ ← on_self (λ s, s <| tipsCount := ms_tipsCount members |>);
      on_self (λ s, s <| encryptionAlgorithm := alg ← ms_encryptionAlgorithm members; alg |>)
  end.

(** ** prependEvent *)

Definition has_reviewer (user : string) (r : MemberSpaceReview) : bool :=
  String.eqb (rev_user (msr_review r)) user.

Definition prependEvent (event : ObjId) (stateEmitter : bool) : MM unit :=
  e ← deref event;
  match ste_payload e with
  | P_memberPayload payload =>
      match payload with
      | MP_memberBlockchainTransaction v =>
          let receipt := t ← mbt_transaction v; bt_receipt t in
          match bt_content <$> mbt_transaction v with
          | Some (BT_spaceReview content) =>
              match receipt, sr_event content with
              | Some receipt, Some reviewEvent =>
                  let review := getSpaceReviewEventDataBin (rc_logs receipt) (sre_user reviewEvent) in
                  env ← getM;
                  let existingReview := findJs (has_reviewer (rev_user review))
                                          (spaceReviews (self env)) in
                  whenM (negb (isDefined existingReview))
                    (_ ← on_self (λ s, s <| spaceReviews ::= cons
                           {| msr_review := review;
                              msr_createdAtEpochMs := ste_createdAtEpochMs e;
                              msr_eventHashStr := ste_hashStr e |} |>);
                     emit stateEmitter (spaceReviewsUpdated (streamId (self env)) review))
              | _, _ => mret tt
              end
          | Some (BT_tokenTransfer content) =>
              addTokenTransfer v content (ste_createdAtEpochMs e) stateEmitter true
          | _ => mret tt
          end
      | _ => mret tt
      end
  | _ => throwWithCode "Unknown" ERR_UNSPECIFIED
  end.

(** ** appendEvent *)

(** [case 'membership'] *)
Definition append_membership (e : StreamTimelineEvent) (membership : MP_Membership)
    (stateEmitter : bool) : MM unit :=
  _ ← on_self (λ s, s <| pendingMembershipEvents ::= <[ste_hashStr e := membership]> |>);
  userId ← liftR (userIdFromAddress (mm_userAddress membership));
  env ← getM;
  match mm_op membership with
  | SO_JOIN =>
      if jm_has userId (joined (self env)) then mret tt
      else
        _ ← on_self (λ s, s <| joined ::= <[userId := {|
              me_userId := userId;
              me_userAddress := mm_userAddress membership;
              me_miniblockNum := ste_miniblockNum e;
              me_eventNum := Some (ste_eventNum e);
              me_solicitations := [];
              me_encryptedUsername := None;
              me_encryptedDisplayName := None;
              me_ensAddress := None;
              me_nft := None;
              me_tipsSent := None;
              me_tipsReceived := None;
              me_tipsSentCount := None;
              me_tipsReceivedCount := None |}]> |>);
        _ ← on_view (addMember (streamId (self env)) userId);
        applyMembershipEvent userId (mm_op membership) pending stateEmitter
  | SO_LEAVE =>
      _ ← on_self (λ s, s <| joined ::= delete userId |>);
      _ ← on_view (removeMember (streamId (self env)) userId);
      applyMembershipEvent userId (mm_op membership) pending stateEmitter
  | _ => applyMembershipEvent userId (mm_op membership) pending stateEmitter
  end.

(** [case 'tip'] *)
Definition append_tip (e : StreamTimelineEvent) (v : MP_MemberBlockchainTransaction) (tip : Tip)
    (stateEmitter : bool) : MM unit :=
  match tip_event tip with
  | None => mret tt
  | Some tipEvent =>
      currency ← liftR (getAddress (bin_toHexString (te_currency tipEvent)));
      _ ← on_self (λ s, s <| tips ::= add_amount currency (te_amount tipEvent) |>);
      _ ← on_self (λ s, s <| tipsCount ::= add_amount currency 1 |>);
      senderId ← liftR (userIdFromAddress (mbt_fromUserAddress v));
      _ ← on_member senderId (λ sender, sender
            <| me_tipsSent ::= λ m, Some (add_amount currency (te_amount tipEvent) (default ∅ m)) |>
            <| me_tipsSentCount ::= λ m, Some (add_amount currency 1 (default ∅ m)) |>);
      receiverId ← liftR (userIdFromAddress (tip_toUserAddress tip));
      _ ← on_member receiverId (λ receiver, receiver
            <| me_tipsReceived ::=
                 λ m, Some (add_amount currency (te_amount tipEvent) (default ∅ m)) |>
            <| me_tipsReceivedCount ::= λ m, Some (add_amount currency 1 (default ∅ m)) |>);
      env ← getM;
      emit stateEmitter (streamTipped (streamId (self env)) (ste_hashStr e) tip)
  end.

(** [case 'spaceReview'] *)
Definition append_spaceReview (e : StreamTimelineEvent) (receipt : option BlockchainTransactionReceipt)
    (content : SpaceReview) (stateEmitter : bool) : MM unit :=
  match receipt, sr_event content with
  | Some receipt, Some reviewEvent =>
      let review := getSpaceReviewEventDataBin (rc_logs receipt) (sre_user reviewEvent) in
      let entry := {| msr_review := review; msr_createdAtEpochMs := ste_createdAtEpochMs e;
                      msr_eventHashStr := ste_hashStr e |} in
      env ← getM;
      _ ← match findIndex (has_reviewer (rev_user review)) (spaceReviews (self env)) with
          | None => on_self (λ s, s <| spaceReviews ::= λ l, l ++ [entry] |>)
          | Some index => on_self (λ s, s <| spaceReviews ::= <[index := entry]> |>)
          end;
      emit stateEmitter (spaceReviewsUpdated (streamId (self env)) review)
  | _, _ => mret tt
  end.

(** [create(WrappedEncryptedDataSchema, { data })] *)
Definition wrap_data (data : EncryptedData) : WrappedEncryptedData :=
  {| wed_data := Some data; wed_eventNum := 0; wed_eventHash := [] |}.

Definition appendEvent (event : ObjId) (cleartext : option Cleartext)
    (encryptionEmitter stateEmitter : bool) : MM unit :=
  e ← deref event;
  env ← getM;
  let this := self env in
  match ste_payload e, ste_remoteEvent e with
  | P_memberPayload payload, Some remoteEvent =>
      match payload with
      | MP_membership membership => append_membership e membership stateEmitter
      | MP_keySolicitation v =>
          match joined this !! ste_creatorUserId e with
          | None => throwWithCode "key solicitation from non-member" ERR_UNSPECIFIED
          | Some stateMember =>
              solicitations ← on_solicit (Solicitations.applySolicitation (me_userId stateMember)
                (me_userAddress stateMember) (me_solicitations stateMember) (ste_hashStr e) v
                (getEventSignature remoteEvent) encryptionEmitter);
              on_member (ste_creatorUserId e) (λ m, m <| me_solicitations := solicitations |>)
          end
      | MP_keyFulfillment v =>
          userId ← liftR (userIdFromAddress (kf_userAddress v));
          match joined this !! userId with
          | None => throwWithCode "key fulfillment from non-member" ERR_UNSPECIFIED
          | Some stateMember =>
              solicitations ← on_solicit (Solicitations.applyFulfillment (me_userId stateMember)
                (me_userAddress stateMember) (me_solicitations stateMember) v encryptionEmitter);
              on_member userId (λ m, m <| me_solicitations := solicitations |>)
          end
      | MP_displayName v =>
          _ ← check (isDefined (joined this !! ste_creatorUserId e))
                "displayName from non-member" ERR_UNSPECIFIED;
          _ ← on_member (ste_creatorUserId e)
                (λ m, m <| me_encryptedDisplayName := Some (wrap_data v) |>);
          on_metadata (MemberMetadata.appendDisplayName (ste_hashStr e) v (ste_creatorUserId e)
                         cleartext encryptionEmitter stateEmitter)
      | MP_username v =>
          _ ← check (isDefined (joined this !! ste_creatorUserId e))
                "username from non-member" ERR_UNSPECIFIED;
          _ ← on_member (ste_creatorUserId e)
                (λ m, m <| me_encryptedUsername := Some (wrap_data v) |>);
          on_metadata (MemberMetadata.appendUsername (ste_hashStr e) v (ste_creatorUserId e)
                         cleartext encryptionEmitter stateEmitter)
      | MP_ensAddress v =>
          _ ← check (isDefined (joined this !! ste_creatorUserId e))
                "username from non-member" ERR_UNSPECIFIED;
          on_metadata (MemberMetadata.appendEnsAddress (ste_hashStr e) v (ste_creatorUserId e)
                         stateEmitter)
      | MP_nft v =>
          _ ← check (isDefined (joined this !! ste_creatorUserId e))
                "nft from non-member" ERR_UNSPECIFIED;
          on_metadata (MemberMetadata.appendNft (ste_hashStr e) v (ste_creatorUserId e)
                         stateEmitter)
      | MP_pin pin =>
          match pin_event pin with
          | None => throwWithCode "invalid pin event" ERR_UNSPECIFIED
          | Some pinned =>
              parsedEvent ← liftR (makeParsedEvent pinned (pin_eventId pin) None);
              remoteEvent ← newEvent (makeRemoteTimelineEvent parsedEvent 0 None None);
              addPin (ste_creatorUserId e) remoteEvent None encryptionEmitter stateEmitter
          end
      | MP_unpin eventId => removePin eventId stateEmitter
      | MP_memberBlockchainTransaction v =>
          match bt_content <$> mbt_transaction v with
          | Some (BT_tip content) => append_tip e v content stateEmitter
          | Some (BT_tokenTransfer content) =>
              addTokenTransfer v content (ste_createdAtEpochMs e) stateEmitter false
          | Some (BT_spaceReview content) =>
              append_spaceReview e (t ← mbt_transaction v; bt_receipt t) content stateEmitter
          | Some BT_unset | None => mret tt
          end
      | MP_encryptionAlgorithm algorithm =>
          _ ← on_self (λ s, s <| encryptionAlgorithm := algorithm |>);
          emit stateEmitter (streamEncryptionAlgorithmUpdated (streamId this) algorithm)
      | MP_unset => mret tt
      end
  | _, _ => throwWithCode "Unknown" ERR_UNSPECIFIED
  end.

(** ** onConfirmedEvent *)

(** [case 'membership'] *)
Definition confirm_membership (e : StreamTimelineEvent) (stateEmitter : bool) : MM unit :=
  let eventId := ste_hashStr e in
  env ← getM;
  match pendingMembershipEvents (self env) !! eventId with
  | None => mret tt
  | Some membership =>
      _ ← on_self (λ s, s <| pendingMembershipEvents ::= delete eventId |>);
      userId ← liftR (userIdFromAddress (mm_userAddress membership));
      _ ← on_member userId (λ streamMember, streamMember
            <| me_miniblockNum := ste_miniblockNum e |>
            <| me_eventNum := Some (ste_eventNum e) |>);
      applyMembershipEvent userId (mm_op membership) confirmed stateEmitter
  end.

Definition onConfirmedEvent (event : ObjId) (stateEmitter : bool) : MM unit :=
  e ← deref event;
  match ste_payload e with
  | P_memberPayload payload =>
      match payload with
      | MP_membership _ => confirm_membership e stateEmitter
      | MP_displayName _ | MP_username _ | MP_ensAddress _ | MP_nft _ =>
          on_metadata (MemberMetadata.onConfirmedEvent (ste_hashStr e) stateEmitter)
      | MP_keyFulfillment _ | MP_keySolicitation _ | MP_pin _ | MP_unpin _
      | MP_memberBlockchainTransaction _ | MP_encryptionAlgorithm _ | MP_unset => mret tt
      end
  | _ => throwWithCode "Unknown" ERR_UNSPECIFIED
  end.

Definition onDecryptedContent (eventId : string) (content : DecryptedContent)
    (stateEmitter : bool) : MM unit :=
  _ ← match content with
      | DC_text text =>
          on_metadata (MemberMetadata.onDecryptedContent eventId text stateEmitter)
      | _ => mret tt
      end;
  env ← getM;
  match findIndex (pin_has_hash (heap env) eventId) (pins (self env)) with
  | None => mret tt
  | Some pinIndex =>
      match pins (self env) !! pinIndex with
      | None => mret tt
      | Some pin =>
          _ ← mutate (pin_obj pin) (λ e, e <| ste_decryptedContent := Some content |>);
          emit stateEmitter (channelPinDecrypted (streamId (self env)) pin pinIndex)
      end
  end.
End Members.

(** ** Queries *)

Definition isMemberJoined (userId : string) (this : Members) : bool :=
  bool_decide (userId ∈ joinedUsers this).

Definition isMember (membership : MembershipOp) (userId : string) (this : Members) : bool :=
  match membership with
  | SO_INVITE => bool_decide (userId ∈ invitedUsers this)
  | SO_JOIN => bool_decide (userId ∈ joinedUsers this)
  | SO_LEAVE => bool_decide (userId ∉ invitedUsers this) && bool_decide (userId ∉ joinedUsers this)
  | SO_UNSPECIFIED => false
  | SO_OTHER _ => false
  end.

Definition participants (this : Members) : gset string :=
  joinedUsers this ∪ invitedUsers this ∪ leftUsers this.
Definition joinedParticipants (this : Members) : gset string := joinedUsers this.
Definition joinedOrPendingJoinedParticipants (this : Members) : gset string :=
  joinedUsers this ∪ pendingJoinedUsers this.
Definition joinedOrInvitedParticipants (this : Members) : gset string :=
  joinedUsers this ∪ invitedUsers this.

Definition info (userId : string) (this : Members) : MembershipOp :=
  if bool_decide (userId ∈ joinedUsers this) then SO_JOIN
  else if bool_decide (userId ∈ invitedUsers this) then SO_INVITE
  else if bool_decide (userId ∈ leftUsers this) then SO_LEAVE
  else SO_UNSPECIFIED.
