(* ===== verification/MembersFacts.v ===== *)
(** * MembersFacts: the membership of a stream is what its events say *)

From Stdlib Require Import Strings.Byte.
From S2P Require Import Prelude JsLib JsMap Ids IdsFacts Proto Types TimelineTypes StreamEvents.
From S2P Require Import StreamViews Content Usernames MemberMetadata Solicitations Fixtures Members.

(** ** Frames

    [core] is the part of the state that only membership events change. *)

Record Core := {
  c_view : StreamMemberIds;
  c_streamId : string;
  c_keys : list string;
  c_joinedUsers : gset string;
  c_invitedUsers : gset string;
  c_leftUsers : gset string;
  c_pendingJoined : gset string;
  c_pendingInvited : gset string;
  c_pendingLeft : gset string;
  c_pendingEvents : gmap string MP_Membership;
}.
#[export] Instance eta_Core : Eta Core := λ r,
  Build_Core (c_view r) (c_streamId r) (c_keys r) (c_joinedUsers r) (c_invitedUsers r)
    (c_leftUsers r) (c_pendingJoined r) (c_pendingInvited r) (c_pendingLeft r)
    (c_pendingEvents r).

Definition core (env : MEnv) : Core :=
  let s := self env in {|
    c_view := view env; c_streamId := streamId s; c_keys := jm_keys (joined s);
    c_joinedUsers := joinedUsers s; c_invitedUsers := invitedUsers s; c_leftUsers := leftUsers s;
    c_pendingJoined := pendingJoinedUsers s; c_pendingInvited := pendingInvitedUsers s;
    c_pendingLeft := pendingLeftUsers s; c_pendingEvents := pendingMembershipEvents s |}.

#[export] Hint Extern 2 (keeps _ (on_metadata _)) => apply keeps_zoom; intros ? ?; reflexivity : keeps.
#[export] Hint Extern 2 (keeps _ (on_solicit _)) => apply keeps_zoom; intros ? ?; reflexivity : keeps.

Lemma keeps_on_member userId f : keeps core (on_member userId f).
Proof. apply keeps_modify. intros env. unfold core. simpl. by rewrite jm_keys_alter. Qed.
#[export] Hint Resolve keeps_on_member : keeps.

Section Frames.
Context `{EthLib, Codec}.

Lemma keeps_addPin u o ct enc st : keeps core (addPin u o ct enc st).
Proof. unfold addPin. keeps. Qed.
Hint Resolve keeps_addPin : keeps.

Lemma keeps_removePin e st : keeps core (removePin e st).
Proof. unfold removePin. keeps. Qed.

Lemma keeps_addTokenTransfer p t c st b : keeps core (addTokenTransfer p t c st b).
Proof. unfold addTokenTransfer. keeps. Qed.
Hint Resolve keeps_removePin keeps_addTokenTransfer : keeps.

Lemma keeps_append_tip e v t st : keeps core (append_tip e v t st).
Proof. unfold append_tip. keeps. Qed.

Lemma keeps_append_spaceReview e r c st : keeps core (append_spaceReview e r c st).
Proof. unfold append_spaceReview. keeps. Qed.
Hint Resolve keeps_append_tip keeps_append_spaceReview : keeps.

Lemma keeps_prependEvent o st : keeps core (prependEvent o st).
Proof. unfold prependEvent. keeps. Qed.

Lemma keeps_onDecryptedContent e c st : keeps core (Members.onDecryptedContent e c st).
Proof. unfold Members.onDecryptedContent. keeps. Qed.

(** ** The effect of the handlers on the membership *)

(** The membership event stored at [o], with its hash *)
Definition membership_at (o : ObjId) (env : MEnv) : option (string * MP_Membership) :=
  e ← get_obj o (heap env);
  match ste_payload e, ste_remoteEvent e with
  | P_memberPayload (MP_membership m), Some _ => Some (ste_hashStr e, m)
  | _, _ => None
  end.

Definition core_membership (u : string) (op : MembershipOp) (t : ConfirmationType) (c : Core)
    : Core :=
  match op, t with
  | SO_INVITE, pending => c <| c_pendingInvited ::= union {[u]} |>
  | SO_JOIN, pending => c <| c_pendingJoined ::= union {[u]} |>
  | SO_LEAVE, pending => c <| c_pendingLeft ::= union {[u]} |>
  | SO_INVITE, confirmed =>
      c <| c_pendingInvited ::= (.∖ {[u]}) |> <| c_invitedUsers ::= union {[u]} |>
  | SO_JOIN, confirmed =>
      c <| c_pendingJoined ::= (.∖ {[u]}) |> <| c_joinedUsers ::= union {[u]} |>
  | SO_LEAVE, confirmed =>
      c <| c_joinedUsers ::= (.∖ {[u]}) |> <| c_invitedUsers ::= (.∖ {[u]}) |>
        <| c_pendingLeft ::= (.∖ {[u]}) |> <| c_leftUsers ::= union {[u]} |>
  | _, _ => c
  end.

Definition core_append (h : string) (m : MP_Membership) (c : Core) : Core :=
  let c := c <| c_pendingEvents ::= <[h := m]> |> in
  match userIdFromAddress (mm_userAddress m) with
  | Throw _ => c
  | Ok u =>
      match mm_op m with
      | SO_JOIN =>
          if decide (u ∈ c_keys c) then c
          else core_membership u SO_JOIN pending
                 (c <| c_keys ::= λ l, l ++ [u] |> <| c_view ::= addMember (c_streamId c) u |>)
      | SO_LEAVE =>
          core_membership u SO_LEAVE pending
            (c <| c_keys ::= filter (λ k, u ≠ k) |> <| c_view ::= removeMember (c_streamId c) u |>)
      | op => core_membership u op pending c
      end
  end.

Definition core_confirm (h : string) (c : Core) : Core :=
  match c_pendingEvents c !! h with
  | None => c
  | Some m =>
      let c := c <| c_pendingEvents ::= delete h |> in
      match userIdFromAddress (mm_userAddress m) with
      | Throw _ => c
      | Ok u => core_membership u (mm_op m) confirmed c
      end
  end.

Lemma core_applyMembershipEvent u op t st env :
  core (post (applyMembershipEvent u op t st) env) = core_membership u op t (core env)
  ∧ res (applyMembershipEvent u op t st) env = Ok tt.
Proof.
  unfold applyMembershipEvent, emitMembershipChange. destruct op, t; run_env; try done.
  unfold whenM. case_bool_decide; simpl; [by run|]. case_bool_decide; by run.
Qed.

Lemma core_append_membership e m st env :
  core (post (append_membership e m st) env) = core_append (ste_hashStr e) m (core env).
Proof.
  unfold append_membership, core_append. run_env.
  destruct (userIdFromAddress (mm_userAddress m)) as [u|err]; [|by run].
  run. simpl. destruct (mm_op m); try apply core_applyMembershipEvent.
  - destruct (jm_has u (joined (self env))) eqn:Hh.
    + rewrite decide_True by (by apply jm_has_spec). by run.
    + rewrite decide_False by (by rewrite <- jm_has_spec, Hh). run.
      rewrite (proj1 (core_applyMembershipEvent _ _ _ _ _)). f_equal. unfold core; simpl. f_equal.
      rewrite jm_keys_insert, decide_False; [done|]. by rewrite <- jm_has_spec, Hh.
  - run. rewrite (proj1 (core_applyMembershipEvent _ _ _ _ _)). f_equal. unfold core; simpl. f_equal.
    by rewrite jm_keys_delete.
Qed.

Lemma core_confirm_membership e st env :
  core (post (confirm_membership e st) env) = core_confirm (ste_hashStr e) (core env).
Proof.
  unfold confirm_membership, core_confirm. run_env. simpl.
  destruct (pendingMembershipEvents (self env) !! ste_hashStr e) as [m|]; [|by run]. run.
  destruct (userIdFromAddress (mm_userAddress m)) as [u|err]; [|by run].
  unfold on_member, on_self. run. rewrite (proj1 (core_applyMembershipEvent _ _ _ _ _)). f_equal.
  unfold core; simpl. f_equal. by rewrite jm_keys_alter.
Qed.

(** Membership events change the core as the functions above say; every other
    event leaves it alone. *)
Lemma core_appendEvent o ct enc st env :
  core (post (appendEvent o ct enc st) env)
  = match membership_at o env with
    | Some (h, m) => core_append h m (core env)
    | None => core env
    end.
Proof.
  unfold appendEvent, membership_at.
  destruct (get_obj o (heap env)) as [e|] eqn:He; simpl.
  - at_event He. run. destruct (ste_payload e) eqn:Ep; try (by run);
      match goal with p : MemberPayload_ _ |- _ => destruct p end; (destruct (ste_remoteEvent e); [|by run]);
      try apply core_append_membership;
      match goal with |- core (post ?m env) = _ => enough (keeps core m) as Hk by apply Hk end; keeps.
  - by rewrite post_bind_dangling.
Qed.

Lemma core_onConfirmedEvent o st env :
  core (post (Members.onConfirmedEvent o st) env)
  = match membership_at o env with
    | Some (h, m) => core_confirm h (core env)
    | None => core env
    end.
Proof.
  unfold Members.onConfirmedEvent, membership_at.
  destruct (get_obj o (heap env)) as [e|] eqn:He; simpl.
  - at_event He. unfold ste_payload. destruct (ste_remoteEvent e) as [pe|]; [|by run].
    destruct (ev_payload (pe_event pe)) eqn:Ep; try (by run);
      match goal with p : MemberPayload_ _ |- _ => destruct p end; try (by run);
      try apply core_confirm_membership;
      match goal with |- core (post ?m env) = _ => enough (keeps core m) as Hk by apply Hk end; keeps.
  - by rewrite post_bind_dangling.
Qed.
End Frames.

(** ** The published member list *)

Definition core_memberIds (c : Core) : list string := memberIds_get (c_streamId c) (c_view c).

(** The sorted list the UI reads is the list of joined members. *)
Record synced (c : Core) : Prop := {
  synced_nodup : NoDup (c_keys c);
  synced_ids : core_memberIds c = sort_strings (c_keys c);
}.

Lemma filter_negb_eqb u (l : list string) :
  List.filter (λ id, negb (String.eqb id u)) l = filter (λ k, u ≠ k) l.
Proof.
  induction l as [|x l IH]; [done|]. cbn [List.filter]. rewrite filter_cons, IH.
  destruct (String.eqb_spec x u) as [->|Hn]; simpl; case_decide; done.
Qed.

Lemma synced_core_membership u op t c : synced c → synced (core_membership u op t c).
Proof. intros [??]. by destruct op, t. Qed.

Section Invariants.
Context `{EthLib, Codec}.

Lemma synced_core_append h m c : synced c → synced (core_append h m c).
Proof.
  intros [Hn Hi]. unfold core_append. destruct (userIdFromAddress _) as [u|]; [|by split].
  simpl. destruct (mm_op m); try (by split).
  - case_decide as Hu; [by split|]. split; simpl.
    + apply NoDup_app. split_and!; [done|set_solver|apply NoDup_singleton].
    + unfold core_memberIds, memberIds_get, get, addMember in *. simpl.
      rewrite lookup_insert_eq. simpl. change (default [] _) with (core_memberIds c).
      unfold core_memberIds, memberIds_get, get. rewrite Hi. symmetry.
      apply sort_strings_unique; [|apply sort_strings_Sorted].
      rewrite sort_strings_Permutation. rewrite sort_strings_Permutation.
      by rewrite Permutation_app_comm.
  - split; simpl.
    + by apply NoDup_filter.
    + unfold core_memberIds, memberIds_get, get, removeMember in *. simpl.
      destruct (c_view c !! c_streamId c) as [ids|] eqn:Hv; simpl in *.
      * rewrite lookup_insert_eq. simpl. rewrite filter_negb_eqb, Hi. apply sort_strings_filter.
      * rewrite Hv. simpl. rewrite <- sort_strings_filter, <- Hi. done.
Qed.

Lemma synced_core_confirm h c : synced c → synced (core_confirm h c).
Proof.
  intros Hs. unfold core_confirm. destruct (c_pendingEvents c !! h) as [m|]; [|done].
  destruct (userIdFromAddress _) as [u|]; [apply synced_core_membership|]; by destruct Hs.
Qed.

(** *** Steps of the member view *)

Inductive step : relation MEnv :=
  | step_append o ct enc st env : step env (post (appendEvent o ct enc st) env)
  | step_prepend o st env : step env (post (prependEvent o st) env)
  | step_confirm o st env : step env (post (Members.onConfirmedEvent o st) env)
  | step_decrypted e c st env : step env (post (Members.onDecryptedContent e c st) env)
  | step_heap h env : step env (env <| heap := h |>)
  | step_other_stream f env :
      memberIds_get (streamId (self env)) (f (view env)) = streamMemberIds env →
      step env (env <| view ::= f |>).

Lemma step_synced env env' : step env env' → synced (core env) → synced (core env').
Proof.
  intros [] Hs.
  - rewrite core_appendEvent. destruct (membership_at _ _) as [[h m]|]; [by apply synced_core_append|done].
  - by rewrite keeps_prependEvent.
  - rewrite core_onConfirmedEvent.
    destruct (membership_at _ _) as [[h m]|]; [by apply synced_core_confirm|done].
  - by rewrite keeps_onDecryptedContent.
  - done.
  - destruct Hs as [Hn Hi]. split; [done|]. etrans; [|exact Hi]. done.
Qed.
End Invariants.

(** ** The specification of membership

    Per user the last confirmed operation, where an invitation of a joined user
    changes nothing; per stream the membership events waiting for their
    confirmation. The machine is deterministic: an announcement only waits, a
    confirmation applies the waiting event with its hash. *)

Definition membership_next (op old : MembershipOp) : MembershipOp :=
  match op with
  | SO_JOIN => SO_JOIN
  | SO_LEAVE => SO_LEAVE
  | SO_INVITE => match old with SO_JOIN => SO_JOIN | _ => SO_INVITE end
  | _ => old
  end.

Record MembershipSpec := {
  sp_status : string → MembershipOp;
  sp_waiting : gmap string MP_Membership;
}.

(** States with the same status for every user are the same. *)
#[export] Instance spec_equiv : Equiv MembershipSpec := λ a b,
  (∀ u, sp_status a u = sp_status b u) ∧ sp_waiting a = sp_waiting b.
#[export] Instance spec_equivalence : Equivalence (≡@{MembershipSpec}).
Proof.
  split; [done|by intros a b [? ?]|]. intros a b c [Hs Hw] [Hs' Hw']. split; [|congruence].
  intros u. by rewrite Hs.
Qed.

(** What a call of the member view is about *)
Inductive MembershipLabel :=
  | Announced (h : string) (m : MP_Membership)
  | Confirmed (h : string)
  | Silent.

Definition spec_next `{EthLib} (l : MembershipLabel) (a : MembershipSpec) : MembershipSpec :=
  match l with
  | Silent => a
  | Announced h m => {| sp_status := sp_status a; sp_waiting := <[h := m]> (sp_waiting a) |}
  | Confirmed h =>
      match sp_waiting a !! h with
      | None => a
      | Some m =>
          {| sp_status := match userIdFromAddress (mm_userAddress m) with
                          | Ok u => λ u', if String.eqb u' u then membership_next (mm_op m) (sp_status a u)
                                          else sp_status a u'
                          | Throw _ => sp_status a
                          end;
             sp_waiting := delete h (sp_waiting a) |}
      end
  end.
Definition spec_run `{EthLib} (ls : list MembershipLabel) (a : MembershipSpec) : MembershipSpec :=
  foldl (λ a l, spec_next l a) a ls.

#[export] Instance spec_next_proper `{EthLib} l : Proper ((≡) ==> (≡)) (spec_next l).
Proof.
  intros a b [Hs Hw]. destruct l as [h m|h|]; simpl; [by split; simpl; [|rewrite Hw]| |done].
  rewrite Hw. destruct (sp_waiting b !! h) as [m|]; [|done]. split; simpl; [intros u|done].
  destruct (userIdFromAddress _); [|done]. by rewrite !Hs.
Qed.
#[export] Instance spec_run_proper `{EthLib} ls : Proper ((≡) ==> (≡)) (spec_run ls).
Proof. induction ls as [|l ls IH]; intros a b Hab; [done|]. by apply IH, spec_next_proper. Qed.

(** The machine gives a user another status only at the confirmation of an event
    that waits and names the user. *)
Lemma spec_run_changed `{EthLib} ls u a :
  sp_status (spec_run ls a) u ≠ sp_status a u →
  ∃ before h after m, ls = before ++ Confirmed h :: after
    ∧ sp_waiting (spec_run before a) !! h = Some m ∧ userIdFromAddress (mm_userAddress m) = Ok u.
Proof.
  revert a. induction ls as [|l ls IH]; intros a Hne; [done|].
  destruct (decide (sp_status (spec_next l a) u = sp_status a u)) as [E|E].
  - destruct (IH (spec_next l a)) as (before & h & after & m & -> & Hw & Hu); [by rewrite E|].
    by exists (l :: before), h, after, m.
  - destruct l as [h m|h|]; simpl in E; [done| |done].
    destruct (sp_waiting a !! h) as [m|] eqn:Hw; [|done]. simpl in E.
    exists [], h, ls, m. split_and!; [done..|]. destruct (userIdFromAddress _) as [u'|]; [|done].
    destruct (String.eqb_spec u u') as [->|]; [done|by destruct E].
Qed.

Definition abs (s : Members) : MembershipSpec :=
  {| sp_status := λ u, info u s; sp_waiting := pendingMembershipEvents s |}.

Definition core_info (u : string) (c : Core) : MembershipOp :=
  if bool_decide (u ∈ c_joinedUsers c) then SO_JOIN
  else if bool_decide (u ∈ c_invitedUsers c) then SO_INVITE
  else if bool_decide (u ∈ c_leftUsers c) then SO_LEAVE
  else SO_UNSPECIFIED.

Lemma core_info_pending u' u op c : core_info u' (core_membership u op pending c) = core_info u' c.
Proof. by destruct op. Qed.

Lemma core_info_confirmed u' u op c :
  core_info u' (core_membership u op confirmed c)
  = if String.eqb u' u then membership_next op (core_info u c) else core_info u' c.
Proof.
  unfold core_info. destruct (String.eqb_spec u' u) as [->|Hne]; destruct op; simpl; try done;
    repeat case_bool_decide; set_solver.
Qed.

Section Refinement.
Context `{EthLib, Codec}.

Lemma core_info_append u h m c : core_info u (core_append h m c) = core_info u c.
Proof.
  unfold core_append. destruct (userIdFromAddress _); [|done].
  destruct (mm_op m); try (by rewrite core_info_pending).
  simpl. by case_decide.
Qed.

Lemma core_pending_append h m c :
  c_pendingEvents (core_append h m c) = <[h := m]> (c_pendingEvents c).
Proof.
  unfold core_append. destruct (userIdFromAddress _); [|done].
  destruct (mm_op m); simpl; try done. by case_decide.
Qed.

Lemma core_pending_membership u op t c :
  c_pendingEvents (core_membership u op t c) = c_pendingEvents c.
Proof. by destruct op, t. Qed.

(** The label of a call, read off the event it is given *)
Inductive labelled : MEnv → MembershipLabel → MEnv → Prop :=
  | labelled_append o ct enc st env :
      labelled env (from_option (λ '(h, m), Announced h m) Silent (membership_at o env))
        (post (appendEvent o ct enc st) env)
  | labelled_prepend o st env : labelled env Silent (post (prependEvent o st) env)
  | labelled_confirm o st env :
      labelled env (from_option (λ '(h, _), Confirmed h) Silent (membership_at o env))
        (post (Members.onConfirmedEvent o st) env)
  | labelled_decrypted e c st env : labelled env Silent (post (Members.onDecryptedContent e c st) env)
  | labelled_heap h env : labelled env Silent (env <| heap := h |>)
  | labelled_view f env : labelled env Silent (env <| view ::= f |>).

Inductive trace : MEnv → list MembershipLabel → MEnv → Prop :=
  | trace_nil env : trace env [] env
  | trace_cons env l env' ls env'' : labelled env l env' → trace env' ls env'' → trace env (l :: ls) env''.

Definition core_abs (c : Core) : MembershipSpec :=
  {| sp_status := λ u, core_info u c; sp_waiting := c_pendingEvents c |}.
Lemma core_abs_spec env : abs (self env) = core_abs (core env).
Proof. done. Qed.

Lemma core_abs_append h m c : core_abs (core_append h m c) ≡ spec_next (Announced h m) (core_abs c).
Proof. split; [intros u; apply core_info_append|apply core_pending_append]. Qed.

Lemma core_abs_confirm h c : core_abs (core_confirm h c) ≡ spec_next (Confirmed h) (core_abs c).
Proof.
  unfold core_confirm. simpl. destruct (c_pendingEvents c !! h) as [m|] eqn:Hm; [|done].
  destruct (userIdFromAddress (mm_userAddress m)) as [u|err] eqn:Hu; split; simpl; try done.
  - intros u'. by rewrite core_info_confirmed.
  - by rewrite core_pending_membership.
Qed.

Lemma labelled_spec env l env' : labelled env l env' → abs (self env') ≡ spec_next l (abs (self env)).
Proof.
  intros []; rewrite !core_abs_spec.
  - rewrite core_appendEvent. destruct (membership_at _ _) as [[h m]|]; [apply core_abs_append|done].
  - by rewrite keeps_prependEvent.
  - rewrite core_onConfirmedEvent. destruct (membership_at _ _) as [[h m]|]; [apply core_abs_confirm|done].
  - by rewrite keeps_onDecryptedContent.
  - done.
  - done.
Qed.

Lemma trace_spec env ls env' : trace env ls env' → abs (self env') ≡ spec_run ls (abs (self env)).
Proof.
  induction 1 as [|env l env' ls env'' Hl _ IH]; [done|]. rewrite IH. apply (spec_run_proper ls).
  by apply labelled_spec.
Qed.

(** *** Confirmation in the order of arrival *)

(** [q] holds the hashes of the membership events that were appended and not
    yet confirmed, in their order. *)
Inductive qstep : relation (list string * MEnv) :=
  | qstep_append o h m u ct enc st q env :
      membership_at o env = Some (h, m) → userIdFromAddress (mm_userAddress m) = Ok u → h ∉ q →
      qstep (q, env) (q ++ [h], post (appendEvent o ct enc st) env)
  | qstep_confirm o h m st q env :
      membership_at o env = Some (h, m) →
      qstep (h :: q, env) (q, post (Members.onConfirmedEvent o st) env)
  | qstep_append_other o ct enc st q env :
      membership_at o env = None → qstep (q, env) (q, post (appendEvent o ct enc st) env)
  | qstep_confirm_other o st q env :
      membership_at o env = None → qstep (q, env) (q, post (Members.onConfirmedEvent o st) env)
  | qstep_prepend o st q env : qstep (q, env) (q, post (prependEvent o st) env)
  | qstep_decrypted e c st q env :
      qstep (q, env) (q, post (Members.onDecryptedContent e c st) env)
  | qstep_heap h q env : qstep (q, env) (q, env <| heap := h |>).

(** The joined users once the waiting events are confirmed *)
Definition joined_next (m : option MP_Membership) (users : gset string) : gset string :=
  match m with
  | None => users
  | Some m =>
      match userIdFromAddress (mm_userAddress m), mm_op m with
      | Ok u, SO_JOIN => {[u]} ∪ users
      | Ok u, SO_LEAVE => users ∖ {[u]}
      | _, _ => users
      end
  end.

Definition joined_after (q : list string) (c : Core) : gset string :=
  foldl (λ users h, joined_next (c_pendingEvents c !! h) users) (c_joinedUsers c) q.

Record queued (q : list string) (c : Core) : Prop := {
  queued_nodup : NoDup q;
  queued_ok : ∀ h, h ∈ q → ∃ m u, c_pendingEvents c !! h = Some m
                                  ∧ userIdFromAddress (mm_userAddress m) = Ok u;
  queued_keys : list_to_set (c_keys c) = joined_after q c;
}.

Lemma joined_after_ext q (p p' : gmap string MP_Membership) users :
  (∀ h, h ∈ q → p' !! h = p !! h) →
  foldl (λ users h, joined_next (p' !! h) users) users q
  = foldl (λ users h, joined_next (p !! h) users) users q.
Proof.
  revert users. induction q as [|h q IH]; intros users Hp; [done|]. simpl.
  rewrite Hp by set_solver. apply IH. set_solver.
Qed.

Lemma core_append_joined h m u c :
  userIdFromAddress (mm_userAddress m) = Ok u →
  c_joinedUsers (core_append h m c) = c_joinedUsers c
  ∧ (list_to_set (c_keys (core_append h m c)) : gset string)
    = joined_next (Some m) (list_to_set (c_keys c)).
Proof.
  intros Hu. unfold core_append, joined_next. rewrite Hu.
  destruct (mm_op m); simpl; try done.
  - case_decide; simpl; [|split; [done|]; rewrite list_to_set_app_L; set_solver].
    split; [done|]. set_solver.
  - split; [done|]. apply set_eq. intros x. rewrite elem_of_difference, !elem_of_list_to_set,
      list_elem_of_filter. set_solver.
Qed.

Lemma core_confirm_joined h m u c :
  c_pendingEvents c !! h = Some m → userIdFromAddress (mm_userAddress m) = Ok u →
  c_joinedUsers (core_confirm h c) = joined_next (Some m) (c_joinedUsers c)
  ∧ c_keys (core_confirm h c) = c_keys c
  ∧ c_pendingEvents (core_confirm h c) = delete h (c_pendingEvents c).
Proof.
  intros Hm Hu. unfold core_confirm, joined_next. rewrite Hm, Hu. by destruct (mm_op m).
Qed.

Lemma queued_append q h m u c :
  userIdFromAddress (mm_userAddress m) = Ok u → h ∉ q →
  queued q c → queued (q ++ [h]) (core_append h m c).
Proof.
  intros Hu Hh [Hn Hok Hk]. destruct (core_append_joined h m u c Hu) as [Hj Hs]. split.
  - apply NoDup_app. split_and!; [done|set_solver|apply NoDup_singleton].
  - intros h' [Hin | ->%list_elem_of_singleton]%elem_of_app; rewrite core_pending_append.
    + destruct (Hok h' Hin) as (m' & u' & Hm' & Hu'). exists m', u'.
      rewrite lookup_insert_ne by set_solver. done.
    + exists m, u. by rewrite lookup_insert_eq.
  - rewrite Hs, Hk. unfold joined_after. rewrite foldl_snoc, Hj, core_pending_append,
      lookup_insert_eq. f_equal. symmetry. apply joined_after_ext.
    intros h' Hin. rewrite lookup_insert_ne; [done|set_solver].
Qed.

Lemma queued_confirm q h c : queued (h :: q) c → queued q (core_confirm h c).
Proof.
  intros [[Hh Hn]%NoDup_cons Hok Hk].
  destruct (Hok h) as (m & u & Hm & Hu); [set_solver|].
  destruct (core_confirm_joined h m u c Hm Hu) as (Hj & Hkeys & Hp). split; [done| |].
  - intros h' Hin. destruct (Hok h') as (m' & u' & Hm' & Hu'); [set_solver|]. exists m', u'.
    rewrite Hp, lookup_delete_ne by set_solver. done.
  - rewrite Hkeys, Hk. unfold joined_after. simpl. rewrite Hm, Hj, Hp. symmetry.
    apply joined_after_ext. intros h' Hin. rewrite lookup_delete_ne; [done|set_solver].
Qed.

Lemma qstep_queued q q' env env' :
  qstep (q, env) (q', env') → synced (core env) ∧ queued q (core env) →
  synced (core env') ∧ queued q' (core env').
Proof.
  inversion 1 as [o h m u ct enc st ? ? Ho Hu Hh|o h m st ? ? Ho|o ct enc st ? ? Ho
    |o st ? ? Ho|o st ? ?|e c st ? ?|h ? ?]; subst; intros [Hs Hq];
    try rewrite core_appendEvent, Ho; try rewrite core_onConfirmedEvent, Ho;
    try rewrite keeps_prependEvent; try rewrite keeps_onDecryptedContent; try done.
  - split; [by apply synced_core_append|by eapply queued_append].
  - split; [by apply synced_core_confirm|by apply queued_confirm].
Qed.

Lemma qsteps_queued x y :
  rtc qstep x y → synced (core x.2) ∧ queued x.1 (core x.2) →
  synced (core y.2) ∧ queued y.1 (core y.2).
Proof. induction 1 as [|[q1 e1] [q2 e2] y Hxy _ IH]; [done|]. intros Hx. eauto using qstep_queued. Qed.

(** *** The snapshot *)

Definition snapshot_userId (m : MP_Snapshot_Member) : option string :=
  match userIdFromAddress (sm_userAddress m) with Ok u => Some u | Throw _ => None end.

Definition core_snapshot (c : Core) (u : string) : Core :=
  core_membership u SO_JOIN confirmed
    (c <| c_keys ::= λ l, if decide (u ∈ l) then l else l ++ [u] |>).

Lemma core_applySnapshot_joined members us : ∀ ids env,
  mapM snapshot_userId members = Some us →
  res (applySnapshot_joined members ids) env = Ok (ids ++ us)
  ∧ core (post (applySnapshot_joined members ids) env) = foldl core_snapshot (core env) us.
Proof.
  revert us. induction members as [|m members IH]; intros us ids env; simpl.
  - intros [= <-]. by rewrite app_nil_r.
  - rewrite bind_Some. intros (u & Hu & Hb). rewrite bind_Some in Hb. destruct Hb as (us' & Hus & [= <-]).
    unfold snapshot_userId in Hu. destruct (userIdFromAddress _) as [u1|]; [|done]. injection Hu as ->.
    run_env. set (env1 := env <| self ::= _ |>).
    destruct (core_applyMembershipEvent u SO_JOIN confirmed false env1) as [Hc Hr].
    rewrite (res_bind_ok _ _ tt), (post_bind_ok _ _ tt) by done.
    destruct (IH us' (ids ++ [u]) (post (applyMembershipEvent u SO_JOIN confirmed false) env1) Hus)
      as [-> ->]. split; [by rewrite <- app_assoc|]. rewrite Hc.
    unfold env1, core, core_snapshot. simpl. by rewrite jm_keys_insert.
Qed.

Lemma core_snapshot_fold us c :
  NoDup (c_keys c ++ us) →
  let c' := foldl core_snapshot c us in
  c_keys c' = c_keys c ++ us ∧ c_joinedUsers c' = c_joinedUsers c ∪ list_to_set us
  ∧ c_view c' = c_view c ∧ c_streamId c' = c_streamId c ∧ c_invitedUsers c' = c_invitedUsers c
  ∧ c_leftUsers c' = c_leftUsers c ∧ c_pendingEvents c' = c_pendingEvents c.
Proof.
  revert c. induction us as [|u us IH]; intros c Hn; simpl.
  - rewrite app_nil_r. split_and!; set_solver.
  - assert (u ∉ c_keys c) as Hu by (apply NoDup_app in Hn; set_solver).
    destruct (IH (core_snapshot c u)) as (-> & -> & -> & -> & -> & -> & ->); simpl;
      rewrite decide_False by done; rewrite <- app_assoc; [done|].
    split_and!; try done. set_solver.
Qed.

Lemma core_applySnapshot event snapshot cts enc env members us :
  sn_members snapshot = Some members → mapM snapshot_userId (ms_joined members) = Some us →
  core (post (applySnapshot event snapshot cts enc) env)
  = let c := foldl core_snapshot (core env) us in
    c <| c_view ::= setMembers (c_streamId c) us |>.
Proof.
  intros Hm Hus. unfold applySnapshot. rewrite Hm.
  destruct (core_applySnapshot_joined (ms_joined members) us [] env Hus) as [Hr Hc].
  rewrite (post_bind_ok _ _ us) by done. rewrite <- Hc. cbv zeta.
  generalize (post (applySnapshot_joined (ms_joined members) []) env). intros env1. run_env.
  match goal with |- core (post ?m ?e) = _ => transitivity (core e); [|done] end.
  match goal with |- core (post ?m _) = _ => enough (keeps core m) as Hk by apply Hk end.
  unfold applySnapshot_pin. keeps.
Qed.

Lemma snapshot_established event snapshot cts enc members us sid h v :
  sn_members snapshot = Some members → mapM snapshot_userId (ms_joined members) = Some us →
  NoDup us →
  let env := post (applySnapshot event snapshot cts enc) (Build_Env h v (new sid)) in
  c_keys (core env) = us ∧ c_joinedUsers (core env) = list_to_set us
  ∧ c_streamId (core env) = sid ∧ c_view (core env) = setMembers sid us v
  ∧ c_invitedUsers (core env) = ∅ ∧ c_leftUsers (core env) = ∅
  ∧ synced (core env) ∧ queued [] (core env).
Proof.
  intros Hm Hus Hn. cbv zeta. rewrite (core_applySnapshot _ _ _ _ _ _ _ Hm Hus).
  destruct (core_snapshot_fold us (core (Build_Env h v (new sid))))
    as (Hk & Hj & Hv & Hs & Hi & Hl & Hp); [done|]. cbv zeta in *.
  revert Hk Hj Hv Hs Hi Hl Hp. generalize (foldl core_snapshot (core (Build_Env h v (new sid))) us).
  intros c. simpl. intros -> -> -> -> -> -> Hp. split_and!; try done.
  - set_solver.
  - split; [done|]. unfold core_memberIds, memberIds_get, get, setMembers, setValueFor. simpl. by rewrite lookup_insert_eq.
  - split; simpl; [apply NoDup_nil_2|by intros ? ?%not_elem_of_nil|]. unfold joined_after. simpl.
    set_solver.
Qed.
End Refinement.

Lemma synced_new h (v : StreamMemberIds) sid :
  v !! sid = None → synced (core (Build_Env h v (new sid))).
Proof.
  intros Hv. split; [apply NoDup_nil_2|]. unfold core_memberIds, memberIds_get, get. simpl.
  by rewrite Hv.
Qed.

Lemma steps_synced `{EthLib, Codec} env env' :
  rtc step env env' → synced (core env) → synced (core env').
Proof. induction 1; eauto using step_synced. Qed.

(** ** Theorems *)

(** C14. A membership event has two phases. When it is appended nobody's
    membership changes and it waits under its hash. Whenever it is confirmed
    later, its user gets the membership it announces (an invitation of a joined
    user leaves the user joined), everybody else keeps theirs, the event stops
    waiting, and confirming it again changes nothing. *)
Theorem membership_two_phase `{EthLib, Codec} o h m u ct enc st env env2 :
  membership_at o env = Some (h, m) → userIdFromAddress (mm_userAddress m) = Ok u →
  membership_at o env2 = Some (h, m) → pendingMembershipEvents (self env2) !! h = Some m →
  let env1 := post (appendEvent o ct enc st) env in
  let env3 := post (Members.onConfirmedEvent o st) env2 in
  (∀ u', info u' (self env1) = info u' (self env))
  ∧ pendingMembershipEvents (self env1) !! h = Some m
  ∧ (∀ u', info u' (self env3)
           = if String.eqb u' u then membership_next (mm_op m) (info u (self env2))
             else info u' (self env2))
  ∧ pendingMembershipEvents (self env3) !! h = None
  ∧ (membership_at o env3 = Some (h, m) →
     core (post (Members.onConfirmedEvent o st) env3) = core env3).
Proof.
  intros Ho Hu Ho2 Hp. cbv zeta.
  pose proof (core_appendEvent o ct enc st env) as H1. rewrite Ho in H1.
  pose proof (core_onConfirmedEvent o st env2) as H2. rewrite Ho2 in H2.
  pose proof (core_onConfirmedEvent o st (post (Members.onConfirmedEvent o st) env2)) as H3.
  destruct (core_confirm_joined h m u (core env2) Hp Hu) as (_ & _ & Hd). rewrite <- H2 in Hd.
  split_and!.
  - intros u'. etrans; [exact (f_equal (core_info u') H1)|]. apply core_info_append.
  - etrans; [exact (f_equal (λ c, c_pendingEvents c !! h) H1)|].
    simpl. by rewrite core_pending_append, lookup_insert_eq.
  - intros u'. etrans; [exact (f_equal (core_info u') H2)|]. unfold core_confirm.
    change (c_pendingEvents (core env2)) with (pendingMembershipEvents (self env2)).
    rewrite Hp, Hu. apply core_info_confirmed.
  - etrans; [exact (f_equal (.!! h) Hd)|]. apply lookup_delete_eq.
  - intros Ho3. rewrite Ho3 in H3. rewrite H3. unfold core_confirm.
    by rewrite Hd, lookup_delete_eq.
Qed.

(** C1. The member view refines a deterministic membership machine: whatever
    events are appended, prepended, confirmed or decrypted, in whatever order and
    whether or not the handlers throw, the membership of every user and the
    waiting events are those of the machine run on the membership events that
    were appended and confirmed, in their order. So a user's membership changes
    only when a membership event of the user that was appended, or waited
    before, is confirmed. *)
Theorem membership_refines_spec `{EthLib, Codec} env ls env' :
  trace env ls env' →
  abs (self env') ≡ spec_run ls (abs (self env))
  ∧ ∀ u, info u (self env') ≠ info u (self env) →
      ∃ before h after m, ls = before ++ Confirmed h :: after
        ∧ (sp_waiting (spec_run before (abs (self env)))) !! h = Some m
        ∧ userIdFromAddress (mm_userAddress m) = Ok u.
Proof.
  intros Ht%trace_spec. split; [done|]. intros u Hne. apply spec_run_changed.
  rewrite <- (proj1 Ht u). exact Hne.
Qed.

(** C13. The member list the views read is always the sorted list of the joined
    members, each listed once, after every sequence of events, from an empty
    view on. *)
Theorem member_list_synced `{EthLib, Codec} h (v : StreamMemberIds) sid env :
  v !! sid = None → rtc step (Build_Env h v (new sid)) env →
  streamMemberIds env = sort_strings (jm_keys (joined (self env)))
  ∧ jm_wf (joined (self env)).
Proof.
  intros Hv Hr. destruct (steps_synced _ _ Hr (synced_new h v sid Hv)) as [Hn Hi]. by split.
Qed.

(** A snapshot with distinct users sets the membership: exactly its users
    are joined, nobody else has any membership, and the member list is their
    sorted list. From there on, while membership events are confirmed in the
    order they arrived, a user is in the member list exactly when confirming
    the waiting events would make them joined; so when nothing waits the list
    is the confirmed membership. *)
Theorem member_list_confirmed `{EthLib, Codec} event snapshot cts enc members us sid h v q env :
  sn_members snapshot = Some members → mapM snapshot_userId (ms_joined members) = Some us →
  NoDup us →
  let env0 := post (applySnapshot event snapshot cts enc) (Build_Env h v (new sid)) in
  rtc qstep ([], env0) (q, env) →
  (∀ u, info u (self env0) = if bool_decide (u ∈ us) then SO_JOIN else SO_UNSPECIFIED)
  ∧ streamMemberIds env0 = sort_strings us
  ∧ (∀ u, u ∈ streamMemberIds env ↔ u ∈ joined_after q (core env))
  ∧ (q = [] → ∀ u, u ∈ streamMemberIds env ↔ isMemberJoined u (self env) = true).
Proof.
  intros Hm Hus Hn. cbv zeta.
  destruct (snapshot_established event snapshot cts enc members us sid h v Hm Hus Hn)
    as (Hk & Hj & Hs & Hv & Hi & Hl & Hsync & Hq). cbv zeta in *.
  intros Hr. destruct (qsteps_queued _ _ Hr (conj Hsync Hq)) as [[_ Hids] [_ _ Hkeys]].
  cbn [fst snd] in *.
  assert (∀ u, u ∈ streamMemberIds env ↔ u ∈ joined_after q (core env)) as Hin.
  { intros u. rewrite <- Hkeys, elem_of_list_to_set.
    change (streamMemberIds env) with (core_memberIds (core env)).
    by rewrite Hids, sort_strings_Permutation. }
  split_and!; [| |done|].
  - intros u. change (info u (self ?e)) with (core_info u (core e)). unfold core_info.
    rewrite Hj, Hi, Hl. repeat case_bool_decide; set_solver.
  - destruct Hsync as [_ Hi0]. rewrite Hk in Hi0. exact Hi0.
  - intros -> u. rewrite Hin. unfold isMemberJoined, joined_after. simpl.
    by rewrite bool_decide_eq_true.
Qed.

(** ** The hypotheses can be met

    Ann and Bob are members, Cat joins. *)
Module MembersWitness.
Import ModelEth Fixtures.

Definition snap := snapshot [snapshotMember x0a []; snapshotMember x0b []].
Definition heap0 := heap_of [remote x01 x0c (P_memberPayload (MP_membership (membership SO_JOIN x0c)))].
Definition start : MEnv := Build_Env heap0 ∅ (new "s").
Definition env0 : MEnv := post (applySnapshot (parsed x00 x0a P_unset) snap None true) start.
Definition env1 : MEnv := post (appendEvent O None true true) env0.
Definition env2 : MEnv := post (Members.onConfirmedEvent O true) env1.

Lemma membership_two_phase_witness :
  info (user x0c) (self env1) = SO_UNSPECIFIED ∧ info (user x0c) (self env2) = SO_JOIN.
Proof.
  destruct (membership_two_phase O "01" (membership SO_JOIN x0c) (user x0c) None true true env0 env1)
    as (H1 & _ & H2 & _); [vm_compute; reflexivity..|].
  specialize (H1 (user x0c)). specialize (H2 (user x0c)). fold env1 in H1. fold env2 in H2.
  rewrite H1, H2. vm_compute. split; reflexivity.
Defined.

Lemma membership_refines_spec_witness :
  abs (self env2) ≡ spec_run [Announced "01" (membership SO_JOIN x0c); Confirmed "01"] (abs (self env0)).
Proof.
  apply membership_refines_spec. apply (trace_cons _ _ env1).
  { exact (labelled_append O None true true env0). }
  apply (trace_cons _ _ env2); [exact (labelled_confirm O true env1)|apply trace_nil].
Defined.

Lemma member_list_synced_witness :
  let env := post (appendEvent O None true true) start in
  streamMemberIds env = sort_strings (jm_keys (joined (self env))) ∧ jm_wf (joined (self env)).
Proof.
  apply (member_list_synced heap0 ∅ "s"); [reflexivity|].
  eapply rtc_l; [apply step_append|apply rtc_refl].
Defined.

Lemma member_list_confirmed_witness :
  streamMemberIds env0 = sort_strings [user x0a; user x0b]
  ∧ (user x0c ∈ streamMemberIds env2 ↔ isMemberJoined (user x0c) (self env2) = true).
Proof.
  destruct (member_list_confirmed (parsed x00 x0a P_unset) snap None true
    (memberSnapshot [snapshotMember x0a []; snapshotMember x0b []]) [user x0a; user x0b] "s" heap0 ∅
    [] env2) as (_ & Hs & _ & H); [reflexivity|vm_compute; reflexivity| | |].
  - apply (bool_decide_unpack _). vm_compute. exact I.
  - unfold env2, env1, env0, start. eapply rtc_l.
    { apply (qstep_append O "01" (membership SO_JOIN x0c) (user x0c) None true true []);
        [vm_compute; reflexivity..|by apply not_elem_of_nil]. }
    change ([] ++ ["01"]) with ["01"]. eapply rtc_l; [|apply rtc_refl].
    apply (qstep_confirm O "01" (membership SO_JOIN x0c) true []). vm_compute. reflexivity.
  - split; [exact Hs|]. by apply H.
Defined.
End MembersWitness.
