(* ===== verification/MemberEventsFacts.v ===== *)
(** * MemberEventsFacts: solicitations, tips, pins, reviews and who may write *)

From Stdlib Require Import Strings.Byte.
From S2P Require Import Prelude JsLib JsMap Ids IdsFacts Utils Proto Types TimelineTypes StreamEvents.
From S2P Require Import StreamViews Content Usernames MemberMetadata Solicitations Fixtures Members.
From S2P Require Import MembersFacts.

(** [at_member e payload env o]: [o] is a remote event with a member payload. *)
Definition member_event (o : ObjId) (env : MEnv) (e : StreamTimelineEvent) (p : MemberPayload)
    : Prop :=
  get_obj o (heap env) = Some e ∧ ste_payload e = P_memberPayload p.

Lemma member_event_remote o env e p : member_event o env e p → ∃ pe, ste_remoteEvent e = Some pe.
Proof.
  intros [_ Hp]. unfold ste_payload in Hp. destruct (ste_remoteEvent e) as [pe|]; [by exists pe|done].
Qed.

(** [run_event H]: run a handler on the event of [H : member_event ..]. *)
Ltac run_event H :=
  let Hr := fresh "Hr" in let Hp := fresh "Hp" in
  destruct (member_event_remote _ _ _ _ H) as [? Hr]; destruct H as [H Hp];
  first [rewrite !(post_bind_deref _ _ _ _ H) | idtac];
  first [rewrite !(res_bind_deref _ _ _ _ H) | idtac];
  first [rewrite !(out_bind_deref _ _ _ _ H) | idtac];
  run; rewrite ?Hp, ?Hr.

(** ** Key solicitations *)

(** One request per device, its session ids in order *)
Record sol_wf (l : list KeySolicitationContent) : Prop := {
  sol_nodup : NoDup (ksc_deviceKey <$> l);
  sol_sorted : ∀ x, x ∈ l → StronglySorted String.le (ksc_sessionIds x);
}.

Lemma sort_strings_StronglySorted l : StronglySorted String.le (sort_strings l).
Proof. apply Sorted_StronglySorted; [exact _|apply sort_strings_Sorted]. Qed.

Section Solicitations.
Context `{EthLib, Codec}.

Lemma applySolicitation_spec u a l e v sig enc s :
  let m := Solicitations.applySolicitation u a l e v sig enc in
  let k := {| ksc_deviceKey := ks_deviceKey v; ksc_fallbackKey := ks_fallbackKey v;
              ksc_isNewDevice := ks_isNewDevice v;
              ksc_sessionIds := sort_strings (ks_sessionIds v) |} in
  res m s = Ok (filter (λ x, ksc_deviceKey x ≠ ks_deviceKey v) l ++ [k]) ∧ post m s = s.
Proof.
  cbv zeta. unfold Solicitations.applySolicitation. run. split; [|done]. do 2 f_equal.
  induction l as [|x l IH]; [done|]. cbn [List.filter]. rewrite filter_cons, IH.
  destruct (String.eqb_spec (ksc_deviceKey x) (ks_deviceKey v)); simpl; by case_decide.
Qed.

Lemma applySolicitation_wf l v :
  sol_wf l →
  sol_wf (filter (λ x, ksc_deviceKey x ≠ ks_deviceKey v) l ++
          [{| ksc_deviceKey := ks_deviceKey v; ksc_fallbackKey := ks_fallbackKey v;
              ksc_isNewDevice := ks_isNewDevice v;
              ksc_sessionIds := sort_strings (ks_sessionIds v) |}]).
Proof.
  intros [Hn Hs]. split.
  - rewrite fmap_app. apply NoDup_app. split_and!; [| |apply NoDup_singleton].
    + eapply sublist_NoDup; [exact Hn|]. apply fmap_sublist, sublist_filter.
    + intros k (x & -> & [Hx _]%list_elem_of_filter)%list_elem_of_fmap Hk.
      apply list_elem_of_singleton in Hk. simpl in Hk. done.
  - intros x [[_ Hx]%list_elem_of_filter | ->%list_elem_of_singleton]%elem_of_app; [by apply Hs|].
    apply sort_strings_StronglySorted.
Qed.

(** What a fulfilment makes of the request it answers *)
Definition answered (v : MP_KeyFulfillment) (k : KeySolicitationContent) : KeySolicitationContent := {|
  ksc_deviceKey := ksc_deviceKey k; ksc_fallbackKey := ksc_fallbackKey k;
  ksc_isNewDevice := false;
  ksc_sessionIds := removeCommon (ksc_sessionIds k) (sort_strings (kf_sessionIds v)) |}.

Lemma applyFulfillment_spec u a l v enc s l' :
  res (Solicitations.applyFulfillment u a l v enc) s = Ok l' → NoDup (ksc_deviceKey <$> l) →
  l' = (λ k, if String.eqb (ksc_deviceKey k) (kf_deviceKey v) then answered v k else k) <$> l.
Proof.
  unfold Solicitations.applyFulfillment. run.
  destruct (snapshotSigBundle s) as [sig|]; run; [|done].
  destruct (snapshotEventId s) as [eid|]; run; [|done].
  destruct (findIndex _ l) as [i|] eqn:Hi; run.
  - apply findIndex_Some in Hi as (k & Hk & Hd & _). rewrite Hk. run. intros [= <-] Hn.
    apply list_eq. intros j. rewrite list_lookup_fmap.
    destruct (decide (i = j)) as [->|Hij].
    + rewrite list_lookup_insert_eq by (by eapply lookup_lt_Some). by rewrite Hk; simpl; rewrite Hd.
    + rewrite list_lookup_insert_ne by done. destruct (l !! j) as [kj|] eqn:Hj; [|done]. simpl.
      destruct (String.eqb_spec (ksc_deviceKey kj) (kf_deviceKey v)) as [E|]; [|done].
      exfalso. apply Hij. apply String.eqb_eq in Hd.
      eapply (NoDup_lookup _ _ _ (ksc_deviceKey k) Hn); rewrite list_lookup_fmap, ?Hk, ?Hj; simpl; congruence.
  - intros [= <-] _. rewrite findIndex_None in Hi. symmetry.
    rewrite <- (list_fmap_id l) at 2. apply list_fmap_ext. intros j k Hk.
    by rewrite (Hi k) by (by eapply list_elem_of_lookup_2).
Qed.

Lemma applyFulfillment_wf v l :
  sol_wf l →
  sol_wf ((λ k, if String.eqb (ksc_deviceKey k) (kf_deviceKey v) then answered v k else k) <$> l).
Proof.
  intros [Hn Hs]. split.
  - rewrite <- list_fmap_compose.
    rewrite (list_fmap_ext _ ksc_deviceKey l); [done|].
    intros i k _. simpl. by case_match.
  - intros x (k & -> & Hk)%list_elem_of_fmap. case_match; [|by apply Hs].
    simpl. rewrite removeCommon_diff. apply diff_sorted. by apply Hs.
Qed.

(** The requests of a user: only solicitations, fulfilments, joins and leaves
    of that user change them. *)
Definition sols (u : string) (env : MEnv) : option (list KeySolicitationContent) :=
  me_solicitations <$> joined (self env) !! u.

Lemma keeps_sols_member u u' f :
  (∀ m, me_solicitations (f m) = me_solicitations m) → keeps (sols u) (on_member u' f).
Proof.
  intros Hf. apply keeps_modify. intros env. unfold sols. simpl. rewrite jm_lookup_alter.
  case_decide; [|done]. destruct (joined (self env) !! u); simpl; [by rewrite Hf|done].
Qed.
Hint Extern 2 (keeps (sols _) (on_member _ _)) =>
  apply keeps_sols_member; intros ?; reflexivity : keeps.

Lemma keeps_sols_membership u u' op t st : keeps (sols u) (applyMembershipEvent u' op t st).
Proof. unfold applyMembershipEvent, emitMembershipChange. keeps. Qed.
Hint Resolve keeps_sols_membership : keeps.

Lemma keeps_sols_prependEvent u o st : keeps (sols u) (prependEvent o st).
Proof. unfold prependEvent, addTokenTransfer. keeps. Qed.

Lemma keeps_sols_onConfirmedEvent u o st : keeps (sols u) (Members.onConfirmedEvent o st).
Proof. unfold Members.onConfirmedEvent, confirm_membership. keeps. Qed.

Lemma keeps_sols_onDecryptedContent u e c st : keeps (sols u) (Members.onDecryptedContent e c st).
Proof. unfold Members.onDecryptedContent. keeps. Qed.

Definition sols_wf (env : MEnv) : Prop := ∀ u l, sols u env = Some l → sol_wf l.

Lemma sols_wf_keeps {A} (m : MM A) env :
  (∀ u, keeps (sols u) m) → sols_wf env → sols_wf (post m env).
Proof. intros Hk Hw u l. rewrite (Hk u). apply Hw. Qed.

Lemma sols_wf_membership e m st env :
  sols_wf env → sols_wf (post (append_membership e m st) env).
Proof.
  intros Hw. unfold append_membership. run_env.
  destruct (userIdFromAddress _) as [u|]; run; [|done].
  set (env1 := env <| self ::= _ |>). assert (sols_wf env1) as Hw1 by done. clearbody env1. clear Hw.
  destruct (mm_op m); try (by apply sols_wf_keeps; [keeps|]).
  - destruct (jm_has u _); run; [done|]. apply sols_wf_keeps; [keeps|].
    intros u' l. unfold sols. simpl. rewrite jm_lookup_insert. case_decide; [|apply Hw1].
    intros [= <-]. split; [apply NoDup_nil_2|by intros ? ?%not_elem_of_nil].
  - run. apply sols_wf_keeps; [keeps|]. intros u' l. unfold sols. simpl.
    rewrite jm_lookup_delete. case_decide; [done|apply Hw1].
Qed.

(** A handler that rewrites the requests of one member *)
Lemma sols_wf_solicit u mb (h : M Emit Solicitations.Solicitations (list KeySolicitationContent)) env :
  joined (self env) !! u = Some mb → sols_wf env →
  (∀ l, res h (solicitHelper (self env)) = Ok l → sol_wf (me_solicitations mb) → sol_wf l) →
  sols_wf (post (l ← on_solicit h; on_member u (λ m, m <| me_solicitations := l |>)) env).
Proof.
  intros Hu Hw Hl. assert (sol_wf (me_solicitations mb)) as Hmb.
  { apply (Hw u). unfold sols. by rewrite Hu. }
  rewrite post_bind. unfold on_solicit, on_member, on_self, on_part. run.
  destruct (res h _) as [l|]; run; [|done]. intros u' l'. unfold sols. simpl.
  rewrite jm_lookup_alter. case_decide; subst; [|apply Hw]. rewrite Hu. simpl.
  intros [= <-]. by apply Hl.
Qed.

Lemma sols_wf_appendEvent o ct enc st env :
  sols_wf env → sols_wf (post (appendEvent o ct enc st) env).
Proof.
  intros Hw. unfold appendEvent.
  destruct (get_obj o (heap env)) as [e|] eqn:He; [|by rewrite post_bind_dangling].
  at_event He. run. destruct (ste_payload e) eqn:Ep; try (by run);
    match goal with p : MemberPayload_ _ |- _ => destruct p end;
    (destruct (ste_remoteEvent e); [|by run]);
    try (by apply sols_wf_keeps; [intros u; unfold append_tip, append_spaceReview,
                                    addTokenTransfer, addPin, removePin; keeps|]);
    [by apply sols_wf_membership| |].
  - destruct (joined (self env) !! ste_creatorUserId e) as [mb|] eqn:Hm; [|by run].
    eapply sols_wf_solicit; [done..|]. intros l Hl Hmb.
    destruct (applySolicitation_spec (me_userId mb) (me_userAddress mb) (me_solicitations mb)
      (ste_hashStr e) v (getEventSignature p) enc (solicitHelper (self env))) as [Hr _].
    rewrite Hl in Hr. injection Hr as ->. by apply applySolicitation_wf.
  - destruct (userIdFromAddress _) as [u|]; run; [|done].
    destruct (joined (self env) !! u) as [mb|] eqn:Hm; [|by run].
    eapply sols_wf_solicit; [done..|]. intros l Hl Hmb.
    rewrite (applyFulfillment_spec _ _ _ _ _ _ _ Hl (sol_nodup _ Hmb)).
    by apply applyFulfillment_wf.
Qed.

Lemma step_sols_wf env env' : step env env' → sols_wf env → sols_wf env'.
Proof.
  intros [] Hw; [by apply sols_wf_appendEvent| | | |done..]; apply sols_wf_keeps; try done; intros u.
  - apply keeps_sols_prependEvent.
  - apply keeps_sols_onConfirmedEvent.
  - apply keeps_sols_onDecryptedContent.
Qed.

Lemma steps_sols_wf env env' : rtc step env env' → sols_wf env → sols_wf env'.
Proof. induction 1; eauto using step_sols_wf. Qed.

Lemma sols_wf_new h v sid : sols_wf (Build_Env h v (new sid)).
Proof. by intros u l. Qed.
End Solicitations.

#[export] Instance count_Proper x : Proper (Permutation ==> eq) (count x).
Proof.
  induction 1 as [|a l l' _ IH|a b l|l1 l2 l3 _ IH1 _ IH2]; rewrite ?count_cons; lia.
Qed.

Lemma count_sort x l : count x (sort_strings l) = count x l.
Proof. apply count_Proper, sort_strings_Permutation. Qed.

Lemma answered_count v k x :
  StronglySorted String.le (ksc_sessionIds k) →
  count x (ksc_sessionIds (answered v k))
  = (count x (ksc_sessionIds k) - count x (kf_sessionIds v))%nat.
Proof.
  intros Hs. simpl. rewrite removeCommon_diff, diff_count, count_sort; [done..|].
  apply sort_strings_StronglySorted.
Qed.

(** ** Tips *)

Definition amount (currency : string) (m : gmap string Z) : Z := default 0 (m !! currency).

Lemma amount_add c currency x m :
  amount c (add_amount currency x m) = amount c m + if String.eqb c currency then x else 0.
Proof.
  unfold amount, add_amount. destruct (String.eqb_spec c currency) as [->|Hne].
  - by rewrite lookup_insert_eq.
  - rewrite lookup_insert_ne by done. lia.
Qed.

(** A member's tips: sent, received and their counts *)
Definition member_tips (c : string) (m : StreamMember) : Z * Z * (Z * Z) :=
  (amount c (default ∅ (me_tipsSent m)), amount c (default ∅ (me_tipsReceived m)),
   (amount c (default ∅ (me_tipsSentCount m)), amount c (default ∅ (me_tipsReceivedCount m)))).

(** ** Space reviews *)

Definition reviewer (r : MemberSpaceReview) : string := rev_user (msr_review r).

Lemma insert_reviewers i r r' (l : list MemberSpaceReview) :
  l !! i = Some r → reviewer r' = reviewer r → reviewer <$> <[i := r']> l = reviewer <$> l.
Proof.
  intros Hi Hr. rewrite list_fmap_insert, Hr. apply list_insert_id. by rewrite list_lookup_fmap, Hi.
Qed.

Section Reviews.
Context `{EthLib, Codec}.

Definition reviews_wf (env : MEnv) : Prop := NoDup (reviewer <$> spaceReviews (self env)).

Lemma reviews_wf_append e r c st env :
  reviews_wf env → reviews_wf (post (append_spaceReview e r c st) env).
Proof.
  intros Hw. unfold append_spaceReview. destruct r as [r|], (sr_event c) as [ev|]; run; try done.
  destruct (findIndex _ _) as [i|] eqn:Hi; run_env.
  - apply findIndex_Some in Hi as (x & Hx & Hd & _). apply String.eqb_eq in Hd.
    unfold reviews_wf. simpl. by rewrite (insert_reviewers _ x).
  - rewrite findIndex_None in Hi. unfold reviews_wf. simpl. rewrite fmap_app.
    apply NoDup_app. split_and!; [done| |apply NoDup_singleton].
    intros u (x & -> & Hx)%list_elem_of_fmap. simpl. rewrite list_elem_of_singleton. intros E.
    specialize (Hi x Hx). apply String.eqb_neq in Hi. done.
Qed.

Lemma reviews_wf_keeps {A} (m : MM A) env :
  keeps (λ env, spaceReviews (self env)) m → reviews_wf env → reviews_wf (post m env).
Proof. intros Hk. unfold reviews_wf. by rewrite (Hk env). Qed.

Lemma reviews_wf_appendEvent o ct enc st env :
  reviews_wf env → reviews_wf (post (appendEvent o ct enc st) env).
Proof.
  intros Hw. unfold appendEvent.
  destruct (get_obj o (heap env)) as [e|] eqn:He; [|by rewrite post_bind_dangling].
  at_event He. run. destruct (ste_payload e) eqn:Ep; try (by run);
    match goal with p : MemberPayload_ _ |- _ => destruct p end;
    (destruct (ste_remoteEvent e); [|by run]);
    try (by apply reviews_wf_keeps; [unfold append_membership, applyMembershipEvent,
      emitMembershipChange, addPin, removePin, on_member; keeps|]).
  destruct (bt_content <$> mbt_transaction v) as [[]|]; [by run| | |by apply reviews_wf_append|by run];
    apply reviews_wf_keeps; try done; unfold append_tip, addTokenTransfer, on_member; keeps.
Qed.
End Reviews.

(** ** Pins *)

Section Pins.
Context `{EthLib, Codec}.

(** References point to allocated objects. *)
Definition pins_allocated (env : MEnv) : Prop :=
  ∀ p, p ∈ pins (self env) → (pin_obj p < next_id (heap env))%nat.

Lemma findIndex_ext {A} (f g : A → bool) l :
  (∀ x, x ∈ l → f x = g x) → findIndex f l = findIndex g l.
Proof.
  induction l as [|x l IH]; intros Hfg; [done|]. simpl. rewrite (Hfg x) by set_solver.
  rewrite IH; [done|set_solver].
Qed.

Lemma findIndex_snoc {A} (f : A → bool) l x :
  findIndex f l = None → f x = true → findIndex f (l ++ [x]) = Some (length l).
Proof.
  induction l as [|y l IH]; simpl; intros Hl Hx; [by rewrite Hx|].
  destruct (f y); [done|]. destruct (findIndex f l); [done|]. by rewrite IH.
Qed.

Lemma pin_has_hash_alloc e h p id :
  (pin_obj p < next_id h)%nat → pin_has_hash (alloc_obj e h).2 id p = pin_has_hash h id p.
Proof. intros Hp. unfold pin_has_hash. rewrite get_obj_alloc_ne by lia. done. Qed.

(** Appending a pin allocates its event and adds it at the end. *)
Lemma append_pin o e pin ev pe enc st env :
  member_event o env e (MP_pin pin) → pin_event pin = Some ev →
  makeParsedEvent ev (pin_eventId pin) None = Ok pe →
  let m := appendEvent o None enc st in
  res m env = Ok tt
  ∧ heap (post m env) = (alloc_obj (makeRemoteTimelineEvent pe 0 None None) (heap env)).2
  ∧ pins (self (post m env))
    = pins (self env) ++ [{| pin_creatorUserId := ste_creatorUserId e; pin_obj := next_id (heap env) |}].
Proof.
  intros He Hev Hpe. cbv zeta. unfold appendEvent. run_event He. rewrite Hev, Hpe. run.
  unfold addPin. run_env.
  rewrite (res_bind_deref _ (makeRemoteTimelineEvent pe 0 None None)) by apply get_obj_alloc.
  rewrite !(post_bind_deref _ (makeRemoteTimelineEvent pe 0 None None)) by apply get_obj_alloc.
  run. destruct (message_content _) as [c|]; [|by run].
  unfold decryptEvent. cbn [truthy_cleartext]. run.
  rewrite (res_bind_deref _ (makeRemoteTimelineEvent pe 0 None None)) by apply get_obj_alloc.
  rewrite !(post_bind_deref _ (makeRemoteTimelineEvent pe 0 None None)) by apply get_obj_alloc.
  by run.
Qed.
End Pins.

(** ** Theorems *)

(** A key fulfilment answers exactly what was asked: whatever happened
    since the state [env0], the request of the device keeps each session id as
    often as it was requested beyond the answered ids and is no longer one of a
    new device; the other requests of the user, and those of everybody else,
    stay as they are. *)
Theorem fulfillment_answers `{EthLib, Codec} env0 env o e v u l ct enc st :
  sols_wf env0 → rtc step env0 env →
  member_event o env e (MP_keyFulfillment v) → userIdFromAddress (kf_userAddress v) = Ok u →
  sols u env = Some l →
  isDefined (snapshotSigBundle (solicitHelper (self env))) = true →
  isDefined (snapshotEventId (solicitHelper (self env))) = true →
  let m := appendEvent o ct enc st in
  res m env = Ok tt
  ∧ (∀ u', u' ≠ u → sols u' (post m env) = sols u' env)
  ∧ ∃ l', sols u (post m env) = Some l' ∧ length l' = length l
    ∧ ∀ i k, l !! i = Some k → ∃ k', l' !! i = Some k' ∧ ksc_deviceKey k' = ksc_deviceKey k
      ∧ if String.eqb (ksc_deviceKey k) (kf_deviceKey v)
        then ksc_isNewDevice k' = false
             ∧ ∀ x, count x (ksc_sessionIds k')
                    = (count x (ksc_sessionIds k) - count x (kf_sessionIds v))%nat
        else k' = k.
Proof.
  intros Hw Hr He Hu Hl Hs1 Hs2. cbv zeta. apply (steps_sols_wf _ _ Hr) in Hw.
  pose proof (Hw _ _ Hl) as [Hn Hsort].
  unfold appendEvent. run_event He. rewrite Hu. run.
  unfold sols in Hl |- *. destruct (joined (self env) !! u) as [mb|] eqn:Hm; [|done].
  injection Hl as Hl. unfold on_solicit, on_part. rewrite Hl.
  destruct (res (Solicitations.applyFulfillment (me_userId mb) (me_userAddress mb) l v enc)
              (solicitHelper (self env))) as [l'|err] eqn:Hres.
  2: { exfalso. revert Hres. unfold Solicitations.applyFulfillment. run. rewrite Hs1. run. rewrite Hs2. run.
       repeat (case_match; run; try done). }
  rewrite (res_bind_ok _ _ l'), !(post_bind_ok _ _ l') by (by run).
  unfold on_member, on_self. run. simpl. split_and!; [done| |].
  - intros u' Hne. rewrite jm_lookup_alter, decide_False by done. done.
  - rewrite jm_lookup_alter, decide_True, Hm by done. simpl. exists l'. split; [done|].
    rewrite (applyFulfillment_spec _ _ _ _ _ _ _ Hres Hn), length_fmap. split; [done|].
    intros i k Hk. eexists. rewrite list_lookup_fmap, Hk. split; [done|].
    destruct (String.eqb (ksc_deviceKey k) (kf_deviceKey v)); [|done].
    split_and!; [done..|]. intros sid. apply answered_count, Hsort.
    by eapply list_elem_of_lookup_2.
Qed.

(** A tip is booked once and in full: the stream's total and count for its
    currency grow by the amount and by one, the sender's sent and the
    receiver's received amounts likewise when they are members, and no other
    amount of any member or currency changes. *)
Theorem tip_accounted `{EthLib, Codec} o e v t tip ev currency sender receiver ct enc st env :
  member_event o env e (MP_memberBlockchainTransaction v) →
  mbt_transaction v = Some t → bt_content t = BT_tip tip → tip_event tip = Some ev →
  getAddress (bin_toHexString (te_currency ev)) = Ok currency →
  userIdFromAddress (mbt_fromUserAddress v) = Ok sender →
  userIdFromAddress (tip_toUserAddress tip) = Ok receiver →
  let m := appendEvent o ct enc st in
  let s := self env in let s' := self (post m env) in
  res m env = Ok tt
  ∧ (∀ c, amount c (tips s') = amount c (tips s) + (if String.eqb c currency then te_amount ev else 0)
        ∧ amount c (tipsCount s') = amount c (tipsCount s) + (if String.eqb c currency then 1 else 0))
  ∧ (∀ u, joined s !! u = None → joined s' !! u = None)
  ∧ (∀ u mb, joined s !! u = Some mb → ∃ mb', joined s' !! u = Some mb' ∧ ∀ c,
       let here (w : string) := String.eqb u w && String.eqb c currency in
       let '(s1, r1, (sc1, rc1)) := member_tips c mb in
       member_tips c mb'
       = (s1 + (if here sender then te_amount ev else 0),
          r1 + (if here receiver then te_amount ev else 0),
          (sc1 + (if here sender then 1 else 0), rc1 + (if here receiver then 1 else 0)))).
Proof.
  intros He Ht Hc Hev Hcur Hs Hr. cbv zeta. unfold appendEvent. run_event He. rewrite Ht. simpl.
  rewrite Hc. unfold append_tip. rewrite Hev, Hcur, Hs, Hr. unfold on_member. run_env. simpl.
  split_and!; [done| | |].
  - intros c. by rewrite !amount_add.
  - intros u Hu. rewrite !jm_lookup_alter. repeat case_decide; by rewrite Hu.
  - intros u mb Hu. rewrite !jm_lookup_alter, Hu.
    destruct (String.eqb_spec u sender), (String.eqb_spec u receiver);
      repeat case_decide; try congruence; eexists; (split; [reflexivity|]); intros c;
      unfold member_tips; simpl; rewrite ?amount_add, ?Z.add_0_r; done.
Qed.

(** Pinning a message and unpinning it again leaves the pins as they were,
    with one pin in between that holds the pinned event, when the message is
    not pinned already. *)
Theorem pin_unpin_roundtrip `{EthLib, Codec} o1 e1 pin ev pe o2 e2 ct enc st env :
  member_event o1 env e1 (MP_pin pin) → pin_event pin = Some ev →
  makeParsedEvent ev (pin_eventId pin) None = Ok pe →
  member_event o2 env e2 (MP_unpin (pin_eventId pin)) → (o2 < next_id (heap env))%nat →
  pins_allocated env →
  findIndex (pin_has_hash (heap env) (bin_toHexString (pin_eventId pin))) (pins (self env)) = None →
  let m1 := appendEvent o1 None enc st in let env1 := post m1 env in
  let m2 := appendEvent o2 ct enc st in let env2 := post m2 env1 in
  res m1 env = Ok tt ∧ res m2 env1 = Ok tt
  ∧ (∃ p, pins (self env1) = pins (self env) ++ [p]
          ∧ get_obj (pin_obj p) (heap env1) = Some (makeRemoteTimelineEvent pe 0 None None))
  ∧ pins (self env2) = pins (self env).
Proof.
  intros H1 Hev Hpe [H2 Hp2] Ho2 Ha Hf. cbv zeta.
  destruct (append_pin o1 e1 pin ev pe enc st env H1 Hev Hpe) as (Hr & Hh & Hpins). cbv zeta in *.
  revert Hr Hh Hpins. generalize (post (appendEvent o1 None enc st) env). intros env1 Hr Hh Hpins.
  assert (member_event o2 env1 e2 (MP_unpin (pin_eventId pin))) as Hm2.
  { split; [|done]. rewrite Hh, get_obj_alloc_ne; [done|lia]. }
  assert (findIndex (pin_has_hash (heap env1) (bin_toHexString (pin_eventId pin))) (pins (self env1))
          = Some (length (pins (self env)))) as Hi.
  { rewrite Hpins. apply findIndex_snoc.
    - rewrite <- Hf, Hh. apply findIndex_ext. intros p Hp. by apply pin_has_hash_alloc, Ha.
    - unfold pin_has_hash. rewrite Hh. cbn [pin_obj]. rewrite get_obj_alloc.
      unfold makeParsedEvent in Hpe. destruct (userIdFromAddress _); [|done].
      injection Hpe as <-. apply String.eqb_refl. }
  split; [done|]. unfold appendEvent. run_event Hm2. unfold removePin. run. rewrite Hi, Hpins.
  rewrite lookup_app_r, Nat.sub_diag by lia. simpl. run_env. split; [done|]. split.
  - eexists. split; [done|]. cbn [pin_obj]. rewrite Hh. apply get_obj_alloc.
  - simpl. rewrite Hpins. unfold splice1.
    rewrite take_app_length, drop_ge, app_nil_r; [done|]. rewrite length_app. simpl. lia.
Qed.

Lemma has_reviewer_other u u' r : u ≠ u' → has_reviewer u' r = true → has_reviewer u r = false.
Proof. intros Hne. unfold has_reviewer. rewrite String.eqb_eq, String.eqb_neq. congruence. Qed.

(** Each user has at most one space review, and the newest wins: reviews
    stay one per user; an appended review of a user is the one on show
    afterwards; a prepended (older) review is shown only when the user has
    none; the reviews of other users stay as they are. *)
Theorem reviews_newest_wins `{EthLib, Codec} o e v t content rc rev ct enc st env :
  reviews_wf env →
  member_event o env e (MP_memberBlockchainTransaction v) →
  mbt_transaction v = Some t → bt_content t = BT_spaceReview content →
  bt_receipt t = Some rc → sr_event content = Some rev →
  let r := getSpaceReviewEventDataBin (rc_logs rc) (sre_user rev) in
  let entry := {| msr_review := r; msr_createdAtEpochMs := ste_createdAtEpochMs e;
                  msr_eventHashStr := ste_hashStr e |} in
  let shown u s := findJs (has_reviewer u) (spaceReviews s) in
  let app := post (appendEvent o ct enc st) env in let pre := post (prependEvent o st) env in
  reviews_wf app ∧ reviews_wf pre
  ∧ shown (rev_user r) (self app) = Some entry
  ∧ shown (rev_user r) (self pre) = Some (default entry (shown (rev_user r) (self env)))
  ∧ ∀ u, u ≠ rev_user r →
      shown u (self app) = shown u (self env) ∧ shown u (self pre) = shown u (self env).
Proof.
  intros Hw He Ht Hc Hrc Hev. cbv zeta.
  split; [by apply reviews_wf_appendEvent|]. unfold appendEvent, prependEvent. run_event He.
  rewrite Ht. simpl. rewrite Hc, Hrc. unfold append_spaceReview. rewrite Hev. run.
  set (r := getSpaceReviewEventDataBin _ _).
  assert (∀ en, msr_review en = r → has_reviewer (rev_user r) en = true) as Hen.
  { intros en E. unfold has_reviewer. rewrite E. apply String.eqb_refl. }
  destruct (findIndex (has_reviewer (rev_user r)) (spaceReviews (self env))) as [i|] eqn:Hi.
  - assert (isDefined (findJs (has_reviewer (rev_user r)) (spaceReviews (self env))) = true) as Hd.
    { destruct (findJs _ _) eqn:E; [done|]. apply findJs_None in E. congruence. }
    rewrite Hd. unfold whenM. run_env. simpl.
    rewrite (findJs_insert_same _ _ _ _ Hi) by (by apply Hen). split_and!; [done|done| |].
    + by destruct (findJs _ _).
    + intros u Hu. split; [|done]. apply (findJs_insert_other _ _ _ _ _ Hi); [by apply Hen|].
      intros y. by apply has_reviewer_other.
  - pose proof Hi as Hj. apply findJs_None in Hj. rewrite Hj. unfold whenM. run_env. simpl.
    rewrite findJs_app, Hj, !findJs_cons, !Hen by done. split_and!; try done.
    + unfold reviews_wf. simpl. apply NoDup_cons. split; [|done].
      rewrite findIndex_None in Hi. intros (y & E & Hy)%list_elem_of_fmap.
      specialize (Hi y Hy). apply String.eqb_neq in Hi. by apply Hi.
    + intros u Hu. rewrite findJs_app, !findJs_cons.
      rewrite !(has_reviewer_other u (rev_user r)) by (done || by apply Hen).
      split; [|done]. by case (findJs (has_reviewer u) (spaceReviews (self env))).
Qed.

(** Events that need their creator to be a member *)
Definition needs_member (p : MemberPayload) : bool :=
  match p with
  | MP_keySolicitation _ | MP_displayName _ | MP_username _ | MP_ensAddress _ | MP_nft _ => true
  | _ => false
  end.

(** A user who is not a member cannot write to the stream's member state:
    key solicitations, usernames, display names, ENS addresses and NFTs of a
    creator who is not joined are refused with an error, and nothing changes
    and nothing is emitted. *)
Theorem non_member_rejected `{EthLib, Codec} o e p ct enc st env :
  member_event o env e p → needs_member p = true →
  joined (self env) !! ste_creatorUserId e = None →
  let m := appendEvent o ct enc st in
  is_Ok (res m env) = false ∧ post m env = env ∧ out m env = [].
Proof.
  intros He Hn Hj. cbv zeta. unfold appendEvent. run_event He.
  destruct p; try done; rewrite Hj; by run.
Qed.

(** ** The hypotheses can be met *)
Module MemberEventsWitness.
Import ModelEth Fixtures.

Definition ask : MP_KeySolicitation := {|
  ks_deviceKey := "d"; ks_fallbackKey := "f"; ks_isNewDevice := true; ks_sessionIds := ["a"; "b"] |}.
Definition answer : MP_KeyFulfillment := {|
  kf_userAddress := addr x0b; kf_deviceKey := "d"; kf_sessionIds := ["b"] |}.
Definition tip : Tip := {|
  tip_event := Some {| te_tokenId := 0; te_currency := addr xee; te_sender := []; te_receiver := [];
                       te_amount := 30; te_messageId := []; te_channelId := [] |};
  tip_toUserAddress := addr x0b |}.
Definition receipt : BlockchainTransactionReceipt := {|
  rc_chainId := 1; rc_transactionHash := []; rc_blockNumber := 0; rc_to := []; rc_from := [];
  rc_logs := [{| log_address := addr x0a; log_topics := []; log_data := [] |}] |}.
Definition transaction (c : BlockchainTransaction_content) : MP_MemberBlockchainTransaction := {|
  mbt_transaction := Some {| bt_receipt := Some receipt; bt_solanaReceipt := None; bt_content := c |};
  mbt_fromUserAddress := addr x0a |}.
Definition review : SpaceReview := {|
  sr_spaceAddress := []; sr_action := SR_Add;
  sr_event := Some {| sre_user := addr x0a; sre_rating := 5 |} |}.
Definition pinned : StreamEvent := streamEvent x0a (P_channelPayload (CP_message (encrypted "hi"))).
Definition pin : MP_Pin := {| pin_eventId := [x77]; pin_event := Some pinned |}.

Definition events : list StreamTimelineEvent := (λ p : MemberPayload, remote x01 x0a (P_memberPayload p)) <$> [
  MP_keyFulfillment answer; MP_memberBlockchainTransaction (transaction (BT_tip tip));
  MP_pin pin; MP_unpin [x77]; MP_memberBlockchainTransaction (transaction (BT_spaceReview review))].
Definition stranger : StreamTimelineEvent :=
  remote x02 x0f (P_memberPayload (MP_username (encrypted "zed"))).
Definition snap := snapshot [snapshotMember x0a []; snapshotMember x0b [ask]].
Definition env0 : MEnv :=
  post (applySnapshot (parsed x00 x0a P_unset) snap None true)
    (Build_Env (heap_of (events ++ [stranger])) ∅ (new "s")).

Ltac event := split; [vm_compute; reflexivity|reflexivity].

Lemma env0_sols_wf : sols_wf env0.
Proof.
  assert (joined (self env0) = JsMap [
    (user x0a, snapshot_member (user x0a) (snapshotMember x0a []));
    (user x0b, snapshot_member (user x0b) (snapshotMember x0b [ask]))]) as E
    by (vm_compute; reflexivity).
  intros u l. unfold sols. rewrite E. unfold lookup, jsmap_lookup. simpl.
  repeat case_decide; simpl; intros [= <-]; (split; [|intros x]);
    [apply NoDup_nil_2|by intros ?%not_elem_of_nil|apply NoDup_singleton|].
  intros ->%list_elem_of_singleton. simpl. repeat constructor.
Qed.

Lemma fulfillment_answers_witness :
  ∃ l', sols (user x0b) (post (appendEvent O None true true) env0) = Some l'.
Proof.
  destruct (fulfillment_answers env0 env0 O (remote x01 x0a (P_memberPayload (MP_keyFulfillment answer)))
    answer (user x0b) [snapshot_solicitation ask] None true true) as (_ & _ & l' & H & _);
    [exact env0_sols_wf|apply rtc_refl|event|vm_compute; reflexivity..|].
  by exists l'.
Defined.

Lemma tip_accounted_witness :
  amount (user xee) (tips (self (post (appendEvent 1%nat None true true) env0))) = 30.
Proof.
  destruct (tip_accounted 1%nat
    (remote x01 x0a (P_memberPayload (MP_memberBlockchainTransaction (transaction (BT_tip tip)))))
    (transaction (BT_tip tip)) {| bt_receipt := Some receipt; bt_solanaReceipt := None;
      bt_content := BT_tip tip |} tip
    {| te_tokenId := 0; te_currency := addr xee; te_sender := []; te_receiver := [];
       te_amount := 30; te_messageId := []; te_channelId := [] |}
    (user xee) (user x0a) (user x0b) None true true env0) as (_ & H & _);
    [event|reflexivity..|vm_compute; reflexivity|vm_compute; reflexivity|vm_compute; reflexivity|].
  destruct (H (user xee)) as [E _]. rewrite E. vm_compute. reflexivity.
Defined.

Lemma pin_unpin_roundtrip_witness :
  pins (self (post (appendEvent 3%nat None true true) (post (appendEvent 2%nat None true true) env0)))
  = pins (self env0).
Proof.
  eapply (pin_unpin_roundtrip 2%nat (remote x01 x0a (P_memberPayload (MP_pin pin))) pin pinned
    {| pe_event := pinned; pe_hash := [x77]; pe_hashStr := "77"; pe_signature := None;
       pe_creatorUserId := user x0a |}
    3%nat (remote x01 x0a (P_memberPayload (MP_unpin [x77]))) None true true env0);
    [event|reflexivity|vm_compute; reflexivity|event| |intros p|vm_compute; reflexivity].
  - apply (Nat.ltb_lt _ _). vm_compute. reflexivity.
  - assert (pins (self env0) = []) as -> by (vm_compute; reflexivity). by intros ?%not_elem_of_nil.
Defined.

Lemma env0_reviews_wf : reviews_wf env0.
Proof.
  unfold reviews_wf. assert (spaceReviews (self env0) = []) as -> by (vm_compute; reflexivity).
  apply NoDup_nil_2.
Qed.

Lemma reviews_newest_wins_witness : reviews_wf (post (appendEvent 4%nat None true true) env0).
Proof.
  destruct (reviews_newest_wins 4%nat
    (remote x01 x0a (P_memberPayload (MP_memberBlockchainTransaction (transaction (BT_spaceReview review)))))
    (transaction (BT_spaceReview review)) {| bt_receipt := Some receipt;
      bt_solanaReceipt := None; bt_content := BT_spaceReview review |} review receipt
    {| sre_user := addr x0a; sre_rating := 5 |} None true true env0) as [H _];
    [exact env0_reviews_wf|event|reflexivity..|].
  exact H.
Defined.

Lemma non_member_rejected_witness : post (appendEvent 5%nat None true true) env0 = env0.
Proof.
  apply (non_member_rejected 5%nat stranger (MP_username (encrypted "zed")) None true true env0);
    [event|reflexivity|vm_compute; reflexivity].
Defined.
End MemberEventsWitness.
