(* ===== verification/Timelines.v ===== *)
(** * Timelines: the reducers of the timelines view
    (sdk/src/views/streams/timelinesModel.ts, timelines.ts)

    Each reducer maps a state to a state; the only one that can throw is
    [removeReaction], and whoever calls it. The sets and objects that the code
    updates in place belong to the newest state only, which is the one every
    reducer is applied to; after a throw the code keeps the old state object
    with whatever was updated in place, of which the model says nothing. *)

From S2P Require Import Prelude JsLib Ids Proto Types TimelineTypes TimelineEvent.

Record TimelinesViewModel := {
  timelines : gmap string (list TimelineEvent);
  replacedEvents : gmap string (list (TimelineEvent * TimelineEvent));
  pendingReplacedEvents : gmap string (gmap string TimelineEvent);
  threadsStats : gmap string (gmap string ThreadStatsData);
  threads : gmap string (gmap string (list TimelineEvent));
  reactions : gmap string (gmap string MessageReactions);
  tips : gmap string (gmap string (list TimelineEvent));
  lastestEventByUser : gmap string TimelineEvent;
}.
#[export] Instance eta_TimelinesViewModel : Eta TimelinesViewModel := λ r,
  Build_TimelinesViewModel (timelines r) (replacedEvents r) (pendingReplacedEvents r)
    (threadsStats r) (threads r) (reactions r) (tips r) (lastestEventByUser r).

Definition empty_model : TimelinesViewModel :=
  {| timelines := ∅; replacedEvents := ∅; pendingReplacedEvents := ∅; threadsStats := ∅;
     threads := ∅; reactions := ∅; tips := ∅; lastestEventByUser := ∅ |}.

(** [if (id)] for an optional id: the empty string is falsy. *)
Definition truthy_id (id : option string) : option string :=
  match id with Some s => if truthy_str s then Some s else None | None => None end.

(** [m[k1]?.[k2]] *)
Definition lookup2 {V} (m : gmap string (gmap string V)) (k1 k2 : string) : option V :=
  m1 ← m !! k1; m1 !! k2.

(** [{...m, [k1]: {...m[k1], [k2]: v}}] *)
Definition insert2 {V} (k1 k2 : string) (v : V) (m : gmap string (gmap string V))
    : gmap string (gmap string V) :=
  <[k1 := <[k2 := v]> (default ∅ (m !! k1))]> m.

(** ** Timelines *)

Definition removeTimelineEvent (streamId : string) (eventIndex : nat)
    (timelines : gmap string (list TimelineEvent)) : gmap string (list TimelineEvent) :=
  <[streamId := splice1 eventIndex (default [] (timelines !! streamId))]> timelines.

(** [sort((a, b) => a.eventNum > b.eventNum ? 1 : -1)]: the comparator is not
    consistent on equal numbers, so their order is up to the engine; here they
    keep their order. *)
Definition insertTimelineEvent (streamId : string) (timelineEvent : TimelineEvent)
    (timelines : gmap string (list TimelineEvent)) : gmap string (list TimelineEvent) :=
  <[streamId := stable_sort (λ a b, tl_eventNum a <=? tl_eventNum b)
                  (timelineEvent :: default [] (timelines !! streamId))]> timelines.

Definition appendTimelineEvent (streamId : string) (timelineEvent : TimelineEvent)
    (timelines : gmap string (list TimelineEvent)) : gmap string (list TimelineEvent) :=
  <[streamId := default [] (timelines !! streamId) ++ [timelineEvent]]> timelines.

Definition prependTimelineEvent (streamId : string) (timelineEvent : TimelineEvent)
    (timelines : gmap string (list TimelineEvent)) : gmap string (list TimelineEvent) :=
  <[streamId := timelineEvent :: default [] (timelines !! streamId)]> timelines.

Definition replaceTimelineEvent (streamId : string) (newEvent : TimelineEvent) (eventIndex : nat)
    (timeline : list TimelineEvent) (timelines : gmap string (list TimelineEvent))
    : gmap string (list TimelineEvent) :=
  <[streamId := take eventIndex timeline ++ [newEvent] ++ drop (S eventIndex) timeline]> timelines.

Definition getChannelMessageContent (event : option TimelineEvent) : option ChannelMessageEvent :=
  match e ← event; tl_content e with Some (TE_ChannelMessage m) => Some m | _ => None end.

Definition getMessageSenderId (event : TimelineEvent) : option string :=
  match tl_content event with
  | Some (TE_ChannelMessage _) | Some (TE_TokenTransfer _ _ _ _ _) => Some (tl_sender event)
  | _ => None
  end.

(** ** Replacing events *)

Definition isRedactedContent (content : option TimelineEvent_OneOf) : bool :=
  match content with Some (TE_RedactedEvent _) => true | _ => false end.

Definition canReplaceEvent (prev next : TimelineEvent) : bool :=
  match tl_content next with
  | Some (TE_RedactedEvent true) => true
  | _ => String.eqb (tl_sender next) (tl_sender prev)
  end.

(** [a ?? b] *)
Definition nullish {A} (a b : option A) : option A :=
  match a with Some _ => a | None => b end.

Definition toReplacedMessageEvent (prev next : TimelineEvent) : TimelineEvent :=
  let isLocalId := Str.startsWith (tl_eventId prev) "~" in
  let eventId := if isLocalId then tl_eventId next else tl_eventId prev in
  let confirmedEventNum := nullish (tl_confirmedEventNum prev) (tl_confirmedEventNum next) in
  let confirmedInBlockNum := nullish (tl_confirmedInBlockNum prev) (tl_confirmedInBlockNum next) in
  if negb (canReplaceEvent prev next) then prev
  else match tl_content next, tl_content prev with
  | Some (TE_ChannelMessage nextMessage), Some (TE_ChannelMessage prevMessage) =>
      next <| tl_eventId := eventId |>
           <| tl_eventNum := tl_eventNum prev |>
           <| tl_latestEventId := tl_eventId next |>
           <| tl_latestEventNum := tl_eventNum next |>
           <| tl_confirmedEventNum := confirmedEventNum |>
           <| tl_confirmedInBlockNum := confirmedInBlockNum |>
           <| tl_createdAtEpochMs := tl_createdAtEpochMs prev |>
           <| tl_updatedAtEpochMs := Some (tl_createdAtEpochMs next) |>
           <| tl_content := Some (TE_ChannelMessage
                              (nextMessage <| cme_threadId := cme_threadId prevMessage |>)) |>
           <| tl_threadParentId := tl_threadParentId prev |>
           <| tl_reactionParentId := tl_reactionParentId prev |>
           <| tl_sender := tl_sender prev |>
  | Some (TE_RedactedEvent _), _ =>
      next <| tl_eventId := tl_eventId prev |>
           <| tl_eventNum := tl_eventNum prev |>
           <| tl_latestEventId := tl_eventId next |>
           <| tl_latestEventNum := tl_eventNum next |>
           <| tl_confirmedEventNum := confirmedEventNum |>
           <| tl_confirmedInBlockNum := confirmedInBlockNum |>
           <| tl_createdAtEpochMs := tl_createdAtEpochMs prev |>
           <| tl_updatedAtEpochMs := Some (tl_createdAtEpochMs next) |>
           <| tl_threadParentId := tl_threadParentId prev |>
           <| tl_reactionParentId := tl_reactionParentId prev |>
  | _, Some (TE_RedactedEvent _) =>
      prev <| tl_latestEventId := tl_eventId next |>
           <| tl_latestEventNum := tl_eventNum next |>
           <| tl_confirmedEventNum := confirmedEventNum |>
           <| tl_confirmedInBlockNum := confirmedInBlockNum |>
  | _, _ =>
      next <| tl_eventId := eventId |>
           <| tl_eventNum := tl_eventNum prev |>
           <| tl_latestEventId := tl_eventId next |>
           <| tl_latestEventNum := tl_eventNum next |>
           <| tl_confirmedEventNum := confirmedEventNum |>
           <| tl_confirmedInBlockNum := confirmedInBlockNum |>
           <| tl_createdAtEpochMs := tl_createdAtEpochMs prev |>
           <| tl_updatedAtEpochMs := Some (tl_createdAtEpochMs next) |>
  end.

(** ** Thread statistics *)

Definition makeNewThreadStats (event : TimelineEvent) (parentId : string)
    (timeline : option (list TimelineEvent)) : ThreadStatsData :=
  let parent := t ← timeline; findJs (λ t, String.eqb (tl_eventId t) parentId) t in
  {| ts_replyEventIds := ∅; ts_userIds := ∅; ts_latestTs := tl_createdAtEpochMs event;
     ts_parentId := parentId; ts_parentEvent := parent;
     ts_parentMessageContent := getChannelMessageContent parent; ts_isParticipating := false |}.

Definition addThreadStat (event : TimelineEvent) (parentId : string)
    (entry : option ThreadStatsData) (timeline : option (list TimelineEvent)) (userId : string)
    : ThreadStatsData :=
  let updated := default (makeNewThreadStats event parentId timeline) entry in
  if isRedactedContent (tl_content event) then updated
  else
    let userIds := match getMessageSenderId event with
                   | Some senderId =>
                       if truthy_str senderId then {[senderId]} ∪ ts_userIds updated
                       else ts_userIds updated
                   | None => ts_userIds updated
                   end in
    updated <| ts_replyEventIds ::= union {[tl_eventId event]} |>
            <| ts_latestTs ::= λ t, Z.max t (tl_createdAtEpochMs event) |>
            <| ts_userIds := userIds |>
            <| ts_isParticipating :=
                 ts_isParticipating updated || bool_decide (userId ∈ userIds)
                 || bool_decide (tl_sender <$> ts_parentEvent updated = Some userId)
                 || tl_isMentioned event |>.

Definition addThreadStats (streamId : string) (timelineEvent : TimelineEvent)
    (threadsStats : gmap string (gmap string ThreadStatsData))
    (timeline : option (list TimelineEvent)) (userId : string)
    : gmap string (gmap string ThreadStatsData) :=
  match truthy_id (tl_threadParentId timelineEvent) with
  | Some parentId =>
      insert2 streamId parentId
        (addThreadStat timelineEvent parentId (lookup2 threadsStats streamId parentId) timeline
           userId) threadsStats
  | None =>
      match lookup2 threadsStats streamId (tl_eventId timelineEvent) with
      | Some stats =>
          insert2 streamId (tl_eventId timelineEvent)
            (stats <| ts_parentEvent := Some timelineEvent |>
                   <| ts_parentMessageContent := getChannelMessageContent (Some timelineEvent) |>
                   <| ts_isParticipating :=
                        ts_isParticipating stats
                        || (negb (isRedactedContent (tl_content timelineEvent))
                            && (0 <? size (ts_replyEventIds stats))%nat
                            && (String.eqb (tl_sender timelineEvent) userId
                                || tl_isMentioned timelineEvent)) |>) threadsStats
      | None => threadsStats
      end
  end.

Definition removeThreadStat (streamId : string) (timelineEvent : TimelineEvent)
    (threadsStats : gmap string (gmap string ThreadStatsData))
    : gmap string (gmap string ThreadStatsData) :=
  match truthy_id (tl_threadParentId timelineEvent) with
  | None => threadsStats
  | Some parentId =>
      match threadsStats !! streamId with
      | None => threadsStats
      | Some stream =>
          match stream !! parentId with
          | None => threadsStats
          | Some entry =>
              let replyEventIds := ts_replyEventIds entry ∖ {[tl_eventId timelineEvent]} in
              if (size replyEventIds =? 0)%nat
              then <[streamId := delete parentId stream]> threadsStats
              else
                let userIds := match getMessageSenderId timelineEvent with
                               | Some senderId =>
                                   if truthy_str senderId then ts_userIds entry ∖ {[senderId]}
                                   else ts_userIds entry
                               | None => ts_userIds entry
                               end in
                <[streamId := <[parentId := entry <| ts_replyEventIds := replyEventIds |>
                                                  <| ts_userIds := userIds |>]> stream]> threadsStats
          end
      end
  end.

(** ** Tips *)

Inductive Direction := append | prepend.

Definition addTip (refEventId : string) (event : TimelineEvent)
    (tips : option (gmap string (list TimelineEvent))) (direction : Direction)
    : gmap string (list TimelineEvent) :=
  match tips with
  | None => {[refEventId := [event]]}
  | Some tips =>
      let prev := default [] (tips !! refEventId) in
      match direction with
      | append => <[refEventId := prev ++ [event]]> tips
      | prepend => <[refEventId := event :: prev]> tips
      end
  end.

(** [event.content.refEventId] of an event that [isMessageTipEvent] *)
Definition tipRefEventId (event : TimelineEvent) : option string :=
  match tl_content event with
  | Some (TE_TipEvent _ _ _ _ refEventId _) =>
      if isMessageTipEvent event then Some refEventId else None
  | _ => None
  end.

Definition addTips (streamId : string) (event : TimelineEvent)
    (tips : gmap string (gmap string (list TimelineEvent))) (direction : Direction)
    : gmap string (gmap string (list TimelineEvent)) :=
  match tipRefEventId event with
  | None => tips
  | Some refEventId => <[streamId := addTip refEventId event (tips !! streamId) direction]> tips
  end.

Definition removeTip (streamId : string) (event : TimelineEvent)
    (tips : gmap string (gmap string (list TimelineEvent)))
    : gmap string (gmap string (list TimelineEvent)) :=
  match tipRefEventId event with
  | None => tips
  | Some refEventId =>
      match lookup2 tips streamId refEventId with
      | None => tips
      | Some l =>
          insert2 streamId refEventId
            (List.filter (λ t, negb (String.eqb (tl_eventId t) (tl_eventId event))) l) tips
      end
  end.

(** ** Reactions *)

Definition reactionOf (event : TimelineEvent) : option string :=
  match tl_content event with Some (TE_Reaction _ reaction) => Some reaction | _ => None end.

Definition addReaction (event : TimelineEvent) (entry : option MessageReactions)
    : MessageReactions :=
  match reactionOf event with
  | None => default ∅ entry
  | Some reactionName =>
      insert2 reactionName (tl_sender event) (tl_eventId event) (default ∅ entry)
  end.

Definition addReactions (streamId : string) (event : TimelineEvent)
    (reactions : gmap string (gmap string MessageReactions))
    : gmap string (gmap string MessageReactions) :=
  match truthy_id (tl_reactionParentId event) with
  | None => reactions
  | Some parentId =>
      insert2 streamId parentId (addReaction event (lookup2 reactions streamId parentId)) reactions
  end.

(** [Object.keys(reactions)] throws when nobody has this reaction. *)
Definition removeReaction (streamId : string) (event : TimelineEvent)
    (reactions : gmap string (gmap string MessageReactions))
    : Res (gmap string (gmap string MessageReactions)) :=
  match truthy_id (tl_reactionParentId event) with
  | None => Ok reactions
  | Some parentId =>
      match lookup2 reactions streamId parentId, reactionOf event with
      | Some entry, Some reactionName =>
          match entry !! reactionName with
          | None => Throw (TypeError "Cannot convert undefined or null to object")
          | Some users =>
              let users := delete (tl_sender event) users in
              let entry := if (size users =? 0)%nat then delete reactionName entry
                           else <[reactionName := users]> entry in
              Ok (insert2 streamId parentId entry reactions)
          end
      | _, _ => Ok reactions
      end
  end.

(** ** Threads *)

Definition removeThreadEvent (streamId : string) (event : TimelineEvent)
    (threads : gmap string (gmap string (list TimelineEvent)))
    : gmap string (gmap string (list TimelineEvent)) :=
  match truthy_id (tl_threadParentId event) with
  | None => threads
  | Some parentId =>
      match l ← lookup2 threads streamId parentId;
            findIndex (λ e, String.eqb (tl_eventId e) (tl_eventId event)) l with
      | None => threads
      | Some threadEventIndex =>
          <[streamId := removeTimelineEvent parentId threadEventIndex
                          (default ∅ (threads !! streamId))]> threads
      end
  end.

Definition insertThreadEvent (streamId : string) (timelineEvent : TimelineEvent)
    (threads : gmap string (gmap string (list TimelineEvent)))
    : gmap string (gmap string (list TimelineEvent)) :=
  match truthy_id (tl_threadParentId timelineEvent) with
  | None => threads
  | Some threadParentId =>
      <[streamId := insertTimelineEvent threadParentId timelineEvent
                      (default ∅ (threads !! streamId))]> threads
  end.

(** ** The reducers *)

Definition initializeStream (state : TimelinesViewModel) (streamId : string)
    : TimelinesViewModel :=
  state <| timelines ::= <[streamId := []]> |>
        <| threadsStats ::= <[streamId := ∅]> |>
        <| threads ::= <[streamId := ∅]> |>
        <| reactions ::= <[streamId := ∅]> |>
        <| tips ::= <[streamId := ∅]> |>.

Definition reset (state : TimelinesViewModel) (streamIds : list string) : TimelinesViewModel :=
  foldl (λ prev streamId,
    prev <| timelines ::= delete streamId |>
         <| replacedEvents ::= delete streamId |>
         <| pendingReplacedEvents ::= delete streamId |>
         <| threadsStats ::= delete streamId |>
         <| threads ::= delete streamId |>
         <| reactions ::= delete streamId |>
         <| tips ::= delete streamId |>) state streamIds.

Definition removeEvent (state : TimelinesViewModel) (streamId eventId : string)
    : Res TimelinesViewModel :=
  match timelines state !! streamId with
  | None => Ok state
  | Some timeline =>
      match findIndex (λ e, String.eqb (tl_eventId e) eventId) timeline with
      | None => Ok state
      | Some eventIndex =>
          match timeline !! eventIndex with
          | None => Ok state
          | Some event =>
              reactions' ← removeReaction streamId event (reactions state);
              Ok (state <| timelines ::= removeTimelineEvent streamId eventIndex |>
                        <| threadsStats ::= removeThreadStat streamId event |>
                        <| threads ::= removeThreadEvent streamId event |>
                        <| reactions := reactions' |>
                        <| tips ::= removeTip streamId event |>)
          end
      end
  end.

Definition appendEvent (state : TimelinesViewModel) (userId streamId : string)
    (timelineEvent : TimelineEvent) : TimelinesViewModel :=
  state <| timelines ::= appendTimelineEvent streamId timelineEvent |>
        <| threadsStats ::= λ t, addThreadStats streamId timelineEvent t
                                   (timelines state !! streamId) userId |>
        <| threads ::= insertThreadEvent streamId timelineEvent |>
        <| reactions ::= addReactions streamId timelineEvent |>
        <| tips ::= λ t, addTips streamId timelineEvent t append |>.

Definition prependEvent (state : TimelinesViewModel) (userId streamId : string)
    (inTimelineEvent : TimelineEvent) : TimelinesViewModel :=
  let timelineEvent :=
    match lookup2 (pendingReplacedEvents state) streamId (tl_eventId inTimelineEvent) with
    | Some replacement => toReplacedMessageEvent inTimelineEvent replacement
    | None => inTimelineEvent
    end in
  state <| timelines ::= prependTimelineEvent streamId timelineEvent |>
        <| threadsStats ::= λ t, addThreadStats streamId timelineEvent t
                                   (timelines state !! streamId) userId |>
        <| threads ::= insertThreadEvent streamId timelineEvent |>
        <| reactions ::= addReactions streamId timelineEvent |>
        <| tips ::= λ t, addTips streamId timelineEvent t prepend |>.

(** [e.eventId === id || (e.localEventId && e.localEventId === localEventId)] *)
Definition matchesEvent (id : string) (localEventId : option string) (e : TimelineEvent) : bool :=
  String.eqb (tl_eventId e) id
  || (truthy (tl_localEventId e) && bool_decide (tl_localEventId e = localEventId)).

(** The thread of a replaced event *)
Definition threadIndex (state : TimelinesViewModel) (streamId : string) (newEvent : TimelineEvent)
    (f : TimelineEvent → bool) : option (string * list TimelineEvent * nat) :=
  threadParentId ← truthy_id (tl_threadParentId newEvent);
  threadTimeline ← lookup2 (threads state) streamId threadParentId;
  threadEventIndex ← findIndex f threadTimeline;
  Some (threadParentId, threadTimeline, threadEventIndex).

Definition replaceThreadEvent (state : TimelinesViewModel) (streamId : string)
    (newEvent : TimelineEvent) (at_ : string * list TimelineEvent * nat)
    : gmap string (gmap string (list TimelineEvent)) :=
  let '(threadParentId, threadTimeline, threadEventIndex) := at_ in
  <[streamId := replaceTimelineEvent threadParentId newEvent threadEventIndex threadTimeline
                  (default ∅ (threads state !! streamId))]> (threads state).

Definition replaceEvent (state : TimelinesViewModel) (userId streamId replacedMsgId : string)
    (timelineEvent : TimelineEvent) : Res TimelinesViewModel :=
  let timeline := default [] (timelines state !! streamId) in
  let matches := matchesEvent replacedMsgId (tl_localEventId timelineEvent) in
  match e ← findIndex matches timeline; pair e <$> timeline !! e with
  | None =>
      match lookup2 (pendingReplacedEvents state) streamId replacedMsgId with
      | Some pending =>
          if tl_latestEventNum timelineEvent <? tl_latestEventNum pending then Ok state
          else Ok (state <| pendingReplacedEvents ::= insert2 streamId replacedMsgId timelineEvent |>)
      | None =>
          Ok (state <| pendingReplacedEvents ::= insert2 streamId replacedMsgId timelineEvent |>)
      end
  | Some (eventIndex, oldEvent) =>
      if tl_latestEventNum timelineEvent <? tl_latestEventNum oldEvent then Ok state
      else
        let newEvent := toReplacedMessageEvent oldEvent timelineEvent in
        reactions' ← removeReaction streamId oldEvent (reactions state);
        Ok (state <| timelines ::= replaceTimelineEvent streamId newEvent eventIndex timeline |>
                  <| replacedEvents ::= λ r,
                       <[streamId := default [] (r !! streamId) ++ [(oldEvent, newEvent)]]> r |>
                  <| threadsStats := addThreadStats streamId newEvent
                                       (removeThreadStat streamId oldEvent (threadsStats state))
                                       (timelines state !! streamId) userId |>
                  <| threads :=
                       match threadIndex state streamId newEvent matches with
                       | Some at_ => replaceThreadEvent state streamId newEvent at_
                       | None => insertThreadEvent streamId newEvent (threads state)
                       end |>
                  <| reactions := addReactions streamId newEvent reactions' |>
                  <| tips ::= λ t, addTips streamId newEvent (removeTip streamId oldEvent t) append |>)
  end.

Definition confirmEvent (state : TimelinesViewModel) (streamId : string)
    (confirmation : TimelineEventConfirmation) : TimelinesViewModel :=
  let timeline := default [] (timelines state !! streamId) in
  let matches := λ e, String.eqb (tl_eventId e) (tc_eventId confirmation) in
  match e ← findIndex matches timeline; pair e <$> timeline !! e with
  | None => state
  | Some (eventIndex, oldEvent) =>
      let newEvent := oldEvent
        <| tl_confirmedEventNum := Some (tc_confirmedEventNum confirmation) |>
        <| tl_confirmedInBlockNum := Some (tc_confirmedInBlockNum confirmation) |> in
      state <| timelines ::= replaceTimelineEvent streamId newEvent eventIndex timeline |>
            <| replacedEvents ::= λ r,
                 <[streamId := default [] (r !! streamId) ++ [(oldEvent, newEvent)]]> r |>
            <| threads := match threadIndex state streamId newEvent matches with
                          | Some at_ => replaceThreadEvent state streamId newEvent at_
                          | None => threads state
                          end |>
  end.

Section Reducers.
Context `{EthLib}.

Definition makeRedactionEvent (redactionAction : TimelineEvent) : Res TimelineEvent :=
  match tl_content redactionAction with
  | Some (TE_RedactionActionEvent _ adminRedaction) =>
      let newContent := TE_RedactedEvent adminRedaction in
      fallbackContent ← getFallbackContent "" (Some newContent) None;
      Ok (redactionAction <| tl_content := Some newContent |>
                          <| tl_fallbackContent := fallbackContent |>
                          <| tl_isRedacted := true |>)
  | _ => Throw (PlainError "makeRedactionEvent called with non-redaction action event")
  end.

Definition processEvent (state : TimelinesViewModel) (event : TimelineEvent)
    (userId streamId : string) (updatingEventId : option string) : Res TimelinesViewModel :=
  let editsEventId := truthy_id (getEditsId (tl_content event)) in
  let redactsEventId := truthy_id (getRedactsId (tl_content event)) in
  let updating := truthy_id updatingEventId in
  state ← match redactsEventId, editsEventId with
          | Some redactsEventId, _ =>
              redactedEvent ← makeRedactionEvent event;
              state ← replaceEvent state userId streamId redactsEventId redactedEvent;
              match updating with
              | Some updatingEventId => replaceEvent state userId streamId updatingEventId event
              | None => Ok (appendEvent state userId streamId event)
              end
          | None, Some editsEventId =>
              state ← match updating with
                      | Some updatingEventId => removeEvent state streamId updatingEventId
                      | None => Ok state
                      end;
              replaceEvent state userId streamId editsEventId event
          | None, None =>
              match updating with
              | Some updatingEventId => replaceEvent state userId streamId updatingEventId event
              | None => Ok (appendEvent state userId streamId event)
              end
          end;
  let prevLatestEvent := lastestEventByUser state !! tl_sender event in
  Ok (if default 0 (tl_createdAtEpochMs <$> prevLatestEvent) <? tl_createdAtEpochMs event
      then state <| lastestEventByUser ::= <[tl_sender event := event]> |>
      else state).

(** [for (const event of events) state = f(state, event)] *)
Fixpoint reduceEvents {A} (f : TimelinesViewModel → A → Res TimelinesViewModel)
    (state : TimelinesViewModel) (events : list A) : Res TimelinesViewModel :=
  match events with
  | [] => Ok state
  | event :: events => state ← f state event; reduceEvents f state events
  end.

Definition appendEvents (state : TimelinesViewModel) (events : list TimelineEvent)
    (userId streamId : string) (initialize : bool) : Res TimelinesViewModel :=
  let state := if initialize then initializeStream state streamId else state in
  reduceEvents (λ state event, processEvent state event userId streamId None) state events.

(** The body of the loop of [prependEvents] *)
Definition prependOne (userId streamId : string) (state : TimelinesViewModel)
    (event : TimelineEvent) : Res TimelinesViewModel :=
  match truthy_id (getRedactsId (tl_content event)), truthy_id (getEditsId (tl_content event)) with
  | Some redactsEventId, _ =>
      redactedEvent ← makeRedactionEvent event;
      replaceEvent (prependEvent state userId streamId event) userId streamId redactsEventId
        redactedEvent
  | None, Some editsEventId => replaceEvent state userId streamId editsEventId event
  | None, None => Ok (prependEvent state userId streamId event)
  end.

Definition prependEvents (state : TimelinesViewModel) (events : list TimelineEvent)
    (userId streamId : string) : Res TimelinesViewModel :=
  reduceEvents (prependOne userId streamId) state (reverse events).

Definition updateEvents (state : TimelinesViewModel) (events : list TimelineEvent)
    (userId streamId : string) : Res TimelinesViewModel :=
  reduceEvents (λ state event, processEvent state event userId streamId (Some (tl_eventId event)))
    state events.

Definition updateEvent (state : TimelinesViewModel) (event : TimelineEvent)
    (userId streamId replacingEventId : string) : Res TimelinesViewModel :=
  processEvent state event userId streamId (Some replacingEventId).

Definition confirmEvents (state : TimelinesViewModel)
    (confirmations : list TimelineEventConfirmation) (streamId : string) : TimelinesViewModel :=
  foldl (λ state confirmation, confirmEvent state streamId confirmation) state confirmations.
End Reducers.
