(* ===== verification/TimelinesView.v ===== *)
(** * TimelinesView: stream changes become timelines (sdk/src/views/streams/timelines.ts) *)

From S2P Require Import Prelude JsLib Ids Proto Types TimelineTypes TimelineEvent StreamEvents Timelines.

(** [isEqual] of lodash on timeline events *)
Class Lodash := isEqual : TimelineEvent → TimelineEvent → bool.

(** What changed in a stream (sdk/src/streamEvents.ts); confirmed events carry
    their miniblock and number. *)
Record StreamChange := {
  ch_prepended : option (list StreamTimelineEvent);
  ch_appended : option (list StreamTimelineEvent);
  ch_updated : option (list StreamTimelineEvent);
  ch_confirmed : option (list StreamTimelineEvent);
}.

Record TimelinesView := {
  tv_userId : string;
  (** [delegate?.isDMMessageEventBlocked] *)
  tv_delegate : option (TimelineEvent → bool);
  tv_eventFilter : gset string;
  tv_streamIds : gset string;
  tv_value : TimelinesViewModel;
}.
#[export] Instance eta_TimelinesView : Eta TimelinesView := λ r,
  Build_TimelinesView (tv_userId r) (tv_delegate r) (tv_eventFilter r) (tv_streamIds r) (tv_value r).

Definition default_eventFilter : gset string := {[ "m.fulfillment"; "m.key_solicitation" ]}.

Definition new (userId : string) (delegate : option (TimelineEvent → bool)) : TimelinesView :=
  {| tv_userId := userId; tv_delegate := delegate; tv_eventFilter := default_eventFilter;
     tv_streamIds := ∅; tv_value := empty_model |}.

Abbreviation TM := (M Emit TimelinesView).

Section TimelinesView.
Context `{EthLib, Codec, Lodash}.

(** [this.setState.<f>(...)]: the value is set when the reducer returns. *)
Definition setState (f : TimelinesViewModel → Res TimelinesViewModel) : TM unit :=
  this ← getM;
  value ← liftR (f (tv_value this));
  modify (λ s, s <| tv_value := value |>).

Definition filterFn (this : TimelinesView) (streamId : string) (event : TimelineEvent) : bool :=
  if isDMChannelStreamId (SStr streamId) &&
     match tv_delegate this with Some blocked => blocked event | None => false end
  then false
  else match tl_content event with
       | None => true
       | Some content => negb (bool_decide (RiverTimelineEvent content ∈ tv_eventFilter this))
       end.

(** [messages.map((event) => toEvent(event, this.userId))] *)
Fixpoint toEvents (messages : list StreamTimelineEvent) (userId : string)
    : Res (list TimelineEvent) :=
  match messages with
  | [] => Ok []
  | event :: messages =>
      e ← toEvent event userId;
      l ← toEvents messages userId;
      Ok (e :: l)
  end.

Definition timelineEvents (streamId : string) (messages : list StreamTimelineEvent)
    : TM (list TimelineEvent) :=
  this ← getM;
  events ← liftR (toEvents messages (tv_userId this));
  mret (List.filter (filterFn this streamId) events).

Definition streamInitialized (streamId : string) (messages : list StreamTimelineEvent) : TM unit :=
  _ ← modify (λ s, s <| tv_streamIds ::= union {[streamId]} |>);
  events ← timelineEvents streamId messages;
  this ← getM;
  setState (λ value, appendEvents value events (tv_userId this) streamId true).

(** A confirmed event; [streamUpdated] gets the two numbers as they are. *)
Definition confirmation (event : StreamTimelineEvent) : TimelineEventConfirmation := {|
  tc_eventId := ste_hashStr event;
  tc_confirmedEventNum := default 0 (ste_confirmedEventNum event);
  tc_confirmedInBlockNum := default 0 (ste_miniblockNum event);
|}.

Definition streamUpdated (streamId : string) (change : StreamChange) : TM unit :=
  _ ← modify (λ s, s <| tv_streamIds ::= union {[streamId]} |>);
  this ← getM;
  _ ← match ch_prepended change with
      | Some prepended =>
          events ← timelineEvents streamId prepended;
          setState (λ value, prependEvents value events (tv_userId this) streamId)
      | None => mret tt
      end;
  _ ← match ch_appended change with
      | Some appended =>
          events ← timelineEvents streamId appended;
          setState (λ value, appendEvents value events (tv_userId this) streamId false)
      | None => mret tt
      end;
  _ ← match ch_updated change with
      | Some updated =>
          events ← timelineEvents streamId updated;
          setState (λ value, updateEvents value events (tv_userId this) streamId)
      | None => mret tt
      end;
  match ch_confirmed change with
  | Some confirmed =>
      setState (λ value, Ok (confirmEvents value (confirmation <$> confirmed) streamId))
  | None => mret tt
  end.

(** [this.value.timelines[streamId].find((event) => event.eventId === eventId)] *)
Definition findEvent (streamId eventId : string) : TM (option TimelineEvent) :=
  this ← getM;
  match timelines (tv_value this) !! streamId with
  | None => throwM (TypeError "Cannot read properties of undefined (reading 'find')")
  | Some timeline => mret (findJs (λ e, String.eqb (tl_eventId e) eventId) timeline)
  end.

Definition streamEventDecrypted (streamId eventId : string) (decryptedContent : DecryptedContent)
    : TM (option TimelineEvent) :=
  prevEvent ← findEvent streamId eventId;
  match prevEvent with
  | None => mret None
  | Some prevEvent =>
      this ← getM;
      let newEvent := toDecryptedEvent prevEvent decryptedContent (tv_userId this) in
      _ ← whenM (negb (isEqual newEvent prevEvent))
            (setState (λ value, updateEvent value newEvent (tv_userId this) streamId eventId));
      mret (Some newEvent)
  end.

(** [newEvent !== prevEvent] compares references: [toDecryptedContentErrorEvent]
    makes a new object for encrypted contents only. *)
Definition makesErrorEvent (event : TimelineEvent) : bool :=
  match tl_content event with
  | Some (TE_ChannelMessageEncrypted _) | Some (TE_EncryptedChannelProperties _) => true
  | _ => false
  end.

Definition streamEventDecryptedContentError (streamId eventId : string)
    (error : DecryptionSessionError) : TM unit :=
  prevEvent ← findEvent streamId eventId;
  match prevEvent with
  | None => mret tt
  | Some prevEvent =>
      this ← getM;
      let newEvent := toDecryptedContentErrorEvent prevEvent error in
      whenM (makesErrorEvent prevEvent)
        (setState (λ value, updateEvent value newEvent (tv_userId this) streamId eventId))
  end.

Definition streamLocalEventUpdated (streamId localEventId : string)
    (localEvent : StreamTimelineEvent) : TM unit :=
  _ ← modify (λ s, s <| tv_streamIds ::= union {[streamId]} |>);
  this ← getM;
  event ← liftR (toEvent localEvent (tv_userId this));
  whenM (filterFn this streamId event)
    (setState (λ value, updateEvent value event (tv_userId this) streamId localEventId)).
End TimelinesView.
