(* ===== verification/TimelinesFacts.v ===== *)
(** * TimelinesFacts: what edits, redactions and confirmations do to a timeline *)

From S2P Require Import Prelude JsLib Ids IdsFacts Proto Types TimelineTypes TimelineEvent Timelines.

(** The timeline of a stream *)
Definition tl (sid : string) (state : TimelinesViewModel) : list TimelineEvent :=
  default [] (timelines state !! sid).

(** ** Single reducers *)

Section Reducers.
Context `{EthLib}.
Implicit Types (state : TimelinesViewModel) (sid userId : string).

Lemma tl_insert sid l m : default [] ((<[sid := l]> m : gmap string (list TimelineEvent)) !! sid) = l.
Proof. by rewrite lookup_insert_eq. Qed.

Lemma replaceTimelineEvent_insert (l : list TimelineEvent) i x y :
  l !! i = Some y → take i l ++ [x] ++ drop (S i) l = <[i := x]> l.
Proof. intros Hi. symmetry. apply insert_take_drop. by eapply lookup_lt_Some. Qed.

Lemma alter_insert_Some {A} (f : A → A) i (l : list A) x : l !! i = Some x → alter f i l = <[i := f x]> l.
Proof.
  revert i. induction l as [|y l IH]; intros [|i] Hi; simplify_eq/=; [done|].
  f_equal. by apply IH.
Qed.

Lemma findIndex_lookup {A} (f : A → bool) l i x :
  (e ← findIndex f l; pair e <$> l !! e) = Some (i, x) → findIndex f l = Some i ∧ l !! i = Some x.
Proof.
  destruct (findIndex f l) as [j|]; simpl; [|done].
  destruct (l !! j) eqn:E; simpl; [|done]. intros [= <- <-]. done.
Qed.

Lemma findIndex_lookup_None {A} (f : A → bool) l :
  (e ← findIndex f l; pair e <$> l !! e) = None → findIndex f l = None.
Proof.
  destruct (findIndex f l) as [j|] eqn:E; simpl; [|done].
  apply findIndex_Some in E as (x & -> & _). done.
Qed.

(** What a replacement does to the timeline: nothing, or one event is merged. *)
Inductive replaced (te : TimelineEvent) : relation (list TimelineEvent) :=
  | replaced_none l : replaced te l l
  | replaced_at i old l :
      l !! i = Some old → tl_latestEventNum old <= tl_latestEventNum te →
      replaced te l (<[i := toReplacedMessageEvent old te]> l).

Lemma replaceEvent_tl state userId sid id te s' :
  replaceEvent state userId sid id te = Ok s' → replaced te (tl sid state) (tl sid s').
Proof.
  unfold replaceEvent. fold (tl sid state).
  destruct (_ ≫= _) as [[i old]|] eqn:Hf.
  - apply findIndex_lookup in Hf as [_ Hi]. case (Z.ltb_spec (tl_latestEventNum te) (tl_latestEventNum old)).
    + intros _ [= <-]. constructor.
    + intros Hle. destruct (removeReaction _ _ _) as [r|]; [|done]. intros [= <-].
      unfold tl at 2. simpl. unfold replaceTimelineEvent. rewrite tl_insert.
      rewrite (replaceTimelineEvent_insert _ _ _ _ Hi). by constructor.
  - destruct (lookup2 _ _ _) as [p|]; [case_match|]; intros [= <-]; constructor.
Qed.

Lemma appendEvent_tl state userId sid te : tl sid (appendEvent state userId sid te) = tl sid state ++ [te].
Proof. unfold tl at 1. simpl. unfold appendTimelineEvent. by rewrite tl_insert. Qed.

Lemma prependEvent_tl state userId sid te :
  tl sid (prependEvent state userId sid te)
  = match lookup2 (pendingReplacedEvents state) sid (tl_eventId te) with
    | Some r => toReplacedMessageEvent te r
    | None => te
    end :: tl sid state.
Proof. unfold tl at 1. simpl. unfold prependTimelineEvent. by rewrite tl_insert. Qed.

(** Without [updatingEventId] an event is appended, merged, or both. *)
Inductive appended (te : TimelineEvent) : relation (list TimelineEvent) :=
  | appended_redaction red l l' :
      makeRedactionEvent te = Ok red → replaced red l l' → appended te l (l' ++ [te])
  | appended_edit l l' : replaced te l l' → appended te l l'
  | appended_plain l : appended te l (l ++ [te]).

Lemma processEvent_tl state te userId sid s' :
  processEvent state te userId sid None = Ok s' → appended te (tl sid state) (tl sid s').
Proof.
  unfold processEvent. cbn [truthy_id].
  assert (∀ (b : bool) s s2,
    (if b then s <| lastestEventByUser ::= <[tl_sender te := te]> |> else s) = s2 →
    tl sid s2 = tl sid s) as Hl by (by intros [] s s2 <-).
  destruct (truthy_id (getRedactsId (tl_content te))) as [rid|].
  - destruct (makeRedactionEvent te) as [red|] eqn:Hred; [|done]. simpl.
    destruct (replaceEvent state userId sid rid red) as [s1|] eqn:H1; [|done]. simpl.
    intros [= E]. rewrite (Hl _ _ _ E), appendEvent_tl.
    eapply appended_redaction; [done|by eapply replaceEvent_tl].
  - destruct (truthy_id (getEditsId (tl_content te))) as [eid|]; simpl.
    + destruct (replaceEvent state userId sid eid te) as [s1|] eqn:H1; [|done]. simpl.
      intros [= E]. rewrite (Hl _ _ _ E). apply appended_edit. by eapply replaceEvent_tl.
    + intros [= E]. rewrite (Hl _ _ _ E), appendEvent_tl. apply appended_plain.
Qed.

(** An older event is prepended, merged, or both. *)
Inductive prepended (te : TimelineEvent) : relation (list TimelineEvent) :=
  | prepended_redaction red x l l' :
      makeRedactionEvent te = Ok red → replaced red (x :: l) l' → prepended te l l'
  | prepended_edit l l' : replaced te l l' → prepended te l l'
  | prepended_plain x l : prepended te l (x :: l).

Lemma prependOne_tl state te userId sid s' :
  prependOne userId sid state te = Ok s' → prepended te (tl sid state) (tl sid s').
Proof.
  unfold prependOne. destruct (truthy_id (getRedactsId (tl_content te))) as [rid|].
  - destruct (makeRedactionEvent te) as [red|] eqn:Hred; [|done]. simpl. intros H1.
    apply replaceEvent_tl in H1. rewrite prependEvent_tl in H1. by eapply prepended_redaction.
  - destruct (truthy_id (getEditsId (tl_content te))) as [eid|].
    + intros H1. apply prepended_edit. by eapply replaceEvent_tl.
    + intros [= <-]. rewrite prependEvent_tl. apply prepended_plain.
Qed.

(** A confirmation sets two numbers of the first event with its id. *)
Definition confirmed_by (c : TimelineEventConfirmation) (e : TimelineEvent) : TimelineEvent :=
  e <| tl_confirmedEventNum := Some (tc_confirmedEventNum c) |>
    <| tl_confirmedInBlockNum := Some (tc_confirmedInBlockNum c) |>.

Lemma confirmEvent_tl state sid c :
  tl sid (confirmEvent state sid c)
  = match findIndex (λ e, String.eqb (tl_eventId e) (tc_eventId c)) (tl sid state) with
    | Some i => alter (confirmed_by c) i (tl sid state)
    | None => tl sid state
    end.
Proof.
  unfold confirmEvent. fold (tl sid state). destruct (_ ≫= _) as [[i old]|] eqn:Hf.
  - apply findIndex_lookup in Hf as [-> Hi]. unfold tl at 1. simpl.
    unfold replaceTimelineEvent. rewrite tl_insert, (replaceTimelineEvent_insert _ _ _ _ Hi).
    symmetry. change (<[i := _]> (tl sid state)) with (<[i := confirmed_by c old]> (tl sid state)).
    by apply alter_insert_Some.
  - by apply findIndex_lookup_None in Hf as ->.
Qed.

Lemma reduceEvents_rel {A} (R : relation TimelinesViewModel) `{!PreOrder R} (P : A → Prop) f events :
  (∀ s e s', P e → f s e = Ok s' → R s s') → (∀ e, e ∈ events → P e) →
  ∀ s s', reduceEvents f s events = Ok s' → R s s'.
Proof.
  intros Hf. induction events as [|e events IH]; intros Hp s s'; cbn [reduceEvents].
  - intros [= <-]. reflexivity.
  - destruct (f s e) as [s1|] eqn:E; [|done]. simpl. intros Hr. etrans.
    + eapply Hf; [|exact E]. apply Hp. set_solver.
    + apply IH; [|done]. intros e' He'. apply Hp. set_solver.
Qed.
End Reducers.

(** ** Authorship *)

Section Authorship.
Context `{EthLib}.

(** The events of the administrators' redactions *)
Definition is_admin (te : TimelineEvent) : bool :=
  match tl_content te with
  | Some (TE_RedactionActionEvent _ admin) | Some (TE_RedactedEvent admin) => admin
  | _ => false
  end.

(** [te] comes from somebody else than [u], and not from an administrator *)
Definition foreign (u : string) (te : TimelineEvent) : Prop :=
  tl_sender te ≠ u ∧ is_admin te = false.

Definition by_user (u : string) (te : TimelineEvent) : Prop := tl_sender te = u.
#[export] Instance by_user_dec u te : Decision (by_user u te).
Proof. unfold by_user. apply _. Defined.

(** An event up to the numbers its confirmation sets *)
Definition unconfirmed (te : TimelineEvent) : TimelineEvent :=
  te <| tl_confirmedEventNum := None |> <| tl_confirmedInBlockNum := None |>.

(** The entries of [u] are all there, in order and unchanged but for their
    confirmation. *)
Definition entries_kept (u : string) (l l' : list TimelineEvent) : Prop :=
  unconfirmed <$> filter (by_user u) l `sublist_of` unconfirmed <$> filter (by_user u) l'.

#[export] Instance entries_kept_preorder u : PreOrder (entries_kept u).
Proof. split; [intros l; by unfold entries_kept|intros l1 l2 l3; unfold entries_kept; by intros; etrans]. Qed.

Lemma foreign_cannot_replace u prev next :
  tl_sender prev = u → foreign u next → toReplacedMessageEvent prev next = prev.
Proof.
  intros Hp [Hn Ha]. unfold toReplacedMessageEvent, canReplaceEvent, is_admin in *.
  assert (String.eqb (tl_sender next) (tl_sender prev) = false) as E
    by (apply String.eqb_neq; congruence).
  destruct (tl_content next) as [[]|]; rewrite ?E; try done. by subst.
Qed.

Lemma replaced_kept u te l l' : foreign u te → replaced te l l' → entries_kept u l l'.
Proof.
  intros Hf [|i old l1 Hi _]; [done|]. apply fmap_sublist.
  destruct (decide (tl_sender old = u)) as [Hu|Hu].
  - rewrite (foreign_cannot_replace u) by done. by rewrite list_insert_id.
  - rewrite <- (take_drop_middle _ _ _ Hi) at 1.
    rewrite insert_take_drop by (by eapply lookup_lt_Some).
    rewrite !filter_app, !filter_cons, (decide_False (P := by_user u old)) by done.
    apply sublist_app; [done|]. case_decide; [by apply sublist_cons|done].
Qed.

Lemma makeRedactionEvent_foreign u te red :
  makeRedactionEvent te = Ok red → foreign u te → foreign u red.
Proof.
  unfold makeRedactionEvent, foreign, is_admin. destruct (tl_content te) as [[]|]; try done.
  by intros [= <-].
Qed.

Lemma entries_kept_snoc u l x : entries_kept u l (l ++ [x]).
Proof. apply fmap_sublist. rewrite filter_app. by apply sublist_inserts_r. Qed.
Lemma entries_kept_cons u l x : entries_kept u l (x :: l).
Proof. apply fmap_sublist. rewrite filter_cons. case_decide; [by apply sublist_cons|done]. Qed.

Lemma appended_kept u te l l' : foreign u te → appended te l l' → entries_kept u l l'.
Proof.
  intros Hf [red l1 l2 Hred Hrep|l1 l2 Hrep|l1].
  - etrans; [|apply entries_kept_snoc]. eapply replaced_kept; [|done].
    by eapply makeRedactionEvent_foreign.
  - by eapply replaced_kept.
  - apply entries_kept_snoc.
Qed.

Lemma prepended_kept u te l l' : foreign u te → prepended te l l' → entries_kept u l l'.
Proof.
  intros Hf [red x l1 l2 Hred Hrep|l1 l2 Hrep|x l1].
  - etrans; [apply entries_kept_cons|]. eapply replaced_kept; [|done].
    by eapply makeRedactionEvent_foreign.
  - by eapply replaced_kept.
  - apply entries_kept_cons.
Qed.

Lemma confirmed_kept u c i l : entries_kept u l (alter (confirmed_by c) i l).
Proof.
  unfold entries_kept. revert i. induction l as [|x l IH]; intros [|i]; [done..| |].
  - change (alter _ 0%nat (x :: l)) with (confirmed_by c x :: l). rewrite !filter_cons.
    destruct (decide (by_user u x)); [rewrite decide_True by done|rewrite decide_False by done];
      [by rewrite !fmap_cons|done].
  - change (alter _ (S i) (x :: l)) with (x :: alter (confirmed_by c) i l). rewrite !filter_cons.
    case_decide; [|done]. rewrite !fmap_cons. by apply sublist_skip.
Qed.
End Authorship.

(** ** Histories *)

Inductive TOp :=
  | OpAppend (events : list TimelineEvent)
  | OpPrepend (events : list TimelineEvent)
  | OpConfirm (confirmations : list TimelineEventConfirmation).

Definition op_events (op : TOp) : list TimelineEvent :=
  match op with OpAppend l | OpPrepend l => l | OpConfirm _ => [] end.

Section Histories.
Context `{EthLib}.

Definition exec (userId sid : string) (state : TimelinesViewModel) (op : TOp)
    : Res TimelinesViewModel :=
  match op with
  | OpAppend events => appendEvents state events userId sid false
  | OpPrepend events => prependEvents state events userId sid
  | OpConfirm confirmations => Ok (confirmEvents state confirmations sid)
  end.

(** A preorder on timelines that the three kinds of changes respect holds
    between the ends of every history. *)
Lemma history_rel (R : relation (list TimelineEvent)) `{!PreOrder R} (P : TimelineEvent → Prop)
    userId sid ops :
  (∀ te l l', P te → appended te l l' → R l l') →
  (∀ te l l', P te → prepended te l l' → R l l') →
  (∀ l c i, findIndex (λ e, String.eqb (tl_eventId e) (tc_eventId c)) l = Some i →
            R l (alter (confirmed_by c) i l)) →
  (∀ op te, op ∈ ops → te ∈ op_events op → P te) →
  ∀ s s', reduceEvents (exec userId sid) s ops = Ok s' → R (tl sid s) (tl sid s').
Proof.
  intros Ha Hp Hc Hops. set (R' s s' := R (tl sid s) (tl sid s')).
  assert (PreOrder R') by (split; [intros s; by unfold R'|intros s1 s2 s3; unfold R'; by intros; etrans]).
  intros s s'. apply (reduceEvents_rel R' (λ op, op ∈ ops)); [|done].
  intros s1 op s2 Hin. assert (∀ te, te ∈ op_events op → P te) as Hev by (intros te; by apply Hops).
  destruct op as [events|events|confs]; cbn [exec op_events] in *.
  - unfold appendEvents. apply (reduceEvents_rel R' P); [|done].
    intros s3 e s4 He E. eapply Ha; [done|]. by eapply processEvent_tl.
  - unfold prependEvents. apply (reduceEvents_rel R' P).
    + intros s3 e s4 He E. eapply Hp; [done|]. by eapply prependOne_tl.
    + intros e He. apply Hev. exact (proj1 (elem_of_reverse _ _) He).
  - intros [= <-]. unfold confirmEvents. clear Hev Hin Hops. revert s1.
    induction confs as [|c confs IH]; intros s1; [reflexivity|]. simpl.
    etrans; [|apply IH]. unfold R'. rewrite confirmEvent_tl.
    destruct (findIndex _ _) as [i|] eqn:E; [by apply Hc|done].
Qed.
End Histories.

(** ** Redactions *)

(** The event with this id is shown as redacted. *)
Definition shown_redacted (id : string) (l : list TimelineEvent) : Prop :=
  ∃ te, te ∈ l ∧ tl_eventId te = id ∧ isRedactedContent (tl_content te) = true.

Definition redacted_kept (l l' : list TimelineEvent) : Prop :=
  ∀ id, shown_redacted id l → shown_redacted id l'.

#[export] Instance redacted_kept_preorder : PreOrder redacted_kept.
Proof. split; [by intros l id|]. intros l1 l2 l3 H12 H23 id ?. by apply H23, H12. Qed.

Lemma redacted_sticks prev next :
  isRedactedContent (tl_content prev) = true →
  tl_eventId (toReplacedMessageEvent prev next) = tl_eventId prev
  ∧ isRedactedContent (tl_content (toReplacedMessageEvent prev next)) = true.
Proof.
  intros Hp. unfold toReplacedMessageEvent. destruct (negb (canReplaceEvent prev next)); [done|].
  destruct (tl_content prev) as [[]|] eqn:Ep; try done.
  destruct (tl_content next) as [[]|] eqn:En; simpl; rewrite ?Ep, ?En; done.
Qed.

Lemma insert_shown (l : list TimelineEvent) i old new id :
  l !! i = Some old →
  (tl_eventId old = id → isRedactedContent (tl_content old) = true →
   tl_eventId new = id ∧ isRedactedContent (tl_content new) = true) →
  shown_redacted id l → shown_redacted id (<[i := new]> l).
Proof.
  intros Hi Hn (te & [j Hj]%list_elem_of_lookup & Hid & Hr).
  destruct (decide (i = j)) as [->|Hij].
  - assert (te = old) as -> by congruence. destruct (Hn Hid Hr) as [H1 H2].
    exists new. split_and!; [|done..]. eapply list_elem_of_lookup_2.
    apply list_lookup_insert_eq. by eapply lookup_lt_Some.
  - exists te. split_and!; [|done..]. apply (list_elem_of_lookup_2 _ j).
    by rewrite list_lookup_insert_ne.
Qed.

Lemma replaced_redacted te l l' : replaced te l l' → redacted_kept l l'.
Proof.
  intros [|i old l1 Hi _] id; [done|]. apply (insert_shown _ _ old); [done|].
  intros <- Hr. by apply redacted_sticks.
Qed.

Lemma redacted_kept_snoc l x : redacted_kept l (l ++ [x]).
Proof. intros id (te & ? & ? & ?). exists te. split_and!; [|done..]. by apply elem_of_app; left. Qed.
Lemma redacted_kept_cons l x : redacted_kept l (x :: l).
Proof. intros id (te & ? & ? & ?). exists te. split_and!; [|done..]. by apply elem_of_cons; right. Qed.

Lemma confirmed_redacted c f i l :
  findIndex f l = Some i → redacted_kept l (alter (confirmed_by c) i l).
Proof.
  intros (x & Hi & _)%findIndex_Some id. rewrite (alter_insert_Some _ _ _ _ Hi).
  by apply (insert_shown _ _ x).
Qed.

Section Redactions.
Context `{EthLib}.

Lemma appended_redacted te l l' : appended te l l' → redacted_kept l l'.
Proof.
  intros [red l1 l2 _ Hrep|l1 l2 Hrep|l1].
  - etrans; [by eapply replaced_redacted|apply redacted_kept_snoc].
  - by eapply replaced_redacted.
  - apply redacted_kept_snoc.
Qed.

Lemma prepended_redacted te l l' : prepended te l l' → redacted_kept l l'.
Proof.
  intros [red x l1 l2 _ Hrep|l1 l2 Hrep|x l1].
  - etrans; [apply redacted_kept_cons|by eapply replaced_redacted].
  - by eapply replaced_redacted.
  - apply redacted_kept_cons.
Qed.

Lemma makeRedactionEvent_ok te id admin :
  tl_content te = Some (TE_RedactionActionEvent id admin) →
  ∃ red, makeRedactionEvent te = Ok red ∧ tl_content red = Some (TE_RedactedEvent admin)
    ∧ tl_sender red = tl_sender te ∧ tl_localEventId red = tl_localEventId te
    ∧ tl_latestEventNum red = tl_latestEventNum te.
Proof. intros Hc. unfold makeRedactionEvent. rewrite Hc. by eexists. Qed.

Lemma removeEvent_tl state sid rid s' :
  removeEvent state sid rid = Ok s' →
  tl sid s' = tl sid state
  ∨ ∃ i e, tl sid state !! i = Some e ∧ tl_eventId e = rid ∧ tl sid s' = splice1 i (tl sid state).
Proof.
  unfold removeEvent. destruct (timelines state !! sid) as [l|] eqn:El; [|intros [= <-]; auto].
  destruct (findIndex _ l) as [i|] eqn:Hf; [|intros [= <-]; auto].
  apply findIndex_Some in Hf as (e & Hi & He%String.eqb_eq & _). rewrite Hi.
  destruct (removeReaction _ _ _) as [r|]; [|done]. intros [= <-]. right. exists i, e.
  unfold tl. rewrite El. simpl. split_and!; [done..|]. unfold removeTimelineEvent. by rewrite tl_insert, El.
Qed.

Lemma removed_shown id i e (l : list TimelineEvent) :
  l !! i = Some e → tl_eventId e ≠ id → shown_redacted id l → shown_redacted id (splice1 i l).
Proof.
  intros Hi Hne (te & Hin & Hid & Hr). exists te. split_and!; [|done..].
  unfold splice1. rewrite <- (take_drop_middle _ _ _ Hi) in Hin.
  rewrite !elem_of_app, elem_of_cons in *. destruct Hin as [?|[->|?]]; [by left|done|by right].
Qed.

(** An event with [updatingEventId] takes the place of the entry with that id;
    the entry goes away when the event turns out to be an edit. *)
Lemma update_shown state te userId sid upd s' id :
  processEvent state te userId sid upd = Ok s' →
  (truthy_id upd = Some id → truthy_id (getEditsId (tl_content te)) = None) →
  shown_redacted id (tl sid state) → shown_redacted id (tl sid s').
Proof.
  destruct (truthy_id upd) as [rid|] eqn:Hu.
  2: { intros Hp _ Hs. eapply appended_redacted, Hs. apply (processEvent_tl _ _ userId). revert Hp. unfold processEvent. rewrite Hu. intros Hp. exact Hp. }
  unfold processEvent. rewrite Hu. intros Hp Hed Hs.
  assert (∀ (b : bool) s s2,
    (if b then s <| lastestEventByUser ::= <[tl_sender te := te]> |> else s) = s2 →
    tl sid s2 = tl sid s) as Hl by (by intros [] ? ? <-).
  destruct (truthy_id (getRedactsId (tl_content te))) as [tid|]; [|destruct (truthy_id (getEditsId (tl_content te))) as [eid|]].
  - apply bind_Ok in Hp as (s2 & (red & _ & (s1 & H1 & H2)%bind_Ok)%bind_Ok & [= E]). rewrite (Hl _ _ _ E).
    by eapply replaced_redacted, replaced_redacted, Hs; eapply replaceEvent_tl.
  - apply bind_Ok in Hp as (s2 & (s1 & H1 & H2)%bind_Ok & [= E]). rewrite (Hl _ _ _ E).
    eapply replaced_redacted; [by eapply replaceEvent_tl|].
    apply removeEvent_tl in H1 as [->|(i & e & Hi & He & ->)]; [done|].
    eapply removed_shown; [done| |done]. rewrite He. intros ->. by specialize (Hed eq_refl).
  - apply bind_Ok in Hp as (s2 & H2 & [= E]). rewrite (Hl _ _ _ E). by eapply replaced_redacted, Hs; eapply replaceEvent_tl.
Qed.

(** A redaction by the author or an administrator hits its target. *)
Lemma redaction_hits state te userId sid upd id admin i old s' :
  tl_content te = Some (TE_RedactionActionEvent id admin) → id ≠ "" →
  findIndex (matchesEvent id (tl_localEventId te)) (tl sid state) = Some i →
  tl sid state !! i = Some old → tl_eventId old = id →
  tl_latestEventNum old <= tl_latestEventNum te →
  admin = true ∨ tl_sender te = tl_sender old →
  processEvent state te userId sid upd = Ok s' → shown_redacted id (tl sid s').
Proof.
  intros Hc Hid Hf Hi Ho Hle Ha.
  destruct (makeRedactionEvent_ok te id admin Hc) as (red & Hred & Hrc & Hrs & Hrl & Hrn).
  unfold processEvent. rewrite Hc, Hred. cbn [getRedactsId getEditsId truthy_id].
  unfold truthy_str. apply String.eqb_neq in Hid as Hid'. rewrite Hid'. cbn [negb].
  intros (s2 & (red' & [= <-] & (s1 & H1 & H2)%bind_Ok)%bind_Ok & [= E])%bind_Ok.
  assert (tl sid s' = tl sid s2) as -> by (rewrite <- E; by case_match). clear E.
  assert (Hs1 : shown_redacted id (tl sid s1)).
  2: { destruct (truthy_id upd); [by eapply replaced_redacted, Hs1; eapply replaceEvent_tl|].
    injection H2 as <-. rewrite appendEvent_tl. by apply redacted_kept_snoc. }
  clear H2. revert H1. unfold replaceEvent. fold (tl sid state).
  rewrite Hrl, Hf. simpl. rewrite Hi. simpl.
  destruct (Z.ltb_spec (tl_latestEventNum red) (tl_latestEventNum old)); [lia|].
  destruct (removeReaction _ _ _) as [r|]; [|done]. intros [= <-]. unfold tl. simpl.
  unfold replaceTimelineEvent. rewrite tl_insert. fold (tl sid state).
  exists (toReplacedMessageEvent old red). split.
  { apply elem_of_app. right. apply elem_of_cons. by left. }
  assert (canReplaceEvent old red = true) as Hcan.
  { unfold canReplaceEvent. rewrite Hrc, Hrs. destruct admin; [done|]. destruct Ha as [|Ha]; [done|].
    by apply String.eqb_eq. }
  unfold toReplacedMessageEvent. rewrite Hcan, Hrc. simpl. by rewrite Hrc.
Qed.

(** All changes of a timeline but its initialisation: new and older events,
    confirmations, and updates of events that were decrypted or are local *)
Inductive UOp :=
  | OpStream (op : TOp)
  | OpUpdates (events : list TimelineEvent)
  | OpUpdate (event : TimelineEvent) (replacingEventId : string).

Definition execU (userId sid : string) (state : TimelinesViewModel) (op : UOp) : Res TimelinesViewModel :=
  match op with
  | OpStream op => exec userId sid state op
  | OpUpdates events => updateEvents state events userId sid
  | OpUpdate event replacingEventId => updateEvent state event userId sid replacingEventId
  end.

(** The operation finds out that the event [id] itself is an edit of another. *)
Definition becomes_edit (id : string) (op : UOp) : Prop :=
  match op with
  | OpStream _ => False
  | OpUpdates events => ∃ te, te ∈ events ∧ tl_eventId te = id ∧ truthy_id (getEditsId (tl_content te)) ≠ None
  | OpUpdate te rid => rid = id ∧ truthy_id (getEditsId (tl_content te)) ≠ None
  end.

Lemma truthy_id_Some x y : truthy_id (Some x) = Some y → x = y.
Proof. simpl. destruct (truthy_str x); [by intros [= ->]|done]. Qed.

Lemma redacted_history userId sid id ops s s' :
  (∀ op, op ∈ ops → ¬ becomes_edit id op) →
  reduceEvents (execU userId sid) s ops = Ok s' → shown_redacted id (tl sid s) → shown_redacted id (tl sid s').
Proof.
  intros Hops. set (R s s' := shown_redacted id (tl sid s) → shown_redacted id (tl sid s')).
  assert (PreOrder R) by (split; [by intros ? ?|intros ? ? ? H1 H2 H3; by apply H2, H1]).
  apply (reduceEvents_rel R (λ op, ¬ becomes_edit id op)); [|done].
  intros s1 [op|events|te rid] s2 Hop He.
  - change (exec userId sid s1 op = Ok s2) in He. assert (redacted_kept (tl sid s1) (tl sid s2)) as Hk; [|exact (Hk id)].
    apply (history_rel redacted_kept (λ _, True) userId sid [op]);
      eauto using appended_redacted, prepended_redacted, confirmed_redacted. simpl. by rewrite He.
  - revert He. apply (reduceEvents_rel R (λ te, te ∈ events)); [|done].
    intros s3 te s4 Hin Hp. refine (update_shown _ _ _ _ _ _ _ Hp _). intros Hid%truthy_id_Some.
    destruct (truthy_id (getEditsId _)) eqn:Ee; [|done]. destruct Hop. exists te. rewrite Ee. auto.
  - refine (update_shown _ _ _ _ _ _ _ He _). intros Hid%truthy_id_Some.
    destruct (truthy_id (getEditsId _)) eqn:Ee; [|done]. destruct Hop. simpl. rewrite Ee. auto.
Qed.
End Redactions.

(** ** Theorems *)

(** C8. Nobody else can change what a user wrote: after any history of
    appended and prepended events and confirmations in which no event is the
    user's own or an administrator's redaction, all the user's timeline entries
    are still there, in order and unchanged but for their confirmation. *)
Theorem others_cannot_alter `{EthLib} u userId sid ops state state' :
  (∀ op te, op ∈ ops → te ∈ op_events op → foreign u te) →
  reduceEvents (exec userId sid) state ops = Ok state' →
  entries_kept u (tl sid state) (tl sid state').
Proof.
  intros Hops. apply (history_rel (entries_kept u) (foreign u)); [| |intros; apply confirmed_kept|done];
    eauto using appended_kept, prepended_kept.
Qed.

(** C12. A redaction is final. When a redaction by the author or by an
    administrator is processed, on arrival or when it is decrypted, and its
    target is in the timeline with no newer change, the target is shown as
    redacted. It stays so, until the stream is initialised again, whatever is
    appended, prepended, edited, decrypted, updated or confirmed afterwards, as
    long as the target is not found to be itself an edit of another message,
    which removes its entry. *)
Theorem redaction_final `{EthLib} state te userId sid upd id admin i old s1 ops s2 :
  tl_content te = Some (TE_RedactionActionEvent id admin) → id ≠ "" →
  findIndex (matchesEvent id (tl_localEventId te)) (tl sid state) = Some i →
  tl sid state !! i = Some old → tl_eventId old = id →
  tl_latestEventNum old <= tl_latestEventNum te →
  admin = true ∨ tl_sender te = tl_sender old →
  processEvent state te userId sid upd = Ok s1 →
  (∀ op, op ∈ ops → ¬ becomes_edit id op) →
  reduceEvents (execU userId sid) s1 ops = Ok s2 →
  shown_redacted id (tl sid s1) ∧ shown_redacted id (tl sid s2).
Proof.
  intros Hc Hid Hf Hi Ho Hle Ha H1 Hops H2.
  assert (shown_redacted id (tl sid s1)) as Hs by (by eapply redaction_hits). split; [done|].
  by eapply redacted_history.
Qed.

(** ** Confirmations and pages *)

Lemma alter_by_id (f : TimelineEvent → TimelineEvent) id l :
  NoDup (tl_eventId <$> l) →
  match findIndex (λ e, String.eqb (tl_eventId e) id) l with
  | Some i => alter f i l
  | None => l
  end = (λ e, if String.eqb (tl_eventId e) id then f e else e) <$> l.
Proof.
  induction l as [|x l IH]; [done|]. rewrite fmap_cons. intros [Hx Hn]%NoDup_cons.
  cbn [findIndex]. rewrite fmap_cons. destruct (String.eqb_spec (tl_eventId x) id) as [<-|Hne].
  - simpl. f_equal. rewrite <- (list_fmap_id l) at 1. apply list_fmap_ext. intros i y Hy.
    destruct (String.eqb_spec (tl_eventId y) (tl_eventId x)) as [E|]; [|done].
    exfalso. apply Hx. rewrite <- E. apply list_elem_of_fmap. exists y. split; [done|].
    by eapply list_elem_of_lookup_2.
  - rewrite <- (IH Hn). by destruct (findIndex _ l).
Qed.

Definition confirm_if (e : TimelineEvent) (c : TimelineEventConfirmation) : TimelineEvent :=
  if String.eqb (tl_eventId e) (tc_eventId c) then confirmed_by c e else e.

Lemma confirm_if_id e c : tl_eventId (confirm_if e c) = tl_eventId e.
Proof. unfold confirm_if. by case_match. Qed.

Lemma confirmEvent_map state sid c :
  NoDup (tl_eventId <$> tl sid state) →
  tl sid (confirmEvent state sid c) = (λ e, confirm_if e c) <$> tl sid state.
Proof. intros Hn. rewrite confirmEvent_tl. by apply alter_by_id. Qed.

(** A plain event neither edits nor redacts. *)
Definition plain (te : TimelineEvent) : Prop :=
  truthy_id (getRedactsId (tl_content te)) = None ∧ truthy_id (getEditsId (tl_content te)) = None.

Section Pages.
Context `{EthLib}.

(** The event that becomes the latest of its sender *)
Definition note_latest (te : TimelineEvent) (s : TimelinesViewModel) : TimelinesViewModel :=
  if default 0 (tl_createdAtEpochMs <$> lastestEventByUser s !! tl_sender te) <? tl_createdAtEpochMs te
  then s <| lastestEventByUser ::= <[tl_sender te := te]> |> else s.

Lemma note_latest_tl te s sid :
  tl sid (note_latest te s) = tl sid s
  ∧ pendingReplacedEvents (note_latest te s) = pendingReplacedEvents s.
Proof. unfold note_latest. by case_match. Qed.

Lemma processEvent_plain state te userId sid :
  plain te →
  processEvent state te userId sid None = Ok (note_latest te (appendEvent state userId sid te)).
Proof. intros [H1 H2]. unfold processEvent. by rewrite H1, H2. Qed.

End Pages.

(** An edit and its message may arrive in either order: the edit first,
    with the message on an older page, shows the same timeline as the message
    first. *)
Theorem edit_across_pages `{EthLib} userId sid m e msg emsg state :
  tl_content m = Some (TE_ChannelMessage msg) → plain m →
  tl_content e = Some (TE_ChannelMessage emsg) → cme_editsEventId emsg = Some (tl_eventId m) →
  tl_eventId m ≠ "" → tl_reactionParentId m = None →
  tl_latestEventNum m <= tl_latestEventNum e →
  pendingReplacedEvents state !! sid = None →
  ∃ s1 s2 s3, appendEvents state [e] userId sid true = Ok s1
    ∧ prependEvents s1 [m] userId sid = Ok s2
    ∧ appendEvents state [m; e] userId sid true = Ok s3
    ∧ tl sid s2 = [toReplacedMessageEvent m e] ∧ tl sid s3 = [toReplacedMessageEvent m e].
Proof.
  intros Hm Hpm He Hed Hid Hr Hle Hs. unfold appendEvents, prependEvents. cbn [reduceEvents].
  set (s0 := initializeStream state sid).
  assert (tl sid s0 = []) as Hi by (unfold tl, s0; simpl; by rewrite lookup_insert_eq).
  assert (∀ s, processEvent s e userId sid None
    = (s ← replaceEvent s userId sid (tl_eventId m) e; Ok (note_latest e s))) as Hpe.
  { intros s. unfold processEvent. rewrite He. cbn [getRedactsId getEditsId truthy_id]. rewrite Hed.
    cbn [truthy_id]. unfold truthy_str. apply String.eqb_neq in Hid. rewrite Hid. done. }
  assert (replaceEvent s0 userId sid (tl_eventId m) e
    = Ok (s0 <| pendingReplacedEvents ::= insert2 sid (tl_eventId m) e |>)) as Hr0.
  { unfold replaceEvent. fold (tl sid s0). rewrite Hi. simpl. unfold lookup2. by rewrite Hs. }
  set (t1 := note_latest m (appendEvent s0 userId sid m)).
  assert (tl sid t1 = [m]) as Ht1.
  { unfold t1. rewrite (proj1 (note_latest_tl _ _ _)), appendEvent_tl, Hi. done. }
  assert (∃ s3, replaceEvent t1 userId sid (tl_eventId m) e = Ok s3
                ∧ tl sid s3 = [toReplacedMessageEvent m e]) as (s3 & Hr3 & Hs3).
  { unfold replaceEvent. fold (tl sid t1). rewrite Ht1. simpl. unfold matchesEvent.
    rewrite String.eqb_refl. simpl. destruct (Z.ltb_spec (tl_latestEventNum e) (tl_latestEventNum m)); [lia|].
    unfold removeReaction. rewrite Hr. simpl. eexists. split; [done|]. unfold tl. simpl.
    unfold replaceTimelineEvent. by rewrite lookup_insert_eq. }
  rewrite Hpe, Hr0, processEvent_plain by done. cbn [mbind Res_bind]. fold t1. rewrite Hpe, Hr3.
  set (s1 := note_latest e (s0 <| pendingReplacedEvents ::= insert2 sid (tl_eventId m) e |>)).
  exists s1, (prependEvent s1 userId sid m), (note_latest e s3). split_and!; [done| |done| |].
  - change (reverse [m]) with [m]. cbn [reduceEvents]. destruct Hpm as [H1 H2].
    unfold prependOne. by rewrite H1, H2.
  - rewrite prependEvent_tl. unfold s1. rewrite (proj2 (note_latest_tl _ _ sid)).
    simpl. unfold lookup2, insert2. rewrite lookup_insert_eq. simpl. rewrite lookup_insert_eq.
    rewrite (proj1 (note_latest_tl _ _ _)). f_equal. exact Hi.
  - by rewrite (proj1 (note_latest_tl _ _ _)).
Qed.

(** Confirmations set the block and event number of the events they name
    and change nothing else of the timeline. *)
Theorem confirm_only_confirms state sid confs :
  NoDup (tl_eventId <$> tl sid state) →
  tl sid (confirmEvents state confs sid) = (λ e, foldl confirm_if e confs) <$> tl sid state
  ∧ unconfirmed <$> tl sid (confirmEvents state confs sid) = unconfirmed <$> tl sid state.
Proof.
  intros Hn. assert (tl sid (confirmEvents state confs sid)
    = (λ e, foldl confirm_if e confs) <$> tl sid state) as ->.
  { unfold confirmEvents. revert state Hn. induction confs as [|c confs IH]; intros state Hn; simpl.
    - by rewrite list_fmap_id.
    - rewrite IH; rewrite (confirmEvent_map _ _ _ Hn).
      + by rewrite <- list_fmap_compose.
      + rewrite <- list_fmap_compose. erewrite list_fmap_ext; [exact Hn|].
        intros i e _. apply confirm_if_id. }
  split; [done|]. rewrite <- list_fmap_compose. apply list_fmap_ext. intros i e _. simpl.
  clear. revert e. induction confs as [|c confs IH]; intros e; [done|]. simpl. rewrite IH.
  unfold confirm_if. by case_match.
Qed.

(** ** Two defects *)

(** Two equal reactions of one user that are both redacted make the second
    redaction throw. *)
Lemma duplicate_reaction_throws sid te parent reaction users entry (m : gmap string (gmap string MessageReactions)) :
  truthy_id (tl_reactionParentId te) = Some parent → reactionOf te = Some reaction →
  lookup2 m sid parent = Some entry → entry !! reaction = Some users →
  delete (tl_sender te) users = ∅ →
  ∃ m1, removeReaction sid te m = Ok m1 ∧ ∃ err, removeReaction sid te m1 = Throw err.
Proof.
  intros Hp Hr Hl He Hu. unfold removeReaction. rewrite Hp, Hr, Hl, He, Hu.
  rewrite map_size_empty. simpl. eexists. split; [done|].
  unfold lookup2, insert2. rewrite lookup_insert_eq. simpl. rewrite lookup_insert_eq.
  rewrite lookup_delete_eq. by eexists.
Qed.

(** ** The hypotheses can be met *)
Module TimelinesWitness.
Import ModelEth.

Definition ev (id sender : string) (num : Z) (content : TimelineEvent_OneOf) : TimelineEvent := {|
  tl_eventId := id; tl_localEventId := None; tl_eventNum := num; tl_latestEventId := id;
  tl_latestEventNum := num; tl_status := ES_RECEIVED; tl_createdAtEpochMs := num;
  tl_updatedAtEpochMs := None; tl_content := Some content; tl_fallbackContent := "";
  tl_isEncrypting := false; tl_isLocalPending := false; tl_isSendFailed := false;
  tl_confirmedEventNum := None; tl_confirmedInBlockNum := None; tl_threadParentId := None;
  tl_replyParentId := None; tl_reactionParentId := None; tl_isMentioned := false;
  tl_isRedacted := false; tl_sender := sender; tl_sessionId := None |}.
Definition msg (body : string) (edits : option string) : ChannelMessageEvent := {|
  cme_threadId := None; cme_threadPreview := None; cme_replyId := None; cme_replyPreview := None;
  cme_body := body; cme_mentions := []; cme_editsEventId := edits; cme_content := MT_Text;
  cme_attachments := None |}.

Definition hello := ev "m1" "ann" 1 (TE_ChannelMessage (msg "hello" None)).
Definition edited := ev "m2" "ann" 2 (TE_ChannelMessage (msg "hi" (Some "m1"))).
Definition redact := ev "m3" "ann" 3 (TE_RedactionActionEvent "m1" false).
Definition forged := ev "m4" "eve" 4 (TE_ChannelMessage (msg "evil" (Some "m1"))).

Definition get (r : Res TimelinesViewModel) : TimelinesViewModel :=
  match r with Ok s => s | Throw _ => empty_model end.
Definition s1 := get (appendEvents empty_model [hello] "me" "s" true).
Definition s2 := get (processEvent s1 redact "me" "s" None).
Definition s3 := get (appendEvents s2 [forged] "me" "s" false).
Definition s4 := get (appendEvents s1 [forged] "me" "s" false).

(** A later event of anybody that refers to a message takes the place of a
    waiting redaction of it; when the message is loaded it shows as written. *)
Lemma waiting_redaction_lost :
  let late := get (appendEvents empty_model [redact; forged] "me" "s" true) in
  tl "s" (get (prependEvents late [hello] "me" "s")) = [hello; redact]
  ∧ shown_redacted "m1" (tl "s" (get (appendEvents empty_model [hello; redact; forged] "me" "s" true))).
Proof.
  split; [vm_compute; reflexivity|]. eexists. split; [vm_compute; apply elem_of_cons; by left|].
  split; reflexivity.
Qed.

Lemma others_cannot_alter_witness : entries_kept "ann" (tl "s" s1) (tl "s" s4).
Proof.
  apply (others_cannot_alter "ann" "me" "s" [OpAppend [forged]]); [|vm_compute; reflexivity].
  intros op te ->%list_elem_of_singleton ->%list_elem_of_singleton. split; [done|reflexivity].
Defined.

Lemma redaction_final_witness : shown_redacted "m1" (tl "s" s2) ∧ shown_redacted "m1" (tl "s" s3).
Proof.
  apply (redaction_final s1 redact "me" "s" None "m1" false 0%nat hello s2
           [OpStream (OpAppend [forged]); OpUpdate hello "m1"]);
    [reflexivity|done|vm_compute; reflexivity|vm_compute; reflexivity|reflexivity|vm_compute; congruence
    |right; reflexivity|vm_compute; reflexivity| |vm_compute; reflexivity].
  intros op [->|[->|[]%not_elem_of_nil]%elem_of_cons]%elem_of_cons; [intros []|intros [_ H]; by apply H].
Defined.

Lemma edit_across_pages_witness :
  ∃ s, appendEvents empty_model [hello; edited] "me" "s" true = Ok s
       ∧ tl "s" s = [toReplacedMessageEvent hello edited].
Proof.
  destruct (edit_across_pages "me" "s" hello edited (msg "hello" None) (msg "hi" (Some "m1")) empty_model)
    as (t1 & t2 & t3 & _ & _ & H3 & _ & H4); [reflexivity|done|reflexivity..|done|reflexivity|vm_compute; congruence|reflexivity|].
  exists t3. split; [exact H3|exact H4].
Defined.

Lemma confirm_only_confirms_witness :
  let c := {| tc_eventId := "m1"; tc_confirmedEventNum := 5; tc_confirmedInBlockNum := 6 |} in
  tl "s" (confirmEvents s1 [c] "s") = [confirmed_by c hello].
Proof.
  cbv zeta. destruct (confirm_only_confirms s1 "s"
    [{| tc_eventId := "m1"; tc_confirmedEventNum := 5; tc_confirmedInBlockNum := 6 |}]) as [H _].
  - assert (tl "s" s1 = [hello]) as -> by (vm_compute; reflexivity). apply NoDup_singleton.
  - rewrite H. vm_compute. reflexivity.
Defined.
End TimelinesWitness.
