(* ===== verification/Channels.v ===== *)
(** * Channels: the contents of channels, direct messages and group messages
    (sdk/src/streamStateView_Channel.ts, streamStateView_DMChannel.ts,
    streamStateView_GDMChannel.ts, streamStateView_ChannelMetadata.ts) *)

From S2P Require Import Prelude JsLib Ids Proto Types TimelineTypes StreamEvents StreamViews Content.

Module Channel.
Record Channel := { streamId : string; spaceId : string; reachedRenderableContent : bool }.
#[export] Instance eta_Channel : Eta Channel := λ r,
  Build_Channel (streamId r) (spaceId r) (reachedRenderableContent r).

Definition new (streamId : string) : Channel :=
  {| streamId := streamId; spaceId := ""; reachedRenderableContent := false |}.

Abbreviation CM := (M Emit (Env unit Channel)).

Definition getStreamParentId (this : Channel) : string := spaceId this.
Definition needsScrollback (this : Channel) : bool := negb (reachedRenderableContent this).

Section Channel.
Context `{EthLib, Codec}.

Definition applySnapshot (content : CP_Snapshot) : CM unit :=
  on_self (λ s, s <| spaceId := streamIdFromBytes (default [] (cpi_spaceId <$> cps_inception content)) |>).

(** [case 'message'], the same in both directions *)
Definition message (event : ObjId) (v : EncryptedData) (cleartext : option Cleartext)
    (encryptionEmitter : bool) : CM unit :=
  _ ← whenM (negb (truthy (ed_refEventId v)))
        (on_self (λ s, s <| reachedRenderableContent := true |>));
  this ← gets self;
  decryptEvent (streamId this) kind_channelMessage event v cleartext encryptionEmitter.

Definition prependEvent (event : ObjId) (cleartext : option Cleartext)
    (encryptionEmitter stateEmitter : bool) : CM unit :=
  '(_, remote) ← remoteOf event;
  match ev_payload (pe_event remote) with
  | P_channelPayload (CP_message v) => message event v cleartext encryptionEmitter
  | P_channelPayload (CP_inception _ | CP_redaction _ | CP_unset) => mret tt
  | _ => throwWithCode "Unknown" ERR_UNSPECIFIED
  end.

Definition appendEvent (event : ObjId) (cleartext : option Cleartext)
    (encryptionEmitter stateEmitter : bool) : CM unit :=
  '(_, remote) ← remoteOf event;
  match ev_payload (pe_event remote) with
  | P_channelPayload (CP_message v) => message event v cleartext encryptionEmitter
  | P_channelPayload (CP_inception _ | CP_redaction _ | CP_unset) => mret tt
  | _ => throwWithCode "Unknown" ERR_UNSPECIFIED
  end.

#[export] Instance content : AbstractContent unit Channel := {|
  content_prependEvent := prependEvent;
  content_appendEvent := appendEvent;
  content_onConfirmedEvent := no_confirm;
  content_onDecryptedContent := no_decrypt;
  content_onAppendLocalEvent := no_local |}.
End Channel.
End Channel.

Module DMChannel.
Record DMChannel := { streamId : string }.
Definition new (streamId : string) : DMChannel := {| streamId := streamId |}.

Abbreviation DmStreams := (gmap string DmStreamModel).
Abbreviation DM := (M Emit (Env DmStreams DMChannel)).

Definition dmStreamModel (env : Env DmStreams DMChannel) : DmStreamModel :=
  get DmStream_default (streamId (self env)) (view env).
Definition lastEventCreatedAtEpochMs (env : Env DmStreams DMChannel) : Z :=
  dmm_lastEventCreatedAtEpochMs (dmStreamModel env).

Definition updateLastEvent (event : ParsedEvent) (stateEmitter : bool) : DM unit :=
  env ← getM;
  let createdAtEpochMs := ev_createdAtEpochMs (pe_event event) in
  whenM (lastEventCreatedAtEpochMs env <? createdAtEpochMs)
    (_ ← on_view (dm_setLastEventCreatedAtEpochMs (streamId (self env)) createdAtEpochMs);
     emit stateEmitter (streamLatestTimestampUpdated (streamId (self env)))).

Section DMChannel.
Context `{EthLib, Codec}.

Definition applySnapshot (content : DM_Snapshot) : DM unit :=
  match dms_inception content with
  | None => mret tt
  | Some inception =>
      env ← getM;
      firstPartyId ← liftR (userIdFromAddress (dmi_firstPartyAddress inception));
      secondPartyId ← liftR (userIdFromAddress (dmi_secondPartyAddress inception));
      on_view (setParticipants (streamId (self env)) firstPartyId secondPartyId)
  end.

Definition appendEvent (event : ObjId) (cleartext : option Cleartext)
    (encryptionEmitter stateEmitter : bool) : DM unit :=
  '(_, remote) ← remoteOf event;
  match ev_payload (pe_event remote) with
  | P_dmChannelPayload (DMP_inception _) => updateLastEvent remote stateEmitter
  | P_dmChannelPayload (DMP_message v) =>
      this ← gets self;
      _ ← decryptEvent (streamId this) kind_channelMessage event v cleartext encryptionEmitter;
      updateLastEvent remote stateEmitter
  | P_dmChannelPayload DMP_unset => mret tt
  | _ => throwWithCode "Unknown" ERR_UNSPECIFIED
  end.

Definition prependEvent (event : ObjId) (cleartext : option Cleartext)
    (encryptionEmitter stateEmitter : bool) : DM unit :=
  '(_, remote) ← remoteOf event;
  match ev_payload (pe_event remote) with
  | P_dmChannelPayload (DMP_inception _) => updateLastEvent remote false
  | P_dmChannelPayload (DMP_message v) =>
      this ← gets self;
      _ ← decryptEvent (streamId this) kind_channelMessage event v cleartext encryptionEmitter;
      updateLastEvent remote false
  | P_dmChannelPayload DMP_unset => mret tt
  | _ => throwWithCode "Unknown" ERR_UNSPECIFIED
  end.

Definition onAppendLocalEvent (event : ObjId) (stateEmitter : bool) : DM unit :=
  e ← deref event;
  this ← gets self;
  _ ← on_view (dm_setLastEventCreatedAtEpochMs (streamId this) (ste_createdAtEpochMs e));
  emit stateEmitter (streamLatestTimestampUpdated (streamId this)).

#[export] Instance content : AbstractContent DmStreams DMChannel := {|
  content_prependEvent := prependEvent;
  content_appendEvent := appendEvent;
  content_onConfirmedEvent := no_confirm;
  content_onDecryptedContent := no_decrypt;
  content_onAppendLocalEvent := onAppendLocalEvent |}.
End DMChannel.

Definition participants (env : Env DmStreams DMChannel) : gset string :=
  match dmm_firstPartyId (dmStreamModel env), dmm_secondPartyId (dmStreamModel env) with
  | Some firstPartyId, Some secondPartyId =>
      if truthy_str firstPartyId && truthy_str secondPartyId then {[firstPartyId; secondPartyId]} else ∅
  | _, _ => ∅
  end.
End DMChannel.

(** The channel properties of a group *)
Module ChannelMetadata.
Record ChannelMetadata := { streamId : string }.
Definition new (streamId : string) : ChannelMetadata := {| streamId := streamId |}.

Abbreviation GdmStreams := (gmap string GdmStreamModel).
Abbreviation CMM := (M Emit (Env GdmStreams ChannelMetadata)).

Definition gdmStreamModel (env : Env GdmStreams ChannelMetadata) : GdmStreamModel :=
  get GdmStream_default (streamId (self env)) (view env).

Definition handleDecryptedContent (eventId : string) (content : DecryptedContent) (emitter : bool)
    : CMM unit :=
  match content with
  | DC_channelProperties properties =>
      env ← getM;
      let model := gdmStreamModel env in
      whenM (negb (truthy (gdm_metadataEventId model)) || negb (isDefined (gdm_metadata model))
             || bool_decide (gdm_latestMetadataEventId model = Some eventId))
        (_ ← on_view (setMetadata (streamId (self env)) properties eventId);
         emit emitter (streamChannelPropertiesUpdated (streamId (self env))))
  | _ => throwWithCode "Unknown" ERR_UNSPECIFIED
  end.

Section ChannelMetadata.
Context `{EthLib, Codec}.

Definition decryptPayload (payload : EncryptedData) (eventId : string)
    (cleartext : option Cleartext) (encryptionEmitter : bool) : CMM unit :=
  match truthy_cleartext cleartext with
  | Some cleartext =>
      decryptedContent ← liftR (toDecryptedContent kind_channelProperties (ed_version payload) cleartext);
      handleDecryptedContent eventId decryptedContent encryptionEmitter
  | None =>
      this ← gets self;
      emit encryptionEmitter (newEncryptedContent (streamId this) eventId
                                {| ec_kind := kind_channelProperties; ec_content := payload |})
  end.

Definition applySnapshot (encryptedChannelProperties : WrappedEncryptedData)
    (cleartexts : Cleartexts) (encryptionEmitter : bool) : CMM unit :=
  match wed_data encryptedChannelProperties with
  | None => mret tt
  | Some data =>
      let eventId := bin_toHexString (wed_eventHash encryptedChannelProperties) in
      let cleartext := cleartext_at cleartexts eventId in
      this ← gets self;
      _ ← on_view (setLatestMetadataEventId (streamId this) eventId);
      decryptPayload data eventId cleartext encryptionEmitter
  end.

Definition appendEvent (event : ObjId) (cleartext : option Cleartext) (emitter : bool) : CMM unit :=
  '(e, remote) ← remoteOf event;
  match ev_payload (pe_event remote) with
  | P_gdmChannelPayload (GDMP_channelProperties payload) =>
      this ← gets self;
      _ ← on_view (setLatestMetadataEventId (streamId this) (ste_hashStr e));
      decryptPayload payload (ste_hashStr e) cleartext emitter
  | _ => throwWithCode "Unknown" ERR_UNSPECIFIED
  end.

Definition onDecryptedContent (eventId : string) (content : DecryptedContent)
    (stateEmitter : bool) : CMM unit :=
  handleDecryptedContent eventId content stateEmitter.
End ChannelMetadata.
End ChannelMetadata.

Module GDMChannel.
Record GDMChannel := { streamId : string; channelMetadata : ChannelMetadata.ChannelMetadata }.
#[export] Instance eta_GDMChannel : Eta GDMChannel := λ r,
  Build_GDMChannel (streamId r) (channelMetadata r).
Definition new (streamId : string) : GDMChannel :=
  {| streamId := streamId; channelMetadata := ChannelMetadata.new streamId |}.

Abbreviation GdmStreams := (gmap string GdmStreamModel).
Abbreviation GM := (M Emit (Env GdmStreams GDMChannel)).

(** A method of [channelMetadata], which shares the store *)
Definition on_metadata {A} (m : M Emit (Env GdmStreams ChannelMetadata.ChannelMetadata) A) : GM A :=
  zoom (λ env, Build_Env (heap env) (view env) (channelMetadata (self env)))
    (λ t env, Build_Env (heap t) (view t) ((self env) <| channelMetadata := self t |>)) m.

Definition gdmStreamModel (env : Env GdmStreams GDMChannel) : GdmStreamModel :=
  get GdmStream_default (streamId (self env)) (view env).
Definition lastEventCreatedAtEpochMs (env : Env GdmStreams GDMChannel) : Z :=
  gdm_lastEventCreatedAtEpochMs (gdmStreamModel env).

Definition updateLastEvent (event : ParsedEvent) (stateEmitter : bool) : GM unit :=
  env ← getM;
  let createdAtEpochMs := ev_createdAtEpochMs (pe_event event) in
  whenM (lastEventCreatedAtEpochMs env <? createdAtEpochMs)
    (_ ← on_view (gdm_setLastEventCreatedAtEpochMs (streamId (self env)) createdAtEpochMs);
     emit stateEmitter (streamLatestTimestampUpdated (streamId (self env)))).

Section GDMChannel.
Context `{EthLib, Codec}.

Definition applySnapshot (content : GDM_Snapshot) (cleartexts : Cleartexts)
    (encryptionEmitter : bool) : GM unit :=
  match gds_channelProperties content with
  | Some properties =>
      on_metadata (ChannelMetadata.applySnapshot properties cleartexts encryptionEmitter)
  | None => mret tt
  end.

Definition prependEvent (event : ObjId) (cleartext : option Cleartext)
    (encryptionEmitter stateEmitter : bool) : GM unit :=
  '(_, remote) ← remoteOf event;
  match ev_payload (pe_event remote) with
  | P_gdmChannelPayload (GDMP_inception _) => updateLastEvent remote false
  | P_gdmChannelPayload (GDMP_message v) =>
      this ← gets self;
      _ ← decryptEvent (streamId this) kind_channelMessage event v cleartext encryptionEmitter;
      updateLastEvent remote false
  | P_gdmChannelPayload (GDMP_channelProperties _ | GDMP_unset) => mret tt
  | _ => throwWithCode "Unknown" ERR_UNSPECIFIED
  end.

Definition appendEvent (event : ObjId) (cleartext : option Cleartext)
    (encryptionEmitter stateEmitter : bool) : GM unit :=
  '(_, remote) ← remoteOf event;
  match ev_payload (pe_event remote) with
  | P_gdmChannelPayload (GDMP_inception _) => updateLastEvent remote stateEmitter
  | P_gdmChannelPayload (GDMP_message v) =>
      this ← gets self;
      _ ← decryptEvent (streamId this) kind_channelMessage event v cleartext encryptionEmitter;
      updateLastEvent remote stateEmitter
  | P_gdmChannelPayload (GDMP_channelProperties _) =>
      on_metadata (ChannelMetadata.appendEvent event cleartext encryptionEmitter)
  | P_gdmChannelPayload GDMP_unset => mret tt
  | _ => throwWithCode "Unknown" ERR_UNSPECIFIED
  end.

Definition onDecryptedContent (eventId : string) (content : DecryptedContent) (emitter : bool)
    : GM unit :=
  match content with
  | DC_channelProperties _ =>
      on_metadata (ChannelMetadata.onDecryptedContent eventId content emitter)
  | _ => mret tt
  end.

Definition onAppendLocalEvent (event : ObjId) (stateEmitter : bool) : GM unit :=
  e ← deref event;
  this ← gets self;
  _ ← on_view (gdm_setLastEventCreatedAtEpochMs (streamId this) (ste_createdAtEpochMs e));
  emit stateEmitter (streamLatestTimestampUpdated (streamId this)).

#[export] Instance content : AbstractContent GdmStreams GDMChannel := {|
  content_prependEvent := prependEvent;
  content_appendEvent := appendEvent;
  content_onConfirmedEvent := no_confirm;
  content_onDecryptedContent := onDecryptedContent;
  content_onAppendLocalEvent := onAppendLocalEvent |}.
End GDMChannel.
End GDMChannel.
