(* ===== verification/Space.v ===== *)
(** * Space: the content of space streams (sdk/src/streamStateView_Space.ts)

    The space image is decrypted asynchronously. A call of [getSpaceImage] runs
    up to its [await]; the rest runs when the decryption settles, which may be
    after other calls and events. The running decryptions are part of the
    state, and [settle] resumes one of them. Objects of encrypted data are told
    apart by the number they are given when they arrive, since the code
    compares them by reference. *)

From S2P Require Import Prelude JsLib Ids Proto Types TimelineTypes StreamEvents StreamViews Content.

(** The encrypted data of an image, as an object *)
Record ImageData := { im_ref : nat; im_data : EncryptedData }.

(** [Promise<ChunkedMedia | undefined>] returned by [getSpaceImage], or its value *)
Inductive ImagePromise := Running (ref : nat) | Resolved (image : option ChunkedMedia).

Record Space := {
  streamId : string;
  spaceImage : option ChunkedMedia;
  encryptedSpaceImage : option (string * ImageData);
  (** the data and the promise of the decryption are one object *)
  decryptionInProgress : option nat;
  (** decryptions waiting for their [await] *)
  running : list ImageData;
  next_ref : nat;
}.
#[export] Instance eta_Space : Eta Space := λ r,
  Build_Space (streamId r) (spaceImage r) (encryptedSpaceImage r) (decryptionInProgress r)
    (running r) (next_ref r).

Definition new (streamId : string) : Space :=
  {| streamId := streamId; spaceImage := None; encryptedSpaceImage := None;
     decryptionInProgress := None; running := []; next_ref := O |}.

Abbreviation SpaceStreams := (gmap string SpaceStreamModel).
Abbreviation SpM := (M Emit (Env SpaceStreams Space)).

Definition spaceStreamModel (env : Env SpaceStreams Space) : SpaceStreamModel :=
  get SpaceStream_default (streamId (self env)) (view env).
Definition spaceChannelsMetadata (env : Env SpaceStreams Space) : gmap string ParsedChannelProperties :=
  spm_channelsMetadata (spaceStreamModel env).

(** [this.encryptedSpaceImage = { data, eventId }] *)
Definition set_encryptedSpaceImage (eventId : string) (data : EncryptedData) : SpM unit :=
  on_self (λ s, s <| encryptedSpaceImage := Some (eventId, {| im_ref := next_ref s; im_data := data |}) |>
                  <| next_ref ::= S |>).

Section Space.
Context `{EthLib, Codec}.

Definition addSpacePayload_UpdateChannelAutojoin (payload : SP_UpdateChannelAutojoin)
    (stateEmitter : bool) : SpM unit :=
  let channelId := streamIdAsString (SBytes (uca_channelId payload)) in
  this ← gets self;
  _ ← on_view (updateChannelMetadata (streamId this) channelId
                 (λ p, p <| pcp_isAutojoin := uca_autojoin payload |>));
  emit stateEmitter (spaceChannelAutojoinUpdated (streamId this) channelId (uca_autojoin payload)).

Definition addSpacePayload_UpdateChannelHideUserJoinLeaveEvents
    (payload : SP_UpdateChannelHideUserJoinLeaveEvents) (stateEmitter : bool) : SpM unit :=
  let channelId := streamIdAsString (SBytes (uch_channelId payload)) in
  this ← gets self;
  _ ← on_view (updateChannelMetadata (streamId this) channelId
                 (λ p, p <| pcp_hideUserJoinLeaveEvents := uch_hideUserJoinLeaveEvents payload |>));
  emit stateEmitter (spaceChannelHideUserJoinLeaveEventsUpdated (streamId this) channelId
                       (uch_hideUserJoinLeaveEvents payload)).

(** [payload] is a [ChannelMetadata] of the snapshot or a [ChannelUpdate]; the
    method reads their operation, channel id and settings. *)
Definition addSpacePayload_Channel (op : ChannelOp) (channelIdBytes : bytes)
    (settings : option SP_ChannelSettings) (updatedAtEventNum : Z) (stateEmitter : bool)
    : SpM unit :=
  let channelId := streamIdAsString (SBytes channelIdBytes) in
  env ← getM;
  let this := self env in
  match op with
  | CO_CREATED =>
      let isDefault := isDefaultChannelId channelId in
      let isAutojoin := default isDefault (cs_autojoin <$> settings) in
      let hideUserJoinLeaveEvents := default false (cs_hideUserJoinLeaveEvents <$> settings) in
      _ ← on_view (updateChannelMetadata (streamId this) channelId (λ _,
            {| pcp_isDefault := isDefault; pcp_updatedAtEventNum := updatedAtEventNum;
               pcp_isAutojoin := isAutojoin;
               pcp_hideUserJoinLeaveEvents := hideUserJoinLeaveEvents |}));
      emit stateEmitter (spaceChannelCreated (streamId this) channelId)
  | CO_DELETED =>
      let '(deleted, store) := space_delete (streamId this) channelId (view env) in
      _ ← on_view (λ _, store);
      whenM deleted (emit stateEmitter (spaceChannelDeleted (streamId this) channelId))
  | CO_UPDATED =>
      let channel := spaceChannelsMetadata env !! channelId in
      let isDefault := isDefaultChannelId channelId in
      let isAutojoin := match settings, channel with
                        | Some settings, _ => cs_autojoin settings
                        | None, Some channel => pcp_isAutojoin channel
                        | None, None => isDefault
                        end in
      let hideUserJoinLeaveEvents := match settings, channel with
                                     | Some settings, _ => cs_hideUserJoinLeaveEvents settings
                                     | None, Some channel => pcp_hideUserJoinLeaveEvents channel
                                     | None, None => false
                                     end in
      _ ← on_view (updateChannelMetadata (streamId this) channelId (λ _,
            {| pcp_isDefault := isDefault; pcp_updatedAtEventNum := updatedAtEventNum;
               pcp_isAutojoin := isAutojoin;
               pcp_hideUserJoinLeaveEvents := hideUserJoinLeaveEvents |}));
      emit stateEmitter (spaceChannelUpdated (streamId this) channelId updatedAtEventNum)
  | CO_UNSPECIFIED | CO_OTHER _ => throwWithCode "Unknown channel" STREAM_BAD_EVENT
  end.

Definition applySnapshot (content : SP_Snapshot) : SpM unit :=
  _ ← forM (sps_channels content) (λ payload,
        addSpacePayload_Channel (cm_op payload) (cm_channelId payload) (cm_settings payload)
          (cm_updatedAtEventNum payload) false);
  match sps_spaceImage content with
  | Some image =>
      match si_data image with
      | Some data => set_encryptedSpaceImage (bytesToHex (si_eventHash image)) data
      | None => mret tt
      end
  | None => mret tt
  end.

(** Everything older was conveyed in the snapshot. *)
Definition prependEvent (event : ObjId) (cleartext : option Cleartext)
    (encryptionEmitter stateEmitter : bool) : SpM unit :=
  '(_, remote) ← remoteOf event;
  match ev_payload (pe_event remote) with
  | P_spacePayload _ => mret tt
  | _ => throwWithCode "Unknown" ERR_UNSPECIFIED
  end.

Definition appendEvent (event : ObjId) (cleartext : option Cleartext)
    (encryptionEmitter stateEmitter : bool) : SpM unit :=
  '(e, remote) ← remoteOf event;
  match ev_payload (pe_event remote) with
  | P_spacePayload payload =>
      match payload with
      | SP_inception _ => mret tt
      | SP_channel v =>
          addSpacePayload_Channel (cu_op v) (cu_channelId v) (cu_settings v) (ste_eventNum e) stateEmitter
      | SP_updateChannelAutojoin v => addSpacePayload_UpdateChannelAutojoin v stateEmitter
      | SP_updateChannelHideUserJoinLeaveEvents v =>
          addSpacePayload_UpdateChannelHideUserJoinLeaveEvents v stateEmitter
      | SP_spaceImage v =>
          _ ← set_encryptedSpaceImage (ste_hashStr e) v;
          this ← gets self;
          emit stateEmitter (spaceImageUpdated (streamId this))
      | SP_unset => mret tt
      end
  | _ => throwWithCode "Unknown" ERR_UNSPECIFIED
  end.

#[export] Instance content : AbstractContent SpaceStreams Space := {|
  content_prependEvent := prependEvent;
  content_appendEvent := appendEvent;
  content_onConfirmedEvent := no_confirm;
  content_onDecryptedContent := no_decrypt;
  content_onAppendLocalEvent := no_local |}.

(** ** The space image *)

(** [finally { if (encryptedData === this.decryptionInProgress?.encryptedData) ... }] *)
Definition clear_progress (ref : nat) (s : Space) : Space :=
  if bool_decide (decryptionInProgress s = Some ref) then s <| decryptionInProgress := None |> else s.

(** [decryptSpaceImage] up to its [await]: an address that cannot be computed
    ends it at once, through the [finally]. *)
Definition decryptSpaceImage (encryptedData : ImageData) (s : Space) : Space :=
  match contractAddressFromSpaceId (streamId s) with
  | Ok spaceAddress => s <| running ::= λ l, l ++ [encryptedData] |>
  | Throw _ => clear_progress (im_ref encryptedData) s
  end.

Definition getSpaceImage (s : Space) : ImagePromise * Space :=
  match encryptedSpaceImage s with
  | Some (_, encryptedData) =>
      let s := decryptSpaceImage encryptedData (s <| encryptedSpaceImage := None |>) in
      (Running (im_ref encryptedData), s <| decryptionInProgress := Some (im_ref encryptedData) |>)
  | None =>
      match decryptionInProgress s with
      | Some ref => (Running ref, s)
      | None => (Resolved (spaceImage s), s)
      end
  end.

(** The rest of [decryptSpaceImage]: [outcome] is the decrypted and parsed
    image, [None] when decryption or parsing throws. *)
Definition settle (encryptedData : ImageData) (outcome : option ChunkedMedia) (s : Space) : Space :=
  let s := s <| running ::= List.filter (λ r, negb (im_ref r =? im_ref encryptedData)%nat) |> in
  let s := match outcome with
           | Some decryptedImage =>
               if bool_decide (decryptionInProgress s = Some (im_ref encryptedData))
               then s <| spaceImage := Some decryptedImage |> else s
           | None => s
           end in
  clear_progress (im_ref encryptedData) s.
End Space.
