(* ===== verification/UserStreams.v ===== *)
(** * UserStreams: the contents of the streams of a user
    (sdk/src/streamStateView_User.ts, streamStateView_UserInbox.ts,
    streamStateView_UserSettings.ts, streamStateView_UserMetadata.ts) and of
    media streams (streamStateView_Media.ts) *)

From S2P Require Import Prelude JsLib Ids Proto Types TimelineTypes StreamEvents StreamViews Content.

Module User.
Record User := { streamId : string }.
Definition new (streamId : string) : User := {| streamId := streamId |}.

Abbreviation Store := (gmap string UserStreamModel).
Abbreviation UM := (M Emit (Env Store User)).

Definition userStreamModel (env : Env Store User) : UserStreamModel :=
  get UserStream_default (streamId (self env)) (view env).
Definition streamMemberships (env : Env Store User) : gmap string UP_UserMembership :=
  uvm_streamMemberships (userStreamModel env).

Section User.
Context `{EthLib, Codec}.

Definition addUserPayload_userMembership (payload : UP_UserMembership) (emitter : bool) : UM unit :=
  let streamId' := streamIdFromBytes (um_streamId payload) in
  env ← getM;
  let was op := bool_decide (um_op <$> streamMemberships env !! streamId' = Some op) in
  let wasInvited := was SO_INVITE in
  let wasJoined := was SO_JOIN in
  _ ← on_view (setMembership (streamId (self env)) streamId' payload);
  match um_op payload with
  | SO_INVITE =>
      _ ← emit emitter (userInvitedToStream streamId');
      emit emitter (userStreamMembershipChanged streamId' payload)
  | SO_JOIN =>
      _ ← emit emitter (userJoinedStream streamId');
      emit emitter (userStreamMembershipChanged streamId' payload)
  | SO_LEAVE =>
      whenM (wasInvited || wasJoined)
        (_ ← emit emitter (userLeftStream streamId');
         emit emitter (userStreamMembershipChanged streamId' payload))
  | SO_UNSPECIFIED | SO_OTHER _ => mret tt
  end.

Definition applySnapshot (content : UP_Snapshot) (encryptionEmitter : bool) : UM unit :=
  _ ← forM (ups_memberships content) (λ payload,
        addUserPayload_userMembership payload encryptionEmitter);
  this ← gets self;
  on_view (setTips (streamId this) (ups_tipsSent content) (ups_tipsReceived content)
             (ups_tipsSentCount content) (ups_tipsReceivedCount content)).

Definition prependEvent (event : ObjId) (cleartext : option Cleartext)
    (encryptionEmitter stateEmitter : bool) : UM unit :=
  '(_, remote) ← remoteOf event;
  match ev_payload (pe_event remote) with
  | P_userPayload payload =>
      match payload with
      | UP_blockchainTransaction v =>
          match bt_content v with
          | BT_tokenTransfer transfer =>
              this ← gets self;
              on_view (prependTokenTransfer (streamId this) transfer)
          | _ => mret tt
          end
      | UP_inception _ | UP_userMembership _ | UP_userMembershipAction _
      | UP_receivedBlockchainTransaction _ | UP_unset => mret tt
      end
  | _ => throwWithCode "Unknown" ERR_UNSPECIFIED
  end.

Definition appendEvent (event : ObjId) (cleartext : option Cleartext)
    (encryptionEmitter stateEmitter : bool) : UM unit :=
  '(_, remote) ← remoteOf event;
  match ev_payload (pe_event remote) with
  | P_userPayload payload =>
      this ← gets self;
      match payload with
      | UP_inception _ | UP_userMembershipAction _ | UP_unset => mret tt
      | UP_userMembership v => addUserPayload_userMembership v stateEmitter
      | UP_blockchainTransaction v =>
          match bt_content v with
          | BT_tip tip =>
              match tip_event tip with
              | None => mret tt
              | Some event =>
                  currency ← liftR (getAddress (bin_toHexString (te_currency event)));
                  _ ← on_view (appendTipSent (streamId this) currency (te_amount event));
                  emit stateEmitter (userTipSent (streamId this) currency (te_amount event))
              end
          | BT_tokenTransfer transfer => on_view (appendTokenTransfer (streamId this) transfer)
          | BT_spaceReview _ | BT_unset => mret tt
          end
      | UP_receivedBlockchainTransaction v =>
          match bt_content <$> rbt_transaction v with
          | Some (BT_tip tip) =>
              match tip_event tip with
              | None => mret tt
              | Some event =>
                  currency ← liftR (getAddress (bin_toHexString (te_currency event)));
                  _ ← on_view (appendTipReceived (streamId this) currency (te_amount event));
                  emit stateEmitter (userTipReceived (streamId this) currency (te_amount event))
              end
          | _ => mret tt
          end
      end
  | _ => throwWithCode "Unknown" ERR_UNSPECIFIED
  end.

#[export] Instance content : AbstractContent Store User := {|
  content_prependEvent := prependEvent;
  content_appendEvent := appendEvent;
  content_onConfirmedEvent := no_confirm;
  content_onDecryptedContent := no_decrypt;
  content_onAppendLocalEvent := no_local |}.
End User.

Definition getMembership (streamId : string) (env : Env Store User) : option UP_UserMembership :=
  streamMemberships env !! streamId.
Definition isMember (streamId : string) (membership : MembershipOp) (env : Env Store User) : bool :=
  bool_decide (um_op <$> getMembership streamId env = Some membership).
Definition isJoined (streamId : string) (env : Env Store User) : bool :=
  isMember streamId SO_JOIN env.
End User.

Module UserInbox.
Record UserInbox := { streamId : string; deviceSummary : gmap string DeviceSummary }.
#[export] Instance eta_UserInbox : Eta UserInbox := λ r, Build_UserInbox (streamId r) (deviceSummary r).
Definition new (streamId : string) : UserInbox := {| streamId := streamId; deviceSummary := ∅ |}.

Abbreviation IM := (M Emit (Env unit UserInbox)).

Definition applySnapshot (content : UIP_Snapshot) : IM unit :=
  on_self (λ s, s <| deviceSummary ::= λ prev, uis_deviceSummary content ∪ prev |>).

Definition addGroupSessions (creatorUserId : string) (content : GroupEncryptionSessions)
    (encryptionEmitter : bool) : IM unit :=
  emit encryptionEmitter (newGroupSessions content creatorUserId).

(** The summary is an object, updated before it is emitted. *)
Definition updateDeviceSummary (content : UIP_Ack) (stateEmitter : bool) : IM unit :=
  this ← gets self;
  summary ← match deviceSummary this !! ack_deviceKey content with
            | Some summary =>
                if ds_upperBound summary <=? ack_miniblockNum content
                then _ ← on_self (λ s, s <| deviceSummary ::= delete (ack_deviceKey content) |>);
                     mret (Some summary)
                else
                  let summary := {| ds_lowerBound := ack_miniblockNum content + 1;
                                    ds_upperBound := ds_upperBound summary |} in
                  _ ← on_self (λ s, s <| deviceSummary ::= <[ack_deviceKey content := summary]> |>);
                  mret (Some summary)
            | None => mret None
            end;
  emit stateEmitter (userInboxDeviceSummaryUpdated (streamId this) (ack_deviceKey content) summary).

Definition prependEvent (event : ObjId) (cleartext : option Cleartext)
    (encryptionEmitter stateEmitter : bool) : IM unit :=
  '(e, remote) ← remoteOf event;
  match ev_payload (pe_event remote) with
  | P_userInboxPayload payload =>
      match payload with
      | UIP_groupEncryptionSessions v =>
          addGroupSessions (ste_creatorUserId e) v encryptionEmitter
      | UIP_inception _ | UIP_ack _ | UIP_unset => mret tt
      end
  | _ => throwWithCode "Unknown" ERR_UNSPECIFIED
  end.

Definition appendEvent (event : ObjId) (cleartext : option Cleartext)
    (encryptionEmitter stateEmitter : bool) : IM unit :=
  '(e, remote) ← remoteOf event;
  match ev_payload (pe_event remote) with
  | P_userInboxPayload payload =>
      match payload with
      | UIP_groupEncryptionSessions v =>
          addGroupSessions (ste_creatorUserId e) v encryptionEmitter
      | UIP_ack v => updateDeviceSummary v stateEmitter
      | UIP_inception _ | UIP_unset => mret tt
      end
  | _ => throwWithCode "Unknown" ERR_UNSPECIFIED
  end.

#[export] Instance content : AbstractContent unit UserInbox := {|
  content_prependEvent := prependEvent;
  content_appendEvent := appendEvent;
  content_onConfirmedEvent := no_confirm;
  content_onDecryptedContent := no_decrypt;
  content_onAppendLocalEvent := no_local |}.
End UserInbox.

Module UserSettings.
Record UserSettings := { streamId : string }.
Definition new (streamId : string) : UserSettings := {| streamId := streamId |}.

Abbreviation Store := (gmap string UserSettingsStreamModel).
Abbreviation SeM := (M Emit (Env Store UserSettings)).

Definition userSettingsStreamModel (env : Env Store UserSettings) : UserSettingsStreamModel :=
  get UserSettings_default (streamId (self env)) (view env).
Definition userBlocks (env : Env Store UserSettings) : gmap string UserBlocks :=
  usm_userBlocks (userSettingsStreamModel env).
Definition fullyReadMarkers (env : Env Store UserSettings) : gmap string (gmap string FullyReadMarker) :=
  usm_fullyReadMarkers (userSettingsStreamModel env).

Section UserSettings.
Context `{EthLib, Codec}.

Definition fullyReadMarkerUpdate (payload : USP_FullyReadMarkers) (emitter : bool) : SeM unit :=
  match frm_content payload with
  | None => mret tt
  | Some data =>
      let streamId' := streamIdFromBytes (frm_streamId payload) in
      markers ← liftR (fullyReadMarkers_fromJsonString data);
      this ← gets self;
      _ ← on_view (setFullyReadMarkers (streamId this) streamId' markers);
      emit emitter (fullyReadMarkersUpdated streamId' markers)
  end.

Definition userBlockUpdate (payload : USP_UserBlock) (emitter : bool) : SeM unit :=
  userId ← liftR (userIdFromAddress (usb_userId payload));
  let userBlock := {| blk_isBlocked := usb_isBlocked payload; blk_eventNum := usb_eventNum payload |} in
  this ← gets self;
  _ ← on_view (updateUserBlock (streamId this) userId userBlock);
  emit emitter (userBlockUpdated payload).

Definition applySnapshot (content : USP_Snapshot) : SeM unit :=
  _ ← forM (uss_fullyReadMarkers content) (λ payload, fullyReadMarkerUpdate payload false);
  forM (uss_userBlocksList content) (λ userBlocks,
    userId ← liftR (userIdFromAddress (ub_userId userBlocks));
    this ← gets self;
    on_view (setUserBlocks (streamId this) userId userBlocks)).

Definition prependEvent (event : ObjId) (cleartext : option Cleartext)
    (encryptionEmitter stateEmitter : bool) : SeM unit :=
  '(_, remote) ← remoteOf event;
  match ev_payload (pe_event remote) with
  | P_userSettingsPayload _ => mret tt
  | _ => throwWithCode "Unknown" ERR_UNSPECIFIED
  end.

Definition appendEvent (event : ObjId) (cleartext : option Cleartext)
    (encryptionEmitter stateEmitter : bool) : SeM unit :=
  '(_, remote) ← remoteOf event;
  match ev_payload (pe_event remote) with
  | P_userSettingsPayload payload =>
      match payload with
      | USP_fullyReadMarkers v => fullyReadMarkerUpdate v stateEmitter
      | USP_userBlock v => userBlockUpdate v stateEmitter
      | USP_inception _ | USP_unset => mret tt
      end
  | _ => throwWithCode "Unknown" ERR_UNSPECIFIED
  end.

#[export] Instance content : AbstractContent Store UserSettings := {|
  content_prependEvent := prependEvent;
  content_appendEvent := appendEvent;
  content_onConfirmedEvent := no_confirm;
  content_onDecryptedContent := no_decrypt;
  content_onAppendLocalEvent := no_local |}.
End UserSettings.

(** [this.userBlocks[userId]?.blocks ?? []] *)
Definition blocks (userId : string) (env : Env Store UserSettings) : list Block :=
  default [] (ub_blocks <$> userBlocks env !! userId).

Definition getLastBlock (userId : string) (env : Env Store UserSettings) : option Block :=
  last (blocks userId env).

Definition isUserBlocked (userId : string) (env : Env Store UserSettings) : bool :=
  match getLastBlock userId env with None => false | Some latestBlock => blk_isBlocked latestBlock end.

Definition isUserBlockedAt (userId : string) (eventNum : Z) (env : Env Store UserSettings) : bool :=
  foldl (λ isBlocked block, if blk_eventNum block <=? eventNum then blk_isBlocked block else isBlocked)
    false (blocks userId env).
End UserSettings.

Module UserMetadata.
(** Profile images and bios are decrypted asynchronously, like the image of a
    space; [running] holds the decryptions waiting for their [await]. *)
Inductive Pending := PendingImage (data : EncryptedData) | PendingBio (data : EncryptedData).

Record UserMetadata := {
  streamId : string;
  streamCreatorId : string;
  profileImage : option ChunkedMedia;
  encryptedProfileImage : option EncryptedData;
  bio : option UserBio;
  encryptedBio : option EncryptedData;
  (** [decryptionInProgress.image], [decryptionInProgress.bio]: is there a promise *)
  imageInProgress : bool;
  bioInProgress : bool;
  running : list Pending;
  deviceKeys : list UserDevice;
}.
#[export] Instance eta_UserMetadata : Eta UserMetadata := λ r,
  Build_UserMetadata (streamId r) (streamCreatorId r) (profileImage r) (encryptedProfileImage r)
    (bio r) (encryptedBio r) (imageInProgress r) (bioInProgress r) (running r) (deviceKeys r).

Abbreviation MeM := (M Emit (Env unit UserMetadata)).

Definition addUserDeviceKey (value : EncryptionDevice) (encryptionEmitter stateEmitter : bool)
    : MeM unit :=
  let device := {| ud_deviceKey := dev_deviceKey value; ud_fallbackKey := dev_fallbackKey value |} in
  this ← gets self;
  _ ← match findIndex (λ x, String.eqb (ud_deviceKey x) (ud_deviceKey device)) (deviceKeys this) with
      | Some existing => on_self (λ s, s <| deviceKeys ::= splice1 existing |>)
      | None => mret tt
      end;
  _ ← on_self (λ s, s <| deviceKeys ::= λ l, l ++ [device] |>);
  this ← gets self;
  _ ← emit encryptionEmitter (userDeviceKeyMessage (streamId this) (streamCreatorId this) device);
  emit stateEmitter (userDeviceKeysUpdated (streamId this) (deviceKeys this)).

Definition addProfileImage (data : EncryptedData) (stateEmitter : bool) : MeM unit :=
  _ ← on_self (λ s, s <| encryptedProfileImage := Some data |>);
  this ← gets self;
  emit stateEmitter (userProfileImageUpdated (streamId this)).

Definition addBio (data : EncryptedData) (stateEmitter : bool) : MeM unit :=
  _ ← on_self (λ s, s <| encryptedBio := Some data |>);
  this ← gets self;
  emit stateEmitter (userBioUpdated (streamId this)).

Definition applySnapshot (content : UMP_Snapshot) (encryptionEmitter : bool) : MeM unit :=
  _ ← forM (umps_encryptionDevices content) (λ value, addUserDeviceKey value encryptionEmitter false);
  _ ← match w ← umps_profileImage content; wed_data w with
      | Some data => addProfileImage data false
      | None => mret tt
      end;
  match w ← umps_bio content; wed_data w with
  | Some data => addBio data false
  | None => mret tt
  end.

Definition prependEvent (event : ObjId) (cleartext : option Cleartext)
    (encryptionEmitter stateEmitter : bool) : MeM unit := mret tt.

Definition appendEvent (event : ObjId) (cleartext : option Cleartext)
    (encryptionEmitter stateEmitter : bool) : MeM unit :=
  '(_, remote) ← remoteOf event;
  match ev_payload (pe_event remote) with
  | P_userMetadataPayload payload =>
      match payload with
      | UMP_encryptionDevice v => addUserDeviceKey v encryptionEmitter stateEmitter
      | UMP_profileImage v => addProfileImage v stateEmitter
      | UMP_bio v => addBio v stateEmitter
      | UMP_inception _ | UMP_unset => mret tt
      end
  | _ => throwWithCode "Unknown" ERR_UNSPECIFIED
  end.

#[export] Instance content : AbstractContent unit UserMetadata := {|
  content_prependEvent := prependEvent;
  content_appendEvent := appendEvent;
  content_onConfirmedEvent := no_confirm;
  content_onDecryptedContent := no_decrypt;
  content_onAppendLocalEvent := no_local |}.

Section UserMetadata.
Context `{EthLib}.

Definition new (streamId : string) : Res UserMetadata :=
  streamCreatorId ← getUserIdFromStreamId streamId;
  Ok {| streamId := streamId; streamCreatorId := streamCreatorId; profileImage := None;
        encryptedProfileImage := None; bio := None; encryptedBio := None;
        imageInProgress := false; bioInProgress := false; running := []; deviceKeys := [] |}.
End UserMetadata.

(** [getProfileImage] up to the [await] of its decryption: [true] when it
    returns a promise. The constructor has shown that the user id of the stream
    can be computed. *)
Definition getProfileImage (s : UserMetadata) : bool * UserMetadata :=
  match encryptedProfileImage s with
  | Some encryptedData =>
      (true, s <| encryptedProfileImage := None |>
               <| running ::= λ l, l ++ [PendingImage encryptedData] |>
               <| imageInProgress := true |>)
  | None => (imageInProgress s, s)
  end.

Definition getBio (s : UserMetadata) : bool * UserMetadata :=
  match encryptedBio s with
  | Some encryptedData =>
      (true, s <| encryptedBio := None |>
               <| running ::= λ l, l ++ [PendingBio encryptedData] |>
               <| bioInProgress := true |>)
  | None => (bioInProgress s, s)
  end.

(** The rest of [decrypt] for the [i]-th running decryption of an image: what
    was decrypted is stored, and [cleanup] runs in any case. *)
Definition settleImage (i : nat) (outcome : option ChunkedMedia) (s : UserMetadata) : UserMetadata :=
  let s := s <| running ::= splice1 i |> in
  let s := match outcome with Some image => s <| profileImage := Some image |> | None => s end in
  s <| imageInProgress := false |>.

Definition settleBio (i : nat) (outcome : option UserBio) (s : UserMetadata) : UserMetadata :=
  let s := s <| running ::= splice1 i |> in
  let s := match outcome with Some b => s <| bio := Some b |> | None => s end in
  s <| bioInProgress := false |>.
End UserMetadata.

Module Media.
Record MediaInfo_ := {
  spaceId : string;
  channelId : string;
  userId : string;
  chunkCount : Z;
  (** arrays with holes *)
  chunks : list (option bytes);
  perChunkEncryption : bool;
  perChunkIVs : list (option bytes);
}.
#[export] Instance eta_MediaInfo_ : Eta MediaInfo_ := λ r,
  Build_MediaInfo_ (spaceId r) (channelId r) (userId r) (chunkCount r) (chunks r)
    (perChunkEncryption r) (perChunkIVs r).
Record Media := { streamId : string; info : option MediaInfo_ }.
#[export] Instance eta_Media : Eta Media := λ r, Build_Media (streamId r) (info r).
Definition new (streamId : string) : Media := {| streamId := streamId; info := None |}.

Abbreviation MdM := (M Emit (Env unit Media)).

Section Media.
Context `{EthLib}.

Definition applySnapshot (content : MDP_Snapshot) : MdM unit :=
  match mds_inception content with
  | Some inception =>
      if (mdi_chunkCount inception =? 0)
         || (negb (isDefined (mdi_channelId inception)) && negb (isDefined (mdi_spaceId inception))
             && negb (isDefined (mdi_userId inception)))
      then throwM (PlainError "invalid media snapshot")
      else
        userId ← match mdi_userId inception with
                 | Some userId => liftR (userIdFromAddress userId)
                 | None => mret ""
                 end;
        _ ← (if mdi_chunkCount inception <? 0 then throwM (RangeError "Invalid array length")
             else mret tt);
        let n := Z.to_nat (mdi_chunkCount inception) in
        on_self (λ s, s <| info := Some {|
          spaceId := default "" (streamIdFromBytes <$> mdi_spaceId inception);
          channelId := default "" (streamIdFromBytes <$> mdi_channelId inception);
          userId := userId;
          chunkCount := mdi_chunkCount inception;
          chunks := replicate n None;
          perChunkEncryption := default false (mdi_perChunkEncryption inception);
          perChunkIVs := replicate n None |} |>)
  | None => throwM (PlainError "invalid media snapshot")
  end.
End Media.

Definition appendEvent (event : ObjId) (cleartext : option Cleartext)
    (encryptionEmitter stateEmitter : bool) : MdM unit :=
  '(_, remote) ← remoteOf event;
  match ev_payload (pe_event remote) with
  | P_mediaPayload payload =>
      this ← gets self;
      match info this with
      | None => mret tt
      | Some inf =>
          match payload with
          | MDP_chunk v =>
              if (ch_chunkIndex v <? 0) || (chunkCount inf <=? ch_chunkIndex v)
              then throwM (PlainError "chunkIndex out of bounds")
              else
                let i := Z.to_nat (ch_chunkIndex v) in
                let inf := inf <| chunks ::= <[i := Some (ch_data v)]> |> in
                let inf := match ch_iv v with
                           | Some iv => inf <| perChunkIVs ::= <[i := Some iv]> |>
                           | None => inf
                           end in
                on_self (λ s, s <| info := Some inf |>)
          | MDP_inception _ | MDP_unset => mret tt
          end
      end
  | _ => throwWithCode "Unknown" ERR_UNSPECIFIED
  end.

(** append and prepend are identical for media content *)
Definition prependEvent (event : ObjId) (cleartext : option Cleartext)
    (encryptionEmitter stateEmitter : bool) : MdM unit :=
  appendEvent event cleartext encryptionEmitter stateEmitter.

#[export] Instance content : AbstractContent unit Media := {|
  content_prependEvent := prependEvent;
  content_appendEvent := appendEvent;
  content_onConfirmedEvent := no_confirm;
  content_onDecryptedContent := no_decrypt;
  content_onAppendLocalEvent := no_local |}.
End Media.
