(* ===== verification/Migrations.v ===== *)
(** * Migrations: old snapshots (sdk/src/migrations)

    The migrations change the snapshot object in place; here they map it. *)

From S2P Require Import Prelude JsLib Ids Utils Proto.

#[export] Instance eta_MP_KeySolicitation : Eta MP_KeySolicitation := λ r,
  Build_MP_KeySolicitation (ks_deviceKey r) (ks_fallbackKey r) (ks_isNewDevice r) (ks_sessionIds r).
#[export] Instance eta_MP_Snapshot_Member : Eta MP_Snapshot_Member := λ r,
  Build_MP_Snapshot_Member (sm_userAddress r) (sm_miniblockNum r) (sm_eventNum r)
    (sm_solicitations r) (sm_username r) (sm_displayName r) (sm_ensAddress r) (sm_nft r)
    (sm_tipsSent r) (sm_tipsReceived r) (sm_tipsSentCount r) (sm_tipsReceivedCount r).
#[export] Instance eta_MP_Snapshot : Eta MP_Snapshot := λ r,
  Build_MP_Snapshot_ StreamEvent (ms_joined r) (ms_pins r) (ms_encryptionAlgorithm r) (ms_tips r)
    (ms_tipsCount r).
#[export] Instance eta_Snapshot : Eta Snapshot := λ r,
  Build_Snapshot_ (sn_members r) (sn_snapshotVersion r) (sn_content r).
#[export] Instance eta_SP_Snapshot : Eta SP_Snapshot := λ r,
  Build_SP_Snapshot (sps_inception r) (sps_channels r) (sps_spaceImage r).
#[export] Instance eta_SP_ChannelMetadata : Eta SP_ChannelMetadata := λ r,
  Build_SP_ChannelMetadata (cm_op r) (cm_channelId r) (cm_originEvent r) (cm_updatedAtEventNum r)
    (cm_settings r).
#[export] Instance eta_UP_Snapshot : Eta UP_Snapshot := λ r,
  Build_UP_Snapshot (ups_inception r) (ups_memberships r) (ups_tipsSent r) (ups_tipsReceived r)
    (ups_tipsSentCount r) (ups_tipsReceivedCount r).
#[export] Instance eta_USP_Snapshot : Eta USP_Snapshot := λ r,
  Build_USP_Snapshot (uss_inception r) (uss_fullyReadMarkers r) (uss_userBlocksList r).

Definition snapshotMigration0000 (snapshot : Snapshot) : Snapshot := snapshot.

(** ** 0001: duplicates *)

(** The loop of [compactFunc], for [n] more elements from index [i] on: the
    array is compacted in place, [j] elements being kept so far. *)
Fixpoint compactFunc_loop {T} (keyFn : T → bytes) (n i j : nat) (elements : list T) : list T * nat :=
  match n with
  | O => (elements, j)
  | S n =>
      match elements !! i, elements !! (i - 1)%nat with
      | Some e2, Some e1 =>
          if bool_decide (keyFn e2 = keyFn e1) then compactFunc_loop keyFn n (S i) j elements
          else compactFunc_loop keyFn n (S i) (S j) (<[j := e2]> elements)
      | _, _ => (elements, j)
      end
  end.

Definition compactFunc {T} (elements : list T) (keyFn : T → bytes) : list T :=
  if (length elements =? 0)%nat then elements
  else let '(elements, j) := compactFunc_loop keyFn (length elements - 1) 1 1 elements in
       take j elements.

Definition snapshotMigration0001 (snapshot : Snapshot) : Snapshot :=
  let snapshot := snapshot <| sn_members ::=
    fmap (λ members, members <| ms_joined ::= λ l, compactFunc l sm_userAddress |>) |> in
  snapshot <| sn_content ::= λ c,
    match c with
    | SC_spaceContent v => SC_spaceContent (v <| sps_channels ::= λ l, compactFunc l cm_channelId |>)
    | SC_userContent v => SC_userContent (v <| ups_memberships ::= λ l, compactFunc l um_streamId |>)
    | SC_userSettingsContent v =>
        SC_userSettingsContent (v <| uss_fullyReadMarkers ::= λ l, compactFunc l frm_streamId |>)
    | c => c
    end |>.

(** ** 0002: channel settings *)

Section Migrations.
Context `{EthLib}.

Definition migrateChannel (c : SP_ChannelMetadata) : SP_ChannelMetadata :=
  let settings := default {| cs_autojoin := false; cs_hideUserJoinLeaveEvents := false |}
                    (cm_settings c) in
  c <| cm_settings := Some
         (if isDefaultChannelId (streamIdFromBytes (cm_channelId c))
          then {| cs_autojoin := true;
                  cs_hideUserJoinLeaveEvents := cs_hideUserJoinLeaveEvents settings |}
          else settings) |>.

Definition snapshotMigration0002 (snapshot : Snapshot) : Snapshot :=
  snapshot <| sn_content ::= λ c,
    match c with
    | SC_spaceContent v => SC_spaceContent (v <| sps_channels ::= fmap migrateChannel |>)
    | c => c
    end |>.

(** ** 0003: tips *)

Definition snapshotMigration0003 (snapshot : Snapshot) : Snapshot :=
  snapshot <| sn_content ::= λ c,
    match c with
    | SC_userContent v =>
        SC_userContent (v <| ups_tipsSent := ∅ |> <| ups_tipsReceived := ∅ |>
                          <| ups_tipsSentCount := ∅ |> <| ups_tipsReceivedCount := ∅ |>)
    | c => c
    end |>.

(** ** 0004: lost sessions *)

(** How many members ask for each session id *)
Definition countSessionIds (members : list MP_Snapshot_Member) : gmap string Z :=
  foldl (λ sessionIdCounts member,
    (foldl (λ '(processedIds, sessionIdCounts) sessionId,
      if bool_decide (sessionId ∈ processedIds) then (processedIds, sessionIdCounts)
      else ({[sessionId]} ∪ processedIds,
            <[sessionId := default 0 (sessionIdCounts !! sessionId) + 1]> sessionIdCounts))
     ((∅ : gset string), sessionIdCounts)
     (sm_solicitations member ≫= ks_sessionIds)).2) ∅ members.

(** [count > Math.max(memberCount / 4, 2)] *)
Definition aboveThreshold (memberCount count : Z) : bool :=
  (memberCount <? 4 * count) && (2 <? count).

Definition lostIds (members : list MP_Snapshot_Member) : list string :=
  sort_strings (filter (λ id, aboveThreshold (Z.of_nat (length members))
                                (default 0 (countSessionIds members !! id)) = true)
                  (map_to_list (countSessionIds members)).*1).

(** A name encrypted with a lost session *)
Definition isLostName (lostSessionIdsSet : gset string) (name : option WrappedEncryptedData) : bool :=
  match w ← name; wed_data w with
  | None => false
  | Some data =>
      (truthy_str (ed_sessionId data) && bool_decide (ed_sessionId data ∈ lostSessionIdsSet))
      || ((0 <? length (ed_sessionIdBytes data))%nat
          && bool_decide (bin_toHexString (ed_sessionIdBytes data) ∈ lostSessionIdsSet))
  end.

Definition dropLost (lostSessionIds : list string) (member : MP_Snapshot_Member)
    : MP_Snapshot_Member :=
  let lostSessionIdsSet : gset string := list_to_set lostSessionIds in
  member
    <| sm_solicitations ::= fmap (λ solicitation,
         solicitation <| ks_sessionIds ::= λ ids, removeCommon ids lostSessionIds |>) |>
    <| sm_displayName := if isLostName lostSessionIdsSet (sm_displayName member) then None
                         else sm_displayName member |>
    <| sm_username := if isLostName lostSessionIdsSet (sm_username member) then None
                      else sm_username member |>.

Definition snapshotMigration0004 (snapshot : Snapshot) (force : bool) : Snapshot :=
  match sn_members snapshot with
  | None => snapshot
  | Some m =>
      let members := ms_joined m in
      if (length members =? 0)%nat || ((length members <? 500)%nat && negb force) then snapshot
      else
        let lostSessionIds := lostIds members in
        if (length lostSessionIds =? 0)%nat then snapshot
        else snapshot <| sn_members := Some (m <| ms_joined := dropLost lostSessionIds <$> members |>) |>
  end.

(** ** migrateSnapshot *)

Definition SNAPSHOT_MIGRATIONS : list (Snapshot → Snapshot) :=
  [snapshotMigration0000; snapshotMigration0001; snapshotMigration0002; snapshotMigration0003;
   λ snapshot, snapshotMigration0004 snapshot false].

(** A negative version has no migration to start with. *)
Definition migrateSnapshot (snapshot : Snapshot) : Res Snapshot :=
  let currentVersion := Z.of_nat (length SNAPSHOT_MIGRATIONS) in
  if currentVersion <=? sn_snapshotVersion snapshot then Ok snapshot
  else if sn_snapshotVersion snapshot <? 0
  then Throw (TypeError "SNAPSHOT_MIGRATIONS[i] is not a function")
  else
    let result := foldl (λ result migration, migration result) snapshot
                    (drop (Z.to_nat (sn_snapshotVersion snapshot)) SNAPSHOT_MIGRATIONS) in
    Ok (result <| sn_snapshotVersion := currentVersion |>).
End Migrations.
