(* ===== verification/MigrationsFacts.v ===== *)
(** * MigrationsFacts: what the migrations of a snapshot do

    Duplicates are dropped exactly, lost sessions are dropped exactly, and
    migrating is total on the versions there are. *)

From Stdlib Require Import Strings.String Strings.Byte.
From S2P Require Import Prelude JsLib JsMap Ids IdsFacts Utils Proto Types Fixtures Migrations.

(** ** Duplicates *)

(** The order of bytes, in which snapshots are sorted *)
Definition bytes_le (a b : bytes) : Prop :=
  String.le (string_of_list_byte a) (string_of_list_byte b).
#[export] Instance bytes_le_dec a b : Decision (bytes_le a b).
Proof. unfold bytes_le. apply _. Defined.
#[export] Instance bytes_le_antisymm : AntiSymm (=) bytes_le.
Proof.
  intros a b Hab Hba. rewrite <- (list_byte_of_string_of_list_byte a), <- (list_byte_of_string_of_list_byte b).
  f_equal. by apply (anti_symm String.le).
Qed.

Section Compact.
Context {T : Type} (keyFn : T → bytes).

(** The elements after [prev] whose key is not the one before *)
Fixpoint changes (prev : bytes) (l : list T) : list T :=
  match l with
  | [] => []
  | x :: l => if bool_decide (keyFn x = prev) then changes prev l else x :: changes (keyFn x) l
  end.

(** At index [i], [j <= i] elements are kept and the last element read is still
    in its place. *)
Lemma compact_loop n l : ∀ i j x,
  (j <= S i)%nat → length l = (n + S i)%nat → l !! i = Some x →
  let '(l', j') := compactFunc_loop keyFn n (S i) j l in
  take j' l' = take j l ++ changes (keyFn x) (drop (S i) l).
Proof.
  revert l. induction n as [|n IH]; intros l i j x Hj Hl Hx.
  { cbn. by rewrite drop_ge, app_nil_r by lia. }
  destruct (lookup_lt_is_Some_2 l (S i)) as [y Hy]; [lia|].
  cbn [compactFunc_loop]. replace (S i - 1)%nat with i by lia. rewrite Hy, Hx.
  rewrite (drop_S l y (S i) Hy). cbn [changes]. case_bool_decide as Hk.
  - specialize (IH l (S i) j y ltac:(lia) ltac:(lia) Hy). by rewrite Hk in IH.
  - specialize (IH (<[j:=y]> l) (S i) (S j) y ltac:(lia)). rewrite length_insert in IH.
    specialize (IH ltac:(lia)). destruct (decide (j = S i)) as [->|Hne].
    + rewrite (list_insert_id l) in * by done. specialize (IH Hy).
      destruct (compactFunc_loop _ _ _ _ _). by rewrite IH, (take_S_r l (S i) y), <- app_assoc.
    + rewrite list_lookup_insert_ne in IH by lia. specialize (IH Hy).
      destruct (compactFunc_loop _ _ _ _ _). rewrite IH, (take_S_r _ j y), take_insert_ge by
        (try apply list_lookup_insert_eq; lia).
      by rewrite drop_insert_lt, <- app_assoc by lia.
Qed.

Lemma compactFunc_changes x l : compactFunc (x :: l) keyFn = x :: changes (keyFn x) l.
Proof.
  unfold compactFunc. simpl length. simpl Nat.eqb. cbv iota.
  replace (S (length l) - 1)%nat with (length l) by lia.
  pose proof (compact_loop (length l) (x :: l) 0 1 x) as H. simpl in H.
  rewrite Nat.add_1_r in H. specialize (H ltac:(lia) eq_refl eq_refl).
  by destruct (compactFunc_loop _ _ _ _ _).
Qed.

Lemma changes_sublist prev l : changes prev l `sublist_of` l.
Proof.
  revert prev. induction l as [|x l IH]; intros prev; [done|]. simpl.
  case_bool_decide; [by constructor|by constructor].
Qed.

Definition first_with (k : bytes) (l : list T) : option T :=
  List.find (λ x, bool_decide (keyFn x = k)) l.

Lemma changes_first k prev l : k ≠ prev → first_with k (changes prev l) = first_with k l.
Proof.
  revert prev. induction l as [|x l IH]; intros prev Hk; [done|]. simpl.
  case_bool_decide as Hx; [rewrite bool_decide_false by congruence; by apply IH|]. simpl.
  case_bool_decide; [done|]. by apply IH.
Qed.

Lemma changes_keys k prev l : k ∈ prev :: (keyFn <$> changes prev l) ↔ k ∈ prev :: (keyFn <$> l).
Proof.
  revert prev. induction l as [|x l IH]; intros prev; [done|]. simpl. case_bool_decide as Hx.
  - rewrite IH, Hx, !elem_of_cons. tauto.
  - rewrite fmap_cons, (elem_of_cons _ _ prev), IH, (elem_of_cons _ _ prev). done.
Qed.
Lemma compact_keys l k : k ∈ keyFn <$> compactFunc l keyFn ↔ k ∈ keyFn <$> l.
Proof. destruct l as [|x l]; [done|]. rewrite compactFunc_changes, !fmap_cons. apply changes_keys. Qed.

(** Adjacent keys differ. *)
Fixpoint adjacent_ne (prev : bytes) (l : list T) : Prop :=
  match l with [] => True | x :: l => keyFn x ≠ prev ∧ adjacent_ne (keyFn x) l end.

Lemma changes_adjacent prev l : adjacent_ne prev (changes prev l).
Proof.
  revert prev. induction l as [|x l IH]; intros prev; [done|]. simpl. by case_bool_decide.
Qed.

Lemma changes_id prev l : adjacent_ne prev l → changes prev l = l.
Proof.
  revert prev. induction l as [|x l IH]; intros prev; [done|]. intros [Hx Hl]. simpl.
  rewrite bool_decide_false by done. f_equal. by apply IH.
Qed.

Lemma adjacent_sorted_NoDup prev l :
  StronglySorted bytes_le (prev :: (keyFn <$> l)) → adjacent_ne prev l → NoDup (prev :: (keyFn <$> l)).
Proof.
  revert prev. induction l as [|x l IH]; intros prev Hs Ha; [apply NoDup_singleton|].
  apply StronglySorted_inv in Hs as [Hs Hp]. destruct Ha as [Hx Ha]. constructor; [|by apply IH].
  intros [->|Hin]%elem_of_cons; [done|]. apply Hx.
  apply StronglySorted_inv in Hs as [_ Hxl]. simpl in Hp. apply Forall_cons in Hp as [Hpx _].
  rewrite Forall_forall in Hxl. apply (anti_symm bytes_le); [by apply Hxl|done].
Qed.
End Compact.

Lemma StronglySorted_sublist {A} (R : relation A) l1 l2 :
  l1 `sublist_of` l2 → StronglySorted R l2 → StronglySorted R l1.
Proof.
  induction 1 as [|x l1 l2 Hl IH|x l1 l2 Hl IH]; intros Hs; [done| |]; apply StronglySorted_inv in Hs as [Hs Hx].
  - constructor; [by apply IH|]. rewrite Forall_forall in *. intros y Hy.
    apply Hx. eapply elem_of_submseteq; [done|by apply sublist_submseteq].
  - by apply IH.
Qed.

Lemma sublist_map {A B} (f : A → B) l1 l2 : l1 `sublist_of` l2 → (f <$> l1) `sublist_of` (f <$> l2).
Proof. induction 1; simpl; by constructor. Qed.

Lemma compact_sorted {T} (keyFn : T → bytes) l :
  StronglySorted bytes_le (keyFn <$> l) → NoDup (keyFn <$> compactFunc l keyFn).
Proof.
  destruct l as [|x l]; [constructor|]. intros Hs. rewrite compactFunc_changes. simpl.
  apply adjacent_sorted_NoDup; [|apply changes_adjacent].
  eapply StronglySorted_sublist, Hs. simpl. constructor. apply sublist_map, changes_sublist.
Qed.

(** ** Lost sessions *)

(** On sorted lists without duplicates [removeCommon] is a filter. *)
Lemma filter_not_in (y1 y2 l : list string) :
  (∀ z, z ∈ l → z ∈ y1 ↔ z ∈ y2) → filter (.∉ y1) l = filter (.∉ y2) l.
Proof.
  induction l as [|a l IH]; intros Hy; [done|]. rewrite !filter_cons.
  rewrite IH by (intros; apply Hy; by right). apply decide_ext.
  by rewrite (Hy a) by (by left).
Qed.

Lemma sorted_lt_not_in a b l :
  Str.ltb a b = true → Forall (String.le b) l → a ∉ b :: l.
Proof.
  intros Hab Hl Hin. pose proof (Forall_ltb a b l Hab Hl) as Hf. rewrite Forall_forall in Hf.
  apply Hf, ltb_true in Hin. naive_solver.
Qed.

Lemma diff_filter x y :
  StronglySorted String.le x → NoDup x → StronglySorted String.le y → diff x y = filter (.∉ y) x.
Proof.
  intros Hx. revert y. induction Hx as [|a x Hx IHx Ha]; intros y Hn Hy; [done|].
  apply NoDup_cons in Hn as [Hax Hn].
  induction Hy as [|b y Hy IHy Hb].
  { rewrite diff_nil_r. clear. induction (a :: x) as [|z l IH]; [done|].
    rewrite filter_cons_True by apply not_elem_of_nil. by f_equal. }
  rewrite diff_cons. destruct (Str.ltb a b) eqn:Eab.
  - rewrite filter_cons_True by by apply sorted_lt_not_in. f_equal. apply IHx; [done|by constructor].
  - destruct (Str.ltb b a) eqn:Eba.
    + rewrite IHy. apply filter_not_in. intros z Hz. pose proof (sorted_lt_not_in b a x Eba Ha).
      rewrite elem_of_cons. naive_solver.
    + pose proof (ltb_trichotomy _ _ Eab Eba) as ->. rewrite filter_cons_False by (intros Hb'; apply Hb'; by left).
      rewrite IHx by done. apply filter_not_in. intros z Hz. rewrite elem_of_cons. naive_solver.
Qed.

Definition asks (id : string) (m : MP_Snapshot_Member) : Prop :=
  id ∈ sm_solicitations m ≫= ks_sessionIds.
#[export] Instance asks_dec id m : Decision (asks id m).
Proof. unfold asks. apply _. Defined.

(** How many members ask for a session *)
Definition asked_by (members : list MP_Snapshot_Member) (id : string) : Z :=
  Z.of_nat (length (filter (asks id) members)).

(** A session that more than a quarter of the members, and more than two, ask for *)
Definition lost (members : list MP_Snapshot_Member) (id : string) : Prop :=
  Z.of_nat (length members) < 4 * asked_by members id ∧ 2 < asked_by members id.

Section Lost.
Context `{EthLib}.

Definition encrypted_with (id : string) (name : option WrappedEncryptedData) : Prop :=
  ∃ w d, name = Some w ∧ wed_data w = Some d ∧
    (id ≠ "" ∧ ed_sessionId d = id ∨ ed_sessionIdBytes d ≠ [] ∧ bin_toHexString (ed_sessionIdBytes d) = id).

(** A name is cleared exactly when it is encrypted with a lost session. *)
Definition cleared (members : list MP_Snapshot_Member) (name name' : option WrappedEncryptedData) : Prop :=
  (name' = None ∧ ∃ id, lost members id ∧ encrypted_with id name)
  ∨ (name' = name ∧ ∀ id, lost members id → ¬ encrypted_with id name).

Definition cleaned (members : list MP_Snapshot_Member) (m m' : MP_Snapshot_Member) : Prop :=
  sm_userAddress m' = sm_userAddress m
  ∧ cleared members (sm_username m) (sm_username m')
  ∧ cleared members (sm_displayName m) (sm_displayName m')
  ∧ Forall2 (λ k k', ks_deviceKey k' = ks_deviceKey k
      ∧ ∀ id, id ∈ ks_sessionIds k' ↔ id ∈ ks_sessionIds k ∧ ¬ lost members id)
      (sm_solicitations m) (sm_solicitations m').

Definition tidy (m : MP_Snapshot_Member) : Prop :=
  Forall (λ k, StronglySorted String.le (ks_sessionIds k) ∧ NoDup (ks_sessionIds k)) (sm_solicitations m).
#[export] Instance tidy_dec m : Decision (tidy m).
Proof. unfold tidy. apply _. Defined.

(** One step of the count of the sessions of a member *)
Definition bump : gset string * gmap string Z → string → gset string * gmap string Z :=
  λ '(processedIds, sessionIdCounts) sessionId,
  if bool_decide (sessionId ∈ processedIds) then (processedIds, sessionIdCounts)
  else ({[sessionId]} ∪ processedIds,
        <[sessionId := default 0 (sessionIdCounts !! sessionId) + 1]> sessionIdCounts).

Lemma count_member ids (done_ : gset string) (counts : gmap string Z) id :
  default 0 ((foldl bump (done_, counts) ids).2 !! id)
  = default 0 (counts !! id) + (if bool_decide (id ∈ ids ∧ id ∉ done_) then 1 else 0).
Proof.
  revert done_ counts. induction ids as [|a ids IH]; intros done_ counts.
  { rewrite bool_decide_false; [simpl; lia|]. intros [[]%elem_of_nil _]. }
  cbn [foldl]. unfold bump at 2. case_bool_decide as Ha; rewrite IH.
  - rewrite (bool_decide_ext (id ∈ a :: ids ∧ _) (id ∈ ids ∧ id ∉ done_)); [done|].
    rewrite elem_of_cons. naive_solver.
  - destruct (decide (id = a)) as [->|Hne].
    + rewrite lookup_insert_eq, bool_decide_false, bool_decide_true by set_solver. simpl. lia.
    + rewrite lookup_insert_ne by done.
      rewrite (bool_decide_ext (id ∈ a :: ids ∧ _) (id ∈ ids ∧ id ∉ {[a]} ∪ done_)); [done|set_solver].
Qed.

Lemma countSessionIds_spec members id :
  default 0 (countSessionIds members !! id) = asked_by members id.
Proof.
  unfold countSessionIds, asked_by.
  enough (∀ c, default 0 (foldl (λ c m, (foldl bump (∅, c) (sm_solicitations m ≫= ks_sessionIds)).2)
      c members !! id)
    = default 0 (c !! id) + Z.of_nat (length (filter (asks id) members))) as Hc by (etrans; [apply (Hc ∅)|rewrite lookup_empty; simpl; lia]).
  induction members as [|m l IH]; intros c; simpl; [lia|].
  rewrite IH, count_member, filter_cons. unfold asks at 2.
  case_bool_decide as Ha; destruct (decide _) as [Hd|Hd]; simpl; try lia; unfold asks in *; set_solver.
Qed.

Lemma aboveThreshold_lost members id :
  aboveThreshold (Z.of_nat (length members)) (asked_by members id) = true ↔ lost members id.
Proof. unfold aboveThreshold, lost. rewrite andb_true_iff, !Z.ltb_lt. done. Qed.

Lemma lostIds_spec members id : id ∈ lostIds members ↔ lost members id.
Proof.
  unfold lostIds. rewrite sort_strings_Permutation, list_elem_of_filter, countSessionIds_spec,
    aboveThreshold_lost, list_elem_of_fmap. split; [naive_solver|]. intros Hl. split; [done|].
  destruct (countSessionIds members !! id) as [n|] eqn:E.
  { exists (id, n). by rewrite elem_of_map_to_list. }
  pose proof (countSessionIds_spec members id) as Hc. rewrite E in Hc. unfold lost in Hl. simpl in Hc. lia.
Qed.

Lemma isLostName_spec members name :
  isLostName (list_to_set (lostIds members)) name = true
  ↔ ∃ id, lost members id ∧ encrypted_with id name.
Proof.
  unfold isLostName, encrypted_with. setoid_rewrite <- lostIds_spec.
  destruct name as [w|]; simpl; [|naive_solver]. destruct (wed_data w) as [d|] eqn:Hw; simpl; [|naive_solver].
  rewrite orb_true_iff, !andb_true_iff, !bool_decide_eq_true, !elem_of_list_to_set.
  unfold truthy_str. rewrite negb_true_iff, String.eqb_neq, Nat.ltb_lt.
  assert ((0 < length (ed_sessionIdBytes d))%nat ↔ ed_sessionIdBytes d ≠ []) as Hb
    by (destruct (ed_sessionIdBytes d); simpl; split; [lia|done|done|lia]).
  rewrite Hb. split.
  - intros [[H1 H2]|[H1 H2]]; eexists; (split; [done|]); exists w, d; naive_solver.
  - intros (id & Hid & w' & d' & [= <-] & Hd & Hor). rewrite Hw in Hd. naive_solver.
Qed.

Lemma cleared_spec members name :
  cleared members name (if isLostName (list_to_set (lostIds members)) name then None else name).
Proof.
  destruct (isLostName _ name) eqn:E.
  - left. split; [done|]. by apply isLostName_spec.
  - right. split; [done|]. intros id Hl He.
    assert (isLostName (list_to_set (lostIds members)) name = true) by (apply isLostName_spec; eauto). congruence.
Qed.

Lemma dropLost_cleaned members m : tidy m → cleaned members m (dropLost (lostIds members) m).
Proof.
  intros Ht. split_and!; [done|apply cleared_spec|apply cleared_spec|]. simpl. unfold tidy in Ht.
  apply Forall2_fmap_r, Forall_Forall2_diag. eapply Forall_impl; [done|]. intros k [Hs Hn].
  split; [done|]. intros id. simpl. rewrite removeCommon_diff, diff_filter; [|done|done|].
  - rewrite list_elem_of_filter, lostIds_spec. naive_solver.
  - apply Sorted_StronglySorted; [apply _|]. apply sort_strings_Sorted.
Qed.

Lemma none_lost_cleaned members m : lostIds members = [] → cleaned members m m.
Proof.
  intros Hl. assert (∀ id, ¬ lost members id) as Hn.
  { intros id. rewrite <- lostIds_spec, Hl. apply not_elem_of_nil. }
  split_and!; [done|right; naive_solver|right; naive_solver|].
  apply Forall_Forall2_diag, Forall_true. naive_solver.
Qed.

End Lost.

(** ** All migrations *)

Section All.
Context `{EthLib}.

Definition addresses (s : Snapshot) : list bytes :=
  sm_userAddress <$> default [] (ms_joined <$> sn_members s).
Definition channels (s : Snapshot) : list SP_ChannelMetadata :=
  match sn_content s with SC_spaceContent v => sps_channels v | _ => [] end.

(** The settings a channel has after its migration *)
Definition has_settings (c : SP_ChannelMetadata) : Prop :=
  ∃ settings, cm_settings c = Some settings
    ∧ (isDefaultChannelId (streamIdFromBytes (cm_channelId c)) = true → cs_autojoin settings = true).

Lemma addresses_0001 s : addresses (snapshotMigration0001 s)
  = sm_userAddress <$> compactFunc (default [] (ms_joined <$> sn_members s)) sm_userAddress.
Proof. unfold addresses, snapshotMigration0001. simpl. by destruct (sn_members s). Qed.
Lemma addresses_0004 s force : addresses (snapshotMigration0004 s force) = addresses s.
Proof.
  unfold addresses, snapshotMigration0004. destruct (sn_members s) as [m|] eqn:Hm; [|by rewrite Hm].
  destruct (_ || _); [by rewrite Hm|]. destruct (_ =? _)%nat; [by rewrite Hm|]. simpl.
  rewrite <- list_fmap_compose. by apply list_fmap_ext.
Qed.
Lemma content_0004 s force : sn_content (snapshotMigration0004 s force) = sn_content s.
Proof.
  unfold snapshotMigration0004. destruct (sn_members s); [|done]. destruct (_ || _); [done|].
  by destruct (_ =? _)%nat.
Qed.
Lemma channels_0003 s : channels (snapshotMigration0003 s) = channels s.
Proof. unfold channels, snapshotMigration0003. simpl. by destruct (sn_content s). Qed.
Lemma channels_0002 s : Forall has_settings (channels (snapshotMigration0002 s)).
Proof.
  unfold channels, snapshotMigration0002. simpl. destruct (sn_content s); simpl; try constructor.
  apply Forall_fmap, Forall_true. intros c. unfold has_settings. simpl.
  eexists. split; [done|]. by intros ->.
Qed.

(** The members and the channels stay the same. *)
Definition channelIds (s : Snapshot) : list bytes := cm_channelId <$> channels s.
Definition kept (s s' : Snapshot) : Prop :=
  (∀ a, a ∈ addresses s' ↔ a ∈ addresses s) ∧ (∀ c, c ∈ channelIds s' ↔ c ∈ channelIds s).
#[local] Instance kept_preorder : PreOrder kept.
Proof.
  split; [by intros s|]. intros s1 s2 s3 [A1 C1] [A2 C2].
  split; [intros a; by rewrite A2, A1|intros c; by rewrite C2, C1].
Qed.
Lemma kept_0001 s : kept s (snapshotMigration0001 s).
Proof.
  split; [intros a; rewrite addresses_0001; apply compact_keys|]. intros c.
  unfold channelIds, channels, snapshotMigration0001. simpl. destruct (sn_content s); try done. apply compact_keys.
Qed.
Lemma kept_0002 s : kept s (snapshotMigration0002 s).
Proof.
  split; [done|]. intros c. unfold channelIds, channels, snapshotMigration0002. simpl.
  destruct (sn_content s); try done. simpl. by rewrite <- list_fmap_compose.
Qed.
Lemma kept_0003 s : kept s (snapshotMigration0003 s).
Proof. split; [done|]. intros c. unfold channelIds. by rewrite channels_0003. Qed.
Lemma kept_0004 s force : kept s (snapshotMigration0004 s force).
Proof.
  split; [intros a; by rewrite addresses_0004|]. intros c. unfold channelIds, channels. by rewrite content_0004.
Qed.
Lemma migrations_keep l s : l `suffix_of` SNAPSHOT_MIGRATIONS → kept s (foldl (λ r f, f r) s l).
Proof.
  intros [l' El]. assert (Hl : Forall (λ f, ∀ s, kept s (f s)) l).
  { assert (Forall (λ f, ∀ s, kept s (f s)) SNAPSHOT_MIGRATIONS) as Ha.
    { apply Forall_forall. intros f Hf t. repeat apply elem_of_cons in Hf as [->|Hf].
      - reflexivity.
      - apply kept_0001.
      - apply kept_0002.
      - apply kept_0003.
      - apply kept_0004.
      - by apply not_elem_of_nil in Hf. }
    rewrite El in Ha. by apply Forall_app in Ha as [_ Ha]. }
  clear El. revert s. induction Hl as [|f l Hf _ IH]; intros s; simpl; [reflexivity|]. etrans; [apply Hf|apply IH].
Qed.

(** The migrations that are left at version [v] *)
Definition rest (v : nat) (s : Snapshot) : Snapshot :=
  foldl (λ r f, f r) s (drop v SNAPSHOT_MIGRATIONS).

Lemma rest_addresses v s :
  (v <= 1)%nat → StronglySorted bytes_le (addresses s) → NoDup (addresses (rest v s)).
Proof.
  intros Hv Hs. assert (rest v s = rest 1 s) as -> by (by destruct v as [|[|]]; [| |lia]).
  unfold rest. simpl. rewrite addresses_0004. change (NoDup (addresses (snapshotMigration0001 s))).
  rewrite addresses_0001. by apply compact_sorted.
Qed.
Lemma rest_channels v s : (v <= 2)%nat → Forall has_settings (channels (rest v s)).
Proof.
  intros Hv. assert (∃ s', rest v s = rest 2 s') as [s' ->].
  { destruct v as [|[|[|]]]; [by eexists (snapshotMigration0001 _)..|by eexists|lia]. }
  unfold rest. simpl. unfold channels. rewrite content_0004.
  apply (Forall_impl has_settings has_settings (channels _)); [|done].
  rewrite channels_0003. apply channels_0002.
Qed.
End All.

(** ** Theorems *)

(** Compacting drops duplicates exactly: of neighbours with the same key
    the first stays, nothing else is dropped or moved, compacting again changes
    nothing, and when equal keys stand together (the array is sorted) the keys of
    the result are all different. *)
Theorem compactFunc_exact {T} (keyFn : T → bytes) (l : list T) :
  compactFunc l keyFn `sublist_of` l ∧
  (∀ k, first_with keyFn k (compactFunc l keyFn) = first_with keyFn k l) ∧
  compactFunc (compactFunc l keyFn) keyFn = compactFunc l keyFn ∧
  (StronglySorted bytes_le (keyFn <$> l) → NoDup (keyFn <$> compactFunc l keyFn)).
Proof.
  destruct l as [|x l]; [split_and!; by try constructor|]. rewrite !compactFunc_changes.
  split_and!.
  - constructor. apply changes_sublist.
  - intros k. simpl. case_bool_decide; [done|]. by apply changes_first.
  - f_equal. apply changes_id, changes_adjacent.
  - rewrite <- compactFunc_changes. by apply compact_sorted.
Qed.

(** The migration of lost sessions is exact. In a snapshot of at least 500
    members (or any, when forced) the sessions that more than a quarter of the
    members and more than two of them ask for disappear from every request, and
    with them the user names and display names encrypted with them; every other
    session, name and member stays. Smaller snapshots are left alone. *)
Theorem lost_sessions_dropped `{EthLib} snapshot m force :
  sn_members snapshot = Some m → Forall tidy (ms_joined m) →
  let members := ms_joined m in
  let snapshot' := snapshotMigration0004 snapshot force in
  if force || (500 <=? length members)%nat
  then ∃ m', sn_members snapshot' = Some m' ∧ Forall2 (cleaned members) members (ms_joined m')
  else snapshot' = snapshot.
Proof.
  intros Hm Ht members snapshot'. subst snapshot'. unfold snapshotMigration0004. rewrite Hm. fold members.
  destruct members as [|a l] eqn:Hl.
  { simpl. destruct force; simpl; [|done]. exists m. split; [done|]. subst members. rewrite Hl. constructor. }
  rewrite <- Hl in *. replace (length members =? 0)%nat with false by (by rewrite Hl). rewrite orb_false_l.
  destruct (force || _) eqn:Hf.
  - replace ((length members <? 500)%nat && negb force) with false.
    2:{ destruct force; [by rewrite andb_false_r|]. rewrite orb_false_l in Hf. apply Nat.leb_le in Hf.
        rewrite (proj2 (Nat.ltb_ge _ _)) by lia. done. }
    destruct (length (lostIds members) =? 0)%nat eqn:E.
    + apply Nat.eqb_eq, nil_length_inv in E. exists m. split; [done|].
      apply Forall_Forall2_diag, Forall_true. intros x. by apply none_lost_cleaned.
    + eexists. split; [done|]. simpl. apply Forall2_fmap_r, Forall_Forall2_diag.
      eapply Forall_impl; [done|]. apply dropLost_cleaned.
  - apply orb_false_iff in Hf as [-> Hf]. apply Nat.leb_gt in Hf.
    by rewrite (proj2 (Nat.ltb_lt _ _)) by done.
Qed.

(** C33. Migrating a snapshot of any version there has been succeeds, gives it the
    current version, and does nothing to it a second time. The versions are the
    numbers from 0 on. The snapshot has the same members and the same channels
    afterwards; one older than the compaction, with its members sorted by address,
    comes out with every member once; and one older than channel settings with
    settings for every channel of a space, its default channel being joined
    automatically. *)
Theorem migrateSnapshot_total `{EthLib} snapshot :
  0 <= sn_snapshotVersion snapshot →
  ∃ result, migrateSnapshot snapshot = Ok result
  ∧ sn_snapshotVersion result = Z.max 5 (sn_snapshotVersion snapshot)
  ∧ migrateSnapshot result = Ok result
  ∧ (∀ a, a ∈ addresses result ↔ a ∈ addresses snapshot)
  ∧ (∀ c, c ∈ channelIds result ↔ c ∈ channelIds snapshot)
  ∧ (sn_snapshotVersion snapshot <= 1 → StronglySorted bytes_le (addresses snapshot) → NoDup (addresses result))
  ∧ (sn_snapshotVersion snapshot <= 2 → Forall has_settings (channels result)).
Proof.
  intros Hv. unfold migrateSnapshot at 1. simpl length. change (Z.of_nat 5) with 5.
  destruct (Z.leb_spec 5 (sn_snapshotVersion snapshot)).
  - exists snapshot. unfold migrateSnapshot. simpl length. rewrite (proj2 (Z.leb_le _ _)) by lia.
    split_and!; [done|lia|done|done|done|lia|lia].
  - rewrite (proj2 (Z.ltb_ge _ _)) by lia. set (r := _ <| sn_snapshotVersion := 5 |>).
    destruct (migrations_keep (drop (Z.to_nat (sn_snapshotVersion snapshot)) SNAPSHOT_MIGRATIONS) snapshot) as [Ha Hc];
      [apply suffix_drop|].
    exists r. split_and!; [done|simpl; lia|done|exact Ha|exact Hc| |]; intros ?; [intros ?|].
    + apply (rest_addresses _ snapshot); [lia|done].
    + apply (rest_channels (Z.to_nat (sn_snapshotVersion snapshot)) snapshot). lia.
Qed.

(** ** Examples *)

Module MigrationsWitness.
Import ModelEth Fixtures.

Definition solicitation (ids : list string) : MP_KeySolicitation := {|
  ks_deviceKey := "d"; ks_fallbackKey := "f"; ks_isNewDevice := false; ks_sessionIds := ids |}.
Definition asking (u : byte) (ids : list string) : MP_Snapshot_Member :=
  snapshotMember u [solicitation ids].
Definition members : list MP_Snapshot_Member :=
  [asking x01 ["a"; "b"]; asking x02 ["b"]; asking x02 ["b"; "c"]].

Lemma members_tidy : Forall tidy members.
Proof. apply (bool_decide_unpack _). vm_compute. exact I. Qed.
Lemma members_sorted : StronglySorted bytes_le (sm_userAddress <$> members).
Proof. apply (bool_decide_unpack _). vm_compute. exact I. Qed.

Lemma compactFunc_exact_witness : NoDup (sm_userAddress <$> compactFunc members sm_userAddress).
Proof.
  destruct (compactFunc_exact sm_userAddress members) as (_ & _ & _ & H). apply H. exact members_sorted.
Defined.

Lemma lost_sessions_dropped_witness :
  ∃ m', sn_members (snapshotMigration0004 (snapshot members) true) = Some m'
  ∧ Forall2 (cleaned members) members (ms_joined m').
Proof.
  exact (lost_sessions_dropped (snapshot members) (memberSnapshot members) true eq_refl members_tidy).
Defined.

Lemma migrateSnapshot_total_witness :
  ∃ result, migrateSnapshot (snapshot members) = Ok result ∧ sn_snapshotVersion result = 5
  ∧ NoDup (addresses result) ∧ addr x02 ∈ addresses result.
Proof.
  destruct (migrateSnapshot_total (snapshot members)) as (r & Hr & Hv & _ & Hk & _ & Ha & _); [vm_compute; discriminate|].
  exists r. split; [exact Hr|]. split; [exact Hv|]. split; [apply Ha; [vm_compute; discriminate|exact members_sorted]|].
  apply Hk. right. left.
Defined.
End MigrationsWitness.
