(* ===== verification/ContentLaws.v ===== *)
(** * ContentLaws: the contents keep the law of their interface

    No method of a content or of the members frees, renames or renumbers an
    event object, whatever it is given and whether or not it throws. *)

From S2P Require Import Prelude JsLib Ids Proto Types StreamEvents StreamViews Content Members Channels Space UserStreams.

(** [laws]: the methods are unfolded by the database [laws], then walked through. *)
Create HintDb laws.
#[export] Hint Unfold no_confirm no_decrypt no_local : laws.
#[export] Hint Unfold Channel.prependEvent Channel.appendEvent Channel.message : laws.
#[export] Hint Unfold DMChannel.prependEvent DMChannel.appendEvent DMChannel.updateLastEvent
  DMChannel.onAppendLocalEvent : laws.
#[export] Hint Unfold GDMChannel.prependEvent GDMChannel.appendEvent GDMChannel.updateLastEvent
  GDMChannel.onDecryptedContent GDMChannel.onAppendLocalEvent : laws.
#[export] Hint Unfold Space.prependEvent Space.appendEvent addSpacePayload_Channel
  addSpacePayload_UpdateChannelAutojoin addSpacePayload_UpdateChannelHideUserJoinLeaveEvents
  set_encryptedSpaceImage : laws.
#[export] Hint Unfold User.prependEvent User.appendEvent User.addUserPayload_userMembership : laws.
#[export] Hint Unfold UserInbox.prependEvent UserInbox.appendEvent UserInbox.addGroupSessions
  UserInbox.updateDeviceSummary : laws.
#[export] Hint Unfold UserSettings.prependEvent UserSettings.appendEvent
  UserSettings.fullyReadMarkerUpdate UserSettings.userBlockUpdate : laws.
#[export] Hint Unfold UserMetadata.prependEvent UserMetadata.appendEvent
  UserMetadata.addUserDeviceKey UserMetadata.addProfileImage UserMetadata.addBio : laws.
#[export] Hint Unfold Media.prependEvent Media.appendEvent : laws.
Ltac laws := constructor; intros; simpl; autounfold with laws; moves.

#[export] Hint Unfold ChannelMetadata.appendEvent ChannelMetadata.onDecryptedContent
  ChannelMetadata.decryptPayload ChannelMetadata.handleDecryptedContent : laws.

Lemma moves_on_metadata {A} (m : M Emit (Env GDMChannel.GdmStreams ChannelMetadata.ChannelMetadata) A) :
  moves env_ext m → moves env_ext (GDMChannel.on_metadata m).
Proof. intros Hm. apply (moves_zoom _ env_ext); [done|]. by intros env t. Qed.
#[export] Hint Extern 2 (moves _ (GDMChannel.on_metadata _)) =>
  apply moves_on_metadata; moves : moves.

Section ContentLaws.
Context `{EthLib, Codec}.

#[export] Instance Channel_laws : ContentLaws Channel.content.
Proof. laws. Qed.
#[export] Instance DMChannel_laws : ContentLaws DMChannel.content.
Proof. laws. Qed.
#[export] Instance Space_laws : ContentLaws Space.content.
Proof. laws. Qed.
#[export] Instance User_laws : ContentLaws User.content.
Proof. laws. Qed.
#[export] Instance UserInbox_laws : ContentLaws UserInbox.content.
Proof. laws. Qed.
#[export] Instance UserSettings_laws : ContentLaws UserSettings.content.
Proof. laws. Qed.
#[export] Instance UserMetadata_laws : ContentLaws UserMetadata.content.
Proof. laws. Qed.
#[export] Instance Media_laws : ContentLaws Media.content.
Proof. laws. Qed.
#[export] Instance GDMChannel_laws : ContentLaws GDMChannel.content.
Proof. laws. Qed.

(** Snapshots *)

Lemma channel_snapshot_grows v : moves env_ext (Channel.applySnapshot v).
Proof. unfold Channel.applySnapshot. moves. Qed.
Lemma dmChannel_snapshot_grows v : moves env_ext (DMChannel.applySnapshot v).
Proof. unfold DMChannel.applySnapshot. moves. Qed.
Lemma gdmChannel_snapshot_grows v cts enc : moves env_ext (GDMChannel.applySnapshot v cts enc).
Proof.
  unfold GDMChannel.applySnapshot, ChannelMetadata.applySnapshot. autounfold with laws. moves.
Qed.
Lemma space_snapshot_grows v : moves env_ext (Space.applySnapshot v).
Proof. unfold Space.applySnapshot. autounfold with laws. moves. Qed.
Lemma user_snapshot_grows v enc : moves env_ext (User.applySnapshot v enc).
Proof. unfold User.applySnapshot. autounfold with laws. moves. Qed.
Lemma userInbox_snapshot_grows v : moves env_ext (UserInbox.applySnapshot v).
Proof. unfold UserInbox.applySnapshot. moves. Qed.
Lemma userSettings_snapshot_grows v : moves env_ext (UserSettings.applySnapshot v).
Proof. unfold UserSettings.applySnapshot. autounfold with laws. moves. Qed.
Lemma userMetadata_snapshot_grows v enc : moves env_ext (UserMetadata.applySnapshot v enc).
Proof. unfold UserMetadata.applySnapshot. autounfold with laws. moves. Qed.
Lemma media_snapshot_grows v : moves env_ext (Media.applySnapshot v).
Proof. unfold Media.applySnapshot. moves. Qed.

(** ** Members *)

Lemma moves_on_member u f : moves env_ext (Members.on_member u f).
Proof. unfold Members.on_member. moves. Qed.
Lemma moves_members_metadata {A} (m : M Emit MemberMetadata.MemberMetadata A) :
  moves env_ext (Members.on_metadata m).
Proof. unfold Members.on_metadata. moves. Qed.
Lemma moves_members_solicit {A} (m : M Emit Solicitations.Solicitations A) :
  moves env_ext (Members.on_solicit m).
Proof. unfold Members.on_solicit. moves. Qed.
Hint Resolve moves_on_member moves_members_metadata moves_members_solicit : moves.

Lemma moves_applyMembershipEvent u op type st : moves env_ext (applyMembershipEvent u op type st).
Proof. unfold applyMembershipEvent, emitMembershipChange. moves. Qed.
Lemma moves_addPin u o ct enc st : moves env_ext (addPin u o ct enc st).
Proof. unfold addPin. moves. Qed.
Lemma moves_addTokenTransfer p c n st b : moves env_ext (addTokenTransfer p c n st b).
Proof. unfold addTokenTransfer. moves. Qed.
Hint Resolve moves_applyMembershipEvent moves_addPin moves_addTokenTransfer : moves.

Lemma members_appendEvent_grows o ct enc st : moves env_ext (Members.appendEvent o ct enc st).
Proof.
  unfold Members.appendEvent, append_membership, append_tip, append_spaceReview, removePin. moves.
Qed.
Lemma members_prependEvent_grows o st : moves env_ext (Members.prependEvent o st).
Proof. unfold Members.prependEvent. moves. Qed.
Lemma members_onConfirmedEvent_grows o st : moves env_ext (Members.onConfirmedEvent o st).
Proof. unfold Members.onConfirmedEvent, confirm_membership. moves. Qed.
Lemma members_onDecryptedContent_grows id d st : moves env_ext (Members.onDecryptedContent id d st).
Proof. unfold Members.onDecryptedContent. moves. Qed.
Lemma members_applySnapshot_grows event snapshot cts enc :
  moves env_ext (Members.applySnapshot event snapshot cts enc).
Proof.
  assert (Hj : ∀ l ids, moves env_ext (applySnapshot_joined l ids)).
  { induction l; intros ids; cbn [applySnapshot_joined]; moves. }
  unfold Members.applySnapshot, applySnapshot_pin. moves.
Qed.
End ContentLaws.

#[export] Hint Resolve members_appendEvent_grows members_prependEvent_grows
  members_onConfirmedEvent_grows members_onDecryptedContent_grows members_applySnapshot_grows
  prependEvent_grows appendEvent_grows onConfirmedEvent_grows onDecryptedContent_grows
  onAppendLocalEvent_grows : moves.
#[export] Hint Resolve channel_snapshot_grows dmChannel_snapshot_grows gdmChannel_snapshot_grows
  space_snapshot_grows user_snapshot_grows userInbox_snapshot_grows userSettings_snapshot_grows
  userMetadata_snapshot_grows media_snapshot_grows : moves.
