(* ===== verification/ContentFacts.v ===== *)
(** * ContentFacts: the contents of streams as theorems

    The image of a space under interleaved decryptions, the name of a group
    under decryptions in any order, the time of the last message of a direct
    message, and the chunks of a media stream. *)

From Stdlib Require Import Strings.Ascii Strings.Byte.
From S2P Require Import Prelude JsLib Ids IdsFacts Proto Types TimelineTypes StreamEvents StreamViews Content Fixtures Channels Space UserStreams.

(** ** The image of a space *)

Section Image.
Context `{EthLib}.

(** Decrypting and parsing the data of an image *)
Context (decrypt : EncryptedData → option ChunkedMedia).

(** An image arrives, somebody asks for the image, or the [i]-th running
    decryption settles. *)
Inductive ImageOp := Arrive (eventId : string) (data : EncryptedData) | Ask | Settle (i : nat).

Definition image_op (s : Space) (op : ImageOp) : Space :=
  match op with
  | Arrive eventId data => self (post (set_encryptedSpaceImage eventId data) (Build_Env empty_heap ∅ s))
  | Ask => (getSpaceImage s).2
  | Settle i =>
      match running s !! i with
      | Some d => settle d (decrypt (im_data d)) s
      | None => s
      end
  end.

Definition arrival (op : ImageOp) : option EncryptedData :=
  match op with Arrive _ data => Some data | _ => None end.

(** The state when [data] was the last to arrive *)
Record image_inv (sid : string) (data : option EncryptedData) (s : Space) : Prop := {
  ii_id : Space.streamId s = sid;
  ii_running d : d ∈ running s → (im_ref d < next_ref s)%nat;
  ii_waiting id d : encryptedSpaceImage s = Some (id, d) →
    data = Some (im_data d) ∧ (im_ref d < next_ref s)%nat ∧ ∀ d', d' ∈ running s → im_ref d' ≠ im_ref d;
  ii_taken x : encryptedSpaceImage s = None → data = Some x →
    (∃ d, d ∈ running s ∧ im_data d = x ∧ decryptionInProgress s = Some (im_ref d))
    ∨ (decryptionInProgress s = None ∧ ∀ img, decrypt x = Some img → spaceImage s = Some img);
  ii_unique d d' : d ∈ running s → d' ∈ running s → im_ref d = im_ref d' → d = d';
}.
Lemma image_arrive sid data id x s :
  image_inv sid data s → image_inv sid (Some x) (image_op s (Arrive id x)).
Proof.
  intros [Hid Hr Hw Ht Hu]. split; simpl; [done| | |done|done].
  - intros d Hd. apply Hr in Hd. lia.
  - intros id' d [= <- <-]. split_and!; [done|simpl; lia|]. intros d' Hd'. apply Hr in Hd'. simpl. lia.
Qed.

Lemma decryptSpaceImage_waiting d s : encryptedSpaceImage (decryptSpaceImage d s) = encryptedSpaceImage s.
Proof.
  unfold decryptSpaceImage, clear_progress.
  destruct (contractAddressFromSpaceId _); [done|]. by case_bool_decide.
Qed.

Lemma image_ask sid data s :
  is_Ok (contractAddressFromSpaceId sid) = true →
  image_inv sid data s → image_inv sid data (image_op s Ask).
Proof.
  intros Ha HI. simpl. unfold getSpaceImage. destruct (encryptedSpaceImage s) as [[id d]|] eqn:He.
  2: { by destruct (decryptionInProgress s). }
  destruct HI as [Hid Hr Hw Ht Hu]. destruct (Hw id d He) as (-> & Hd & Hne). clear Ht.
  unfold decryptSpaceImage. simpl. rewrite Hid. destruct (contractAddressFromSpaceId sid); [|done].
  split; simpl; [done| |done| |].
  - intros d' [Hd'|Hd'%list_elem_of_singleton]%elem_of_app; subst; auto.
  - intros x _ [= <-]. left. exists d. rewrite elem_of_app, list_elem_of_singleton. auto.
  - intros d1 d2. rewrite !elem_of_app, !list_elem_of_singleton. naive_solver.
Qed.

Lemma image_shrink sid data s s' :
  image_inv sid data s → Space.streamId s' = Space.streamId s → next_ref s' = next_ref s →
  encryptedSpaceImage s' = encryptedSpaceImage s → (∀ d, d ∈ running s' → d ∈ running s) →
  (∀ x, encryptedSpaceImage s = None → data = Some x →
    (∃ d, d ∈ running s' ∧ im_data d = x ∧ decryptionInProgress s' = Some (im_ref d))
    ∨ (decryptionInProgress s' = None ∧ ∀ img, decrypt x = Some img → spaceImage s' = Some img)) →
  image_inv sid data s'.
Proof.
  intros [Hid Hr Hw Ht Hu] E1 E2 E3 Hs Ht'. split; rewrite ?E1, ?E2, ?E3; [done|auto| |done|auto].
  intros id d He. destruct (Hw id d He) as (? & ? & ?). auto.
Qed.

Lemma image_settle sid data i s : image_inv sid data s → image_inv sid data (image_op s (Settle i)).
Proof.
  intros HI. simpl. destruct (running s !! i) as [d|] eqn:Hi; [|done].
  apply list_elem_of_lookup_2 in Hi.
  assert (Hf : ∀ d', d' ∈ List.filter (λ r, negb (im_ref r =? im_ref d)%nat) (running s)
                   ↔ d' ∈ running s ∧ im_ref d' ≠ im_ref d).
  { intros d'. rewrite !list_elem_of_In, filter_In, negb_true_iff, Nat.eqb_neq. done. }
  unfold settle, clear_progress. simpl.
  destruct (decide (decryptionInProgress s = Some (im_ref d))) as [Hp|Hp].
  - assert (Hx : ∀ x, encryptedSpaceImage s = None → data = Some x → im_data d = x).
    { intros x He Hd. destruct (ii_taken _ _ _ HI x He Hd) as [(d0 & H0 & <- & H1)|[H1 _]]; [|congruence].
      f_equal. apply (ii_unique _ _ _ HI); [done|done|congruence]. }
    destruct (decrypt (im_data d)) as [img|] eqn:Hdec; simpl;
      rewrite !(bool_decide_true (decryptionInProgress s = Some (im_ref d))) by done; simpl;
      rewrite ?(bool_decide_true (decryptionInProgress s = Some (im_ref d))) by done;
      (apply (image_shrink _ _ _ _ HI); [done|done|done|by intros d' [? _]%Hf|]);
      intros x He Hd; right; (split; [done|]); rewrite <- (Hx x) by done; intros img'; simpl; congruence.
  - rewrite (bool_decide_false (decryptionInProgress s = _)) by done.
    replace (match decrypt (im_data d) with Some _ => _ | None => _ end)
      with (s <| running ::= List.filter (λ r, negb (im_ref r =? im_ref d)%nat) |>)
      by (by destruct (decrypt (im_data d))).
    simpl. rewrite bool_decide_false by done.
    apply (image_shrink _ _ _ _ HI); [done|done|done|by intros d' [? _]%Hf|].
    intros x He Hd. destruct (ii_taken _ _ _ HI x He Hd) as [(d0 & H0 & E0 & H1)|H1]; [|by right].
    left. exists d0. split_and!; [apply Hf; split; congruence|done|done].
Qed.

Lemma image_run sid ops :
  is_Ok (contractAddressFromSpaceId sid) = true →
  image_inv sid (last (omap arrival ops)) (foldl image_op (Space.new sid) ops).
Proof.
  intros Ha. induction ops as [|op ops IH] using rev_ind.
  { split; simpl; try done; set_solver. }
  rewrite foldl_snoc, omap_app, last_app. destruct op as [id x| |i]; simpl.
  - by eapply image_arrive.
  - by apply image_ask.
  - by apply image_settle.
Qed.
End Image.

(** ** Events in either direction *)

Lemma remoteOf_run {V X B} o e p (k : StreamTimelineEvent * ParsedEvent → M Emit (Env V X) B) env :
  get_obj o (heap env) = Some e → ste_remoteEvent e = Some p →
  post (remoteOf o ≫= k) env = post (k (e, p)) env ∧ res (remoteOf o ≫= k) env = res (k (e, p)) env.
Proof.
  intros He Hp. assert (remoteOf o env = (Ok (e, p), env, [])) as Hr.
  { unfold remoteOf. cbv [mbind M_bind]. rewrite deref_run, He. simpl. by rewrite Hp. }
  rewrite post_bind, res_bind. unfold res, post. by rewrite Hr.
Qed.

(** Events that are appended ([true]) or prepended ([false]), not decrypted yet *)
Definition both_ways {V X} (C : AbstractContent V X) (enc st : bool) (op : bool * ObjId)
    : M Emit (Env V X) unit :=
  if op.1 then content_appendEvent op.2 None enc st else content_prependEvent op.2 None enc st.

Definition payload_at {V X} (env : Env V X) (o : ObjId) : option StreamEvent :=
  e ← get_obj o (heap env); p ← ste_remoteEvent e; Some (pe_event p).

(** ** Direct messages *)

Section DirectMessages.
Context `{EthLib, Codec}.

(** The inception of a direct message, or a message *)
Definition dm_event (e : StreamEvent) : bool :=
  match ev_payload e with P_dmChannelPayload (DMP_inception _ | DMP_message _) => true | _ => false end.

Lemma get_update {V} d k k' (f : V → V) (m : gmap string V) :
  get d k' (update d k f m) = if decide (k = k') then f (get d k m) else get d k' m.
Proof.
  unfold get at 1, update. case_decide; [subst; by rewrite lookup_insert_eq|by rewrite lookup_insert_ne].
Qed.

Lemma updateLastEvent_max p st env :
  let m := DMChannel.updateLastEvent p st in
  res m env = Ok tt ∧ heap (post m env) = heap env ∧ self (post m env) = self env
  ∧ DMChannel.lastEventCreatedAtEpochMs (post m env)
    = Z.max (DMChannel.lastEventCreatedAtEpochMs env) (ev_createdAtEpochMs (pe_event p)).
Proof.
  unfold DMChannel.updateLastEvent. run.
  destruct (Z.ltb_spec (DMChannel.lastEventCreatedAtEpochMs env) (ev_createdAtEpochMs (pe_event p))); simpl whenM.
  - run_env. split_and!; [done..|]. unfold DMChannel.lastEventCreatedAtEpochMs, DMChannel.dmStreamModel at 1.
    simpl. unfold dm_setLastEventCreatedAtEpochMs. rewrite get_update, decide_True by done. simpl.
    unfold DMChannel.lastEventCreatedAtEpochMs in *. lia.
  - run_env. split_and!; [done..|]. lia.
Qed.

Lemma decryptEvent_none {V X} sid kind o e content enc (env : Env V X) :
  get_obj o (heap env) = Some e →
  res (decryptEvent sid kind o content None enc) env = Ok tt
  ∧ post (decryptEvent sid kind o content None enc) env = env.
Proof.
  intros He. unfold decryptEvent. simpl truthy_cleartext. cbv iota.
  rewrite (res_bind_deref _ _ _ _ He), (post_bind_deref _ _ _ _ He). by run.
Qed.

Lemma dm_one enc st b o ev env :
  payload_at env o = Some ev → dm_event ev = true →
  let m := both_ways DMChannel.content enc st (b, o) in
  res m env = Ok tt ∧ heap (post m env) = heap env ∧ self (post m env) = self env
  ∧ DMChannel.lastEventCreatedAtEpochMs (post m env)
    = Z.max (DMChannel.lastEventCreatedAtEpochMs env) (ev_createdAtEpochMs ev).
Proof.
  unfold payload_at. destruct (get_obj o (heap env)) as [e|] eqn:He; [|done]. simpl.
  destruct (ste_remoteEvent e) as [p|] eqn:Hp; [|done]. intros [= <-] Hd.
  unfold dm_event in Hd. unfold both_ways. simpl. unfold DMChannel.appendEvent, DMChannel.prependEvent.
  destruct b;
    match goal with |- context [remoteOf o ≫= ?k] => destruct (remoteOf_run o e p k env He Hp) as [-> ->] end;
    destruct (ev_payload (pe_event p)) as [| | | | | | | | | |[]| |]; try done; simpl;
    try apply updateLastEvent_max; run;
    match goal with |- context [decryptEvent ?s ?k ?o ?v None ?c ≫= ?f] =>
      destruct (decryptEvent_none s k o e v c env He) as [HR HP];
      rewrite (res_bind_ok _ f _ _ HR), (post_bind_ok _ f _ _ HR), HP end;
    apply updateLastEvent_max.
Qed.
End DirectMessages.

(** ** Media *)

Section Chunks.
Context (enc st : bool).
Implicit Types (env : Env unit Media.Media).

Definition chunk_of (ev : StreamEvent) : option MDP_Chunk :=
  match ev_payload ev with P_mediaPayload (MDP_chunk v) => Some v | _ => None end.

Definition chunk_at env (o : ObjId) : option MDP_Chunk := payload_at env o ≫= chunk_of.

Lemma chunk_run b o v inf env :
  chunk_at env o = Some v → Media.info (self env) = Some inf →
  let m := both_ways Media.content enc st (b, o) in
  if (0 <=? ch_chunkIndex v) && (ch_chunkIndex v <? Media.chunkCount inf)
  then res m env = Ok tt ∧ heap (post m env) = heap env
    ∧ ∃ inf', Media.info (self (post m env)) = Some inf'
      ∧ Media.chunkCount inf' = Media.chunkCount inf
      ∧ Media.chunks inf' = <[Z.to_nat (ch_chunkIndex v) := Some (ch_data v)]> (Media.chunks inf)
  else res m env = Throw (PlainError "chunkIndex out of bounds") ∧ post m env = env.
Proof.
  intros Hc Hi m. unfold chunk_at, payload_at, chunk_of in Hc.
  destruct (get_obj o (heap env)) as [e|] eqn:He; [|done]. simpl in Hc.
  destruct (ste_remoteEvent e) as [p|] eqn:Hp; [|done]. simpl in Hc.
  destruct (ev_payload (pe_event p)) as [| | | | | | | | |[]| | |] eqn:Hev; try done. injection Hc as ->.
  assert (m = Media.appendEvent o None enc st) as -> by (by destruct b). unfold Media.appendEvent.
  match goal with |- context [remoteOf o ≫= ?k] => destruct (remoteOf_run o e p k env He Hp) as [-> ->] end.
  rewrite Hev. run. rewrite Hi.
  destruct (Z.leb_spec 0 (ch_chunkIndex v)); simpl;
    [|by rewrite (proj2 (Z.ltb_lt _ _)) by lia].
  rewrite (proj2 (Z.ltb_ge (ch_chunkIndex v) 0)) by lia. rewrite orb_false_l.
  destruct (Z.ltb_spec (ch_chunkIndex v) (Media.chunkCount inf)).
  - rewrite (proj2 (Z.leb_gt _ _)) by lia. run_env. split_and!; [done..|]. eexists. split; [done|].
    by destruct (ch_iv v).
  - by rewrite (proj2 (Z.leb_le _ _)) by lia.
Qed.

(** The chunks that have arrived are those of the file. *)
Record chunks_of (file : list bytes) (inf : Media.MediaInfo_) : Prop := {
  co_count : Media.chunkCount inf = Z.of_nat (length file);
  co_length : length (Media.chunks inf) = length file;
  co_sound i c : Media.chunks inf !! i = Some (Some c) → file !! i = Some c;
}.

Definition chunk_in (file : list bytes) (v : MDP_Chunk) : Prop :=
  0 <= ch_chunkIndex v ∧ file !! Z.to_nat (ch_chunkIndex v) = Some (ch_data v).

Lemma chunks_run file ops vs env inf :
  Media.info (self env) = Some inf → chunks_of file inf →
  Forall2 (λ op v, chunk_at env op.2 = Some v ∧ chunk_in file v) ops vs →
  let m := forM ops (both_ways Media.content enc st) in
  res m env = Ok tt ∧ heap (post m env) = heap env
  ∧ ∃ inf', Media.info (self (post m env)) = Some inf' ∧ chunks_of file inf'
    ∧ (∀ i c, Media.chunks inf !! i = Some (Some c) → Media.chunks inf' !! i = Some (Some c))
    ∧ ∀ v, v ∈ vs → Media.chunks inf' !! Z.to_nat (ch_chunkIndex v) = Some (Some (ch_data v)).
Proof.
  intros Hi Hc Hops. revert env inf Hi Hc Hops. revert ops.
  induction vs as [|v vs IH]; intros ops env inf Hi Hc Hops; [apply Forall2_nil_inv_r in Hops as ->
    |apply Forall2_cons_inv_r in Hops as ([b o] & ops' & [Hv Hin] & Hops & ->)]; simpl.
  { split_and!; [done..|]. exists inf. split_and!; [done..|]. by intros v ?%not_elem_of_nil. }
  destruct Hc as [Hn Hl Hs], Hin as [H0 Hf]. pose proof (lookup_lt_Some _ _ _ Hf) as Hlt.
  pose proof (chunk_run b o v inf env Hv Hi) as Hr. cbv zeta in Hr.
  rewrite (proj2 (Z.leb_le _ _)), (proj2 (Z.ltb_lt _ _)) in Hr by lia.
  destruct Hr as (HR & HH & inf1 & Hi1 & Hn1 & Hc1).
  rewrite (res_bind_ok _ _ _ _ HR), (post_bind_ok _ _ _ _ HR).
  assert (Hk : ∀ i c, Media.chunks inf1 !! i = Some (Some c) → file !! i = Some c).
  { intros i c. rewrite Hc1. intros [(<- & [= <-] & _)|[_ Hi']]%list_lookup_insert_Some; [done|by apply Hs]. }
  destruct (IH ops' (post (both_ways Media.content enc st (b, o)) env) inf1) as (HR2 & HH2 & inf2 & Hi2 & Hc2 & Hm & Hv2).
  { done. } { split; [by rewrite Hn1|by rewrite Hc1, length_insert|done]. }
  { eapply Forall2_impl; [done|]. intros op w [Hw ?]. split; [|done].
    unfold chunk_at, payload_at in *. by rewrite HH. }
  split_and!; [done|by rewrite HH2|]. exists inf2. split_and!; [done..| |].
  - intros i c Hic. apply Hm. rewrite Hc1. destruct (decide (Z.to_nat (ch_chunkIndex v) = i)) as [<-|].
    + rewrite list_lookup_insert_eq by lia. apply Hs in Hic. congruence.
    + by rewrite list_lookup_insert_ne.
  - intros w [->|Hw]%elem_of_cons; [|by apply Hv2]. apply Hm. rewrite Hc1. apply list_lookup_insert_eq. lia.
Qed.
End Chunks.

(** ** The properties of a group *)

Section Group.
Context `{EthLib, Codec}.
Implicit Types (env : Env (gmap string GdmStreamModel) GDMChannel.GDMChannel).

(** What the properties of a group depend on *)
Definition meta env : GDMChannel.GDMChannel * (option ChannelProperties * option string * option string) :=
  let m := GDMChannel.gdmStreamModel env in
  (self env, (gdm_metadata m, gdm_metadataEventId m, gdm_latestMetadataEventId m)).

(** The group shows the properties of the event [h], the latest. *)
Definition shows (h : string) (properties : ChannelProperties) env : Prop :=
  (meta env).2 = (Some properties, Some h, Some h).
Definition latest (h : string) env : Prop := (meta env).2.2 = Some h.

(** The view of the properties and its group have the same stream. *)
Definition same_stream env : Prop :=
  ChannelMetadata.streamId (GDMChannel.channelMetadata (self env)) = GDMChannel.streamId (self env).

Lemma keeps_set_last sid ms :
  keeps meta (on_view (gdm_setLastEventCreatedAtEpochMs sid ms) : GDMChannel.GM unit).
Proof.
  apply keeps_modify. intros env. unfold meta, GDMChannel.gdmStreamModel. simpl.
  unfold gdm_setLastEventCreatedAtEpochMs. rewrite get_update. case_decide; [by subst|done].
Qed.
#[local] Hint Resolve keeps_set_last : keeps.

Lemma keeps_meta_last p st : keeps meta (GDMChannel.updateLastEvent p st).
Proof. unfold GDMChannel.updateLastEvent. keeps. Qed.
#[local] Hint Resolve keeps_meta_last : keeps.
Lemma keeps_meta_prependEvent o ct enc st : keeps meta (GDMChannel.prependEvent o ct enc st).
Proof. unfold GDMChannel.prependEvent, remoteOf. keeps. Qed.
Lemma keeps_meta_local o st : keeps meta (GDMChannel.onAppendLocalEvent o st).
Proof. unfold GDMChannel.onAppendLocalEvent. keeps. Qed.

Definition properties_event (ev : StreamEvent) : bool :=
  match ev_payload ev with P_gdmChannelPayload (GDMP_channelProperties _) => true | _ => false end.

Lemma keeps_meta_appendEvent o ct enc st env :
  properties_event <$> payload_at env o ≠ Some true →
  meta (post (GDMChannel.appendEvent o ct enc st) env) = meta env.
Proof.
  intros Hp. unfold GDMChannel.appendEvent, payload_at, properties_event in *.
  destruct (get_obj o (heap env)) as [e|] eqn:He.
  2: { unfold remoteOf. rewrite post_bind, post_bind_dangling by done.
       by destruct (res _ _) as [[]|] eqn:E; [unfold remoteOf, res in E; cbv [mbind M_bind] in E;
         rewrite deref_run, He in E|]. }
  simpl in Hp. destruct (ste_remoteEvent e) as [p|] eqn:Hr.
  2: { unfold remoteOf, post. cbv [mbind M_bind]. rewrite deref_run, He. simpl. by rewrite Hr. }
  simpl in Hp. match goal with |- context [remoteOf o ≫= ?k] =>
    destruct (remoteOf_run o e p k env He Hr) as [-> _] end.
  destruct (ev_payload (pe_event p)) as [| | | | | | | | | | |[]|]; try done;
    match goal with |- meta (post ?m ?s) = _ => assert (keeps meta m) as Hk by keeps; apply Hk end.
Qed.
(** A decrypted event counts when nothing is shown yet or it is the latest. *)
Definition counts (id : string) (m : option ChannelProperties * option string * option string) : bool :=
  negb (truthy m.1.2) || negb (isDefined m.1.1) || bool_decide (m.2 = Some id).

Lemma meta_decrypted id q st env :
  same_stream env →
  meta (post (GDMChannel.onDecryptedContent id (DC_channelProperties q) st) env)
  = let m := (meta env).2 in
    (self env, if counts id m then (Some q, Some id, m.2) else m).
Proof.
  intros Hs. unfold GDMChannel.onDecryptedContent, GDMChannel.on_metadata, ChannelMetadata.onDecryptedContent,
    ChannelMetadata.handleDecryptedContent. rewrite post_zoom. run.
  match goal with |- context [whenM ?b _] => assert (b = counts id (meta env).2) as -> end.
  { unfold counts, meta, GDMChannel.gdmStreamModel, ChannelMetadata.gdmStreamModel. simpl. by rewrite Hs. }
  destruct env as [hp vw [sid [sid']]]. unfold same_stream in Hs. simpl in Hs. subst sid'.
  destruct (counts _ _); simpl whenM; run_env; [|done]. unfold meta, GDMChannel.gdmStreamModel. simpl.
  unfold setMetadata. by rewrite get_update, decide_True.
Qed.

(** What may happen between events of the properties: events of any other kind,
    local events, and decrypted contents of the events that [P] allows *)
Inductive gstep (P : string → Prop) : relation (Env (gmap string GdmStreamModel) GDMChannel.GDMChannel) :=
  | G_prepend o ct enc st env : gstep P env (post (GDMChannel.prependEvent o ct enc st) env)
  | G_append o ct enc st env :
      properties_event <$> payload_at env o ≠ Some true →
      gstep P env (post (GDMChannel.appendEvent o ct enc st) env)
  | G_local o st env : gstep P env (post (GDMChannel.onAppendLocalEvent o st) env)
  | G_decrypted id content st env :
      P id → gstep P env (post (GDMChannel.onDecryptedContent id content st) env).

Lemma gstep_meta P env env' :
  gstep P env env' → same_stream env →
  meta env' = meta env ∨ ∃ id q, P id ∧ counts id (meta env).2 = true
                        ∧ meta env' = (self env, (Some q, Some id, (meta env).2.2)).
Proof.
  intros Hst Hs. destruct Hst as [o ct enc st env|o ct enc st env Hp|o st env|id content st env HP].
  - left. apply keeps_meta_prependEvent.
  - left. by apply keeps_meta_appendEvent.
  - left. apply keeps_meta_local.
  - destruct content; try by left.
    rewrite meta_decrypted by done. cbv zeta. destruct (counts id _) eqn:Hc; [right; eauto|by left].
Qed.

Lemma gsteps_latest P h env env' :
  rtc (gstep P) env env' → same_stream env → latest h env → same_stream env' ∧ latest h env'.
Proof.
  induction 1 as [|e1 e2 e3 Hst _ IH]; intros Hs Hl; [done|].
  destruct (gstep_meta P e1 e2 Hst Hs) as [Hm|(id & q & _ & _ & Hm)]; apply IH;
    unfold same_stream, latest in *; change (self e2) with (meta e2).1; by rewrite Hm.
Qed.

Lemma gsteps_shows h q env env' :
  h ≠ "" → rtc (gstep (.≠ h)) env env' → same_stream env → shows h q env → shows h q env'.
Proof.
  intros Hh. induction 1 as [|e1 e2 e3 Hst _ IH]; intros Hs Hq; [done|].
  destruct (gstep_meta _ e1 e2 Hst Hs) as [Hm|(id & q' & Hid & Hc & Hm)].
  - apply IH; unfold same_stream, shows in *; change (self e2) with (meta e2).1; by rewrite Hm.
  - unfold shows in Hq. rewrite Hq in Hc. unfold counts in Hc. simpl in Hc.
    rewrite bool_decide_false in Hc by naive_solver. unfold truthy, truthy_str in Hc.
    apply String.eqb_neq in Hh. by rewrite Hh in Hc.
Qed.
End Group.

(** ** Theorems *)

Section ContentTheorems.
Context `{EthLib, Codec}.

(** C29. The image of a space is never stale. Images arrive, are asked for and
    finish decrypting in any order; whenever somebody asks for the image after
    [data] was the last to arrive, they get a promise of the decryption of
    [data], or the image that [data] decrypts to. *)
Theorem space_image_latest (decrypt : EncryptedData → option ChunkedMedia) sid ops data :
  isSpaceStreamId (SStr sid) = true → last (omap arrival ops) = Some data →
  let '(promise, s) := getSpaceImage (foldl (image_op decrypt) (Space.new sid) ops) in
  match promise with
  | Running ref => ∃ d, d ∈ running s ∧ im_ref d = ref ∧ im_data d = data
  | Resolved image => ∀ img, decrypt data = Some img → image = Some img
  end.
Proof.
  intros Hid Hl. assert (Ha : is_Ok (contractAddressFromSpaceId sid) = true).
  { unfold contractAddressFromSpaceId, checkR. by rewrite Hid. }
  pose proof (image_run decrypt sid ops Ha) as HI. set (s := foldl _ _ ops) in *.
  pose proof (image_ask decrypt sid _ s Ha HI) as HA. rewrite Hl in *. simpl in HA.
  unfold getSpaceImage in *. destruct (encryptedSpaceImage s) as [[id d]|] eqn:He.
  - destruct (ii_waiting _ _ _ _ HI id d He) as ([= ->] & _). simpl.
    destruct (ii_taken _ _ _ _ HA (im_data d)) as [(d' & Hr & Hd & Hp)|[Hp _]]; [|done|exists d'|done].
    { simpl. by rewrite decryptSpaceImage_waiting. }
    simpl in Hp. split_and!; [done|congruence|done].
  - destruct (ii_taken _ _ _ _ HI data He eq_refl) as [(d & Hr & Hd & Hp)|[Hp Hi]]; rewrite Hp; [|done].
    by exists d.
Qed.

(** The properties of a group converge to those of the latest event: once the
    event [h] of the properties has arrived and is decrypted, they are shown, with
    other events and decryptions, of older events too, before and after. *)
Theorem group_properties_latest o e p payload enc st st' q env env2 env4 :
  same_stream env → get_obj o (heap env) = Some e → ste_remoteEvent e = Some p →
  ev_payload (pe_event p) = P_gdmChannelPayload (GDMP_channelProperties payload) →
  ste_hashStr e ≠ "" →
  rtc (gstep (λ _, True)) (post (GDMChannel.appendEvent o None enc st) env) env2 →
  rtc (gstep (.≠ ste_hashStr e))
    (post (GDMChannel.onDecryptedContent (ste_hashStr e) (DC_channelProperties q) st') env2) env4 →
  gdm_metadata (GDMChannel.gdmStreamModel env4) = Some q
  ∧ gdm_metadataEventId (GDMChannel.gdmStreamModel env4) = Some (ste_hashStr e).
Proof.
  intros Hs He Hr Hp Hh Hw Hk. set (h := ste_hashStr e) in *.
  assert (Hm : (self (post (GDMChannel.appendEvent o None enc st) env) = self env)
    ∧ latest h (post (GDMChannel.appendEvent o None enc st) env)).
  { unfold GDMChannel.appendEvent. match goal with |- context [remoteOf o ≫= ?k] =>
      destruct (remoteOf_run o e p k env He Hr) as [-> _] end.
    rewrite Hp. unfold GDMChannel.on_metadata, ChannelMetadata.appendEvent. rewrite post_zoom.
    match goal with |- context [post (remoteOf o ≫= ?k) ?s] =>
      destruct (remoteOf_run o e p k s He Hr) as [-> _] end.
    rewrite Hp. unfold ChannelMetadata.decryptPayload. simpl truthy_cleartext. cbv iota. run_env.
    destruct env as [hp vw [sid [sid']]]. unfold same_stream in Hs. simpl in Hs. subst sid'.
    split; [done|]. unfold latest, meta, GDMChannel.gdmStreamModel. simpl.
    unfold setLatestMetadataEventId. by rewrite get_update, decide_True. }
  destruct Hm as [Hself Hl]. destruct (gsteps_latest _ h _ _ Hw) as [Hs2 Hl2]; [by unfold same_stream; rewrite Hself|done|].
  assert (Hq : meta (post (GDMChannel.onDecryptedContent h (DC_channelProperties q) st') env2)
               = (self env2, (Some q, Some h, Some h))).
  { rewrite meta_decrypted by done. cbv zeta. unfold latest in Hl2. unfold counts. rewrite Hl2.
    rewrite bool_decide_true by done. by rewrite orb_true_r. }
  assert (Hs3 : same_stream (post (GDMChannel.onDecryptedContent h (DC_channelProperties q) st') env2)).
  { unfold same_stream. pose proof (f_equal fst Hq) as Hf. unfold meta, fst in Hf.
    by rewrite Hf. }
  pose proof (gsteps_shows h q _ _ Hh Hk Hs3 (f_equal snd Hq)) as Hq4.
  unfold shows, meta in Hq4. simpl in Hq4. by simplify_eq.
Qed.

(** The time of the last event of a direct message is the latest time of its
    messages, whatever the order they arrive in, appended or prepended: it is the
    maximum of what it was and the times of the events, none of which is refused. *)
Theorem dm_last_event enc st ops events env :
  Forall2 (λ op ev, payload_at env op.2 = Some ev ∧ dm_event ev = true) ops events →
  let m := forM ops (both_ways DMChannel.content enc st) in
  res m env = Ok tt
  ∧ DMChannel.lastEventCreatedAtEpochMs (post m env)
    = foldl Z.max (DMChannel.lastEventCreatedAtEpochMs env) (ev_createdAtEpochMs <$> events).
Proof.
  revert ops env. induction events as [|ev events IH]; intros ops env Hops.
  { by apply Forall2_nil_inv_r in Hops as ->. }
  apply Forall2_cons_inv_r in Hops as ([b o] & ops' & [Hp Hd] & Hops & ->). simpl.
  destruct (dm_one enc st b o ev env Hp Hd) as (HR & HH & _ & HL).
  rewrite (res_bind_ok _ _ _ _ HR), (post_bind_ok _ _ _ _ HR), <- HL. apply IH.
  eapply Forall2_impl; [done|]. intros op ev' [Hp' Hd']. split; [|done]. unfold payload_at in *. by rewrite HH.
Qed.

(** C32. A file is put together whatever the order of its chunks: after the
    inception of a media stream, chunk events in any order, appended or
    prepended, with repetitions, are accepted, and once each chunk has come the
    stream holds exactly the chunks of the file. A chunk outside the announced
    number is refused and changes nothing. *)
Theorem media_reassembled file inception ops vs enc st env :
  mdi_chunkCount inception = Z.of_nat (length file) →
  let env1 := post (Media.applySnapshot {| mds_inception := Some inception |}) env in
  res (Media.applySnapshot {| mds_inception := Some inception |}) env = Ok tt →
  Forall2 (λ op v, chunk_at env op.2 = Some v ∧ chunk_in file v) ops vs →
  (∀ i, (i < length file)%nat → Z.of_nat i ∈ ch_chunkIndex <$> vs) →
  let env2 := post (forM ops (both_ways Media.content enc st)) env1 in
  res (forM ops (both_ways Media.content enc st)) env1 = Ok tt
  ∧ Media.chunks <$> Media.info (self env2) = Some (Some <$> file)
  ∧ ∀ b o v, chunk_at env o = Some v → ¬ 0 <= ch_chunkIndex v < Z.of_nat (length file) →
      let m := both_ways Media.content enc st (b, o) in
      res m env2 = Throw (PlainError "chunkIndex out of bounds") ∧ post m env2 = env2.
Proof.
  intros Hn env1 Hr Hops Hall env2.
  assert (∃ inf, Media.info (self env1) = Some inf ∧ heap env1 = heap env ∧ chunks_of file inf) as (inf & Hi & Hh & Hc).
  { subst env1. revert Hr. unfold Media.applySnapshot. simpl. destruct (_ || _); [done|].
    rewrite res_bind, post_bind. destruct (res (match mdi_userId inception with _ => _ end) env) as [u|] eqn:Hu; [|done].
    assert (post (match mdi_userId inception with Some userId => liftR (userIdFromAddress userId) | None => mret "" end) env = env)
      as -> by (by destruct (mdi_userId inception) as [a|]; [destruct (userIdFromAddress a)|]).
    destruct (mdi_chunkCount inception <? 0); [done|]. run_env. intros _. eexists. split_and!; [done..|].
    rewrite Hn, Nat2Z.id. split; simpl; [done|by rewrite length_replicate|].
    intros i c [? ?]%lookup_replicate. done. }
  assert (Hops1 : Forall2 (λ op v, chunk_at env1 op.2 = Some v ∧ chunk_in file v) ops vs).
  { unfold chunk_at, payload_at. by rewrite Hh. }
  destruct (chunks_run enc st file ops vs env1 inf Hi Hc Hops1) as (HR & HH & inf2 & Hi2 & Hc2 & _ & Hv).
  fold env2 in HH, Hi2. split; [done|]. split.
  - rewrite Hi2. simpl. f_equal. apply list_eq_same_length with (length file); [|apply (co_length _ _ Hc2)|].
    { by rewrite length_fmap. }
    intros i x y Hi' Hx Hy. rewrite list_lookup_fmap in Hy.
    apply fmap_Some in Hy as (c & Hf & ->).
    pose proof (Hall i Hi') as (v & Hvi & Hin)%list_elem_of_fmap. specialize (Hv v Hin).
    rewrite <- Hvi, Nat2Z.id in Hv. rewrite Hx in Hv. injection Hv as ->.
    f_equal. apply (co_sound _ _ Hc2) in Hx. congruence.
  - intros b o v Hov Hout. pose proof (chunk_run enc st b o v inf2 env2) as Hcr. cbv zeta in Hcr.
    rewrite (co_count _ _ Hc2) in Hcr. replace (_ && _) with false in Hcr.
    { apply Hcr; [|done]. unfold chunk_at, payload_at in *. by rewrite HH, Hh. }
    symmetry. apply andb_false_iff. rewrite Z.leb_gt, Z.ltb_ge. lia.
Qed.
End ContentTheorems.

(** ** Examples *)

Module ContentWitness.
Import ModelEth Fixtures.

Definition spaceId : string := "10" +:+ Str.repeat "a"%char 62.
Definition image (name : string) : ChunkedMedia := {|
  cmd_info := None; cmd_streamId := name; cmd_thumbnail := None; cmd_encryption := None |}.
Definition decrypt (data : EncryptedData) : option ChunkedMedia := Some (image (ed_ciphertext data)).
(** The older decryption settles last. *)
Definition imageOps : list ImageOp :=
  [Arrive "1" (encrypted "old"); Ask; Arrive "2" (encrypted "new"); Ask; Settle 1; Settle 0].

Lemma space_image_latest_witness :
  (getSpaceImage (foldl (image_op decrypt) (Space.new spaceId) imageOps)).1 = Resolved (Some (image "new")).
Proof.
  pose proof (space_image_latest decrypt spaceId imageOps (encrypted "new")) as H.
  destruct (getSpaceImage _) as [p s] eqn:E. assert (Hp : p = (p, s).1) by reflexivity. rewrite <- E in Hp.
  destruct p as [ref|img].
  - vm_compute in Hp. discriminate.
  - simpl. f_equal. apply H; [vm_compute; reflexivity|vm_compute; reflexivity|reflexivity].
Defined.

(** Nothing of the kind holds for profile images: the older image is shown. *)
Lemma profile_image_stale :
  let s0 := {| UserMetadata.streamId := ""; UserMetadata.streamCreatorId := "";
               UserMetadata.profileImage := None; UserMetadata.encryptedProfileImage := Some (encrypted "old");
               UserMetadata.bio := None; UserMetadata.encryptedBio := None;
               UserMetadata.imageInProgress := false; UserMetadata.bioInProgress := false;
               UserMetadata.running := []; UserMetadata.deviceKeys := [] |} in
  let s1 := (UserMetadata.getProfileImage s0).2 in
  let s2 := self (post (UserMetadata.addProfileImage (encrypted "new") false) (Build_Env empty_heap tt s1)) in
  let s3 := (UserMetadata.getProfileImage s2).2 in
  let s4 := UserMetadata.settleImage 1 (decrypt (encrypted "new")) s3 in
  let s5 := UserMetadata.settleImage 0 (decrypt (encrypted "old")) s4 in
  UserMetadata.encryptedProfileImage s5 = None ∧ UserMetadata.running s5 = []
  ∧ UserMetadata.profileImage s5 = Some (image "old").
Proof. split_and!; reflexivity. Qed.

Definition gdmId : string := "77" +:+ Str.repeat "a"%char 62.
Definition properties (hash : byte) : StreamTimelineEvent :=
  remote hash x0a (P_gdmChannelPayload (GDMP_channelProperties (encrypted "p"))).
Definition group : Env (gmap string GdmStreamModel) GDMChannel.GDMChannel :=
  post (GDMChannel.appendEvent O None true true)
    (Build_Env (heap_of [properties x01; properties x02]) ∅ (GDMChannel.new gdmId)).
Definition named (name : string) : ChannelProperties := {| cpr_name := name; cpr_topic := "" |}.

(** The old event is decrypted before and after the new one. *)
Lemma group_properties_latest_witness :
  let env2 := post (GDMChannel.onDecryptedContent "01" (DC_channelProperties (named "old")) true)
                (post (GDMChannel.appendEvent 1%nat None true true) group) in
  let env3 := post (GDMChannel.onDecryptedContent "02" (DC_channelProperties (named "new")) true) env2 in
  let env4 := post (GDMChannel.onDecryptedContent "01" (DC_channelProperties (named "old")) true) env3 in
  gdm_metadata (GDMChannel.gdmStreamModel env4) = Some (named "new").
Proof.
  intros env2 env3 env4.
  destruct (group_properties_latest 1%nat (properties x02)
    (parsed x02 x0a (P_gdmChannelPayload (GDMP_channelProperties (encrypted "p")))) (encrypted "p")
    true true true (named "new") group env2 env4) as [H _].
  - vm_compute. reflexivity.
  - vm_compute. reflexivity.
  - reflexivity.
  - reflexivity.
  - vm_compute. discriminate.
  - unfold env2. eapply rtc_l; [apply G_decrypted; exact I|apply rtc_refl].
  - unfold env4, env3. eapply rtc_l; [|apply rtc_refl].
    apply (G_decrypted (.≠ "02") "01" (DC_channelProperties (named "old")) true). discriminate.
  - exact H.
Defined.

Definition dmMessage (hash : byte) (at_ : Z) : StreamTimelineEvent :=
  let p := parsed hash x0a (P_dmChannelPayload (DMP_message (encrypted "m"))) in
  makeRemoteTimelineEvent
    {| pe_event := {| ev_creatorAddress := addr x0a; ev_delegateSig := []; ev_salt := [];
         ev_prevMiniblockHash := None; ev_createdAtEpochMs := at_; ev_delegateExpiryEpochMs := 0; ev_tags := None;
         ev_prevMiniblockNum := None; ev_payload := P_dmChannelPayload (DMP_message (encrypted "m")) |};
       pe_hash := [hash]; pe_hashStr := bin_toHexString [hash]; pe_signature := None;
       pe_creatorUserId := user x0a |} 0 None None.
Definition chat : Env (gmap string DmStreamModel) DMChannel.DMChannel :=
  Build_Env (heap_of [dmMessage x01 7; dmMessage x02 9]) ∅ (DMChannel.new ("88" +:+ Str.repeat "a"%char 62)).

Lemma dm_last_event_witness :
  DMChannel.lastEventCreatedAtEpochMs
    (post (forM [(true, 1%nat); (false, O)] (both_ways DMChannel.content true true)) chat) = 9.
Proof.
  destruct (dm_last_event true true [(true, 1%nat); (false, O)]
    (omap (payload_at chat) [1%nat; O]) chat) as [_ H].
  - vm_compute. repeat constructor.
  - etrans; [exact H|vm_compute; reflexivity].
Defined.

(** A local event sets the time to the clock of the device, also an earlier one. *)
Lemma local_event_decreases :
  let env1 := post (DMChannel.appendEvent 1%nat None true true) chat in
  let env2 := post (DMChannel.onAppendLocalEvent O true) env1 in
  DMChannel.lastEventCreatedAtEpochMs env1 = 9 ∧ DMChannel.lastEventCreatedAtEpochMs env2 = 7.
Proof. split; vm_compute; reflexivity. Qed.

Definition inception : MDP_Inception := {|
  mdi_streamId := []; mdi_channelId := None; mdi_chunkCount := 2; mdi_settings := None;
  mdi_spaceId := Some []; mdi_userId := None; mdi_perChunkEncryption := None |}.
Definition chunk (index : Z) (data : bytes) : MDP_Chunk :=
  {| ch_data := data; ch_chunkIndex := index; ch_iv := None |}.
Definition chunkEvent (hash : byte) (v : MDP_Chunk) : StreamTimelineEvent :=
  remote hash x0a (P_mediaPayload (MDP_chunk v)).
Definition media : Env unit Media.Media :=
  Build_Env (heap_of [chunkEvent x01 (chunk 0 [x0a]); chunkEvent x02 (chunk 1 [x0b])]) tt
    (Media.new ("ff" +:+ Str.repeat "a"%char 62)).

Lemma media_reassembled_witness :
  Media.chunks <$> Media.info (self (post (forM [(true, 1%nat); (false, O)] (both_ways Media.content true true))
    (post (Media.applySnapshot {| mds_inception := Some inception |}) media))) = Some [Some [x0a]; Some [x0b]].
Proof.
  destruct (media_reassembled [[x0a]; [x0b]] inception [(true, 1%nat); (false, O)]
    [chunk 1 [x0b]; chunk 0 [x0a]] true true media) as (_ & H & _).
  - reflexivity.
  - vm_compute. reflexivity.
  - repeat (constructor; [split; [vm_compute; reflexivity|split; [vm_compute; discriminate|vm_compute; reflexivity]]|]).
    constructor.
  - intros [|[|i]] Hi; [right; left|left|simpl in Hi; lia].
  - exact H.
Defined.
End ContentWitness.
