(* ===== verification/StreamState.v ===== *)
(** * StreamState: the state of one stream (sdk/src/streamStateView.ts)

    A stream view owns a content, chosen by the kind of its id, the members,
    and the pool of events that no miniblock has confirmed yet. The stores of
    the [StreamsView] and the event objects are shared with the other streams;
    a method runs on an [Env] whose view is the [StreamsView] and whose self is
    the stream view. *)

From stdpp Require Import pretty.
From S2P Require Import Prelude JsLib JsMap Ids Proto Types TimelineTypes StreamEvents StreamViews Content Members Timelines TimelinesView Channels Space UserStreams Migrations.

(** ** StreamsView (views/streamsView.ts)

    The stores that streams write to; those derived from them are not part of
    a stream. *)

Record StreamsView := {
  sv_streamStatus : gmap string StreamStatusModel;
  sv_streamMemberIds : StreamMemberIds;
  sv_spaceStreams : SpaceStreams;
  sv_dmStreams : DMChannel.DmStreams;
  sv_gdmStreams : GDMChannel.GdmStreams;
  sv_userStreams : User.Store;
  sv_userSettingsStreams : UserSettings.Store;
  sv_timelinesView : TimelinesView;
}.
#[export] Instance eta_StreamsView : Eta StreamsView := λ r,
  Build_StreamsView (sv_streamStatus r) (sv_streamMemberIds r) (sv_spaceStreams r)
    (sv_dmStreams r) (sv_gdmStreams r) (sv_userStreams r) (sv_userSettingsStreams r)
    (sv_timelinesView r).

Definition new_StreamsView (userId : string) (delegate : option (TimelineEvent → bool))
    : StreamsView := {|
  sv_streamStatus := ∅; sv_streamMemberIds := ∅; sv_spaceStreams := ∅; sv_dmStreams := ∅;
  sv_gdmStreams := ∅; sv_userStreams := ∅; sv_userSettingsStreams := ∅;
  sv_timelinesView := TimelinesView.new userId delegate |}.

(** ** StreamStateView *)

(** The one content that is defined; it determines [contentKind]. *)
Inductive StreamContent :=
  | C_space (c : Space.Space)
  | C_channel (c : Channel.Channel)
  | C_dmChannel (c : DMChannel.DMChannel)
  | C_gdmChannel (c : GDMChannel.GDMChannel)
  | C_user (c : User.User)
  | C_userSettings (c : UserSettings.UserSettings)
  | C_userMetadata (c : UserMetadata.UserMetadata)
  | C_userInbox (c : UserInbox.UserInbox)
  | C_media (c : Media.Media).

Definition contentKind (c : StreamContent) : SnapshotCase :=
  match c with
  | C_space _ => spaceContent
  | C_channel _ => channelContent
  | C_dmChannel _ => dmChannelContent
  | C_gdmChannel _ => gdmChannelContent
  | C_user _ => userContent
  | C_userSettings _ => userSettingsContent
  | C_userMetadata _ => userMetadataContent
  | C_userInbox _ => userInboxContent
  | C_media _ => mediaContent
  end.

Definition SnapshotCase_str (k : SnapshotCase) : string :=
  match k with
  | spaceContent => "spaceContent"
  | channelContent => "channelContent"
  | userContent => "userContent"
  | userSettingsContent => "userSettingsContent"
  | userMetadataContent => "userMetadataContent"
  | mediaContent => "mediaContent"
  | dmChannelContent => "dmChannelContent"
  | gdmChannelContent => "gdmChannelContent"
  | userInboxContent => "userInboxContent"
  end.

Record MiniblockInfo := { mbi_max : Z; mbi_min : Z; mbi_terminusReached : bool }.
#[export] Instance eta_MiniblockInfo : Eta MiniblockInfo := λ r,
  Build_MiniblockInfo (mbi_max r) (mbi_min r) (mbi_terminusReached r).

Record StreamStateView := {
  ssv_streamId : string;
  ssv_userId : string;
  ssv_content : StreamContent;
  minipoolEvents : jsmap string ObjId;
  prevMiniblockHash : option bytes;
  prevMiniblockNum : option Z;
  lastEventNum : Z;
  prevSnapshotMiniblockNum : Z;
  miniblockInfo : option MiniblockInfo;
  syncCookie : option SyncCookie;
  membershipContent : Members.Members;
}.
#[export] Instance eta_StreamStateView : Eta StreamStateView := λ r,
  Build_StreamStateView (ssv_streamId r) (ssv_userId r) (ssv_content r) (minipoolEvents r)
    (prevMiniblockHash r) (prevMiniblockNum r) (lastEventNum r) (prevSnapshotMiniblockNum r)
    (miniblockInfo r) (syncCookie r) (membershipContent r).

Abbreviation SEnv := (Env StreamsView StreamStateView).
Abbreviation SM := (M Emit SEnv).

Section StreamState.
Context `{EthLib, Codec, Lodash}.

(** The content that the constructor makes for an id *)
Definition newContent (streamId : string) : Res StreamContent :=
  let id := SStr streamId in
  if isSpaceStreamId id then Ok (C_space (Space.new streamId))
  else if isChannelStreamId id then Ok (C_channel (Channel.new streamId))
  else if isDMChannelStreamId id then Ok (C_dmChannel (DMChannel.new streamId))
  else if isGDMChannelStreamId id then Ok (C_gdmChannel (GDMChannel.new streamId))
  else if isMediaStreamId id then Ok (C_media (Media.new streamId))
  else if isUserStreamId id then Ok (C_user (User.new streamId))
  else if isUserSettingsStreamId id then Ok (C_userSettings (UserSettings.new streamId))
  else if isUserDeviceStreamId id then C_userMetadata <$> UserMetadata.new streamId
  else if isUserInboxStreamId id then Ok (C_userInbox (UserInbox.new streamId))
  else if isMetadataStreamId id
  then Throw (CodeException "Metadata streams are not supported in SDK" UNIMPLEMENTED)
  else Throw (PlainError ("Stream doesn't have a content kind " +:+ streamId)).

Definition new (userId streamId : string) : Res StreamStateView :=
  content ← newContent streamId;
  Ok {| ssv_streamId := streamId;
        ssv_userId := userId;
        ssv_content := content;
        minipoolEvents := ∅;
        prevMiniblockHash := None;
        prevMiniblockNum := None;
        lastEventNum := 0;
        prevSnapshotMiniblockNum := 0;
        miniblockInfo := None;
        syncCookie := None;
        membershipContent := Members.new streamId |}.

(** ** The parts of a stream *)

Definition on_members {A} (m : M Emit (Env StreamMemberIds Members.Members) A) : SM A :=
  zoom (λ env, Build_Env (heap env) (sv_streamMemberIds (view env)) (membershipContent (self env)))
       (λ e env, env <| heap := heap e |>
                     <| view ::= λ v, v <| sv_streamMemberIds := view e |> |>
                     <| self ::= λ s, s <| membershipContent := self e |> |>) m.

Definition on_timelines {A} (m : M Emit TimelinesView A) : SM A :=
  zoom (λ env, sv_timelinesView (view env))
       (λ t env, env <| view ::= λ v, v <| sv_timelinesView := t |> |>) m.

(** A method of the content object [c], which [wrap] makes the stream's *)
Definition on_object {V X A} (get : StreamsView → V) (put : V → StreamsView → StreamsView)
    (wrap : X → StreamContent) (c : X) (m : M Emit (Env V X) A) : SM A :=
  zoom (λ env, Build_Env (heap env) (get (view env)) c)
       (λ e env, env <| heap := heap e |>
                     <| view ::= put (view e) |>
                     <| self ::= λ s, s <| ssv_content := wrap (self e) |> |>) m.

Definition on_space {A} (c : Space.Space) (m : M Emit (Env SpaceStreams Space.Space) A) : SM A :=
  on_object sv_spaceStreams (λ t v, v <| sv_spaceStreams := t |>) C_space c m.
Definition on_channel {A} (c : Channel.Channel) (m : M Emit (Env unit Channel.Channel) A) : SM A :=
  on_object (λ _, tt) (λ _ v, v) C_channel c m.
Definition on_dmChannel {A} (c : DMChannel.DMChannel)
    (m : M Emit (Env DMChannel.DmStreams DMChannel.DMChannel) A) : SM A :=
  on_object sv_dmStreams (λ t v, v <| sv_dmStreams := t |>) C_dmChannel c m.
Definition on_gdmChannel {A} (c : GDMChannel.GDMChannel)
    (m : M Emit (Env GDMChannel.GdmStreams GDMChannel.GDMChannel) A) : SM A :=
  on_object sv_gdmStreams (λ t v, v <| sv_gdmStreams := t |>) C_gdmChannel c m.
Definition on_user {A} (c : User.User) (m : M Emit (Env User.Store User.User) A) : SM A :=
  on_object sv_userStreams (λ t v, v <| sv_userStreams := t |>) C_user c m.
Definition on_userSettings {A} (c : UserSettings.UserSettings)
    (m : M Emit (Env UserSettings.Store UserSettings.UserSettings) A) : SM A :=
  on_object sv_userSettingsStreams (λ t v, v <| sv_userSettingsStreams := t |>) C_userSettings c m.
Definition on_userMetadata {A} (c : UserMetadata.UserMetadata)
    (m : M Emit (Env unit UserMetadata.UserMetadata) A) : SM A :=
  on_object (λ _, tt) (λ _ v, v) C_userMetadata c m.
Definition on_userInbox {A} (c : UserInbox.UserInbox)
    (m : M Emit (Env unit UserInbox.UserInbox) A) : SM A :=
  on_object (λ _, tt) (λ _ v, v) C_userInbox c m.
Definition on_media {A} (c : Media.Media) (m : M Emit (Env unit Media.Media) A) : SM A :=
  on_object (λ _, tt) (λ _ v, v) C_media c m.

(** [this.getContent().<op>(...)] *)
Definition getContent {A} (op : ∀ V X, AbstractContent V X → M Emit (Env V X) A) : SM A :=
  this ← gets self;
  match ssv_content this with
  | C_channel c => on_channel c (op _ _ Channel.content)
  | C_dmChannel c => on_dmChannel c (op _ _ DMChannel.content)
  | C_gdmChannel c => on_gdmChannel c (op _ _ GDMChannel.content)
  | C_space c => on_space c (op _ _ Space.content)
  | C_user c => on_user c (op _ _ User.content)
  | C_userSettings c => on_userSettings c (op _ _ UserSettings.content)
  | C_userMetadata c => on_userMetadata c (op _ _ UserMetadata.content)
  | C_userInbox c => on_userInbox c (op _ _ UserInbox.content)
  | C_media c => on_media c (op _ _ Media.content)
  end.

Definition isInitialized (env : SEnv) : bool :=
  sst_isInitialized (get StreamStatus_default (ssv_streamId (self env)) (sv_streamStatus (view env))).
Definition timeline (env : SEnv) : list TimelineEvent :=
  default [] (timelines (tv_value (sv_timelinesView (view env))) !! ssv_streamId (self env)).
(** ** applySnapshot *)

(** [check(isDefined(this._<name>), `<name> not defined for ${this.contentKind}`)] *)
Definition notDefined {A} (name : string) (this : StreamStateView) : SM A :=
  throwWithCode (name +:+ " not defined for " +:+ SnapshotCase_str (contentKind (ssv_content this)))
    ERR_UNSPECIFIED.

Definition applySnapshot_content (this : StreamStateView) (content : Snapshot_content)
    (cleartexts : Cleartexts) (encryptionEmitter : bool) : SM unit :=
  match content with
  | SC_spaceContent v =>
      match ssv_content this with
      | C_space c => on_space c (Space.applySnapshot v)
      | _ => notDefined "spaceContent" this
      end
  | SC_channelContent v =>
      match ssv_content this with
      | C_channel c => on_channel c (Channel.applySnapshot v)
      | _ => notDefined "channelContent" this
      end
  | SC_dmChannelContent v =>
      match ssv_content this with
      | C_dmChannel c => on_dmChannel c (DMChannel.applySnapshot v)
      | _ => notDefined "dmChannelContent" this
      end
  | SC_gdmChannelContent v =>
      match ssv_content this with
      | C_gdmChannel c => on_gdmChannel c (GDMChannel.applySnapshot v cleartexts encryptionEmitter)
      | _ => notDefined "gdmChannelContent" this
      end
  | SC_mediaContent v =>
      match ssv_content this with
      | C_media c => on_media c (Media.applySnapshot v)
      | _ => notDefined "mediaContent" this
      end
  | SC_userContent v =>
      match ssv_content this with
      | C_user c => on_user c (User.applySnapshot v encryptionEmitter)
      | _ => notDefined "userContent" this
      end
  | SC_userMetadataContent v =>
      match ssv_content this with
      | C_userMetadata c => on_userMetadata c (UserMetadata.applySnapshot v encryptionEmitter)
      | _ => notDefined "userMetadataContent" this
      end
  | SC_userSettingsContent v =>
      match ssv_content this with
      | C_userSettings c => on_userSettings c (UserSettings.applySnapshot v)
      | _ => notDefined "userSettingsContent" this
      end
  | SC_userInboxContent v =>
      match ssv_content this with
      | C_userInbox c => on_userInbox c (UserInbox.applySnapshot v)
      | _ => notDefined "userInboxContent" this
      end
  | SC_metadataContent =>
      throwWithCode "View for Metadata streams is not implemented in SDK" UNIMPLEMENTED
  | SC_unset => throwWithCode ("Snapshot has no content " +:+ ssv_streamId this) STREAM_BAD_EVENT
  end.

Definition applySnapshot (event : ParsedEvent) (inSnapshot : Snapshot) (cleartexts : Cleartexts)
    (encryptionEmitter : bool) : SM unit :=
  snapshot ← liftR (migrateSnapshot inSnapshot);
  this ← gets self;
  _ ← applySnapshot_content this (sn_content snapshot) cleartexts encryptionEmitter;
  on_members (Members.applySnapshot event snapshot cleartexts encryptionEmitter).

(** ** Miniblock headers *)

(** [update] holds one of [max] and [min]; [0n] is falsy. *)
Definition updateMiniblockInfo (value : MiniblockHeader) (max min : option Z) : SM unit :=
  on_self (λ this,
    match miniblockInfo this with
    | None => this <| miniblockInfo := Some {|
                mbi_max := mh_miniblockNum value;
                mbi_min := mh_miniblockNum value;
                mbi_terminusReached := mh_miniblockNum value =? 0 |} |>
    | Some info =>
        let info := match max with
                    | Some m => if truthy_bigint (Some m) && (mbi_max info <? m)
                                then info <| mbi_max := m |> else info
                    | None => info
                    end in
        let info := match min with
                    | Some m => if truthy_bigint (Some m) && (m <? mbi_min info)
                                then info <| mbi_min := m |> else info
                    | None => info
                    end in
        let info := if (mbi_min info =? 0) || (mbi_max info =? 0)
                    then info <| mbi_terminusReached := true |> else info in
        this <| miniblockInfo := Some info |>
    end).

(** The loop of [processMiniblockHeader], from index [i] on *)
Fixpoint processMiniblockHeader_loop (header : MiniblockHeader) (eventHashes : list bytes) (i : Z)
    (confirmed : list ObjId) (encryptionEmitter stateEmitter : bool) : SM (list ObjId) :=
  match eventHashes with
  | [] => mret confirmed
  | eventHash :: eventHashes =>
      let eventId := bin_toHexString eventHash in
      this ← gets self;
      match minipoolEvents this !! eventId with
      | None => processMiniblockHeader_loop header eventHashes (i + 1) confirmed
                  encryptionEmitter stateEmitter
      | Some event =>
          _ ← on_self (λ s, s <| minipoolEvents ::= delete eventId |>);
          _ ← mutate event (λ e, e <| ste_miniblockNum := Some (mh_miniblockNum header) |>
                                   <| ste_confirmedEventNum := Some (mh_eventNumOffset header + i) |>);
          e ← deref event;
          _ ← check (isConfirmedEvent e) ("Event is not confirmed " +:+ eventId) ERR_UNSPECIFIED;
          _ ← match ste_payload e with
              | P_memberPayload _ => on_members (Members.onConfirmedEvent event stateEmitter)
              | P_unset => mret tt
              | _ => getContent (λ V X C, content_onConfirmedEvent event stateEmitter encryptionEmitter)
              end;
          processMiniblockHeader_loop header eventHashes (i + 1) (confirmed ++ [event])
            encryptionEmitter stateEmitter
      end
  end.

Definition processMiniblockHeader (header : MiniblockHeader) (eventHashes : list bytes)
    (encryptionEmitter stateEmitter : bool) : SM (list ObjId) :=
  processMiniblockHeader_loop header eventHashes 0 [] encryptionEmitter stateEmitter.

(** ** Appended events *)

Definition outOfOrder (header : MiniblockHeader) (this : StreamStateView) : string :=
  "Miniblock number out of order " +:+ pretty (mh_miniblockNum header) +:+ " > " +:+
  match miniblockInfo this with Some info => pretty (mbi_max info) | None => "undefined" end.

(** [case 'miniblockHeader'] *)
Definition append_header (timelineEvent : ObjId) (event : ParsedEvent) (value : MiniblockHeader)
    (encryptionEmitter stateEmitter : bool) : SM (list ObjId) :=
  this ← gets self;
  _ ← check (default (-1) (mbi_max <$> miniblockInfo this) <? mh_miniblockNum value)
        (outOfOrder value this) STREAM_BAD_EVENT;
  _ ← on_self (λ s, s <| prevMiniblockHash := Some (pe_hash event) |>
                      <| prevMiniblockNum := Some (mh_miniblockNum value) |>);
  _ ← updateMiniblockInfo value (Some (mh_miniblockNum value)) None;
  _ ← mutate timelineEvent (λ e,
        e <| ste_confirmedEventNum := Some (mh_eventNumOffset value
                                            + Z.of_nat (length (mh_eventHashes value))) |>
          <| ste_miniblockNum := Some (mh_miniblockNum value) |>);
  processMiniblockHeader value (mh_eventHashes value) encryptionEmitter stateEmitter.

(** The [switch] in the [try] *)
Definition append_payload (timelineEvent : ObjId) (event : ParsedEvent)
    (cleartext : option Cleartext) (encryptionEmitter stateEmitter : bool)
    : SM (option (list ObjId)) :=
  match ev_payload (pe_event event) with
  | P_miniblockHeader value =>
      confirmed ← append_header timelineEvent event value encryptionEmitter stateEmitter;
      mret (Some confirmed)
  | P_memberPayload _ =>
      _ ← on_members (Members.appendEvent timelineEvent cleartext encryptionEmitter stateEmitter);
      mret None
  | P_unset => mret None
  | _ =>
      _ ← getContent (λ V X C, content_appendEvent timelineEvent cleartext encryptionEmitter
                                 stateEmitter);
      mret None
  end.

(** [payload.case === 'miniblockHeader'] *)
Definition isHeader (event : ParsedEvent) : bool :=
  match ev_payload (pe_event event) with P_miniblockHeader _ => true | _ => false end.

Definition processAppendedEvent (timelineEvent : ObjId) (cleartext : option Cleartext)
    (encryptionEmitter stateEmitter : bool) : SM (option (list ObjId)) :=
  '(e, event) ← remoteOf timelineEvent;
  this ← gets self;
  _ ← check (negb (jm_has (ste_hashStr e) (minipoolEvents this))) "Unknown" ERR_UNSPECIFIED;
  _ ← whenM (negb (isHeader event))
        (on_self (λ s, s <| minipoolEvents ::= <[ste_hashStr e := timelineEvent]> |>));
  catchM (append_payload timelineEvent event cleartext encryptionEmitter stateEmitter)
    (λ _, mret None).
Record Appended := {
  ap_appended : list ObjId;
  ap_updated : list ObjId;
  ap_confirmed : list ObjId;
}.
#[export] Instance eta_Appended : Eta Appended := λ r,
  Build_Appended (ap_appended r) (ap_updated r) (ap_confirmed r).

(** The body of the loop of [appendStreamAndCookie] *)
Definition append_one (acc : Appended) (parsedEvent : ParsedEvent) (cleartexts : Cleartexts)
    (encryptionEmitter stateEmitter : bool) : SM Appended :=
  this ← gets self;
  match minipoolEvents this !! pe_hashStr parsedEvent with
  | Some existingEvent =>
      _ ← mutate existingEvent (λ e, e <| ste_remoteEvent := Some parsedEvent |>);
      mret (acc <| ap_updated ::= λ l, l ++ [existingEvent] |>)
  | None =>
      event ← newEvent (makeRemoteTimelineEvent parsedEvent (lastEventNum this) None None);
      _ ← on_self (λ s, s <| lastEventNum ::= λ n, n + 1 |>);
      newlyConfirmed ← processAppendedEvent event (cleartext_at cleartexts (pe_hashStr parsedEvent))
                         encryptionEmitter stateEmitter;
      mret (acc <| ap_appended ::= λ l, l ++ [event] |>
                <| ap_confirmed ::= λ l, l ++ default [] newlyConfirmed |>)
  end.

Fixpoint append_loop (minipoolEvents : list ParsedEvent) (acc : Appended) (cleartexts : Cleartexts)
    (encryptionEmitter stateEmitter : bool) : SM Appended :=
  match minipoolEvents with
  | [] => mret acc
  | parsedEvent :: minipoolEvents =>
      acc ← append_one acc parsedEvent cleartexts encryptionEmitter stateEmitter;
      append_loop minipoolEvents acc cleartexts encryptionEmitter stateEmitter
  end.

Definition appendStreamAndCookie (nextSyncCookie : SyncCookie) (minipoolEvents : list ParsedEvent)
    (cleartexts : Cleartexts) (encryptionEmitter stateEmitter : bool) : SM Appended :=
  r ← append_loop minipoolEvents {| ap_appended := []; ap_updated := []; ap_confirmed := [] |}
        cleartexts encryptionEmitter stateEmitter;
  _ ← on_self (λ s, s <| syncCookie := Some nextSyncCookie |>);
  mret r.

(** The events of the objects of a list, as they are now *)
Fixpoint derefs (l : list ObjId) : SM (list StreamTimelineEvent) :=
  match l with
  | [] => mret []
  | o :: l => e ← deref o; es ← derefs l; mret (e :: es)
  end.

(** [l.length > 0 ? l : undefined] *)
Definition nonempty {A} (l : list A) : option (list A) :=
  match l with [] => None | _ => Some l end.

Definition appendEvents (events : list ParsedEvent) (nextSyncCookie : SyncCookie)
    (cleartexts : Cleartexts) : SM unit :=
  r ← appendStreamAndCookie nextSyncCookie events cleartexts true true;
  appended ← derefs (ap_appended r);
  updated ← derefs (ap_updated r);
  confirmed ← derefs (ap_confirmed r);
  this ← gets self;
  on_timelines (TimelinesView.streamUpdated (ssv_streamId this) {|
    ch_prepended := None;
    ch_appended := nonempty appended;
    ch_updated := nonempty updated;
    ch_confirmed := nonempty confirmed |}).

(** ** Prepended events *)

Definition prepend_payload (timelineEvent : ObjId) (event : ParsedEvent)
    (cleartext : option Cleartext) (encryptionEmitter stateEmitter : bool) : SM unit :=
  match ev_payload (pe_event event) with
  | P_miniblockHeader value =>
      _ ← updateMiniblockInfo value None (Some (mh_miniblockNum value));
      on_self (λ s, s <| prevSnapshotMiniblockNum := mh_prevSnapshotMiniblockNum value |>)
  | P_memberPayload _ => on_members (Members.prependEvent timelineEvent stateEmitter)
  | P_unset => mret tt
  | _ => getContent (λ V X C, content_prependEvent timelineEvent cleartext encryptionEmitter
                                stateEmitter)
  end.

Definition processPrependedEvent (timelineEvent : ObjId) (cleartext : option Cleartext)
    (encryptionEmitter stateEmitter : bool) : SM unit :=
  '(_, event) ← remoteOf timelineEvent;
  catchM (prepend_payload timelineEvent event cleartext encryptionEmitter stateEmitter)
    (λ _, mret tt).

(** [mb.events.map((parsedEvent, i) => makeRemoteTimelineEvent({...}))], from index [i] on *)
Fixpoint miniblockEvents (header : MiniblockHeader) (i : Z) (events : list ParsedEvent)
    : SM (list ObjId) :=
  match events with
  | [] => mret []
  | parsedEvent :: events =>
      let eventNum := mh_eventNumOffset header + i in
      o ← newEvent (makeRemoteTimelineEvent parsedEvent eventNum
                      (Some (mh_miniblockNum header)) (Some eventNum));
      l ← miniblockEvents header (i + 1) events;
      mret (o :: l)
  end.

(** [miniblocks.flatMap(...)] *)
Fixpoint flatEvents (miniblocks : list ParsedMiniblock) : SM (list ObjId) :=
  match miniblocks with
  | [] => mret []
  | mb :: miniblocks =>
      l ← miniblockEvents (mb_header mb) 0 (mb_events mb);
      rest ← flatEvents miniblocks;
      mret (l ++ rest)
  end.

(** [processPrependedEvent(event, cleartexts?.[event.hashStr], ...)] *)
Definition prepend_object (cleartexts : Cleartexts) (encryptionEmitter stateEmitter : bool)
    (event : ObjId) : SM unit :=
  e ← deref event;
  processPrependedEvent event (cleartext_at cleartexts (ste_hashStr e)) encryptionEmitter
    stateEmitter.

Definition prependEvents (miniblocks : list ParsedMiniblock) (cleartexts : Cleartexts)
    (terminus encryptionEmitter stateEmitter : bool) : SM (list ObjId) :=
  prepended ← flatEvents miniblocks;
  _ ← forM (reverse prepended) (prepend_object cleartexts encryptionEmitter stateEmitter);
  _ ← whenM terminus (on_self (λ s, s <| miniblockInfo ::=
        fmap (λ info, info <| mbi_terminusReached := true |>) |>));
  env ← getM;
  _ ← whenM (isInitialized env)
        (events ← derefs prepended;
         on_timelines (TimelinesView.streamUpdated (ssv_streamId (self env)) {|
           ch_prepended := Some events;
           ch_appended := None; ch_updated := None; ch_confirmed := None |}));
  mret prepended.

(** ** Decrypted events *)

Definition updateDecryptedContent (eventId : string) (content : DecryptedContent) : SM unit :=
  _ ← on_members (Members.onDecryptedContent eventId content true);
  _ ← getContent (λ V X C, content_onDecryptedContent eventId content true);
  this ← gets self;
  timelineEvent ← on_timelines (streamEventDecrypted (ssv_streamId this) eventId content);
  match timelineEvent with
  | Some timelineEvent =>
      emit true (eventDecrypted (ssv_streamId this) (contentKind (ssv_content this)) timelineEvent)
  | None => mret tt
  end.

Definition updateDecryptedContentError (eventId : string) (content : DecryptionSessionError)
    : SM unit :=
  this ← gets self;
  on_timelines (streamEventDecryptedContentError (ssv_streamId this) eventId content).

(** ** initialize *)

Definition append_object (cleartexts : Cleartexts) (encryptionEmitter stateEmitter : bool)
    (event : ObjId) : SM unit :=
  e ← deref event;
  _ ← processAppendedEvent event (cleartext_at cleartexts (ste_hashStr e)) encryptionEmitter
        stateEmitter;
  mret tt.

(** The body of the loop over [localEvents] *)
Definition initialize_local (emitter : bool) (localEvent : ObjId) : SM unit :=
  this ← gets self;
  _ ← mutate localEvent (λ e, e <| ste_eventNum := lastEventNum this |>);
  _ ← on_self (λ s, s <| lastEventNum ::= λ n, n + 1 |>);
  getContent (λ V X C, content_onAppendLocalEvent localEvent emitter).

Definition initialize (nextSyncCookie : SyncCookie) (minipoolEvents : list ParsedEvent)
    (snapshot : Snapshot) (miniblocks prependedMiniblocks : list ParsedMiniblock)
    (prevSnapshotMiniblockNum_ : Z) (cleartexts : Cleartexts) (localEvents : list ObjId)
    (emitter : bool) : SM unit :=
  this ← gets self;
  match miniblocks, last miniblocks with
  | block0 :: blocks, Some lastBlock =>
      match last (mb_events block0) with
      | None => throwWithCode ("Miniblock header event not found " +:+ ssv_streamId this) STREAM_EMPTY
      | Some miniblockHeaderEvent =>
          _ ← applySnapshot miniblockHeaderEvent snapshot cleartexts emitter;
          block0Events ← miniblockEvents (mb_header block0) 0 (mb_events block0);
          rest ← flatEvents blocks;
          _ ← check (0 <? length block0Events)%nat "Unknown" ERR_UNSPECIFIED;
          _ ← forM (reverse block0Events) (prepend_object cleartexts emitter false);
          _ ← forM rest (append_object cleartexts emitter false);
          _ ← on_self (λ s, s
                <| lastEventNum := mh_eventNumOffset (mb_header lastBlock)
                                   + Z.of_nat (length (mb_events lastBlock)) |>
                <| prevMiniblockHash := Some (mb_hash lastBlock) |>
                <| prevMiniblockNum := Some (mh_miniblockNum (mb_header lastBlock)) |>);
          r ← appendStreamAndCookie nextSyncCookie minipoolEvents cleartexts emitter false;
          _ ← on_self (λ s, s <| prevSnapshotMiniblockNum := prevSnapshotMiniblockNum_ |>);
          prepended ← match prependedMiniblocks with
                      | [] => mret []
                      | mb :: _ =>
                          prependEvents prependedMiniblocks cleartexts
                            (mh_miniblockNum (mb_header mb) =? 0) emitter false
                      end;
          _ ← forM localEvents (initialize_local emitter);
          _ ← on_view (λ v, v <| sv_streamStatus ::= setIsInitialized (ssv_streamId this) true |>);
          events ← derefs (prepended ++ block0Events ++ rest ++ localEvents ++ ap_appended r);
          _ ← on_timelines (TimelinesView.streamInitialized (ssv_streamId this) events);
          emit emitter (StreamEvents.streamInitialized (ssv_streamId this) (contentKind (ssv_content this)))
      end
  | _, _ => throwWithCode ("Stream has no miniblocks " +:+ ssv_streamId this) STREAM_EMPTY
  end.

(** ** Local events *)

(** The event object of a local event; [id] is the random part of
    [genLocalId()], [now] the result of [Date.now()]. *)
Definition localEvent (channelMessage : ChannelMessage) (status : LocalEventStatus)
    (id : string) (now : Z) (this : StreamStateView) : StreamTimelineEvent := {|
  ste_hashStr := "~" +:+ id;
  ste_creatorUserId := ssv_userId this;
  ste_eventNum := lastEventNum this;
  ste_createdAtEpochMs := now;
  ste_localEvent := Some {| le_localId := "~" +:+ id; le_channelMessage := channelMessage;
                            le_status := status |};
  ste_remoteEvent := None;
  ste_decryptedContent := None;
  ste_decryptedContentError := None;
  ste_miniblockNum := None;
  ste_confirmedEventNum := None |}.

Definition appendLocalEvent (channelMessage : ChannelMessage) (status : LocalEventStatus)
    (emitter : bool) (id : string) (now : Z) : SM string :=
  let localId := "~" +:+ id in
  this ← gets self;
  timelineEvent ← newEvent (localEvent channelMessage status id now this);
  _ ← on_self (λ s, s <| lastEventNum ::= λ n, n + 1 |>
                      <| minipoolEvents ::= <[localId := timelineEvent]> |>);
  _ ← getContent (λ V X C, content_onAppendLocalEvent timelineEvent emitter);
  e ← deref timelineEvent;
  _ ← on_timelines (TimelinesView.streamUpdated (ssv_streamId this) {|
        ch_prepended := None; ch_appended := Some [e]; ch_updated := None; ch_confirmed := None |});
  mret localId.

Definition updateLocalEvent (localId parsedEventHash : string) (status : LocalEventStatus)
    : SM unit :=
  this ← gets self;
  match nullish (minipoolEvents this !! localId) (minipoolEvents this !! parsedEventHash) with
  | None => throwWithCode ("Local event not found " +:+ localId) ERR_UNSPECIFIED
  | Some timelineEvent =>
      e ← deref timelineEvent;
      _ ← check (isLocalEvent e) ("Event is not local " +:+ localId) ERR_UNSPECIFIED;
      let previousId := ste_hashStr e in
      _ ← mutate timelineEvent (λ e, e <| ste_hashStr := parsedEventHash |>
                                       <| ste_localEvent ::= fmap (λ l, l <| le_status := status |>) |>);
      _ ← on_self (λ s, s <| minipoolEvents ::= λ m,
                               <[parsedEventHash := timelineEvent]> (delete previousId m) |>);
      e ← deref timelineEvent;
      _ ← on_timelines (TimelinesView.streamLocalEventUpdated (ssv_streamId this) previousId e);
      emit true (StreamEvents.streamLocalEventUpdated (ssv_streamId this) (contentKind (ssv_content this))
                   previousId timelineEvent)
  end.

(** ** Queries *)

Definition getUsersEntitledToKeyExchange (this : StreamStateView) : gset string :=
  match contentKind (ssv_content this) with
  | channelContent | spaceContent | gdmChannelContent =>
      Members.joinedOrPendingJoinedParticipants (membershipContent this)
  | dmChannelContent => Members.participants (membershipContent this)
  | _ => ∅
  end.
Definition userIsEntitledToKeyExchange (userId : string) (this : StreamStateView) : bool :=
  bool_decide (userId ∈ getUsersEntitledToKeyExchange this).
End StreamState.
