(* ===== verification/StreamStateFacts.v ===== *)
(** * StreamStateFacts: what a stream view guarantees

    Event objects keep their identity and their number, the pool holds exactly
    the unconfirmed events under their hashes, a miniblock header confirms the
    events it names in its order, and an event whose handler throws never stops
    the events after it. *)

From S2P Require Import Prelude JsLib JsMap Ids IdsFacts Proto Types TimelineTypes StreamEvents StreamViews Content ContentLaws Members Timelines TimelinesView Channels Space UserStreams Migrations StreamState.

(** ** The parts of a stream stay in their part *)

(** What the members and the content never touch of their stream *)
Definition shell (s : StreamStateView) :=
  (ssv_streamId s, ssv_userId s, contentKind (ssv_content s), minipoolEvents s,
   (prevMiniblockHash s, prevMiniblockNum s, lastEventNum s, prevSnapshotMiniblockNum s,
    miniblockInfo s, syncCookie s)).

(** ... and of the stores *)
Definition outside (v : StreamsView) := (sv_streamStatus v, sv_timelinesView v).

Record part_step (env env' : SEnv) : Prop := {
  ps_heap : heap_ext (heap env) (heap env');
  ps_shell : shell (self env') = shell (self env);
  ps_outside : outside (view env') = outside (view env);
}.

#[export] Instance part_step_preorder : PreOrder part_step.
Proof.
  split.
  - intros env. by split; [reflexivity| |].
  - intros e1 e2 e3 [H1 S1 O1] [H2 S2 O2]. split; [by etrans|congruence|congruence].
Qed.

Section Parts.
Context `{EthLib, Codec, Lodash}.

Lemma moves_on_members {A} (m : M Emit (Env StreamMemberIds Members.Members) A) :
  moves env_ext m → moves part_step (on_members m).
Proof. intros Hm. apply (moves_zoom _ env_ext); [done|]. intros env e He. by split. Qed.

Lemma moves_on_object {V X A} get put (wrap : X → StreamContent) c (m : M Emit (Env V X) A) :
  (∀ x, contentKind (wrap x) = contentKind (wrap c)) →
  (∀ t v, outside (put t v) = outside v) →
  moves env_ext m →
  ∀ env, ssv_content (self env) = wrap c → part_step env (post (on_object get put wrap c m) env).
Proof.
  intros Hk Ho Hm env Hc. unfold on_object. rewrite post_zoom.
  pose proof (Hm (Build_Env (heap env) (get (view env)) c)) as He. split; simpl; [done| |apply Ho].
  unfold shell. simpl. by rewrite Hk, Hc.
Qed.

Lemma moves_getContent {A} (op : ∀ V X, AbstractContent V X → M Emit (Env V X) A) :
  (∀ V X (C : AbstractContent V X), ContentLaws C → moves env_ext (op V X C)) →
  moves part_step (getContent op).
Proof.
  intros Hop env. unfold getContent. rewrite post_bind_gets.
  destruct (ssv_content (self env)) eqn:Hc;
    apply moves_on_object; try done; apply Hop; apply _.
Qed.
End Parts.

(** ** Processing an event *)

(** Nothing of an event changes but its decryption and its confirmation. *)
Definition same_event (e e' : StreamTimelineEvent) : Prop :=
  e' <| ste_decryptedContent := ste_decryptedContent e |>
     <| ste_miniblockNum := ste_miniblockNum e |>
     <| ste_confirmedEventNum := ste_confirmedEventNum e |> = e.

Definition heap_same (h h' : Heap) : Prop :=
  heap_wf h →
  heap_wf h' ∧ (next_id h <= next_id h')%nat ∧
  ∀ o e, get_obj o h = Some e → ∃ e', get_obj o h' = Some e' ∧ same_event e e'.

#[export] Instance heap_same_preorder : PreOrder heap_same.
Proof.
  split.
  - intros h Hw. split_and!; [done|lia|]. intros o e He. exists e. split; [done|]. by destruct e.
  - intros h1 h2 h3 H12 H23 W1. destruct (H12 W1) as (W2 & N1 & H1).
    destruct (H23 W2) as (W3 & N2 & H2). split_and!; [done|lia|]. intros o e He.
    destruct (H1 o e He) as (e1 & He1 & E1). destruct (H2 o e1 He1) as (e2 & He2 & E2).
    exists e2. split; [done|]. unfold same_event in *. destruct e, e1, e2. simpl in *. congruence.
Qed.

Lemma heap_ext_same h h' : heap_ext h h' → heap_same h h'.
Proof.
  intros He Hw. destruct (He Hw) as (W & N & Ho). split_and!; [done|done|]. intros o e Hg.
  destruct (Ho o e Hg) as (e' & Hg' & E). exists e'. split; [done|]. unfold same_event.
  destruct e, e'. simpl in *. congruence.
Qed.

(** A miniblock number range only grows. *)
Definition info_wf (i : option MiniblockInfo) : Prop :=
  match i with Some a => mbi_min a <= mbi_max a | None => True end.
Definition info_grows (i i' : option MiniblockInfo) : Prop :=
  (info_wf i → info_wf i') ∧
  match i, i' with
  | None, _ => True
  | Some a, Some b => mbi_max a <= mbi_max b ∧ mbi_min b <= mbi_min a
                      ∧ (mbi_terminusReached a = true → mbi_terminusReached b = true)
  | Some _, None => False
  end.

#[export] Instance info_grows_preorder : PreOrder info_grows.
Proof.
  split.
  - intros [a|]; split; [done| |done|done]. split_and!; [lia|lia|done].
  - intros [a|] [b|] [c|] [W1 H1] [W2 H2]; split; auto; try done.
    destruct H1 as (? & ? & ?), H2 as (? & ? & ?). split_and!; [lia|lia|auto].
Qed.

Definition fixed (s : StreamStateView) :=
  (ssv_streamId s, ssv_userId s, contentKind (ssv_content s), lastEventNum s, syncCookie s).

Record event_step (env env' : SEnv) : Prop := {
  es_heap : heap_same (heap env) (heap env');
  es_pool k o : minipoolEvents (self env') !! k = Some o → minipoolEvents (self env) !! k = Some o;
  es_fixed : fixed (self env') = fixed (self env);
  es_info : info_grows (miniblockInfo (self env)) (miniblockInfo (self env'));
  es_outside : outside (view env') = outside (view env);
}.

#[export] Instance event_step_preorder : PreOrder event_step.
Proof.
  split.
  - intros env. by split; [reflexivity| | |reflexivity|].
  - intros e1 e2 e3 [H1 P1 F1 I1 O1] [H2 P2 F2 I2 O2].
    split; [by etrans|auto|congruence|by etrans|congruence].
Qed.

Lemma part_event_step env env' : part_step env env' → event_step env env'.
Proof.
  intros [Hh Hs Ho]. unfold shell in Hs. simplify_eq. split.
  - by apply heap_ext_same.
  - intros k o. congruence.
  - unfold fixed. congruence.
  - replace (miniblockInfo (self env')) with (miniblockInfo (self env)) by congruence. reflexivity.
  - unfold outside. congruence.
Qed.
Lemma moves_part {A} (m : SM A) : moves part_step m → moves event_step m.
Proof. intros Hm env. apply part_event_step, Hm. Qed.

Lemma moves_self f :
  (∀ s k o, minipoolEvents (f s) !! k = Some o → minipoolEvents s !! k = Some o) →
  (∀ s, fixed (f s) = fixed s) → (∀ s, info_grows (miniblockInfo s) (miniblockInfo (f s))) →
  moves event_step (on_self f).
Proof. intros Hp Hf Hi env. split; simpl; [reflexivity|apply Hp|apply Hf|apply Hi|done]. Qed.

Lemma heap_same_update o f (h : Heap) :
  (∀ e, get_obj o h = Some e → same_event e (f e)) → heap_same h (update_obj o f h).
Proof.
  intros Hf Hw. split_and!.
  - intros o'. simpl. rewrite lookup_alter_is_Some. apply Hw.
  - simpl. lia.
  - intros o' e He. rewrite get_obj_update. case_decide; [subst|].
    + rewrite He. eexists. split; [done|]. by apply Hf.
    + exists e. split; [done|]. by destruct e.
Qed.

Lemma moves_confirm o mb n :
  moves event_step (mutate o (λ e, e <| ste_miniblockNum := Some mb |>
                                     <| ste_confirmedEventNum := Some n |>)).
Proof.
  intros env. split; simpl; try done. apply heap_same_update. by intros [].
Qed.
Lemma moves_confirm' o mb n :
  moves event_step (mutate o (λ e, e <| ste_confirmedEventNum := Some n |>
                                     <| ste_miniblockNum := Some mb |>)).
Proof.
  intros env. split; simpl; try done. apply heap_same_update. by intros [].
Qed.

Lemma moves_updateMiniblockInfo value max min : moves event_step (updateMiniblockInfo value max min).
Proof.
  apply moves_self; intros this.
  - intros k o. by destruct (miniblockInfo this).
  - by destruct (miniblockInfo this).
  - destruct (miniblockInfo this) as [[mx mn tr]|]; [|split; simpl; [lia|done]].
    destruct max as [m|], min as [n|]; simpl; repeat case_match; simpl in *; simplify_eq;
      rewrite ?andb_true_iff, ?andb_false_iff, ?orb_true_iff, ?orb_false_iff in *;
      (split; [unfold info_wf|split_and!]); simpl; first [lia|done].
Qed.

#[export] Hint Resolve moves_confirm moves_confirm' moves_updateMiniblockInfo : moves.
#[export] Hint Extern 2 (moves event_step (on_members _)) =>
  apply moves_part, moves_on_members; auto with moves nocore : moves.
#[export] Hint Extern 2 (moves event_step (getContent _)) =>
  apply moves_part, moves_getContent; intros; auto with moves nocore : moves.
#[export] Hint Extern 3 (moves event_step (on_self _)) =>
  apply moves_self; intros; first [done|reflexivity] : moves.

Section Events.
Context `{EthLib, Codec, Lodash}.

Lemma moves_delete k : moves event_step (on_self (λ s, s <| minipoolEvents ::= delete k |>)).
Proof.
  apply moves_self; [|done|intros; reflexivity]. intros s k' o. simpl.
  rewrite jm_lookup_delete. by case_decide.
Qed.
Hint Resolve moves_delete : moves.

Lemma moves_processMiniblockHeader_loop hd hashes i acc enc st :
  moves event_step (processMiniblockHeader_loop hd hashes i acc enc st).
Proof.
  revert i acc. induction hashes as [|h hashes IH]; intros i acc;
    cbn [processMiniblockHeader_loop]; moves.
Qed.
Hint Resolve moves_processMiniblockHeader_loop : moves.

Lemma moves_append_payload o p ct enc st : moves event_step (append_payload o p ct enc st).
Proof. unfold append_payload, append_header, processMiniblockHeader. moves. Qed.
Lemma moves_prepend_payload o p ct enc st : moves event_step (prepend_payload o p ct enc st).
Proof. unfold prepend_payload. moves. Qed.
End Events.
#[export] Hint Resolve moves_append_payload moves_prepend_payload : moves.

(** ** The invariant of a stream view *)

(** The pool holds allocated event objects under their hashes, and the range of
    miniblock numbers is not empty. *)
Record stream_wf (env : SEnv) : Prop := {
  wf_heap : heap_wf (heap env);
  wf_pool k o : minipoolEvents (self env) !! k = Some o →
    ∃ e, get_obj o (heap env) = Some e ∧ ste_hashStr e = k;
  wf_info : info_wf (miniblockInfo (self env));
}.

Lemma same_event_hash e e' : same_event e e' → ste_hashStr e' = ste_hashStr e.
Proof. unfold same_event. destruct e, e'. simpl. congruence. Qed.
Lemma same_event_num e e' : same_event e e' → ste_eventNum e' = ste_eventNum e.
Proof. unfold same_event. destruct e, e'. simpl. congruence. Qed.
Lemma same_event_remote e e' : same_event e e' → ste_remoteEvent e' = ste_remoteEvent e.
Proof. unfold same_event. destruct e, e'. simpl. congruence. Qed.

Lemma wf_event_step env env' : event_step env env' → stream_wf env → stream_wf env'.
Proof.
  intros [Hh Hp Hf Hi Ho] [Wh Wp Wi]. destruct (Hh Wh) as (Wh' & _ & Hk). split; [done| |by apply Hi].
  intros k o Hk'. destruct (Wp k o (Hp k o Hk')) as (e & He & <-).
  destruct (Hk o e He) as (e' & He' & Hs). exists e'. split; [done|]. by apply same_event_hash.
Qed.

(** The state in which the [try] of an appended event starts *)
Definition pooled (o : ObjId) (e : StreamTimelineEvent) (p : ParsedEvent) (env : SEnv) : SEnv :=
  if isHeader p then env
  else env <| self ::= λ s, s <| minipoolEvents ::= <[ste_hashStr e := o]> |> |>.

Lemma wf_pooled o e p env :
  get_obj o (heap env) = Some e → stream_wf env → stream_wf (pooled o e p env).
Proof.
  intros He [Wh Wp Wi]. unfold pooled. destruct (isHeader p); [done|]. split; simpl; [done| |done].
  intros k o'. rewrite jm_lookup_insert. case_decide; [|apply Wp]. intros [= <-]. by exists e.
Qed.

Section Append.
Context `{EthLib, Codec, Lodash}.

(** An appended event that is not in the pool is processed in the state
    [pooled], and its errors do not get out. *)
Lemma post_processAppendedEvent o e p ct enc st env :
  get_obj o (heap env) = Some e → ste_remoteEvent e = Some p →
  minipoolEvents (self env) !! ste_hashStr e = None →
  post (processAppendedEvent o ct enc st) env
  = post (append_payload o p ct enc st) (pooled o e p env).
Proof.
  intros He Hr Hn. unfold processAppendedEvent, remoteOf. run. at_event He. rewrite Hr. run.
  rewrite (proj2 (jm_has_false _ _) Hn). simpl negb. run. unfold pooled.
  destruct (isHeader p); simpl whenM; run_env; by rewrite catch_post.
Qed.
Lemma res_processAppendedEvent o e p ct enc st env :
  get_obj o (heap env) = Some e → ste_remoteEvent e = Some p →
  minipoolEvents (self env) !! ste_hashStr e = None →
  res (processAppendedEvent o ct enc st) env
  = match res (append_payload o p ct enc st) (pooled o e p env) with
    | Ok r => Ok r
    | Throw _ => Ok None
    end.
Proof.
  intros He Hr Hn. unfold processAppendedEvent, remoteOf. run. at_event He. rewrite Hr. run.
  rewrite (proj2 (jm_has_false _ _) Hn). simpl negb. run. unfold pooled.
  destruct (isHeader p); simpl whenM; run_env; by rewrite catch_res.
Qed.
End Append.

(** ** A batch of appended events *)

(** An event keeps its hash and its number, and a remote event stays one. *)
Definition later (h h' : Heap) : Prop :=
  ∀ o e, get_obj o h = Some e → ∃ e', get_obj o h' = Some e' ∧
    ste_hashStr e' = ste_hashStr e ∧ ste_eventNum e' = ste_eventNum e
    ∧ (is_Some (ste_remoteEvent e) → is_Some (ste_remoteEvent e')).

Lemma later_same h h' : heap_wf h → heap_same h h' → later h h'.
Proof.
  intros Hw Hs o e He. destruct (Hs Hw) as (_ & _ & Hk). destruct (Hk o e He) as (e' & He' & E).
  exists e'. rewrite (same_event_hash _ _ E), (same_event_num _ _ E), (same_event_remote _ _ E).
  done.
Qed.

(** After the events [events] of a batch, from the state [env0] on *)
Record batch (env0 : SEnv) (events : list ParsedEvent) (acc : Appended) (env : SEnv) : Prop := {
  ba_wf : stream_wf env;
  ba_count : (length (ap_appended acc) + length (ap_updated acc) = length events)%nat;
  ba_last : lastEventNum (self env) = lastEventNum (self env0) + Z.of_nat (length (ap_appended acc));
  ba_num i o : ap_appended acc !! i = Some o → ∃ e, get_obj o (heap env) = Some e
    ∧ ste_eventNum e = lastEventNum (self env0) + Z.of_nat i;
  ba_seen p : p ∈ events → ∃ o e, o ∈ ap_appended acc ++ ap_updated acc
    ∧ get_obj o (heap env) = Some e ∧ ste_hashStr e = pe_hashStr p ∧ is_Some (ste_remoteEvent e);
}.

Lemma batch_later env0 events acc env env' :
  batch env0 events acc env → stream_wf env' → later (heap env) (heap env') →
  lastEventNum (self env') = lastEventNum (self env) → batch env0 events acc env'.
Proof.
  intros [Hw Hc Hl Hn Hs] Hw' Hk Hl'. split; [done|done|congruence| |].
  - intros i o Hi. destruct (Hn i o Hi) as (e & He & E). destruct (Hk o e He) as (e' & He' & _ & ? & _).
    exists e'. split; [done|congruence].
  - intros p Hp. destruct (Hs p Hp) as (o & e & Hin & He & E & Hr).
    destruct (Hk o e He) as (e' & He' & ? & _ & Hr'). exists o, e'. split_and!; auto. congruence.
Qed.

Section Batch.
Context `{EthLib, Codec, Lodash}.

(** A new event: allocated, counted, processed. *)
Definition fresh (p : ParsedEvent) (env : SEnv) : SEnv :=
  (allocated (makeRemoteTimelineEvent p (lastEventNum (self env)) None None) env)
    <| self ::= λ s, s <| lastEventNum ::= λ n, n + 1 |> |>.

Lemma wf_fresh p env : stream_wf env → stream_wf (fresh p env).
Proof.
  intros [Wh Wp Wi]. destruct (heap_ext_alloc (makeRemoteTimelineEvent p (lastEventNum (self env)) None None)
    (heap env) Wh) as (Wh' & _ & Hk). split; [done| |done]. intros k o Hk'.
  destruct (Wp k o Hk') as (e & He & <-). destruct (Hk o e He) as (e' & He' & E). exists e'.
  split; [done|]. destruct e, e'. simpl in *. congruence.
Qed.

Lemma append_one_new acc p cts enc st env :
  minipoolEvents (self env) !! pe_hashStr p = None →
  let o := next_id (heap env) in
  let env1 := pooled o (makeRemoteTimelineEvent p (lastEventNum (self env)) None None) p (fresh p env) in
  let m := append_payload o p (cleartext_at cts (pe_hashStr p)) enc st in
  post (append_one acc p cts enc st) env = post m env1 ∧
  res (append_one acc p cts enc st) env
  = Ok (acc <| ap_appended ::= λ l, l ++ [o] |>
            <| ap_confirmed ::= λ l, l ++ match res m env1 with
                                          | Ok (Some c) => c
                                          | _ => [] end |>).
Proof.
  intros Hn o env1 m. set (e := makeRemoteTimelineEvent p (lastEventNum (self env)) None None).
  assert (He : get_obj o (heap (fresh p env)) = Some e) by apply get_obj_alloc.
  assert (Hp : minipoolEvents (self (fresh p env)) !! ste_hashStr e = None) by done.
  assert (HR : res (processAppendedEvent o (cleartext_at cts (pe_hashStr p)) enc st) (fresh p env)
    = Ok match res m env1 with Ok (Some c) => Some c | _ => None end).
  { rewrite (res_processAppendedEvent o e p) by done. unfold m, env1. fold e.
    by destruct (res (append_payload _ _ _ _ _) _) as [[?|]|]. }
  unfold append_one. rewrite post_bind_gets, res_bind_gets, Hn. run_env. fold o e.
  change (allocated e env <| self ::= (λ s, s <| lastEventNum ::= λ n, n + 1 |>) |>) with (fresh p env).
  rewrite (post_bind_ok _ _ _ _ HR), (res_bind_ok _ _ _ _ HR), post_ret, res_ret.
  rewrite (post_processAppendedEvent o e p); [|done..]. split; [done|].
  by destruct (res m env1) as [[?|]|].
Qed.

Lemma append_one_existing acc p cts enc st o env :
  minipoolEvents (self env) !! pe_hashStr p = Some o →
  post (append_one acc p cts enc st) env
  = env <| heap ::= update_obj o (λ e, e <| ste_remoteEvent := Some p |>) |> ∧
  res (append_one acc p cts enc st) env = Ok (acc <| ap_updated ::= λ l, l ++ [o] |>).
Proof. intros Ho. unfold append_one. rewrite post_bind_gets, res_bind_gets, Ho. by run_env. Qed.

Lemma wf_set_remote o p env :
  stream_wf env →
  stream_wf (env <| heap ::= update_obj o (λ e, e <| ste_remoteEvent := Some p |>) |>)
  ∧ later (heap env) (update_obj o (λ e, e <| ste_remoteEvent := Some p |>) (heap env)).
Proof.
  intros [Wh Wp Wi].
  assert (Hl : later (heap env) (update_obj o (λ e, e <| ste_remoteEvent := Some p |>) (heap env))).
  { intros o' e He. rewrite get_obj_update. case_decide; [subst|by exists e].
    rewrite He. eexists. split; [done|]. by destruct e. }
  split; [|done]. split; simpl; [|intros k o' Hk|done].
  - intros o'. simpl. rewrite lookup_alter_is_Some. apply Wh.
  - destruct (Wp k o' Hk) as (e & He & <-). destruct (Hl o' e He) as (e' & He' & ? & _). eauto.
Qed.

Lemma event_step_fresh o p ct enc st env :
  stream_wf env → o = next_id (heap env) →
  let env1 := pooled o (makeRemoteTimelineEvent p (lastEventNum (self env)) None None) p (fresh p env) in
  let env2 := post (append_payload o p ct enc st) env1 in
  stream_wf env2 ∧ later (heap env) (heap env2)
  ∧ lastEventNum (self env2) = lastEventNum (self env) + 1
  ∧ ∃ e, get_obj o (heap env2) = Some e ∧ ste_hashStr e = pe_hashStr p
      ∧ ste_eventNum e = lastEventNum (self env) ∧ ste_remoteEvent e = Some p.
Proof.
  intros Hw -> env1 env2. set (e := makeRemoteTimelineEvent p (lastEventNum (self env)) None None) in *.
  assert (He : get_obj (next_id (heap env)) (heap (fresh p env)) = Some e) by apply get_obj_alloc.
  assert (Hh : heap env1 = heap (fresh p env)) by (unfold env1, pooled; by destruct (isHeader p)).
  pose proof (moves_append_payload (next_id (heap env)) p ct enc st env1) as Hs. fold env2 in Hs.
  assert (Hw1 : stream_wf env1) by (apply wf_pooled; [done|by apply wf_fresh]).
  destruct (es_heap _ _ Hs (wf_heap _ Hw1)) as (Wh & _ & Hk).
  split_and!.
  - by apply (wf_event_step env1).
  - apply later_same; [apply Hw|]. etrans; [apply heap_ext_same, (heap_ext_alloc e)|].
    change (heap_same (heap (fresh p env)) (heap env2)). rewrite <- Hh. apply Hs.
  - pose proof (es_fixed _ _ Hs) as Hf. unfold fixed in Hf. simplify_eq.
    replace (lastEventNum (self env2)) with (lastEventNum (self env1)) by congruence.
    unfold env1, pooled. by destruct (isHeader p).
  - destruct (Hk (next_id (heap env)) e) as (e2 & He2 & E2); [by rewrite Hh|]. exists e2.
    by rewrite (same_event_hash _ _ E2), (same_event_num _ _ E2), (same_event_remote _ _ E2).
Qed.

Lemma batch_one env0 events acc p cts enc st env :
  batch env0 events acc env →
  ∃ acc', res (append_one acc p cts enc st) env = Ok acc'
    ∧ batch env0 (events ++ [p]) acc' (post (append_one acc p cts enc st) env).
Proof.
  intros Hb. pose proof (ba_wf _ _ _ _ Hb) as Hw.
  destruct (minipoolEvents (self env) !! pe_hashStr p) as [o|] eqn:Ho.
  - destruct (append_one_existing acc p cts enc st o env Ho) as [-> ->]. eexists. split; [done|].
    destruct (wf_set_remote o p env Hw) as [Hw' Hl].
    destruct (batch_later env0 events acc env _ Hb Hw' Hl eq_refl) as [_ Hc HL Hn Hs].
    split; simpl; [done|rewrite !length_app; simpl; lia|done|done|].
    intros p' [Hp'| ->%list_elem_of_singleton]%elem_of_app.
    + destruct (Hs p' Hp') as (o' & e & ? & ?). exists o', e. split; [set_solver|done].
    + destruct (wf_pool _ Hw _ _ Ho) as (e & He & Hh). exists o, (e <| ste_remoteEvent := Some p |>).
      split_and!; [set_solver| |done|by eexists]. rewrite get_obj_update, decide_True, He; done.
  - destruct (append_one_new acc p cts enc st env Ho) as [-> ->]. eexists. split; [done|].
    destruct (event_step_fresh (next_id (heap env)) p (cleartext_at cts (pe_hashStr p)) enc st env Hw
      eq_refl) as (Hw' & Hl & HL' & e & He & Hh & Hn' & Hr).
    destruct Hb as [_ Hc HL Hn Hs]. set (env2 := post _ _) in *. split; simpl; [done| | | |].
    + rewrite !length_app. simpl. lia.
    + rewrite HL', HL, length_app. simpl. lia.
    + intros i o [Hi|[Hi Hi']]%lookup_app_Some.
      * destruct (Hn i o Hi) as (e1 & He1 & E1). destruct (Hl o e1 He1) as (e2 & ? & _ & ? & _).
        exists e2. split; [done|congruence].
      * apply list_lookup_singleton_Some in Hi' as [Hi' <-]. exists e. split; [done|].
        rewrite Hn', HL. lia.
    + intros p' [Hp'| ->%list_elem_of_singleton]%elem_of_app.
      * destruct (Hs p' Hp') as (o & e1 & ? & He1 & ? & Hr1).
        destruct (Hl o e1 He1) as (e2 & ? & ? & _ & Hr2). exists o, e2.
        split_and!; [set_solver|done|congruence|auto].
      * exists (next_id (heap env)), e. split_and!; [set_solver|done|done|by rewrite Hr].
Qed.

Lemma batch_loop env0 events0 events acc cts enc st env :
  batch env0 events0 acc env →
  ∃ acc', res (append_loop events acc cts enc st) env = Ok acc'
    ∧ batch env0 (events0 ++ events) acc' (post (append_loop events acc cts enc st) env).
Proof.
  revert events0 acc env. induction events as [|p events IH]; intros events0 acc env Hb;
    cbn [append_loop].
  - rewrite app_nil_r. by exists acc.
  - destruct (batch_one env0 events0 acc p cts enc st env Hb) as (acc1 & R1 & B1).
    rewrite (post_bind_ok _ _ _ _ R1), (res_bind_ok _ _ _ _ R1).
    destruct (IH _ _ _ B1) as (acc2 & R2 & B2). exists acc2. split; [done|].
    by rewrite <- app_assoc in B2.
Qed.
End Batch.

(** ** Miniblock headers *)

Section Header.
Context `{EthLib, Codec, Lodash}.
Implicit Types (hd : MiniblockHeader) (env : SEnv).

Definition hexes (hashes : list bytes) : list string := bin_toHexString <$> hashes.

(** The event [o] taken out of the pool, with number [n] in the block of [hd] *)
Definition confirm_at hd (n : Z) (e : StreamTimelineEvent) : StreamTimelineEvent :=
  e <| ste_miniblockNum := Some (mh_miniblockNum hd) |> <| ste_confirmedEventNum := Some n |>.
Definition taken hd (n : Z) (k : string) (o : ObjId) env : SEnv :=
  env <| self ::= λ s, s <| minipoolEvents ::= delete k |> |>
      <| heap ::= update_obj o (confirm_at hd n) |>.

(** What the loop does with an event it finds *)
Definition confirm_payload (e : StreamTimelineEvent) (o : ObjId) (enc st : bool) : SM unit :=
  match ste_payload e with
  | P_memberPayload _ => on_members (Members.onConfirmedEvent o st)
  | P_unset => mret tt
  | _ => getContent (λ V X C, content_onConfirmedEvent o st enc)
  end.

Lemma moves_confirm_payload e o enc st : moves part_step (confirm_payload e o enc st).
Proof.
  unfold confirm_payload. destruct (ste_payload e); try (intros env; reflexivity);
    try (apply moves_getContent; intros; auto with moves nocore).
  apply moves_on_members. auto with moves nocore.
Qed.

Lemma loop_cons hd h hashes i acc enc st o e env :
  minipoolEvents (self env) !! bin_toHexString h = Some o → get_obj o (heap env) = Some e →
  let n := mh_eventNumOffset hd + i in
  let m := confirm_payload (confirm_at hd n e) o enc st in
  let env1 := taken hd n (bin_toHexString h) o env in
  isRemoteEvent e = true →
  (res m env1 = Ok tt →
   post (processMiniblockHeader_loop hd (h :: hashes) i acc enc st) env
   = post (processMiniblockHeader_loop hd hashes (i + 1) (acc ++ [o]) enc st) (post m env1) ∧
   res (processMiniblockHeader_loop hd (h :: hashes) i acc enc st) env
   = res (processMiniblockHeader_loop hd hashes (i + 1) (acc ++ [o]) enc st) (post m env1)) ∧
  (∀ err, res m env1 = Throw err →
   res (processMiniblockHeader_loop hd (h :: hashes) i acc enc st) env = Throw err).
Proof.
  intros Ho He n m env1 Hr.
  assert (He1 : get_obj o (heap env1) = Some (confirm_at hd n e)).
  { unfold env1, taken. simpl. by rewrite get_obj_update, decide_True, He. }
  assert (Hc : isConfirmedEvent (confirm_at hd n e) = true).
  { unfold isConfirmedEvent. unfold isRemoteEvent in *. simpl. by rewrite Hr. }
  cbn [processMiniblockHeader_loop]. rewrite post_bind_gets, res_bind_gets, Ho. run_env.
  fold (taken hd n (bin_toHexString h) o env). fold env1.
  change (res (deref o ≫= ?k) _) with (res (deref o ≫= k) env1).
  rewrite (post_bind_deref _ _ _ _ He1), (res_bind_deref _ _ _ _ He1). rewrite Hc. run.
  fold (confirm_payload (confirm_at hd n e) o enc st). fold m. split.
  - intros Hm. by rewrite (post_bind_ok _ _ _ _ Hm), (res_bind_ok _ _ _ _ Hm).
  - intros err Hm. by rewrite res_bind, Hm.
Qed.

Lemma loop_skip hd h hashes i acc enc st env :
  minipoolEvents (self env) !! bin_toHexString h = None →
  processMiniblockHeader_loop hd (h :: hashes) i acc enc st env
  = processMiniblockHeader_loop hd hashes (i + 1) acc enc st env.
Proof. intros Ho. cbn [processMiniblockHeader_loop]. by rewrite bind_gets, Ho. Qed.

Lemma loop_local hd h hashes i acc enc st o e env :
  minipoolEvents (self env) !! bin_toHexString h = Some o → get_obj o (heap env) = Some e →
  isRemoteEvent e = false →
  is_Ok (res (processMiniblockHeader_loop hd (h :: hashes) i acc enc st) env) = false.
Proof.
  intros Ho He Hr. cbn [processMiniblockHeader_loop]. rewrite res_bind_gets, Ho. run_env.
  match goal with |- context [res (deref o ≫= _) ?s] => set (env1 := s) end.
  assert (He1 : get_obj o (heap env1) = Some (confirm_at hd (mh_eventNumOffset hd + i) e)).
  { unfold env1. simpl. by rewrite get_obj_update, decide_True, He. }
  rewrite (res_bind_deref _ _ _ _ He1). unfold isConfirmedEvent, isRemoteEvent in *. simpl.
  by rewrite Hr.
Qed.

Lemma taken_wf hd n k o env :
  stream_wf env → minipoolEvents (self env) !! k = Some o →
  stream_wf (taken hd n k o env) ∧ ∀ k', minipoolEvents (self (taken hd n k o env)) !! k' ≠ Some o.
Proof.
  intros Hw Ho. split.
  - apply (wf_event_step env); [|done]. split; simpl.
    + apply heap_same_update. by intros [].
    + intros k' o'. rewrite jm_lookup_delete. by case_decide.
    + done.
    + reflexivity.
    + done.
  - intros k' Hk'. simpl in Hk'. rewrite jm_lookup_delete in Hk'. case_decide; [done|].
    destruct (wf_pool _ Hw _ _ Ho) as (e & He & <-). destruct (wf_pool _ Hw _ _ Hk') as (e' & He' & <-).
    congruence.
Qed.

Lemma part_pool env env' : part_step env env' → minipoolEvents (self env') = minipoolEvents (self env).
Proof. intros [_ Hs _]. unfold shell in Hs. congruence. Qed.

Lemma part_obj env env' o e :
  part_step env env' → stream_wf env → get_obj o (heap env) = Some e →
  ∃ e', get_obj o (heap env') = Some e' ∧ e' <| ste_decryptedContent := ste_decryptedContent e |> = e.
Proof. intros [Hh _ _] Hw He. destruct (Hh (wf_heap _ Hw)) as (_ & _ & Hk). by apply Hk. Qed.

(** The shape of a run of the loop that does not throw: each step skips a hash
    or takes an event. *)
Lemma loop_ok_inv hd h hashes i acc enc st env c :
  stream_wf env →
  res (processMiniblockHeader_loop hd (h :: hashes) i acc enc st) env = Ok c →
  match minipoolEvents (self env) !! bin_toHexString h with
  | None =>
      processMiniblockHeader_loop hd (h :: hashes) i acc enc st env
      = processMiniblockHeader_loop hd hashes (i + 1) acc enc st env
  | Some o =>
      ∃ e env2, get_obj o (heap env) = Some e
      ∧ part_step (taken hd (mh_eventNumOffset hd + i) (bin_toHexString h) o env) env2
      ∧ post (processMiniblockHeader_loop hd (h :: hashes) i acc enc st) env
        = post (processMiniblockHeader_loop hd hashes (i + 1) (acc ++ [o]) enc st) env2
      ∧ res (processMiniblockHeader_loop hd hashes (i + 1) (acc ++ [o]) enc st) env2 = Ok c
  end.
Proof.
  intros Hw Hc. destruct (minipoolEvents (self env) !! bin_toHexString h) as [o|] eqn:Ho;
    [|by apply loop_skip].
  destruct (wf_pool _ Hw _ _ Ho) as (e & He & _). exists e.
  destruct (isRemoteEvent e) eqn:Hr.
  - destruct (loop_cons hd h hashes i acc enc st o e env Ho He Hr) as [Hok Hth].
    set (m := confirm_payload _ o enc st) in *. set (env1 := taken _ _ _ o env) in *.
    destruct (res m env1) as [[]|err] eqn:Hm; [|by rewrite (Hth err) in Hc].
    destruct (Hok eq_refl) as [HP HR]. exists (post m env1). rewrite <- HR.
    split_and!; [done|apply moves_confirm_payload|done|done].
  - pose proof (loop_local hd h hashes i acc enc st o e env Ho He Hr) as Hl. by rewrite Hc in Hl.
Qed.

(** An event that is not in the pool keeps its confirmation. *)
Lemma loop_other hd hashes i acc enc st env c o e :
  stream_wf env → res (processMiniblockHeader_loop hd hashes i acc enc st) env = Ok c →
  (∀ k, minipoolEvents (self env) !! k ≠ Some o) → get_obj o (heap env) = Some e →
  ∃ e', get_obj o (heap (post (processMiniblockHeader_loop hd hashes i acc enc st) env)) = Some e'
    ∧ ste_miniblockNum e' = ste_miniblockNum e ∧ ste_confirmedEventNum e' = ste_confirmedEventNum e.
Proof.
  revert i acc env e. induction hashes as [|h hashes IH]; intros i acc env e Hw Hc Hn He.
  { by exists e. }
  pose proof (loop_ok_inv _ _ _ _ _ _ _ _ _ Hw Hc) as Hi.
  destruct (minipoolEvents (self env) !! bin_toHexString h) as [o1|] eqn:Ho1.
  - destruct Hi as (e1 & env2 & He1 & Hp & -> & Hc2). set (env1 := taken _ _ _ o1 env) in *.
    destruct (taken_wf hd (mh_eventNumOffset hd + i) (bin_toHexString h) o1 env Hw Ho1) as [Hw1 _].
    assert (He' : get_obj o (heap env1) = Some e).
    { unfold env1. simpl. rewrite get_obj_update, decide_False; [done|]. intros ->. by apply (Hn (bin_toHexString h)). }
    destruct (part_obj _ _ o e Hp Hw1 He') as (e2 & He2 & E2).
    destruct (IH (i + 1) (acc ++ [o1]) env2 e2) as (e3 & He3 & E3 & E3').
    + by apply (wf_event_step env1); [apply part_event_step|].
    + done.
    + intros k. rewrite (part_pool _ _ Hp). unfold env1. simpl. rewrite jm_lookup_delete.
      by case_decide.
    + done.
    + exists e3. rewrite E3, E3'. split; [done|]. rewrite <- E2. by destruct e2.
  - unfold res, post in *. rewrite Hi in *. by apply (IH (i + 1) acc env e).
Qed.

Lemma loop_confirms hd hashes i acc enc st env c :
  stream_wf env → NoDup (hexes hashes) →
  res (processMiniblockHeader_loop hd hashes i acc enc st) env = Ok c →
  let pool := minipoolEvents (self env) in
  let env' := post (processMiniblockHeader_loop hd hashes i acc enc st) env in
  c = acc ++ omap (λ h, pool !! bin_toHexString h) hashes ∧
  (∀ k, minipoolEvents (self env') !! k = if bool_decide (k ∈ hexes hashes) then None else pool !! k) ∧
  (∀ j h o, hashes !! j = Some h → pool !! bin_toHexString h = Some o →
    ∃ e, get_obj o (heap env') = Some e ∧ ste_miniblockNum e = Some (mh_miniblockNum hd)
      ∧ ste_confirmedEventNum e = Some (mh_eventNumOffset hd + i + Z.of_nat j)).
Proof.
  revert i acc env. induction hashes as [|h hashes IH]; intros i acc env Hw Hnd Hc pool env'.
  { cbn in Hc. simplify_eq. split_and!; [by rewrite app_nil_r|done|done]. }
  apply NoDup_cons in Hnd as [Hh Hnd]. pose proof (loop_ok_inv _ _ _ _ _ _ _ _ _ Hw Hc) as Hi.
  subst env' pool.
  assert (Hin : ∀ k, bool_decide (k ∈ hexes (h :: hashes))
                     = bool_decide (k = bin_toHexString h) || bool_decide (k ∈ hexes hashes)).
  { intros k. unfold hexes. rewrite fmap_cons, <- bool_decide_or. apply bool_decide_ext, elem_of_cons. }
  destruct (minipoolEvents (self env) !! bin_toHexString h) as [o|] eqn:Ho.
  - destruct Hi as (e & env2 & He & Hp & -> & Hc2). set (env1 := taken _ _ _ o env) in *.
    destruct (taken_wf hd (mh_eventNumOffset hd + i) (bin_toHexString h) o env Hw Ho) as [Hw1 Hno].
    assert (Hw2 : stream_wf env2) by (by apply (wf_event_step env1); [apply part_event_step|]).
    assert (Hpool : ∀ k, minipoolEvents (self env2) !! k
       = if decide (bin_toHexString h = k) then None else minipoolEvents (self env) !! k).
    { intros k. rewrite (part_pool _ _ Hp). apply jm_lookup_delete. }
    destruct (IH _ _ _ Hw2 Hnd Hc2) as (Hcc & Hk & Hnum).
    split_and!.
    + rewrite Hcc. cbn [omap list_omap]. rewrite Ho, <- app_assoc. f_equal. simpl. f_equal.
      apply list_omap_ext. apply Forall_Forall2_diag, Forall_forall. intros h' Hh'.
      rewrite Hpool, decide_False; [done|]. intros E. apply Hh. rewrite E. by apply list_elem_of_fmap_2.
    + intros k. rewrite Hk, Hin, Hpool. repeat case_bool_decide; repeat case_decide; simplify_eq; done.
    + intros [|j] h' o' Hj Ho'; simpl in Hj; simplify_eq.
      * destruct (part_obj env1 env2 o (confirm_at hd (mh_eventNumOffset hd + i) e) Hp Hw1) as (e2 & He2 & E2).
        { unfold env1. simpl. by rewrite get_obj_update, decide_True, He. }
        destruct (loop_other _ _ _ _ _ _ _ _ o e2 Hw2 Hc2) as (e3 & He3 & M3 & C3);
          [by rewrite (part_pool _ _ Hp)|done|].
        exists e3. rewrite M3, C3. split; [done|].
        split; [exact (f_equal ste_miniblockNum E2)|].
        rewrite (f_equal ste_confirmedEventNum E2 : ste_confirmedEventNum e2 = _). simpl. f_equal. lia.
      * destruct (Hnum j h' o' Hj) as (e3 & He3 & M3 & C3).
        { rewrite Hpool, decide_False; [done|]. intros E. apply Hh. rewrite E.
          apply list_elem_of_fmap_2. by eapply list_elem_of_lookup_2. }
        exists e3. rewrite C3. split_and!; [done|done|]. f_equal. lia.
  - unfold res, post in Hc, Hi |- *. rewrite Hi in Hc |- *. destruct (IH _ _ _ Hw Hnd Hc) as (Hcc & Hk & Hnum).
    split_and!.
    + rewrite Hcc. cbn [omap list_omap]. by rewrite Ho.
    + intros k. rewrite Hin, Hk. repeat case_bool_decide; simplify_eq; done.
    + intros [|j] h' o' Hj Ho'; simpl in Hj; simplify_eq.
      destruct (Hnum j h' o' Hj Ho') as (e3 & He3 & M3 & C3). exists e3. rewrite C3.
      split_and!; [done|done|]. f_equal. lia.
Qed.

(** A remote event of the content, not of the members *)
Definition content_event (e : StreamTimelineEvent) : bool :=
  isRemoteEvent e && match ste_payload e with P_memberPayload _ => false | _ => true end.

Lemma confirm_payload_content e o enc st env :
  content_event e = true → res (confirm_payload e o enc st) env = Ok tt.
Proof.
  unfold content_event. intros [_ Hp]%andb_true_iff. unfold confirm_payload, getContent.
  destruct (ste_payload e); try done; rewrite res_bind_gets; by destruct (ssv_content (self env)).
Qed.

Lemma content_event_same e e' : same_event e e' → content_event e' = content_event e.
Proof.
  intros Hs. unfold content_event, isRemoteEvent, ste_payload. by rewrite (same_event_remote _ _ Hs).
Qed.

Definition confirmable (hashes : list bytes) (env : SEnv) : Prop :=
  ∀ h o e, h ∈ hashes → minipoolEvents (self env) !! bin_toHexString h = Some o →
    get_obj o (heap env) = Some e → content_event e = true.

Lemma loop_live hd hashes i acc enc st env :
  stream_wf env → confirmable hashes env →
  ∃ c, res (processMiniblockHeader_loop hd hashes i acc enc st) env = Ok c.
Proof.
  revert i acc env. induction hashes as [|h hashes IH]; intros i acc env Hw Hc.
  { by eexists. }
  destruct (minipoolEvents (self env) !! bin_toHexString h) as [o|] eqn:Ho.
  - destruct (wf_pool _ Hw _ _ Ho) as (e & He & _).
    assert (Hce : content_event e = true) by (apply (Hc h o e); [apply list_elem_of_here|done..]).
    destruct (loop_cons hd h hashes i acc enc st o e env Ho He) as [Hok _].
    { unfold content_event in Hce. by apply andb_true_iff in Hce as [? _]. }
    set (n := mh_eventNumOffset hd + i) in *.
    assert (Hm : res (confirm_payload (confirm_at hd n e) o enc st) (taken hd n (bin_toHexString h) o env) = Ok tt).
    { apply confirm_payload_content. rewrite <- Hce. by destruct e. }
    destruct (Hok Hm) as [_ ->].
    set (env1 := taken hd n (bin_toHexString h) o env) in *. set (m := confirm_payload _ o enc st) in *.
    assert (Hs : event_step env (post m env1)).
    { etrans; [|apply part_event_step, moves_confirm_payload]. split; simpl; [|intros k o'|done|reflexivity|done].
      - apply heap_same_update. by intros [].
      - rewrite jm_lookup_delete. by case_decide. }
    apply IH; [by apply (wf_event_step env)|].
    intros h' o' e' Hh' Ho' He'. pose proof (es_pool _ _ Hs _ _ Ho') as Ho0.
    destruct (wf_pool _ Hw _ _ Ho0) as (e0 & He0 & _).
    destruct (es_heap _ _ Hs (wf_heap _ Hw)) as (_ & _ & Hk). destruct (Hk o' e0 He0) as (e1 & He1 & E1).
    simplify_eq. rewrite (content_event_same e0) by congruence.
    apply (Hc h' o' e0); [by apply list_elem_of_further|done..].
  - unfold res. rewrite loop_skip by done. apply IH; [done|].
    intros h' o' e' Hh'. apply Hc. by apply list_elem_of_further.
Qed.
End Header.
