(* ===== verification/Stream.v ===== *)
(** * Stream: a stream and its current view (sdk/src/stream.ts)

    A stream keeps one view, which [initialize] replaces, and forwards what
    the view emits to its listeners until it is stopped. The promises of
    [waitFor] belong to the listeners and are not modelled. *)

From S2P Require Import Prelude JsLib JsMap Ids Proto Types TimelineTypes StreamEvents Content TimelinesView StreamState.

Record Stream := {
  st_userId : string;
  st_streamId : string;
  st_view : StreamStateView;
  st_stopped : bool;
}.
#[export] Instance eta_Stream : Eta Stream := λ r,
  Build_Stream (st_userId r) (st_streamId r) (st_view r) (st_stopped r).

Abbreviation StM := (M Emit (Env StreamsView Stream)).

Section Stream.
Context `{EthLib, Codec, Lodash}.

Definition new (userId streamId : string) : Res Stream :=
  view ← StreamState.new userId streamId;
  Ok {| st_userId := userId; st_streamId := streamId; st_view := view; st_stopped := false |}.

(** A method of the view, with the stream as its emitter: [emit] drops what is
    emitted once the stream is stopped. *)
Definition with_view {A} (m : SM A) : StM A := λ env,
  match m (Build_Env (heap env) (view env) (st_view (self env))) with
  | (r, e, o) => (r, Build_Env (heap e) (view e) ((self env) <| st_view := self e |>),
                  if st_stopped (self env) then [] else o)
  end.

(** The local events of the view that have not been sent, in their order *)
Definition localEvents (env : Env StreamsView Stream) : list ObjId :=
  let objects := omap (λ o, pair o <$> get_obj o (heap env))
                   (jm_values (minipoolEvents (st_view (self env)))) in
  (stable_sort (λ a b, ste_eventNum a.2 <=? ste_eventNum b.2)
     (List.filter (λ p, isLocalEvent p.2 && Str.startsWith (ste_hashStr p.2) "~") objects)).*1.

Definition initialize (nextSyncCookie : SyncCookie) (minipoolEvents : list ParsedEvent)
    (snapshot : Snapshot) (miniblocks prependedMiniblocks : list ParsedMiniblock)
    (prevSnapshotMiniblockNum : Z) (cleartexts : Cleartexts) : StM unit :=
  env ← getM;
  let localEvents := localEvents env in
  view ← liftR (StreamState.new (st_userId (self env)) (st_streamId (self env)));
  _ ← on_self (λ s, s <| st_view := view |>);
  with_view (StreamState.initialize nextSyncCookie minipoolEvents snapshot miniblocks
               prependedMiniblocks prevSnapshotMiniblockNum cleartexts localEvents true).

Definition stop : StM unit := on_self (λ s, s <| st_stopped := true |>).

Definition appendEvents (events : list ParsedEvent) (nextSyncCookie : SyncCookie)
    (cleartexts : Cleartexts) : StM unit :=
  with_view (StreamState.appendEvents events nextSyncCookie cleartexts).

Definition prependEvents (miniblocks : list ParsedMiniblock) (cleartexts : Cleartexts)
    (terminus : bool) : StM unit :=
  _ ← with_view (StreamState.prependEvents miniblocks cleartexts terminus true true);
  mret tt.

Definition appendLocalEvent (channelMessage : ChannelMessage) (status : LocalEventStatus)
    (id : string) (now : Z) : StM string :=
  with_view (StreamState.appendLocalEvent channelMessage status true id now).

Definition updateDecryptedContent (eventId : string) (content : DecryptedContent) : StM unit :=
  with_view (StreamState.updateDecryptedContent eventId content).

Definition updateDecryptedContentError (eventId : string) (content : DecryptionSessionError)
    : StM unit :=
  with_view (StreamState.updateDecryptedContentError eventId content).

Definition updateLocalEvent (localId parsedEventHash : string) (status : LocalEventStatus)
    : StM unit :=
  with_view (StreamState.updateLocalEvent localId parsedEventHash status).
End Stream.
