(* ===== verification/StreamFacts.v ===== *)
(** * StreamFacts: the guarantees of a stream view as theorems

    Batches of events, miniblock headers, the invariant of every reachable
    state, local events, and the kind of content a stream id gets. *)

From Stdlib Require Import Strings.Ascii Strings.Byte.
From S2P Require Import Prelude JsLib JsMap Ids IdsFacts Proto Types TimelineTypes StreamEvents StreamViews Content ContentLaws Fixtures Members Timelines TimelinesView Channels Space UserStreams Migrations StreamState StreamStateFacts.

(** ** Every reachable state *)

(** What any method of a stream view does to its invariant *)
Record view_step (env env' : SEnv) : Prop := {
  vs_wf : stream_wf env → stream_wf env';
  vs_info : info_grows (miniblockInfo (self env)) (miniblockInfo (self env'));
  vs_kind : contentKind (ssv_content (self env')) = contentKind (ssv_content (self env));
}.

#[export] Instance view_step_preorder : PreOrder view_step.
Proof.
  split.
  - intros env. by split; [|reflexivity|].
  - intros e1 e2 e3 [W1 I1 K1] [W2 I2 K2]. split; [auto|by etrans|congruence].
Qed.

Lemma event_view_step env env' : event_step env env' → view_step env env'.
Proof.
  intros Hs. split; [by apply wf_event_step|apply Hs|]. pose proof (es_fixed _ _ Hs) as Hf.
  unfold fixed in Hf. congruence.
Qed.
Lemma moves_event {A} (m : SM A) : moves event_step m → moves view_step m.
Proof. intros Hm env. apply event_view_step, Hm. Qed.

Lemma moves_view_heap {A} (m : SM A) : keeps heap m → keeps self m → moves view_step m.
Proof.
  intros Hh Hs env. split; [|by rewrite (Hs env)|by rewrite (Hs env)].
  intros [Wh Wp Wi]. split; rewrite ?(Hh env), ?(Hs env); done.
Qed.

Lemma moves_view_self f :
  (∀ s, minipoolEvents (f s) = minipoolEvents s) →
  (∀ s, contentKind (ssv_content (f s)) = contentKind (ssv_content s)) →
  (∀ s, info_grows (miniblockInfo s) (miniblockInfo (f s))) →
  moves view_step (on_self f).
Proof.
  intros Hp Hk Hi env. split; simpl; [|apply Hi|apply Hk]. intros [Wh Wp Wi].
  split; simpl; [done|by rewrite Hp|by apply (Hi (self env))].
Qed.

Lemma moves_view_mutate o f :
  (∀ e, ste_hashStr (f e) = ste_hashStr e) → moves view_step (mutate o f).
Proof.
  intros Hf env. split; simpl; [|reflexivity|done]. intros [Wh Wp Wi]. split; simpl; [| |done].
  - intros o'. simpl. rewrite lookup_alter_is_Some. apply Wh.
  - intros k o' Hk. destruct (Wp k o' Hk) as (e & He & <-). rewrite get_obj_update.
    case_decide; [subst|by exists e]. rewrite He. eexists. split; [done|]. apply Hf.
Qed.

Lemma wf_alloc e env : stream_wf env → stream_wf (allocated e env).
Proof.
  intros Hw. apply (wf_event_step env); [|done]. split; simpl; try done.
  apply heap_ext_same, (heap_ext_alloc e).
Qed.
Lemma moves_view_newEvent e : moves view_step (newEvent e : SM ObjId).
Proof. intros env. split; simpl; [apply (wf_alloc e)|reflexivity|done]. Qed.
#[export] Hint Resolve moves_view_newEvent : moves.
#[export] Hint Extern 2 (moves view_step (on_timelines _)) =>
  apply moves_view_heap; apply keeps_zoom; intros ? ?; reflexivity : moves.
#[export] Hint Extern 2 (moves view_step (on_view _)) =>
  apply moves_view_heap; apply keeps_modify; intros ?; reflexivity : moves.
#[export] Hint Extern 2 (moves view_step (on_self _)) =>
  apply moves_view_self; intros; first [done|reflexivity] : moves.
#[export] Hint Extern 2 (moves view_step (mutate _ _)) =>
  apply moves_view_mutate; intros; reflexivity : moves.
#[export] Hint Extern 2 (moves view_step (on_members _)) =>
  apply moves_event, moves_part, moves_on_members; auto with moves nocore : moves.
#[export] Hint Extern 2 (moves view_step (getContent _)) =>
  apply moves_event, moves_part, moves_getContent; intros; auto with moves nocore : moves.

Section Reachable.
Context `{EthLib, Codec, Lodash}.

Lemma moves_processAppendedEvent o ct enc st : moves view_step (processAppendedEvent o ct enc st).
Proof.
  intros env. destruct (get_obj o (heap env)) as [e|] eqn:He; [destruct (ste_remoteEvent e) as [p|] eqn:Hr|].
  - destruct (minipoolEvents (self env) !! ste_hashStr e) as [o'|] eqn:Hn.
    + unfold processAppendedEvent, remoteOf. run. at_event He. rewrite Hr. run.
      unfold jm_has. rewrite Hn. run. reflexivity.
    + rewrite (post_processAppendedEvent o e p) by done.
      etrans; [|apply event_view_step, moves_append_payload].
      split; unfold pooled; [|by destruct (isHeader p)..]. by apply wf_pooled.
  - unfold processAppendedEvent, remoteOf. run. at_event He. rewrite Hr. run. reflexivity.
  - unfold processAppendedEvent, remoteOf. run. rewrite (post_bind_dangling _ _ _ He). reflexivity.
Qed.
Lemma moves_processPrependedEvent o ct enc st : moves view_step (processPrependedEvent o ct enc st).
Proof.
  unfold processPrependedEvent, remoteOf. moves. apply moves_event, moves_prepend_payload.
Qed.
Hint Resolve moves_processAppendedEvent moves_processPrependedEvent : moves.

Lemma moves_append_loop events acc cts enc st : moves view_step (append_loop events acc cts enc st).
Proof.
  revert acc. induction events as [|p events IH]; intros acc; cbn [append_loop]; unfold append_one; moves.
Qed.
Lemma moves_derefs l : moves view_step (derefs l).
Proof. induction l; cbn [derefs]; moves. Qed.
Lemma moves_miniblockEvents hd i events : moves view_step (miniblockEvents hd i events).
Proof. revert i. induction events; intros i; cbn [miniblockEvents]; moves. Qed.
Hint Resolve moves_append_loop moves_derefs moves_miniblockEvents : moves.
Lemma moves_flatEvents mbs : moves view_step (flatEvents mbs).
Proof. induction mbs; cbn [flatEvents]; moves. Qed.
Hint Resolve moves_flatEvents : moves.

Lemma moves_prependEvents mbs cts terminus enc st :
  moves view_step (prependEvents mbs cts terminus enc st).
Proof.
  unfold prependEvents, prepend_object. moves.
  apply moves_view_self; [done|done|]. intros s. simpl.
  destruct (miniblockInfo s) as [info|]; [|done]. split; [done|]. simpl. split_and!; [lia|lia|done].
Qed.
Lemma moves_appendStreamAndCookie c events cts enc st :
  moves view_step (appendStreamAndCookie c events cts enc st).
Proof. unfold appendStreamAndCookie. moves. Qed.
Hint Resolve moves_prependEvents moves_appendStreamAndCookie : moves.

Lemma moves_appendEvents events c cts : moves view_step (appendEvents events c cts).
Proof. unfold appendEvents. moves. Qed.
Lemma moves_updateDecryptedContent id content : moves view_step (updateDecryptedContent id content).
Proof. unfold updateDecryptedContent. moves. Qed.
Lemma moves_updateDecryptedContentError id err : moves view_step (updateDecryptedContentError id err).
Proof. unfold updateDecryptedContentError. moves. Qed.

Lemma moves_applySnapshot_content content cts enc env :
  view_step env (post (applySnapshot_content (self env) content cts enc) env).
Proof.
  apply event_view_step, part_event_step.
  unfold applySnapshot_content; destruct content; try reflexivity;
    destruct (ssv_content (self env)) eqn:Hc; try reflexivity;
    apply moves_on_object; try done; auto with moves nocore.
Qed.
Lemma moves_applySnapshot p snapshot cts enc : moves view_step (applySnapshot p snapshot cts enc).
Proof.
  unfold applySnapshot. apply moves_bind; [apply _|moves|intros s env].
  rewrite post_bind_gets, post_bind.
  pose proof (moves_applySnapshot_content (sn_content s) cts enc env) as Hs.
  destruct (res _ env); [|done]. etrans; [exact Hs|].
  apply event_view_step, part_event_step, moves_on_members. auto with moves nocore.
Qed.
Hint Resolve moves_applySnapshot : moves.

Lemma moves_initialize c events snapshot mbs pre n cts locals em :
  moves view_step (initialize c events snapshot mbs pre n cts locals em).
Proof. unfold initialize, prepend_object, append_object, initialize_local. moves. Qed.

Lemma moves_appendLocalEvent msg status em id now :
  moves view_step (appendLocalEvent msg status em id now).
Proof.
  intros env. unfold appendLocalEvent. run_env.
  match goal with |- context [post (getContent _ ≫= _) ?s] => set (env1 := s) end.
  etrans; [|apply (moves_bind view_step); [moves|intros ?; moves]].
  split; [|reflexivity|done]. intros Hw.
  destruct (wf_alloc (localEvent msg status id now (self env)) env Hw) as [Wh Wp Wi].
  split; [done| |done]. intros k o. simpl.
  rewrite jm_lookup_insert. case_decide; [|apply Wp]. intros [= <-]. eexists.
  split; [apply get_obj_alloc|done].
Qed.

Lemma moves_updateLocalEvent localId hash status : moves view_step (updateLocalEvent localId hash status).
Proof.
  intros env. unfold updateLocalEvent. rewrite post_bind_gets.
  destruct (nullish _ _) as [o|] eqn:Ho; [|reflexivity].
  destruct (get_obj o (heap env)) as [e|] eqn:He; [|by rewrite (post_bind_dangling _ _ _ He)].
  at_event He. destruct (isLocalEvent e) eqn:Hl; [|reflexivity]. run_env.
  match goal with |- context [post (deref _ ≫= _) ?s] => set (env1 := s) end.
  etrans; [|apply (moves_bind view_step); [moves|intros ?; moves]].
  split; [|reflexivity|done]. intros Hw.
  assert (Hk : minipoolEvents (self env) !! ste_hashStr e = Some o).
  { assert (∃ k, minipoolEvents (self env) !! k = Some o) as [k Hk].
    { unfold nullish in Ho. destruct (minipoolEvents (self env) !! localId) eqn:E; simplify_eq; eauto. }
    destruct (wf_pool _ Hw _ _ Hk) as (e' & He' & <-). by simplify_eq. }
  destruct Hw as [Wh Wp Wi]. split; [|intros k o'|done].
  - intros o'. simpl. rewrite lookup_alter_is_Some. apply Wh.
  - simpl. rewrite jm_lookup_insert, get_obj_update, jm_lookup_delete. case_decide as Hkh.
    + intros [= <-]. rewrite decide_True, He by done. simpl. eauto.
    + case_decide; [done|]. intros Hk'. destruct (Wp k o' Hk') as (e' & He' & <-).
      rewrite decide_False by congruence. eauto.
Qed.
End Reachable.

(** ** Headers *)

Section Headers.
Context `{EthLib, Codec, Lodash}.

Definition header_of (o : ObjId) (env : SEnv) (e : StreamTimelineEvent) (p : ParsedEvent)
    (hd : MiniblockHeader) : Prop :=
  get_obj o (heap env) = Some e ∧ ste_remoteEvent e = Some p
  ∧ ev_payload (pe_event p) = P_miniblockHeader hd
  ∧ minipoolEvents (self env) !! ste_hashStr e = None.

Definition in_order (hd : MiniblockHeader) (env : SEnv) : Prop :=
  match miniblockInfo (self env) with
  | Some info => 0 <= mbi_max info < mh_miniblockNum hd
  | None => 0 <= mh_miniblockNum hd
  end.

(** The last miniblock that is known, on which new events are made *)
Definition tip (s : StreamStateView) : option bytes * option Z * option Z :=
  (prevMiniblockHash s, prevMiniblockNum s, mbi_max <$> miniblockInfo s).

Lemma keeps_tip_part {A} (m : SM A) : moves part_step m → keeps (λ env, tip (self env)) m.
Proof. intros Hm env. pose proof (ps_shell _ _ (Hm env)) as Hs. unfold shell in Hs. unfold tip. simplify_eq. congruence. Qed.
Lemma keeps_tip_loop hd hashes i acc enc st :
  keeps (λ env, tip (self env)) (processMiniblockHeader_loop hd hashes i acc enc st).
Proof.
  assert (Hm : ∀ o, keeps (λ env, tip (self env)) (on_members (Members.onConfirmedEvent o st))) by
    (intros o; apply keeps_tip_part, moves_on_members; auto with moves nocore).
  assert (Hc : ∀ o, keeps (λ env, tip (self env)) (getContent (λ V X C, content_onConfirmedEvent o st enc))) by
    (intros o; apply keeps_tip_part, moves_getContent; intros; auto with moves nocore).
  revert i acc. induction hashes as [|h hashes IH]; intros i acc; cbn [processMiniblockHeader_loop]; keeps; auto.
Qed.

(** The state in which the events of a header are confirmed *)
Lemma header_prefix o p hd enc st env :
  in_order hd env →
  ∃ env1, event_step env env1
    ∧ minipoolEvents (self env1) = minipoolEvents (self env)
    ∧ tip (self env1) = (Some (pe_hash p), Some (mh_miniblockNum hd), Some (mh_miniblockNum hd))
    ∧ post (append_header o p hd enc st) env
      = post (processMiniblockHeader hd (mh_eventHashes hd) enc st) env1
    ∧ res (append_header o p hd enc st) env
      = res (processMiniblockHeader hd (mh_eventHashes hd) enc st) env1.
Proof.
  intros Hi.
  set (m := _ ← on_self (λ s, s <| prevMiniblockHash := Some (pe_hash p) |>
                                <| prevMiniblockNum := Some (mh_miniblockNum hd) |>);
            _ ← updateMiniblockInfo hd (Some (mh_miniblockNum hd)) None;
            mutate o (λ e, e <| ste_confirmedEventNum := Some (mh_eventNumOffset hd
                                          + Z.of_nat (length (mh_eventHashes hd))) |>
                             <| ste_miniblockNum := Some (mh_miniblockNum hd) |>) : SM unit).
  exists (post m env). split; [by unfold m; moves|]. split.
  { unfold m, updateMiniblockInfo. run_env. simpl. by destruct (miniblockInfo (self env)). }
  split.
  { unfold m, updateMiniblockInfo, tip. run_env. simpl. unfold in_order in Hi.
    destruct (miniblockInfo (self env)) as [[mx mn tr]|]; [|done]. simpl in *.
    unfold truthy_bigint. rewrite (proj2 (Z.eqb_neq (mh_miniblockNum hd) 0)) by lia.
    rewrite (proj2 (Z.ltb_lt mx (mh_miniblockNum hd))) by lia.
    simpl. by destruct (_ || _). }
  unfold append_header. rewrite post_bind_gets, res_bind_gets.
  rewrite (proj2 (Z.ltb_lt _ _)); [|unfold in_order in Hi; destruct (miniblockInfo (self env)); simpl in *; lia].
  unfold m, updateMiniblockInfo. by run_env.
Qed.
End Headers.

(** ** Local events *)

(** The timelines and the parts of a stream leave its pool and its numbers alone. *)
Definition quiet (env env' : SEnv) : Prop :=
  heap_ext (heap env) (heap env') ∧ shell (self env') = shell (self env).

#[export] Instance quiet_preorder : PreOrder quiet.
Proof.
  split; [intros env; by split; [reflexivity|]|].
  intros e1 e2 e3 [H1 S1] [H2 S2]. split; [by etrans|congruence].
Qed.
Lemma moves_quiet_part {A} (m : SM A) : moves part_step m → moves quiet m.
Proof. intros Hm env. split; apply Hm. Qed.
Lemma moves_quiet_timelines {A} (m : M Emit TimelinesView A) : moves quiet (on_timelines m).
Proof. intros env. unfold on_timelines. rewrite post_zoom. by split; [reflexivity|]. Qed.
#[export] Hint Resolve moves_quiet_timelines : moves.
#[export] Hint Extern 2 (moves quiet (getContent _)) =>
  apply moves_quiet_part, moves_getContent; intros; auto with moves nocore : moves.

Section Local.
Context `{EthLib, Codec, Lodash}.

Lemma appendLocalEvent_quiet msg status em id now env :
  quiet ((allocated (localEvent msg status id now (self env)) env)
           <| self ::= λ s, s <| lastEventNum ::= λ n, n + 1 |>
                              <| minipoolEvents ::= <["~" +:+ id := next_id (heap env)]> |> |>)
        (post (appendLocalEvent msg status em id now) env).
Proof.
  unfold appendLocalEvent. run_env. apply (moves_bind quiet); [moves|intros ?; moves].
Qed.

Lemma updateLocalEvent_quiet localId hash status o e env :
  minipoolEvents (self env) !! localId = Some o → get_obj o (heap env) = Some e →
  isLocalEvent e = true →
  quiet (env <| heap ::= update_obj o (λ e, e <| ste_hashStr := hash |>
                                              <| ste_localEvent ::= fmap (λ l, l <| le_status := status |>) |>) |>
             <| self ::= λ s, s <| minipoolEvents ::= λ m, <[hash := o]> (delete (ste_hashStr e) m) |> |>)
        (post (updateLocalEvent localId hash status) env).
Proof.
  intros Ho He Hl. unfold updateLocalEvent. rewrite post_bind_gets, Ho. simpl nullish. cbv iota.
  at_event He. rewrite Hl. run_env. apply (moves_bind quiet); [moves|intros ?; moves].
Qed.

Lemma quiet_obj env env' o e :
  quiet env env' → heap_wf (heap env) → get_obj o (heap env) = Some e →
  ∃ d, get_obj o (heap env') = Some (e <| ste_decryptedContent := d |>).
Proof.
  intros [Hh _] Hw He. destruct (Hh Hw) as (_ & _ & Hk). destruct (Hk o e He) as (e' & He' & <-).
  exists (ste_decryptedContent e'). rewrite He'. by destruct e'.
Qed.
Lemma quiet_self env env' :
  quiet env env' → minipoolEvents (self env') = minipoolEvents (self env)
                 ∧ lastEventNum (self env') = lastEventNum (self env).
Proof. intros [_ Hs]. unfold shell in Hs. by simplify_eq. Qed.
End Local.

(** ** The kind of a stream *)

(** The content that the prefix of a stream id stands for; metadata streams have none. *)
Definition kind_of (p : StreamPrefix) : option SnapshotCase :=
  match p with
  | Ids.Space => Some spaceContent
  | Ids.Channel => Some channelContent
  | DM => Some dmChannelContent
  | GDM => Some gdmChannelContent
  | Ids.Media => Some mediaContent
  | Ids.User => Some userContent
  | Ids.UserSettings => Some userSettingsContent
  | Ids.UserMetadata => Some userMetadataContent
  | Ids.UserInbox => Some userInboxContent
  | Metadata => None
  end.

Lemma hasPrefix_made `{EthLib} p i sid q :
  makeStreamId p i = Ok sid → hasPrefix q (SStr sid) = bool_decide (p = q).
Proof.
  intros Hm. destruct (proj1 (makeStreamId_shape p i sid) Hm) as (j & -> & _).
  apply startsWith_prefix.
Qed.

(** ** Theorems *)

(** The methods of a stream view, with any arguments *)
Inductive sstep `{EthLib, Codec, Lodash} : relation SEnv :=
  | S_initialize c events snapshot mbs pre n cts locals em env :
      sstep env (post (initialize c events snapshot mbs pre n cts locals em) env)
  | S_append events c cts env : sstep env (post (appendEvents events c cts) env)
  | S_prepend mbs cts terminus enc st env :
      sstep env (post (prependEvents mbs cts terminus enc st) env)
  | S_local msg status em id now env : sstep env (post (appendLocalEvent msg status em id now) env)
  | S_updateLocal localId hash status env :
      sstep env (post (updateLocalEvent localId hash status) env)
  | S_decrypted id content env : sstep env (post (updateDecryptedContent id content) env)
  | S_error id err env : sstep env (post (updateDecryptedContentError id err) env).

Lemma sstep_view `{EthLib, Codec, Lodash} env env' : sstep env env' → view_step env env'.
Proof.
  intros []; [apply moves_initialize|apply moves_appendEvents|apply moves_prependEvents
    |apply moves_appendLocalEvent|apply moves_updateLocalEvent|apply moves_updateDecryptedContent
    |apply moves_updateDecryptedContentError].
Qed.
Lemma ssteps_view `{EthLib, Codec, Lodash} env env' : rtc sstep env env' → view_step env env'.
Proof.
  induction 1 as [|e1 e2 e3 Hs _ IH]; [reflexivity|]. etrans; [by apply sstep_view|done].
Qed.

Section StreamTheorems.
Context `{EthLib, Codec, Lodash}.

(** C9. Whatever methods run on a new stream view, in whatever order, with
    whatever arguments and whether or not they throw: every event of the pool is
    stored under its own hash, the range of known miniblock numbers is not empty
    and only grows, and the kind of the content never changes. *)
Theorem stream_invariant userId sid s h v env1 env2 :
  StreamState.new userId sid = Ok s → heap_wf h →
  rtc sstep (Build_Env h v s) env1 → rtc sstep env1 env2 →
  (∀ k o, minipoolEvents (self env1) !! k = Some o →
    ∃ e, get_obj o (heap env1) = Some e ∧ ste_hashStr e = k) ∧
  (∀ a b, miniblockInfo (self env1) = Some a → miniblockInfo (self env2) = Some b →
    mbi_min b <= mbi_min a ∧ mbi_min a <= mbi_max a ∧ mbi_max a <= mbi_max b) ∧
  contentKind (ssv_content (self env2)) = contentKind (ssv_content s).
Proof.
  intros Hn Hh [W1 _ K1]%ssteps_view [_ I2 K2]%ssteps_view.
  assert (Hw : stream_wf env1).
  { apply W1. unfold StreamState.new in Hn. destruct (newContent sid); simplify_eq/=. by split. }
  split; [apply Hw|]. split; [|by rewrite K2, K1].
  intros a b Ha Hb. rewrite Ha, Hb in I2. pose proof (wf_info _ Hw) as Hi. rewrite Ha in Hi.
  simpl in Hi. destruct I2 as (_ & ? & ? & _). lia.
Qed.

(** C5. Appending a batch never fails, whatever its events hold: an event whose
    handler throws does not stop the batch. Every event ends up as an object with
    its hash and its remote event, new or already in the pool; the new ones are
    numbered consecutively from the last number on. *)
Theorem append_batch_total cookie events cts enc st env :
  stream_wf env →
  let m := appendStreamAndCookie cookie events cts enc st in
  let env' := post m env in
  ∃ r, res m env = Ok r
  ∧ syncCookie (self env') = Some cookie
  ∧ (length (ap_appended r) + length (ap_updated r) = length events)%nat
  ∧ lastEventNum (self env') = lastEventNum (self env) + Z.of_nat (length (ap_appended r))
  ∧ (∀ i o, ap_appended r !! i = Some o → ∃ e, get_obj o (heap env') = Some e
      ∧ ste_eventNum e = lastEventNum (self env) + Z.of_nat i)
  ∧ (∀ p, p ∈ events → ∃ o e, o ∈ ap_appended r ++ ap_updated r
      ∧ get_obj o (heap env') = Some e ∧ ste_hashStr e = pe_hashStr p
      ∧ is_Some (ste_remoteEvent e)).
Proof.
  intros Hw m env'. set (acc := {| ap_appended := []; ap_updated := []; ap_confirmed := [] |}).
  destruct (batch_loop env [] events acc cts enc st env) as (r & Hr & [_ Hc Hl Hn Hs]).
  { split; simpl; [done|done|lia|done|by intros p ?%not_elem_of_nil]. }
  exists r. subst m env'. unfold appendStreamAndCookie. fold acc.
  rewrite (res_bind_ok _ _ _ _ Hr), (post_bind_ok _ _ _ _ Hr). by run_env.
Qed.

(** C11. A miniblock header that is processed without an error confirms the
    events it names that are in the pool: they are returned in the order of the
    header, leave the pool, and carry the number of the miniblock and of their
    place in it; the other events of the pool stay. *)
Theorem header_confirms o e p hd ct enc st env confirmed :
  stream_wf env → header_of o env e p hd → in_order hd env → NoDup (hexes (mh_eventHashes hd)) →
  res (processAppendedEvent o ct enc st) env = Ok (Some confirmed) →
  let pool := minipoolEvents (self env) in
  let env' := post (processAppendedEvent o ct enc st) env in
  confirmed = omap (λ h, pool !! bin_toHexString h) (mh_eventHashes hd) ∧
  (∀ k, minipoolEvents (self env') !! k
        = if bool_decide (k ∈ hexes (mh_eventHashes hd)) then None else pool !! k) ∧
  (∀ i h o', mh_eventHashes hd !! i = Some h → pool !! bin_toHexString h = Some o' →
    ∃ e', get_obj o' (heap env') = Some e' ∧ ste_miniblockNum e' = Some (mh_miniblockNum hd)
      ∧ ste_confirmedEventNum e' = Some (mh_eventNumOffset hd + Z.of_nat i)).
Proof.
  intros Hw (He & Hr & Hp & Hn) Hi Hnd HR pool env'.
  assert (Hpl : pooled o e p env = env) by (unfold pooled, isHeader; by rewrite Hp).
  rewrite (res_processAppendedEvent o e p), Hpl in HR by done.
  subst env'. rewrite (post_processAppendedEvent o e p), Hpl by done.
  unfold append_payload in *. rewrite Hp in *.
  destruct (header_prefix o p hd enc st env Hi) as (env1 & Hs & Hpool & _ & EP & ER).
  rewrite res_bind in HR. rewrite post_bind.
  destruct (res (append_header o p hd enc st) env) as [c|] eqn:EA; [|done]. run. cbn in HR. simplify_eq.
  rewrite EP. unfold processMiniblockHeader in *.
  destruct (loop_confirms hd (mh_eventHashes hd) 0 [] enc st env1 confirmed) as (Hc & Hk & Hnum);
    [by apply (wf_event_step env)|done|done|].
  unfold pool. rewrite Hpool in *. split_and!; [done|done|]. intros i h o' Hh Ho'.
  destruct (Hnum i h o' Hh Ho') as (e' & He' & M & C). exists e'. rewrite C.
  split_and!; [done|done|]. f_equal. lia.
Qed.

(** C31. Progress: a header with a number above all known ones is processed
    without an error whenever the events it names that are in the pool are remote
    events of the content; and it becomes the highest known miniblock and the one
    on which the next events are made. *)
Theorem header_accepted o e p hd ct enc st env :
  stream_wf env → header_of o env e p hd → in_order hd env → confirmable (mh_eventHashes hd) env →
  (∃ confirmed, res (processAppendedEvent o ct enc st) env = Ok (Some confirmed)) ∧
  let s := self (post (processAppendedEvent o ct enc st) env) in
  mbi_max <$> miniblockInfo s = Some (mh_miniblockNum hd)
  ∧ prevMiniblockHash s = Some (pe_hash p) ∧ prevMiniblockNum s = Some (mh_miniblockNum hd).
Proof.
  intros Hw (He & Hr & Hp & Hn) Hi Hc.
  assert (Hpl : pooled o e p env = env) by (unfold pooled, isHeader; by rewrite Hp).
  rewrite (res_processAppendedEvent o e p), (post_processAppendedEvent o e p), Hpl by done.
  unfold append_payload. rewrite Hp.
  destruct (header_prefix o p hd enc st env Hi) as (env1 & Hs & Hpool & Hmax & EP & ER).
  assert (Hw1 : stream_wf env1) by (by apply (wf_event_step env)).
  assert (Hc1 : confirmable (mh_eventHashes hd) env1).
  { intros h o' e' Hh Ho' He'. rewrite Hpool in Ho'. destruct (wf_pool _ Hw _ _ Ho') as (e0 & He0 & _).
    destruct (es_heap _ _ Hs (wf_heap _ Hw)) as (_ & _ & Hk). destruct (Hk o' e0 He0) as (e1 & He1 & E1).
    simplify_eq. rewrite (content_event_same e0) by done. by apply (Hc h o'). }
  destruct (loop_live hd (mh_eventHashes hd) 0 [] enc st env1 Hw1 Hc1) as [c Hl].
  assert (EA : res (append_header o p hd enc st) env = Ok c) by (by rewrite ER).
  rewrite (res_bind_ok _ _ _ _ EA), (post_bind_ok _ _ _ _ EA). run. rewrite EP. split; [by eexists|].
  pose proof (keeps_tip_loop hd (mh_eventHashes hd) 0 [] enc st env1) as Ht. cbv beta in Ht.
  rewrite Hmax in Ht. unfold processMiniblockHeader, tip in *. by injection Ht as -> -> ->.
Qed.

(** A header that is not above the known miniblocks is refused: the error
    stays inside, and nothing changes and nothing is emitted. *)
Theorem stale_header_ignored o e p hd ct enc st info env :
  header_of o env e p hd → miniblockInfo (self env) = Some info →
  mh_miniblockNum hd <= mbi_max info →
  let m := processAppendedEvent o ct enc st in
  res m env = Ok None ∧ post m env = env ∧ out m env = [].
Proof.
  intros (He & Hr & Hp & Hn) Hi Hle m. unfold m, processAppendedEvent, remoteOf.
  run. rewrite (res_bind_deref _ _ _ _ He), (post_bind_deref _ _ _ _ He), (out_bind_deref _ _ _ _ He), Hr.
  run. rewrite (proj2 (jm_has_false _ _) Hn). simpl negb. run.
  unfold isHeader. rewrite Hp. simpl whenM. run.
  unfold append_payload, append_header, res, post, out, catchM. rewrite Hp.
  unfold check, throwWithCode. cbv [mbind M_bind gets]. rewrite Hi. simpl.
  rewrite (proj2 (Z.ltb_ge _ _)) by lia. done.
Qed.

(** C20. A local event and its remote event are one: after a message is appended
    locally and its hash is known, the remote event with that hash updates the
    local object instead of being appended a second time, and the message has
    used one event number. *)
Theorem local_event_merged msg status status2 em id now p cookie cts enc st env :
  stream_wf env → pe_hashStr p ≠ "~" +:+ id →
  let env1 := post (appendLocalEvent msg status em id now) env in
  let env2 := post (updateLocalEvent ("~" +:+ id) (pe_hashStr p) status2) env1 in
  let m := appendStreamAndCookie cookie [p] cts enc st in
  let env3 := post m env2 in
  ∃ o e, res m env2 = Ok {| ap_appended := []; ap_updated := [o]; ap_confirmed := [] |}
  ∧ get_obj o (heap env3) = Some e
  ∧ ste_hashStr e = pe_hashStr p ∧ ste_remoteEvent e = Some p
  ∧ ste_localEvent e = Some {| le_localId := "~" +:+ id; le_channelMessage := msg; le_status := status2 |}
  ∧ ste_eventNum e = lastEventNum (self env)
  ∧ lastEventNum (self env3) = lastEventNum (self env) + 1
  ∧ minipoolEvents (self env3) !! pe_hashStr p = Some o
  ∧ minipoolEvents (self env3) !! ("~" +:+ id) = None.
Proof.
  intros Hw Hne env1 env2 m env3. set (o := next_id (heap env)).
  pose proof (vs_wf _ _ (moves_appendLocalEvent msg status em id now env) Hw) as Hw1. fold env1 in Hw1.
  pose proof (appendLocalEvent_quiet msg status em id now env) as Q1. fold env1 in Q1.
  destruct (quiet_self _ _ Q1) as [P1 L1].
  destruct (quiet_obj _ _ o (localEvent msg status id now (self env)) Q1) as [d1 E1].
  { apply (wf_heap _ (wf_alloc _ _ Hw)). } { apply get_obj_alloc. }
  assert (O1 : minipoolEvents (self env1) !! ("~" +:+ id) = Some o).
  { rewrite P1. apply jm_lookup_insert_eq. }
  pose proof (updateLocalEvent_quiet ("~" +:+ id) (pe_hashStr p) status2 o _ env1 O1 E1 eq_refl) as Q2.
  fold env2 in Q2. destruct (quiet_self _ _ Q2) as [P2 L2].
  set (e1 := (localEvent msg status id now (self env)) <| ste_decryptedContent := d1 |>) in *.
  destruct (quiet_obj _ _ o (e1 <| ste_hashStr := pe_hashStr p |>
    <| ste_localEvent ::= fmap (λ l, l <| le_status := status2 |>) |>) Q2) as [d2 E2].
  { intros o'. simpl. rewrite lookup_alter_is_Some. apply Hw1. }
  { simpl. rewrite get_obj_update, decide_True by done. by rewrite E1. }
  assert (O2 : minipoolEvents (self env2) !! pe_hashStr p = Some o).
  { rewrite P2. apply jm_lookup_insert_eq. }
  set (acc := {| ap_appended := []; ap_updated := []; ap_confirmed := [] |}).
  destruct (append_one_existing acc p cts enc st o env2 O2) as [HP HR].
  assert (HL : res (append_loop [p] acc cts enc st) env2 = Ok (acc <| ap_updated := [o] |>)
    ∧ post (append_loop [p] acc cts enc st) env2
      = env2 <| heap ::= update_obj o (λ e, e <| ste_remoteEvent := Some p |>) |>).
  { cbn [append_loop]. by rewrite (res_bind_ok _ _ _ _ HR), (post_bind_ok _ _ _ _ HR), HP. }
  destruct HL as [HL1 HL2]. subst m env3. unfold appendStreamAndCookie. fold acc.
  rewrite (res_bind_ok _ _ _ _ HL1), (post_bind_ok _ _ _ _ HL1), HL2. run_env. simpl.
  eexists o, _. split; [done|]. split; [rewrite get_obj_update, decide_True, E2; done|].
  split_and!; try done.
  - simpl in L1, L2. rewrite L2, L1. done.
  - rewrite P2. etrans; [by apply jm_lookup_insert_ne|]. apply jm_lookup_delete_eq.
Qed.

(** The id of a stream determines its content: a view made for an id of some
    prefix has exactly the kind of content of that prefix. Only metadata streams
    are refused, and user metadata streams whose id holds no user id. *)
Theorem stream_kind_by_id userId p i sid :
  makeStreamId p i = Ok sid →
  match StreamState.new userId sid with
  | Ok s => kind_of p = Some (contentKind (ssv_content s)) ∧ ssv_streamId s = sid
            ∧ minipoolEvents s = ∅
  | Throw e =>
      p = Metadata ∧ e = CodeException "Metadata streams are not supported in SDK" UNIMPLEMENTED
      ∨ p = Ids.UserMetadata ∧ is_Ok (getUserIdFromStreamId sid) = false
  end.
Proof.
  intros Hm. unfold StreamState.new, newContent, isSpaceStreamId, isChannelStreamId, isDMChannelStreamId,
    isGDMChannelStreamId, isMediaStreamId, isUserStreamId, isUserSettingsStreamId, isUserDeviceStreamId,
    isUserInboxStreamId, isMetadataStreamId.
  rewrite !(hasPrefix_made p i sid) by done. destruct p; simpl; try by split_and!.
  - unfold UserMetadata.new. destruct (getUserIdFromStreamId sid); simpl; [by split_and!|by right].
  - by left.
Qed.
End StreamTheorems.

(** ** Examples *)

Module StreamWitness.
Import ModelEth Fixtures.

#[export] Instance lodash : Lodash := λ _ _, false.

Definition channelId : string := "20" +:+ Str.repeat "a"%char 62.
Definition cookie : SyncCookie := {|
  ck_nodeAddress := []; ck_streamId := []; ck_minipoolGen := 0; ck_prevMiniblockHash := [] |}.
Definition message (hash : byte) : ParsedEvent :=
  parsed hash x0a (P_channelPayload (CP_message (encrypted "hi"))).
Definition header (num offset : Z) (hashes : list bytes) : MiniblockHeader := {|
  mh_miniblockNum := num; mh_prevMiniblockHash := []; mh_timestampMs := 0;
  mh_eventHashes := hashes; mh_snapshot := None; mh_eventNumOffset := offset;
  mh_prevSnapshotMiniblockNum := 0; mh_snapshotHash := None; mh_content := true |}.
Definition headerEvent (hash : byte) (hd : MiniblockHeader) : ParsedEvent :=
  parsed hash x0a (P_miniblockHeader hd).

Definition view0 : StreamStateView :=
  match StreamState.new (user x0a) channelId with
  | Ok s => s
  | Throw _ => {| ssv_streamId := ""; ssv_userId := ""; ssv_content := C_channel (Channel.new "");
                  minipoolEvents := ∅; prevMiniblockHash := None; prevMiniblockNum := None;
                  lastEventNum := 0; prevSnapshotMiniblockNum := 0; miniblockInfo := None;
                  syncCookie := None; membershipContent := Members.new "" |}
  end.
Definition env0 : SEnv := Build_Env empty_heap (new_StreamsView (user x0a) None) view0.

Lemma heap_wf_empty : heap_wf empty_heap.
Proof. intros o. simpl. rewrite lookup_empty. by intros [? ?]. Qed.
Lemma view0_new : StreamState.new (user x0a) channelId = Ok view0.
Proof. vm_compute. reflexivity. Qed.
Lemma env0_wf : stream_wf env0.
Proof. split; [apply heap_wf_empty|done|done]. Qed.

(** Two messages, then the event of a header that names them *)
Definition env1 : SEnv := post (appendEvents [message x01; message x02] cookie None) env0.
Definition hd1 : MiniblockHeader := header 7 40 [[x02]; [x01]].
Definition e1 : StreamTimelineEvent := makeRemoteTimelineEvent (headerEvent x09 hd1) 2 None None.
Definition env2 : SEnv := allocated e1 env1.

Lemma env1_wf : stream_wf env1.
Proof. apply (vs_wf _ _ (moves_appendEvents _ _ _ env0)), env0_wf. Qed.
Lemma env2_wf : stream_wf env2.
Proof. apply wf_alloc, env1_wf. Qed.

Lemma stream_invariant_witness :
  contentKind (ssv_content (self env1)) = channelContent
  ∧ ∃ e, get_obj 1%nat (heap env1) = Some e ∧ ste_hashStr e = "02".
Proof.
  destruct (stream_invariant (user x0a) channelId view0 empty_heap
    (new_StreamsView (user x0a) None) env1 env1) as (Hp & _ & Hk).
  - exact view0_new.
  - exact heap_wf_empty.
  - unfold env1. eapply rtc_l; [apply S_append|apply rtc_refl].
  - apply rtc_refl.
  - split; [rewrite Hk; vm_compute; reflexivity|]. apply (Hp "02"). vm_compute. reflexivity.
Defined.

Lemma append_batch_total_witness :
  lastEventNum (self (post (appendStreamAndCookie cookie [message x01; message x02] None true true) env0)) = 2.
Proof.
  destruct (append_batch_total cookie [message x01; message x02] None true true env0 env0_wf)
    as (r & Hr & _ & _ & Hl & _).
  rewrite Hl. vm_compute in Hr. injection Hr as <-. vm_compute. reflexivity.
Defined.

Lemma header_at : header_of 2%nat env2 e1 (headerEvent x09 hd1) hd1.
Proof. split_and!; vm_compute; reflexivity. Qed.
Lemma header_hashes : NoDup (hexes (mh_eventHashes hd1)).
Proof. apply (bool_decide_unpack _). vm_compute. exact I. Qed.
Lemma header_in_order : in_order hd1 env2.
Proof. vm_compute. discriminate. Qed.

Lemma header_confirms_witness :
  let env3 := post (processAppendedEvent 2%nat None true true) env2 in
  minipoolEvents (self env3) !! "01" = None
  ∧ ∃ e, get_obj O (heap env3) = Some e ∧ ste_confirmedEventNum e = Some 41.
Proof.
  destruct (header_confirms 2%nat e1 (headerEvent x09 hd1) hd1 None true true env2 [1%nat; O])
    as (_ & Hk & Hn).
  - exact env2_wf.
  - exact header_at.
  - exact header_in_order.
  - exact header_hashes.
  - vm_compute. reflexivity.
  - split; [rewrite Hk; vm_compute; reflexivity|].
    destruct (Hn 1%nat [x01] O) as (e & He & _ & Hc); [reflexivity|vm_compute; reflexivity|].
    exists e. split; [exact He|exact Hc].
Defined.

Lemma header_confirmable : confirmable (mh_eventHashes hd1) env2.
Proof.
  intros h o e [->|[->|[]%elem_of_nil]%elem_of_cons]%elem_of_cons; vm_compute; intros [= <-] [= <-];
    reflexivity.
Qed.

Lemma header_accepted_witness :
  (∃ confirmed, res (processAppendedEvent 2%nat None true true) env2 = Ok (Some confirmed))
  ∧ mbi_max <$> miniblockInfo (self (post (processAppendedEvent 2%nat None true true) env2)) = Some 7.
Proof.
  destruct (header_accepted 2%nat e1 (headerEvent x09 hd1) hd1 None true true env2 env2_wf header_at
    header_in_order header_confirmable) as (H & Hm & _). exact (conj H Hm).
Defined.

(** The same header again *)
Definition env3 : SEnv := post (processAppendedEvent 2%nat None true true) env2.

Lemma stale_header_ignored_witness : post (processAppendedEvent 2%nat None true true) env3 = env3.
Proof.
  destruct (stale_header_ignored 2%nat
    (e1 <| ste_confirmedEventNum := Some 42 |> <| ste_miniblockNum := Some 7 |>)
    (headerEvent x09 hd1) hd1 None true true
    {| mbi_max := 7; mbi_min := 7; mbi_terminusReached := false |} env3) as (_ & H & _).
  - split_and!; vm_compute; reflexivity.
  - vm_compute. reflexivity.
  - vm_compute. discriminate.
  - exact H.
Defined.

Lemma local_event_merged_witness :
  let env1 := post (appendLocalEvent (CM_post (textPost "hi")) sending true "x" 5) env0 in
  let env2 := post (updateLocalEvent "~x" "01" sent) env1 in
  ∃ o e, get_obj o (heap (post (appendStreamAndCookie cookie [message x01] None true true) env2)) = Some e
    ∧ ste_remoteEvent e = Some (message x01) ∧ ste_eventNum e = 0.
Proof.
  destruct (local_event_merged (CM_post (textPost "hi")) sending sent true "x" 5 (message x01) cookie None
    true true env0 env0_wf) as (o & e & _ & He & _ & Hr & _ & Hn & _); [vm_compute; discriminate|].
  exists o, e. split; [exact He|]. split; [exact Hr|exact Hn].
Defined.

Lemma stream_kind_by_id_witness :
  match StreamState.new (user x0a) channelId with
  | Ok s => contentKind (ssv_content s) = channelContent
  | Throw _ => False
  end.
Proof.
  pose proof (stream_kind_by_id (user x0a) Ids.Channel (Str.repeat "a"%char 62) channelId) as H.
  rewrite view0_new in *. destruct H as (H & _); [vm_compute; reflexivity|]. 
  exact (f_equal (default channelContent) (eq_sym H)).
Defined.

(** The first miniblock is not recognised when it is prepended: [0n] is falsy. *)
Lemma first_miniblock_unnoticed :
  let info := Some {| mbi_max := 5; mbi_min := 3; mbi_terminusReached := false |} in
  let env := env0 <| self ::= λ s, s <| miniblockInfo := info |> |> in
  let o := next_id (heap env) in
  let event := makeRemoteTimelineEvent (headerEvent x09 (header 0 0 [])) 0 (Some 0) (Some 0) in
  let m := processPrependedEvent o None true true in
  is_Ok (res m (allocated event env)) = true
  ∧ miniblockInfo (self (post m (allocated event env))) = info.
Proof. split; vm_compute; reflexivity. Qed.
End StreamWitness.
