(* ===== verification/StreamLifecycle.v ===== *)
(** * StreamLifecycle: starting again and stopping a stream

    A stopped stream emits nothing, whatever is done to it. A stream that is
    initialised again keeps the local events that were not sent in its timeline
    but not in its pool, so that they cannot be updated any more. *)

From Stdlib Require Import Strings.Ascii Strings.Byte.
From S2P Require Import Prelude JsLib JsMap Ids IdsFacts Proto Types TimelineTypes StreamEvents Content Fixtures TimelinesView StreamState StreamFacts Stream.

Section Stopped.
Context `{EthLib, Codec, Lodash}.

(** Every method but [initialize] and [stop] is a method of the view. *)
Lemma with_view_stopped {A} (m : SM A) env :
  st_stopped (self env) = true →
  out (with_view m) env = [] ∧ st_stopped (self (post (with_view m) env)) = true.
Proof.
  intros Hs. unfold out, post, with_view. destruct (m _) as [[r e] o]. simpl. by rewrite Hs.
Qed.
End Stopped.

Module LifecycleExample.
Import ModelEth Fixtures StreamWitness.

Definition block : ParsedMiniblock := {|
  mb_hash := []; mb_header := header 0 0 []; mb_events := [headerEvent x09 (header 0 0 [])] |}.
Definition start : Env StreamsView Stream :=
  Build_Env empty_heap (new_StreamsView (user x0a) None)
    {| st_userId := user x0a; st_streamId := channelId; st_view := view0; st_stopped := false |}.
(** A message is sent while the stream is initialised again. *)
Definition sending_ : Env StreamsView Stream :=
  post (appendLocalEvent (CM_post (textPost "hi")) sending "x" 5) start.
Definition channelSnapshot : Snapshot := Build_Snapshot_ (Some (memberSnapshot [])) 5
  (SC_channelContent {| cps_inception := None |}).
Definition again : Env StreamsView Stream :=
  post (initialize cookie [] channelSnapshot [block] [] 0 None) sending_.

Lemma reinitialized_local_event_lost :
  is_Ok (res (initialize cookie [] channelSnapshot [block] [] 0 None) sending_) = true
  ∧ localEvents sending_ = [O]
  ∧ is_Ok (res (updateLocalEvent "~x" "01" sent) sending_) = true
  ∧ is_Ok (res (updateLocalEvent "~x" "01" sent) again) = false.
Proof. vm_compute. split_and!; reflexivity. Qed.
End LifecycleExample.
