(* ===== verification/SyncLoop.v ===== *)
(** * SyncLoop: the connection that keeps streams up to date
    (sdk/src/syncedStreamsLoop.ts)

    [SyncedStreamsLoop] runs three kinds of asynchronous code: the loop created
    by [createSyncLoop], the ticks that send changes of the subscription and
    process responses, and calls of [removeStreamFromSync] that wait. Between two
    [await]s code runs without interruption; the definitions are these stretches,
    and the state has the place where each activity waits ([LoopPc], [TickPc],
    [waiting]). What the server answers, when a promise settles and what time it
    is are inputs. Calls of the server and of the streams are outputs, like
    emitted events.

    Promises of RPCs whose results are only logged are not kept. Stream ids are
    hexadecimal, so [streamIdAsBytes] does not throw on them; messages to the
    server carry the ids. *)

From S2P Require Import Prelude JsLib JsMap Ids Proto Types.

Inductive SyncState := Canceling | NotSyncing | Retrying | Starting | Syncing.
#[export] Instance SyncState_eq_dec : EqDecision SyncState.
Proof. solve_decision. Defined.

Definition stateConstraints (s : SyncState) : list SyncState :=
  match s with
  | NotSyncing => [Starting]
  | Starting => [Syncing; Retrying; Canceling]
  | Syncing => [Canceling; Retrying]
  | Retrying => [Starting; Canceling; Syncing; Retrying]
  | Canceling => [NotSyncing]
  end.
(** [stateConstraints[s].has(s')] *)
Definition canGo (s s' : SyncState) : bool := bool_decide (s' ∈ stateConstraints s).

Inductive SyncOp :=
  | SYNC_UNSPECIFIED | SYNC_NEW | SYNC_CLOSE | SYNC_UPDATE | SYNC_PONG | SYNC_DOWN | SYNC_OTHER (n : Z).

(** [StreamAndCookie]: what the loop itself reads of an update *)
Record SyncStream := { sy_nextSyncCookie : option SyncCookie; sy_syncReset : bool }.

Record SyncStreamsResponse := {
  sr_syncId : string;
  sr_syncOp : SyncOp;
  sr_stream : option SyncStream;
  sr_pongNonce : string;
  sr_streamId : bytes;
}.

(** [{ syncCookie, stream }], an object; streams are known by a number. *)
Record StreamRecord := { rec_ref : nat; rec_syncCookie : SyncCookie; rec_stream : nat }.
#[export] Instance eta_StreamRecord : Eta StreamRecord := λ r,
  Build_StreamRecord (rec_ref r) (rec_syncCookie r) (rec_stream r).

Record NonceStats := {
  ns_sequence : Z;
  ns_pingAt : Z;
  ns_receivedAt : option Z;
  ns_duration : option Z;
}.
Record PingInfo := {
  pi_nonces : gmap string NonceStats;
  pi_currentSequence : Z;
  pi_pingTimeout : bool;
}.
#[export] Instance eta_PingInfo : Eta PingInfo := λ r,
  Build_PingInfo (pi_nonces r) (pi_currentSequence r) (pi_pingTimeout r).

(** Where the loop waits: for the next response or an interruption, for the end
    of a retry delay (which has passed, or not), or nowhere any more. *)
Inductive LoopPc := AtRace | AtRetry (released : bool) | Finished.

(** Where a tick waits: for [modifySync], for the unpacking of an update, for
    the stream that gets it, or for its own [finally]. *)
Inductive TickPc :=
  | AtModify (syncId : option string) (streamsToAdd streamsToDelete : list string)
  | AtUnpack (streamId : string) (record : StreamRecord) (syncStream : SyncStream)
  | AtStream
  | Settled.

(** A call of [removeStreamFromSync] in [waitForSyncingState] *)
Record Waiting := { wt_streamId : string; wt_record : StreamRecord; wt_resolved : bool }.
#[export] Instance eta_Waiting : Eta Waiting := λ r,
  Build_Waiting (wt_streamId r) (wt_record r) (wt_resolved r).

Record Loop := {
  streams : jsmap string StreamRecord;
  next_ref : nat;
  syncLoop : option LoopPc;
  syncId : option string;
  syncState : SyncState;
  currentRetryCount : Z;
  isMobileSafariBackgrounded : bool;
  responsesQueue : list SyncStreamsResponse;
  inProgressTick : option TickPc;
  (** timers that will call [checkStartTicking] *)
  tickTimers : nat;
  pendingSyncCookies : list string;
  inFlightSyncCookies : gset string;
  pendingStreamsToDelete : list string;
  lastLogInflightAt : Z;
  syncStartedAt : option Z;
  processedStreamCount : Z;
  (** is the timer set *)
  streamSyncStalled : bool;
  pingInfo : PingInfo;
  highPriorityIds : list string;
  useModifySync : bool;
  waiting : list Waiting;
  (** [Date.now()], [performance.now()] *)
  clock : Z;
}.
#[export] Instance eta_Loop : Eta Loop := λ r,
  Build_Loop (streams r) (next_ref r) (syncLoop r) (syncId r) (syncState r) (currentRetryCount r)
    (isMobileSafariBackgrounded r) (responsesQueue r) (inProgressTick r) (tickTimers r)
    (pendingSyncCookies r) (inFlightSyncCookies r) (pendingStreamsToDelete r) (lastLogInflightAt r)
    (syncStartedAt r) (processedStreamCount r) (streamSyncStalled r) (pingInfo r)
    (highPriorityIds r) (useModifySync r) (waiting r) (clock r).

Definition MAX_IN_FLIGHT_COOKIES : nat := 40.
Definition MIN_IN_FLIGHT_COOKIES : nat := 10.
Definition MAX_IN_FLIGHT_STREAMS_TO_DELETE : nat := 40.
Definition MAX_RETRY_DELAY_FACTOR : Z := 7.

Inductive SyncOut :=
  | streamSyncStateChange (s : SyncState)
  | streamSyncActive (active : bool)
  | streamRemovedFromSync (streamId : string)
  | streamSyncBatchCompleted (duration count : Z)
  | streamSyncTimedOut (duration : Z)
  | rpc_syncStreams (syncPos : list SyncCookie)
  | rpc_modifySync (syncId : option string) (addStreams : list SyncCookie) (removeStreams : list string)
  | rpc_cancelSync (syncId : string)
  | rpc_addStreamToSync (syncId : string) (syncPos : SyncCookie)
  | rpc_pingSync (syncId nonce : string)
  | set_retryTimeout (ms : Z)
  | stream_stop (stream : nat)
  | stream_resetUpToDate (stream : nat)
  | stream_initializeFromResponse (stream : nat)
  | stream_appendEvents (stream : nat).

Abbreviation LM := (M SyncOut Loop).

(** ** Priorities *)

Section Priority.
Context `{EthLib}.

Definition priorityFromStreamId (streamId : string) (highPriorityIds : list string) : Res Z :=
  if isUserDeviceStreamId (SStr streamId) || isUserInboxStreamId (SStr streamId)
     || isUserStreamId (SStr streamId) || isUserSettingsStreamId (SStr streamId)
  then Ok 0
  else if bool_decide (streamId ∈ highPriorityIds) then Ok 1
  else if isChannelStreamId (SStr streamId)
  then
    spaceId ← spaceIdFromChannelId streamId;
    Ok (if bool_decide (spaceId ∈ highPriorityIds) then 2 else 3)
  else if match highPriorityIds with
          | firstHPI :: _ =>
              (isDMChannelStreamId (SStr firstHPI) || isGDMChannelStreamId (SStr firstHPI))
              && (isDMChannelStreamId (SStr streamId) || isGDMChannelStreamId (SStr streamId))
          | [] => false
          end
  then Ok 4
  else if isSpaceStreamId (SStr streamId) then Ok 5
  else Ok 6.

Fixpoint withPriority {A} (id : A → string) (highPriorityIds : list string) (l : list A)
    : Res (list (Z * A)) :=
  match l with
  | [] => Ok []
  | x :: l =>
      p ← priorityFromStreamId (id x) highPriorityIds;
      r ← withPriority id highPriorityIds l;
      Ok ((p, x) :: r)
  end.

(** [l.sort((a, b) => aPriority - bPriority)]: with two elements or more every
    priority is computed, and an error in one of them is the result. *)
Definition sortByPriority {A} (id : A → string) (highPriorityIds : list string) (l : list A)
    : Res (list A) :=
  if (length l <=? 1)%nat then Ok l
  else
    r ← withPriority id highPriorityIds l;
    Ok (stable_sort (λ a b, a.1 <=? b.1) r).*2.
End Priority.

(** ** States *)

Definition setSyncState (newState : SyncState) : LM unit :=
  this ← getM;
  if bool_decide (syncState this = newState)
  then throwM (PlainError "setSyncState called for the existing state")
  else if negb (canGo (syncState this) newState) then throwM (PlainError "invalid state transition")
  else
    _ ← modify (λ s, s <| syncState := newState |>);
    _ ← emit true (streamSyncStateChange newState);
    (* the listeners of [waitForSyncingState] *)
    whenM (negb (canGo newState Syncing))
      (modify (λ s, s <| waiting ::= fmap (λ w, w <| wt_resolved := true |>) |>)).

Definition stopPing : LM unit :=
  modify (λ s, s <| pingInfo := {| pi_nonces := ∅; pi_currentSequence := 0; pi_pingTimeout := false |} |>).

Definition sendKeepAlivePings : LM unit :=
  modify (λ s, s <| pingInfo ::= λ p, p <| pi_pingTimeout := true |> |>).

(** The timer of [sendKeepAlivePings], up to the [await] of [pingSync] *)
Definition ping (nonce : string) : LM unit :=
  this ← getM;
  match syncId this with
  | Some id =>
      whenM (bool_decide (syncState this = Syncing) && truthy_str id)
        (_ ← modify (λ s, s <| pingInfo ::= λ p, p
               <| pi_nonces ::= <[nonce := {| ns_sequence := pi_currentSequence p; ns_pingAt := clock this;
                                             ns_receivedAt := None; ns_duration := None |}]> |>
               <| pi_currentSequence ::= λ n, n + 1 |> |>);
         emit true (rpc_pingSync id nonce))
  | None => mret tt
  end.

(** and after it *)
Definition ping_sent : LM unit :=
  this ← getM;
  whenM (bool_decide (syncState this = Syncing)) sendKeepAlivePings.

(** [this.releaseRetryWait?.()]; it is set while the loop waits to retry. *)
Definition releaseRetryWait : LM unit :=
  modify (λ s, match syncLoop s with
               | Some (AtRetry false) => s <| syncLoop := Some (AtRetry true) |>
               | _ => s
               end).

(** [attemptRetry] up to its [await]: does it wait? *)
Definition attemptRetry : LM bool :=
  _ ← stopPing;
  this ← getM;
  if canGo (syncState this) Retrying then
    _ ← whenM (negb (bool_decide (syncState this = Retrying)))
          (_ ← setSyncState Retrying;
           _ ← modify (λ s, s <| syncId := None |>);
           _ ← forM (jm_values (streams this)) (λ r, emit true (stream_resetUpToDate (rec_stream r)));
           _ ← modify (λ s, s <| inFlightSyncCookies := ∅ |> <| pendingSyncCookies := [] |>
                             <| pendingStreamsToDelete := [] |>);
           emit true (streamSyncActive false));
    let nextRetryCount := if MAX_RETRY_DELAY_FACTOR <=? currentRetryCount this
                          then MAX_RETRY_DELAY_FACTOR else currentRetryCount this + 1 in
    let retryDelay := 2 ^ nextRetryCount * 1000 in
    _ ← modify (λ s, s <| currentRetryCount := nextRetryCount |>);
    _ ← emit true (set_retryTimeout retryDelay);
    mret true
  else mret false.

Definition syncClosed : LM unit :=
  _ ← stopPing;
  this ← getM;
  whenM (negb (bool_decide (syncState this = Canceling))) (setSyncState Retrying).

Section Sync.
Context `{EthLib}.

(** [retryParams] is the sync id and the number of retries of an earlier call. *)
Definition syncDown (streamId : bytes) (retryParams : option (string * Z)) : LM unit :=
  this ← getM;
  match syncId this with
  | None => mret tt
  | Some id =>
      if match retryParams with Some (retryId, _) => negb (String.eqb retryId id) | None => false end
      then mret tt
      else if (length streamId =? 0)%nat then mret tt
      else if negb (bool_decide (syncState this = Syncing)) then mret tt
      else match streams this !! streamIdAsString (SBytes streamId) with
           | None => mret tt
           | Some stream => emit true (rpc_addStreamToSync id (rec_syncCookie stream))
           end
  end.

(** The delay of the timer that calls [syncDown] again after an error *)
Definition syncDown_retryDelay (retryCount : Z) : Z := Z.min (1000 * 2 ^ retryCount) 60000.

(** ** Updates and ticks *)

(** An update for a stream in flight *)
Definition received (streamId : string) : LM unit :=
  this ← getM;
  whenM (bool_decide (streamId ∈ inFlightSyncCookies this))
    (_ ← modify (λ s, s <| inFlightSyncCookies ::= (.∖ {[streamId]}) |>
                        <| processedStreamCount ::= λ n, n + 1 |>);
     this ← getM;
     let none := (size (inFlightSyncCookies this) =? 0)%nat in
     whenM (none || (5000 <? clock this - lastLogInflightAt this))
       (_ ← match syncStartedAt this with
            | Some startedAt =>
                if none
                then
                  _ ← emit true (streamSyncBatchCompleted (clock this - startedAt) (processedStreamCount this));
                  modify (λ s, s <| syncStartedAt := None |> <| processedStreamCount := 0 |>
                                 <| streamSyncStalled := false |>)
                else modify (λ s, s <| streamSyncStalled := true |>)
            | None => modify (λ s, s <| streamSyncStalled := true |>)
            end;
        modify (λ s, s <| lastLogInflightAt := clock s |>))).

(** The timer [streamSyncStalled] *)
Definition stalled : LM unit :=
  this ← getM;
  _ ← match syncStartedAt this with
      | Some startedAt => whenM (negb (startedAt =? 0)) (emit true (streamSyncTimedOut (clock this - startedAt)))
      | None => mret tt
      end;
  modify (λ s, s <| streamSyncStalled := false |>).

(** [onUpdate] up to the [await] of the unpacking *)
Definition onUpdate (res : SyncStreamsResponse) : LM TickPc :=
  this ← getM;
  if bool_decide (syncState this = Syncing) || bool_decide (syncState this = Canceling) then
    if negb (bool_decide (syncId this = Some (sr_syncId res)))
    then throwM (PlainError "syncId mismatch")
    else match sr_stream res with
         | None => mret Settled
         | Some syncStream =>
             let streamId := streamIdAsString (SBytes (default [] (ck_streamId <$> sy_nextSyncCookie syncStream))) in
             _ ← received streamId;
             this ← getM;
             match streams this !! streamId with
             | None => mret Settled
             | Some streamRecord => mret (AtUnpack streamId streamRecord syncStream)
             end
         end
  else mret Settled.

(** The end of [tick], after the subscription is changed *)
Definition tick_response : LM TickPc :=
  this ← getM;
  match responsesQueue this with
  | [] => mret Settled
  | item :: queue =>
      _ ← modify (λ s, s <| responsesQueue := queue |>);
      if bool_decide (syncId this = Some (sr_syncId item)) then onUpdate item else mret Settled
  end.

(** [tick] up to its first [await] *)
Definition tick : LM TickPc :=
  this ← getM;
  let toDelete := List.filter (λ x, negb (bool_decide (x ∈ inFlightSyncCookies this)))
                    (pendingStreamsToDelete this) in
  if bool_decide (syncState this = Syncing)
     && (((size (inFlightSyncCookies this) <=? MIN_IN_FLIGHT_COOKIES)%nat
          && (0 <? length (pendingSyncCookies this))%nat)
         || (0 <? length toDelete)%nat)
  then
    sorted ← liftR (sortByPriority id (highPriorityIds this) (pendingSyncCookies this));
    let streamsToAdd := take MAX_IN_FLIGHT_COOKIES sorted in
    let streamsToDelete := take MAX_IN_FLIGHT_STREAMS_TO_DELETE toDelete in
    let pendingDelete := List.filter (λ x, negb (bool_decide (x ∈ streamsToDelete)))
                           (drop MAX_IN_FLIGHT_STREAMS_TO_DELETE toDelete) in
    _ ← modify (λ s, s
          <| pendingSyncCookies := drop MAX_IN_FLIGHT_COOKIES sorted |>
          <| pendingStreamsToDelete := pendingDelete |>
          <| inFlightSyncCookies ::= λ f, list_to_set streamsToAdd ∪ f |>);
    let syncPos := omap (λ x, rec_syncCookie <$> streams this !! x) streamsToAdd in
    _ ← emit true (rpc_modifySync (syncId this) syncPos streamsToDelete);
    mret (AtModify (syncId this) streamsToAdd streamsToDelete)
  else tick_response.

(** A rejected tick is logged and settled. *)
Definition run_tick (m : LM TickPc) : LM unit :=
  pc ← catchM m (λ _, mret Settled);
  modify (λ s, s <| inProgressTick := Some pc |>).

Definition checkStartTicking : LM unit :=
  this ← getM;
  match inProgressTick this with
  | Some _ => mret tt
  | None =>
      if (length (responsesQueue this) =? 0)%nat && (length (pendingSyncCookies this) =? 0)%nat
         && (length (pendingStreamsToDelete this) =? 0)%nat
      then mret tt
      else if isMobileSafariBackgrounded this then mret tt
      else run_tick tick
  end.

(** [streamsToAdd.forEach((x) => { if (inFlight.delete(x)) pending.push(x) })] *)
Definition putBack (streamsToAdd : list string) (s : Loop) : Loop :=
  foldl (λ s x, if bool_decide (x ∈ inFlightSyncCookies s)
                then s <| inFlightSyncCookies ::= (.∖ {[x]}) |>
                       <| pendingSyncCookies ::= λ l, l ++ [x] |>
                else s) s streamsToAdd.

(** [modifySync] has returned, or has thrown: what was to be added and deleted
    is put back, for the same sync. *)
Definition modified (ok : bool) : LM unit :=
  this ← getM;
  match inProgressTick this with
  | Some (AtModify id streamsToAdd streamsToDelete) =>
      run_tick
        (_ ← whenM (negb ok && bool_decide (syncId this = id) && bool_decide (syncState this = Syncing))
               (modify (λ s, (putBack streamsToAdd s)
                               <| pendingStreamsToDelete ::= λ l, l ++ streamsToDelete |>));
         tick_response)
  | _ => mret tt
  end.

(** The update is unpacked ([cookie] is its next cookie), or unpacking threw. *)
Definition unpacked (cookie : option SyncCookie) : LM unit :=
  this ← getM;
  match inProgressTick this, cookie with
  | Some (AtUnpack streamId record syncStream), Some cookie =>
      _ ← modify (λ s, s <| streams ::= jm_alter (λ r,
            if (rec_ref r =? rec_ref record)%nat then r <| rec_syncCookie := cookie |> else r) streamId |>);
      _ ← emit true (if sy_syncReset syncStream then stream_initializeFromResponse (rec_stream record)
                     else stream_appendEvents (rec_stream record));
      modify (λ s, s <| inProgressTick := Some AtStream |>)
  | Some (AtUnpack _ _ _), None => modify (λ s, s <| inProgressTick := Some Settled |>)
  | _, _ => mret tt
  end.

(** The stream is done with the update. *)
Definition updated : LM unit :=
  this ← getM;
  match inProgressTick this with
  | Some AtStream => modify (λ s, s <| inProgressTick := Some Settled |>)
  | _ => mret tt
  end.

(** The [finally] of a tick *)
Definition tick_finally : LM unit :=
  this ← getM;
  match inProgressTick this with
  | Some Settled => modify (λ s, s <| inProgressTick := None |> <| tickTimers ::= S |>)
  | _ => mret tt
  end.

Definition tick_timer : LM unit :=
  this ← getM;
  match tickTimers this with
  | S n => _ ← modify (λ s, s <| tickTimers := n |>); checkStartTicking
  | O => mret tt
  end.

(** ** The loop *)

Definition syncStarted (id : string) : LM unit :=
  this ← getM;
  whenM (negb (truthy (syncId this)) && canGo (syncState this) Syncing)
    (_ ← setSyncState Syncing;
     _ ← modify (λ s, s <| syncId := Some id |> <| currentRetryCount := 0 |>);
     _ ← sendKeepAlivePings;
     _ ← emit true (streamSyncActive true);
     checkStartTicking).

(** The [finally] of the loop *)
Definition loop_finally : LM LoopPc :=
  _ ← stopPing;
  _ ← modify (λ s, s <| streamSyncStalled := false |>);
  this ← getM;
  _ ← whenM (canGo (syncState this) NotSyncing)
        (_ ← setSyncState NotSyncing;
         _ ← forM (jm_values (streams this)) (λ r, emit true (stream_stop (rec_stream r)));
         _ ← modify (λ s, s <| streams := ∅ |> <| syncId := None |>);
         emit true (streamSyncActive false));
  mret Finished.

Definition active (s : SyncState) : bool :=
  bool_decide (s = Starting) || bool_decide (s = Syncing) || bool_decide (s = Retrying).

(** The outer [while] up to the wait for a response; [false] when it ends *)
Definition loop_body : LM bool :=
  this ← getM;
  if active (syncState this) then
    _ ← modify (λ s, s <| inFlightSyncCookies := ∅ |> <| pendingSyncCookies := [] |>
                      <| pendingStreamsToDelete := [] |>);
    syncCookies ←
      (if useModifySync this
       then _ ← modify (λ s, s <| pendingSyncCookies := jm_keys (streams s) |>); mret []
       else
         entries ← liftR (sortByPriority id (highPriorityIds this) (jm_keys (streams this)));
         _ ← modify (λ s, s <| inFlightSyncCookies := list_to_set entries |>);
         mret (omap (λ x, rec_syncCookie <$> streams this !! x) entries));
    _ ← modify (λ s, s <| syncStartedAt := Some (clock s) |> <| processedStreamCount := 0 |>);
    _ ← whenM (bool_decide (syncState this = Retrying)) (setSyncState Starting);
    _ ← modify (λ s, s <| syncId := None |>);
    _ ← emit true (rpc_syncStreams syncCookies);
    mret true
  else mret false.

Definition loop_iteration : LM LoopPc :=
  waits ← catchM loop_body (λ _, mret false);
  if (waits : bool) then mret AtRace else loop_finally.

Definition loop_error : LM LoopPc :=
  waits ← attemptRetry;
  if (waits : bool) then mret (AtRetry false) else loop_iteration.

Definition onResponse (value : SyncStreamsResponse) : LM unit :=
  if negb (truthy_str (sr_syncId value)) then mret tt
  else match sr_syncOp value with
  | SYNC_UNSPECIFIED | SYNC_OTHER _ => mret tt
  | SYNC_NEW => syncStarted (sr_syncId value)
  | SYNC_CLOSE => syncClosed
  | SYNC_UPDATE =>
      _ ← modify (λ s, s <| responsesQueue ::= λ q, q ++ [value] |>);
      checkStartTicking
  | SYNC_PONG =>
      modify (λ s, s <| pingInfo ::= λ p, p <| pi_nonces ::= alter (λ n,
        {| ns_sequence := ns_sequence n; ns_pingAt := ns_pingAt n; ns_receivedAt := Some (clock s);
           ns_duration := Some (clock s - ns_pingAt n) |}) (sr_pongNonce value) |> |>)
  | SYNC_DOWN => syncDown (sr_streamId value) None
  end.

(** What ends the wait for a response: a response, the end of the responses (or
    [forceStopSyncStreams]), or an error of the connection (or [interruptSync]) *)
Inductive RaceResult := Value (value : SyncStreamsResponse) | Done | Error.

Definition loop_race (r : RaceResult) : LM LoopPc :=
  match r with
  | Done => loop_finally
  | Error => loop_error
  | Value value =>
      ok ← catchM (_ ← onResponse value; mret true) (λ _, mret false);
      if negb ok then loop_error
      else
        this ← getM;
        if bool_decide (syncState this = Syncing) || bool_decide (syncState this = Starting)
        then mret AtRace else loop_iteration
  end.

Definition run_loop (m : LM LoopPc) : LM unit :=
  pc ← m;
  modify (λ s, s <| syncLoop := Some pc |>).

(** The loop goes on from where it waits. *)
Definition raced (r : RaceResult) : LM unit :=
  this ← getM;
  match syncLoop this with
  | Some AtRace => run_loop (loop_race r)
  | _ => mret tt
  end.
Definition retried : LM unit :=
  this ← getM;
  match syncLoop this with
  | Some (AtRetry true) => run_loop loop_iteration
  | _ => mret tt
  end.

Definition createSyncLoop : LM unit :=
  this ← getM;
  if negb (canGo (syncState this) Starting) then throwM (PlainError "invalid state transition")
  else
    _ ← setSyncState Starting;
    match syncLoop this with
    | Some _ => throwM (PlainError "createSyncLoop called while a loop exists")
    | None => run_loop loop_iteration
    end.

(** ** Operations *)

Definition start : LM unit := createSyncLoop.

(** [stop] up to its [await]; the rest of it only waits. *)
Definition stop : LM unit :=
  _ ← modify (λ s, s <| responsesQueue := [] |>);
  this ← getM;
  whenM (canGo (syncState this) Canceling)
    (_ ← setSyncState Canceling;
     _ ← stopPing;
     _ ← releaseRetryWait;
     match syncId this with
     | Some id => whenM (truthy_str id) (emit true (rpc_cancelSync id))
     | None => mret tt
     end).

Definition addStreamToSync (streamId : string) (syncCookie : SyncCookie) (stream : nat) : LM unit :=
  this ← getM;
  if jm_has streamId (streams this) then mret tt
  else
    _ ← match findIndex (String.eqb streamId) (pendingStreamsToDelete this) with
        | Some pendingIndex => modify (λ s, s <| pendingStreamsToDelete ::= splice1 pendingIndex |>)
        | None => mret tt
        end;
    _ ← modify (λ s, s
          <| streams ::= <[streamId := {| rec_ref := next_ref s; rec_syncCookie := syncCookie;
                                          rec_stream := stream |}]> |>
          <| next_ref ::= S |>
          <| pendingSyncCookies ::= λ l, l ++ [streamId] |>);
    checkStartTicking.

(** The end of [removeStreamFromSync] *)
Definition removeStream (streamId : string) (streamRecord : StreamRecord) : LM unit :=
  this ← getM;
  _ ← whenM (bool_decide (syncState this = Syncing))
        (_ ← modify (λ s, s <| pendingStreamsToDelete ::= λ l, l ++ [streamId] |>);
         _ ← emit true (stream_stop (rec_stream streamRecord));
         _ ← modify (λ s, s <| streams ::= delete streamId |>);
         emit true (streamRemovedFromSync streamId));
  modify (λ s, s <| inFlightSyncCookies ::= (.∖ {[streamId]}) |>).

(** [removeStreamFromSync] up to its [await], if it comes to it *)
Definition removeStreamFromSync (streamId : string) : LM unit :=
  this ← getM;
  match streams this !! streamId with
  | None => mret tt
  | Some streamRecord =>
      match findIndex (String.eqb streamId) (pendingSyncCookies this) with
      | Some pendingIndex =>
          _ ← modify (λ s, s <| pendingSyncCookies ::= splice1 pendingIndex |>);
          _ ← emit true (stream_stop (rec_stream streamRecord));
          modify (λ s, s <| streams ::= delete streamId |>)
      | None =>
          if bool_decide (streamId ∈ pendingStreamsToDelete this) then mret tt
          else if bool_decide (syncState this = Starting) || bool_decide (syncState this = Retrying)
          then modify (λ s, s <| waiting ::= λ l, l ++
                 [{| wt_streamId := streamId; wt_record := streamRecord; wt_resolved := false |}] |>)
          else removeStream streamId streamRecord
      end
  end.

(** The [i]-th waiting call goes on. *)
Definition removeStream_resumed (i : nat) : LM unit :=
  this ← getM;
  match waiting this !! i with
  | Some w =>
      whenM (wt_resolved w)
        (_ ← modify (λ s, s <| waiting ::= splice1 i |>);
         removeStream (wt_streamId w) (wt_record w))
  | None => mret tt
  end.

Definition setHighPriorityStreams (streamIds : list string) : LM unit :=
  modify (λ s, s <| highPriorityIds :=
    foldl (λ l x, if bool_decide (x ∈ l) then l else l ++ [x]) [] streamIds |>).

Definition onNetworkStatusChanged (isOnline : bool) : LM unit := whenM isOnline releaseRetryWait.

Definition onMobileSafariBackgrounded (hidden : bool) : LM unit :=
  _ ← modify (λ s, s <| isMobileSafariBackgrounded := hidden |>);
  whenM (negb hidden) (_ ← releaseRetryWait; checkStartTicking).

Definition new (streamRecords : list (SyncCookie * nat)) (highPriority : list string)
    (useModifySync_ : bool) : Loop := {|
  streams := foldl (λ m '(i, (cookie, stream)), <[streamIdAsString (SBytes (ck_streamId cookie)) :=
               {| rec_ref := i; rec_syncCookie := cookie; rec_stream := stream |}]> m) ∅
               (imap pair streamRecords);
  next_ref := length streamRecords;
  syncLoop := None; syncId := None; syncState := NotSyncing; currentRetryCount := 0;
  isMobileSafariBackgrounded := false; responsesQueue := []; inProgressTick := None; tickTimers := O;
  pendingSyncCookies := []; inFlightSyncCookies := ∅; pendingStreamsToDelete := [];
  lastLogInflightAt := 0; syncStartedAt := None; processedStreamCount := 0; streamSyncStalled := false;
  pingInfo := {| pi_nonces := ∅; pi_currentSequence := 0; pi_pingTimeout := false |};
  highPriorityIds := highPriority; useModifySync := useModifySync_; waiting := []; clock := 0 |}.
End Sync.
