(* ===== verification/SyncLoopFacts.v ===== *)
(** * SyncLoopFacts: the guarantees of the sync loop as theorems

    The states of the loop, how it stops, the lists of streams it keeps, the
    order and size of its requests, and its retry delays. *)

From Stdlib Require Import Strings.Ascii Strings.Byte.
From S2P Require Import Prelude JsLib JsMap Ids IdsFacts Proto Types Fixtures SyncLoop.

(** ** Everything that can happen to a loop

    A loop is started once: its owner makes a new one for every start
    ([SyncedStreams.startSyncStreams]). *)

Inductive LoopOp :=
  | L_start | L_stop
  | L_add (streamId : string) (cookie : SyncCookie) (stream : nat)
  | L_remove (streamId : string)
  | L_removeResumed (i : nat)
  | L_priority (streamIds : list string)
  | L_network (isOnline : bool)
  | L_background (hidden : bool)
  | L_raced (r : RaceResult)
  | L_retryTimeout
  | L_retried
  | L_modified (ok : bool)
  | L_unpacked (cookie : option SyncCookie)
  | L_updated
  | L_tickFinally
  | L_tickTimer
  | L_ping (nonce : string)
  | L_pingSent
  | L_stalled
  | L_syncDown (streamId : bytes) (retryParams : option (string * Z))
  | L_clock (now : Z).

Section Ops.
Context `{EthLib}.

Definition run_op (op : LoopOp) : LM unit :=
  match op with
  | L_start => this ← getM; match syncLoop this with None => start | Some _ => mret tt end
  | L_stop => stop
  | L_add streamId cookie stream => addStreamToSync streamId cookie stream
  | L_remove streamId => removeStreamFromSync streamId
  | L_removeResumed i => removeStream_resumed i
  | L_priority streamIds => setHighPriorityStreams streamIds
  | L_network isOnline => onNetworkStatusChanged isOnline
  | L_background hidden => onMobileSafariBackgrounded hidden
  | L_raced r => raced r
  | L_retryTimeout => releaseRetryWait
  | L_retried => retried
  | L_modified ok => modified ok
  | L_unpacked cookie => unpacked cookie
  | L_updated => updated
  | L_tickFinally => tick_finally
  | L_tickTimer => tick_timer
  | L_ping nonce => ping nonce
  | L_pingSent => ping_sent
  | L_stalled => stalled
  | L_syncDown streamId retryParams => syncDown streamId retryParams
  | L_clock now => modify (λ s, s <| clock := now |>)
  end.

Definition exec (ops : list LoopOp) (s : Loop) : Loop := foldl (λ s op, post (run_op op) s) s ops.

(** ** The states of the loop *)

Definition phase (s : Loop) : option LoopPc * SyncState * option string :=
  (syncLoop s, syncState s, syncId s).

(** Ticks and pings leave the phase, the streams and the retries alone. *)
Definition frame (s : Loop) := (phase s, streams s, currentRetryCount s).

Lemma keeps_frame_received streamId : keeps frame (received streamId).
Proof. unfold received. keeps. Qed.
#[local] Hint Resolve keeps_frame_received : keeps.
Lemma keeps_frame_onUpdate r : keeps frame (onUpdate r).
Proof. unfold onUpdate. keeps. Qed.
#[local] Hint Resolve keeps_frame_onUpdate : keeps.
Lemma keeps_frame_response : keeps frame tick_response.
Proof. unfold tick_response. keeps. Qed.
#[local] Hint Resolve keeps_frame_response : keeps.
Lemma keeps_frame_tick : keeps frame tick.
Proof. unfold tick. keeps. Qed.
#[local] Hint Resolve keeps_frame_tick : keeps.
Lemma keeps_frame_checkStartTicking : keeps frame checkStartTicking.
Proof. unfold checkStartTicking, run_tick. keeps. Qed.
#[local] Hint Resolve keeps_frame_checkStartTicking : keeps.
Lemma putBack_frame l s : frame (putBack l s) = frame s.
Proof.
  unfold putBack. revert s. induction l as [|x l IH]; intros s; [done|]. cbn [foldl]. rewrite IH.
  by case_bool_decide.
Qed.
Lemma keeps_frame_modified ok : keeps frame (modified ok).
Proof.
  unfold modified, run_tick. keeps. apply keeps_modify. intros s. apply (putBack_frame _ s).
Qed.
Lemma keeps_frame_syncDown streamId r : keeps frame (syncDown streamId r).
Proof. unfold syncDown. keeps. Qed.
Lemma keeps_frame_ping n : keeps frame (ping n).
Proof. unfold ping. keeps. Qed.
Lemma keeps_frame_pingSent : keeps frame ping_sent.
Proof. unfold ping_sent, sendKeepAlivePings. keeps. Qed.
Lemma keeps_frame_stalled : keeps frame stalled.
Proof. unfold stalled. keeps. Qed.
Lemma keeps_frame_updated : keeps frame updated.
Proof. unfold updated. keeps. Qed.
Lemma keeps_frame_tickFinally : keeps frame tick_finally.
Proof. unfold tick_finally. keeps. Qed.
Lemma keeps_frame_tickTimer : keeps frame tick_timer.
Proof. unfold tick_timer. keeps. Qed.

Lemma run_tick_ok m s : res (run_tick m) s = Ok tt.
Proof. unfold run_tick. rewrite res_bind, catch_res. by destruct (res m s). Qed.
Lemma checkStartTicking_ok s : res checkStartTicking s = Ok tt.
Proof.
  unfold checkStartTicking. run. destruct (inProgressTick s); [done|].
  destruct (_ && _); [done|]. destruct (isMobileSafariBackgrounded s); [done|]. apply run_tick_ok.
Qed.

(** An allowed change of the state, with its announcement *)
Lemma setSyncState_ok n s :
  syncState s ≠ n → canGo (syncState s) n = true →
  res (setSyncState n) s = Ok tt
  ∧ out (setSyncState n) s = [streamSyncStateChange n]
  ∧ ∃ w, post (setSyncState n) s = s <| syncState := n |> <| waiting := w |>.
Proof.
  intros Hne Hg. unfold setSyncState. run. rewrite bool_decide_false, Hg by done. simpl negb. cbv iota. run.
  destruct (negb (canGo n Syncing)); simpl whenM; run; (split_and!; [done|done|]); [by eexists|].
  exists (waiting s). by destruct s.
Qed.

Lemma emit_all {A} (l : list A) (f : A → SyncOut) (s : Loop) :
  res (forM l (λ x, emit true (f x))) s = Ok tt ∧ post (forM l (λ x, emit true (f x))) s = s
  ∧ out (forM l (λ x, emit true (f x))) s = f <$> l.
Proof.
  induction l as [|x l IH]; [done|]. cbn [forM]. run. destruct IH as (-> & -> & ->). done.
Qed.

Definition next_retry (n : Z) : Z := if MAX_RETRY_DELAY_FACTOR <=? n then MAX_RETRY_DELAY_FACTOR else n + 1.

Lemma attemptRetry_spec s :
  if canGo (syncState s) Retrying
  then res attemptRetry s = Ok true
    ∧ phase (post attemptRetry s)
      = (syncLoop s, Retrying, if bool_decide (syncState s = Retrying) then syncId s else None)
    ∧ currentRetryCount (post attemptRetry s) = next_retry (currentRetryCount s)
    ∧ streams (post attemptRetry s) = streams s
    ∧ ∃ l, out attemptRetry s = l ++ [set_retryTimeout (2 ^ next_retry (currentRetryCount s) * 1000)]
           ∧ ∀ ms, set_retryTimeout ms ∉ l
  else res attemptRetry s = Ok false ∧ post attemptRetry s = post stopPing s ∧ out attemptRetry s = [].
Proof.
  unfold attemptRetry, stopPing. run. set (s1 := s <| pingInfo := _ |>).
  change (syncState s) with (syncState s1). change (syncId s) with (syncId s1).
  destruct (canGo (syncState s1) Retrying) eqn:Hg; [|by run].
  destruct (bool_decide (syncState s1 = Retrying)) eqn:Hr; simpl negb; simpl whenM.
  - apply bool_decide_eq_true in Hr. run. split_and!; [done|by unfold phase; simpl; rewrite <- Hr|done|done|].
    eexists []. split; [done|]. intros ms. apply not_elem_of_nil.
  - apply bool_decide_eq_false in Hr. destruct (setSyncState_ok Retrying s1 Hr Hg) as (HR & HO & w & HP). run.
    rewrite (res_bind_ok _ _ _ _ HR), (post_bind_ok _ _ _ _ HR), (out_bind_ok _ _ _ _ HR), HP, HO. run.
    match goal with |- context [post (forM _ _ ≫= _) ?s'] => set (s2 := s') end.
    destruct (emit_all (jm_values (streams s1)) (λ r, stream_resetUpToDate (rec_stream r)) s2) as (ER & EP & EO).
    rewrite (res_bind_ok _ _ _ _ ER), (post_bind_ok _ _ _ _ ER), (out_bind_ok _ _ _ _ ER), EP, EO. run.
    split_and!; [done..|]. exists (streamSyncStateChange Retrying ::
      (stream_resetUpToDate ∘ rec_stream <$> jm_values (streams s1)) ++ [streamSyncActive false]).
    split; [simpl; f_equal; by rewrite <- app_assoc|]. intros ms. set_solver.
Qed.

(** What ending a loop emits *)
Definition stopped_out (s : Loop) : list SyncOut :=
  streamSyncStateChange NotSyncing
  :: ((λ r, stream_stop (rec_stream r)) <$> jm_values (streams s)) ++ [streamSyncActive false].

Lemma loop_finally_spec s :
  res loop_finally s = Ok Finished
  ∧ if bool_decide (syncState s = Canceling)
    then phase (post loop_finally s) = (syncLoop s, NotSyncing, None) ∧ streams (post loop_finally s) = ∅
         ∧ out loop_finally s = stopped_out s
    else phase (post loop_finally s) = phase s ∧ streams (post loop_finally s) = streams s
         ∧ currentRetryCount (post loop_finally s) = currentRetryCount s ∧ out loop_finally s = [].
Proof.
  unfold loop_finally, stopPing. run.
  match goal with |- context [canGo (syncState ?s') _] => set (s1 := s') end.
  change (syncState s) with (syncState s1). case_bool_decide as Hc.
  - assert (Hg : canGo (syncState s1) NotSyncing = true) by (by rewrite Hc). rewrite Hg. simpl whenM.
    destruct (setSyncState_ok NotSyncing s1 ltac:(congruence) Hg) as (HR & HO & w & HP). run.
    rewrite (res_bind_ok _ _ _ _ HR), (post_bind_ok _ _ _ _ HR), (out_bind_ok _ _ _ _ HR), HP, HO. run.
    match goal with |- context [post (forM _ _ ≫= _) ?s'] => set (s2 := s') end.
    destruct (emit_all (jm_values (streams s1)) (λ r, stream_stop (rec_stream r)) s2) as (ER & EP & EO).
    rewrite (res_bind_ok _ _ _ _ ER), (post_bind_ok _ _ _ _ ER), (out_bind_ok _ _ _ _ ER), EP, EO. by run.
  - assert (canGo (syncState s1) NotSyncing = false) as -> by (by destruct (syncState s1)). simpl whenM. by run.
Qed.

Lemma loop_body_spec s :
  if active (syncState s)
  then (res loop_body s = Ok true
        ∧ phase (post loop_body s)
          = (syncLoop s, if bool_decide (syncState s = Retrying) then Starting else syncState s, None)
       ∨ ∃ e, res loop_body s = Throw e ∧ phase (post loop_body s) = phase s)
       ∧ streams (post loop_body s) = streams s
       ∧ currentRetryCount (post loop_body s) = currentRetryCount s
       ∧ (∀ ms, set_retryTimeout ms ∉ out loop_body s)
  else res loop_body s = Ok false ∧ post loop_body s = s ∧ out loop_body s = [].
Proof.
  unfold loop_body. run. destruct (active (syncState s)) eqn:Ha; [|by run]. run.
  match goal with |- context [post (_ ≫= _) ?s'] => set (s1 := s') end.
  match goal with |- context [post (?m ≫= ?k) s1] => set (mm := m); set (kk := k) end.
  assert (Hm : (∃ l s2, res mm s1 = Ok l ∧ post mm s1 = s2 ∧ out mm s1 = [] ∧ phase s2 = phase s
      ∧ streams s2 = streams s ∧ currentRetryCount s2 = currentRetryCount s ∧ waiting s2 = waiting s)
    ∨ ∃ e, res mm s1 = Throw e ∧ post mm s1 = s1 ∧ out mm s1 = []).
  { subst mm. destruct (useModifySync s).
    - left. do 2 eexists. by run.
    - destruct (sortByPriority _ _ _) as [l|e]; [left; do 2 eexists; by run|right; exists e; by run]. }
  destruct Hm as [(l & s2 & HR & HP & HO & Hph & Hst & Hrc & _)|(e & HR & HP & HO)].
  - rewrite (res_bind_ok _ _ _ _ HR), (post_bind_ok _ _ _ _ HR), (out_bind_ok _ _ _ _ HR), HP, HO.
    unfold kk. run. unfold phase in Hph. injection Hph as Hp1 Hp2 Hp3.
    match goal with |- context [post (_ ≫= _) ?s'] => set (s3 := s') end.
    destruct (bool_decide (syncState s = Retrying)) eqn:Hr; simpl whenM.
    + apply bool_decide_eq_true in Hr.
      assert (Hs3 : syncState s3 = Retrying) by (simpl; congruence).
      destruct (setSyncState_ok Starting s3) as (SR & SO & w & SP); [congruence|by rewrite Hs3|].
      rewrite (res_bind_ok _ _ _ _ SR), (post_bind_ok _ _ _ _ SR), (out_bind_ok _ _ _ _ SR), SP, SO. run.
      unfold phase. simpl. split_and!; [left; by rewrite Hp1|done|done|set_solver].
    + run. unfold phase. simpl. split_and!; [left; by rewrite Hp1, Hp2|done|done|set_solver].
  - rewrite res_bind, post_bind, out_bind, HR, HP, HO. split_and!; [right; by eexists|done|done|set_solver].
Qed.

Lemma loop_iteration_spec s :
  ∃ pc, res loop_iteration s = Ok pc
  ∧ ((active (syncState s) = true ∧ pc = AtRace
      ∧ phase (post loop_iteration s)
        = (syncLoop s, if bool_decide (syncState s = Retrying) then Starting else syncState s, None)
      ∧ streams (post loop_iteration s) = streams s)
     ∨ (pc = Finished ∧ syncState s ≠ Canceling ∧ phase (post loop_iteration s) = phase s)
     ∨ (pc = Finished ∧ syncState s = Canceling
        ∧ phase (post loop_iteration s) = (syncLoop s, NotSyncing, None)
        ∧ streams (post loop_iteration s) = ∅ ∧ out loop_iteration s = stopped_out s)).
Proof.
  unfold loop_iteration. pose proof (loop_body_spec s) as Hb.
  rewrite res_bind, post_bind, out_bind, catch_res, catch_post, catch_out.
  destruct (active (syncState s)) eqn:Ha.
  - destruct Hb as ([[HR HP]|(e & HR & HP)] & Hst & _); rewrite HR; run.
    + exists AtRace. split; [done|]. left. done.
    + destruct (loop_finally_spec (post loop_body s)) as [FR FP]. exists Finished. split; [done|]. right; left.
      unfold phase in HP. injection HP as H1 H2 H3.
      assert (syncState s ≠ Canceling) as Hc by (by intros Hc; rewrite Hc in Ha).
      rewrite H2, bool_decide_false in FP by done. destruct FP as (FP & _).
      split_and!; [done|done|]. rewrite FP. unfold phase. by rewrite H1, H2, H3.
  - destruct Hb as (HR & HP & HO). rewrite HR. run. rewrite HP, HO.
    destruct (loop_finally_spec s) as [FR FP]. exists Finished. split; [done|]. right.
    case_bool_decide as Hc; [right; by destruct FP as (? & ? & ?)|left; by destruct FP].
Qed.

(** A loop that waits for a response *)
Definition racing (s : Loop) : Prop :=
  syncState s = Starting ∧ syncId s = None
  ∨ syncState s = Syncing ∧ truthy (syncId s) = true
  ∨ syncState s = Canceling.

(** What a response may change *)
Definition responded (s s' : Loop) : Prop :=
  syncLoop s' = syncLoop s ∧ streams s' = streams s
  ∧ (currentRetryCount s' = currentRetryCount s ∨ currentRetryCount s' = 0)
  ∧ ((syncState s' = syncState s ∧ syncId s' = syncId s)
     ∨ (syncState s = Starting ∧ syncState s' = Syncing ∧ truthy (syncId s') = true)
     ∨ (syncState s ≠ Canceling ∧ syncState s' = Retrying)).

Lemma responded_frame s s' : frame s' = frame s → responded s s'.
Proof. unfold frame, phase. intros [= H1 H2 H3 H4 H5]. split_and!; auto. Qed.

Lemma syncStarted_spec id s :
  racing s → truthy_str id = true →
  res (syncStarted id) s = Ok tt ∧ responded s (post (syncStarted id) s).
Proof.
  intros Hr Hid. unfold syncStarted. run.
  destruct (_ && _) eqn:Hc; [|split; [done|by apply responded_frame]]. simpl whenM.
  apply andb_true_iff in Hc as [Ht Hg]. apply negb_true_iff in Ht.
  destruct Hr as [[Hs Hn]|[[Hs Hn]|Hs]]; [|congruence|by rewrite Hs in Hg].
  destruct (setSyncState_ok Syncing s ltac:(congruence) Hg) as (HR & _ & w & HP). run.
  rewrite (res_bind_ok _ _ _ _ HR), (post_bind_ok _ _ _ _ HR), HP. unfold sendKeepAlivePings. run.
  match goal with |- context [post checkStartTicking ?s'] => set (s1 := s') end.
  split; [apply checkStartTicking_ok|].
  pose proof (keeps_frame_checkStartTicking s1) as Hk. unfold frame, phase in Hk. injection Hk as H1 H2 H3 H4 H5.
  unfold responded. rewrite H1, H2, H3, H4, H5.
  split_and!; [done|done|by right|right; left; by split_and!].
Qed.

Lemma syncClosed_spec s :
  racing s → res syncClosed s = Ok tt ∧ responded s (post syncClosed s).
Proof.
  intros Hr. unfold syncClosed, stopPing. run.
  match goal with |- context [syncState ?s'] => set (s1 := s') end.
  destruct (bool_decide (syncState s1 = Canceling)) eqn:Hc; simpl negb; simpl whenM.
  { by split; [|apply responded_frame]. }
  apply bool_decide_eq_false in Hc.
  assert (Hg : syncState s1 ≠ Retrying ∧ canGo (syncState s1) Retrying = true).
  { assert (Hs1 : syncState s1 = syncState s) by done. rewrite Hs1 in *.
    destruct Hr as [[Hs _]|[[Hs _]|Hs]]; by rewrite Hs in *. }
  destruct Hg as [Hne Hg]. destruct (setSyncState_ok Retrying s1 Hne Hg) as (HR & _ & w & HP).
  split; [done|]. rewrite HP. split_and!; [done|done|by left|right; right; done].
Qed.

Lemma onResponse_spec v s :
  racing s → res (onResponse v) s = Ok tt ∧ responded s (post (onResponse v) s).
Proof.
  intros Hr. unfold onResponse. destruct (truthy_str (sr_syncId v)) eqn:Hid; simpl negb; cbv iota.
  2: { by split; [|apply responded_frame]. }
  destruct (sr_syncOp v); try by split; [|apply responded_frame].
  - by apply syncStarted_spec.
  - by apply syncClosed_spec.
  - run. match goal with |- context [post checkStartTicking ?s'] => set (s1 := s') end.
    split; [apply checkStartTicking_ok|]. apply responded_frame.
    by rewrite (keeps_frame_checkStartTicking s1).
  - split; [|by apply responded_frame, keeps_frame_syncDown]. unfold syncDown. run.
    repeat (case_match; try done).
Qed.

(** ** The phases of a loop *)

(** Where the loop waits, its state and its sync id agree. *)
Definition phase_ok (s : Loop) : Prop :=
  match syncLoop s with
  | None => syncState s = NotSyncing ∧ syncId s = None
  | Some AtRace => racing s
  | Some (AtRetry released) =>
      syncState s = Retrying ∧ syncId s = None ∨ syncState s = Canceling ∧ released = true
  | Some Finished => True
  end.

Lemma phase_ok_frame s s' : frame s' = frame s → phase_ok s → phase_ok s'.
Proof. unfold frame, phase, phase_ok, racing. intros [= -> -> -> _ _]. done. Qed.
Lemma phase_ok_keeps (m : LM unit) s : keeps frame m → phase_ok s → phase_ok (post m s).
Proof. intros Hk. apply phase_ok_frame, Hk. Qed.

(** Where a stretch of the loop ends *)
Definition lands (m : LM LoopPc) (s : Loop) : Prop :=
  ∃ pc, res m s = Ok pc ∧ phase_ok ((post m s) <| syncLoop := Some pc |>).

Lemma run_loop_lands m s : lands m s → phase_ok (post (run_loop m) s).
Proof. intros (pc & HR & HP). unfold run_loop. by rewrite (post_bind_ok _ _ _ _ HR). Qed.

Lemma loop_iteration_lands s : syncState s ≠ Syncing → lands loop_iteration s.
Proof.
  intros Hs. destruct (loop_iteration_spec s) as (pc & HR & [(Ha & -> & HP & _)|[(-> & _ & _)|(-> & _ & _)]]);
    eexists; (split; [done|]); [|done..].
  unfold phase in HP. injection HP as H1 H2 H3. left. simpl. rewrite H2, H3.
  case_bool_decide; [done|]. by destruct (syncState s).
Qed.

Lemma loop_error_lands s : racing s → lands loop_error s.
Proof.
  intros Hr. pose proof (attemptRetry_spec s) as Ha. unfold lands, loop_error.
  destruct (canGo (syncState s) Retrying) eqn:Hg.
  - destruct Ha as (HR & HP & _). rewrite (res_bind_ok _ _ _ _ HR), (post_bind_ok _ _ _ _ HR). run.
    eexists. split; [done|]. unfold phase in HP. injection HP as H1 H2 H3. left. simpl. rewrite H2, H3.
    destruct Hr as [[-> _]|[[-> _]|Hc]]; [done|done|by rewrite Hc in Hg].
  - destruct Ha as (HR & HP & _). rewrite (res_bind_ok _ _ _ _ HR), (post_bind_ok _ _ _ _ HR).
    apply loop_iteration_lands. rewrite HP. intros Hs. change (syncState s = Syncing) in Hs. by rewrite Hs in Hg.
Qed.

Lemma loop_race_lands r s : racing s → lands (loop_race r) s.
Proof.
  intros Hr. destruct r as [v| |]; [| |by apply loop_error_lands].
  2: { destruct (loop_finally_spec s) as [HR _]. by exists Finished. }
  destruct (onResponse_spec v s Hr) as (HR & Hpc & _ & _ & Hch). unfold lands, loop_race.
  assert (HC : res (catchM (_ ← onResponse v; mret true) (λ _, mret false)) s = Ok true).
  { by rewrite catch_res, (res_bind_ok _ _ _ _ HR). }
  rewrite (res_bind_ok _ _ _ _ HC), (post_bind_ok _ _ _ _ HC), catch_post, (post_bind_ok _ _ _ _ HR).
  simpl negb. cbv iota. run. set (s1 := post (onResponse v) s) in *.
  destruct (bool_decide (syncState s1 = Syncing)) eqn:E1; simpl orb; cbv iota.
  - apply bool_decide_eq_true in E1. exists AtRace. split; [done|]. right; left. simpl. split; [done|].
    destruct Hch as [[Hs Hi]|[(_ & _ & Hi)|(_ & Hs)]]; [|done|congruence].
    destruct Hr as [[Hx _]|[[_ Hx]|Hx]]; [congruence|by etrans; [apply (f_equal truthy Hi)|]|congruence].
  - apply bool_decide_eq_false in E1. case_bool_decide as E2.
    + exists AtRace. split; [done|]. left. simpl. split; [done|].
      destruct Hch as [[Hs Hi]|[(_ & Hs & _)|(_ & Hs)]]; [|congruence..].
      destruct Hr as [[_ Hx]|[[Hx _]|Hx]]; [by etrans; [apply Hi|]|congruence..].
    + apply loop_iteration_lands. done.
Qed.

Lemma releaseRetryWait_ok s : phase_ok s → phase_ok (post releaseRetryWait s).
Proof.
  unfold releaseRetryWait. run. unfold phase_ok. destruct (syncLoop s) as [[|[]|]|] eqn:E; rewrite ?E; try done.
  simpl. intros [?|[? ?]]; [by left|done].
Qed.

Lemma phase_ok_phase s s' : phase s' = phase s → phase_ok s → phase_ok s'.
Proof. unfold phase, phase_ok, racing. intros [= -> -> ->]. done. Qed.
Lemma keeps_phase_removeStream streamId r : keeps phase (removeStream streamId r).
Proof. unfold removeStream. keeps. Qed.
#[local] Hint Resolve keeps_phase_removeStream : keeps.
Lemma keeps_phase_checkStartTicking : keeps phase checkStartTicking.
Proof. intros s. exact (f_equal (λ f, f.1.1) (keeps_frame_checkStartTicking s)). Qed.
#[local] Hint Resolve keeps_phase_checkStartTicking : keeps.
Lemma keeps_phase_add streamId c st : keeps phase (addStreamToSync streamId c st).
Proof. unfold addStreamToSync. keeps. Qed.
Lemma keeps_phase_remove streamId : keeps phase (removeStreamFromSync streamId).
Proof. unfold removeStreamFromSync. keeps. Qed.
Lemma keeps_phase_resumed i : keeps phase (removeStream_resumed i).
Proof. unfold removeStream_resumed. keeps. Qed.
Lemma keeps_phase_unpacked c : keeps phase (unpacked c).
Proof. unfold unpacked. keeps. Qed.

Lemma start_ok s : phase_ok s → phase_ok (post (run_op L_start) s).
Proof.
  intros Hp. simpl. run. destruct (syncLoop s) as [pc|] eqn:E; [done|].
  unfold phase_ok in Hp. rewrite E in Hp. destruct Hp as [Hs Hi].
  unfold start, createSyncLoop. run. rewrite Hs. simpl negb. cbv iota.
  destruct (setSyncState_ok Starting s) as (HR & _ & w & HP); [congruence|by rewrite Hs|].
  rewrite (post_bind_ok _ _ _ _ HR), HP, E. by apply run_loop_lands, loop_iteration_lands.
Qed.

Lemma canceling_ok s :
  syncState s = Canceling → syncLoop s ≠ None → phase_ok (post releaseRetryWait s).
Proof.
  intros Hc Hl. unfold releaseRetryWait, phase_ok. run.
  destruct (syncLoop s) as [[|[]|]|] eqn:E; simpl; rewrite ?E; try done; [|by right..].
  right; right. done.
Qed.

Lemma stop_ok s : phase_ok s → phase_ok (post stop s).
Proof.
  intros Hp. unfold stop. run. match goal with |- context [syncState ?s'] => set (s1 := s') end.
  assert (Hp1 : phase_ok s1) by (by apply (phase_ok_phase s)).
  destruct (canGo (syncState s1) Canceling) eqn:Hg; simpl whenM; [|done].
  destruct (setSyncState_ok Canceling s1) as (HR & _ & w & HP); [by intros Hc; rewrite Hc in Hg|done|].
  rewrite (post_bind_ok _ _ _ _ HR), HP. unfold stopPing. run.
  rewrite (post_bind_ok releaseRetryWait _ tt) by done.
  match goal with |- context [post releaseRetryWait ?s'] => assert (phase_ok (post releaseRetryWait s')) end.
  { apply canceling_ok; [done|]. intros E. unfold phase_ok in Hp1. change (syncLoop s1 = None) in E.
    rewrite E in Hp1. destruct Hp1 as [Hs _]. by rewrite Hs in Hg. }
  destruct (syncId _); [|done]. by destruct (truthy_str _).
Qed.

Lemma op_phase_ok op s : phase_ok s → phase_ok (post (run_op op) s).
Proof.
  intros Hp. destruct op; cbn [run_op].
  - by apply start_ok.
  - by apply stop_ok.
  - apply (phase_ok_phase s); [apply keeps_phase_add|done].
  - apply (phase_ok_phase s); [apply keeps_phase_remove|done].
  - apply (phase_ok_phase s); [apply keeps_phase_resumed|done].
  - by apply (phase_ok_phase s).
  - unfold onNetworkStatusChanged. destruct isOnline; [by apply releaseRetryWait_ok|done].
  - unfold onMobileSafariBackgrounded. run. destruct hidden; [by apply (phase_ok_phase s)|]. simpl whenM.
    rewrite post_bind. apply (phase_ok_phase (post releaseRetryWait (s <| isMobileSafariBackgrounded := false |>)));
      [apply keeps_phase_checkStartTicking|]. by apply releaseRetryWait_ok, (phase_ok_phase s).
  - unfold raced. run. destruct (syncLoop s) as [[]|] eqn:E; try done.
    apply run_loop_lands, loop_race_lands. unfold phase_ok in Hp. by rewrite E in Hp.
  - by apply releaseRetryWait_ok.
  - unfold retried. run. destruct (syncLoop s) as [[|[]|]|] eqn:E; try done.
    apply run_loop_lands, loop_iteration_lands. unfold phase_ok in Hp. rewrite E in Hp. intros Hs. destruct Hp as [[? _]|[? _]]; congruence.
  - by apply phase_ok_keeps; [apply keeps_frame_modified|].
  - apply (phase_ok_phase s); [apply keeps_phase_unpacked|done].
  - by apply phase_ok_keeps; [apply keeps_frame_updated|].
  - by apply phase_ok_keeps; [apply keeps_frame_tickFinally|].
  - by apply phase_ok_keeps; [apply keeps_frame_tickTimer|].
  - by apply phase_ok_keeps; [apply keeps_frame_ping|].
  - by apply phase_ok_keeps; [apply keeps_frame_pingSent|].
  - by apply phase_ok_keeps; [apply keeps_frame_stalled|].
  - by apply phase_ok_keeps; [apply keeps_frame_syncDown|].
  - by apply (phase_ok_phase s).
Qed.

(** ** Stopping *)

(** The loop has ended: its streams were told to stop and are forgotten. *)
Definition ended (s s' : Loop) (o : list SyncOut) : Prop :=
  phase s' = (Some Finished, NotSyncing, None) ∧ streams s' = ∅
  ∧ ∀ r, r ∈ jm_values (streams s) → stream_stop (rec_stream r) ∈ o.

Definition ends (m : LM LoopPc) (s : Loop) : Prop :=
  res m s = Ok Finished ∧ (phase (post m s)).1.2 = NotSyncing ∧ (phase (post m s)).2 = None
  ∧ streams (post m s) = ∅ ∧ ∀ r, r ∈ jm_values (streams s) → stream_stop (rec_stream r) ∈ out m s.

Lemma run_loop_ends m s : ends m s → ended s (post (run_loop m) s) (out (run_loop m) s).
Proof.
  intros (HR & H1 & H2 & H3 & H4). unfold run_loop.
  rewrite (post_bind_ok _ _ _ _ HR), (out_bind_ok _ _ _ _ HR). run. unfold ended, phase in *. simpl in *.
  rewrite H1, H2, H3, app_nil_r. done.
Qed.

Lemma stopped_out_elem s r : r ∈ jm_values (streams s) → stream_stop (rec_stream r) ∈ stopped_out s.
Proof.
  intros Hr. unfold stopped_out. right. apply elem_of_app. left. apply list_elem_of_fmap. by exists r.
Qed.

Lemma canceling_iteration s : syncState s = Canceling → ends loop_iteration s.
Proof.
  intros Hc. destruct (loop_iteration_spec s) as (pc & HR & [(Ha & _)|[(_ & Hn & _)|(-> & _ & HP & HS & HO)]]);
    [by rewrite Hc in Ha|done|]. unfold ends. rewrite HP, HO. split_and!; [done..|]. apply stopped_out_elem.
Qed.

(** What runs before the end does not matter. *)
Lemma ends_after {A} (m : LM A) a (k : A → LM LoopPc) s :
  res m s = Ok a → streams (post m s) = streams s → ends (k a) (post m s) → ends (m ≫= k) s.
Proof.
  intros HR HS (H1 & H2 & H3 & H4 & H5). unfold ends.
  rewrite (res_bind_ok _ _ _ _ HR), (post_bind_ok _ _ _ _ HR), (out_bind_ok _ _ _ _ HR).
  rewrite HS in H5. split_and!; [done..|]. intros r Hr. apply elem_of_app. right. by apply H5.
Qed.

Lemma canceling_race r s : syncState s = Canceling → ends (loop_race r) s.
Proof.
  intros Hc. destruct r as [v| |].
  - destruct (onResponse_spec v s) as (HR & _ & HS & _ & Hch); [right; by right|].
    assert (HC : res (catchM (_ ← onResponse v; mret true) (λ _, mret false)) s = Ok true).
    { by rewrite catch_res, (res_bind_ok _ _ _ _ HR). }
    assert (HP : post (catchM (_ ← onResponse v; mret true) (λ _, mret false)) s = post (onResponse v) s).
    { by rewrite catch_post, (post_bind_ok _ _ _ _ HR). }
    assert (Hc' : syncState (post (onResponse v) s) = Canceling).
    { destruct Hch as [[-> _]|[(Hx & _)|(Hx & _)]]; congruence. }
    apply (ends_after _ _ _ _ HC); rewrite HP; [done|]. simpl negb. cbv iota.
    apply (ends_after getM _ _ _ eq_refl); [done|]. change (post getM ?s') with s'.
    rewrite Hc'. by apply canceling_iteration.
  - destruct (loop_finally_spec s) as [HR HP]. rewrite bool_decide_true in HP by done.
    destruct HP as (HP & HS & HO). unfold ends. cbn [loop_race]. rewrite HP, HO.
    split_and!; [done..|]. apply stopped_out_elem.
  - pose proof (attemptRetry_spec s) as Ha. rewrite Hc in Ha. destruct Ha as (HR & HP & _).
    apply (ends_after _ _ _ _ HR); rewrite HP; [done|]. by apply canceling_iteration.
Qed.

(** The steps in which the loop itself runs *)
Definition loop_op (op : LoopOp) : bool :=
  match op with L_raced _ | L_retried => true | _ => false end.

Definition canceling (s : Loop) : Prop :=
  syncState s = Canceling ∧ (syncLoop s = Some AtRace ∨ syncLoop s = Some (AtRetry true)).

Lemma canceling_phase s s' : phase s' = phase s → canceling s → canceling s'.
Proof. unfold phase, canceling. by intros [= -> -> _]. Qed.

Lemma canceling_release s : canceling s → canceling (post releaseRetryWait s).
Proof.
  intros [Hs Hl]. unfold canceling, releaseRetryWait. run. destruct Hl as [Hl|Hl]; rewrite Hl; auto.
Qed.

Lemma canceling_stable op s : loop_op op = false → canceling s → canceling (post (run_op op) s).
Proof.
  intros Hop Hc.
  assert (Hf : ∀ m : LM unit, keeps frame m → canceling (post m s)).
  { intros m Hk. apply (canceling_phase s); [|done]. exact (f_equal (λ f, f.1.1) (Hk s)). }
  destruct op; try done; cbn [run_op].
  - run. pose proof Hc as [_ [Hl|Hl]]; rewrite Hl; exact Hc.
  - unfold stop. run. pose proof Hc as [Hs _]. change (syncState (s <| responsesQueue := [] |>)) with (syncState s).
    rewrite Hs. simpl whenM. by apply (canceling_phase s).
  - apply (canceling_phase s); [apply keeps_phase_add|done].
  - apply (canceling_phase s); [apply keeps_phase_remove|done].
  - apply (canceling_phase s); [apply keeps_phase_resumed|done].
  - unfold onNetworkStatusChanged. destruct isOnline; [by apply canceling_release|done].
  - unfold onMobileSafariBackgrounded. run. destruct hidden; [done|]. simpl whenM.
    rewrite post_bind. apply (canceling_phase (post releaseRetryWait (s <| isMobileSafariBackgrounded := false |>)));
      [apply keeps_phase_checkStartTicking|]. by apply canceling_release.
  - by apply canceling_release.
  - apply Hf, keeps_frame_modified.
  - apply (canceling_phase s); [apply keeps_phase_unpacked|done].
  - apply Hf, keeps_frame_updated.
  - apply Hf, keeps_frame_tickFinally.
  - apply Hf, keeps_frame_tickTimer.
  - apply Hf, keeps_frame_ping.
  - apply Hf, keeps_frame_pingSent.
  - apply Hf, keeps_frame_stalled.
  - apply Hf, keeps_frame_syncDown.
Qed.

Lemma canceling_exec ops s : Forall (λ op, loop_op op = false) ops → canceling s → canceling (exec ops s).
Proof.
  intros Hops. revert s. induction Hops as [|op ops Ho _ IH]; intros s Hc; [done|].
  apply IH. by apply canceling_stable.
Qed.

Lemma stop_canceling s :
  phase_ok s → (syncLoop s = Some AtRace ∨ ∃ b, syncLoop s = Some (AtRetry b)) → canceling (post stop s).
Proof.
  intros Hp Hl. unfold stop. run. match goal with |- context [syncState ?s'] => set (s1 := s') end.
  assert (Hg : syncState s = Canceling ∧ canGo (syncState s1) Canceling = false
             ∨ canGo (syncState s1) Canceling = true).
  { change (syncState s1) with (syncState s). unfold phase_ok in Hp.
    destruct Hl as [Hl|[b Hl]]; rewrite Hl in Hp; [destruct Hp as [[-> _]|[[-> _]| ->]]|destruct Hp as [[-> _]|[-> _]]]; auto. }
  destruct Hg as [[Hs ->]|Hg].
  { simpl. split; [done|]. unfold phase_ok in Hp. destruct Hl as [Hl|[b Hl]]; [by left|right].
    change (syncLoop s = Some (AtRetry true)). rewrite Hl in Hp. destruct Hp as [[Hs' _]|[_ ->]]; [congruence|done]. }
  rewrite Hg. simpl whenM.
  destruct (setSyncState_ok Canceling s1) as (HR & _ & w & HP); [by intros Hc; rewrite Hc in Hg|done|].
  rewrite (post_bind_ok _ _ _ _ HR), HP. unfold stopPing. run.
  rewrite (post_bind_ok releaseRetryWait _ tt) by done.
  match goal with |- context [post releaseRetryWait ?s'] => assert (canceling (post releaseRetryWait s')) as Hc end.
  { unfold releaseRetryWait, canceling. run. change (syncLoop s1) with (syncLoop s) in *. simpl.
    destruct Hl as [Hl|[[] Hl]]; simpl; rewrite Hl; auto. }
  destruct (syncId _); [|done]. by destruct (truthy_str _).
Qed.

(** ** Retries *)

Definition retry_ok (s : Loop) : Prop := 0 <= currentRetryCount s <= MAX_RETRY_DELAY_FACTOR.
Definition retry_kept : relation Loop := λ s s', retry_ok s → retry_ok s'.
#[local] Instance retry_kept_preorder : PreOrder retry_kept.
Proof. split; [by intros s Hs|]. intros s1 s2 s3 H1 H2 Hs. auto. Qed.

#[local] Hint Extern 3 (moves retry_kept (modify _)) =>
  apply moves_modify; intros ? ?; unfold retry_ok, MAX_RETRY_DELAY_FACTOR in *; simpl; first [done|lia] : moves.

Lemma moves_retry_frame {A} (m : LM A) : keeps frame m → moves retry_kept m.
Proof.
  intros Hk s Hs. unfold retry_ok in *. pose proof (f_equal snd (Hk s)) as Hc. simpl in Hc. by rewrite Hc.
Qed.
Lemma moves_retry_tick : moves retry_kept checkStartTicking.
Proof. apply moves_retry_frame, keeps_frame_checkStartTicking. Qed.
Lemma moves_retry_syncDown streamId r : moves retry_kept (syncDown streamId r).
Proof. apply moves_retry_frame, keeps_frame_syncDown. Qed.
Lemma moves_retry_attempt : moves retry_kept attemptRetry.
Proof.
  intros s Hs. pose proof (attemptRetry_spec s) as Ha. unfold retry_ok in *.
  destruct (canGo (syncState s) Retrying); [destruct Ha as (_ & _ & -> & _)|by destruct Ha as (_ & -> & _)].
  unfold next_retry, MAX_RETRY_DELAY_FACTOR in *. destruct (Z.leb_spec 7 (currentRetryCount s)); lia.
Qed.
#[local] Hint Resolve moves_retry_tick moves_retry_syncDown moves_retry_attempt : moves.

Lemma moves_retry_iteration : moves retry_kept loop_iteration.
Proof. unfold loop_iteration, loop_finally, loop_body, setSyncState, stopPing. moves. Qed.
#[local] Hint Resolve moves_retry_iteration : moves.
Lemma moves_retry_race r : moves retry_kept (loop_race r).
Proof.
  unfold loop_race, loop_error, loop_finally, onResponse, syncStarted, syncClosed, setSyncState, stopPing,
    sendKeepAlivePings. moves.
Qed.
#[local] Hint Resolve moves_retry_race : moves.
Lemma moves_retry_release : moves retry_kept releaseRetryWait.
Proof.
  unfold releaseRetryWait. apply moves_modify. intros s Hs. by destruct (syncLoop s) as [[|[]|]|].
Qed.
#[local] Hint Resolve moves_retry_release : moves.
Lemma moves_retry_stop : moves retry_kept stop.
Proof. unfold stop, setSyncState, stopPing. moves. Qed.

Lemma moves_retry_op op : moves retry_kept (run_op op).
Proof.
  destruct op; cbn [run_op].
  - unfold start, createSyncLoop, run_loop, setSyncState. moves.
  - apply moves_retry_stop.
  - unfold addStreamToSync. moves.
  - unfold removeStreamFromSync, removeStream. moves.
  - unfold removeStream_resumed, removeStream. moves.
  - unfold setHighPriorityStreams. moves.
  - unfold onNetworkStatusChanged. moves.
  - unfold onMobileSafariBackgrounded. moves.
  - unfold raced, run_loop. moves.
  - moves.
  - unfold retried, run_loop. moves.
  - apply moves_retry_frame, keeps_frame_modified.
  - unfold unpacked. moves.
  - apply moves_retry_frame, keeps_frame_updated.
  - apply moves_retry_frame, keeps_frame_tickFinally.
  - apply moves_retry_frame, keeps_frame_tickTimer.
  - apply moves_retry_frame, keeps_frame_ping.
  - apply moves_retry_frame, keeps_frame_pingSent.
  - apply moves_retry_frame, keeps_frame_stalled.
  - moves.
  - moves.
Qed.

Lemma exec_ind (P : Loop → Prop) ops s :
  P s → (∀ op s, P s → P (post (run_op op) s)) → P (exec ops s).
Proof. intros Hs Hop. revert s Hs. induction ops as [|op ops IH]; intros s Hs; [done|]. apply IH, Hop, Hs. Qed.

(** ** The theorems *)

(** C19. Whatever happens to a loop, the place where it waits, its state and its
    sync id agree. A loop that waits for a response is starting without a sync
    id, or syncing with one, or canceling; one that waits to retry has no sync
    id and is retrying, or is canceling and released. So a sync id is never used
    outside the sync it belongs to. *)
Theorem sync_phases records highPriority ms ops :
  phase_ok (exec ops (new records highPriority ms)).
Proof. apply exec_ind; [done|]. intros op s. apply op_phase_ok. Qed.

(** C18. A loop that was stopped ends: whatever else happens after [stop], it
    stays canceling, and when the loop next runs (a response, the end of the
    responses, an error, or the released retry wait) it becomes idle, forgets
    its streams after telling each of them to stop, and has no sync id left. *)
Theorem sync_stop_ends records highPriority ms ops ops' op :
  let s0 := exec ops (new records highPriority ms) in
  let s := exec ops' (post stop s0) in
  (syncLoop s0 = Some AtRace ∨ ∃ b, syncLoop s0 = Some (AtRetry b)) →
  Forall (λ op, loop_op op = false) ops' →
  (syncLoop s = Some AtRace ∧ (∃ r, op = L_raced r) ∨ syncLoop s = Some (AtRetry true) ∧ op = L_retried) →
  syncState s = Canceling ∧ ended s (post (run_op op) s) (out (run_op op) s).
Proof.
  intros s0 s Hl Hops Hop.
  assert (Hc : canceling s).
  { apply canceling_exec; [done|]. apply stop_canceling; [|done].
    apply exec_ind; [done|]. intros o t. apply op_phase_ok. }
  destruct Hc as [Hc _]. split; [done|].
  destruct Hop as [[Hpc [r ->]]|[Hpc ->]]; cbn [run_op]; unfold raced, retried; run; rewrite Hpc.
  - by apply run_loop_ends, canceling_race.
  - by apply run_loop_ends, canceling_iteration.
Qed.

(** Retries back off and stay bounded: in every reachable state the count is
    between 0 and 7; an attempt to retry, when the state allows one, sets one
    timer, of 2 seconds at first, twice as long with every further attempt, and
    of 128 seconds from the seventh on. *)
Theorem retry_bounded records highPriority ms ops :
  let s := exec ops (new records highPriority ms) in
  0 <= currentRetryCount s <= 7
  ∧ (canGo (syncState s) Retrying = true →
     let n := Z.min 7 (currentRetryCount s + 1) in
     currentRetryCount (post attemptRetry s) = n ∧ 2000 <= 2 ^ n * 1000 <= 128000
     ∧ ∃ l, out attemptRetry s = l ++ [set_retryTimeout (2 ^ n * 1000)] ∧ ∀ ms, set_retryTimeout ms ∉ l).
Proof.
  intros s. assert (Hr : retry_ok s).
  { apply exec_ind; [unfold retry_ok, MAX_RETRY_DELAY_FACTOR; simpl; lia|]. intros op t. apply moves_retry_op. }
  unfold retry_ok, MAX_RETRY_DELAY_FACTOR in Hr. split; [done|]. intros Hg n.
  pose proof (attemptRetry_spec s) as Ha. rewrite Hg in Ha. destruct Ha as (_ & _ & Hn & _ & Ho).
  assert (next_retry (currentRetryCount s) = n) as E.
  { unfold next_retry, MAX_RETRY_DELAY_FACTOR, n. destruct (Z.leb_spec 7 (currentRetryCount s)); lia. }
  rewrite E in Hn, Ho. split_and!; [done| | |done].
  - change 2000 with (2 ^ 1 * 1000). apply Z.mul_le_mono_nonneg_r; [lia|]. apply Z.pow_le_mono_r; lia.
  - change 128000 with (2 ^ 7 * 1000). apply Z.mul_le_mono_nonneg_r; [lia|]. apply Z.pow_le_mono_r; lia.
Qed.
End Ops.

Module SyncWitness.
Import ModelEth Fixtures.

Definition cookie (b : byte) : SyncCookie := {|
  ck_nodeAddress := addr b; ck_streamId := x20 :: replicate 31 b; ck_minipoolGen := 0;
  ck_prevMiniblockHash := [] |}.
Definition streamId (b : byte) : string := streamIdAsString (SBytes (ck_streamId (cookie b))).
Definition response (op : SyncOp) : SyncStreamsResponse := {|
  sr_syncId := "s1"; sr_syncOp := op; sr_stream := None; sr_pongNonce := ""; sr_streamId := [] |}.
Definition fresh : Loop := new [(cookie x01, 0%nat); (cookie x02, 1%nat)] [] true.
Definition connected : list LoopOp := [L_start; L_raced (Value (response SYNC_NEW))].

Lemma sync_stop_witness :
  syncState (exec [L_add (streamId x03) (cookie x03) 2; L_tickTimer] (post stop (exec connected fresh)))
  = Canceling
  ∧ out (run_op (L_raced Done))
      (exec [L_add (streamId x03) (cookie x03) 2; L_tickTimer] (post stop (exec connected fresh)))
    = [streamSyncStateChange NotSyncing; stream_stop 0; stream_stop 1; stream_stop 2; streamSyncActive false].
Proof.
  destruct (sync_stop_ends [(cookie x01, 0%nat); (cookie x02, 1%nat)] [] true connected
    [L_add (streamId x03) (cookie x03) 2; L_tickTimer] (L_raced Done)) as [Hc _].
  - left. vm_compute. reflexivity.
  - repeat constructor.
  - left. split; [vm_compute; reflexivity|by eexists].
  - split; [exact Hc|vm_compute; reflexivity].
Defined.

Lemma retry_bounded_witness :
  currentRetryCount (post attemptRetry (exec connected fresh)) = 1.
Proof.
  destruct (retry_bounded [(cookie x01, 0%nat); (cookie x02, 1%nat)] [] true connected) as [_ H].
  destruct H as [H _]; [vm_compute; reflexivity|].
  etrans; [exact H|vm_compute; reflexivity].
Defined.
End SyncWitness.
