(* ===== verification/SyncBooks.v ===== *)
(** * SyncBooks: the lists of streams the sync loop keeps

    A stream of the loop is pending (its cookie is still to be sent), in flight
    (sent, without an answer yet) or up to date. The lists stay consistent, and
    a tick sends the streams of least priority number first. *)

From Stdlib Require Import Strings.Ascii Strings.Byte.
From S2P Require Import Prelude JsLib JsMap Ids IdsFacts Proto Types Fixtures SyncLoop SyncLoopFacts.

Lemma size_add (l : list string) (X : gset string) :
  (size (list_to_set l ∪ X) <= length l + size X)%nat.
Proof.
  induction l as [|x l IH]; simpl; [by rewrite (left_id_L ∅ (∪))|].
  rewrite <- (assoc_L (∪)), size_union_alt, size_singleton.
  assert (size ((list_to_set l ∪ X) ∖ {[x]}) <= size (list_to_set l ∪ X))%nat; [|lia].
  apply subseteq_size. set_solver.
Qed.

(** ** Priorities *)

Section Priorities.
Context `{EthLib}.

Lemma spaceIdFromChannelId_valid x :
  isValidStreamId x = true → isChannelStreamId (SStr x) = true → ∃ s, spaceIdFromChannelId x = Ok s.
Proof.
  intros Hv Hc. unfold isValidStreamId in Hv.
  destruct (asPrefix (Str.slice 0 2 x)) as [p|] eqn:Hp; [|by unfold areValidStreamIdParts in Hv; rewrite Hp in Hv].
  apply asPrefix_inv in Hp. rewrite Hp in Hv.
  assert (Hl : (2 <= String.length x)%nat).
  { pose proof (f_equal String.length Hp) as E. rewrite prefix_length in E.
    unfold Str.slice in E. destruct x as [|a [|b x]]; simpl in *; lia. }
  destruct (Str.split_at 2 x Hl) as [Hx _]. unfold Str.slice in Hp. simpl Nat.sub in Hp. rewrite Hp in Hx.
  assert (p = Channel) as ->.
  { unfold isChannelStreamId, hasPrefix in Hc. cbn [streamIdAsString ethereumAddressAsString] in Hc.
    rewrite Hx, startsWith_prefix in Hc. by apply bool_decide_eq_true in Hc. }
  apply validParts_spec in Hv as (Hh & j & n & Hj & Hjl & _). rewrite Hj, isLowercaseHex_app in Hh.
  apply andb_true_iff in Hh as [Hh _].
  destruct (Str.split_at 40 j) as [Hj2 Hl2]; [rewrite Hjl; simpl; lia|].
  rewrite Hj2, isLowercaseHex_app in Hh. apply andb_true_iff in Hh as [Hh _].
  rewrite Hx, Hj, Hj2, <- Str.app_assoc. eexists. by apply spaceIdFromChannelId_shape.
Qed.

Lemma priority_valid x hp :
  isValidStreamId x = true → ∃ p, priorityFromStreamId x hp = Ok p ∧ 0 <= p <= 6.
Proof.
  intros Hv. unfold priorityFromStreamId.
  destruct (_ || _); [eexists; split; [done|lia]|]. case_bool_decide; [eexists; split; [done|lia]|].
  destruct (isChannelStreamId (SStr x)) eqn:Hc.
  - destruct (spaceIdFromChannelId_valid x Hv Hc) as [s ->]. simpl.
    case_bool_decide; eexists; (split; [done|lia]).
  - repeat case_match; eexists; (split; [done|lia]).
Qed.

Context {A : Type} (key : A → string) (hp : list string).

Lemma withPriority_spec l r :
  withPriority key hp l = Ok r →
  r.*2 = l ∧ ∀ p x, (p, x) ∈ r → priorityFromStreamId (key x) hp = Ok p.
Proof.
  revert r. induction l as [|x l IH]; intros r; simpl; [intros [= <-]; set_solver|].
  destruct (priorityFromStreamId (key x) hp) as [p|] eqn:Hp; [|done]. simpl.
  destruct (withPriority key hp l) as [r'|] eqn:Hr; [|done]. simpl. intros [= <-].
  destruct (IH r' eq_refl) as [<- H2]. split; [done|]. intros q y. rewrite elem_of_cons.
  intros [[= -> ->]|Hy]; auto.
Qed.

Lemma withPriority_total l :
  (∀ x, x ∈ l → isValidStreamId (key x) = true) → ∃ r, withPriority key hp l = Ok r.
Proof.
  induction l as [|x l IH]; intros Hv; simpl; [by eexists|].
  destruct (priority_valid (key x) hp) as (p & -> & _); [apply Hv; set_solver|]. simpl.
  destruct IH as [r ->]; [set_solver|]. by eexists.
Qed.

Lemma sortByPriority_Permutation l l' : sortByPriority key hp l = Ok l' → l' ≡ₚ l.
Proof.
  unfold sortByPriority. destruct (_ <=? _)%nat; [by intros [= <-]|].
  destruct (withPriority key hp l) as [r|] eqn:Hr; [|done]. simpl. intros [= <-].
  destruct (withPriority_spec l r Hr) as [<- _]. by rewrite stable_sort_Permutation.
Qed.

Lemma sortByPriority_total l :
  (∀ x, x ∈ l → isValidStreamId (key x) = true) → ∃ l', sortByPriority key hp l = Ok l'.
Proof.
  intros Hv. unfold sortByPriority. destruct (_ <=? _)%nat; [by eexists|].
  destruct (withPriority_total l Hv) as [r ->]. by eexists.
Qed.

Lemma sortByPriority_le l l' i j x y p q :
  sortByPriority key hp l = Ok l' → (i < j)%nat → l' !! i = Some x → l' !! j = Some y →
  priorityFromStreamId (key x) hp = Ok p → priorityFromStreamId (key y) hp = Ok q → p <= q.
Proof.
  unfold sortByPriority. destruct (Nat.leb_spec (length l) 1) as [Hl|Hl].
  { intros [= <-] Hij Hi Hj. apply lookup_lt_Some in Hi, Hj. lia. }
  destruct (withPriority key hp l) as [r|] eqn:Hr; [|done]. simpl. intros [= <-] Hij Hi Hj Hp Hq.
  destruct (withPriority_spec l r Hr) as [_ Hw].
  rewrite list_lookup_fmap in Hi, Hj.
  destruct (stable_sort _ r !! i) as [[p' x']|] eqn:Ei; [|done]. simpl in Hi. injection Hi as ->.
  destruct (stable_sort _ r !! j) as [[q' y']|] eqn:Ej; [|done]. simpl in Hj. injection Hj as ->.
  pose proof (stable_sort_key_le fst r i j (p', x) (q', y) ltac:(lia) Ei Ej) as Hle. simpl in Hle.
  apply list_elem_of_lookup_2 in Ei, Ej. rewrite stable_sort_Permutation in Ei, Ej.
  apply Hw in Ei, Ej. congruence.
Qed.
End Priorities.

(** ** Ticks *)

Section Books.
Context `{EthLib}.

(** A tick that changes the subscription *)
Definition tick_due (s : Loop) : bool :=
  bool_decide (syncState s = Syncing)
  && (((size (inFlightSyncCookies s) <=? MIN_IN_FLIGHT_COOKIES)%nat
       && (0 <? length (pendingSyncCookies s))%nat)
      || (0 <? length (List.filter (λ x, negb (bool_decide (x ∈ inFlightSyncCookies s)))
                         (pendingStreamsToDelete s)))%nat).

Lemma tick_sends s sorted :
  tick_due s = true →
  sortByPriority id (highPriorityIds s) (pendingSyncCookies s) = Ok sorted →
  let adds := take MAX_IN_FLIGHT_COOKIES sorted in
  ∃ dels, res tick s = Ok (AtModify (syncId s) adds dels)
  ∧ streams (post tick s) = streams s
  ∧ pendingSyncCookies (post tick s) = drop MAX_IN_FLIGHT_COOKIES sorted
  ∧ inFlightSyncCookies (post tick s) = list_to_set adds ∪ inFlightSyncCookies s
  ∧ out tick s = [rpc_modifySync (syncId s) (omap (λ x, rec_syncCookie <$> streams s !! x) adds) dels].
Proof.
  intros Hd Hs. unfold tick. run. unfold tick_due in Hd. rewrite Hd, Hs. simpl liftR. run. eexists. done.
Qed.

Lemma tick_fails s e :
  tick_due s = true →
  sortByPriority id (highPriorityIds s) (pendingSyncCookies s) = Throw e → post tick s = s.
Proof. intros Hd Hs. unfold tick. run. unfold tick_due in Hd. rewrite Hd, Hs. done. Qed.

Lemma tick_otherwise s : tick_due s = false → post tick s = post tick_response s.
Proof. intros Hd. unfold tick. run. unfold tick_due in Hd. by rewrite Hd. Qed.

(** ** The lists of streams *)

(** No stream is pending twice; pending streams and streams in flight are
    streams of the loop, and no stream is both. *)
Definition books (s : Loop) : Prop :=
  jm_wf (streams s) ∧ NoDup (pendingSyncCookies s)
  ∧ (∀ x, x ∈ pendingSyncCookies s → is_Some (streams s !! x) ∧ x ∉ inFlightSyncCookies s)
  ∧ (∀ x, x ∈ inFlightSyncCookies s → is_Some (streams s !! x)).
Definition books_kept : relation Loop := λ s s', books s → books s'.
#[local] Instance books_kept_preorder : PreOrder books_kept.
Proof. split; [by intros s Hs|]. intros s1 s2 s3 H1 H2 Hs. auto. Qed.

Lemma books_cleared s : books s →
  books (s <| inFlightSyncCookies := ∅ |> <| pendingSyncCookies := [] |> <| pendingStreamsToDelete := [] |>).
Proof. intros (Hw & _). split_and!; [done|apply NoDup_nil_2|set_solver|set_solver]. Qed.
Lemma books_received s x : books s → books (s <| inFlightSyncCookies ::= (.∖ {[x]}) |>
                                              <| processedStreamCount ::= λ n, n + 1 |>).
Proof. intros (Hw & Hn & Hp & Hf). split_and!; [done|done| |]; simpl; set_solver. Qed.

#[local] Hint Extern 3 (moves books_kept (modify _)) =>
  let Hb := fresh in apply moves_modify; intros ? Hb; first [exact Hb | by apply books_cleared | by apply books_received] : moves.

Lemma moves_books_received x : moves books_kept (received x).
Proof. unfold received. moves. Qed.
#[local] Hint Resolve moves_books_received : moves.
Lemma moves_books_response : moves books_kept tick_response.
Proof. unfold tick_response, onUpdate. moves. Qed.
#[local] Hint Resolve moves_books_response : moves.

Lemma moves_books_tick : moves books_kept tick.
Proof.
  intros s Hb. destruct (tick_due s) eqn:Hd; [|rewrite tick_otherwise by done; by apply moves_books_response].
  destruct (sortByPriority id (highPriorityIds s) (pendingSyncCookies s)) as [sorted|e] eqn:Hs;
    [|by rewrite (tick_fails s e Hd Hs)].
  destruct (tick_sends s sorted Hd Hs) as (dels & _ & HS & HP & HF & _).
  destruct Hb as (Hw & Hn & Hp & Hf). apply sortByPriority_Permutation in Hs.
  assert (Hin : ∀ x, x ∈ sorted ↔ x ∈ pendingSyncCookies s) by (intros x; by rewrite Hs).
  rewrite <- Hs in Hn. rewrite <- (take_drop MAX_IN_FLIGHT_COOKIES sorted) in Hn, Hin.
  apply NoDup_app in Hn as (_ & Hdis & Hn). unfold books. rewrite HS, HP, HF.
  split_and!; [done|done| |]; intros x; specialize (Hin x); specialize (Hdis x); specialize (Hp x);
    specialize (Hf x); rewrite elem_of_app in Hin.
  - intros Hx. split; [apply Hp; tauto|]. rewrite elem_of_union, elem_of_list_to_set. tauto.
  - rewrite elem_of_union, elem_of_list_to_set. tauto.
Qed.
#[local] Hint Resolve moves_books_tick : moves.
Lemma moves_books_check : moves books_kept checkStartTicking.
Proof. unfold checkStartTicking, run_tick. moves. Qed.
#[local] Hint Resolve moves_books_check : moves.

Lemma books_putBack l s : books s → books (putBack l s).
Proof.
  unfold putBack. revert s. induction l as [|x l IH]; intros s Hb; [done|]. cbn [foldl]. apply IH.
  case_bool_decide as Hx; [|done]. destruct Hb as (Hw & Hn & Hp & Hf).
  assert (Hnx : x ∉ pendingSyncCookies s) by (intros [_ Hq]%Hp; by apply Hq).
  split_and!; simpl; [done| | |set_solver].
  - apply NoDup_app. split_and!; [done|set_solver|apply NoDup_singleton].
  - intros y [Hy| ->%list_elem_of_singleton]%elem_of_app; [|set_solver]. destruct (Hp y Hy). set_solver.
Qed.
Lemma moves_books_modified ok : moves books_kept (modified ok).
Proof.
  unfold modified, run_tick. moves. apply moves_modify. intros s Hb. exact (books_putBack _ s Hb).
Qed.

Lemma moves_books_unpacked c : moves books_kept (unpacked c).
Proof.
  unfold unpacked. moves. apply moves_modify. intros s1 (Hw & Hn & Hp & Hf).
  assert (Hk : ∀ f k x, is_Some (jm_alter f k (streams s1) !! x) ↔ is_Some (streams s1 !! x)).
  { intros f k x. by rewrite <- !jm_elem_keys, jm_keys_alter. }
  split_and!; simpl; [by apply jm_wf_alter|done|..]; intros x Hx; rewrite Hk; auto.
Qed.

Lemma books_added s x r n : books s → streams s !! x = None →
  books (s <| streams ::= <[x := r]> |> <| next_ref := n |> <| pendingSyncCookies ::= λ l, l ++ [x] |>).
Proof.
  intros (Hw & Hn & Hp & Hf) Hx.
  assert (Hk : ∀ y, is_Some (streams s !! y) → is_Some (<[x := r]> (streams s) !! y)).
  { intros y Hy. rewrite jm_lookup_insert. case_decide; [by eexists|done]. }
  assert (Hnp : x ∉ pendingSyncCookies s) by (intros [Hq _]%Hp; rewrite Hx in Hq; by destruct Hq).
  assert (Hnf : x ∉ inFlightSyncCookies s) by (intros Hq%Hf; rewrite Hx in Hq; by destruct Hq).
  split_and!; simpl; [by apply jm_wf_insert| | |by auto].
  - apply NoDup_app. split_and!; [done|set_solver|apply NoDup_singleton].
  - intros y [[Hy Hy2]%Hp| ->%list_elem_of_singleton]%elem_of_app; [by auto|].
    by rewrite jm_lookup_insert_eq.
Qed.

Lemma moves_books_add x c st : moves books_kept (addStreamToSync x c st).
Proof.
  intros s Hb. unfold addStreamToSync. run. destruct (jm_has x (streams s)) eqn:Hx; [done|].
  apply jm_has_false in Hx. rewrite post_bind.
  destruct (findIndex _ _); run; apply moves_books_check, (books_added _ x); done.
Qed.

Lemma books_removed s x p f : books s →
  (∀ y, y ∈ p ↔ y ∈ pendingSyncCookies s ∧ y ≠ x) → NoDup p →
  (∀ y, y ∈ f ↔ y ∈ inFlightSyncCookies s ∧ y ≠ x) → ∀ d,
  books (s <| streams ::= delete x |> <| pendingSyncCookies := p |> <| inFlightSyncCookies := f |>
           <| pendingStreamsToDelete := d |>).
Proof.
  intros (Hw & _ & Hp & Hf) Hip Hn Hif d.
  assert (Hk : ∀ y, y ≠ x → is_Some (streams s !! y) → is_Some (delete x (streams s) !! y)).
  { intros y Hy Hs. by rewrite jm_lookup_delete_ne by done. }
  split_and!; simpl; [by apply jm_wf_delete|done| |].
  - intros y [Hy Hne]%Hip. destruct (Hp y Hy). split; [by apply Hk|]. intros [? _]%Hif. done.
  - intros y [Hy Hne]%Hif. auto.
Qed.

(** A pending stream that is removed was not in flight. *)
Lemma books_unpended s x i : books s → findIndex (String.eqb x) (pendingSyncCookies s) = Some i →
  books (s <| pendingSyncCookies ::= splice1 i |> <| streams ::= delete x |>).
Proof.
  intros Hb (z & Hz & <-%String.eqb_eq & _)%findIndex_Some. pose proof (splice1_Permutation i _ _ Hz) as Hperm.
  pose proof Hb as (_ & Hn & Hp & _). rewrite Hperm in Hn. apply NoDup_cons in Hn as [Hni Hn].
  assert (Hxf : x ∉ inFlightSyncCookies s) by (by apply Hp, (list_elem_of_lookup_2 _ i)).
  apply (books_removed s x (splice1 i (pendingSyncCookies s)) (inFlightSyncCookies s) Hb); [|done|].
  - intros y. rewrite Hperm at 2. rewrite elem_of_cons. split; [|tauto]. intros Hy. split; [by right|by intros ->].
  - intros y. split; [|tauto]. intros Hy. split; [done|by intros ->].
Qed.

Lemma moves_books_remove x : moves books_kept (removeStreamFromSync x).
Proof.
  intros s Hb. unfold removeStreamFromSync. run. destruct (streams s !! x) as [r|] eqn:Hr; [|done].
  destruct (findIndex _ _) as [i|] eqn:Hi; [run; by apply books_unpended|].
  case_bool_decide; [done|]. destruct (_ || _); [done|].
  assert (Hnp : x ∉ pendingSyncCookies s).
  { intros Hx. rewrite findIndex_None in Hi. apply Hi in Hx. by rewrite String.eqb_refl in Hx. }
  unfold removeStream. run. case_bool_decide as Hs; simpl whenM; run.
  - destruct Hb as (Hw & Hn & Hp & Hf).
    apply (books_removed s x (pendingSyncCookies s) (inFlightSyncCookies s ∖ {[x]}) ltac:(done)); [|done|set_solver].
    intros y. split; [|tauto]. intros Hy. split; [done|by intros ->].
  - destruct Hb as (Hw & Hn & Hp & Hf). split_and!; simpl; set_solver.
Qed.

(** ** The loop and the lists *)

Lemma moves_books_set n : moves books_kept (setSyncState n).
Proof. unfold setSyncState. moves. Qed.
#[local] Hint Resolve moves_books_set : moves.
Lemma moves_books_attempt : moves books_kept attemptRetry.
Proof. unfold attemptRetry, stopPing. moves. Qed.
Lemma moves_books_onResponse v : moves books_kept (onResponse v).
Proof. unfold onResponse, syncStarted, syncClosed, syncDown, stopPing, sendKeepAlivePings. moves. Qed.
#[local] Hint Resolve moves_books_attempt moves_books_onResponse : moves.

Lemma books_all_pending s : books s → inFlightSyncCookies s = ∅ →
  books (s <| pendingSyncCookies := jm_keys (streams s) |>).
Proof.
  intros (Hw & _ & _ & _) Hf. split_and!; simpl; rewrite ?Hf; [done|exact Hw| |set_solver].
  intros x ?%jm_elem_keys. split; [done|set_solver].
Qed.
Lemma books_all_inFlight s l : books s → pendingSyncCookies s = [] → l ≡ₚ jm_keys (streams s) →
  books (s <| inFlightSyncCookies := list_to_set l |>).
Proof.
  intros (Hw & Hn & _ & _) Hp Hl. split_and!; simpl; [done|done|rewrite Hp; set_solver|].
  intros x Hx. apply jm_elem_keys. rewrite <- Hl. by apply elem_of_list_to_set in Hx.
Qed.

Lemma moves_books_body : moves books_kept loop_body.
Proof.
  intros s Hb. unfold loop_body. run. destruct (active (syncState s)); [|done]. run.
  apply books_cleared in Hb. match type of Hb with books ?s' => set (s1 := s') in * end.
  match goal with |- context [post (?m ≫= ?k) s1] => set (mm := m); set (kk := k) end.
  assert (Hk : ∀ l, moves books_kept (kk l)) by (intros l; unfold kk; moves).
  assert (Hm : books (post mm s1)).
  { subst mm. destruct (useModifySync s); [run; by apply books_all_pending|].
    destruct (sortByPriority _ _ _) as [l|e] eqn:Hl; [|done]. simpl liftR. run.
    apply books_all_inFlight; [done|done|]. by apply sortByPriority_Permutation in Hl. }
  rewrite post_bind. destruct (res mm s1); [|done]. by apply Hk.
Qed.

(** Where a stretch of the loop leaves the lists *)
Definition stays (m : LM LoopPc) (s : Loop) : Prop :=
  ∃ pc, res m s = Ok pc ∧ (pc = Finished ∨ books (post m s)).
Definition books_inv (s : Loop) : Prop := syncLoop s = Some Finished ∨ books s.

Lemma run_loop_stays m s : stays m s → books_inv (post (run_loop m) s).
Proof.
  intros (pc & HR & HP). unfold run_loop. rewrite (post_bind_ok _ _ _ _ HR). run.
  destruct HP as [->|Hb]; [by left|right; exact Hb].
Qed.
Lemma stays_after {A} (m : LM A) a (k : A → LM LoopPc) s :
  res m s = Ok a → stays (k a) (post m s) → stays (m ≫= k) s.
Proof. intros HR (pc & H1 & H2). exists pc. by rewrite (res_bind_ok _ _ _ _ HR), (post_bind_ok _ _ _ _ HR). Qed.

Lemma loop_finally_stays s : stays loop_finally s.
Proof. destruct (loop_finally_spec s) as [HR _]. exists Finished. auto. Qed.

Lemma loop_iteration_stays s : books s → stays loop_iteration s.
Proof.
  intros Hb. apply moves_books_body in Hb. unfold loop_iteration.
  destruct (res loop_body s) as [b|e] eqn:HR; (eapply stays_after; [by rewrite catch_res, HR|]); rewrite catch_post.
  - destruct b; [|apply loop_finally_stays]. exists AtRace. auto.
  - apply loop_finally_stays.
Qed.

Lemma loop_error_stays s : books s → stays loop_error s.
Proof.
  intros Hb. pose proof (attemptRetry_spec s) as Ha. apply moves_books_attempt in Hb. unfold loop_error.
  destruct (canGo _ _); destruct Ha as (HR & _); apply (stays_after _ _ _ _ HR).
  - exists (AtRetry false). auto.
  - by apply loop_iteration_stays.
Qed.

Lemma loop_race_stays r s : books s → stays (loop_race r) s.
Proof.
  intros Hb. destruct r as [v| |]; [|apply loop_finally_stays|by apply loop_error_stays].
  assert (Hm : moves books_kept (catchM (_ ← onResponse v; mret true) (λ _, mret false))) by moves.
  apply Hm in Hb. cbn [loop_race]. set (m := catchM _ _) in *.
  assert (∃ b, res m s = Ok b) as [b HR] by (unfold m; rewrite catch_res; destruct (res _ s); by eexists).
  apply (stays_after _ _ _ _ HR). destruct b; [|by apply loop_error_stays]. simpl negb. cbv iota.
  apply (stays_after getM _ _ _ eq_refl). change (post getM ?t) with t.
  destruct (_ || _); [exists AtRace; auto|by apply loop_iteration_stays].
Qed.

(** A loop that has ended does not run again. *)
Definition over (s : Loop) : Prop := syncLoop s = Some Finished.

Lemma over_phase (m : LM unit) s : keeps phase m → over s → over (post m s).
Proof. intros Hk Ho. unfold over. by rewrite (f_equal (λ f, f.1.1) (Hk s) : syncLoop _ = syncLoop s). Qed.
Lemma over_frame (m : LM unit) s : keeps frame m → over s → over (post m s).
Proof. intros Hk. apply over_phase. intros t. exact (f_equal (λ f, f.1.1) (Hk t)). Qed.
Lemma over_release s : over s → over (post releaseRetryWait s).
Proof. unfold over, releaseRetryWait. run. intros E. by rewrite E. Qed.
Lemma over_stop s : over s → over (post stop s).
Proof.
  intros Ho. unfold stop. run. match goal with |- context [syncState ?s'] => set (s1 := s') end.
  destruct (canGo (syncState s1) Canceling) eqn:Hg; simpl whenM; [|done].
  destruct (setSyncState_ok Canceling s1) as (HR & _ & w & HP); [by intros Hc; rewrite Hc in Hg|done|].
  rewrite (post_bind_ok _ _ _ _ HR), HP. unfold stopPing. run.
  rewrite (post_bind_ok releaseRetryWait _ tt) by done.
  match goal with |- context [post releaseRetryWait ?s'] =>
    assert (over (post releaseRetryWait s')) by (by apply over_release) end.
  destruct (syncId _); [|done]. by destruct (truthy_str _).
Qed.

Lemma over_op op s : over s → over (post (run_op op) s).
Proof.
  intros Ho. pose proof Ho as E. unfold over in E. destruct op; cbn [run_op].
  - run. by rewrite E.
  - by apply over_stop.
  - apply over_phase; [apply keeps_phase_add|done].
  - apply over_phase; [apply keeps_phase_remove|done].
  - apply over_phase; [apply keeps_phase_resumed|done].
  - done.
  - unfold onNetworkStatusChanged. destruct isOnline; [by apply over_release|done].
  - unfold onMobileSafariBackgrounded. run. destruct hidden; [done|]. simpl whenM. rewrite post_bind.
    apply over_phase; [apply keeps_phase_checkStartTicking|]. by apply over_release.
  - unfold raced. run. by rewrite E.
  - by apply over_release.
  - unfold retried. run. by rewrite E.
  - apply over_frame; [apply keeps_frame_modified|done].
  - apply over_phase; [apply keeps_phase_unpacked|done].
  - apply over_frame; [apply keeps_frame_updated|done].
  - apply over_frame; [apply keeps_frame_tickFinally|done].
  - apply over_frame; [apply keeps_frame_tickTimer|done].
  - apply over_frame; [apply keeps_frame_ping|done].
  - apply over_frame; [apply keeps_frame_pingSent|done].
  - apply over_frame; [apply keeps_frame_stalled|done].
  - apply over_frame; [apply keeps_frame_syncDown|done].
  - done.
Qed.

Lemma moves_books_release : moves books_kept releaseRetryWait.
Proof. apply moves_modify. intros s Hb. by destruct (syncLoop s) as [[|[]|]|]. Qed.
#[local] Hint Resolve moves_books_release : moves.

(** Resuming a removal that waited is the one step that may break the lists. *)
Definition not_resumed (op : LoopOp) : bool := match op with L_removeResumed _ => false | _ => true end.

Lemma op_books op s : not_resumed op = true → books_inv s → books_inv (post (run_op op) s).
Proof.
  intros Hop [Ho|Hb]; [left; by apply over_op|].
  assert (Hr : ∀ m : LM unit, moves books_kept m → books_inv (post m s)) by (intros m Hm; right; by apply Hm).
  destruct op; try done; cbn [run_op].
  - run. destruct (syncLoop s) eqn:E; [by right|]. unfold start, createSyncLoop. run.
    destruct (negb _); [by right|]. rewrite post_bind. pose proof (moves_books_set Starting s Hb) as Hb1.
    destruct (res (setSyncState Starting) s); [|by right]. rewrite E.
    by apply run_loop_stays, loop_iteration_stays.
  - apply Hr. unfold stop, stopPing. moves.
  - apply Hr, moves_books_add.
  - apply Hr, moves_books_remove.
  - apply Hr. unfold setHighPriorityStreams. moves.
  - apply Hr. unfold onNetworkStatusChanged. moves.
  - apply Hr. unfold onMobileSafariBackgrounded. moves.
  - unfold raced. run. destruct (syncLoop s) as [[]|]; try by right. by apply run_loop_stays, loop_race_stays.
  - apply Hr. moves.
  - unfold retried. run. destruct (syncLoop s) as [[|[]|]|]; try by right.
    by apply run_loop_stays, loop_iteration_stays.
  - apply Hr, moves_books_modified.
  - apply Hr, moves_books_unpacked.
  - apply Hr. unfold updated. moves.
  - apply Hr. unfold tick_finally. moves.
  - apply Hr. unfold tick_timer. moves.
  - apply Hr. unfold ping. moves.
  - apply Hr. unfold ping_sent, sendKeepAlivePings. moves.
  - apply Hr. unfold stalled. moves.
  - apply Hr. unfold syncDown. moves.
  - apply Hr. moves.
Qed.

Lemma books_new records hp ms : books (new records hp ms).
Proof.
  split_and!; simpl; [|apply NoDup_nil_2|set_solver|set_solver].
  generalize (imap pair records). intros l.
  assert (Hw : jm_wf (∅ : jsmap string StreamRecord)) by apply jm_wf_empty. revert Hw.
  generalize (∅ : jsmap string StreamRecord) as m. induction l as [|[i [c st]] l IH]; intros m Hm; [done|].
  apply IH. by apply jm_wf_insert.
Qed.

Lemma books_exec ops s : Forall (λ op, not_resumed op = true) ops → books_inv s → books_inv (exec ops s).
Proof.
  intros Hops. revert s. induction Hops as [|op ops Ho _ IH]; intros s Hs; [done|]. by apply IH, op_books.
Qed.

(** ** The theorems *)

(** C25. The lists of a loop stay consistent until it ends, as long as no removal
    that had to wait is resumed: no stream is pending twice, every pending
    stream and every stream in flight is a stream of the loop, and none is both.
    So no stream is asked for twice and no answer is awaited for a stream that
    was removed. *)
Theorem sync_books records highPriority ms ops :
  let s := exec ops (new records highPriority ms) in
  Forall (λ op, not_resumed op = true) ops → syncLoop s ≠ Some Finished →
  NoDup (pendingSyncCookies s)
  ∧ (∀ x, x ∈ pendingSyncCookies s → is_Some (streams s !! x) ∧ x ∉ inFlightSyncCookies s)
  ∧ (∀ x, x ∈ inFlightSyncCookies s → is_Some (streams s !! x)).
Proof.
  intros s Hops Hf. assert (books_inv s) as [Ho|Hb]; [|done|].
  - apply books_exec; [done|]. right. apply books_new.
  - by destruct Hb as (_ & ? & ? & ?).
Qed.

(** A tick of a syncing loop with pending streams and few in flight sends
    one request: for the at most 40 pending streams of the least priority numbers,
    with the cookies of the loop. These are then in flight, at most 50 in all;
    the other streams stay pending, and none of them has a smaller priority
    number than one that was sent. *)
Theorem tick_by_priority s :
  syncState s = Syncing → pendingSyncCookies s ≠ [] →
  (size (inFlightSyncCookies s) <= MIN_IN_FLIGHT_COOKIES)%nat →
  (∀ x, x ∈ pendingSyncCookies s → isValidStreamId x = true) →
  ∃ adds rest dels,
    adds ++ rest ≡ₚ pendingSyncCookies s
    ∧ length adds = Nat.min 40 (length (pendingSyncCookies s))
    ∧ res tick s = Ok (AtModify (syncId s) adds dels)
    ∧ out tick s = [rpc_modifySync (syncId s) (omap (λ x, rec_syncCookie <$> streams s !! x) adds) dels]
    ∧ pendingSyncCookies (post tick s) = rest
    ∧ inFlightSyncCookies (post tick s) = list_to_set adds ∪ inFlightSyncCookies s
    ∧ (size (inFlightSyncCookies (post tick s)) <= 50)%nat
    ∧ (∀ x y p q, x ∈ adds → y ∈ rest → priorityFromStreamId x (highPriorityIds s) = Ok p →
         priorityFromStreamId y (highPriorityIds s) = Ok q → p <= q).
Proof.
  intros Hs Hp Hf Hv. destruct (sortByPriority_total id (highPriorityIds s) _ Hv) as [sorted Hso].
  assert (Hd : tick_due s = true).
  { unfold tick_due. rewrite bool_decide_true by done. simpl. apply orb_true_iff. left. apply andb_true_iff.
    split; [by apply Nat.leb_le|]. by destruct (pendingSyncCookies s). }
  destruct (tick_sends s sorted Hd Hso) as (dels & HR & _ & HP & HF & HO).
  pose proof (sortByPriority_Permutation id _ _ _ Hso) as Hperm.
  exists (take 40 sorted), (drop 40 sorted), dels.
  split_and!; [by rewrite take_drop| |done|done|done|done| |].
  - by rewrite length_take, Hperm.
  - rewrite HF. etrans; [apply size_add|]. rewrite length_take.
    unfold MIN_IN_FLIGHT_COOKIES, MAX_IN_FLIGHT_COOKIES in *. lia.
  - intros x y p q [i Hx]%list_elem_of_lookup [j Hy]%list_elem_of_lookup.
    apply lookup_take_Some in Hx as [Hx Hi]. rewrite lookup_drop in Hy.
    apply (sortByPriority_le id _ _ _ i (40 + j) _ _ _ _ Hso); [lia|done..].
Qed.
End Books.

Module BooksWitness.
Import ModelEth Fixtures SyncWitness.

(** Two streams are in flight, the request for them fails, a third is added and
    one is removed. *)
Definition busy : list LoopOp :=
  connected ++ [L_modified false; L_add (streamId x03) (cookie x03) 2; L_remove (streamId x01)].

Lemma sync_books_witness :
  NoDup (pendingSyncCookies (exec busy fresh))
  ∧ pendingSyncCookies (exec busy fresh) = [streamId x02; streamId x03].
Proof.
  destruct (sync_books [(cookie x01, 0%nat); (cookie x02, 1%nat)] [] true busy) as (Hn & _).
  - repeat constructor.
  - vm_compute. discriminate.
  - split; [exact Hn|vm_compute; reflexivity].
Defined.

(** The stream with high priority is sent first, the space's channel after it. *)
Lemma tick_by_priority_witness :
  let s := exec [L_priority [streamId x03]] (exec busy fresh) in
  ∃ adds rest dels, adds ++ rest ≡ₚ pendingSyncCookies s
  ∧ res tick s = Ok (AtModify (Some "s1") adds dels) ∧ adds = [streamId x03; streamId x02].
Proof.
  intros s.
  assert (HP : pendingSyncCookies s = [streamId x02; streamId x03]) by (vm_compute; reflexivity).
  assert (E : res tick s = Ok (AtModify (Some "s1") [streamId x03; streamId x02] [])) by (vm_compute; reflexivity).
  assert (Hs : syncState s = Syncing) by (vm_compute; reflexivity).
  assert (Hf : (size (inFlightSyncCookies s) <= MIN_IN_FLIGHT_COOKIES)%nat).
  { apply Nat.leb_le. vm_compute. reflexivity. }
  clearbody s. destruct (tick_by_priority s) as (adds & rest & dels & Hp & _ & HR & _).
  - exact Hs.
  - rewrite HP. discriminate.
  - exact Hf.
  - intros x Hx. rewrite HP in Hx. apply elem_of_cons in Hx as [->|Hx]; [vm_compute; reflexivity|].
    apply list_elem_of_singleton in Hx as ->. vm_compute. reflexivity.
  - rewrite E in HR. injection HR as _ <- <-. exists [streamId x03; streamId x02], rest, []. split_and!; done.
Defined.

(** A removal that waited for the connection deletes the stream but leaves its
    id pending: the next tick puts the id in flight without a cookie, and no
    update will ever take it out. *)
Lemma waiting_removal_phantom :
  let s := exec (connected ++ [L_raced Error; L_remove (streamId x01); L_retryTimeout; L_retried;
                               L_raced (Value (response SYNC_NEW)); L_removeResumed 0; L_modified false;
                               L_tickFinally]) fresh in
  streams s !! streamId x01 = None
  ∧ streamId x01 ∈ inFlightSyncCookies (post tick_timer s)
  ∧ out tick_timer s = [rpc_modifySync (Some "s1") [cookie x02] [streamId x01]].
Proof.
  intros s. split_and!; [vm_compute; reflexivity| |vm_compute; reflexivity].
  apply (bool_decide_unpack (streamId x01 ∈ inFlightSyncCookies (post tick_timer s))). vm_compute. exact I.
Qed.

(** A stream is removed, and added again while the request to remove it is
    under way. When that request fails, the next one asks for both. *)
Lemma failed_removal_repeated :
  let s := exec (connected ++ [L_modified true; L_tickFinally; L_remove (streamId x01); L_tickTimer;
                               L_add (streamId x01) (cookie x01) 0; L_modified false; L_tickFinally]) fresh in
  is_Some (streams s !! streamId x01)
  ∧ out tick_timer s = [rpc_modifySync (Some "s1") [cookie x01] [streamId x01]].
Proof. split; [vm_compute; by eexists|vm_compute; reflexivity]. Qed.

(** When the responses end without an error the loop is gone, in state
    [Syncing], with its sync id; streams may still be added, and are asked for. *)
Lemma ended_still_syncing :
  let s := exec (connected ++ [L_modified true; L_tickFinally; L_raced Done]) fresh in
  syncLoop s = Some Finished ∧ syncState s = Syncing ∧ syncId s = Some "s1"
  ∧ out (addStreamToSync (streamId x03) (cookie x03) 2) s = [rpc_modifySync (Some "s1") [cookie x03] []].
Proof. vm_compute. done. Qed.
End BooksWitness.
