(* ===== verification/UnreadMarkers.v ===== *)
(** * UnreadMarkers: what a user has not read yet
    (sdk/src/views/streams/unreadMarkersTransform.ts)

    Every channel and every thread has a marker: a window of event numbers, the
    first unread event in it, and the number of mentions. Markers come from the
    user's settings stream and are kept up to date from the timelines.

    The code compares objects with [!==] to skip what did not change; which of
    them differ is an input ([Differs]). Objects used as maps are [gmap]s; where
    the order of [Object.keys] could matter it is an argument. *)

From S2P Require Import Prelude JsLib JsMap Ids Proto TimelineTypes Timelines.

Abbreviation Markers := (gmap string FullyReadMarker).

#[export] Instance eta_FullyReadMarker : Eta FullyReadMarker := λ r,
  Build_FullyReadMarker (fr_channelId r) (fr_threadParentId r) (fr_eventId r) (fr_eventNum r)
    (fr_beginUnreadWindow r) (fr_endUnreadWindow r) (fr_isUnread r) (fr_markedReadAtTs r) (fr_mentions r).

(** What is not the same object as before: the remote markers of a stream, the
    view, its timelines, and the timeline of a stream *)
Record Differs := {
  df_markers : string → bool;
  df_view : bool;
  df_timelines : bool;
  df_timeline : string → bool;
}.

(** ** The first unread event *)

Definition isCountedAsUnread (event : TimelineEvent) (myUserId : string) : bool :=
  match tl_content event with
  | Some (TE_ChannelMessage _) => negb (String.eqb (tl_sender event) myUserId)
  | Some (TE_ChannelMessageEncrypted _) => negb (String.eqb (tl_sender event) myUserId)
  | Some (TE_ChannelMessageEncryptedWithRef _) => false
  | _ => false
  end.

Fixpoint bisect (fuel : nat) (events : list TimelineEvent) (eventNum low high : Z) : nat :=
  match fuel with
  | O => length events
  | S fuel =>
      if high <? low then length events
      else
        let mid := (low + high) / 2 in
        match events !! Z.to_nat mid with
        | None => length events
        | Some e =>
            if tl_eventNum e <? eventNum then bisect fuel events eventNum (mid + 1) high
            else if (mid =? 0) || match events !! Z.to_nat (mid - 1) with
                                  | Some e' => tl_eventNum e' <? eventNum
                                  | None => false
                                  end
            then Z.to_nat mid
            else bisect fuel events eventNum low (mid - 1)
        end
  end.

Definition indexOfFirstEventNumEqualToOrGreaterThan (events : list TimelineEvent) (eventNum : Z) : nat :=
  bisect (S (length events)) events eventNum 0 (Z.of_nat (length events) - 1).

Definition markerIdOf (channelId : string) (event : TimelineEvent) : string :=
  default channelId (tl_threadParentId event).

(** The [for] loop from the index found *)
Fixpoint firstUnread_loop (events : list TimelineEvent) (userId channelId markerId : string) (endWindow : Z)
    : option TimelineEvent :=
  match events with
  | [] => None
  | event :: events =>
      if endWindow <? tl_eventNum event then None
      else if String.eqb (markerIdOf channelId event) markerId && isCountedAsUnread event userId
      then Some event
      else firstUnread_loop events userId channelId markerId endWindow
  end.

Definition firstUnreadEvent (events : list TimelineEvent) (userId channelId markerId : string)
    (beginWindow endWindow : Z) : Res (option TimelineEvent) :=
  _ ← checkR (beginWindow <=? endWindow) "beginWindow must be <= endWindow" ERR_UNSPECIFIED;
  let startIndex := indexOfFirstEventNumEqualToOrGreaterThan events beginWindow in
  Ok (firstUnread_loop (drop startIndex events) userId channelId markerId endWindow).

(** [firstUnread?.x ?? otherwise.x]; [otherwise] is only read when needed. *)
Definition orElse (firstUnread otherwise : option TimelineEvent) : Res TimelineEvent :=
  match firstUnread, otherwise with
  | Some e, _ => Ok e
  | None, Some e => Ok e
  | None, None => Throw (TypeError "Cannot read properties of undefined")
  end.

(** ** Markers of the settings stream *)

Definition updateFullyReadMarkersFromRemote (fullyReadMarkers : Markers) (state : Markers) : Markers :=
  foldl (λ updated '(key, marker),
    match updated !! key with
    | None => <[key := marker]> updated
    | Some m => if fr_beginUnreadWindow m <? fr_beginUnreadWindow marker
                then <[key := marker]> updated else updated
    end) state (map_to_list fullyReadMarkers).

(** ** Events that were replaced: decrypted, edited or redacted *)

(** One round of the loop of [diffReplaced]; [channelMarker] was read before it. *)
Definition diffReplaced_one (channelId userId : string) (events : list TimelineEvent)
    (channelMarker : FullyReadMarker) (oldEvent newEvent : TimelineEvent) (updated : Markers)
    : Res (Markers * bool) :=
  if fr_endUnreadWindow channelMarker <? tl_eventNum newEvent then Ok (updated, false)
  else
    let markerId := markerIdOf channelId newEvent in
    match updated !! markerId with
    | None =>
        Ok (<[markerId := {|
          fr_channelId := channelId; fr_threadParentId := tl_threadParentId newEvent;
          fr_eventId := tl_eventId newEvent; fr_eventNum := tl_eventNum newEvent;
          fr_beginUnreadWindow := fr_beginUnreadWindow channelMarker;
          fr_endUnreadWindow := fr_endUnreadWindow channelMarker;
          fr_isUnread := isCountedAsUnread newEvent userId; fr_markedReadAtTs := 0;
          fr_mentions := if tl_isMentioned newEvent then 1 else 0 |}]> updated, true)
    | Some marker =>
        if tl_eventNum newEvent <? fr_beginUnreadWindow marker then Ok (updated, false)
        else
          let wasMentionedBefore := tl_isMentioned oldEvent in
          let wasMentionedAfter := tl_isMentioned newEvent in
          let mentions := if Bool.eqb wasMentionedBefore wasMentionedAfter then fr_mentions marker
                          else if wasMentionedBefore then fr_mentions marker - 1
                          else fr_mentions marker + 1 in
          let endUnreadWindow := Z.max (tl_eventNum newEvent) (fr_endUnreadWindow marker) in
          if tl_isRedacted newEvent && negb (tl_isRedacted oldEvent)
             && (tl_eventNum newEvent =? fr_eventNum marker)
          then
            firstUnread ← firstUnreadEvent events userId channelId markerId
                            (fr_beginUnreadWindow marker) endUnreadWindow;
            e ← orElse firstUnread (last events);
            Ok (<[markerId := marker <| fr_eventId := tl_eventId e |> <| fr_eventNum := tl_eventNum e |>
                                     <| fr_endUnreadWindow := endUnreadWindow |>
                                     <| fr_isUnread := isDefined firstUnread |>
                                     <| fr_mentions := mentions |>]> updated, true)
          else
            let isNewFirstUnread := isCountedAsUnread newEvent userId
                && (negb (fr_isUnread marker) || (tl_eventNum newEvent <=? fr_eventNum marker)) in
            Ok (<[markerId := marker
                    <| fr_eventId := if isNewFirstUnread then tl_eventId newEvent else fr_eventId marker |>
                    <| fr_eventNum := if isNewFirstUnread then tl_eventNum newEvent else fr_eventNum marker |>
                    <| fr_endUnreadWindow := endUnreadWindow |>
                    <| fr_isUnread := fr_isUnread marker || isNewFirstUnread |>
                    <| fr_mentions := mentions |>]> updated, true)
    end.

Fixpoint diffReplaced_loop (channelId userId : string) (events : list TimelineEvent)
    (channelMarker : FullyReadMarker) (replaced : list (TimelineEvent * TimelineEvent))
    (updated : Markers) (didUpdate : bool) : Res (Markers * bool) :=
  match replaced with
  | [] => Ok (updated, didUpdate)
  | (oldEvent, newEvent) :: replaced =>
      r ← diffReplaced_one channelId userId events channelMarker oldEvent newEvent updated;
      diffReplaced_loop channelId userId events channelMarker replaced r.1 (didUpdate || r.2)
  end.

Definition diffReplaced (channelId userId : string) (events : list TimelineEvent)
    (replacedEvents prevReplacedEvents : list (TimelineEvent * TimelineEvent)) (updated : Markers)
    : Res (Markers * bool) :=
  if (length replacedEvents =? length prevReplacedEvents)%nat then Ok (updated, false)
  else match updated !! channelId with
       | None => Ok (updated, false)
       | Some channelMarker =>
           diffReplaced_loop channelId userId events channelMarker
             (drop (length prevReplacedEvents) replacedEvents) updated false
       end.

(** ** Events that were added *)

(** The new events of each marker, in the order of the timeline; the loop goes
    backwards, so the last events determine the order of the markers. *)
Definition segments (channelId : string) (prevEndUnreadWindow : Z) (events : list TimelineEvent)
    : jsmap string (list TimelineEvent) :=
  foldr (λ event m,
    if prevEndUnreadWindow <? tl_eventNum event
    then let parentId := markerIdOf channelId event in
         <[parentId := event :: default [] (m !! parentId)]> m
    else m) ∅ events.

(** One round of the [forEach] of [diffAdded] *)
Definition diffAdded_one (channelId userId : string) (events : list TimelineEvent)
    (markerId : string) (eventSegment : list TimelineEvent) (updated : Markers) : Res Markers :=
  match head eventSegment, last eventSegment with
  | Some first, Some last =>
      let prevMarker := updated !! markerId in
      let mentions := default (0 + Z.of_nat (length (List.filter tl_isMentioned eventSegment)))
                        (fr_mentions <$> prevMarker) in
      let beginUnreadWindow := default (tl_eventNum first) (fr_beginUnreadWindow <$> prevMarker) in
      let endUnreadWindow := tl_eventNum last in
      if endUnreadWindow <? beginUnreadWindow then Ok updated
      else
        firstUnread ← firstUnreadEvent events userId channelId markerId beginUnreadWindow endUnreadWindow;
        e ← orElse firstUnread (Some last);
        Ok (<[markerId := {|
          fr_channelId := channelId;
          fr_threadParentId := if String.eqb markerId channelId then None else Some markerId;
          fr_eventId := tl_eventId e; fr_eventNum := tl_eventNum e;
          fr_beginUnreadWindow := beginUnreadWindow; fr_endUnreadWindow := endUnreadWindow;
          fr_isUnread := isDefined firstUnread;
          fr_markedReadAtTs := default 0 (fr_markedReadAtTs <$> prevMarker);
          fr_mentions := mentions |}]> updated)
  | _, _ => Throw (TypeError "Cannot read properties of undefined")
  end.

Fixpoint diffAdded_loop (channelId userId : string) (events : list TimelineEvent)
    (l : list (string * list TimelineEvent)) (updated : Markers) : Res Markers :=
  match l with
  | [] => Ok updated
  | (markerId, eventSegment) :: l =>
      updated ← diffAdded_one channelId userId events markerId eventSegment updated;
      diffAdded_loop channelId userId events l updated
  end.

Definition diffAdded (channelId userId : string) (events : list TimelineEvent) (updated : Markers)
    : Res (Markers * bool) :=
  let prevEndUnreadWindow := default (-1) (fr_endUnreadWindow <$> updated !! channelId) in
  let eventsMap := segments channelId prevEndUnreadWindow events in
  updated ← diffAdded_loop channelId userId events (entries eventsMap) updated;
  Ok (updated, negb (length (entries eventsMap) =? 0)%nat).

(** ** The transform *)

Section Transform.
Context `{EthLib}.

Definition isDiffableStreamTimeline (streamId : string) : bool :=
  isChannelStreamId (SStr streamId) || isDMChannelStreamId (SStr streamId)
  || isGDMChannelStreamId (SStr streamId).

Definition diffChannel (userId channelId : string) (timelineState prev : TimelinesViewModel) (state : Markers)
    : Res Markers :=
  let events := default [] (timelines timelineState !! channelId) in
  replaced ← diffReplaced channelId userId events (default [] (replacedEvents timelineState !! channelId))
               (default [] (replacedEvents prev !! channelId)) state;
  added ← diffAdded channelId userId events replaced.1;
  Ok (if replaced.2 || added.2 then added.1 else state).

Fixpoint diffTimeline_loop (differs : Differs) (userId : string) (timelineState prev : TimelinesViewModel)
    (channelIds : list string) (state : Markers) : Res Markers :=
  match channelIds with
  | [] => Ok state
  | channelId :: channelIds =>
      state ← (if df_timeline differs channelId
               then diffChannel userId channelId timelineState prev state else Ok state);
      diffTimeline_loop differs userId timelineState prev channelIds state
  end.

(** [keys] is [Object.keys(timelineState.timelines)]. *)
Definition diffTimeline (differs : Differs) (keys : list string) (timelineState prev : TimelinesViewModel)
    (userId : string) (state : Markers) : Res Markers :=
  if (size (timelines prev) =? 0)%nat || negb (df_timelines differs) then Ok state
  else diffTimeline_loop differs userId timelineState prev (List.filter isDiffableStreamTimeline keys) state.

(** [remote] is [Object.entries(myRemoteFullyReadMarkers)]. *)
Definition unreadMarkersTransform (differs : Differs) (userId : string) (remote : list (string * Markers))
    (keys : list string) (timelinesView prev : TimelinesViewModel) (state : Markers) : Res Markers :=
  let state := foldl (λ state '(streamId, fullyReadMarkers),
    if df_markers differs streamId then updateFullyReadMarkersFromRemote fullyReadMarkers state else state)
    state remote in
  if df_view differs then diffTimeline differs keys timelinesView prev userId state else Ok state.
End Transform.
