(* ===== verification/UnreadMarkersFacts.v ===== *)
(** * UnreadMarkersFacts: the unread markers as theorems

    The binary search finds the first event of the window, the markers of a
    channel and its threads name the first unread event, and what was read is
    never unread again. *)

From S2P Require Import Prelude JsLib JsMap Ids IdsFacts Proto Types TimelineTypes Timelines TimelinesFacts Fixtures UnreadMarkers.

(** Timelines are ordered by event number. *)
Definition by_num : relation TimelineEvent := λ a b, tl_eventNum a <= tl_eventNum b.
Abbreviation ordered := (StronglySorted by_num).

(** ** The binary search *)

Section Search.
Context (events : list TimelineEvent) (n : Z).

Definition below (i : Z) : Prop := ∃ e, events !! Z.to_nat i = Some e ∧ tl_eventNum e < n.
Definition above (i : Z) : Prop := ∃ e, events !! Z.to_nat i = Some e ∧ n <= tl_eventNum e.

(** [k] is the index of the first event whose number is [n] or more. *)
Definition first_from (k : nat) : Prop :=
  (∀ i e, (i < k)%nat → events !! i = Some e → tl_eventNum e < n)
  ∧ (k <= length events)%nat ∧ ∀ e, events !! k = Some e → n <= tl_eventNum e.

Context (Hs : ordered events).

Lemma ordered_le i j a b : (i <= j)%nat → events !! i = Some a → events !! j = Some b → by_num a b.
Proof.
  intros Hij Ha Hb. destruct (decide (i = j)) as [->|Hne]; [simplify_eq; unfold by_num; lia|].
  apply (StronglySorted_lookup by_num events i j); [done|lia|done|done].
Qed.

Lemma below_first i k e : below i → (k <= Z.to_nat i)%nat → events !! k = Some e → tl_eventNum e < n.
Proof.
  intros (e' & He' & Hlt) Hk He. pose proof (ordered_le k (Z.to_nat i) e e' ltac:(lia) He He') as Hle.
  unfold by_num in Hle. lia.
Qed.

(** Everything before [low] is below; the event at [high] is not, unless [high]
    is the last index. *)
Lemma bisect_spec fuel low high :
  0 <= low -> low <= high + 1 -> high < Z.of_nat (length events) ->
  (low = 0 ∨ below (low - 1)) ->
  (high = Z.of_nat (length events) - 1 ∨ 0 <= high ∧ above high) ->
  high - low + 1 < Z.of_nat fuel -> first_from (bisect fuel events n low high).
Proof.
  revert low high. induction fuel as [|fuel IH]; intros low high Hl Hlh Hh Hlow Hhigh Hf; [lia|]. simpl.
  destruct (Z.ltb_spec high low) as [Hlt|Hge].
  - assert (high = Z.of_nat (length events) - 1) as ->.
    { destruct Hhigh as [?|(H0 & e & He & Hn)]; [done|]. destruct Hlow as [?|(e' & He' & Hn')]; [lia|].
      replace (low - 1) with high in He' by lia. rewrite He in He'. injection He' as ->. lia. }
    split_and!; [|lia|].
    + intros i e Hi He. destruct Hlow as [?|Hb]; [lia|]. apply (below_first (low - 1) i); [done|lia|done].
    + intros e He. apply lookup_lt_Some in He. lia.
  - set (mid := (low + high) / 2).
    assert (Hm : low <= mid <= high) by (unfold mid; split; [apply Z.div_le_lower_bound|apply Z.div_le_upper_bound]; lia).
    destruct (lookup_lt_is_Some_2 events (Z.to_nat mid)) as [e He]; [lia|]. rewrite He.
    destruct (Z.ltb_spec (tl_eventNum e) n) as [Hn|Hn].
    { apply IH; try lia; [|done]. right. exists e. by replace (mid + 1 - 1) with mid by lia. }
    destruct (Z.eqb_spec mid 0) as [E0|Hne]; simpl.
    { split_and!; [intros; lia|lia|]. intros e' He'. congruence. }
    destruct (lookup_lt_is_Some_2 events (Z.to_nat (mid - 1))) as [e' He']; [lia|]. rewrite He'.
    destruct (Z.ltb_spec (tl_eventNum e') n) as [Hn'|Hn'].
    + split_and!; [|lia|intros e2 He2; congruence]. intros i e2 Hi He2.
      apply (below_first (mid - 1) i e2); [by exists e'|lia|done].
    + apply IH; try lia; [done|]. right. split; [lia|]. by exists e'.
Qed.

Lemma index_first : first_from (indexOfFirstEventNumEqualToOrGreaterThan events n).
Proof.
  unfold indexOfFirstEventNumEqualToOrGreaterThan. apply bisect_spec; try lia; by left.
Qed.
End Search.

(** ** The first unread event *)

(** An unread event of a marker in a window *)
Definition unreadIn (userId channelId markerId : string) (beginWindow endWindow : Z) (e : TimelineEvent) : bool :=
  (beginWindow <=? tl_eventNum e) && (tl_eventNum e <=? endWindow)
  && (String.eqb (markerIdOf channelId e) markerId && isCountedAsUnread e userId).

Lemma find_none {A} (f : A → bool) l : (∀ x, x ∈ l → f x = false) → List.find f l = None.
Proof.
  induction l as [|x l IH]; intros Hf; [done|]. simpl. rewrite (Hf x) by set_solver. apply IH. set_solver.
Qed.

Lemma firstUnread_loop_find l u c m b w :
  ordered l → (∀ e, e ∈ l → b <= tl_eventNum e) →
  firstUnread_loop l u c m w = List.find (unreadIn u c m b w) l.
Proof.
  induction 1 as [|e l Hl IH He]; intros Hb; [done|]. simpl. unfold unreadIn at 1.
  assert ((b <=? tl_eventNum e) = true) as -> by (apply Z.leb_le, Hb; set_solver). simpl.
  destruct (Z.ltb_spec w (tl_eventNum e)) as [Hw|Hw].
  - assert ((tl_eventNum e <=? w) = false) as -> by lia. simpl. symmetry. apply find_none. intros x Hx.
    rewrite Forall_forall in He. apply He in Hx. unfold by_num in Hx. unfold unreadIn.
    assert ((tl_eventNum x <=? w) = false) as -> by lia. by rewrite andb_false_r.
  - assert ((tl_eventNum e <=? w) = true) as -> by lia. simpl. destruct (_ && _); [done|]. apply IH. set_solver.
Qed.

Lemma find_skip {A} (f : A → bool) k l :
  (∀ i x, (i < k)%nat → l !! i = Some x → f x = false) → List.find f l = List.find f (drop k l).
Proof.
  revert l. induction k as [|k IH]; intros [|x l] Hf; try done. simpl.
  rewrite (Hf O x) by (done || lia). apply IH. intros i y Hi Hy. apply (Hf (S i)); [lia|done].
Qed.

Lemma ordered_drop k l : ordered l → ordered (drop k l).
Proof. revert l. induction k as [|k IH]; intros [|x l] Hl; try done. simpl. apply IH. by inversion Hl. Qed.

Lemma firstUnreadEvent_find events u c m b w :
  ordered events → b <= w → firstUnreadEvent events u c m b w = Ok (List.find (unreadIn u c m b w) events).
Proof.
  intros Hs Hbw. unfold firstUnreadEvent, checkR. assert ((b <=? w) = true) as -> by lia. simpl. f_equal.
  destruct (index_first events b Hs) as (Hlt & Hk & Hge). set (k := indexOfFirstEventNumEqualToOrGreaterThan events b) in *.
  rewrite (find_skip _ k events).
  - apply firstUnread_loop_find; [by apply ordered_drop|]. intros e [i Hi]%list_elem_of_lookup.
    rewrite lookup_drop in Hi. destruct (lookup_lt_is_Some_2 events k) as [e0 He0].
    { apply lookup_lt_Some in Hi. lia. }
    pose proof (Hge e0 He0). pose proof (ordered_le events Hs k (k + i) e0 e ltac:(lia) He0 Hi) as Hle.
    unfold by_num in Hle. lia.
  - intros i x Hi Hx. unfold unreadIn. assert ((b <=? tl_eventNum x) = false) as -> by (pose proof (Hlt i x Hi Hx); lia).
    done.
Qed.

(** ** Added events *)

Section Added.
Context (channelId userId : string) (events : list TimelineEvent).

(** The events of a marker after the window of the channel *)
Definition newEvents (window : Z) (markerId : string) : list TimelineEvent :=
  List.filter (λ e, (window <? tl_eventNum e) && String.eqb (markerIdOf channelId e) markerId) events.

Lemma segments_lookup w l m :
  segments channelId w l !! m
  = let new := List.filter (λ e, (w <? tl_eventNum e) && String.eqb (markerIdOf channelId e) m) l in
    if (length new =? 0)%nat then None else Some new.
Proof.
  induction l as [|e l IH]; [done|]. simpl. destruct (w <? tl_eventNum e); simpl; [|done].
  rewrite jm_lookup_insert. destruct (String.eqb_spec (markerIdOf channelId e) m) as [->|Hne].
  - rewrite decide_True by done. simpl. rewrite IH. simpl.
    by destruct (List.filter _ l).
  - by rewrite decide_False.
Qed.

Lemma segments_wf w l : jm_wf (segments channelId w l).
Proof.
  induction l as [|e l IH]; [apply jm_wf_empty|]. simpl. destruct (_ <? _); [|done]. by apply jm_wf_insert.
Qed.

(** What [diffAdded_one] writes *)
Definition addedMarker (prev : option FullyReadMarker) (markerId : string) (first last : TimelineEvent)
    (mentions : Z) : FullyReadMarker :=
  let b := default (tl_eventNum first) (fr_beginUnreadWindow <$> prev) in
  let unread := List.find (unreadIn userId channelId markerId b (tl_eventNum last)) events in
  let e := default last unread in
  {| fr_channelId := channelId;
     fr_threadParentId := if String.eqb markerId channelId then None else Some markerId;
     fr_eventId := tl_eventId e; fr_eventNum := tl_eventNum e;
     fr_beginUnreadWindow := b; fr_endUnreadWindow := tl_eventNum last;
     fr_isUnread := isDefined unread;
     fr_markedReadAtTs := default 0 (fr_markedReadAtTs <$> prev);
     fr_mentions := default mentions (fr_mentions <$> prev) |}.

Definition addedTo (prev : option FullyReadMarker) (markerId : string) (segment : list TimelineEvent)
    : option FullyReadMarker :=
  match head segment, last segment with
  | Some first, Some last =>
      if tl_eventNum last <? default (tl_eventNum first) (fr_beginUnreadWindow <$> prev) then prev
      else Some (addedMarker prev markerId first last (Z.of_nat (length (List.filter tl_isMentioned segment))))
  | _, _ => prev
  end.

Context (Hs : ordered events).

Lemma diffAdded_one_spec m segment updated : segment ≠ [] →
  ∃ updated', diffAdded_one channelId userId events m segment updated = Ok updated'
  ∧ updated' !! m = addedTo (updated !! m) m segment ∧ ∀ k, k ≠ m → updated' !! k = updated !! k.
Proof.
  intros Hne. unfold diffAdded_one, addedTo.
  destruct segment as [|first rest]; [done|].
  change (head (first :: rest)) with (Some first). cbv beta iota zeta.
  destruct (last (first :: rest)) as [l|] eqn:Hl; [|by apply last_None in Hl].
  destruct (Z.ltb_spec (tl_eventNum l) (default (tl_eventNum first) (fr_beginUnreadWindow <$> updated !! m))) as [Hlt|Hge].
  { by exists updated. }
  rewrite firstUnreadEvent_find by (done || lia). simpl. unfold addedMarker.
  destruct (List.find _ events) as [e|]; simpl; eexists; (split; [reflexivity|]); split;
    [by rewrite lookup_insert_eq|intros k Hk; by rewrite lookup_insert_ne|
     by rewrite lookup_insert_eq|intros k Hk; by rewrite lookup_insert_ne].
Qed.

Lemma diffAdded_loop_spec l updated :
  NoDup l.*1 → (∀ m s, (m, s) ∈ l → s ≠ []) →
  ∃ updated', diffAdded_loop channelId userId events l updated = Ok updated'
  ∧ (∀ m s, (m, s) ∈ l → updated' !! m = addedTo (updated !! m) m s)
  ∧ ∀ k, k ∉ l.*1 → updated' !! k = updated !! k.
Proof.
  revert updated. induction l as [|[m s] l IH]; intros updated Hn Hne; simpl in *.
  { eexists. split; [done|]. split; [set_solver|done]. }
  apply NoDup_cons in Hn as [Hm Hn].
  destruct (diffAdded_one_spec m s updated) as (u1 & -> & Hu & Ho); [apply (Hne m); set_solver|]. simpl.
  destruct (IH u1 Hn) as (u2 & -> & H1 & H2); [set_solver|]. exists u2. split; [done|]. split.
  - intros m' s' [[= -> ->]|Hin]%elem_of_cons; [by rewrite H2|].
    rewrite (H1 _ _ Hin), Ho; [done|]. intros ->. apply Hm, list_elem_of_fmap. by exists (m, s').
  - intros k Hk. apply not_elem_of_cons in Hk as [Hk1 Hk2]. by rewrite H2, Ho.
Qed.

Lemma diffAdded_spec updated :
  let w := default (-1) (fr_endUnreadWindow <$> updated !! channelId) in
  ∃ updated' b, diffAdded channelId userId events updated = Ok (updated', b)
  ∧ (∀ m, updated' !! m = addedTo (updated !! m) m (newEvents w m))
  ∧ (b = false → updated' = updated).
Proof.
  intros w. unfold diffAdded. fold w.
  pose proof (segments_wf w events) as Hwf.
  destruct (diffAdded_loop_spec (entries (segments channelId w events)) updated) as (u & Hu & H1 & H2); [done| |].
  { intros m s Hin. apply (jm_wf_lookup m s) in Hin; [|done]. rewrite segments_lookup in Hin.
    by destruct (List.filter _ events) in Hin; [|injection Hin as <-]. }
  rewrite Hu. simpl. do 2 eexists. split; [done|]. split.
  - intros m. pose proof (segments_lookup w events m) as Hseg. unfold newEvents.
    destruct (segments channelId w events !! m) as [s|] eqn:E.
    + rewrite (H1 m s) by (by apply jm_lookup_entries). simpl in Hseg.
      destruct (length _ =? 0)%nat; [done|]. by injection Hseg as ->.
    + rewrite H2 by (intros Hk; apply (jm_elem_keys m) in Hk; rewrite E in Hk; by destruct Hk).
      simpl in Hseg. by destruct (List.filter _ events).
  - intros Hb. apply negb_false_iff, Nat.eqb_eq, nil_length_inv in Hb. rewrite Hb in Hu. simpl in Hu. congruence.
Qed.
End Added.

(** ** Windows only move forward *)

(** Every marker is kept, and its window does not begin earlier. *)
Definition forward : relation Markers := λ s s',
  ∀ k m, s !! k = Some m → ∃ m', s' !! k = Some m' ∧ fr_beginUnreadWindow m <= fr_beginUnreadWindow m'.
#[export] Instance forward_preorder : PreOrder forward.
Proof.
  split; [intros s k m Hm; exists m; split; [done|lia]|].
  intros s1 s2 s3 H1 H2 k m Hm. destruct (H1 k m Hm) as (m1 & Hm1 & Hle1).
  destruct (H2 k m1 Hm1) as (m2 & Hm2 & Hle2). exists m2. split; [done|lia].
Qed.

Lemma forward_insert (s : Markers) k m :
  (∀ m0, s !! k = Some m0 → fr_beginUnreadWindow m0 <= fr_beginUnreadWindow m) → forward s (<[k := m]> s).
Proof.
  intros Hm k' m' Hk'. destruct (decide (k = k')) as [<-|Hne].
  - exists m. rewrite lookup_insert_eq. auto.
  - exists m'. rewrite lookup_insert_ne by done. split; [done|lia].
Qed.

(** The marker of [k] begins at [r]'s window or later. *)
Definition reaches (s : Markers) (k : string) (r : FullyReadMarker) : Prop :=
  ∃ m, s !! k = Some m ∧ fr_beginUnreadWindow r <= fr_beginUnreadWindow m.
Lemma reaches_forward s s' k r : forward s s' → reaches s k r → reaches s' k r.
Proof. intros Hf (m & Hm & Hle). destruct (Hf k m Hm) as (m' & Hm' & Hle'). exists m'. split; [done|lia]. Qed.

Lemma remote_step k r (s : Markers) :
  let s' := match s !! k with
            | None => <[k := r]> s
            | Some m => if fr_beginUnreadWindow m <? fr_beginUnreadWindow r then <[k := r]> s else s
            end in
  forward s s' ∧ reaches s' k r.
Proof.
  destruct (s !! k) as [m|] eqn:E; simpl.
  - destruct (Z.ltb_spec (fr_beginUnreadWindow m) (fr_beginUnreadWindow r)) as [Hlt|Hge].
    + split; [|exists r; rewrite lookup_insert_eq; split; [done|lia]].
      apply forward_insert. intros m0. rewrite E. intros [= <-]. lia.
    + split; [done|]. exists m. done.
  - split; [|exists r; rewrite lookup_insert_eq; split; [done|lia]].
    apply forward_insert. by rewrite E.
Qed.

Lemma remote_forward ms s :
  forward s (updateFullyReadMarkersFromRemote ms s)
  ∧ ∀ k r, ms !! k = Some r → reaches (updateFullyReadMarkersFromRemote ms s) k r.
Proof.
  unfold updateFullyReadMarkersFromRemote.
  assert (Hl : ∀ k r, ms !! k = Some r → (k, r) ∈ map_to_list ms) by (intros; by apply elem_of_map_to_list).
  revert Hl. generalize (map_to_list ms) as l. intros l Hl.
  match goal with |- context [foldl ?f s l] =>
    enough (Hg : ∀ s, forward s (foldl f s l) ∧ ∀ k r, (k, r) ∈ l → reaches (foldl f s l) k r) end.
  { destruct (Hg s) as [H1 H2]. split; [exact H1|]. intros k r Hr. apply H2, Hl, Hr. }
  clear Hl s. induction l as [|[k r] l IH]; intros s; [split; [done|set_solver]|]. simpl.
  destruct (remote_step k r s) as [H1 H2]. simpl in H1, H2. match type of H1 with forward _ ?x => set (s1 := x) in * end.
  destruct (IH s1) as [H3 H4]. split; [by etrans|].
  intros k' r' [[= -> ->]|Hin]%elem_of_cons; [by apply (reaches_forward s1)|auto].
Qed.

Lemma firstUnreadEvent_ok events u c m b w : b <= w → ∃ o, firstUnreadEvent events u c m b w = Ok o.
Proof. intros Hbw. unfold firstUnreadEvent, checkR. assert ((b <=? w) = true) as -> by lia. by eexists. Qed.

Lemma diffReplaced_one_forward c u events cm old new s : events ≠ [] →
  ∃ r, diffReplaced_one c u events cm old new s = Ok r ∧ forward s r.1.
Proof.
  intros Hne. unfold diffReplaced_one. destruct (_ <? _); [by eexists|].
  destruct (s !! markerIdOf c new) as [m|] eqn:Hm.
  2: { eexists. split; [done|]. apply forward_insert. by rewrite Hm. }
  destruct (Z.ltb_spec (tl_eventNum new) (fr_beginUnreadWindow m)) as [Hlt|Hge]; [by eexists|].
  assert (Hf : ∀ m', fr_beginUnreadWindow m' = fr_beginUnreadWindow m → forward s (<[markerIdOf c new := m']> s)).
  { intros m' Hm'. apply forward_insert. intros m0. rewrite Hm. intros [= <-]. lia. }
  destruct (_ && (_ =? _)).
  - destruct (firstUnreadEvent_ok events u c (markerIdOf c new) (fr_beginUnreadWindow m)
      (Z.max (tl_eventNum new) (fr_endUnreadWindow m))) as [o ->]; [lia|]. simpl.
    destruct (last events) as [e|] eqn:El; [|by apply last_None in El].
    assert (∃ x, orElse o (Some e) = Ok x) as [x ->] by (destruct o; by eexists). simpl.
    eexists. split; [done|]. by apply Hf.
  - eexists. split; [done|]. by apply Hf.
Qed.

Lemma diffReplaced_loop_forward c u events cm l s b : events ≠ [] →
  ∃ r, diffReplaced_loop c u events cm l s b = Ok r ∧ forward s r.1.
Proof.
  intros Hne. revert s b. induction l as [|[old new] l IH]; intros s b; simpl; [by eexists|].
  destruct (diffReplaced_one_forward c u events cm old new s Hne) as (r & -> & Hf). simpl.
  destruct (IH r.1 (b || r.2)) as (r2 & -> & Hf2). exists r2. split; [done|]. by etrans.
Qed.

Lemma diffReplaced_forward c u events re pre s : events ≠ [] →
  ∃ r, diffReplaced c u events re pre s = Ok r ∧ forward s r.1.
Proof.
  intros Hne. unfold diffReplaced. destruct (_ =? _)%nat; [by eexists|].
  destruct (s !! c) as [cm|]; [|by eexists].
  destruct (diffReplaced_loop_forward c u events cm (drop (length pre) re) s false Hne) as (r & -> & Hf).
  by exists r.
Qed.

Lemma diffAdded_one_forward c u events m segment s : segment ≠ [] →
  ∃ s', diffAdded_one c u events m segment s = Ok s' ∧ forward s s'.
Proof.
  intros Hne. unfold diffAdded_one. destruct segment as [|first rest]; [done|].
  change (head (first :: rest)) with (Some first). cbv beta iota zeta.
  destruct (last (first :: rest)) as [l|] eqn:Hl; [|by apply last_None in Hl].
  set (b := default (tl_eventNum first) (fr_beginUnreadWindow <$> s !! m)).
  destruct (Z.ltb_spec (tl_eventNum l) b) as [Hlt|Hge]; [by exists s|].
  destruct (firstUnreadEvent_ok events u c m b (tl_eventNum l) Hge) as [o ->]. simpl.
  assert (∃ x, orElse o (Some l) = Ok x) as [x ->] by (destruct o; by eexists). simpl.
  eexists. split; [done|]. apply forward_insert. intros m0 Hm0. simpl. unfold b. rewrite Hm0. simpl. lia.
Qed.

Lemma diffAdded_forward c u events s : ∃ r, diffAdded c u events s = Ok r ∧ forward s r.1.
Proof.
  unfold diffAdded. set (w := default (-1) _). set (l := entries (segments c w events)).
  assert (Hne : ∀ m x, (m, x) ∈ l → x ≠ []).
  { intros m x Hin. apply (jm_wf_lookup m x) in Hin; [|apply segments_wf]. rewrite segments_lookup in Hin.
    by destruct (List.filter _ events) in Hin; [|injection Hin as <-]. }
  enough (∃ s', diffAdded_loop c u events l s = Ok s' ∧ forward s s') as (s' & E & Hf).
  { rewrite E. simpl. eexists. split; [done|]. exact Hf. }
  clearbody l. clear w. revert s. induction l as [|[m x] l IH]; intros s; simpl; [by exists s|].
  destruct (diffAdded_one_forward c u events m x s) as (s1 & E1 & Hf1); [apply (Hne m); set_solver|].
  rewrite E1. simpl. destruct (IH ltac:(set_solver) s1) as (s2 & E2 & Hf2). rewrite E2. exists s2.
  split; [done|]. by etrans.
Qed.

Section Forward.
Context `{EthLib}.

Lemma diffChannel_forward u c view prev s : default [] (timelines view !! c) ≠ [] →
  ∃ s', diffChannel u c view prev s = Ok s' ∧ forward s s'.
Proof.
  intros Hne. unfold diffChannel.
  destruct (diffReplaced_forward c u _ (default [] (replacedEvents view !! c))
    (default [] (replacedEvents prev !! c)) s Hne) as (r & -> & Hf). simpl.
  destruct (diffAdded_forward c u (default [] (timelines view !! c)) r.1) as (r2 & -> & Hf2). simpl.
  eexists. split; [done|]. destruct (_ || _); [by etrans|done].
Qed.

Lemma diffTimeline_forward d keys view prev u s :
  (∀ c, c ∈ keys → default [] (timelines view !! c) ≠ []) →
  ∃ s', diffTimeline d keys view prev u s = Ok s' ∧ forward s s'.
Proof.
  intros Hk. unfold diffTimeline. destruct (_ || _); [by exists s|].
  assert (Hk' : ∀ c, c ∈ List.filter isDiffableStreamTimeline keys → default [] (timelines view !! c) ≠ []).
  { intros c Hc. apply Hk. apply list_elem_of_In, filter_In in Hc as [Hc _]. by apply list_elem_of_In. }
  revert Hk' s. clear Hk. generalize (List.filter isDiffableStreamTimeline keys) as l.
  induction l as [|c l IH]; intros Hk s; simpl; [by exists s|].
  assert (∃ s1, (if df_timeline d c then diffChannel u c view prev s else Ok s) = Ok s1 ∧ forward s s1)
    as (s1 & -> & Hf1).
  { destruct (df_timeline d c); [apply diffChannel_forward, Hk; set_solver|by exists s]. }
  simpl. destruct (IH ltac:(set_solver) s1) as (s2 & -> & Hf2). exists s2. split; [done|]. by etrans.
Qed.

(** The part of the transform that takes the remote markers *)
Lemma remote_all_forward d remote s :
  let s' := foldl (λ state '(streamId, fullyReadMarkers),
    if df_markers d streamId then updateFullyReadMarkersFromRemote fullyReadMarkers state else state) s remote in
  forward s s' ∧ ∀ sid ms k r, (sid, ms) ∈ remote → df_markers d sid = true → ms !! k = Some r → reaches s' k r.
Proof.
  revert s. induction remote as [|[sid ms] remote IH]; intros s; simpl; [split; [done|set_solver]|].
  set (s1 := if df_markers d sid then updateFullyReadMarkersFromRemote ms s else s).
  assert (Hf : forward s s1) by (unfold s1; destruct (df_markers d sid); [apply remote_forward|done]).
  destruct (IH s1) as [Hf2 Hr]. split; [by etrans|].
  intros sid' ms' k r [[= -> ->]|Hin]%elem_of_cons Hd Hk; [|by eapply Hr].
  eapply reaches_forward; [exact Hf2|]. unfold s1. rewrite Hd. by apply remote_forward.
Qed.

(** ** The theorems *)

(** C26. What was read stays read: whatever changes in the timelines and in the
    settings stream, as long as the timelines have events, updating the markers
    succeeds, keeps every marker, and never moves the beginning of its window
    back, be it that of the old state or that of a changed remote marker. *)
Theorem read_stays_read differs userId remote keys timelinesView prev state :
  (∀ c, c ∈ keys → default [] (timelines timelinesView !! c) ≠ []) →
  ∃ state', unreadMarkersTransform differs userId remote keys timelinesView prev state = Ok state'
  ∧ (∀ k m, state !! k = Some m →
       ∃ m', state' !! k = Some m' ∧ fr_beginUnreadWindow m <= fr_beginUnreadWindow m')
  ∧ (∀ streamId ms k m, (streamId, ms) ∈ remote → df_markers differs streamId = true → ms !! k = Some m →
       ∃ m', state' !! k = Some m' ∧ fr_beginUnreadWindow m <= fr_beginUnreadWindow m').
Proof.
  intros Hk. unfold unreadMarkersTransform. destruct (remote_all_forward differs remote state) as [Hf Hr].
  set (s1 := foldl _ state remote) in *.
  assert (∃ s2, (if df_view differs then diffTimeline differs keys timelinesView prev userId s1 else Ok s1) = Ok s2
          ∧ forward s1 s2) as (s2 & E & Hf2).
  { destruct (df_view differs); [by apply diffTimeline_forward|by exists s1]. }
  exists s2. split; [exact E|]. split.
  - intros k m Hm. exact (transitivity Hf Hf2 k m Hm).
  - intros sid ms k m Hin Hd Hm. apply (reaches_forward s1 s2); [done|]. by eapply Hr.
Qed.
End Forward.

Lemma find_first events p e : ordered events → List.find p events = Some e →
  e ∈ events ∧ p e = true ∧ ∀ e', e' ∈ events → p e' = true → tl_eventNum e <= tl_eventNum e'.
Proof.
  induction 1 as [|x l Hl IH Hx]; simpl; [done|]. destruct (p x) eqn:Hp.
  - intros [= <-]. split_and!; [set_solver|done|]. intros e' [->|Hin]%elem_of_cons _; [lia|].
    rewrite Forall_forall in Hx. by apply Hx.
  - intros He. destruct (IH He) as (H1 & H2 & H3). split_and!; [set_solver|done|].
    intros e' [->|Hin]%elem_of_cons Hp'; [congruence|auto].
Qed.

(** C30. The search for the first unread event, a binary search for the beginning
    of the window and a walk that stops at its end, finds in a timeline with
    ascending event numbers what a linear search of all of it finds: the first
    event of the channel or thread in the window that counts as unread. It throws
    exactly on an inverted window. *)
Theorem unread_search_linear events userId channelId markerId b w :
  ordered events →
  firstUnreadEvent events userId channelId markerId b w
  = if b <=? w then Ok (List.find (unreadIn userId channelId markerId b w) events)
    else Throw (CodeException "beginWindow must be <= endWindow" ERR_UNSPECIFIED).
Proof.
  intros Hs. destruct (Z.leb_spec b w) as [Hle|Hgt]; [by apply firstUnreadEvent_find|].
  unfold firstUnreadEvent, checkR. by assert ((b <=? w) = false) as -> by lia.
Qed.

(** Added events and markers: a channel or thread without events after the
    window of the channel keeps its marker, as does one whose window begins after
    them. Any other gets a marker up to its last event, with the old beginning of
    its window if it had one; it is unread exactly when the window has an event
    of somebody else to read, and then names the first of these. So a user's own
    messages never make a channel unread. *)
Theorem unread_added channelId userId events updated :
  ordered events →
  let window := default (-1) (fr_endUnreadWindow <$> updated !! channelId) in
  ∃ updated' didUpdate, diffAdded channelId userId events updated = Ok (updated', didUpdate)
  ∧ ∀ markerId,
    match head (newEvents channelId events window markerId), last (newEvents channelId events window markerId) with
    | Some first, Some last =>
        let b := default (tl_eventNum first) (fr_beginUnreadWindow <$> updated !! markerId) in
        let unread := unreadIn userId channelId markerId b (tl_eventNum last) in
        if tl_eventNum last <? b then updated' !! markerId = updated !! markerId
        else ∃ m, updated' !! markerId = Some m
          ∧ fr_beginUnreadWindow m = b ∧ fr_endUnreadWindow m = tl_eventNum last
          ∧ (fr_isUnread m = true ↔ ∃ e, e ∈ events ∧ unread e = true)
          ∧ (fr_isUnread m = true → ∃ e, e ∈ events ∧ unread e = true
               ∧ fr_eventId m = tl_eventId e ∧ fr_eventNum m = tl_eventNum e
               ∧ ∀ e', e' ∈ events → unread e' = true → tl_eventNum e <= tl_eventNum e')
    | _, _ => updated' !! markerId = updated !! markerId
    end.
Proof.
  intros Hs window. destruct (diffAdded_spec channelId userId events Hs updated) as (u & b & -> & Hu & _).
  exists u, b. split; [done|]. intros m. rewrite (Hu m). fold window. unfold addedTo.
  destruct (head _) as [first|]; [|done]. destruct (last _) as [l|]; [|done]. cbv zeta.
  destruct (_ <? _); [done|]. eexists. split; [done|]. unfold addedMarker. cbv zeta.
  set (p := unreadIn _ _ _ _ _). cbn [fr_beginUnreadWindow fr_endUnreadWindow fr_isUnread fr_eventId fr_eventNum].
  destruct (List.find p events) as [e|] eqn:Hp; simpl; (split; [done|]; split; [done|]).
  - destruct (find_first events p e Hs Hp) as (H1 & H2 & H3). split; [split; [by exists e|done]|]. by exists e.
  - split; [|done]. split; [done|]. intros (e & He & Hpe). apply list_elem_of_In in He.
    by rewrite (List.find_none _ _ Hp e He) in Hpe.
Qed.

Module UnreadWitness.
Import ModelEth TimelinesWitness.

Definition text (id sender : string) (num : Z) : TimelineEvent :=
  ev id sender num (TE_ChannelMessage (msg id None)).
Definition chat : list TimelineEvent := [text "m1" "ann" 1; text "m2" "me" 2; text "m3" "ann" 3; text "m4" "bob" 4].
(** Read up to the third event *)
Definition marker : FullyReadMarker := {|
  fr_channelId := "20c"; fr_threadParentId := None; fr_eventId := "m2"; fr_eventNum := 2;
  fr_beginUnreadWindow := 3; fr_endUnreadWindow := 2; fr_isUnread := false; fr_markedReadAtTs := 7;
  fr_mentions := 0 |}.
Definition viewOf (l : list TimelineEvent) : TimelinesViewModel :=
  get (appendEvents empty_model l "me" "20c" true).
Definition allDiffer : Differs := {|
  df_markers := λ _, true; df_view := true; df_timelines := true; df_timeline := λ _, true |}.

Lemma chat_ordered : ordered chat.
Proof. repeat constructor; unfold by_num; simpl; lia. Defined.

Definition before : Markers := {["20c" := marker]}.
Definition updatedMarkers : Res Markers :=
  unreadMarkersTransform allDiffer "me" [("a5", before)] ["20c"] (viewOf chat) (viewOf (take 2 chat)) ∅.

Lemma read_stays_read_witness :
  ∃ state', updatedMarkers = Ok state'
  ∧ ∃ m, state' !! "20c" = Some m ∧ 3 <= fr_beginUnreadWindow m.
Proof.
  destruct (read_stays_read allDiffer "me" [("a5", before)] ["20c"] (viewOf chat)
    (viewOf (take 2 chat)) ∅) as (s & Hs & _ & Hr).
  - intros c ->%list_elem_of_singleton. vm_compute. discriminate.
  - exists s. split; [exact Hs|]. apply (Hr "a5" before "20c" marker).
    + apply list_elem_of_singleton. reflexivity.
    + reflexivity.
    + reflexivity.
Defined.

Lemma unread_search_linear_witness : firstUnreadEvent chat "me" "20c" "20c" 2 4 = Ok (Some (text "m3" "ann" 3)).
Proof.
  rewrite (unread_search_linear chat "me" "20c" "20c" 2 4); [vm_compute; reflexivity|exact chat_ordered].
Defined.

Lemma unread_added_witness :
  ∃ updated' b m, diffAdded "20c" "me" chat before = Ok (updated', b)
  ∧ updated' !! "20c" = Some m ∧ fr_isUnread m = true ∧ fr_endUnreadWindow m = 4.
Proof.
  destruct (unread_added "20c" "me" chat before chat_ordered) as (u & b & E & Hu).
  specialize (Hu "20c"). vm_compute in Hu. destruct Hu as (m & Hm & _ & He & Hun & _).
  exists u, b, m. split; [exact E|]. split; [exact Hm|]. split; [|exact He].
  apply Hun. exists (text "m3" "ann" 3). split; [do 2 right; left|reflexivity].
Defined.

(** The mentions in events that are added to an existing marker are not
    counted: [a ?? 0 + b] is [a ?? (0 + b)]. *)
Lemma added_mentions_ignored :
  let mention := (text "m3" "ann" 3) <| tl_isMentioned := true |> in
  (r ← diffAdded "20c" "me" [mention] {["20c" := marker]}; Ok (fr_mentions <$> r.1 !! "20c")) = Ok (Some 0)
  ∧ (r ← diffAdded "20c" "me" [mention] ∅; Ok (fr_mentions <$> r.1 !! "20c")) = Ok (Some 1).
Proof. vm_compute. done. Qed.
End UnreadWitness.
