(* ===== verification/RuleTrees.v ===== *)
(** * RuleTrees: the rules that decide who may enter
    (web3/src/space/entitlements/entitlement.ts, ConvertersEntitlements.ts)

    A rule is a tree of checks (balances of tokens, calls of contracts) joined
    by AND and OR. On chain it is three arrays in post-order. This file has the
    trees, their conversion to and from the arrays, the two versions of the
    arrays, and the builder of balanced trees.

    Encoding of parameters and rules is done by viem ([AbiLib]). Objects that
    represent operations are never shared between two places of one array, so
    their mutation in [postOrderArrayToTree] is a new value here. *)

From S2P Require Import Prelude JsLib Ids.

Inductive OperationType := OT_NONE | OT_CHECK | OT_LOGICAL | OT_OTHER (n : Z).
Inductive CheckOperationType :=
  | CT_NONE | CT_MOCK | CT_ERC20 | CT_ERC721 | CT_ERC1155 | CT_ISENTITLED | CT_ETH_BALANCE | CT_OTHER (n : Z).
Inductive LogicalOperationType := LT_NONE | LT_AND | LT_OR | LT_OTHER (n : Z).
#[export] Instance OperationType_eq_dec : EqDecision OperationType.
Proof. solve_decision. Defined.
#[export] Instance CheckOperationType_eq_dec : EqDecision CheckOperationType.
Proof. solve_decision. Defined.
#[export] Instance LogicalOperationType_eq_dec : EqDecision LogicalOperationType.
Proof. solve_decision. Defined.

Definition zeroAddress : string := "0x0000000000000000000000000000000000000000".

(** ** The arrays of the contracts *)

Record ContractOperation := { co_opType : OperationType; co_index : Z }.
Record ContractLogicalOperation := {
  cl_logOpType : LogicalOperationType;
  cl_leftOperationIndex : Z;
  cl_rightOperationIndex : Z;
}.
Record CheckOperationV2 := {
  cv_checkType : CheckOperationType;
  cv_chainId : Z;
  cv_contractAddress : string;
  cv_params : string;
}.
Record CheckOperationV1 := {
  c1_opType : CheckOperationType;
  c1_chainId : Z;
  c1_contractAddress : string;
  c1_threshold : Z;
}.
Record RuleDataOf (Check : Type) := {
  rd_operations : list ContractOperation;
  rd_checkOperations : list Check;
  rd_logicalOperations : list ContractLogicalOperation;
}.
Arguments rd_operations {Check} _.
Arguments rd_checkOperations {Check} _.
Arguments rd_logicalOperations {Check} _.
Arguments Build_RuleDataOf {Check} _ _ _.
Abbreviation RuleData := (RuleDataOf CheckOperationV1).
Abbreviation RuleDataV2 := (RuleDataOf CheckOperationV2).

Definition NoopRuleData : RuleDataV2 :=
  {| rd_operations := []; rd_checkOperations := []; rd_logicalOperations := [] |}.

(** ** Trees *)

(** [Op_undefined] is a missing operation, [undefined]. *)
Inductive Operation :=
  | Op_check (c : CheckOperationV2)
  | Op_logical (logicalType : LogicalOperationType) (leftOperation rightOperation : Operation)
  | Op_none
  | Op_undefined.

(** [array[index]] *)
Definition at_index {A} (l : list A) (i : Z) : option A := if i <? 0 then None else l !! Z.to_nat i.

Definition undefinedProperty {A} : Res A := Throw (TypeError "Cannot read properties of undefined").

Definition ruleDataToOperation (data : RuleDataV2) (decoded : list Operation) (operation : ContractOperation)
    : Res Operation :=
  match co_opType operation with
  | OT_CHECK => match at_index (rd_checkOperations data) (co_index operation) with
                | Some check => Ok (Op_check check)
                | None => undefinedProperty
                end
  | OT_LOGICAL =>
      match at_index (rd_logicalOperations data) (co_index operation) with
      | Some l => Ok (Op_logical (cl_logOpType l)
                        (default Op_undefined (at_index decoded (cl_leftOperationIndex l)))
                        (default Op_undefined (at_index decoded (cl_rightOperationIndex l))))
      | None => undefinedProperty
      end
  | OT_NONE => Ok Op_none
  | OT_OTHER _ => Throw (PlainError "Unknown logical operation type")
  end.

Fixpoint ruleDataToOperations_loop (data : RuleDataV2) (operations : list ContractOperation)
    (decoded : list Operation) : Res (list Operation) :=
  match operations with
  | [] => Ok decoded
  | operation :: operations =>
      op ← ruleDataToOperation data decoded operation;
      ruleDataToOperations_loop data operations (decoded ++ [op])
  end.
Definition ruleDataToOperations (data : RuleDataV2) : Res (list Operation) :=
  ruleDataToOperations_loop data (rd_operations data) [].

(** The stack is kept with its top first. *)
Fixpoint postOrderArrayToTree_loop (operations stack : list Operation) : Res (list Operation) :=
  match operations with
  | [] => Ok stack
  | op :: operations =>
      match op with
      | Op_logical t _ _ =>
          match stack with
          | r :: l :: stack => postOrderArrayToTree_loop operations (Op_logical t l r :: stack)
          | _ => Throw (PlainError "Invalid post-order array, missing operations")
          end
      | Op_undefined => undefinedProperty
      | _ => postOrderArrayToTree_loop operations (op :: stack)
      end
  end.
Definition postOrderArrayToTree (operations : list Operation) : Res Operation :=
  stack ← postOrderArrayToTree_loop operations [];
  match stack with
  | root :: _ => Ok root
  | [] => Throw (PlainError "Invalid post-order array")
  end.

(** The index of the last element *)
Definition last_index {A} (l : list A) : Z := Z.of_nat (length l) - 1.

Fixpoint postOrderTraversal (operation : Operation) (data : RuleDataV2) : Res RuleDataV2 :=
  match operation with
  | Op_logical logicalType leftOperation rightOperation =>
      data ← postOrderTraversal leftOperation data;
      let leftChildIndex := last_index (rd_operations data) in
      data ← postOrderTraversal rightOperation data;
      let logicalOperations := rd_logicalOperations data ++
        [{| cl_logOpType := logicalType; cl_leftOperationIndex := leftChildIndex;
            cl_rightOperationIndex := last_index (rd_operations data) |}] in
      Ok {| rd_operations := rd_operations data ++
              [{| co_opType := OT_LOGICAL; co_index := last_index logicalOperations |}];
            rd_checkOperations := rd_checkOperations data; rd_logicalOperations := logicalOperations |}
  | Op_check c =>
      let checkOperations := rd_checkOperations data ++ [c] in
      Ok {| rd_operations := rd_operations data ++
              [{| co_opType := OT_CHECK; co_index := last_index checkOperations |}];
            rd_checkOperations := checkOperations; rd_logicalOperations := rd_logicalOperations data |}
  | Op_none => Throw (PlainError "Unrecognized operation type")
  | Op_undefined => undefinedProperty
  end.

Definition treeToRuleData (root : Operation) : Res RuleDataV2 := postOrderTraversal root NoopRuleData.

(** ** Encodings *)

(** [encodeAbiParameters] and [decodeAbiParameters] of viem at the types used *)
Class AbiLib := {
  abi_encodeThreshold : Z → Res string;
  abi_decodeThreshold : string → Res Z;
  abi_encodeERC1155 : Z → Z → Res string;
  abi_decodeERC1155 : string → Res (Z * Z);
  abi_encodeRuleDataV2 : RuleDataV2 → Res string;
  abi_decodeRuleDataV2 : string → Res RuleDataV2;
  (** the form in which decoded addresses come *)
  abi_checksumAddress : string → string;
}.

Definition uint256 (n : Z) : bool := (0 <=? n) && (n <? 2 ^ 256).

(** Bytes in hex, and types that have one representation as a number *)
Definition hexBytes (s : string) : bool :=
  Str.startsWith s "0x" && Nat.even (String.length s) && isLowercaseHex (Str.toLowerCase (Str.slice_from 2 s)).
Definition encodableOperation (o : ContractOperation) : bool :=
  match co_opType o with OT_OTHER n => 3 <=? n | _ => true end.
Definition encodableCheck (c : CheckOperationV2) : bool :=
  hexBytes (cv_params c) && match cv_checkType c with CT_OTHER n => 7 <=? n | _ => true end.
Definition encodableLogical (t : LogicalOperationType) : bool := match t with LT_OTHER n => 3 <=? n | _ => true end.
Definition encodableRule (d : RuleDataV2) : bool :=
  forallb encodableOperation (rd_operations d) && forallb encodableCheck (rd_checkOperations d)
  && forallb (λ l, encodableLogical (cl_logOpType l)) (rd_logicalOperations d).

Definition mapRule (f : CheckOperationV2 → CheckOperationV2) (d : RuleDataV2) : RuleDataV2 := {|
  rd_operations := rd_operations d; rd_checkOperations := f <$> rd_checkOperations d;
  rd_logicalOperations := rd_logicalOperations d |}.
(** An encoded check as it comes back: the address with its checksum, the bytes in
    lower case *)
Definition asDecoded `{AbiLib} (c : CheckOperationV2) : CheckOperationV2 := {|
  cv_checkType := cv_checkType c; cv_chainId := cv_chainId c;
  cv_contractAddress := abi_checksumAddress (cv_contractAddress c); cv_params := Str.toLowerCase (cv_params c) |}.

(** Numbers of 256 bits are encoded, and decoding undoes encoding, but for the form
    of addresses and bytes; the encoding of a structure is not empty. *)
Class AbiLaws `{AbiLib} := {
  abi_threshold n : uint256 n = true → ∃ h, abi_encodeThreshold n = Ok h ∧ abi_decodeThreshold h = Ok n;
  abi_ERC1155 n t : uint256 n = true → uint256 t = true →
    ∃ h, abi_encodeERC1155 n t = Ok h ∧ abi_decodeERC1155 h = Ok (n, t);
  abi_RuleDataV2 d h : encodableRule d = true → abi_encodeRuleDataV2 d = Ok h →
    abi_decodeRuleDataV2 h = Ok (mapRule asDecoded d) ∧ h ≠ "0x";
}.

Section Encodings.
Context `{AbiLib}.

Definition encodeThresholdParams (threshold : Z) : Res string :=
  if threshold <? 0 then Throw (PlainError "Invalid threshold") else abi_encodeThreshold threshold.
Definition decodeThresholdParams (params : string) : Res Z := abi_decodeThreshold params.

Definition encodeERC1155Params (threshold tokenId : Z) : Res string :=
  if threshold <? 0 then Throw (PlainError "Invalid threshold")
  else if tokenId <? 0 then Throw (PlainError "Invalid tokenId")
  else abi_encodeERC1155 threshold tokenId.
Definition decodeERC1155Params (params : string) : Res (Z * Z) := abi_decodeERC1155 params.

Definition encodeRuleDataV2 (ruleData : RuleDataV2) : Res string :=
  if (length (rd_operations ruleData) =? 0)%nat then Ok "0x" else abi_encodeRuleDataV2 ruleData.
Definition decodeRuleDataV2 (entitlementData : string) : Res RuleDataV2 :=
  if String.eqb entitlementData "0x" then Ok NoopRuleData else abi_decodeRuleDataV2 entitlementData.

(** ** The two versions *)

Definition convertCheckV1ToV2 (op : CheckOperationV1) : Res CheckOperationV2 :=
  let converted params := {| cv_checkType := c1_opType op; cv_chainId := c1_chainId op;
                             cv_contractAddress := c1_contractAddress op; cv_params := params |} in
  match c1_opType op with
  | CT_MOCK | CT_ERC20 | CT_ERC721 | CT_ETH_BALANCE =>
      params ← encodeThresholdParams (c1_threshold op); Ok (converted params)
  | CT_ERC1155 => Throw (PlainError "ERC1155 not supported for V1 Rule Data")
  | CT_ISENTITLED => Ok (converted "0x")
  | CT_NONE | CT_OTHER _ => Throw (PlainError "Unsupported Check Operation Type")
  end.
Definition convertRuleDataV1ToV2 (ruleData : RuleData) : Res RuleDataV2 :=
  checkOperations ← traverse convertCheckV1ToV2 (rd_checkOperations ruleData);
  Ok {| rd_operations := rd_operations ruleData; rd_checkOperations := checkOperations;
        rd_logicalOperations := rd_logicalOperations ruleData |}.

Definition convertCheckV2ToV1 (op : CheckOperationV2) : Res CheckOperationV1 :=
  let converted threshold := {| c1_opType := cv_checkType op; c1_chainId := cv_chainId op;
                                c1_contractAddress := cv_contractAddress op; c1_threshold := threshold |} in
  match cv_checkType op with
  | CT_MOCK | CT_ERC20 | CT_ERC721 | CT_ETH_BALANCE =>
      threshold ← decodeThresholdParams (cv_params op); Ok (converted threshold)
  | CT_ERC1155 => Throw (PlainError "ERC1155 not supported for V1 Rule Data")
  | CT_ISENTITLED => Ok (converted 0)
  | CT_NONE | CT_OTHER _ => Throw (PlainError "Unsupported Check Operation Type")
  end.
Definition convertRuleDataV2ToV1 (ruleData : RuleDataV2) : Res RuleData :=
  checkOperations ← traverse convertCheckV2ToV1 (rd_checkOperations ruleData);
  Ok {| rd_operations := rd_operations ruleData; rd_checkOperations := checkOperations;
        rd_logicalOperations := rd_logicalOperations ruleData |}.

(** ** Building rules *)

(** [DecodedCheckOperation]; partial ones are what the builder collects. *)
Record DecodedCheckOperation := {
  dc_type : CheckOperationType;
  dc_chainId : option Z;
  dc_address : option string;
  dc_threshold : option Z;
  dc_tokenId : option Z;
  dc_byteEncodedParams : option string;
}.

Definition checkOperation (op : DecodedCheckOperation) : Res Operation :=
  params ← match dc_type op with
           | CT_ERC20 | CT_ERC721 => encodeThresholdParams (default 1 (dc_threshold op))
           | CT_ETH_BALANCE => encodeThresholdParams (default 0 (dc_threshold op))
           | CT_ERC1155 => encodeERC1155Params (default 1 (dc_threshold op)) (default 0 (dc_tokenId op))
           | CT_ISENTITLED => Ok (default "0x" (dc_byteEncodedParams op))
           | _ => Ok "0x"
           end;
  Ok (Op_check {| cv_checkType := dc_type op; cv_chainId := default 1 (dc_chainId op);
                  cv_contractAddress := default zeroAddress (dc_address op); cv_params := params |}).

(** The [for] loop: neighbours are joined, an odd one out goes to the next level. *)
Fixpoint joinPairs (logicalOp : LogicalOperationType) (operations : list Operation) : list Operation :=
  match operations with
  | l :: r :: operations => Op_logical logicalOp l r :: joinPairs logicalOp operations
  | operations => operations
  end.
(** The [while] loop *)
Fixpoint joinAll (fuel : nat) (logicalOp : LogicalOperationType) (operations : list Operation)
    : list Operation :=
  match fuel with
  | O => operations
  | S fuel => if (1 <? length operations)%nat then joinAll fuel logicalOp (joinPairs logicalOp operations)
              else operations
  end.

Definition createOperationsTree (checkOp : list DecodedCheckOperation) (logicalOp : LogicalOperationType)
    : Res RuleDataV2 :=
  if (length checkOp =? 0)%nat
  then Ok {| rd_operations := [{| co_opType := OT_NONE; co_index := 0 |}];
             rd_checkOperations := []; rd_logicalOperations := [] |}
  else
    operations ← traverse checkOperation checkOp;
    treeToRuleData (default Op_undefined (head (joinAll (length operations) logicalOp operations))).

(** What [createDecodedCheckOperationFromTree] pushes for an operation *)
Definition decodedCheckOperation (operation : Operation) : Res (list DecodedCheckOperation) :=
  match operation with
  | Op_check c =>
      let op threshold tokenId params :=
        [{| dc_type := cv_checkType c; dc_chainId := Some (cv_chainId c); dc_address := Some (cv_contractAddress c);
            dc_threshold := threshold; dc_tokenId := tokenId; dc_byteEncodedParams := params |}] in
      match cv_checkType c with
      | CT_ERC1155 => r ← decodeERC1155Params (cv_params c); Ok (op (Some r.1) (Some r.2) None)
      | CT_ERC20 | CT_ERC721 | CT_ETH_BALANCE =>
          threshold ← decodeThresholdParams (cv_params c); Ok (op (Some threshold) None None)
      | CT_ISENTITLED => Ok (op None None (Some (cv_params c)))
      | _ => Ok []
      end
  | Op_undefined => undefinedProperty
  | _ => Ok []
  end.
Definition createDecodedCheckOperationFromTree (entitlementData : RuleDataV2)
    : Res (list DecodedCheckOperation) :=
  operations ← ruleDataToOperations entitlementData;
  r ← traverse decodedCheckOperation operations;
  Ok (concat r).

(** The requirements made from addresses by [createExternalTokenStruct] and
    [createExternalNFTStruct]: the threshold is encoded into a field [params],
    which requirements do not have; the field [threshold] is left out. *)
Definition externalChecks (defaultChainId : Z) (defaultType : CheckOperationType) (addresses : list string)
    (chainId : option Z) (type : option CheckOperationType) (threshold : option Z) : Res (list DecodedCheckOperation) :=
  traverse (λ address,
    params ← encodeThresholdParams (default 1 threshold);
    Ok {| dc_type := default defaultType type; dc_chainId := Some (default defaultChainId chainId);
          dc_address := Some address; dc_threshold := None; dc_tokenId := None; dc_byteEncodedParams := None |})
    addresses.

Definition createExternalTokenStruct (addresses : list string) (chainId : option Z)
    (type : option CheckOperationType) (threshold : option Z) (logicalOp : option LogicalOperationType) : Res RuleDataV2 :=
  if (length addresses =? 0)%nat then Ok NoopRuleData
  else
    defaultChain ← externalChecks 1 CT_ERC20 addresses chainId type threshold;
    createOperationsTree defaultChain (default LT_OR logicalOp).

Definition createExternalNFTStruct (addresses : list string) (chainId : option Z)
    (type : option CheckOperationType) (threshold : option Z) (logicalOp : option LogicalOperationType) : Res RuleDataV2 :=
  if (length addresses =? 0)%nat then Ok NoopRuleData
  else
    defaultChain ← externalChecks 31337 CT_ERC721 addresses chainId type threshold;
    createOperationsTree defaultChain (default LT_OR logicalOp).
End Encodings.

(** [DecodedCheckOperationBuilder.build]; the type may be missing too. *)
Definition build (type : option CheckOperationType) (chainId : option Z) (address : option string)
    (threshold tokenId : option Z) (byteEncodedParams : option string) : Res DecodedCheckOperation :=
  match type with
  | None => Throw (PlainError "DecodedCheckOperation requires a type")
  | Some type =>
      let isOneOf l := bool_decide (type ∈ l) in
      if isOneOf [CT_ERC1155; CT_ERC20; CT_ERC721; CT_ISENTITLED] && negb (isDefined chainId)
      then Throw (PlainError "DecodedCheckOperation requires a chainId")
      else if isOneOf [CT_ERC1155; CT_ERC20; CT_ERC721; CT_ISENTITLED] && negb (isDefined address)
      then Throw (PlainError "DecodedCheckOperation requires an address")
      else if isOneOf [CT_ERC1155; CT_ETH_BALANCE; CT_ERC20; CT_ERC721] && negb (isDefined threshold)
      then Throw (PlainError "DecodedCheckOperation requires a threshold")
      else if isOneOf [CT_ERC1155] && negb (isDefined tokenId)
      then Throw (PlainError "DecodedCheckOperation requires a tokenId")
      else if isOneOf [CT_ISENTITLED] && negb (isDefined byteEncodedParams)
      then Throw (PlainError "DecodedCheckOperation requires byteEncodedParams")
      else
        let op c a th tk p := Ok {| dc_type := type; dc_chainId := c; dc_address := a; dc_threshold := th;
                                    dc_tokenId := tk; dc_byteEncodedParams := p |} in
        match type with
        | CT_ERC20 | CT_ERC721 => op chainId address threshold None None
        | CT_ERC1155 => op chainId address threshold tokenId None
        | CT_ETH_BALANCE => op None None threshold None None
        | CT_ISENTITLED => op chainId address None None byteEncodedParams
        | _ => Throw (PlainError "Check operation type unrecognized or not used in production")
        end
  end.
