(* ===== verification/RuleTreesFacts.v ===== *)
(** * RuleTreesFacts: rules survive their encodings

    A rule tree is recovered from its arrays, whose indices are in range; the
    builder of balanced trees keeps the checks and their order; the two versions
    of rules convert into each other. *)

From Stdlib Require Import Strings.Ascii.
From S2P Require Import Prelude JsLib Ids RuleTrees.

(** ** Trees in post-order *)

(** A tree without missing operations *)
Fixpoint complete (t : Operation) : bool :=
  match t with
  | Op_check _ => true
  | Op_logical _ l r => complete l && complete r
  | Op_none | Op_undefined => false
  end.

Fixpoint subtrees (t : Operation) : list Operation :=
  match t with
  | Op_logical _ l r => subtrees l ++ subtrees r ++ [t]
  | _ => [t]
  end.

Fixpoint checks (t : Operation) : list CheckOperationV2 :=
  match t with
  | Op_check c => [c]
  | Op_logical _ l r => checks l ++ checks r
  | _ => []
  end.

Lemma subtrees_last t : ∃ l, subtrees t = l ++ [t].
Proof. destruct t as [c|ty l r| |]; simpl; [by exists []| |by exists []..]. exists (subtrees l ++ subtrees r). by rewrite <- app_assoc. Qed.

Lemma at_index_last {A} (l : list A) x rest : at_index ((l ++ [x]) ++ rest) (last_index (l ++ [x])) = Some x.
Proof.
  unfold at_index, last_index. rewrite length_app. simpl length.
  replace (Z.of_nat (length l + 1) - 1) with (Z.of_nat (length l)) by lia.
  rewrite (proj2 (Z.ltb_ge _ _)) by lia. rewrite Nat2Z.id, <- app_assoc, lookup_app_r by lia. by rewrite Nat.sub_diag.
Qed.
Lemma at_index_app {A} (l rest : list A) i x : at_index l i = Some x → at_index (l ++ rest) i = Some x.
Proof. unfold at_index. destruct (i <? 0); [done|]. apply lookup_app_l_Some. Qed.
Lemma at_index_prefix {A} (l l' : list A) i x : l `prefix_of` l' → at_index l i = Some x → at_index l' i = Some x.
Proof. intros [k ->]. apply at_index_app. Qed.

(** An operation of the arrays whose indices point to what precedes it *)
Definition well_indexed (d : RuleDataV2) (i : nat) (op : ContractOperation) : Prop :=
  match co_opType op with
  | OT_CHECK => ∃ c, at_index (rd_checkOperations d) (co_index op) = Some c
  | OT_LOGICAL => ∃ l, at_index (rd_logicalOperations d) (co_index op) = Some l
      ∧ 0 <= cl_leftOperationIndex l < cl_rightOperationIndex l
      ∧ cl_rightOperationIndex l = Z.of_nat i - 1
  | _ => False
  end.

(** [D] has the checks and logical operations of [d], and maybe more. *)
Definition extends (d D : RuleDataV2) : Prop :=
  rd_checkOperations d `prefix_of` rd_checkOperations D
  ∧ rd_logicalOperations d `prefix_of` rd_logicalOperations D.
#[local] Instance extends_preorder : PreOrder extends.
Proof. split; [by intros d|]. intros d1 d2 d3 [H1 H2] [H3 H4]. split; by etrans. Qed.

Lemma well_indexed_extends d D i op : extends d D → well_indexed d i op → well_indexed D i op.
Proof.
  intros [Hc Hl]. unfold well_indexed. destruct (co_opType op); try done.
  - intros [c Hx]. exists c. by eapply at_index_prefix.
  - intros (l & Hx & H). exists l. split; [by eapply at_index_prefix|done].
Qed.

(** What the traversal of a tree appends, and how it is read back *)
Definition appended (t : Operation) (d d' : RuleDataV2) : Prop :=
  extends d d'
  ∧ rd_checkOperations d' = rd_checkOperations d ++ checks t
  ∧ ∃ ops, rd_operations d' = rd_operations d ++ ops
  ∧ length ops = length (subtrees t)
  ∧ (∀ k op, ops !! k = Some op → well_indexed d' (length (rd_operations d) + k) op)
  ∧ ∀ D rest decoded, extends d' D → length decoded = length (rd_operations d) →
      ruleDataToOperations_loop D (ops ++ rest) decoded
      = ruleDataToOperations_loop D rest (decoded ++ subtrees t).

Lemma appended_check c d : ∃ d', postOrderTraversal (Op_check c) d = Ok d' ∧ appended (Op_check c) d d'.
Proof.
  eexists. split; [reflexivity|]. split_and!; [split; simpl; [by eexists|done]|done|].
  eexists. split_and!; [reflexivity|done| |].
  - intros [|k] op; simpl; [|done]. intros [= <-]. exists c. simpl.
    pose proof (at_index_last (rd_checkOperations d) c []) as Hx. by rewrite app_nil_r in Hx.
  - intros D rest decoded [Hc _] Hl. simpl. unfold ruleDataToOperation. simpl.
    assert (at_index (rd_checkOperations D) (last_index (rd_checkOperations d ++ [c])) = Some c) as ->; [|done].
    destruct Hc as [k Hk]. simpl in Hk. rewrite Hk. apply at_index_last.
Qed.

Lemma lengths_after (d d' : RuleDataV2) (ops : list ContractOperation) (decoded sub : list Operation) :
  rd_operations d' = rd_operations d ++ ops → length ops = length sub →
  length decoded = length (rd_operations d) → length (decoded ++ sub) = length (rd_operations d').
Proof. intros -> H1 H2. rewrite !length_app. lia. Qed.

Lemma appended_logical ty l r d d1 d2 :
  appended l d d1 → appended r d1 d2 → postOrderTraversal l d = Ok d1 → postOrderTraversal r d1 = Ok d2 →
  ∃ d', postOrderTraversal (Op_logical ty l r) d = Ok d' ∧ appended (Op_logical ty l r) d d'.
Proof.
  intros (He1 & Hc1 & ops1 & Ho1 & Hn1 & Hw1 & Hd1) (He2 & Hc2 & ops2 & Ho2 & Hn2 & Hw2 & Hd2) T1 T2.
  simpl. rewrite T1. simpl. rewrite T2. simpl. eexists. split; [reflexivity|].
  destruct (subtrees_last l) as [sl Hsl]. destruct (subtrees_last r) as [sr Hsr].
  set (lo := {| cl_logOpType := ty; cl_leftOperationIndex := last_index (rd_operations d1);
                cl_rightOperationIndex := last_index (rd_operations d2) |}).
  set (d' := {| rd_operations := _; rd_checkOperations := rd_checkOperations d2; rd_logicalOperations := _ |}).
  assert (He : extends d2 d') by (split; simpl; [done|by eexists]).
  split_and!; [transitivity d1; [done|]; by transitivity d2|simpl; by rewrite Hc2, Hc1, <- app_assoc|].
  eexists. split_and!; [simpl; rewrite Ho2, Ho1, <- !app_assoc; reflexivity| | |].
  - cbn [subtrees]. rewrite !length_app, Hn1, Hn2. simpl. lia.
  - intros k op Hk. rewrite app_assoc in Hk. apply lookup_app_Some in Hk as [Hk|[Hge Hk]].
    { apply lookup_app_Some in Hk as [Hk|[Hge Hk]].
      - apply (well_indexed_extends d1); [by transitivity d2|by apply Hw1].
      - apply Hw2 in Hk. apply (well_indexed_extends d2); [done|].
        rewrite Ho1, length_app in Hk. by replace (length (rd_operations d) + k)%nat
          with (length (rd_operations d) + length ops1 + (k - length ops1))%nat by lia. }
    rewrite length_app in Hge, Hk. destruct (k - _)%nat as [|j] eqn:Ej in Hk; [|done]. simpl in Hk. injection Hk as <-.
    exists lo. split; [pose proof (at_index_last (rd_logicalOperations d2) lo []) as Hx; by rewrite app_nil_r in Hx|].
    unfold lo, last_index. simpl. rewrite Ho2, Ho1, !length_app, Hn1, Hn2, Hsl, Hsr, !length_app in *. simpl in *. lia.
  - intros D rest decoded HD Hlen. rewrite <- !app_assoc.
    assert (HD2 : extends d2 D) by (by transitivity d'). assert (HD1 : extends d1 D) by (by transitivity d2).
    rewrite Hd1 by done. pose proof (lengths_after d d1 ops1 decoded _ Ho1 Hn1 Hlen) as Hlen1.
    rewrite Hd2 by done. pose proof (lengths_after d1 d2 ops2 _ _ Ho2 Hn2 Hlen1) as Hlen2.
    simpl. unfold ruleDataToOperation. simpl.
    destruct HD as [_ HDl].
    assert (at_index (rd_logicalOperations D) (last_index (rd_logicalOperations d2 ++ [lo])) = Some lo) as ->.
    { destruct HDl as [k Hk]. simpl in Hk. rewrite Hk. apply at_index_last. }
    unfold lo. cbn [cl_logOpType cl_leftOperationIndex cl_rightOperationIndex].
    assert (Hx : ∀ (dec : list Operation) (ops : list ContractOperation) s x rest',
      dec = s ++ [x] → length dec = length ops → at_index (dec ++ rest') (last_index ops) = Some x).
    { intros dec ops s x rest' -> Hlo. unfold last_index. rewrite <- Hlo. apply at_index_last. }
    rewrite (Hx (decoded ++ subtrees l) _ (decoded ++ sl) l); [|by rewrite Hsl, app_assoc|done].
    rewrite <- (app_nil_r ((decoded ++ subtrees l) ++ subtrees r)) at 1.
    rewrite (Hx ((decoded ++ subtrees l) ++ subtrees r) _ ((decoded ++ subtrees l) ++ sr) r);
      [|by rewrite Hsr, app_assoc|done].
    simpl. by rewrite <- !app_assoc.
Qed.

Lemma traversal_spec t : complete t = true → ∀ d, ∃ d', postOrderTraversal t d = Ok d' ∧ appended t d d'.
Proof.
  induction t as [c|ty l IHl r IHr| |]; intros Hc d; try done; [apply appended_check|].
  simpl in Hc. apply andb_true_iff in Hc as [Hl Hr].
  destruct (IHl Hl d) as (d1 & T1 & A1). destruct (IHr Hr d1) as (d2 & T2 & A2).
  by apply (appended_logical ty l r d d1 d2).
Qed.

Lemma traversal_incomplete t d : complete t = false → ∃ e, postOrderTraversal t d = Throw e.
Proof.
  revert d. induction t as [c|ty l IHl r IHr| |]; intros d Hc; simpl in *; [done| |by eexists..].
  destruct (complete l) eqn:Hl; simpl in Hc.
  - destruct (traversal_spec l Hl d) as (d1 & -> & _). simpl. destruct (IHr d1 Hc) as [e ->]. by exists e.
  - destruct (IHl d eq_refl) as [e ->]. by exists e.
Qed.

Lemma array_to_tree t rest stack : complete t = true →
  postOrderArrayToTree_loop (subtrees t ++ rest) stack = postOrderArrayToTree_loop rest (t :: stack).
Proof.
  revert rest stack. induction t as [c|ty l IHl r IHr| |]; intros rest stack Hc; try done.
  simpl in Hc. apply andb_true_iff in Hc as [Hl Hr]. simpl subtrees. rewrite <- !app_assoc, IHl, IHr by done. done.
Qed.

(** ** Balanced trees *)

Fixpoint depth (t : Operation) : nat :=
  match t with Op_logical _ l r => S (Nat.max (depth l) (depth r)) | _ => O end.

(** Every join of the tree is [logicalOp]. *)
Fixpoint joinedBy (logicalOp : LogicalOperationType) (t : Operation) : bool :=
  match t with
  | Op_logical ty l r => bool_decide (ty = logicalOp) && joinedBy logicalOp l && joinedBy logicalOp r
  | _ => true
  end.

(** What one round and all rounds of joining keep *)
Definition joins (logicalOp : LogicalOperationType) (ops ops' : list Operation) : Prop :=
  ops' ≫= checks = ops ≫= checks
  ∧ (Forall (λ t, complete t = true) ops → Forall (λ t, complete t = true) ops')
  ∧ (Forall (λ t, joinedBy logicalOp t = true) ops → Forall (λ t, joinedBy logicalOp t = true) ops').
#[local] Instance joins_preorder op : PreOrder (joins op).
Proof. split; [by intros l|]. intros l1 l2 l3 (E1 & H1 & H2) (E2 & H3 & H4). split_and!; [congruence|auto..]. Qed.

Lemma pairs_ind (P : list Operation → Prop) :
  P [] → (∀ x, P [x]) → (∀ x y l, P l → P (x :: y :: l)) → ∀ l, P l.
Proof.
  intros H0 H1 H2 l. enough (P l ∧ ∀ x, P (x :: l)) as [? _] by done.
  induction l as [|y l [IH1 IH2]]; [auto|]. split; auto.
Qed.

Lemma two_inv {A} (P : A → Prop) x y l : Forall P (x :: y :: l) → P x ∧ P y ∧ Forall P l.
Proof. intros [Hx [Hy Hl]%Forall_cons]%Forall_cons. done. Qed.

Lemma joinPairs_joins op l : joins op l (joinPairs op l).
Proof.
  induction l as [|x|x y l (E & H1 & H2)] using pairs_ind; [done..|]. cbn [joinPairs]. split_and!.
  - rewrite !bind_cons. cbn [checks]. by rewrite E, <- app_assoc.
  - intros (Hx & Hy & Hl)%two_inv. constructor; [simpl; by rewrite Hx, Hy|auto].
  - intros (Hx & Hy & Hl)%two_inv. constructor; [simpl; by rewrite Hx, Hy, bool_decide_true|auto].
Qed.

Lemma joinPairs_length op l : (2 * length (joinPairs op l) <= S (length l))%nat ∧ (l ≠ [] → joinPairs op l ≠ []).
Proof.
  induction l as [|x|x y l [IH _]] using pairs_ind; simpl; (split; [lia|intros Hne; first [exact Hne|discriminate]]).
Qed.

Lemma joinPairs_depth op l h :
  Forall (λ t, (depth t <= h)%nat) l → Forall (λ t, (depth t <= S h)%nat) (joinPairs op l).
Proof.
  induction l as [|x|x y l IH] using pairs_ind; simpl; intros Hl.
  - constructor.
  - rewrite Forall_singleton in Hl. rewrite Forall_singleton. lia.
  - apply two_inv in Hl as (Hx & Hy & Hl). simpl in Hx, Hy. constructor; [simpl; lia|auto].
Qed.

(** The loop ends with one tree, as deep as the number of rounds. *)
Lemma joinAll_spec fuel op l h k :
  l ≠ [] → (length l <= fuel)%nat → (length l <= 2 ^ k)%nat → Forall (λ t, (depth t <= h)%nat) l →
  ∃ t, joinAll fuel op l = [t] ∧ joins op l [t] ∧ (depth t <= h + k)%nat.
Proof.
  revert l h k. induction fuel as [|fuel IH]; intros l h k Hne Hf Hk Hd; [by destruct l; [|simpl in Hf; lia]|].
  simpl. destruct (Nat.ltb_spec 1 (length l)) as [Hlt|Hge].
  - destruct k as [|k]; [simpl in Hk; lia|]. destruct (joinPairs_length op l) as [Hl1 Hl2].
    rewrite Nat.pow_succ_r' in Hk.
    destruct (IH (joinPairs op l) (S h) k) as (t & E & Hj & Ht); [auto|lia|lia|by apply joinPairs_depth|].
    exists t. split_and!; [done| |lia]. transitivity (joinPairs op l); [apply joinPairs_joins|done].
  - destruct l as [|t [|? ?]]; [done| |simpl in Hge; lia]. exists t. split_and!; [done|done|].
    rewrite Forall_singleton in Hd. lia.
Qed.

(** ** Checks *)

Section Checks.
Context `{AbiLaws}.

(** A check that can be encoded, and what it is after the defaults are filled in *)
Definition encodable (op : DecodedCheckOperation) : bool :=
  match dc_type op with
  | CT_ERC20 | CT_ERC721 => uint256 (default 1 (dc_threshold op))
  | CT_ETH_BALANCE => uint256 (default 0 (dc_threshold op))
  | CT_ERC1155 => uint256 (default 1 (dc_threshold op)) && uint256 (default 0 (dc_tokenId op))
  | CT_ISENTITLED => true
  | _ => false
  end.
Definition withDefaults (op : DecodedCheckOperation) : DecodedCheckOperation := {|
  dc_type := dc_type op; dc_chainId := Some (default 1 (dc_chainId op));
  dc_address := Some (default zeroAddress (dc_address op));
  dc_threshold := match dc_type op with
                  | CT_ERC20 | CT_ERC721 | CT_ERC1155 => Some (default 1 (dc_threshold op))
                  | CT_ETH_BALANCE => Some (default 0 (dc_threshold op))
                  | _ => None
                  end;
  dc_tokenId := match dc_type op with CT_ERC1155 => Some (default 0 (dc_tokenId op)) | _ => None end;
  dc_byteEncodedParams := match dc_type op with
                          | CT_ISENTITLED => Some (default "0x" (dc_byteEncodedParams op)) | _ => None end |}.

Lemma encodeThreshold_ok n : uint256 n = true →
  ∃ h, encodeThresholdParams n = Ok h ∧ decodeThresholdParams h = Ok n.
Proof.
  intros Hn. unfold encodeThresholdParams, decodeThresholdParams. pose proof Hn as Hn'.
  apply andb_true_iff in Hn' as [Hn'%Z.leb_le _]. rewrite (proj2 (Z.ltb_ge n 0)) by lia. by apply abi_threshold.
Qed.
Lemma encodeERC1155_ok n t : uint256 n = true → uint256 t = true →
  ∃ h, encodeERC1155Params n t = Ok h ∧ decodeERC1155Params h = Ok (n, t).
Proof.
  intros Hn Ht. unfold encodeERC1155Params, decodeERC1155Params. pose proof Hn as Hn'. pose proof Ht as Ht'.
  apply andb_true_iff in Hn' as [Hn'%Z.leb_le _]. apply andb_true_iff in Ht' as [Ht'%Z.leb_le _].
  rewrite (proj2 (Z.ltb_ge n 0)), (proj2 (Z.ltb_ge t 0)) by lia. by apply abi_ERC1155.
Qed.

Lemma checkOperation_decoded op : encodable op = true →
  ∃ c, checkOperation op = Ok (Op_check c) ∧ decodedCheckOperation (Op_check c) = Ok [withDefaults op].
Proof.
  intros He. unfold checkOperation, encodable, withDefaults in *. destruct (dc_type op) eqn:Et; try done.
  1,2,5: destruct (encodeThreshold_ok _ He) as (h & -> & Hh).
  4: apply andb_true_iff in He as [He1 He2]; destruct (encodeERC1155_ok _ _ He1 He2) as (h & -> & Hh).
  all: simpl; eexists; (split; [reflexivity|]); simpl; rewrite ?Hh; reflexivity.
Qed.

(** Only the leaves of a tree give a check. *)
Lemma decoded_subtrees t rs : complete t = true →
  traverse (λ c, decodedCheckOperation (Op_check c)) (checks t) = Ok rs →
  ∃ rs', traverse decodedCheckOperation (subtrees t) = Ok rs' ∧ concat rs' = concat rs.
Proof.
  revert rs. induction t as [c|ty l IHl r IHr| |]; intros rs Hc Hrs; try done.
  - exists rs. split; [|done]. apply traverse_ok in Hrs. apply traverse_ok.
    by inversion Hrs as [|? ? ? ? ? Hn]; inversion Hn; subst; repeat constructor.
  - simpl in Hc. apply andb_true_iff in Hc as [Hl Hr]. simpl in Hrs. apply traverse_ok in Hrs.
    apply Forall2_app_inv_l in Hrs as (rs1 & rs2 & H1%traverse_ok & H2%traverse_ok & ->).
    destruct (IHl rs1 Hl H1) as (r1 & E1 & C1). destruct (IHr rs2 Hr H2) as (r2 & E2 & C2).
    exists (r1 ++ r2 ++ [[]]). split.
    + simpl subtrees. apply traverse_app; [done|]. by apply traverse_app.
    + rewrite !concat_app. simpl. by rewrite C1, C2, !app_nil_r.
Qed.
End Checks.

Lemma tree_decoded t d : complete t = true → treeToRuleData t = Ok d →
  ruleDataToOperations d = Ok (subtrees t) ∧ postOrderArrayToTree (subtrees t) = Ok t.
Proof.
  intros Hc. destruct (traversal_spec t Hc NoopRuleData) as (d' & T & _ & _ & ops & Ho & _ & _ & Hd).
  unfold treeToRuleData. rewrite T. intros [= <-]. simpl in Ho. split.
  - unfold ruleDataToOperations. rewrite Ho, <- (app_nil_r ops). by rewrite Hd.
  - unfold postOrderArrayToTree. rewrite <- (app_nil_r (subtrees t)). by rewrite array_to_tree.
Qed.

(** *** Other checks in the same tree *)

Fixpoint mapChecks (f : CheckOperationV2 → CheckOperationV2) (t : Operation) : Operation :=
  match t with
  | Op_check c => Op_check (f c)
  | Op_logical ty l r => Op_logical ty (mapChecks f l) (mapChecks f r)
  | _ => t
  end.
(** A tree whose checks and joins have one encoding *)
Fixpoint encodableTree (t : Operation) : bool :=
  match t with
  | Op_check c => encodableCheck c
  | Op_logical ty l r => encodableLogical ty && encodableTree l && encodableTree r
  | _ => false
  end.
Lemma complete_map f t : complete (mapChecks f t) = complete t.
Proof. induction t as [c|ty l IHl r IHr| |]; simpl; by rewrite ?IHl, ?IHr. Qed.
Lemma last_index_fmap {A B} (f : A → B) l x : last_index ((f <$> l) ++ [f x]) = last_index (l ++ [x]).
Proof. unfold last_index. by rewrite !length_app, length_fmap. Qed.
Lemma traversal_map f t d d' : postOrderTraversal t d = Ok d' → postOrderTraversal (mapChecks f t) (mapRule f d) = Ok (mapRule f d').
Proof.
  revert d d'. induction t as [c|ty l IHl r IHr| |]; intros d d'; simpl; try done.
  - intros [= <-]. unfold mapRule. simpl. by rewrite fmap_app, last_index_fmap.
  - intros (d1 & E1 & (d2 & E2 & [= <-])%bind_Ok)%bind_Ok. rewrite (IHl d d1 E1). cbn [mbind Res_bind].
    by rewrite (IHr d1 d2 E2).
Qed.
Lemma traversal_encodable t d d' : encodableTree t = true → encodableRule d = true →
  postOrderTraversal t d = Ok d' → encodableRule d' = true.
Proof.
  revert d d'. induction t as [c|ty l IHl r IHr| |]; intros d d'; simpl; try done.
  - intros Hc [[Ho Hk]%andb_true_iff Hl]%andb_true_iff [= <-]. unfold encodableRule. simpl.
    rewrite !forallb_app, Ho, Hk, Hl. simpl. by rewrite Hc.
  - intros [[Hty Hl]%andb_true_iff Hr]%andb_true_iff Hd (d1 & E1 & (d2 & E2 & [= <-])%bind_Ok)%bind_Ok.
    pose proof (IHr d1 d2 Hr (IHl d d1 Hl Hd E1) E2) as [[Ho Hk]%andb_true_iff Hlo]%andb_true_iff.
    unfold encodableRule. simpl. rewrite !forallb_app, Ho, Hk, Hlo. simpl. by rewrite Hty.
Qed.

Section Created.
Context `{AbiLaws}.

Lemma checks_encoded ops : Forall (λ op, encodable op = true) ops →
  ∃ cs, traverse checkOperation ops = Ok (Op_check <$> cs)
  ∧ traverse (λ c, decodedCheckOperation (Op_check c)) cs = Ok ((λ op, [withDefaults op]) <$> ops).
Proof.
  induction 1 as [|op ops Hop _ (cs & E & Ed)]; [by exists []|].
  destruct (checkOperation_decoded op Hop) as (c & Ec & Edc). exists (c :: cs).
  apply traverse_ok in E, Ed. split; apply traverse_ok; by constructor.
Qed.

(** The tree that [createOperationsTree] encodes *)
Lemma created_tree ops cs logicalOp : ops ≠ [] → traverse checkOperation ops = Ok (Op_check <$> cs) →
  ∃ t d, createOperationsTree ops logicalOp = Ok d ∧ treeToRuleData t = Ok d
  ∧ complete t = true ∧ joinedBy logicalOp t = true ∧ checks t = cs
  ∧ (depth t <= Nat.log2_up (length ops))%nat.
Proof.
  intros Hne E. pose proof E as Hlen. apply traverse_ok, Forall2_length in Hlen. rewrite length_fmap in Hlen.
  destruct (joinAll_spec (length cs) logicalOp (Op_check <$> cs) 0 (Nat.log2_up (length ops)))
    as (t & Et & (Hck & Hcm & Hj) & Hdep).
  - destruct cs; [by destruct ops|done].
  - by rewrite length_fmap.
  - rewrite length_fmap, <- Hlen. destruct ops as [|o [|o' ops]]; [done|simpl; lia|].
    apply Nat.log2_up_spec. simpl. lia.
  - rewrite Forall_fmap. apply Forall_true. intros c. simpl. lia.
  - rewrite Forall_singleton in Hcm, Hj.
    assert (complete t = true) as Hc by (apply Hcm; rewrite Forall_fmap; by apply Forall_true).
    destruct (traversal_spec t Hc NoopRuleData) as (d & T & _). exists t, d. split_and!; [|done|done| | |done].
    + unfold createOperationsTree. rewrite E. rewrite (proj2 (Nat.eqb_neq (length ops) 0)) by (by destruct ops).
      simpl mbind. unfold Res_bind. rewrite length_fmap, Et. exact T.
    + apply Hj. rewrite Forall_fmap. by apply Forall_true.
    + rewrite bind_singleton in Hck. rewrite Hck. clear. induction cs; [done|]. simpl. by f_equal.
Qed.
End Created.

(** ** The theorems *)

Section Theorems.
Context `{AbiLaws}.

(** The way to the chain and back gives the tree, with the checks as they are
    decoded. *)
Lemma tree_survives t d h : complete t = true → encodableTree t = true → treeToRuleData t = Ok d →
  encodeRuleDataV2 d = Ok h →
  ∃ d' ops, decodeRuleDataV2 h = Ok d' ∧ ruleDataToOperations d' = Ok ops ∧ last ops = Some (mapChecks asDecoded t)
    ∧ postOrderArrayToTree ops = Ok (mapChecks asDecoded t).
Proof.
  intros Hc He T. destruct (traversal_spec t Hc NoopRuleData) as (d0 & T0 & _ & _ & ops & Ho & Hn & _).
  unfold treeToRuleData in T. rewrite T in T0. injection T0 as <-. simpl in Ho. destruct (subtrees_last t) as [s Hs].
  unfold encodeRuleDataV2, decodeRuleDataV2. rewrite Ho, Hn, Hs, length_app, Nat.add_comm. simpl.
  intros [Hdec Hne]%abi_RuleDataV2; [|by apply (traversal_encodable t NoopRuleData)].
  rewrite (proj2 (String.eqb_neq h "0x") Hne). pose proof (traversal_map asDecoded t _ _ T) as Tm.
  rewrite <- (complete_map asDecoded t) in Hc. destruct (tree_decoded _ _ Hc Tm) as [H1 H2].
  exists (mapRule asDecoded d), (subtrees (mapChecks asDecoded t)). split_and!; try done.
  destruct (subtrees_last (mapChecks asDecoded t)) as [s' ->]. by rewrite last_snoc.
Qed.

(** C27. A rule survives its way to the chain and back. A complete tree becomes
    arrays with its checks in order, in which every index points to something
    that comes before, and from which the tree is rebuilt, both by following the
    indices and by the order of the operations alone. When the library encodes the
    arrays, with parameters that are bytes in hex, their bytes decode to arrays
    from which the same tree is rebuilt, with the same checks but for the form of
    addresses, which have their checksum, and of parameters, which are in lower
    case. A tree with a missing operation is refused. *)
Theorem rule_tree_roundtrip t :
  if complete t
  then ∃ d ops, treeToRuleData t = Ok d
    ∧ rd_checkOperations d = checks t
    ∧ (∀ i op, rd_operations d !! i = Some op → well_indexed d i op)
    ∧ ruleDataToOperations d = Ok ops ∧ last ops = Some t ∧ postOrderArrayToTree ops = Ok t
    ∧ (∀ h, encodableTree t = true → encodeRuleDataV2 d = Ok h →
         ∃ d' ops', decodeRuleDataV2 h = Ok d' ∧ ruleDataToOperations d' = Ok ops'
           ∧ last ops' = Some (mapChecks asDecoded t) ∧ postOrderArrayToTree ops' = Ok (mapChecks asDecoded t))
  else ∃ e, treeToRuleData t = Throw e.
Proof.
  destruct (complete t) eqn:Hc; [|by apply traversal_incomplete].
  destruct (traversal_spec t Hc NoopRuleData) as (d & T & _ & Hch & ops & Ho & Hn & Hw & Hd).
  destruct (subtrees_last t) as [s Hs]. simpl in Ho.
  exists d, (subtrees t). split_and!; [done|done| | |by rewrite Hs, last_snoc| |].
  - intros i op Hi. apply Hw. by rewrite <- Ho.
  - by apply tree_decoded.
  - by apply (tree_decoded t d).
  - intros h He. by apply tree_survives.
Qed.

(** Rules made from a list of checks: for checks that can be encoded the loop
    that joins neighbours ends with one complete tree, in which every join is the
    given one, every check is there once, and no path has more than the binary
    logarithm of their number of joins; reading the checks back from the arrays
    gives the list, in its order, with the defaults filled in. *)
Theorem created_rule ops logicalOp :
  ops ≠ [] → Forall (λ op, encodable op = true) ops →
  ∃ d t, createOperationsTree ops logicalOp = Ok d ∧ treeToRuleData t = Ok d
    ∧ complete t = true ∧ joinedBy logicalOp t = true ∧ length (checks t) = length ops
    ∧ (depth t <= Nat.log2_up (length ops))%nat
    ∧ createDecodedCheckOperationFromTree d = Ok (withDefaults <$> ops).
Proof.
  intros Hne Hops. destruct (checks_encoded ops Hops) as (cs & E & Ed).
  destruct (created_tree ops cs logicalOp Hne E) as (t & d & Hcr & T & Hc & Hj & Hcs & Hdep). exists d, t.
  split_and!; [done..| |done|].
  - rewrite Hcs. apply traverse_ok, Forall2_length in E. by rewrite length_fmap in E.
  - unfold createDecodedCheckOperationFromTree. destruct (tree_decoded t d Hc T) as [-> _]. simpl.
    destruct (decoded_subtrees t _ Hc ltac:(by rewrite Hcs)) as (rs & -> & Hr). simpl. rewrite Hr.
    f_equal. clear. induction ops; [done|]. simpl. by f_equal.
Qed.

(** A check of the first version that keeps its meaning in the second *)
Definition convertible (op : CheckOperationV1) : bool :=
  match c1_opType op with
  | CT_MOCK | CT_ERC20 | CT_ERC721 | CT_ETH_BALANCE => uint256 (c1_threshold op)
  | CT_ISENTITLED => c1_threshold op =? 0
  | _ => false
  end.
Definition unsupported (type : CheckOperationType) : bool :=
  match type with CT_ERC1155 | CT_NONE | CT_OTHER _ => true | _ => false end.

(** Rules of the first version convert to the second and back without loss
    when their thresholds fit 256 bits (and are 0 where they mean nothing);
    neither direction accepts a rule with a check that the other version does
    not have. *)
Theorem rule_versions_roundtrip :
  (∀ d : RuleData, Forall (λ op, convertible op = true) (rd_checkOperations d) →
     ∃ d2, convertRuleDataV1ToV2 d = Ok d2 ∧ convertRuleDataV2ToV1 d2 = Ok d)
  ∧ (∀ d : RuleData, Exists (λ op, unsupported (c1_opType op) = true) (rd_checkOperations d) →
     ∃ e, convertRuleDataV1ToV2 d = Throw e)
  ∧ (∀ d : RuleDataV2, Exists (λ op, unsupported (cv_checkType op) = true) (rd_checkOperations d) →
     ∃ e, convertRuleDataV2ToV1 d = Throw e).
Proof.
  split_and!.
  - intros [os cs ls] Hc. simpl in Hc. unfold convertRuleDataV1ToV2, convertRuleDataV2ToV1. simpl.
    enough (∃ cs2, traverse convertCheckV1ToV2 cs = Ok cs2 ∧ traverse convertCheckV2ToV1 cs2 = Ok cs) as (cs2 & -> & E2).
    { simpl. eexists. split; [done|]. simpl. by rewrite E2. }
    induction Hc as [|op cs Hop _ (cs2 & IH1 & IH2)]; [by exists []|].
    enough (∃ op2, convertCheckV1ToV2 op = Ok op2 ∧ convertCheckV2ToV1 op2 = Ok op) as (op2 & E1 & E2).
    { exists (op2 :: cs2). simpl. by rewrite E1, E2, IH1, IH2. }
    destruct op as [ty ch a th]. unfold convertible in Hop. unfold convertCheckV1ToV2, convertCheckV2ToV1. simpl in *.
    destruct ty; try done.
    1,2,3,5: destruct (encodeThreshold_ok th Hop) as (h & -> & Hh); simpl; eexists; (split; [done|]); simpl; by rewrite Hh.
    apply Z.eqb_eq in Hop. subst th. by eexists.
  - intros d Hd. unfold convertRuleDataV1ToV2. destruct (traverse_throws convertCheckV1ToV2 (rd_checkOperations d)) as [e ->].
    { eapply Exists_impl; [exact Hd|]. intros op Hop. cbv beta in Hop. unfold convertCheckV1ToV2. destruct (c1_opType op); try done; by eexists. }
    by exists e.
  - intros d Hd. unfold convertRuleDataV2ToV1. destruct (traverse_throws convertCheckV2ToV1 (rd_checkOperations d)) as [e ->].
    { eapply Exists_impl; [exact Hd|]. intros op Hop. cbv beta in Hop. unfold convertCheckV2ToV1. destruct (cv_checkType op); try done; by eexists. }
    by exists e.
Qed.
End Theorems.

(** ** A model of the encodings

    A number is written in binary, least digit first, up to its leading 1 (a
    point); one rule is encoded. *)
Module ModelAbi.
Fixpoint pos_digits (p : positive) : string :=
  match p with
  | xH => "."
  | xO p => String "0"%char (pos_digits p)
  | xI p => String "1"%char (pos_digits p)
  end.
Fixpoint pos_read (s : string) : option (positive * string) :=
  match s with
  | String "."%char s => Some (xH, s)
  | String "0"%char s => '(p, rest) ← pos_read s; Some (xO p, rest)
  | String "1"%char s => '(p, rest) ← pos_read s; Some (xI p, rest)
  | _ => None
  end.
Definition digits (n : Z) : string := match n with Zpos p => pos_digits p | _ => "z" end.
Definition read (s : string) : option (Z * string) :=
  match s with
  | String "z"%char s => Some (0, s)
  | s => '(p, rest) ← pos_read s; Some (Zpos p, rest)
  end.

Lemma pos_read_digits p rest : pos_read (pos_digits p +:+ rest) = Some (p, rest).
Proof. by induction p as [p IH|p IH|]; simpl; rewrite ?IH. Qed.
Lemma read_digits n rest : 0 <= n → read (digits n +:+ rest) = Some (n, rest).
Proof.
  intros Hn. destruct n as [|p|p]; [done| |lia]. unfold digits.
  assert (E : read (pos_digits p +:+ rest) = ('(p, rest) ← pos_read (pos_digits p +:+ rest); Some (Zpos p, rest)))
    by (by destruct p).
  rewrite E, pos_read_digits. done.
Qed.

Definition sampleCheck : CheckOperationV2 :=
  {| cv_checkType := CT_ERC20; cv_chainId := 1; cv_contractAddress := "0xaa"; cv_params := "0xAB" |}.
Definition sampleTree : Operation := Op_logical LT_AND (Op_check sampleCheck) (Op_check sampleCheck).
Definition sample : RuleDataV2 := match treeToRuleData sampleTree with Ok d => d | Throw _ => NoopRuleData end.

#[export] Instance ContractOperation_eq_dec : EqDecision ContractOperation.
Proof. solve_decision. Defined.
#[export] Instance ContractLogicalOperation_eq_dec : EqDecision ContractLogicalOperation.
Proof. solve_decision. Defined.
#[export] Instance CheckOperationV2_eq_dec : EqDecision CheckOperationV2.
Proof. solve_decision. Defined.
#[export] Instance RuleDataOf_eq_dec {C} `{EqDecision C} : EqDecision (RuleDataOf C).
Proof. solve_decision. Defined.

Definition outOfRange {A} : Res A := Throw (PlainError "IntegerOutOfRangeError").
(** Checks with the mark of a checksum *)
Definition decodedCheck (c : CheckOperationV2) : CheckOperationV2 := {|
  cv_checkType := cv_checkType c; cv_chainId := cv_chainId c;
  cv_contractAddress := cv_contractAddress c +:+ "!"; cv_params := Str.toLowerCase (cv_params c) |}.
#[export] Instance abi : AbiLib := {|
  abi_encodeThreshold := λ n, if uint256 n then Ok (digits n) else outOfRange;
  abi_decodeThreshold := λ s, match read s with Some (n, "") => Ok n | _ => outOfRange end;
  abi_encodeERC1155 := λ n t, if uint256 n && uint256 t then Ok (digits n +:+ digits t) else outOfRange;
  abi_decodeERC1155 := λ s, match '(n, s) ← read s; '(t, s) ← read s; Some (n, t, s) with
                            | Some (n, t, "") => Ok (n, t) | _ => outOfRange end;
  abi_encodeRuleDataV2 := λ d, if decide (d = sample) then Ok "0x01" else outOfRange;
  abi_decodeRuleDataV2 := λ s, if String.eqb s "0x01" then Ok (mapRule decodedCheck sample) else outOfRange;
  abi_checksumAddress := λ s, s +:+ "!";
|}.

#[export] Instance abi_laws : AbiLaws.
Proof.
  assert (Hnn : ∀ n, uint256 n = true → 0 <= n) by (intros n [Hn%Z.leb_le _]%andb_true_iff; done).
  split; simpl.
  - intros n Hn. rewrite Hn. eexists. split; [done|]. rewrite <- (Str.app_nil_r (digits n)), read_digits; auto.
  - intros n t Hn Ht. rewrite Hn, Ht. eexists. split; [done|]. rewrite read_digits by auto. simpl.
    rewrite <- (Str.app_nil_r (digits t)), read_digits; auto.
  - intros d h _. case_decide as Hd; [|done]. intros [= <-]. subst. done.
Qed.
End ModelAbi.

Module RuleTreesWitness.
Import ModelAbi.

Lemma rule_tree_roundtrip_witness :
  ∃ d ops, treeToRuleData sampleTree = Ok d ∧ ruleDataToOperations d = Ok ops ∧ last ops = Some sampleTree
  ∧ encodeRuleDataV2 d = Ok "0x01" ∧ ∃ d' ops', decodeRuleDataV2 "0x01" = Ok d' ∧ ruleDataToOperations d' = Ok ops'
      ∧ postOrderArrayToTree ops' = Ok (mapChecks asDecoded sampleTree).
Proof.
  destruct (rule_tree_roundtrip sampleTree) as (d & ops & T & _ & _ & Ho & Hl & _ & He).
  assert (E : treeToRuleData sampleTree = Ok sample) by (vm_compute; reflexivity).
  rewrite E in T. injection T as <-. exists sample, ops. split_and!; [exact E|exact Ho|exact Hl|reflexivity|].
  destruct (He "0x01" eq_refl eq_refl) as (d' & ops' & H1 & H2 & _ & H3). by exists d', ops'.
Defined.

Definition required (n : Z) : DecodedCheckOperation := {|
  dc_type := CT_ERC1155; dc_chainId := None; dc_address := Some "0xaa"; dc_threshold := Some n;
  dc_tokenId := Some 7; dc_byteEncodedParams := None |}.

Lemma created_rule_witness :
  ∃ d, createOperationsTree [required 1; required 2; required 3] LT_OR = Ok d
  ∧ createDecodedCheckOperationFromTree d = Ok (withDefaults <$> [required 1; required 2; required 3]).
Proof.
  destruct (created_rule [required 1; required 2; required 3] LT_OR) as (d & t & E & _ & _ & _ & _ & _ & Hd).
  - discriminate.
  - repeat constructor.
  - by exists d.
Defined.

Definition rulesV1 : RuleData := {|
  rd_operations := [{| co_opType := OT_CHECK; co_index := 0 |}];
  rd_checkOperations := [{| c1_opType := CT_ERC721; c1_chainId := 1; c1_contractAddress := "0xaa"; c1_threshold := 5 |}];
  rd_logicalOperations := [] |}.

Lemma rule_versions_roundtrip_witness :
  ∃ d2, convertRuleDataV1ToV2 rulesV1 = Ok d2 ∧ convertRuleDataV2ToV1 d2 = Ok rulesV1.
Proof.
  destruct rule_versions_roundtrip as (Hr & _). apply Hr. repeat constructor.
Defined.

(** An array with a leftover operation is accepted, and the leftover ignored. *)
Lemma leftover_ignored c c' : postOrderArrayToTree [Op_check c; Op_check c'] = Ok (Op_check c').
Proof. done. Qed.

(** A threshold asked for external tokens is lost: the rule asks for one token. *)
Lemma external_threshold_lost :
  createExternalTokenStruct ["0xaa"] None None (Some 5) None = createExternalTokenStruct ["0xaa"] None None (Some 1) None
  ∧ (d ← createExternalTokenStruct ["0xaa"] None None (Some 5) None; createDecodedCheckOperationFromTree d)
    = Ok [{| dc_type := CT_ERC20; dc_chainId := Some 1; dc_address := Some "0xaa"; dc_threshold := Some 1;
             dc_tokenId := None; dc_byteEncodedParams := None |}].
Proof. split; vm_compute; reflexivity. Qed.
End RuleTreesWitness.
