(* ===== verification/Entitlements.v ===== *)
(** * Entitlements: evaluating a rule for the wallets of a user
    (web3/src/space/entitlements/entitlement.ts)

    Evaluation is concurrent: both sides of a join run at once, and the first
    result that decides the join interrupts the other side. A [Run] says, for
    every place in the tree, which side settles first, whether a running check is
    aborted, and in which order the calls for the wallets settle; every theorem
    is about all runs. What the chains answer is a parameter ([Chains]); a call
    may also fail or never settle. *)

From S2P Require Import Prelude JsLib Ids RuleTrees.

(** A promise: it resolves to a wallet (or the zero address), rejects, or never
    settles. *)
Inductive Outcome := Resolved (address : string) | Rejected (e : JsError) | Pending.
#[export] Instance Outcome_eq_dec : EqDecision Outcome.
Proof. solve_decision. Defined.

(** A call of a contract or of a node *)
Inductive Call (A : Type) := Returns (a : A) | Fails | Hangs.
Arguments Returns {A} _.
Arguments Fails {A}.
Arguments Hangs {A}.

Class Chains := {
  (** [chainId in xchainConfig.supportedRpcUrls] *)
  supported : Z → bool;
  etherNativeNetworkIds : list Z;
  (** [provider.ready] *)
  ready : Z → Call unit;
  balanceOf : Z → string → string → Call Z;
  balanceOf1155 : Z → string → string → Z → Call Z;
  getBalance : Z → string → Call Z;
  isEntitled : Z → string → string → string → Call bool;
}.

(** Places in a tree: the sides taken from the root, [true] for left *)
Abbreviation Path := (list bool).
Record Run := {
  leftFirst : Path → bool;
  aborted : Path → bool;
  settling : Path → list string → list string;
}.

Definition MOCK_ADDRESS : string := "0xdeadbeefdeadbeefdeadbeefdeadbeefdeadbeef".

Section Evaluation.
Context `{EthLib, AbiLib, Chains}.

Definition isValidAddress (value : string) : bool := isAddress value && negb (String.eqb value zeroAddress).

(** ** Checks *)

Definition ofRes {A} (r : Res A) (k : A → Outcome) : Outcome :=
  match r with Ok a => k a | Throw e => Rejected e end.
Definition awaitCall {A} (c : Call A) (k : A → Outcome) : Outcome :=
  match c with Returns a => k a | Fails => Rejected (PlainError "call failed") | Hangs => Pending end.

(** [Promise.all] of calls whose failures count as a balance of 0 *)
Fixpoint allBalances (l : list (string * Call Z)) : option (list (string * Z)) :=
  match l with
  | [] => Some []
  | (wallet, c) :: l =>
      r ← allBalances l;
      match c with
      | Returns balance => Some ((wallet, balance) :: r)
      | Fails => Some ((wallet, 0) :: r)
      | Hangs => None
      end
  end.

Definition sumBalances (l : list (string * Z)) : Z := foldl (λ acc el, acc + el.2) 0 l.

(** The end of the checks of balances *)
Definition balancesReach (threshold : Z) (calls : list (string * Call Z)) : Outcome :=
  match allBalances calls with
  | None => Pending
  | Some walletBalances =>
      let walletsWithAsset := List.filter (λ b, 0 <? b.2) walletBalances in
      let accumulatedBalance := sumBalances walletsWithAsset in
      match walletsWithAsset with
      | (wallet, _) :: _ => Resolved (if threshold <=? accumulatedBalance then wallet else zeroAddress)
      | [] => Resolved zeroAddress
      end
  end.

Definition evaluateContractBalanceAcrossWallets (chainId : Z) (contractAddress : string) (threshold : Z)
    (linkedWallets : list string) : Outcome :=
  balancesReach threshold ((λ wallet, (wallet, balanceOf chainId contractAddress wallet)) <$> linkedWallets).

(** [evaluateERC20Operation] and [evaluateERC721Operation] *)
Definition evaluateTokenOperation (operation : CheckOperationV2) (linkedWallets : list string) : Outcome :=
  ofRes (decodeThresholdParams (cv_params operation)) (λ threshold,
    evaluateContractBalanceAcrossWallets (cv_chainId operation) (cv_contractAddress operation) threshold linkedWallets).

Definition evaluateERC1155Operation (operation : CheckOperationV2) (linkedWallets : list string) : Outcome :=
  ofRes (decodeERC1155Params (cv_params operation)) (λ '(threshold, tokenId),
    balancesReach threshold ((λ wallet,
      (wallet, balanceOf1155 (cv_chainId operation) (cv_contractAddress operation) wallet tokenId)) <$> linkedWallets)).

Definition evaluateEthBalanceOperation (operation : CheckOperationV2) (providers : list Z)
    (linkedWallets : list string) : Outcome :=
  ofRes (decodeThresholdParams (cv_params operation)) (λ threshold,
    balancesReach threshold
      (linkedWallets ≫= λ wallet, (λ provider, (wallet, getBalance provider wallet)) <$> providers)).

(** [Promise.any]: the first wallet, in the order in which the calls settle, for
    which the contract says yes *)
Fixpoint anyEntitled (operation : CheckOperationV2) (settled : list string) (hangs : bool) : Outcome :=
  match settled with
  | [] => if hangs then Pending else Resolved zeroAddress
  | wallet :: settled =>
      match isEntitled (cv_chainId operation) (cv_contractAddress operation) wallet (cv_params operation) with
      | Returns true => Resolved wallet
      | Returns false | Fails => anyEntitled operation settled hangs
      | Hangs => anyEntitled operation settled true
      end
  end.
Definition evaluateCrossChainEntitlementOperation (operation : CheckOperationV2) (settled : list string) : Outcome :=
  anyEntitled operation settled false.

Definition evaluateMockOperation (operation : CheckOperationV2) (aborted : bool) : Outcome :=
  ofRes (decodeThresholdParams (cv_params operation)) (λ _,
    Resolved (if negb aborted && (cv_chainId operation =? 1) then MOCK_ADDRESS else zeroAddress)).

(** [findProviderFromChainId], and what follows when there is one *)
Definition withProvider (chainId : Z) (k : Outcome) : Outcome :=
  if negb (supported chainId) then Resolved zeroAddress else awaitCall (ready chainId) (λ _, k).

(** [Promise.all] of the providers' [ready]: one rejection is enough. *)
Definition allReady (l : list Z) (k : Outcome) : Outcome :=
  if existsb (λ chainId, match ready chainId with Fails => true | _ => false end) l
  then Rejected (PlainError "call failed")
  else if existsb (λ chainId, match ready chainId with Hangs => true | _ => false end) l then Pending
  else k.
(** [findEtherChainProviders], and what follows *)
Definition withEtherProviders (k : list Z → Outcome) : Outcome :=
  let providers := List.filter supported etherNativeNetworkIds in
  allReady providers (if (length providers =? 0)%nat then Resolved zeroAddress else k providers).

(** The checks of parameters in [evaluateCheckOperation] *)
Definition checkParams (operation : CheckOperationV2) : Res unit :=
  let type := cv_checkType operation in
  let eth := bool_decide (type = CT_ETH_BALANCE) in
  if negb eth && (cv_chainId operation <? 0)
  then Throw (PlainError "Invalid chain id for check operation")
  else if negb eth && String.eqb (cv_contractAddress operation) zeroAddress
  then Throw (PlainError "Invalid contract address for check operation")
  else match type with
       | CT_ERC20 | CT_ERC721 | CT_ETH_BALANCE =>
           threshold ← decodeThresholdParams (cv_params operation);
           if threshold <=? 0 then Throw (PlainError "Invalid threshold for check operation") else Ok tt
       | CT_ERC1155 =>
           r ← decodeERC1155Params (cv_params operation);
           if r.2 <? 0 then Throw (PlainError "Invalid token id for check operation")
           else if r.1 <=? 0 then Throw (PlainError "Invalid threshold for check operation") else Ok tt
       | _ => Ok tt
       end.

Definition evaluateCheckOperation (run : Run) (path : Path) (linkedWallets : list string)
    (operation : CheckOperationV2) : Outcome :=
  match cv_checkType operation with
  | CT_MOCK => evaluateMockOperation operation (aborted run path)
  | CT_NONE => Rejected (PlainError "Unknown check operation type")
  | type =>
      ofRes (checkParams operation) (λ _,
        match type with
        | CT_ISENTITLED =>
            withProvider (cv_chainId operation)
              (evaluateCrossChainEntitlementOperation operation (settling run path linkedWallets))
        | CT_ETH_BALANCE => withEtherProviders (λ providers,
            evaluateEthBalanceOperation operation providers linkedWallets)
        | CT_ERC1155 => withProvider (cv_chainId operation) (evaluateERC1155Operation operation linkedWallets)
        | CT_ERC20 | CT_ERC721 =>
            withProvider (cv_chainId operation) (evaluateTokenOperation operation linkedWallets)
        | _ => Rejected (PlainError "Unknown check operation type")
        end)
  end.

(** ** Joins *)

(** The two racers of a join: what each has returned, and the first rejection *)
Record Racers := { rc_left : option string; rc_right : option string; rc_rejected : option JsError }.

(** [interupt()]: a racer that still waits returns the zero address. *)
Definition interrupt (s : Racers) : Racers := {|
  rc_left := Some (default zeroAddress (rc_left s)); rc_right := Some (default zeroAddress (rc_right s));
  rc_rejected := rc_rejected s |}.

Definition returned (isLeft : bool) (address : string) (s : Racers) : Racers :=
  if isLeft then {| rc_left := Some (default address (rc_left s)); rc_right := rc_right s;
                    rc_rejected := rc_rejected s |}
  else {| rc_left := rc_left s; rc_right := Some (default address (rc_right s)); rc_rejected := rc_rejected s |}.

(** A side settles. [decides] says which results interrupt the other side; a
    side that was interrupted does not count any more. *)
Definition settle (decides : string → bool) (isLeft : bool) (o : Outcome) (s : Racers) : Racers :=
  if isDefined (if isLeft then rc_left s else rc_right s) then s
  else match o with
       | Pending => s
       | Rejected e => {| rc_left := rc_left s; rc_right := rc_right s;
                          rc_rejected := Some (default e (rc_rejected s)) |}
       | Resolved a =>
           let result := if isValidAddress a then a else zeroAddress in
           (if decides a then interrupt else id) (returned isLeft result s)
       end.

(** Both sides have run; [combine] is what follows [Promise.all]. *)
Definition race (decides : string → bool) (combine : string → string → string) (leftFirst : bool) (l r : Outcome)
    : Outcome :=
  let s := {| rc_left := None; rc_right := None; rc_rejected := None |} in
  let s := if leftFirst then settle decides false r (settle decides true l s)
           else settle decides true l (settle decides false r s) in
  match rc_rejected s, rc_left s, rc_right s with
  | Some e, _, _ => Rejected e
  | None, Some a, Some b => Resolved (combine a b)
  | None, _, _ => Pending
  end.

Definition evaluateAndOperation : bool → Outcome → Outcome → Outcome :=
  race (λ a, negb (isValidAddress a))
       (λ a b, if isValidAddress a && isValidAddress b then a else zeroAddress).
Definition evaluateOrOperation : bool → Outcome → Outcome → Outcome :=
  race isValidAddress
       (λ a b, if isValidAddress a then a else if isValidAddress b then b else zeroAddress).

Fixpoint evaluateTree (run : Run) (path : Path) (linkedWallets : list string) (entry : Operation) : Outcome :=
  match entry with
  | Op_undefined => Resolved zeroAddress
  | Op_none => Rejected (PlainError "Unknown operation type")
  | Op_check c => evaluateCheckOperation run path linkedWallets c
  | Op_logical type l r =>
      let missing := match l, r with Op_undefined, _ | _, Op_undefined => true | _, _ => false end in
      let left := evaluateTree run (path ++ [true]) linkedWallets l in
      let right := evaluateTree run (path ++ [false]) linkedWallets r in
      match type with
      | LT_AND => if missing then Resolved zeroAddress else evaluateAndOperation (leftFirst run path) left right
      | LT_OR => if missing then Resolved zeroAddress else evaluateOrOperation (leftFirst run path) left right
      | _ => Rejected (PlainError "Unknown operation type")
      end
  end.

(** The controller is aborted as soon as the evaluation has started. *)
Definition evaluateOperationsForEntitledWallet (run : Run) (operations : list Operation)
    (linkedWallets : list string) : Outcome :=
  match operations with
  | [] => Resolved zeroAddress
  | _ =>
      ofRes (postOrderArrayToTree operations) (λ root,
        evaluateTree {| leftFirst := leftFirst run; aborted := λ _, true; settling := settling run |}
          [] linkedWallets root)
  end.
End Evaluation.
