(* ===== verification/EntitlementsFacts.v ===== *)
(** * EntitlementsFacts: who is let in

    The concurrent evaluation of a rule agrees with the rule read as a formula,
    whatever the order in which its checks settle; checks of balances compare
    the sum over all wallets with the threshold. *)

From Stdlib Require Import Strings.Byte.
From S2P Require Import Prelude JsLib Ids IdsFacts Fixtures RuleTrees RuleTreesFacts Entitlements.

Section Facts.
Context `{EthLib, AbiLib, Chains}.

(** ** Joins *)

Definition granted (o : Outcome) : bool := match o with Resolved a => isValidAddress a | _ => false end.
Definition rejected (o : Outcome) : bool := match o with Rejected _ => true | _ => false end.
Definition resolved (o : Outcome) : bool := match o with Resolved _ => true | _ => false end.

Lemma zero_invalid : isValidAddress zeroAddress = false.
Proof. unfold isValidAddress. by rewrite String.eqb_refl, andb_false_r. Qed.

Lemma and_granted first l r : granted (evaluateAndOperation first l r) = granted l && granted r.
Proof.
  destruct first, l as [a| |], r as [b| |]; unfold evaluateAndOperation, race, settle; simpl; try done;
    try destruct (isValidAddress a) eqn:Ha; try destruct (isValidAddress b) eqn:Hb; simpl;
    rewrite ?Ha, ?Hb, ?zero_invalid; simpl; rewrite ?Ha, ?Hb, ?zero_invalid; done.
Qed.
Lemma or_granted first l r :
  (granted (evaluateOrOperation first l r) = true → granted l || granted r = true)
  ∧ (rejected l = false → rejected r = false → granted (evaluateOrOperation first l r) = granted l || granted r).
Proof.
  destruct first, l as [a| |], r as [b| |]; unfold evaluateOrOperation, race, settle; simpl; try done;
    try destruct (isValidAddress a) eqn:Ha; try destruct (isValidAddress b) eqn:Hb; simpl;
    rewrite ?Ha, ?Hb, ?zero_invalid; simpl; rewrite ?Ha, ?Hb, ?zero_invalid; done.
Qed.
Lemma join_rejected first l r :
  (rejected (evaluateAndOperation first l r) = true → rejected l || rejected r = true)
  ∧ (rejected (evaluateOrOperation first l r) = true → rejected l || rejected r = true).
Proof.
  destruct first, l as [a| |], r as [b| |]; unfold evaluateAndOperation, evaluateOrOperation, race, settle; simpl;
    try done; try destruct (isValidAddress a) eqn:Ha; try destruct (isValidAddress b) eqn:Hb; done.
Qed.
Lemma join_resolved first l r : resolved l = true → resolved r = true →
  resolved (evaluateAndOperation first l r) = true ∧ resolved (evaluateOrOperation first l r) = true.
Proof.
  destruct first, l as [a| |], r as [b| |]; try done; intros _ _;
    unfold evaluateAndOperation, evaluateOrOperation, race, settle; simpl;
    destruct (isValidAddress a) eqn:Ha; destruct (isValidAddress b) eqn:Hb; done.
Qed.

(** ** Rules as formulas *)

Fixpoint holds (passes : CheckOperationV2 → bool) (t : Operation) : bool :=
  match t with
  | Op_check c => passes c
  | Op_logical LT_AND l r => holds passes l && holds passes r
  | Op_logical LT_OR l r => holds passes l || holds passes r
  | _ => false
  end.

(** A complete tree of checks, ANDs and ORs *)
Fixpoint isRule (t : Operation) : bool :=
  match t with
  | Op_check _ => true
  | Op_logical (LT_AND | LT_OR) l r => isRule l && isRule r
  | _ => false
  end.

Lemma rule_present l r : isRule l = true → isRule r = true →
  match l, r with Op_undefined, _ | _, Op_undefined => true | _, _ => false end = false.
Proof. by destruct l, r. Qed.

Section Tree.
Context (run : Run) (wallets : list string).

(** No check of a list has a bad outcome, wherever it stands. *)
Definition never (bad : Outcome → bool) (l : list CheckOperationV2) : Prop :=
  ∀ c path, c ∈ l → bad (evaluateCheckOperation run path wallets c) = false.

Lemma never_app bad l1 l2 : never bad (l1 ++ l2) → never bad l1 ∧ never bad l2.
Proof. intros Hj. split; intros c path Hc; apply Hj; set_solver. Qed.

Lemma tree_not_rejected t path : isRule t = true → never rejected (checks t) →
  rejected (evaluateTree run path wallets t) = false.
Proof.
  revert path. induction t as [c|ty l IHl r IHr| |]; intros path Ht Hn; try done.
  - apply Hn. by left.
  - simpl checks in Hn. apply never_app in Hn as [Hnl Hnr]. apply not_true_iff_false. intros Hrej.
    destruct ty; try done; simpl in Ht; apply andb_true_iff in Ht as [Hl Hr]; simpl in Hrej;
      rewrite rule_present in Hrej by done; apply join_rejected in Hrej; by rewrite IHl, IHr in Hrej.
Qed.

Lemma tree_resolved t path : isRule t = true → never (λ o, negb (resolved o)) (checks t) →
  resolved (evaluateTree run path wallets t) = true.
Proof.
  revert path. induction t as [c|ty l IHl r IHr| |]; intros path Ht Hn; try done.
  - apply negb_false_iff, (Hn c path). by left.
  - simpl checks in Hn. apply never_app in Hn as [Hnl Hnr].
    destruct ty; try done; simpl in Ht; apply andb_true_iff in Ht as [Hl Hr]; simpl; rewrite rule_present by done;
      apply join_resolved; auto.
Qed.

Context (passes : CheckOperationV2 → bool).

(** The verdicts on checks, wherever they stand *)
Definition judged (l : list CheckOperationV2) : Prop :=
  ∀ c path, c ∈ l → granted (evaluateCheckOperation run path wallets c) = passes c.
Lemma judged_app l1 l2 : judged (l1 ++ l2) → judged l1 ∧ judged l2.
Proof. intros Hj. split; intros c path Hc; apply Hj; set_solver. Qed.

Lemma tree_sound t path : isRule t = true → judged (checks t) →
  granted (evaluateTree run path wallets t) = true → holds passes t = true.
Proof.
  revert path. induction t as [c|ty l IHl r IHr| |]; intros path Ht Hj; try done.
  - simpl. intros Hg. rewrite <- (Hj c path); [done|]. by left.
  - simpl checks in Hj. apply judged_app in Hj as [Hjl Hjr].
    destruct ty; try done; simpl in Ht; apply andb_true_iff in Ht as [Hl Hr]; simpl; rewrite rule_present by done.
    + rewrite and_granted. intros [G1 G2]%andb_true_iff. apply andb_true_iff. eauto.
    + intros [G|G]%or_granted%orb_true_iff; apply orb_true_iff; eauto.
Qed.

Lemma tree_exact t path : isRule t = true → judged (checks t) → never rejected (checks t) →
  granted (evaluateTree run path wallets t) = holds passes t.
Proof.
  revert path. induction t as [c|ty l IHl r IHr| |]; intros path Ht Hj Hn; try done.
  - apply Hj. by left.
  - simpl checks in Hj, Hn. apply judged_app in Hj as [Hjl Hjr]. apply never_app in Hn as [Hnl Hnr].
    destruct ty; try done; simpl in Ht; apply andb_true_iff in Ht as [Hl Hr]; simpl; rewrite rule_present by done.
    + by rewrite and_granted, IHl, IHr.
    + rewrite (proj2 (or_granted _ _ _)) by (by apply tree_not_rejected). by rewrite IHl, IHr.
Qed.
End Tree.

(** ** Verdicts of checks do not depend on the run *)

(** The calls for the wallets settle in some order. *)
Definition settles (run : Run) : Prop := ∀ path wallets, settling run path wallets ≡ₚ wallets.
(** In the order of the wallets, with nothing aborted *)
Definition inOrder : Run := {| leftFirst := λ _, true; aborted := λ _, false; settling := λ _ l, l |}.

Lemma anyEntitled_cases c l hangs :
  let says w := isEntitled (cv_chainId c) (cv_contractAddress c) w (cv_params c) in
  (∃ w, w ∈ l ∧ says w = Returns true ∧ anyEntitled c l hangs = Resolved w)
  ∨ (∀ w, w ∈ l → says w ≠ Returns true)
    ∧ anyEntitled c l hangs = if hangs || existsb (λ w, match says w with Hangs => true | _ => false end) l
                             then Pending else Resolved zeroAddress.
Proof.
  intros says. revert hangs. induction l as [|w l IH]; intros hangs; simpl.
  - right. rewrite orb_false_r. split; [set_solver|done].
  - unfold says in *.
    assert (Hskip : ∀ h, isEntitled (cv_chainId c) (cv_contractAddress c) w (cv_params c) ≠ Returns true →
      (∃ w0, w0 ∈ w :: l ∧ isEntitled (cv_chainId c) (cv_contractAddress c) w0 (cv_params c) = Returns true
        ∧ anyEntitled c l h = Resolved w0)
      ∨ (∀ w0, w0 ∈ w :: l → isEntitled (cv_chainId c) (cv_contractAddress c) w0 (cv_params c) ≠ Returns true)
        ∧ anyEntitled c l h = if h || existsb (λ w0, match isEntitled (cv_chainId c) (cv_contractAddress c) w0
             (cv_params c) with Hangs => true | _ => false end) l then Pending else Resolved zeroAddress).
    { intros h Hw. destruct (IH h) as [(w' & Hin & Hs & E)|[Hn E]];
        [left; exists w'; split_and!; [by right|done|done]|right; split; [|done]].
      intros w' [->|Hin]%elem_of_cons; auto. }
    destruct (isEntitled _ _ w _) as [[]| |] eqn:Hw; [left; exists w; split_and!; [by left|done|done]| | |].
    + by apply Hskip.
    + by apply Hskip.
    + rewrite orb_true_r. by apply Hskip.
Qed.

Lemma anyEntitled_perm c l1 l2 : l1 ≡ₚ l2 → Forall (λ w, isValidAddress w = true) l1 →
  granted (anyEntitled c l1 false) = granted (anyEntitled c l2 false)
  ∧ rejected (anyEntitled c l1 false) = rejected (anyEntitled c l2 false)
  ∧ resolved (anyEntitled c l1 false) = resolved (anyEntitled c l2 false).
Proof.
  intros Hp Hv. rewrite Forall_forall in Hv.
  assert (Hin : ∀ w, w ∈ l1 ↔ w ∈ l2) by (intros w; by rewrite Hp).
  assert (Hex : ∀ f : string → bool, existsb f l1 = existsb f l2).
  { intros f. apply eq_true_iff_eq. rewrite !existsb_exists. setoid_rewrite <- list_elem_of_In. naive_solver. }
  destruct (anyEntitled_cases c l1 false) as [(w1 & Hw1 & Hs1 & ->)|[Hn1 ->]],
    (anyEntitled_cases c l2 false) as [(w2 & Hw2 & Hs2 & ->)|[Hn2 ->]].
  - simpl. rewrite (Hv w1), (Hv w2) by naive_solver. done.
  - exfalso. apply (Hn2 w1); naive_solver.
  - exfalso. apply (Hn1 w2); naive_solver.
  - by rewrite Hex.
Qed.

(** Two runs agree on a check that is not a mock. *)
Lemma check_agrees run path wallets c :
  settles run → Forall (λ w, isValidAddress w = true) wallets → cv_checkType c ≠ CT_MOCK →
  let o := evaluateCheckOperation run path wallets c in
  let o' := evaluateCheckOperation inOrder [] wallets c in
  granted o = granted o' ∧ rejected o = rejected o' ∧ resolved o = resolved o'.
Proof.
  intros Hs Hv Hm. unfold evaluateCheckOperation. destruct (cv_checkType c); try done.
  destruct (checkParams c); [|done]. simpl. unfold withProvider. destruct (negb _); [done|].
  destruct (ready _); try done. simpl. apply anyEntitled_perm; [apply Hs|].
  by rewrite (Hs path wallets).
Qed.

(** ** Balances *)

Definition balance (c : Call Z) : Z := match c with Returns b => b | _ => 0 end.
(** What the wallets hold together *)
Definition held (calls : list (string * Call Z)) : Z := foldr (λ x acc, Z.max 0 (balance x.2) + acc) 0 calls.
Definition answers (calls : list (string * Call Z)) : Prop := Forall (λ x, x.2 ≠ Hangs) calls.

Lemma allBalances_answers calls : answers calls →
  allBalances calls = Some ((λ x, (x.1, balance x.2)) <$> calls).
Proof.
  induction 1 as [|[w c] calls Hc _ IH]; [done|]. simpl. rewrite IH. simpl. by destruct c.
Qed.

Lemma sumBalances_held calls :
  sumBalances (List.filter (λ b, 0 <? b.2) ((λ x, (x.1, balance x.2)) <$> calls)) = held calls.
Proof.
  unfold sumBalances. enough (Hg : ∀ acc, foldl (λ acc el, acc + el.2) acc
    (List.filter (λ b : string * Z, 0 <? b.2) ((λ x, (x.1, balance x.2)) <$> calls)) = acc + held calls) by apply (Hg 0).
  induction calls as [|[w c] calls IH]; intros acc; simpl; [lia|].
  destruct (Z.ltb_spec 0 (balance c)); simpl; rewrite IH; lia.
Qed.

Lemma balancesReach_spec n calls : 0 < n → answers calls →
  ∃ a, balancesReach n calls = Resolved a
  ∧ if n <=? held calls then ∃ b, (a, Returns b) ∈ calls ∧ 0 < b else a = zeroAddress.
Proof.
  intros Hn Ha. unfold balancesReach. rewrite allBalances_answers by done. rewrite sumBalances_held.
  destruct (List.filter _ _) as [|[w b] l] eqn:Ef.
  - pose proof (sumBalances_held calls) as Hh. rewrite Ef in Hh. exists zeroAddress. split; [done|].
    change (0 = held calls) in Hh. by rewrite (proj2 (Z.leb_gt n (held calls))) by lia.
  - eexists. split; [done|]. destruct (n <=? held calls); [|done].
    assert (Hin : (w, b) ∈ List.filter (λ b : string * Z, 0 <? b.2) ((λ x, (x.1, balance x.2)) <$> calls))
      by (rewrite Ef; by left).
    apply list_elem_of_In, filter_In in Hin as [Hin Hb]. apply Z.ltb_lt in Hb. simpl in Hb.
    apply list_elem_of_In, list_elem_of_fmap in Hin as ([w' c] & [= -> ->] & Hin).
    destruct c as [b'| |]; simpl in Hb; try lia. by exists b'.
Qed.

(** The threshold of a check of balances and the calls it makes *)
Definition queries (c : CheckOperationV2) (wallets : list string) : Res (Z * list (string * Call Z)) :=
  match cv_checkType c with
  | CT_ERC20 | CT_ERC721 =>
      n ← decodeThresholdParams (cv_params c);
      Ok (n, (λ w, (w, balanceOf (cv_chainId c) (cv_contractAddress c) w)) <$> wallets)
  | CT_ERC1155 =>
      r ← decodeERC1155Params (cv_params c);
      Ok (r.1, (λ w, (w, balanceOf1155 (cv_chainId c) (cv_contractAddress c) w r.2)) <$> wallets)
  | CT_ETH_BALANCE =>
      n ← decodeThresholdParams (cv_params c);
      Ok (n, wallets ≫= λ w, (λ p, (w, getBalance p w)) <$> List.filter supported etherNativeNetworkIds)
  | _ => Throw (PlainError "")
  end.
(** Its chains are supported and their nodes are ready. *)
Definition connected (c : CheckOperationV2) : bool :=
  let up chainId := match ready chainId with Returns _ => true | _ => false end in
  match cv_checkType c with
  | CT_ETH_BALANCE =>
      let providers := List.filter supported etherNativeNetworkIds in
      negb (length providers =? 0)%nat && forallb up providers
  | _ => supported (cv_chainId c) && up (cv_chainId c)
  end.

Lemma withEtherProviders_up k :
  (let providers := List.filter supported etherNativeNetworkIds in
   negb (length providers =? 0)%nat
   && forallb (λ chainId, match ready chainId with Returns _ => true | _ => false end) providers = true) →
  withEtherProviders k = k (List.filter supported etherNativeNetworkIds).
Proof.
  unfold withEtherProviders, allReady. cbv zeta. set (l := List.filter supported etherNativeNetworkIds).
  intros [Hl Hup]%andb_true_iff. apply negb_true_iff in Hl. rewrite Hl.
  assert (Hex : ∀ f : Z → bool, (∀ x, (match ready x with Returns _ => true | _ => false end) = true → f x = false) →
    existsb f l = false).
  { intros f Hf. apply not_true_iff_false. intros (x & Hin & Hx)%existsb_exists. rewrite forallb_forall in Hup.
    specialize (Hf x (Hup x Hin)). congruence. }
  rewrite !Hex; [done|..]; intros x; by destruct (ready x).
Qed.

Lemma withProvider_up chainId k :
  supported chainId && match ready chainId with Returns _ => true | _ => false end = true →
  withProvider chainId k = k.
Proof. unfold withProvider. intros [-> Hr]%andb_true_iff. simpl. by destruct (ready chainId). Qed.

Lemma queries_evaluated run path wallets c n calls :
  checkParams c = Ok tt → connected c = true → queries c wallets = Ok (n, calls) →
  0 < n ∧ evaluateCheckOperation run path wallets c = balancesReach n calls.
Proof.
  intros Hp Hc Hq. pose proof Hp as Hp'. unfold queries in Hq. unfold evaluateCheckOperation, connected in *.
  unfold checkParams in Hp'. destruct (cv_checkType c) eqn:Et; try done; rewrite Hp; cbn [ofRes];
    rewrite ?withProvider_up, ?withEtherProviders_up by done;
    unfold evaluateTokenOperation, evaluateERC1155Operation, evaluateEthBalanceOperation; clear Hc.
  1,2,4: destruct (decodeThresholdParams _) as [m|]; [|done]; simpl in Hp', Hq; simplify_eq;
    destruct (Z.leb_spec n 0); [by repeat case_match|]; split; [lia|done].
  destruct (decodeERC1155Params _) as [[m tk]|]; [|done]. simpl in Hp', Hq. simplify_eq.
  destruct (Z.leb_spec n 0); [by repeat case_match|]. split; [lia|done].
Qed.

Lemma checkOperation_type op c : checkOperation op = Ok (Op_check c) → cv_checkType c = dc_type op.
Proof.
  unfold checkOperation. intros E. match type of E with (?m ≫= _) = _ => destruct m; [|done] end.
  simpl in E. by injection E as <-.
Qed.

(** A tree joined by one operator, as a formula *)
Lemma holds_joined (any : bool) passes t :
  complete t = true → joinedBy (if any then LT_OR else LT_AND) t = true →
  isRule t = true
  ∧ holds passes t = if any then existsb passes (checks t) else forallb passes (checks t).
Proof.
  induction t as [c|ty l IHl r IHr| |]; intros Hc Hj; try done; simpl in *.
  - split; [done|]. destruct any; by rewrite ?orb_false_r, ?andb_true_r.
  - apply andb_true_iff in Hc as [Hl Hr]. apply andb_true_iff in Hj as [[Hty Hjl]%andb_true_iff Hjr].
    apply bool_decide_eq_true in Hty. subst ty. destruct (IHl Hl Hjl) as [R1 E1], (IHr Hr Hjr) as [R2 E2].
    destruct any; rewrite R1, R2, E1, E2, ?existsb_app, ?forallb_app; done.
Qed.

(** ** The theorems *)

(** C21. The concurrent evaluation of a rule means what the rule says. Take wallets
    that are addresses and a rule of checks other than mocks, joined by AND and
    OR, and say that a check passes when it resolves to a wallet. Whatever
    settles first: a user is only let in when the rule, read as a formula, holds,
    even if checks fail or never answer; if no check rejects, a user is let in
    exactly when it holds; and if every check resolves, so does the rule. *)
Theorem evaluation_refines_rule run wallets t :
  settles run → Forall (λ w, isValidAddress w = true) wallets →
  isRule t = true → Forall (λ c, cv_checkType c ≠ CT_MOCK) (checks t) →
  let verdict c := evaluateCheckOperation inOrder [] wallets c in
  let rule := holds (λ c, granted (verdict c)) t in
  let outcome := evaluateTree run [] wallets t in
  (granted outcome = true → rule = true)
  ∧ (Forall (λ c, rejected (verdict c) = false) (checks t) → granted outcome = rule)
  ∧ (Forall (λ c, resolved (verdict c) = true) (checks t) → resolved outcome = true).
Proof.
  intros Hs Hv Ht Hm verdict rule outcome. rewrite Forall_forall in Hm.
  assert (Hj : judged run wallets (λ c, granted (verdict c)) (checks t)).
  { intros c path Hc. apply (check_agrees run path wallets c Hs Hv (Hm c Hc)). }
  split_and!.
  - apply (tree_sound run wallets _ t [] Ht Hj).
  - intros Hn. apply (tree_exact run wallets _ t [] Ht Hj). rewrite Forall_forall in Hn. intros c path Hc.
    rewrite <- (Hn c Hc). apply (check_agrees run path wallets c Hs Hv (Hm c Hc)).
  - intros Hr. apply (tree_resolved run wallets t [] Ht). rewrite Forall_forall in Hr. intros c path Hc.
    apply negb_false_iff. rewrite <- (Hr c Hc). apply (check_agrees run path wallets c Hs Hv (Hm c Hc)).
Qed.

(** A check of balances adds up what all wallets hold. When its parameters are
    valid and the chains are reachable, and every call returns or fails (a failed
    call counts as nothing), the check resolves: to a wallet that holds something
    if the sum reaches the threshold, to the zero address otherwise. *)
Theorem balance_check run path wallets c n calls :
  checkParams c = Ok tt → connected c = true → queries c wallets = Ok (n, calls) → answers calls →
  0 < n ∧ ∃ a, evaluateCheckOperation run path wallets c = Resolved a
  ∧ if n <=? held calls then ∃ b, (a, Returns b) ∈ calls ∧ 0 < b else a = zeroAddress.
Proof.
  intros Hp Hc Hq Ha. destruct (queries_evaluated run path wallets c n calls Hp Hc Hq) as [Hn ->].
  split; [done|]. by apply balancesReach_spec.
Qed.

(** C28. From a list of requirements to the decision: a rule is made from checks
    with "any" or "all", stored, read back and evaluated. When no check rejects,
    the user is let in exactly when some, respectively every, check passes. *)
Theorem created_rule_grants `{!AbiLaws} run wallets ops (any : bool) :
  settles run → Forall (λ w, isValidAddress w = true) wallets →
  ops ≠ [] → Forall (λ op, encodable op = true) ops →
  let verdict c := evaluateCheckOperation inOrder [] wallets c in
  ∃ cs d operations, traverse checkOperation ops = Ok (Op_check <$> cs)
  ∧ createOperationsTree ops (if any then LT_OR else LT_AND) = Ok d
  ∧ ruleDataToOperations d = Ok operations
  ∧ (Forall (λ c, rejected (verdict c) = false) cs →
     granted (evaluateOperationsForEntitledWallet run operations wallets)
     = if any then existsb (λ c, granted (verdict c)) cs else forallb (λ c, granted (verdict c)) cs).
Proof.
  intros Hs Hv Hne He verdict. destruct (checks_encoded ops He) as (cs & E & _).
  destruct (created_tree ops cs (if any then LT_OR else LT_AND) Hne E) as (t & d & Hcr & T & Hc & Hj & Hcs & _).
  destruct (tree_decoded t d Hc T) as [Hd Ht]. destruct (holds_joined any (λ c, granted (verdict c)) t Hc Hj) as [Hr Hh].
  exists cs, d, (subtrees t). split_and!; [done..|]. intros Hn. rewrite <- Hcs in *. rewrite <- Hh.
  unfold evaluateOperationsForEntitledWallet. destruct (subtrees_last t) as [s Hsub].
  destruct (subtrees t) as [|x l] eqn:Es; [by destruct s|]. rewrite <- Es in *. rewrite Ht. simpl.
  set (run' := {| leftFirst := _; aborted := _; settling := _ |}).
  assert (Hs' : settles run') by (intros p l'; apply Hs).
  assert (Hm : ∀ c, c ∈ checks t → cv_checkType c ≠ CT_MOCK).
  { intros c Hin Hmock. apply traverse_ok in E.
    destruct (list_elem_of_lookup_1 _ _ Hin) as [i Hi].
    destruct (Forall2_lookup_r _ _ _ i (Op_check c) E) as (op & Hop & Hco); [by rewrite list_lookup_fmap, Hi|].
    rewrite Forall_forall in He. specialize (He op ltac:(by eapply list_elem_of_lookup_2)).
    unfold encodable in He. by rewrite <- (checkOperation_type op c Hco), Hmock in He. }
  rewrite Forall_forall in Hn. apply (tree_exact run' wallets (λ c, granted (verdict c)) t [] Hr); intros c p Hin.
  - apply (check_agrees run' p wallets c Hs' Hv (Hm c Hin)).
  - rewrite <- (Hn c Hin). apply (check_agrees run' p wallets c Hs' Hv (Hm c Hin)).
Qed.
End Facts.

Module EntitlementsWitness.
Import ModelEth Fixtures ModelAbi.

(** Two chains, one of them unsupported; the first user holds 2 of every token,
    the second 3, and calls for the third fail. *)
#[export] Instance chains : Chains := {|
  supported := λ chainId, chainId =? 1;
  etherNativeNetworkIds := [1; 2];
  ready := λ _, Returns tt;
  balanceOf := λ _ _ w, if String.eqb w (user x01) then Returns 2 else if String.eqb w (user x02) then Returns 3 else Fails;
  balanceOf1155 := λ _ _ w _, Returns 0;
  getBalance := λ _ _, Returns 0;
  isEntitled := λ _ _ w _, Returns (String.eqb w (user x02));
|}.

Definition threshold (n : Z) : CheckOperationV2 :=
  {| cv_checkType := CT_ERC20; cv_chainId := 1; cv_contractAddress := "0xaa"; cv_params := digits n |}.
Definition remoteCheck : CheckOperationV2 :=
  {| cv_checkType := CT_ISENTITLED; cv_chainId := 1; cv_contractAddress := "0xaa"; cv_params := "" |}.
Definition both : Operation := Op_logical LT_AND (Op_check (threshold 5)) (Op_check remoteCheck).
(** The right side settles first, the last wallet before the others. *)
Definition backwards : Run := {| leftFirst := λ _, false; aborted := λ _, true; settling := λ _ l, reverse l |}.

Lemma backwards_settles : settles backwards.
Proof. intros path l. apply reverse_Permutation. Qed.

Lemma evaluation_refines_rule_witness :
  granted (evaluateTree backwards [] [user x01; user x02; user x03] both) = true.
Proof.
  destruct (evaluation_refines_rule backwards [user x01; user x02; user x03] both) as (_ & He & _).
  - apply backwards_settles.
  - repeat constructor.
  - reflexivity.
  - repeat constructor; discriminate.
  - rewrite He; [vm_compute; reflexivity|]. repeat constructor.
Defined.

Lemma balance_check_witness :
  ∃ a, evaluateCheckOperation backwards [] [user x01; user x02; user x03] (threshold 6) = Resolved a ∧ a = zeroAddress.
Proof.
  destruct (balance_check backwards [] [user x01; user x02; user x03] (threshold 6) 6
    [(user x01, Returns 2); (user x02, Returns 3); (user x03, Fails)]) as (_ & a & E & Ha).
  - vm_compute; reflexivity.
  - reflexivity.
  - vm_compute; reflexivity.
  - repeat constructor; discriminate.
  - exists a. by split.
Defined.

Definition tokens (n : Z) : DecodedCheckOperation := {|
  dc_type := CT_ERC20; dc_chainId := Some 1; dc_address := Some "0xaa"; dc_threshold := Some n;
  dc_tokenId := None; dc_byteEncodedParams := None |}.

Lemma created_rule_grants_witness :
  ∃ d operations, createOperationsTree [tokens 6; tokens 7; tokens 5] LT_OR = Ok d
  ∧ ruleDataToOperations d = Ok operations
  ∧ granted (evaluateOperationsForEntitledWallet backwards operations [user x01; user x02]) = true.
Proof.
  destruct (created_rule_grants backwards [user x01; user x02] [tokens 6; tokens 7; tokens 5] true)
    as (cs & d & operations & E & Hd & Ho & Hg).
  - apply backwards_settles.
  - repeat constructor.
  - discriminate.
  - repeat constructor.
  - exists d, operations. split_and!; [done..|].
    assert (Ecs : cs = [threshold 6; threshold 7; threshold 5]).
    { assert (E' : traverse checkOperation [tokens 6; tokens 7; tokens 5]
        = Ok (Op_check <$> [threshold 6; threshold 7; threshold 5])) by (vm_compute; reflexivity).
      rewrite E' in E. destruct cs as [|c1 [|c2 [|c3 [|]]]]; try discriminate E. by injection E as <- <- <-. }
    subst cs. rewrite Hg; [vm_compute; reflexivity|]. repeat constructor.
Defined.

(** A mock check passes by itself, and never through the entry point, which
    aborts it. *)
Definition mock : CheckOperationV2 :=
  {| cv_checkType := CT_MOCK; cv_chainId := 1; cv_contractAddress := "0xaa"; cv_params := digits 10 |}.
Lemma mock_always_aborted run wallets :
  evaluateCheckOperation inOrder [] wallets mock = Resolved MOCK_ADDRESS
  ∧ evaluateOperationsForEntitledWallet run [Op_check mock] wallets = Resolved zeroAddress.
Proof. split; reflexivity. Qed.

(** A failing side of an OR decides the outcome when it settles first. *)
Lemma or_depends_on_order e :
  evaluateOrOperation true (Rejected e) (Resolved (user x01)) = Rejected e
  ∧ evaluateOrOperation false (Rejected e) (Resolved (user x01)) = Resolved (user x01).
Proof. split; vm_compute; reflexivity. Qed.
End EntitlementsWitness.
