(* ===== verification/Sign.v ===== *)
(** * Sign: making, signing and checking envelopes
    (sdk/src/sign.ts, sdk/src/signerContext.ts)

    An event travels as an [Envelope]: its bytes, their hash, and a signature of
    the hash by its creator or by a key the creator delegated to. The curve
    arithmetic, the signing of Ethereum messages, SHA-256 and the protobuf codec
    are third-party code: the classes [CryptoLib] and [EnvelopeCodec]. Random
    salts, random wallets and the clock are arguments. *)

From Stdlib Require Import Ascii Strings.Byte.
From S2P Require Import Prelude JsLib Ids Utils Proto Types.

(** ** Third-party code *)

(** An [ethers.Wallet]: private and public key in hex with 0x *)
Record Wallet := { wl_privateKey : string; wl_publicKey : string }.
(** An [ethers.Signer] *)
Record Signer := { sg_signMessage : bytes → Res string; sg_getAddress : Res string }.

Class CryptoLib := {
  (** @noble/hashes *)
  sha256 : bytes → bytes;
  (** [secp256k1.sign(hash, privateKey)]: [toCompactRawBytes()] and [recovery] *)
  secp_sign : bytes → string → Res (bytes * option byte);
  (** [new Signature(r, s).addRecoveryBit(id).recoverPublicKey(hash).toRawBytes(false)] *)
  secp_recover : Z → Z → byte → bytes → Res bytes;
  secp_verify : bytes → bytes → bytes → bool;
  (** @ethereumjs/util *)
  hashPersonalMessage : bytes → bytes;
  fromRPCSig : string → Res (Z * bytes * bytes);
  ecrecover : bytes → Z → bytes → bytes → Res bytes;
  (** [new ethers.Wallet(privateKey)] *)
  newWallet : string → Res Wallet;
}.

Class EnvelopeCodec := {
  streamEvent_toBinary : StreamEvent → bytes;
  streamEvent_fromBinary : bytes → Res StreamEvent;
  snapshot_fromBinary : bytes → Res Snapshot;
  bearerToken_toBinary : BearerToken → bytes;
  bearerToken_fromBinary : bytes → Res BearerToken;
}.

(** ** Bytes *)

(** What is stored when a number is assigned to an element of a [Uint8Array] *)
Definition toByte (n : Z) : byte := default x00 (Byte.of_N (Z.to_N (Z.land n 255))).

(** The loop of [numberToUint8Array64LE]. [num >>> 8] takes [num] modulo 2^32,
    so that four rounds are enough. *)
Fixpoint numberToUint8Array64LE_loop (fuel : nat) (num : Z) : bytes :=
  match fuel with
  | O => []
  | S fuel => if num =? 0 then [] else toByte num :: numberToUint8Array64LE_loop fuel (Z.shiftr (num mod 2 ^ 32) 8)
  end.
Definition numberToUint8Array64LE (num : Z) : bytes :=
  let written := numberToUint8Array64LE_loop 8 num in
  written ++ replicate (8 - length written) x00.

(** [setBigInt64]: the low 64 bits *)
Definition bigintToUint8Array64 (num : Z) (littleEndian : bool) : bytes :=
  let le := (λ i, toByte (Z.shiftr (num mod 2 ^ 64) (8 * Z.of_nat i))) <$> seq 0 8 in
  if littleEndian then le else reverse le.

Definition pushByteToUint8Array (arr : bytes) (b : byte) : bytes := arr ++ [b].

(** [abytes(b, ...lengths)] of @noble/hashes *)
Definition abytes (b : bytes) (lengths : list nat) : Res unit :=
  if bool_decide (lengths = []) || bool_decide (length b ∈ lengths) then Ok tt
  else Throw (PlainError "Uint8Array expected of length").

Definition hasElements {A} (value : list A) : bool := (0 <? length value)%nat.

Definition hex_digit (c : ascii) : option Z :=
  let n := Z.of_nat (nat_of_ascii c) in
  if (48 <=? n) && (n <=? 57) then Some (n - 48)
  else if (97 <=? n) && (n <=? 102) then Some (n - 87)
  else if (65 <=? n) && (n <=? 70) then Some (n - 55)
  else None.
(** [BigInt('0x' + hex)] *)
Fixpoint hex_value (acc : Z) (hex : string) : option Z :=
  match hex with
  | "" => Some acc
  | String c hex => d ← hex_digit c; hex_value (16 * acc + d) hex
  end.
Definition hexToNumber (hex : string) : Res Z :=
  match hex_value 0 hex with
  | Some n => Ok n
  | None => Throw (SyntaxError "Cannot convert to a BigInt")
  end.

Definition HASH_HEADER : bytes := toByte <$> [67; 83; 66; 76; 65; 78; 67; 65].
Definition HASH_SEPARATOR : bytes := toByte <$> [65; 66; 67; 68; 69; 70; 71; 62].
Definition HASH_FOOTER : bytes := toByte <$> [60; 71; 70; 69; 68; 67; 66; 65].
Definition RIVER_SIG_HEADER : bytes := toByte <$> [82; 73; 86; 69; 82; 83; 73; 71].
Definition SNAPSHOT_HEADER : bytes := toByte <$> [83; 78; 65; 80; 83; 72; 79; 84].

(** What [riverHash] and [riverSnapshotHash] feed to the hasher *)
Definition framed (header data : bytes) : bytes :=
  header ++ numberToUint8Array64LE (Z.of_nat (length data)) ++ HASH_SEPARATOR ++ data ++ HASH_FOOTER.

Definition riverDelegateHashSrc (devicePublicKey : bytes) (expiryEpochMs : Z) : Res bytes :=
  _ ← checkR (0 <=? expiryEpochMs) "Expiry should be positive" ERR_UNSPECIFIED;
  _ ← checkR ((length devicePublicKey =? 64)%nat || (length devicePublicKey =? 65)%nat) "Bad public key"
        ERR_UNSPECIFIED;
  Ok (RIVER_SIG_HEADER ++ devicePublicKey ++ bigintToUint8Array64 expiryEpochMs true).

(** The data hashed by [notificationServiceHash] and [appRegistryHash] *)
Definition authData (PREFIX : string) (userId : bytes) (expiration : Z) (challenge : bytes) : Res bytes :=
  let expirationBytes := toByte <$> bigIntToBytes expiration in
  _ ← checkR (length userId =? 20)%nat "User ID should be 20 bytes" ERR_UNSPECIFIED;
  _ ← checkR (length challenge =? 16)%nat "Challenge should be 16 bytes" ERR_UNSPECIFIED;
  Ok (textEncode PREFIX ++ userId ++ expirationBytes ++ challenge).

(** ** The interfaces *)

Record UnpackEnvelopeOpts := { disableHashValidation : bool; disableSignatureValidation : bool }.

Record SignerContext := {
  sc_signerPrivateKey : string;
  sc_creatorAddress : bytes;
  sc_delegateSig : option bytes;
  sc_delegateExpiryEpochMs : option Z;
}.

Record ParsedSnapshot := {
  psn_snapshot : Snapshot;
  psn_hash : bytes;
  psn_hashStr : string;
  psn_signature : option bytes;
}.
Record ParsedStreamAndCookie := {
  psc_nextSyncCookie : SyncCookie;
  psc_miniblocks : list ParsedMiniblock;
  psc_events : list ParsedEvent;
  psc_snapshot : option ParsedSnapshot;
}.
Record ParsedStreamResponse := {
  psr_snapshot : Snapshot;
  psr_streamAndCookie : ParsedStreamAndCookie;
  psr_prevSnapshotMiniblockNum : Z;
  psr_eventIds : list string;
}.

Section Sign.
Context `{EthLib, CryptoLib, EnvelopeCodec}.

(** ** Hashes *)

Definition riverHash (data : bytes) : bytes := keccak256 (framed HASH_HEADER data).
Definition riverSnapshotHash (data : bytes) : bytes := keccak256 (framed SNAPSHOT_HEADER data).

Definition notificationServiceHash (userId : bytes) (expiration : Z) (challenge : bytes) : Res bytes :=
  data ← authData "NS_AUTH:" userId expiration challenge; Ok (sha256 data).
Definition appRegistryHash (userId : bytes) (expiration : Z) (challenge : bytes) : Res bytes :=
  data ← authData "AS_AUTH:" userId expiration challenge; Ok (sha256 data).

(** ** Keys and signatures *)

Definition checkSignature (signature : bytes) : Res unit := abytes signature [65%nat].
Definition checkHash (hash : bytes) : Res unit := abytes hash [32%nat].

Definition riverSign (hash : bytes) (privateKey : string) : Res bytes :=
  _ ← checkHash hash;
  '(sigBytes, recovery) ← secp_sign hash privateKey;
  match recovery with
  | None => Throw (PlainError "Signature recovery bit is undefined")
  | Some recovery => Ok (pushByteToUint8Array sigBytes recovery)
  end.

Definition riverVerifySignature (hash signature publicKey : bytes) : Res bool :=
  _ ← checkHash hash;
  _ ← checkSignature signature;
  Ok (secp_verify (take 64 signature) hash publicKey).

Definition bytesToNumberBE (b : bytes) : Res Z := hexToNumber (bin_toHexString b).

Definition riverRecoverPubKey (hash signature : bytes) : Res bytes :=
  _ ← checkHash hash;
  _ ← checkSignature signature;
  let rBytes := take 32 signature in
  let sBytes := take 32 (drop 32 signature) in
  let recoveryId := default x00 (signature !! 64%nat) in
  r ← bytesToNumberBE rBytes;
  s ← bytesToNumberBE sBytes;
  secp_recover r s recoveryId hash.

Definition publicKeyToAddress (publicKey : bytes) : Res bytes :=
  _ ← abytes publicKey [64%nat; 65%nat];
  let publicKey := if (length publicKey =? 65)%nat then drop 1 publicKey else publicKey in
  let digest := keccak256 publicKey in
  Ok (drop (length digest - 20) digest).

Definition publicKeyToUint8Array (publicKey : string) : Res bytes :=
  _ ← checkR (Str.startsWith publicKey "0x04" && (String.length publicKey =? 132)%nat) "Bad public key"
        BAD_PUBLIC_KEY;
  bin_fromHexString publicKey.

(** [typeof x === 'string' ? publicKeyToUint8Array(x) : x] *)
Definition keyBytes (x : StrOrBytes) : Res bytes :=
  match x with SStr s => publicKeyToUint8Array s | SBytes b => Ok b end.

(** ** Delegation *)

Definition recoverPublicKeyFromDelegateSig (delegatePubKey : StrOrBytes) (delegateSig : bytes)
    (expiryEpochMs : Z) : Res bytes :=
  delegatePubKey ← keyBytes delegatePubKey;
  hashSource ← riverDelegateHashSrc delegatePubKey expiryEpochMs;
  let hash := hashPersonalMessage hashSource in
  '(v, r, s) ← fromRPCSig ("0x" +:+ bin_toHexString delegateSig);
  recoveredCreatorPubKey ← ecrecover hash v r s;
  publicKeyToAddress recoveredCreatorPubKey.

Definition checkDelegateSig (delegatePubKey creatorAddress : StrOrBytes) (delegateSig : bytes)
    (expiryEpochMs : Z) : Res unit :=
  creatorAddress ← keyBytes creatorAddress;
  recoveredCreatorAddress ← recoverPublicKeyFromDelegateSig delegatePubKey delegateSig expiryEpochMs;
  checkR (bin_equal (Some recoveredCreatorAddress) (Some creatorAddress))
    "delegateSig does not match creatorAddress" BAD_DELEGATE_SIG.

Definition makeRiverDelegateSig (primaryWallet : Signer) (devicePubKey : StrOrBytes) (expiryEpochMs : Z)
    : Res bytes :=
  devicePubKey ← keyBytes devicePubKey;
  _ ← checkR (length devicePubKey =? 65)%nat "Bad public key" BAD_PUBLIC_KEY;
  hashSrc ← riverDelegateHashSrc devicePubKey expiryEpochMs;
  sig ← sg_signMessage primaryWallet hashSrc;
  bin_fromHexString sig.

(** An expiry as a time, or as whole numbers of days, hours, minutes and seconds
    from now *)
Inductive Expiry := ExpiresAt (epochMs : Z) | ExpiresIn (days hours minutes seconds : option Z).

Definition makeExpiryEpochMs (now : Z) (days hours minutes seconds : option Z) : Res Z :=
  let MS_PER_SECOND := 1000 in
  let MS_PER_MINUTE := MS_PER_SECOND * 60 in
  let MS_PER_HOUR := MS_PER_MINUTE * 60 in
  let MS_PER_DAY := MS_PER_HOUR * 24 in
  let delta := MS_PER_DAY * default 0 days + MS_PER_HOUR * default 0 hours
               + MS_PER_MINUTE * default 0 minutes + MS_PER_SECOND * default 0 seconds in
  _ ← checkR (negb (delta =? 0)) "Bad expiration, no values were set" ERR_UNSPECIFIED;
  Ok (now + delta).

Definition makeSignerContext (now : Z) (primaryWallet : Signer) (delegateWallet : Wallet)
    (inExpiryEpochMs : option Expiry) : Res SignerContext :=
  delegateExpiryEpochMs ← match default (ExpiresAt 0) inExpiryEpochMs with
                          | ExpiresAt t => Ok t
                          | ExpiresIn d h m s => makeExpiryEpochMs now d h m s
                          end;
  delegateSig ← makeRiverDelegateSig primaryWallet (SStr (wl_publicKey delegateWallet)) delegateExpiryEpochMs;
  creatorAddress ← sg_getAddress primaryWallet;
  creatorAddress ← bin_fromHexString creatorAddress;
  Ok {| sc_signerPrivateKey := Str.slice_from 2 (wl_privateKey delegateWallet);
        sc_creatorAddress := creatorAddress;
        sc_delegateSig := Some delegateSig;
        sc_delegateExpiryEpochMs := Some delegateExpiryEpochMs |}.

(** [delegateWallet] is the random wallet of [makeSignerDelegate]. *)
Definition makeBearerToken (now : Z) (delegateWallet : Wallet) (signer : Signer) (expiry : Expiry) : Res string :=
  signerContext ← makeSignerContext now signer delegateWallet (Some expiry);
  let bearerToken := {| btk_delegatePrivateKey := wl_privateKey delegateWallet;
                        btk_delegateSig := default [] (sc_delegateSig signerContext);
                        btk_expiryEpochMs := default 0 (sc_delegateExpiryEpochMs signerContext) |} in
  Ok (bin_toHexString (bearerToken_toBinary bearerToken)).

Definition makeSignerContextFromBearerToken (bearerTokenStr : string) : Res SignerContext :=
  b ← bin_fromHexString bearerTokenStr;
  bearerToken ← bearerToken_fromBinary b;
  delegateWallet ← newWallet (btk_delegatePrivateKey bearerToken);
  creatorAddress ← recoverPublicKeyFromDelegateSig (SStr (wl_publicKey delegateWallet))
                     (btk_delegateSig bearerToken) (btk_expiryEpochMs bearerToken);
  Ok {| sc_signerPrivateKey := Str.slice_from 2 (btk_delegatePrivateKey bearerToken);
        sc_creatorAddress := creatorAddress;
        sc_delegateSig := Some (btk_delegateSig bearerToken);
        sc_delegateExpiryEpochMs := Some (btk_expiryEpochMs bearerToken) |}.

(** ** Making envelopes *)

Definition makeEvent_impl (context : SignerContext) (payload : Payload) (salt : bytes) (now : Z)
    (prevMiniblockHash : option bytes) (prevMiniblockNum : option Z) (tags : option Tags) : Res Envelope :=
  let streamEvent := {|
    ev_creatorAddress := sc_creatorAddress context;
    ev_delegateSig := default [] (sc_delegateSig context);
    ev_salt := salt;
    ev_prevMiniblockHash := prevMiniblockHash;
    ev_createdAtEpochMs := now;
    ev_delegateExpiryEpochMs := if isDefined (sc_delegateSig context)
                                then default 0 (sc_delegateExpiryEpochMs context) else 0;
    ev_tags := tags;
    ev_prevMiniblockNum := prevMiniblockNum;
    ev_payload := payload |} in
  let event := streamEvent_toBinary streamEvent in
  let hash := riverHash event in
  signature ← riverSign hash (sc_signerPrivateKey context);
  Ok {| env_hash := hash; env_signature := signature; env_event := event |}.

(** [pl.case] and [pl.value.content.case] *)
Definition payload_set (payload : Payload) : bool := match payload with P_unset => false | _ => true end.
Definition content_set (payload : Payload) : bool :=
  match payload with
  | P_unset | P_memberPayload MP_unset | P_spacePayload SP_unset | P_channelPayload CP_unset
  | P_userPayload UP_unset | P_userSettingsPayload USP_unset | P_userMetadataPayload UMP_unset
  | P_userInboxPayload UIP_unset | P_mediaPayload MDP_unset | P_dmChannelPayload DMP_unset
  | P_gdmChannelPayload GDMP_unset | P_metadataPayload None => false
  | P_miniblockHeader header => mh_content header
  | _ => true
  end.

Definition makeEvent (context : SignerContext) (payload : Payload) (salt : bytes) (now : Z)
    (prevMiniblockHash : option bytes) (prevMiniblockNum : option Z) (tags : option Tags) : Res Envelope :=
  _ ← checkR (payload_set payload) "Payload can't be empty" BAD_PAYLOAD;
  _ ← checkR (content_set payload) "Payload content case can't be empty" BAD_PAYLOAD;
  _ ← match prevMiniblockHash with
      | Some h => checkR (length h =? 32)%nat "prevMiniblockHash should be 32 bytes" BAD_HASH_FORMAT
      | None => Ok tt
      end;
  _ ← match prevMiniblockNum with
      | Some n => checkR (0 <=? n) "prevMiniblockNum should be non-negative" BAD_PAYLOAD
      | None => Ok tt
      end;
  makeEvent_impl context payload salt now prevMiniblockHash prevMiniblockNum tags.

(** Salts and times come with the payloads. *)
Definition makeEvents (context : SignerContext) (payloads : list (Payload * bytes * Z))
    (prevMiniblockHash : option bytes) : Res (list Envelope) :=
  traverse (λ '(payload, salt, now), makeEvent context payload salt now prevMiniblockHash None None) payloads.

Definition makeEventRef (streamId : StrOrBytes) (event : Envelope) : Res EventRef :=
  id ← streamIdAsBytes streamId;
  Ok {| ref_streamId := id; ref_hash := env_hash event; ref_signature := env_signature event |}.
End Sign.
