(* ===== verification/Unpack.v ===== *)
(** * Unpack: checking and decoding what a node sends
    (sdk/src/sign.ts, [eventIdsFromSnapshot] of sdk/src/persistenceStore.ts)

    Everything here is asynchronous in the code but waits for nothing. When
    several miniblocks of a stream are bad, which of their errors is reported is
    up to [Promise.all]; the model reports the first. *)

From S2P Require Import Prelude JsLib Ids Proto Types Sign.

Section Unpack.
Context `{EthLib, CryptoLib, EnvelopeCodec}.

Definition checkEventSignature (creatorAddress delegateSig : bytes) (delegateExpiryEpochMs : Z)
    (hash signature : bytes) : Res unit :=
  recoveredPubKey ← riverRecoverPubKey hash signature;
  if negb (hasElements delegateSig) then
    address ← publicKeyToAddress recoveredPubKey;
    checkR (bin_equal (Some address) (Some creatorAddress)) "Event signature is not valid" BAD_EVENT_SIGNATURE
  else
    checkDelegateSig (SBytes recoveredPubKey) (SBytes creatorAddress) delegateSig delegateExpiryEpochMs.

(** ** Envelopes *)

(** [opts?.disableHashValidation !== true] and its like *)
Definition doCheckHash (opts : option UnpackEnvelopeOpts) : bool :=
  negb (default false (disableHashValidation <$> opts)).
Definition doCheckSignature (opts : option UnpackEnvelopeOpts) : bool :=
  negb (default false (disableSignatureValidation <$> opts)).

Definition unpackEnvelope (envelope : Envelope) (opts : option UnpackEnvelopeOpts) : Res ParsedEvent :=
  _ ← checkR (hasElements (env_event envelope)) "Event base is not set" BAD_EVENT;
  _ ← checkR (hasElements (env_hash envelope)) "Event hash is not set" BAD_EVENT;
  _ ← checkR (hasElements (env_signature envelope)) "Event signature is not set" BAD_EVENT;
  event ← streamEvent_fromBinary (env_event envelope);
  hash ← (if doCheckHash opts
          then let hash := riverHash (env_event envelope) in
               _ ← checkR (bin_equal (Some hash) (Some (env_hash envelope))) "Event id is not valid" BAD_EVENT_ID;
               Ok hash
          else Ok (env_hash envelope));
  _ ← (if doCheckSignature opts
       then checkEventSignature (ev_creatorAddress event) (ev_delegateSig event) (ev_delegateExpiryEpochMs event)
              hash (env_signature envelope)
       else Ok tt);
  makeParsedEvent event (env_hash envelope) (Some (env_signature envelope)).

Definition unpackEnvelopes (event : list Envelope) (opts : option UnpackEnvelopeOpts) : Res (list ParsedEvent) :=
  traverse (λ e, unpackEnvelope e opts) event.

(** ** Miniblocks *)

Definition unpackMiniblock (miniblock : Miniblock) (opts : option UnpackEnvelopeOpts) : Res ParsedMiniblock :=
  match mbk_header miniblock with
  | None => Throw (CodeException "Miniblock header is not set" ERR_UNSPECIFIED)
  | Some envelope =>
      header ← unpackEnvelope envelope opts;
      match ev_payload (pe_event header) with
      | P_miniblockHeader value =>
          events ← unpackEnvelopes (mbk_events miniblock) opts;
          Ok {| mb_hash := env_hash envelope; mb_header := value; mb_events := events ++ [header] |}
      | _ => Throw (CodeException "bad miniblock header: wrong case received" ERR_UNSPECIFIED)
      end
  end.

(** ** Snapshots *)

Definition makeParsedSnapshot (snapshot : Snapshot) (hash : bytes) (signature : option bytes) : ParsedSnapshot := {|
  psn_snapshot := snapshot; psn_hash := hash; psn_hashStr := bin_toHexString hash; psn_signature := signature |}.

Definition unpackSnapshot (miniblockHeader : option StreamEvent) (miniblockHeaderSnapshotHash : option bytes)
    (snapshot : Envelope) (opts : option UnpackEnvelopeOpts) : Res ParsedSnapshot :=
  _ ← checkR (hasElements (env_event snapshot)) "Snapshot base is not set" BAD_EVENT;
  _ ← checkR (hasElements (env_hash snapshot)) "Snapshot hash is not set" BAD_EVENT;
  _ ← checkR (hasElements (env_signature snapshot)) "Snapshot signature is not set" BAD_EVENT;
  _ ← checkR (isDefined miniblockHeaderSnapshotHash) "Miniblock header snapshot hash is not set" BAD_EVENT;
  _ ← checkR (bin_equal miniblockHeaderSnapshotHash (Some (env_hash snapshot)))
        "Snapshot hash does not match miniblock snapshot hash" BAD_EVENT_ID;
  _ ← (if doCheckHash opts
       then checkR (bin_equal (Some (riverSnapshotHash (env_event snapshot))) (Some (env_hash snapshot)))
              "Snapshot hash is not valid" BAD_EVENT_ID
       else Ok tt);
  _ ← (if doCheckSignature opts
       then match miniblockHeader with
            | None => Throw (CodeException "Miniblock header is not set" BAD_EVENT)
            | Some header => checkEventSignature (ev_creatorAddress header) (ev_delegateSig header)
                               (ev_delegateExpiryEpochMs header) (env_hash snapshot) (env_signature snapshot)
            end
       else Ok tt);
  value ← snapshot_fromBinary (env_event snapshot);
  Ok (makeParsedSnapshot value (env_hash snapshot) (Some (env_signature snapshot))).

(** ** Streams *)

(** [events.find((event) => event.event.payload.case === 'miniblockHeader')] *)
Definition findHeader (events : list ParsedEvent) : option MiniblockHeader :=
  head (omap (λ e, match ev_payload (pe_event e) with P_miniblockHeader h => Some h | _ => None end) events).

(** Which header goes with the snapshot: the event and the hash it names *)
Definition snapshotHeader (miniblocks : list ParsedMiniblock) (events : list ParsedEvent)
    : Res (option StreamEvent * option bytes) :=
  match (mb ← head miniblocks; (mb,.) <$> mh_snapshotHash (mb_header mb)) with
  | Some (mb, snapshotHash) => Ok (pe_event <$> last (mb_events mb), Some snapshotHash)
  | None =>
      if hasElements events
      then match findHeader events with
           | Some h => Ok (None, mh_snapshotHash h)
           | None => Throw (TypeError "Cannot read properties of undefined")
           end
      else Ok (None, None)
  end.

Definition unpackStreamAndCookie (streamAndCookie : StreamAndCookie) (opts : option UnpackEnvelopeOpts)
    : Res ParsedStreamAndCookie :=
  match sac_nextSyncCookie streamAndCookie with
  | None => Throw (PlainError "bad stream: no cookie")
  | Some nextSyncCookie =>
      miniblocks ← traverse (λ mb, unpackMiniblock mb opts) (sac_miniblocks streamAndCookie);
      events ← unpackEnvelopes (sac_events streamAndCookie) opts;
      snapshot ← match sac_snapshot streamAndCookie with
                 | None => Ok None
                 | Some snapshot =>
                     '(miniblockHeader, miniblockHeaderHash) ← snapshotHeader miniblocks events;
                     Some <$> unpackSnapshot miniblockHeader miniblockHeaderHash snapshot opts
                 end;
      Ok {| psc_nextSyncCookie := nextSyncCookie; psc_miniblocks := miniblocks; psc_events := events;
            psc_snapshot := snapshot |}
  end.

Definition eventIdsFromSnapshot (snapshot : Snapshot) : list string :=
  let joined := default [] (ms_joined <$> sn_members snapshot) in
  let usernameEventIds := omap (λ m, (λ w, bin_toHexString (wed_eventHash w)) <$> sm_username m) joined in
  let displayNameEventIds := omap (λ m, (λ w, bin_toHexString (wed_eventHash w)) <$> sm_displayName m) joined in
  match sn_content snapshot with
  | SC_gdmChannelContent value =>
      let channelPropertiesEventIds :=
        match gds_channelProperties value with
        | Some w => [bin_toHexString (wed_eventHash w)]
        | None => []
        end in
      usernameEventIds ++ displayNameEventIds ++ channelPropertiesEventIds
  | _ => usernameEventIds ++ displayNameEventIds
  end.

(** The ids of the pool are passed to [flatMap] as its [thisArg], and so left out. *)
Definition unpackStream (stream : option StreamAndCookie) (opts : option UnpackEnvelopeOpts)
    : Res ParsedStreamResponse :=
  match stream with
  | None => Throw (PlainError "bad stream")
  | Some stream =>
      streamAndCookie ← unpackStreamAndCookie stream opts;
      match psc_miniblocks streamAndCookie with
      | [] => Throw (PlainError "bad stream: no blocks")
      | first :: _ =>
          let snapshot := match mh_snapshot (mb_header first) with
                          | Some s => Some s
                          | None => psn_snapshot <$> psc_snapshot streamAndCookie
                          end in
          match snapshot with
          | None => Throw (PlainError "bad block: snapshot is undefined")
          | Some snapshot =>
              Ok {| psr_snapshot := snapshot;
                    psr_streamAndCookie := streamAndCookie;
                    psr_prevSnapshotMiniblockNum := mh_prevSnapshotMiniblockNum (mb_header first);
                    psr_eventIds := (psc_miniblocks streamAndCookie ≫= λ mb, pe_hashStr <$> mb_events mb)
                                    ++ eventIdsFromSnapshot snapshot |}
          end
      end
  end.

Definition emptyCookie : SyncCookie := {|
  ck_nodeAddress := []; ck_streamId := []; ck_minipoolGen := 0; ck_prevMiniblockHash := [] |}.

Definition unpackStreamEx (miniblocks : list Miniblock) (opts : option UnpackEnvelopeOpts)
    : Res ParsedStreamResponse :=
  unpackStream (Some {| sac_events := []; sac_nextSyncCookie := Some emptyCookie; sac_miniblocks := miniblocks;
                        sac_syncReset := false; sac_snapshot := None |}) opts.

(** A miniblock without a header makes [mb.header!] undefined, which
    [unpackEnvelope] reads. *)
Definition unpackStreamEnvelopes (stream : StreamAndCookie) (opts : option UnpackEnvelopeOpts)
    : Res (list ParsedEvent) :=
  blocks ← traverse (λ mb,
    events ← unpackEnvelopes (mbk_events mb) opts;
    match mbk_header mb with
    | None => Throw (TypeError "Cannot read properties of undefined")
    | Some header => header ← unpackEnvelope header opts; Ok (events ++ [header])
    end) (sac_miniblocks stream);
  events ← unpackEnvelopes (sac_events stream) opts;
  Ok (concat blocks ++ events).
End Unpack.
