(* ===== verification/SignFacts.v ===== *)
(** * SignFacts: signatures mean what they say

    An envelope is accepted exactly when its creator's key, or a key the creator
    delegated to, signed its bytes; what is made is accepted; and two messages are
    not signed as the same bytes, but for the high bits of an expiry and the sign
    of an expiration. *)

From Stdlib Require Import Strings.Byte.
From S2P Require Import Prelude JsLib Ids IdsFacts Utils Proto Types Fixtures Sign Unpack.

(** ** Bytes *)

Definition byteVal (b : byte) : Z := Z.of_N (Byte.to_N b).
(** The number that bytes are in big-endian order *)
Definition bytes_value (l : bytes) : Z := be_value (byteVal <$> l).

Lemma byteVal_toByte n : byteVal (toByte n) = n mod 256.
Proof.
  unfold byteVal, toByte. change 255 with (Z.ones 8). rewrite Z.land_ones by lia. change (2 ^ 8) with 256.
  pose proof (Z.mod_pos_bound n 256 ltac:(lia)) as Hb.
  destruct (Byte.of_N (Z.to_N (n mod 256))) as [b|] eqn:E; simpl.
  - apply Byte.to_of_N in E. rewrite E. lia.
  - apply Byte.of_N_None_iff in E. lia.
Qed.

Lemma toByte_inj l1 l2 : Forall is_byte l1 → Forall is_byte l2 → toByte <$> l1 = toByte <$> l2 → l1 = l2.
Proof.
  intros H1 H2 E. apply (f_equal (fmap byteVal)) in E. rewrite <- !list_fmap_compose in E.
  assert (Hid : ∀ l, Forall is_byte l → (byteVal ∘ toByte) <$> l = l).
  { induction 1 as [|x l Hx _ IH]; [done|]. rewrite fmap_cons, IH. f_equal.
    unfold compose. rewrite byteVal_toByte. unfold is_byte in Hx. apply Z.mod_small. lia. }
  by rewrite !Hid in E.
Qed.

Lemma number_length n : length (numberToUint8Array64LE n) = 8%nat.
Proof.
  unfold numberToUint8Array64LE. rewrite length_app, length_replicate.
  enough (∀ fuel n, (length (numberToUint8Array64LE_loop fuel n) <= fuel)%nat) as Hle
    by (specialize (Hle 8%nat n); lia).
  intros fuel. clear n. induction fuel as [|fuel IH]; intros n; simpl; [done|].
  destruct (n =? 0); simpl; [lia|]. specialize (IH (Z.shiftr (n mod 2 ^ 32) 8)). lia.
Qed.

Lemma bigint_length n le : length (bigintToUint8Array64 n le) = 8%nat.
Proof. by destruct le. Qed.

(** The low 64 bits are recovered from the eight bytes. *)
Lemma bigint_inj n m : bigintToUint8Array64 n true = bigintToUint8Array64 m true → n mod 2 ^ 64 = m mod 2 ^ 64.
Proof.
  intros E. unfold bigintToUint8Array64 in E. cbv zeta in E.
  assert (Hdig : ∀ i, (i < 8)%nat →
    Z.shiftr (n mod 2 ^ 64) (8 * Z.of_nat i) mod 256 = Z.shiftr (m mod 2 ^ 64) (8 * Z.of_nat i) mod 256).
  { intros i Hi. rewrite <- !byteVal_toByte. f_equal.
    apply (f_equal (.!! i)) in E. rewrite !list_lookup_fmap, !lookup_seq_lt in E by done. simpl in E. by injection E. }
  pose proof (Z.mod_pos_bound n (2 ^ 64) ltac:(lia)) as Hn. pose proof (Z.mod_pos_bound m (2 ^ 64) ltac:(lia)) as Hm.
  set (a := n mod 2 ^ 64) in *. set (b := m mod 2 ^ 64) in *. clearbody a b. clear E n m.
  assert (Hstep : ∀ k, (k <= 8)%nat → a mod 256 ^ Z.of_nat k = b mod 256 ^ Z.of_nat k).
  { induction k as [|k IH]; intros Hk; [by rewrite !Z.mod_1_r|].
    specialize (Hdig k ltac:(lia)). rewrite !Z.shiftr_div_pow2, Z.pow_mul_r in Hdig by lia. change (2 ^ 8) with 256 in Hdig.
    rewrite Nat2Z.inj_succ, Z.pow_succ_r, (Z.mul_comm 256) by lia. rewrite !Z.rem_mul_r by lia.
    by rewrite Hdig, IH by lia. }
  specialize (Hstep 8%nat ltac:(lia)). change (256 ^ Z.of_nat 8) with (2 ^ 64) in Hstep.
  by rewrite !Z.mod_small in Hstep by lia.
Qed.

(** ** What is signed *)

Lemma app_same_length {A} (a b c d : list A) : length a = length b → a ++ c = b ++ d → a = b ∧ c = d.
Proof. intros Hl E. by apply app_inj_1 in E. Qed.

Lemma framed_inj h1 h2 d1 d2 : length h1 = length h2 → framed h1 d1 = framed h2 d2 → h1 = h2 ∧ d1 = d2.
Proof.
  intros Hh E. unfold framed in E. apply app_same_length in E as [-> E]; [|done]. split; [done|].
  apply app_same_length in E as [_ E]; [|by rewrite !number_length].
  apply app_same_length in E as [_ E]; [|done]. by apply app_inj_2 in E as [-> _].
Qed.

Lemma delegation_inj k1 k2 e1 e2 msg :
  riverDelegateHashSrc k1 e1 = Ok msg → riverDelegateHashSrc k2 e2 = Ok msg →
  k1 = k2 ∧ e1 mod 2 ^ 64 = e2 mod 2 ^ 64.
Proof.
  unfold riverDelegateHashSrc. intros E1 E2. ok_inv. rewrite <- E2 in E1.
  apply app_same_length in E1 as [_ E]; [|done].
  apply app_inj_2 in E as [-> E]; [|by rewrite !bigint_length]. split; [done|]. by apply bigint_inj.
Qed.

Lemma bigIntToBytes_inj n m : toByte <$> bigIntToBytes n = toByte <$> bigIntToBytes m → Z.abs n = Z.abs m.
Proof.
  intros E. destruct (bigIntToBytes_correct n) as (<- & Hn & _). destruct (bigIntToBytes_correct m) as (<- & Hm & _).
  f_equal. by apply toByte_inj.
Qed.

Lemma authData_inj p1 p2 u1 u2 n1 n2 c1 c2 data : length (textEncode p1) = length (textEncode p2) →
  authData p1 u1 n1 c1 = Ok data → authData p2 u2 n2 c2 = Ok data →
  textEncode p1 = textEncode p2 ∧ u1 = u2 ∧ Z.abs n1 = Z.abs n2 ∧ c1 = c2.
Proof.
  intros Hp E1 E2. unfold authData in *. cbv zeta in *. ok_inv.
  repeat match goal with H : (_ =? _)%nat = true |- _ => apply Nat.eqb_eq in H end.
  rewrite <- E2 in E1. apply app_same_length in E1 as [Ep E]; [|done].
  apply app_same_length in E as [Eu E]; [|congruence].
  apply app_inj_2 in E as [En Ec]; [|congruence]. split_and!; try done. by apply bigIntToBytes_inj.
Qed.

Section Facts.
Context `{EthLib, CryptoLib, EnvelopeCodec, !EthLaws}.

(** ** Acceptance *)

Lemma bin_equal_true a b : a ≠ [] → bin_equal (Some a) (Some b) = true ↔ a = b.
Proof.
  intros Ha. unfold bin_equal. destruct a as [|x a]; [done|]. simpl. apply bool_decide_eq_true.
Qed.

Lemma address_nonempty key a : publicKeyToAddress key = Ok a → a ≠ [].
Proof.
  unfold publicKeyToAddress. intros E. ok_inv. intros ->. apply (f_equal length) in E.
  rewrite length_drop, keccak256_length in E. simpl in E. lia.
Qed.

(** The key acts for the creator: it is the creator's, or the creator signed a
    message that delegates to it until the expiry. *)
Definition speaksFor (key creator delegateSig : bytes) (expiry : Z) : Prop :=
  if hasElements delegateSig
  then ∃ msg v r s owner, riverDelegateHashSrc key expiry = Ok msg
    ∧ fromRPCSig ("0x" +:+ bin_toHexString delegateSig) = Ok (v, r, s)
    ∧ ecrecover (hashPersonalMessage msg) v r s = Ok owner ∧ publicKeyToAddress owner = Ok creator
  else publicKeyToAddress key = Ok creator.

Lemma recovered_address key sig expiry creator :
  recoverPublicKeyFromDelegateSig (SBytes key) sig expiry = Ok creator
  ↔ ∃ msg v r s owner, riverDelegateHashSrc key expiry = Ok msg
    ∧ fromRPCSig ("0x" +:+ bin_toHexString sig) = Ok (v, r, s)
    ∧ ecrecover (hashPersonalMessage msg) v r s = Ok owner ∧ publicKeyToAddress owner = Ok creator.
Proof.
  unfold recoverPublicKeyFromDelegateSig. simpl. split.
  - intros E. apply bind_Ok in E as (msg & E1 & E). apply bind_Ok in E as ([[v r] s] & E2 & E).
    apply bind_Ok in E as (owner & E3 & E4). by exists msg, v, r, s, owner.
  - intros (msg & v & r & s & owner & -> & -> & E3 & E4). simpl. rewrite E3. done.
Qed.

Lemma checkEventSignature_Ok creator delegateSig expiry hash sig :
  checkEventSignature creator delegateSig expiry hash sig = Ok tt
  ↔ ∃ key, riverRecoverPubKey hash sig = Ok key ∧ speaksFor key creator delegateSig expiry.
Proof.
  unfold checkEventSignature, speaksFor. rewrite bind_Ok. apply exist_proper. intros key.
  enough (Hk : (if negb (hasElements delegateSig)
     then address ← publicKeyToAddress key;
          checkR (bin_equal (Some address) (Some creator)) "Event signature is not valid" BAD_EVENT_SIGNATURE
     else checkDelegateSig (SBytes key) (SBytes creator) delegateSig expiry) = Ok tt
     ↔ if hasElements delegateSig then recoverPublicKeyFromDelegateSig (SBytes key) delegateSig expiry = Ok creator
       else publicKeyToAddress key = Ok creator).
  { rewrite Hk. destruct (hasElements delegateSig); [|done]. by rewrite recovered_address. }
  assert (Heq : ∀ m message code, (∀ a, m = Ok a → a ≠ []) →
    (a ← m; checkR (bin_equal (Some a) (Some creator)) message code) = Ok tt ↔ m = Ok creator).
  { intros m message code Hne. rewrite bind_Ok. split.
    - intros (a & -> & Hc%checkR_Ok). apply bin_equal_true in Hc as ->; [done|by apply Hne].
    - intros ->. exists creator. split; [done|]. unfold checkR.
      by rewrite (proj2 (bin_equal_true creator creator (Hne creator eq_refl)) eq_refl). }
  destruct (hasElements delegateSig); simpl.
  - unfold checkDelegateSig. simpl. apply Heq. intros a E. apply recovered_address in E as (? & ? & ? & ? & ? & _ & _ & _ & E).
    by eapply address_nonempty.
  - apply Heq. intros a. apply address_nonempty.
Qed.

Lemma recovered_signature hash sig key : riverRecoverPubKey hash sig = Ok key → length sig = 65%nat.
Proof.
  unfold riverRecoverPubKey, checkSignature, abytes. intros E. ok_inv.
  match goal with H : (if _ || bool_decide (length sig ∈ _) then _ else _) = _ |- _ => revert H end.
  rewrite (bool_decide_eq_false_2 ([65%nat] = [])) by done. simpl. case_bool_decide as Hl; [|done]. set_solver.
Qed.

Lemma accepted_id e p : unpackEnvelope e None = Ok p →
  pe_hash p = env_hash e ∧ env_hash e = riverHash (env_event e).
Proof.
  unfold unpackEnvelope. simpl. intros E. ok_inv. unfold makeParsedEvent in E. ok_inv. subst. split; [done|].
  match goal with H : bin_equal _ _ = true |- _ => apply bin_equal_true in H as <-; [done|] end.
  intros Hn. apply (f_equal length) in Hn. unfold riverHash in Hn. by rewrite keccak256_length in Hn.
Qed.

(** C3. An event is accepted exactly when it is authentic: its id is the hash of
    its bytes, and the key that signed the hash is the one of its creator, or one
    to which the creator's key delegated with the expiry the event names. *)
Theorem envelope_accepted e p :
  unpackEnvelope e None = Ok p
  ↔ env_event e ≠ [] ∧ env_hash e = riverHash (env_event e)
    ∧ ∃ event key, streamEvent_fromBinary (env_event e) = Ok event
      ∧ riverRecoverPubKey (env_hash e) (env_signature e) = Ok key
      ∧ speaksFor key (ev_creatorAddress event) (ev_delegateSig event) (ev_delegateExpiryEpochMs event)
      ∧ makeParsedEvent event (env_hash e) (Some (env_signature e)) = Ok p.
Proof.
  assert (Hh : ∀ d, riverHash d ≠ []) by (intros d E; apply (f_equal length) in E; unfold riverHash in E;
    by rewrite keccak256_length in E).
  unfold unpackEnvelope. simpl. split.
  - intros E. ok_inv. match goal with H : streamEvent_fromBinary _ = Ok ?x |- _ => rename x into event end.
    match goal with H : bin_equal _ _ = true |- _ => apply bin_equal_true in H as Hid; [|done] end. subst.
    match goal with H : checkEventSignature _ _ _ _ _ = Ok ?u |- _ => destruct u; apply checkEventSignature_Ok in H as (key & Hk & Hs) end.
    rewrite <- Hid. split_and!; [intros Hn; by rewrite Hn in *|done|]. exists event, key. split_and!; try done. by rewrite Hid.
  - intros (Hne & Hid & event & key & -> & Hk & Hs & Hp). rewrite Hid in *.
    assert (Hel : ∀ l : bytes, l ≠ [] → hasElements l = true) by (by intros []).
    rewrite !Hel; [|exact Hne|apply Hh|intros Hsig; apply recovered_signature in Hk; by rewrite Hsig in Hk]. simpl.
    rewrite (proj2 (bin_equal_true _ _ (Hh _)) eq_refl). simpl.
    by rewrite (proj2 (checkEventSignature_Ok _ _ _ _ _) (ex_intro _ key (conj Hk Hs))).
Qed.

(** ** Streams *)

Definition unpacksTo (opts : option UnpackEnvelopeOpts) (mb : Miniblock) (pmb : ParsedMiniblock) : Prop :=
  ∃ h header events, mbk_header mb = Some h ∧ unpackEnvelope h opts = Ok header
  ∧ ev_payload (pe_event header) = P_miniblockHeader (mb_header pmb)
  ∧ unpackEnvelopes (mbk_events mb) opts = Ok events ∧ mb_events pmb = events ++ [header] ∧ mb_hash pmb = env_hash h.

Lemma unpackMiniblock_Ok mb opts pmb : unpackMiniblock mb opts = Ok pmb → unpacksTo opts mb pmb.
Proof.
  unfold unpackMiniblock. destruct (mbk_header mb) as [h|] eqn:Eh; [|done]. intros E.
  apply bind_Ok in E as (header & E1 & E). destruct (ev_payload (pe_event header)) eqn:Ep; try done.
  apply bind_Ok in E as (events & E2 & [= <-]). by exists h, header, events.
Qed.

Lemma concat_bind {A B} (f : A → list B) l : concat (f <$> l) = l ≫= f.
Proof. induction l as [|x l IH]; [done|]. rewrite fmap_cons. simpl. by f_equal. Qed.

Lemma fmap_bind {A B C} (g : B → C) (f : A → list B) l : g <$> (l ≫= f) = l ≫= λ x, g <$> f x.
Proof. induction l as [|x l IH]; [done|]. simpl. rewrite fmap_app. by f_equal. Qed.

Lemma blocks_flat opts mbs pmbs : Forall2 (unpacksTo opts) mbs pmbs →
  traverse (λ mb,
    events ← unpackEnvelopes (mbk_events mb) opts;
    match mbk_header mb with
    | None => Throw (TypeError "Cannot read properties of undefined")
    | Some header => header ← unpackEnvelope header opts; Ok (events ++ [header])
    end) mbs = Ok (mb_events <$> pmbs).
Proof.
  intros Hf. apply traverse_ok. induction Hf as [|mb pmb mbs pmbs (h & header & events & Eh & E1 & _ & E2 & E3 & _) _ IH];
    [constructor|]. simpl. constructor; [|done]. rewrite E2, Eh. simpl. rewrite E1. simpl. by rewrite E3.
Qed.

(** The snapshot of a stream comes from its first block: from the header itself,
    or from an envelope whose bytes have the hash that the header names and are
    signed for the creator of the header. *)
Definition snapshotOf (stream : StreamAndCookie) (first : ParsedMiniblock) (snapshot : Snapshot) : Prop :=
  mh_snapshot (mb_header first) = Some snapshot
  ∨ ∃ e header key, sac_snapshot stream = Some e ∧ snapshot_fromBinary (env_event e) = Ok snapshot
    ∧ mh_snapshotHash (mb_header first) = Some (riverSnapshotHash (env_event e))
    ∧ last (mb_events first) = Some header
    ∧ riverRecoverPubKey (riverSnapshotHash (env_event e)) (env_signature e) = Ok key
    ∧ speaksFor key (ev_creatorAddress (pe_event header)) (ev_delegateSig (pe_event header))
        (ev_delegateExpiryEpochMs (pe_event header)).

Lemma unpackSnapshot_Ok header hash e ps : unpackSnapshot header hash e None = Ok ps →
  snapshot_fromBinary (env_event e) = Ok (psn_snapshot ps)
  ∧ hash = Some (riverSnapshotHash (env_event e))
  ∧ ∃ h key, header = Some h ∧ riverRecoverPubKey (riverSnapshotHash (env_event e)) (env_signature e) = Ok key
    ∧ speaksFor key (ev_creatorAddress h) (ev_delegateSig h) (ev_delegateExpiryEpochMs h).
Proof.
  assert (Hh : riverSnapshotHash (env_event e) ≠ []).
  { intros E. apply (f_equal length) in E. unfold riverSnapshotHash in E. by rewrite keccak256_length in E. }
  unfold unpackSnapshot. simpl. intros E. ok_inv. subst ps. simpl.
  match goal with H : bin_equal (Some (riverSnapshotHash _)) _ = true |- _ => apply bin_equal_true in H as Hid; [|done] end.
  rewrite <- Hid in *. destruct header as [h|]; [|done]. destruct hash as [hash|]; [|done].
  match goal with H : checkEventSignature _ _ _ _ _ = Ok ?u |- _ => destruct u; apply checkEventSignature_Ok in H as (key & Hk & Hs) end.
  split_and!; [done| |by exists h, key]. f_equal.
  match goal with H : bin_equal (Some hash) _ = true |- _ => unfold bin_equal in H; simpl in H; revert H end.
  destruct (riverSnapshotHash (env_event e)); [done|]. rewrite andb_false_r. by intros Hd%bool_decide_eq_true.
Qed.

(** C37. Unpacking a stream with its signatures checked: every block and event is
    there, in order, each block with its header last, as in the flat list of all
    events of the blocks and then of the pool; the ids that are listed are those of
    the events of the blocks and those in the snapshot; and the snapshot is the one
    that the header of the first block carries, or comes in an envelope whose bytes
    have the hash that this header names and are signed for its creator. *)
Theorem stream_unpacked stream r :
  unpackStream (Some stream) None = Ok r →
  let sc := psr_streamAndCookie r in
  let flat := psc_miniblocks sc ≫= mb_events in
  Forall2 (unpacksTo None) (sac_miniblocks stream) (psc_miniblocks sc)
  ∧ unpackEnvelopes (sac_events stream) None = Ok (psc_events sc)
  ∧ unpackStreamEnvelopes stream None = Ok (flat ++ psc_events sc)
  ∧ psr_eventIds r = (pe_hashStr <$> flat) ++ eventIdsFromSnapshot (psr_snapshot r)
  ∧ ∃ first, head (psc_miniblocks sc) = Some first ∧ snapshotOf stream first (psr_snapshot r).
Proof.
  unfold unpackStream, unpackStreamAndCookie. destruct (sac_nextSyncCookie stream) as [cookie|]; [|done].
  intros E. apply bind_Ok in E as (sc & Esc & E). apply bind_Ok in Esc as (blocks & Eb & Esc).
  apply bind_Ok in Esc as (events & Ee & Esc). apply bind_Ok in Esc as (ps & Es & [= <-]). simpl in E.
  destruct blocks as [|first blocks]; [done|]. set (all := first :: blocks) in *.
  assert (Hb : Forall2 (unpacksTo None) (sac_miniblocks stream) all).
  { apply traverse_ok in Eb. eapply Forall2_impl; [exact Eb|]. intros mb pmb. apply unpackMiniblock_Ok. }
  assert (Hsnap : ∀ p, ps = Some p → snapshotOf stream first (psn_snapshot p)).
  { intros p ->. destruct (sac_snapshot stream) as [e|] eqn:Estream; [|done].
    apply bind_Ok in Es as ([header hash] & Eh & Es). destruct (unpackSnapshot header hash e None) as [p'|] eqn:Ep; [|done].
    injection Es as <-. apply unpackSnapshot_Ok in Ep as (Ed & -> & h & key & -> & Hk & Hs).
    unfold snapshotHeader in Eh. simpl in Eh. destruct (mh_snapshotHash (mb_header first)) as [mh|] eqn:Em; simpl in Eh.
    2: { destruct (hasElements events); [destruct (findHeader events)|]; done. }
    injection Eh as Elast ->. apply fmap_Some in Elast as (header & Elast & ->). right. by exists e, header, key. }
  destruct (match mh_snapshot (mb_header first) with Some s => Some s | None => psn_snapshot <$> ps end) as [s|] eqn:Esn; [|done].
  injection E as <-. cbn [psr_streamAndCookie psc_miniblocks psc_events psr_eventIds psr_snapshot].
  split_and!; [done|done| | |].
  - unfold unpackStreamEnvelopes. rewrite (blocks_flat None _ _ Hb). cbn [mbind Res_bind]. rewrite Ee. cbn [mbind Res_bind].
    by rewrite concat_bind.
  - f_equal. symmetry. apply (fmap_bind pe_hashStr mb_events all).
  - exists first. split; [done|]. destruct (mh_snapshot (mb_header first)) as [s'|] eqn:Em; [left; congruence|].
    apply fmap_Some in Esn as (p & -> & ->). by apply Hsnap.
Qed.

(** What is hashed to be signed: an event, a snapshot, a delegation to a key, and
    the logins to the notification service and to the app registry *)
Inductive Message :=
  | M_event (data : bytes)
  | M_snapshot (data : bytes)
  | M_delegation (devicePublicKey : bytes) (expiryEpochMs : Z)
  | M_notification (userId : bytes) (expiration : Z) (challenge : bytes)
  | M_appRegistry (userId : bytes) (expiration : Z) (challenge : bytes).
Definition signedBytes (m : Message) : Res bytes :=
  match m with
  | M_event data => Ok (framed HASH_HEADER data)
  | M_snapshot data => Ok (framed SNAPSHOT_HEADER data)
  | M_delegation devicePublicKey expiryEpochMs => riverDelegateHashSrc devicePublicKey expiryEpochMs
  | M_notification userId expiration challenge => authData "NS_AUTH:" userId expiration challenge
  | M_appRegistry userId expiration challenge => authData "AS_AUTH:" userId expiration challenge
  end.
(** The message, but for the high bits of an expiry and the sign of an expiration *)
Definition reduced (m : Message) : Message :=
  match m with
  | M_delegation key t => M_delegation key (t mod 2 ^ 64)
  | M_notification u n c => M_notification u (Z.abs n) c
  | M_appRegistry u n c => M_appRegistry u (Z.abs n) c
  | _ => m
  end.
Definition prefixOf (m : Message) : bytes :=
  match m with
  | M_event _ => HASH_HEADER | M_snapshot _ => SNAPSHOT_HEADER | M_delegation _ _ => RIVER_SIG_HEADER
  | M_notification _ _ _ => textEncode "NS_AUTH:" | M_appRegistry _ _ _ => textEncode "AS_AUTH:"
  end.
Lemma signed_prefix m b : signedBytes m = Ok b → take 8 b = prefixOf m.
Proof.
  destruct m; simpl; unfold framed, riverDelegateHashSrc, authData; cbv zeta; intros E; ok_inv; subst b;
    by rewrite take_app_le, take_ge by (vm_compute; lia).
Qed.

(** C36. Different messages are not signed as the same bytes. What is hashed for an
    event, a snapshot, a delegation, a login to the notification service and a login
    to the app registry never coincides for two messages, of the same kind or of two
    kinds, unless they are delegations to one key whose expiries agree in their low
    64 bits, or logins that differ in the sign of the expiration only. So two
    accepted events of one id have the same bytes, or else show two different inputs
    with one Keccak digest. *)
Theorem messages_distinct :
  (∀ m1 m2 b, signedBytes m1 = Ok b → signedBytes m2 = Ok b → reduced m1 = reduced m2)
  ∧ (∀ e1 e2 p1 p2, unpackEnvelope e1 None = Ok p1 → unpackEnvelope e2 None = Ok p2 → pe_hash p1 = pe_hash p2 →
       let x1 := framed HASH_HEADER (env_event e1) in let x2 := framed HASH_HEADER (env_event e2) in
       env_event e1 = env_event e2 ∨ x1 ≠ x2 ∧ keccak256 x1 = keccak256 x2).
Proof.
  split.
  - intros m1 m2 b E1 E2. pose proof (signed_prefix m1 b E1) as P1. pose proof (signed_prefix m2 b E2) as P2.
    rewrite P1 in P2. destruct m1, m2; try (by vm_compute in P2); simpl in E1, E2 |- *.
    + rewrite <- E1 in E2. apply Ok_inj in E2. by apply framed_inj in E2 as [_ ->].
    + rewrite <- E1 in E2. apply Ok_inj in E2. by apply framed_inj in E2 as [_ ->].
    + by destruct (delegation_inj _ _ _ _ _ E1 E2) as [-> ->].
    + by destruct (authData_inj "NS_AUTH:" "NS_AUTH:" _ _ _ _ _ _ _ eq_refl E1 E2) as (_ & -> & -> & ->).
    + by destruct (authData_inj "AS_AUTH:" "AS_AUTH:" _ _ _ _ _ _ _ eq_refl E1 E2) as (_ & -> & -> & ->).
  - intros e1 e2 p1 p2 U1 U2 Eh x1 x2.
    destruct (accepted_id e1 p1 U1) as [Hp1 Hi1], (accepted_id e2 p2 U2) as [Hp2 Hi2].
    destruct (decide (env_event e1 = env_event e2)) as [|Hne]; [by left|]. right. split.
    + intros E. by apply framed_inj in E as [_ E].
    + change (riverHash (env_event e1) = riverHash (env_event e2)). congruence.
Qed.

(** ** Making envelopes *)

(** What the code relies on in the libraries: bytes are written big-endian in
    hex, with 0x accepted; a wallet keeps a private key of 32 bytes in lower-case
    hex with 0x as it is, and its public key, in hex, is the one recovered from its
    signatures; the codecs are inverse to each other on what they can represent,
    which for the expiry of a token are the signed 64-bit integers. *)
Definition canonicalKey (k : string) : Prop := ∃ b, length b = 32%nat ∧ k = "0x" +:+ bytesToHex b.
Definition int64 (n : Z) : Prop := - 2 ^ 63 <= n < 2 ^ 63.
Class CryptoLaws (representable : StreamEvent → bool) : Prop := {
  bytesToHex_value b : hex_value 0 (bytesToHex b) = Some (bytes_value b);
  wallet_key k w : canonicalKey k → newWallet k = Ok w →
    wl_privateKey w = k ∧ ∃ pub, publicKeyToUint8Array (wl_publicKey w) = Ok pub ∧ length pub = 65%nat
    ∧ ∀ hash, length hash = 32%nat →
      ∃ c i, secp_sign hash (Str.slice_from 2 k) = Ok (c, Some i) ∧ length c = 64%nat
      ∧ secp_recover (bytes_value (take 32 c)) (bytes_value (drop 32 c)) i hash = Ok pub;
  event_roundtrip e : representable e = true →
    streamEvent_toBinary e ≠ [] ∧ streamEvent_fromBinary (streamEvent_toBinary e) = Ok e;
  token_roundtrip t : canonicalKey (btk_delegatePrivateKey t) → int64 (btk_expiryEpochMs t) →
    bearerToken_fromBinary (bearerToken_toBinary t) = Ok t;
}.

(** A signer with the key [owner] *)
Definition signsWith (signer : Signer) (owner creator : bytes) : Prop :=
  publicKeyToAddress owner = Ok creator
  ∧ (∃ a, sg_getAddress signer = Ok a ∧ bin_fromHexString a = Ok creator)
  ∧ ∀ msg, ∃ sig b v r s, sg_signMessage signer msg = Ok sig ∧ bin_fromHexString sig = Ok b ∧ b ≠ []
    ∧ fromRPCSig ("0x" +:+ bin_toHexString b) = Ok (v, r, s) ∧ ecrecover (hashPersonalMessage msg) v r s = Ok owner.

Context (representable : StreamEvent → bool) `{!CryptoLaws representable}.

Lemma sign_recover k w pub hash : canonicalKey k → newWallet k = Ok w → publicKeyToUint8Array (wl_publicKey w) = Ok pub →
  length hash = 32%nat →
  ∃ sig, riverSign hash (Str.slice_from 2 k) = Ok sig ∧ riverRecoverPubKey hash sig = Ok pub.
Proof.
  intros Hk Hw Hpub Hl. destruct (wallet_key k w Hk Hw) as (_ & pub' & Hpub' & _ & Hsign).
  rewrite Hpub in Hpub'. injection Hpub' as <-. destruct (Hsign hash Hl) as (c & i & Es & Hc & Er).
  unfold riverSign, checkHash, abytes. rewrite Hl, Es. simpl. eexists. split; [done|].
  unfold riverRecoverPubKey, checkHash, checkSignature, abytes, pushByteToUint8Array. rewrite Hl, length_app, Hc. simpl.
  unfold bytesToNumberBE, hexToNumber, bin_toHexString. rewrite !bytesToHex_value. simpl.
  rewrite take_app_le, drop_app_le, take_app_le, lookup_app_r by (rewrite ?length_drop; lia).
  rewrite (take_ge (drop 32 c)) by (rewrite length_drop; lia). by rewrite Hc.
Qed.

(** A context of a delegate, and that its key acts for the creator *)
Lemma delegated now primary owner creator k w t :
  canonicalKey k → newWallet k = Ok w → signsWith primary owner creator → 0 <= t →
  ∃ ctx sig pub, makeSignerContext now primary w (Some (ExpiresAt t)) = Ok ctx
  ∧ ctx = {| sc_signerPrivateKey := Str.slice_from 2 k; sc_creatorAddress := creator; sc_delegateSig := Some sig;
             sc_delegateExpiryEpochMs := Some t |}
  ∧ sig ≠ [] ∧ publicKeyToUint8Array (wl_publicKey w) = Ok pub
  ∧ recoverPublicKeyFromDelegateSig (SBytes pub) sig t = Ok creator.
Proof.
  intros Hck Hw (Ho & (a & Ha & Hab) & Hsign) Ht. destruct (wallet_key k w Hck Hw) as (Hk & pub & Hpub & Hlen & _).
  assert (Hsrc : ∃ msg, riverDelegateHashSrc pub t = Ok msg).
  { unfold riverDelegateHashSrc. rewrite (proj2 (Z.leb_le 0 t) Ht), Hlen. by eexists. }
  destruct Hsrc as (msg & Hmsg). destruct (Hsign msg) as (sig & b & v & r & s & Es & Eb & Hne & Ef & Er).
  unfold makeSignerContext, makeRiverDelegateSig. simpl. rewrite Hpub. simpl. rewrite Hlen. simpl.
  rewrite Hmsg. simpl. rewrite Es. simpl. rewrite Eb. simpl. rewrite Ha. simpl. rewrite Hab, Hk. simpl.
  eexists _, b, pub. split_and!; [done..|]. apply recovered_address. by exists msg, v, r, s, owner.
Qed.

Lemma payload_content payload : content_set payload = true → payload_set payload = true.
Proof. by destruct payload. Qed.

(** C23. What a delegate signs is accepted as the creator's. For a signer and a
    wallet of the libraries, whose private key is 32 bytes in lower-case hex with
    0x, and an expiry from 0 below 2^63, a context is made; it can be passed on as
    a bearer token, from which the same context is restored; and every event made
    with it, with a payload that has content, a previous hash of 32 bytes and a
    previous number that is not negative, is accepted, with the payload that was
    given, under the creator's user id. *)
Theorem made_event_accepted now primary owner creator userId k w t :
  canonicalKey k → newWallet k = Ok w → signsWith primary owner creator → userIdFromAddress creator = Ok userId →
  0 <= t < 2 ^ 63 →
  ∃ ctx token, makeSignerContext now primary w (Some (ExpiresAt t)) = Ok ctx
  ∧ makeBearerToken now w primary (ExpiresAt t) = Ok token
  ∧ makeSignerContextFromBearerToken token = Ok ctx
  ∧ ∀ payload salt at_ prevHash prevNum tags event,
      content_set payload = true → (∀ h, prevHash = Some h → length h = 32%nat) → (∀ n, prevNum = Some n → 0 <= n) →
      event = Build_StreamEvent creator (default [] (sc_delegateSig ctx)) salt prevHash at_ t tags prevNum payload →
      representable event = true →
      ∃ e p, makeEvent ctx payload salt at_ prevHash prevNum tags = Ok e ∧ unpackEnvelope e None = Ok p
      ∧ pe_event p = event ∧ pe_hash p = env_hash e ∧ pe_creatorUserId p = userId.
Proof.
  intros Hck Hw Hp Hu [Ht Ht']. destruct (delegated now primary owner creator k w t Hck Hw Hp Ht)
    as (ctx & sig & pub & Hctx & -> & Hne & Hpub & Hrec).
  destruct (wallet_key k w Hck Hw) as (Hk & _). eexists _, _. split; [exact Hctx|]. unfold makeBearerToken. rewrite Hctx. simpl.
  split; [done|]. split.
  { unfold makeSignerContextFromBearerToken, bin_fromHexString, bin_toHexString. rewrite hexToBytes_toHex. simpl.
    rewrite token_roundtrip; [|by rewrite <- Hk in Hck|unfold int64; simpl; lia]. simpl. rewrite Hk, Hw. simpl. 
    assert (Hstr : recoverPublicKeyFromDelegateSig (SStr (wl_publicKey w)) sig t
      = recoverPublicKeyFromDelegateSig (SBytes pub) sig t) by (unfold recoverPublicKeyFromDelegateSig; simpl; by rewrite Hpub).
    by rewrite Hstr, Hrec. }
  intros payload salt at_ prevHash prevNum tags event Hc Hph Hpn -> Hr.
  set (event := Build_StreamEvent _ _ _ _ _ _ _ _ _) in *. simpl in event.
  destruct (event_roundtrip event Hr) as [Hnil Hdec]. set (b := streamEvent_toBinary event) in *.
  destruct (sign_recover k w pub (riverHash b) Hck Hw Hpub (keccak256_length _)) as (s & Hs & Hkey).
  exists {| env_hash := riverHash b; env_signature := s; env_event := b |},
    {| pe_event := event; pe_hash := riverHash b; pe_hashStr := bin_toHexString (riverHash b); pe_signature := Some s;
       pe_creatorUserId := userId |}. split_and!; [| |done..].
  - unfold makeEvent. rewrite (payload_content payload Hc), Hc. simpl.
    assert (Ehash : match prevHash with Some h => checkR (length h =? 32)%nat "prevMiniblockHash should be 32 bytes"
      BAD_HASH_FORMAT | None => Ok tt end = Ok tt) by (destruct prevHash as [h|]; [by rewrite (Hph h eq_refl)|done]).
    assert (Enum : match prevNum with Some n => checkR (0 <=? n) "prevMiniblockNum should be non-negative" BAD_PAYLOAD
      | None => Ok tt end = Ok tt).
    { destruct prevNum as [n|]; [|done]. by rewrite (proj2 (Z.leb_le 0 n) (Hpn n eq_refl)). }
    rewrite Ehash, Enum. simpl. unfold makeEvent_impl. simpl. fold event. fold b. by rewrite Hs.
  - apply envelope_accepted. simpl. split_and!; [done..|]. exists event, pub. split_and!; [done..| |].
    + unfold speaksFor. simpl. destruct sig as [|x sig]; [done|]. simpl. by apply recovered_address.
    + unfold makeParsedEvent. simpl. by rewrite Hu.
Qed.
End Facts.

(** ** Model libraries

    The last byte of a key counts; its public key repeats it, and signatures end
    with it. One shape of events is encoded. *)
Module ModelCrypto.
Import ModelEth Fixtures.

Definition failure {A} : Res A := Throw (PlainError "invalid").
Definition pubOf (b : byte) : bytes := x04 :: replicate 64 b.

#[export] Instance crypto : CryptoLib := {|
  sha256 := digest;
  secp_sign := λ _ k, l ← fromHex k;
    match last l with Some b => Ok (replicate 63 x00 ++ [b], Some x00) | None => failure end;
  secp_recover := λ _ s _ _, Ok (pubOf (toByte s));
  secp_verify := λ _ _ _, true;
  hashPersonalMessage := digest;
  fromRPCSig := λ s, b ← fromHex s; Ok (27, take 32 b, take 32 (drop 32 b));
  ecrecover := λ _ _ r _, Ok (replicate 64 (default x00 (head r)));
  newWallet := λ k, l ← fromHex k;
    match last l with
    | Some b => if (length l =? 32)%nat
                then Ok {| wl_privateKey := "0x" +:+ toHex l; wl_publicKey := "0x" +:+ toHex (pubOf b) |} else failure
    | None => failure
    end;
|}.

Definition shape (creator sig : bytes) : StreamEvent :=
  Build_StreamEvent creator sig [] None 0 7 None None (P_metadataPayload (Some "m")).
(** A header of a block, which names the snapshot of the byte 9 *)
Definition header : MiniblockHeader := {|
  mh_miniblockNum := 0; mh_prevMiniblockHash := []; mh_timestampMs := 0; mh_eventHashes := []; mh_snapshot := None;
  mh_eventNumOffset := 0; mh_prevSnapshotMiniblockNum := 0; mh_snapshotHash := Some (riverSnapshotHash [x09]);
  mh_content := true |}.
Definition headerEvent (creator : bytes) : StreamEvent :=
  Build_StreamEvent creator [] [] None 0 0 None None (P_miniblockHeader header).
Definition representable (e : StreamEvent) : bool :=
  match e with
  | Build_StreamEvent creator sig [] None 0 7 None None (P_metadataPayload (Some "m")) =>
      (length creator =? 20)%nat && negb (length sig =? 1)%nat
  | _ => false
  end.

Fixpoint bits (p : positive) : bytes :=
  match p with xH => [x02] | xO p => x00 :: bits p | xI p => x01 :: bits p end.
Fixpoint unbits (l : bytes) : positive :=
  match l with x00 :: l => xO (unbits l) | x01 :: l => xI (unbits l) | _ => xH end.
Lemma unbits_bits p : unbits (bits p) = p.
Proof. induction p as [p IH|p IH|]; simpl; by rewrite ?IH. Qed.

#[export] Instance codecs : EnvelopeCodec := {|
  streamEvent_toBinary := λ e, ev_creatorAddress e ++ ev_delegateSig e;
  streamEvent_fromBinary := λ b, if (length b =? 21)%nat then Ok (headerEvent (take 20 b))
    else if (20 <=? length b)%nat then Ok (shape (take 20 b) (drop 20 b)) else failure;
  snapshot_fromBinary := λ b, Ok (snapshot []);
  bearerToken_toBinary := λ t,
    bits (encode (btk_delegatePrivateKey t, Byte.to_N <$> btk_delegateSig t, btk_expiryEpochMs t));
  bearerToken_fromBinary := λ b,
    match decode (unbits b) with
    | Some (k, sig, t) => Ok {| btk_delegatePrivateKey := k; btk_delegateSig := (λ n, default x00 (Byte.of_N n)) <$> sig;
                                btk_expiryEpochMs := t |}
    | None => failure
    end;
|}.

Lemma hex_digit_char n : (n < 16)%nat → hex_digit (hex_char n) = Some (Z.of_nat n).
Proof. intros Hn. do 16 (destruct n as [|n]; [reflexivity|]). lia. Qed.

Lemma hex_value_byte acc b s : hex_value acc (byte_hex b +:+ s) = hex_value (acc * 256 + byteVal b) s.
Proof.
  unfold byte_hex. rewrite !Str.app_cons. change (String.app "" s) with s. cbn [hex_value].
  assert (Hb : (Byte.to_nat b < 256)%nat) by (by destruct b; vm_compute; lia).
  assert (H1 : (Byte.to_nat b / 16 < 16)%nat) by (apply Nat.Div0.div_lt_upper_bound; lia).
  assert (H2 : (Byte.to_nat b mod 16 < 16)%nat) by (apply Nat.mod_upper_bound; lia).
  rewrite (hex_digit_char _ H1), (hex_digit_char _ H2). cbn [mbind option_bind].
  f_equal. assert (byteVal b = Z.of_nat (Byte.to_nat b)) as -> by (by destruct b).
  pose proof (Nat.div_mod_eq (Byte.to_nat b) 16). lia.
Qed.

Lemma toHex_value b : hex_value 0 (toHex b) = Some (bytes_value b).
Proof.
  unfold bytes_value, be_value. generalize 0. induction b as [|x b IH]; intros acc; [done|].
  change (toHex (x :: b)) with (byte_hex x +:+ toHex b). rewrite hex_value_byte, IH. done.
Qed.

Lemma fromHex_0x b : fromHex ("0x" +:+ toHex b) = Ok b.
Proof. unfold fromHex. by rewrite strip0x_of_0x, unhex_toHex by apply toHex_hex. Qed.

Lemma pub_read b : publicKeyToUint8Array ("0x" +:+ toHex (pubOf b)) = Ok (pubOf b).
Proof.
  unfold publicKeyToUint8Array. assert (E : String.length ("0x" +:+ toHex (pubOf b)) = 132%nat).
  { rewrite Str.length_app, toHex_length. done. }
  rewrite E. change (Str.startsWith ("0x" +:+ toHex (pubOf b)) "0x04") with true. apply fromHex_0x.
Qed.

#[export] Instance crypto_laws : CryptoLaws representable.
Proof.
  split.
  - apply toHex_value.
  - intros k w (l & Hl & ->). cbn [newWallet crypto]. change (bytesToHex l) with (toHex l). rewrite fromHex_0x.
    cbn [mbind Res_bind]. destruct (last l) as [b|] eqn:Eb; [|done]. rewrite Hl. intros [= <-]. split; [done|].
    exists (pubOf b). split_and!; [apply pub_read|done|]. intros hash _. exists (replicate 63 x00 ++ [b]), x00.
    split_and!; [|done|by destruct b]. cbn [secp_sign crypto].
    rewrite (Str.slice_from_app "0x" (toHex l) 2) by done. change (fromHex (toHex l)) with (hexToBytes (bytesToHex l)).
    rewrite hexToBytes_toHex. cbn [mbind Res_bind]. by rewrite Eb.
  - intros [creator sig salt prevHash at_ t tags prevNum payload] He.
    assert (Hl : length creator = 20%nat ∧ length sig ≠ 1%nat ∧ Build_StreamEvent creator sig salt prevHash at_ t tags prevNum payload = shape creator sig).
    { unfold representable in He. repeat (case_match; try done). subst. apply andb_true_iff in He as [H1%Nat.eqb_eq H2].
      split_and!; [done| |done]. intros H1'. by rewrite H1' in H2. }
    destruct Hl as (Hl & Hs & ->). cbn [streamEvent_toBinary streamEvent_fromBinary codecs shape ev_creatorAddress ev_delegateSig].
    split; [by destruct creator|]. rewrite length_app, Hl.
    destruct (Nat.eqb_spec (20 + length sig) 21); [lia|]. rewrite (proj2 (Nat.leb_le 20 (20 + length sig))) by lia.
    by rewrite take_app_length', drop_app_length' by done.
  - intros [k sig t] _ _. simpl. rewrite unbits_bits, decode_encode.
    assert (Hs : (λ n, default x00 (Byte.of_N n)) <$> (Byte.to_N <$> sig) = sig) by
      (induction sig as [|b sig IH]; [done|]; simpl; f_equal; [by rewrite Byte.of_to_N|exact IH]).
    by rewrite Hs.
Qed.
End ModelCrypto.

Module SignWitness.
Import ModelEth Fixtures ModelCrypto.

Definition primary : Signer := {|
  sg_signMessage := λ _, Ok ("0x" +:+ toHex (replicate 65 x0a)); sg_getAddress := Ok (user x0a) |}.
Definition deviceKey : string := "0x" +:+ toHex (replicate 31 x00 ++ [x0b]).
Definition device : Wallet := {| wl_privateKey := deviceKey; wl_publicKey := "0x" +:+ toHex (pubOf x0b) |}.
Definition sig : bytes := replicate 65 x0a.

Lemma primary_signs : signsWith primary (replicate 64 x0a) (addr x0a).
Proof.
  split_and!; [vm_compute; reflexivity|exists (user x0a); split; vm_compute; reflexivity|].
  intros msg. exists ("0x" +:+ toHex (replicate 65 x0a)), (replicate 65 x0a), 27, (replicate 32 x0a), (replicate 32 x0a).
  split_and!; try done; vm_compute; reflexivity.
Qed.

Lemma made_event_accepted_witness :
  ∃ ctx, makeSignerContext 0 primary device (Some (ExpiresAt 7)) = Ok ctx
  ∧ ∃ e p, makeEvent ctx (P_metadataPayload (Some "m")) [] 0 None None None = Ok e
    ∧ unpackEnvelope e None = Ok p ∧ pe_creatorUserId p = user x0a.
Proof.
  destruct (made_event_accepted representable 0 primary (replicate 64 x0a) (addr x0a) (user x0a) deviceKey device 7)
    as (ctx & token & Hctx & _ & _ & Hmade).
  - by exists (replicate 31 x00 ++ [x0b]).
  - vm_compute. reflexivity.
  - apply primary_signs.
  - vm_compute. reflexivity.
  - lia.
  - assert (E : makeSignerContext 0 primary device (Some (ExpiresAt 7)) = Ok {| sc_signerPrivateKey := toHex (replicate 31 x00 ++ [x0b]);
      sc_creatorAddress := addr x0a; sc_delegateSig := Some sig; sc_delegateExpiryEpochMs := Some 7 |})
      by (vm_compute; reflexivity).
    rewrite E in Hctx. injection Hctx as <-. eexists. split; [exact E|].
    assert (Hr : representable (shape (addr x0a) sig) = true) by (vm_compute; reflexivity).
    destruct (Hmade (P_metadataPayload (Some "m")) [] 0 None None None (shape (addr x0a) sig) eq_refl
      ltac:(discriminate) ltac:(discriminate) eq_refl Hr) as (e & p & H1 & H2 & _ & _ & H3).
    exact (ex_intro _ e (ex_intro _ p (conj H1 (conj H2 H3)))).
Defined.

(** An address given as a string is read as a public key and refused. *)
Lemma string_creator_refused :
  checkDelegateSig (SBytes (pubOf x0b)) (SBytes (addr x0a)) sig 7 = Ok tt
  ∧ checkDelegateSig (SBytes (pubOf x0b)) (SStr (user x0a)) sig 7 = Throw (CodeException "Bad public key" BAD_PUBLIC_KEY).
Proof. split; vm_compute; reflexivity. Qed.

(** An event signed by its creator, and a block with one *)
Definition direct : Envelope :=
  let b := addr x0a in {| env_hash := riverHash b; env_signature := replicate 63 x00 ++ [x0a; x00]; env_event := b |}.

Definition signed (hash : bytes) (b : bytes) : Envelope :=
  {| env_hash := hash; env_signature := replicate 63 x00 ++ [x0a; x00]; env_event := b |}.
Definition other : Envelope :=
  {| env_hash := riverHash (addr x0b); env_signature := replicate 63 x00 ++ [x0b; x00]; env_event := addr x0b |}.
Definition stream : StreamAndCookie := {|
  sac_events := [other]; sac_nextSyncCookie := Some emptyCookie;
  sac_miniblocks := [{| mbk_events := [direct]; mbk_header := Some (signed (riverHash (addr x0a ++ [xff])) (addr x0a ++ [xff])) |}];
  sac_syncReset := false; sac_snapshot := Some (signed (riverSnapshotHash [x09]) [x09]) |}.
Definition response : ParsedStreamResponse :=
  match unpackStream (Some stream) None with
  | Ok r => r
  | Throw _ => Build_ParsedStreamResponse (snapshot []) (Build_ParsedStreamAndCookie emptyCookie [] [] None) 0 []
  end.

Lemma stream_unpacked_witness :
  unpackStream (Some stream) None = Ok response ∧ length (psc_events (psr_streamAndCookie response)) = 1%nat
  ∧ ∃ first, head (psc_miniblocks (psr_streamAndCookie response)) = Some first
    ∧ snapshotOf stream first (psr_snapshot response).
Proof.
  assert (E : unpackStream (Some stream) None = Ok response) by (vm_compute; reflexivity).
  destruct (stream_unpacked stream response E) as (_ & _ & _ & _ & Hf).
  split_and!; [exact E|vm_compute; reflexivity|exact Hf].
Defined.

Lemma messages_distinct_witness : signedBytes (M_event [x01]) ≠ signedBytes (M_delegation (replicate 64 x01) 7).
Proof.
  destruct messages_distinct as [Hd _]. intros E.
  discriminate (Hd (M_event [x01]) (M_delegation (replicate 64 x01) 7) _ eq_refl (eq_sym E)).
Defined.

(** The event in the pool is not among the ids of the stream. *)
Lemma pool_ids_missing :
  ∃ p, psc_events (psr_streamAndCookie response) = [p] ∧ pe_hashStr p ∉ psr_eventIds response.
Proof.
  eexists. split; [vm_compute; reflexivity|]. apply (bool_decide_unpack _). vm_compute. reflexivity.
Qed.

(** A snapshot whose header is not in a block but in the pool is refused. *)
Lemma pool_header_refused :
  unpackStreamAndCookie {| sac_events := [signed (riverHash (addr x0a ++ [xff])) (addr x0a ++ [xff])];
    sac_nextSyncCookie := Some emptyCookie; sac_miniblocks := []; sac_syncReset := false;
    sac_snapshot := Some (signed (riverSnapshotHash [x09]) [x09]) |} None
  = Throw (CodeException "Miniblock header is not set" BAD_EVENT).
Proof. vm_compute. reflexivity. Qed.

Lemma envelope_accepted_witness : riverHash (env_event direct) = env_hash direct.
Proof.
  assert (E : ∃ p, unpackEnvelope direct None = Ok p) by (eexists; vm_compute; reflexivity).
  destruct E as (p & E). destruct (proj1 (envelope_accepted direct p) E) as (_ & Hh & _). by rewrite Hh.
Defined.
End SignWitness.
