(* ===== verification/Decryption.v ===== *)
(** * Decryption: the queue that decrypts content and exchanges keys
    (sdk/src/decryptionExtensions.ts)

    [BaseDecryptionExtensions] collects encrypted content, new session keys and
    requests for keys, and works through them one at a time: a timer starts a
    tick, a tick takes one piece of work, and its end sets the next timer. Between
    two [await]s code runs without interruption; the definitions are these
    stretches, and the state has the place where the tick waits ([TickPc]). What a
    promise settles with is an input ([Answer]). Calls of the crypto module, of
    the network and of the subclass are outputs, with the result where it decides
    what happens next.

    Abstract methods that answer at once are the record [Delegate]. Two of them
    are closer to the state: the inbox stream is a parameter, and whether ticking
    is paused is a field that the subclass changes. Items are objects; those with
    encrypted content carry their identity. *)

From S2P Require Import Prelude JsLib JsMap Ids Proto Types StreamEvents.

Inductive DecryptionStatus := initializing | updating | working | idle | done_.
#[export] Instance DecryptionStatus_eq_dec : EqDecision DecryptionStatus.
Proof. solve_decision. Defined.

(** encryption/src/olmLib.ts *)
Inductive GroupEncryptionAlgorithmId := GroupEncryption | HybridGroupEncryption.
#[export] Instance GroupEncryptionAlgorithmId_eq_dec : EqDecision GroupEncryptionAlgorithmId.
Proof. solve_decision. Defined.
Definition algorithm_str (a : GroupEncryptionAlgorithmId) : string :=
  match a with
  | GroupEncryption => "r.group-encryption.v1.aes-sha2"
  | HybridGroupEncryption => "grpaes"
  end.
(** [parseGroupEncryptionAlgorithmId] with a default; [None] is unrecognized. *)
Definition parseGroupEncryptionAlgorithmId (value : string) (defaultValue : GroupEncryptionAlgorithmId)
    : option GroupEncryptionAlgorithmId :=
  if negb (truthy_str value) then Some defaultValue
  else findJs (λ a, String.eqb (algorithm_str a) value) [GroupEncryption; HybridGroupEncryption].

Record GroupEncryptionSession := {
  gs_streamId : string;
  gs_sessionId : string;
  gs_sessionKey : string;
  gs_algorithm : GroupEncryptionAlgorithmId;
}.

(** ** Items *)

Record NewGroupSessionItem := { ngs_streamId : string; ngs_sessions : GroupEncryptionSessions }.

Record EncryptedContentItem := {
  eci_ref : nat;
  eci_streamId : string;
  eci_eventId : string;
  eci_kind : string;
  eci_encryptedData : EncryptedData;
}.

Record KeySolicitationItem := {
  ksi_streamId : string;
  ksi_fromUserId : string;
  ksi_fromUserAddress : bytes;
  ksi_solicitation : KeySolicitationContent;
  ksi_respondAfter : Z;
  ksi_sigBundle : EventSignatureBundle;
  ksi_hashStr : string;
}.

Record KeySolicitationData := {
  ksd_streamId : string; ksd_isNewDevice : bool; ksd_missingSessionIds : list string }.
Record KeyFulfilmentData := {
  kfd_streamId : string; kfd_userAddress : bytes; kfd_deviceKey : string; kfd_sessionIds : list string }.
Record GroupSessionsData := {
  gsd_streamId : string;
  gsd_item : KeySolicitationItem;
  gsd_sessions : list GroupEncryptionSession;
  gsd_algorithm : GroupEncryptionAlgorithmId;
}.

(** ** State *)

Record StreamTasks := {
  encryptedContent : list EncryptedContentItem;
  keySolicitations : list KeySolicitationItem;
  isMissingKeys : bool;
  keySolicitationsNeedsSort : bool;
}.
#[export] Instance eta_StreamTasks : Eta StreamTasks := λ r,
  Build_StreamTasks (encryptedContent r) (keySolicitations r) (isMissingKeys r) (keySolicitationsNeedsSort r).
Definition newTasks : StreamTasks := {|
  encryptedContent := []; keySolicitations := []; isMissingKeys := false; keySolicitationsNeedsSort := false |}.

Inductive PriorityTask := uploadDeviceKeys | downloadNewMessages.

(** Where the tick waits, with the variables it needs afterwards *)
Inductive TickPc :=
  | AtTask
  | AtHasKey (item : NewGroupSessionItem) (ciphertext : string) (algorithm : GroupEncryptionAlgorithmId)
      (i : nat) (needed : list nat)
  | AtDeviceDecrypt (item : NewGroupSessionItem) (algorithm : GroupEncryptionAlgorithmId) (needed : list nat)
  | AtImport (item : NewGroupSessionItem) (sessions : list GroupEncryptionSession)
  | AtAck
  | AtDecrypt (item : EncryptedContentItem)
  | AtOwnEntitlement (streamId : string) (missingSessionIds : list string)
  | AtOwnSessionIds (streamId : string) (missingSessionIds : list string)
  | AtSolicit
  | AtSessionIds (item : KeySolicitationItem)
  | AtEntitlement (item : KeySolicitationItem) (replySessionIds : list string)
  | AtExport (item : KeySolicitationItem) (replySessionIds : list string) (allSessions : list GroupEncryptionSession)
  | AtFulfillment (item : KeySolicitationItem) (allSessions : list GroupEncryptionSession)
  | AtShare (item : KeySolicitationItem)
      (sessions : list (GroupEncryptionAlgorithmId * list GroupEncryptionSession)).

Record Decryption := {
  dx_status : DecryptionStatus;
  dx_priorityTasks : list PriorityTask;
  dx_newGroupSession : list NewGroupSessionItem;
  dx_ownKeySolicitations : list KeySolicitationItem;
  dx_streams : jsmap string StreamTasks;
  dx_upToDateStreams : gset string;
  dx_highPriorityIds : gset string;
  dx_recentStreamIds : list string;
  dx_decryptionFailures : gmap string (gmap string (list EncryptedContentItem));
  dx_tick : option TickPc;
  (** [timeoutId] is set, and its timer has not fired yet *)
  dx_timeoutId : bool;
  dx_timer : bool;
  (** timers that will call [checkStartTicking] *)
  dx_rechecks : nat;
  dx_started : bool;
  (** [_onStopFn] is set *)
  dx_running : bool;
  dx_paused : bool;
  dx_nextRef : nat;
}.
#[export] Instance eta_Decryption : Eta Decryption := λ r,
  Build_Decryption (dx_status r) (dx_priorityTasks r) (dx_newGroupSession r) (dx_ownKeySolicitations r)
    (dx_streams r) (dx_upToDateStreams r) (dx_highPriorityIds r) (dx_recentStreamIds r) (dx_decryptionFailures r)
    (dx_tick r) (dx_timeoutId r) (dx_timer r) (dx_rechecks r) (dx_started r) (dx_running r) (dx_paused r) (dx_nextRef r).

(** The subclass sets [_onStopFn] in its constructor. *)
Definition new (upToDateStreams : gset string) : Decryption := {|
  dx_status := initializing; dx_priorityTasks := []; dx_newGroupSession := []; dx_ownKeySolicitations := [];
  dx_streams := ∅; dx_upToDateStreams := upToDateStreams; dx_highPriorityIds := ∅; dx_recentStreamIds := [];
  dx_decryptionFailures := ∅; dx_tick := None; dx_timeoutId := false; dx_timer := false; dx_rechecks := O;
  dx_started := false; dx_running := true; dx_paused := false; dx_nextRef := O |}.

Definition numRecentStreamIds : nat := 5.

Record Delegate := {
  hasStream : string → bool;
  getKeySolicitations : string → list KeySolicitationContent;
  isValidEvent : KeySolicitationItem → bool;
  (** it may throw *)
  getPriorityForStream : string → gset string → gset string → Res Z;
  (** [getRespondDelayMSForKeySolicitation], at the n-th call; it may throw *)
  respondDelay : nat → Res Z;
  onDecryptionError : EncryptedContentItem → DecryptionSessionError → Res unit;
  now : Z;
}.

Inductive DecOut :=
  | decryptionExtStatusChanged (s : DecryptionStatus)
  | call_task (t : PriorityTask)
  | call_hasSessionKey (streamId sessionId : string)
  | call_decryptWithDeviceKey (ciphertext senderKey : string)
  | call_importSessionKeys (streamId : string) (sessions : list GroupEncryptionSession)
  | call_ackNewGroupSession (s : GroupEncryptionSessions)
  | call_decryptGroupEvent (item : EncryptedContentItem)
  | call_onDecryptionError (item : EncryptedContentItem) (e : DecryptionSessionError)
  | call_isValidEvent (item : KeySolicitationItem) (valid : bool)
  | call_isUserEntitled (streamId userId : string) (skipOnChainValidation : bool)
  | answer_isUserEntitled (streamId userId : string) (skipOnChainValidation entitled : bool)
  | call_getGroupSessionIds (streamId : string)
  | call_exportGroupSession (streamId sessionId : string)
  | answer_exportGroupSession (streamId sessionId : string) (session : option GroupEncryptionSession)
  | call_sendKeySolicitation (data : KeySolicitationData)
  | call_sendKeyFulfillment (data : KeyFulfilmentData)
  | answer_sendKeyFulfillment (data : KeyFulfilmentData) (error : option string)
  | call_encryptAndShareGroupSessions (data : GroupSessionsData).

Abbreviation DM := (M DecOut Decryption).

(** What the promise of the tick settles with; a rejection may carry a message. *)
Inductive Answer :=
  | Rejects (message : option string)
  | Resolves
  | ResolvesBool (b : bool)
  | ResolvesText (s : string)
  | ResolvesIds (l : list string)
  | ResolvesSession (s : option GroupEncryptionSession)
  | ResolvesError (error : option string).

Section Decryption.
Context `{EthLib} (userDevice : UserDevice) (userId : string) (isUserInboxStreamUpToDate : gset string → bool).
(** [fromJsonString(SessionKeysSchema, cleartext)], the keys *)
Context (sessionKeys_fromJsonString : string → Res (list string)).

(** ** Queues *)

Definition getQueue (streamId : string) : DM unit :=
  modify (λ s, match dx_streams s !! streamId with
               | Some _ => s
               | None => s <| dx_streams ::= insert streamId newTasks |>
               end).
(** Change of the object that [getQueue] returns *)
Definition on_queue (streamId : string) (f : StreamTasks → StreamTasks) : DM unit :=
  _ ← getQueue streamId;
  modify (λ s, s <| dx_streams ::= jm_alter f streamId |>).

Definition tasks_isEmpty (t : StreamTasks) : bool :=
  (length (encryptedContent t) =? 0)%nat && (length (keySolicitations t) =? 0)%nat && negb (isMissingKeys t).
Definition streams_isEmpty (s : Decryption) : bool := forallb tasks_isEmpty (jm_values (dx_streams s)).

Definition setStatus (status : DecryptionStatus) : DM unit :=
  this ← getM;
  if bool_decide (dx_status this = status) then mret tt
  else _ ← modify (λ s, s <| dx_status := status |>); emit true (decryptionExtStatusChanged status).

(** [Object.values(this.mainQueues).find((q) => q.length > 0)] *)
Definition mainQueuesEmpty (s : Decryption) : bool :=
  (length (dx_priorityTasks s) =? 0)%nat && (length (dx_newGroupSession s) =? 0)%nat
  && (length (dx_ownKeySolicitations s) =? 0)%nat.

(** The log every 30 seconds is left out. *)
Definition checkStartTicking : DM unit :=
  this ← getM;
  if negb (dx_started this) || dx_timeoutId this || negb (dx_running this)
     || negb (isUserInboxStreamUpToDate (dx_upToDateStreams this)) || dx_paused this
  then mret tt
  else if mainQueuesEmpty this && streams_isEmpty this then setStatus done_
  else modify (λ s, s <| dx_timeoutId := true |> <| dx_timer := true |>).

(** ** Calls *)

Definition enqueueNewGroupSessions (sessions : GroupEncryptionSessions) : DM unit :=
  let streamId := bin_toHexString (ges_streamId sessions) in
  _ ← modify (λ s, s <| dx_newGroupSession ::= (.++ [{| ngs_streamId := streamId; ngs_sessions := sessions |}]) |>);
  checkStartTicking.

Definition enqueueNewEncryptedContent (streamId eventId kind : string) (encryptedData : EncryptedData) : DM unit :=
  _ ← whenM (Str.startsWith streamId "20" || Str.startsWith streamId "88" || Str.startsWith streamId "77")
        (modify (λ s, s <| dx_recentStreamIds ::= λ l,
           let l := l ++ [streamId] in if (numRecentStreamIds <? length l)%nat then drop 1 l else l |>));
  this ← getM;
  let item := {| eci_ref := dx_nextRef this; eci_streamId := streamId; eci_eventId := eventId; eci_kind := kind;
                 eci_encryptedData := encryptedData |} in
  _ ← modify (λ s, s <| dx_nextRef ::= S |>);
  _ ← on_queue streamId (λ t, t <| encryptedContent ::= (.++ [item]) |>);
  checkStartTicking.

(** The queue a request goes to *)
Definition pushSolicitation (streamId : string) (item : KeySolicitationItem) : DM unit :=
  if String.eqb (ksi_fromUserId item) userId
  then modify (λ s, s <| dx_ownKeySolicitations ::= (.++ [item]) |>)
  else on_queue streamId (λ t, t <| keySolicitations ::= (.++ [item]) |>).

(** The two [for] loops of [enqueueInitKeySolicitations], flattened; [n] calls of
    the delay have been made. *)
Fixpoint initSolicitations (d : Delegate) (streamId eventHashStr : string) (sigBundle : EventSignatureBundle)
    (n : nat) (l : list (string * bytes * KeySolicitationContent)) : DM unit :=
  match l with
  | [] => mret tt
  | (fromUserId, fromUserAddress, keySolicitation) :: l =>
      if String.eqb (ksc_deviceKey keySolicitation) (ud_deviceKey userDevice)
         || (length (ksc_sessionIds keySolicitation) =? 0)%nat
      then initSolicitations d streamId eventHashStr sigBundle n l
      else
        delay ← liftR (respondDelay d n);
        _ ← pushSolicitation streamId {|
              ksi_streamId := streamId; ksi_fromUserId := fromUserId; ksi_fromUserAddress := fromUserAddress;
              ksi_solicitation := keySolicitation; ksi_respondAfter := now d + delay; ksi_sigBundle := sigBundle;
              ksi_hashStr := eventHashStr |};
        initSolicitations d streamId eventHashStr sigBundle (S n) l
  end.

Definition enqueueInitKeySolicitations (d : Delegate) (streamId eventHashStr : string)
    (members : list (string * bytes * list KeySolicitationContent)) (sigBundle : EventSignatureBundle) : DM unit :=
  _ ← on_queue streamId (λ t, t <| keySolicitations := [] |>);
  _ ← modify (λ s, s <| dx_ownKeySolicitations ::=
        List.filter (λ x, negb (String.eqb (ksi_streamId x) streamId)) |>);
  _ ← initSolicitations d streamId eventHashStr sigBundle 0
        (members ≫= λ '(fromUserId, fromUserAddress, solicitations),
           (λ s, (fromUserId, fromUserAddress, s)) <$> solicitations);
  _ ← on_queue streamId (λ t, t <| keySolicitationsNeedsSort := true |>);
  checkStartTicking.

(** [splice] of the request of the device, if there is one *)
Definition removeSolicitation (streamId deviceKey : string) (l : list KeySolicitationItem) : list KeySolicitationItem :=
  match findIndex (λ x, String.eqb (ksi_streamId x) streamId
                        && String.eqb (ksc_deviceKey (ksi_solicitation x)) deviceKey) l with
  | Some i => splice1 i l
  | None => l
  end.

Definition enqueueKeySolicitation (d : Delegate) (streamId eventHashStr fromUserId : string)
    (fromUserAddress : bytes) (keySolicitation : KeySolicitationContent) (sigBundle : EventSignatureBundle)
    : DM unit :=
  if String.eqb (ksc_deviceKey keySolicitation) (ud_deviceKey userDevice) then mret tt
  else
    _ ← getQueue streamId;
    let remove := removeSolicitation streamId (ksc_deviceKey keySolicitation) in
    _ ← (if String.eqb fromUserId userId
         then modify (λ s, s <| dx_ownKeySolicitations ::= remove |>)
         else on_queue streamId (λ t, t <| keySolicitations ::= remove |>));
    if (0 <? length (ksc_sessionIds keySolicitation))%nat || ksc_isNewDevice keySolicitation then
      _ ← on_queue streamId (λ t, t <| keySolicitationsNeedsSort := true |>);
      delay ← liftR (respondDelay d 0);
      _ ← pushSolicitation streamId {|
            ksi_streamId := streamId; ksi_fromUserId := fromUserId; ksi_fromUserAddress := fromUserAddress;
            ksi_solicitation := keySolicitation; ksi_respondAfter := now d + delay; ksi_sigBundle := sigBundle;
            ksi_hashStr := eventHashStr |};
      checkStartTicking
    else mret tt.

Definition setStreamUpToDate (streamId : string) : DM unit :=
  _ ← modify (λ s, s <| dx_upToDateStreams ::= ({[streamId]} ∪.) |>); checkStartTicking.
Definition resetUpToDateStreams : DM unit :=
  _ ← modify (λ s, s <| dx_upToDateStreams := ∅ |>); checkStartTicking.

Definition retryDecryptionFailures (streamId : string) : DM unit :=
  _ ← getQueue streamId;
  this ← getM;
  if negb (size (default ∅ (dx_decryptionFailures this !! streamId)) =? 0)%nat
  then _ ← on_queue streamId (λ t, t <| isMissingKeys := true |>); checkStartTicking
  else mret tt.

Definition enqueueNewMessageDownload : DM unit :=
  modify (λ s, s <| dx_priorityTasks ::= (.++ [downloadNewMessages]) |>).

Definition start : DM unit :=
  this ← getM;
  _ ← check (negb (dx_started this)) "start() called twice, please re-instantiate instead" ERR_UNSPECIFIED;
  _ ← modify (λ s, s <| dx_started := true |>);
  _ ← modify (λ s, s <| dx_priorityTasks ::= (.++ [uploadDeviceKeys]) |>);
  _ ← enqueueNewMessageDownload;
  checkStartTicking.

(** [stop] and [stopTicking]; they then wait for the tick in progress. *)
Definition stop : DM unit :=
  modify (λ s, s <| dx_running := false |> <| dx_timeoutId := false |> <| dx_timer := false |>).

Definition setHighPriorityStreams (streamIds : list string) : DM unit :=
  modify (λ s, s <| dx_highPriorityIds := list_to_set streamIds |>).

(** [mobileSafariPageVisibilityChanged] of the subclass *)
Definition setPaused (hidden : bool) : DM unit :=
  _ ← modify (λ s, s <| dx_paused := hidden |>);
  if hidden then mret tt else checkStartTicking.

(** ** Ticks *)

Definition await (pc : TickPc) : DM unit := modify (λ s, s <| dx_tick := Some pc |>).
(** The promise of the tick settles; a rejection is logged. *)
Definition finish : DM unit :=
  modify (λ s, s <| dx_tick := None |> <| dx_timeoutId := false |> <| dx_rechecks ::= S |>).

(** *** New sessions *)

Definition ackIfLast (item : NewGroupSessionItem) : DM unit :=
  this ← getM;
  if (length (dx_newGroupSession this) =? 0)%nat
  then _ ← emit true (call_ackNewGroupSession (ngs_sessions item)); await AtAck
  else finish.

(** The loop over the session ids, from [i] on *)
Definition checkKeys (item : NewGroupSessionItem) (ciphertext : string) (algorithm : GroupEncryptionAlgorithmId)
    (i : nat) (needed : list nat) : DM unit :=
  match ges_sessionIds (ngs_sessions item) !! i with
  | Some sessionId =>
      _ ← emit true (call_hasSessionKey (ngs_streamId item) sessionId);
      await (AtHasKey item ciphertext algorithm i needed)
  | None =>
      if (length needed =? 0)%nat then finish
      else
        _ ← emit true (call_decryptWithDeviceKey ciphertext (ges_senderKey (ngs_sessions item)));
        await (AtDeviceDecrypt item algorithm needed)
  end.

Definition processNewGroupSession (item : NewGroupSessionItem) : DM unit :=
  match ges_ciphertexts (ngs_sessions item) !! ud_deviceKey userDevice with
  | None | Some "" => finish
  | Some ciphertext =>
      match parseGroupEncryptionAlgorithmId (ges_algorithm (ngs_sessions item)) GroupEncryption with
      | None => finish
      | Some algorithm => checkKeys item ciphertext algorithm 0 []
      end
  end.

Definition deviceDecrypted (item : NewGroupSessionItem) (algorithm : GroupEncryptionAlgorithmId)
    (needed : list nat) (cleartext : string) : DM unit :=
  match sessionKeys_fromJsonString cleartext with
  | Throw _ => finish
  | Ok keys =>
      let ids := ges_sessionIds (ngs_sessions item) in
      if negb (length keys =? length ids)%nat then finish
      else
        let sessions := omap (λ i, sessionId ← ids !! i; sessionKey ← keys !! i;
          Some {| gs_streamId := ngs_streamId item; gs_sessionId := sessionId; gs_sessionKey := sessionKey;
                  gs_algorithm := algorithm |}) needed in
        _ ← emit true (call_importSessionKeys (ngs_streamId item) sessions);
        await (AtImport item sessions)
  end.

(** Failures of a session go back to the queue of their stream. *)
Definition requeue (streamId sessionId : string) : DM unit :=
  this ← getM;
  match failures ← dx_decryptionFailures this !! streamId; failures !! sessionId with
  | Some items =>
      _ ← on_queue streamId (λ t, t <| encryptedContent ::= (.++ items) |>);
      modify (λ s, s <| dx_decryptionFailures ::= alter (delete sessionId) streamId |>)
  | None => mret tt
  end.

Definition imported (item : NewGroupSessionItem) (sessions : list GroupEncryptionSession) : DM unit :=
  _ ← getQueue (ngs_streamId item);
  _ ← forM sessions (λ session, requeue (ngs_streamId item) (gs_sessionId session));
  ackIfLast item.

(** *** Content *)

Definition processEncryptedContentItem (item : EncryptedContentItem) : DM unit :=
  _ ← emit true (call_decryptGroupEvent item); await (AtDecrypt item).

(** [message.toLowerCase().includes('session not found')] *)
Fixpoint str_includes (s p : string) : bool :=
  Str.startsWith s p || match s with "" => false | String _ s => str_includes s p end.
Definition isSessionNotFoundError (message : option string) : bool :=
  match message with Some m => str_includes (Str.toLowerCase m) "session not found" | None => false end.

Definition sessionIdOf (data : EncryptedData) : string :=
  if truthy_str (ed_sessionId data) then ed_sessionId data else bin_toHexString (ed_sessionIdBytes data).

Definition recordFailure (item : EncryptedContentItem) (sessionId : string)
    (f : gmap string (gmap string (list EncryptedContentItem))) : gmap string (gmap string (list EncryptedContentItem)) :=
  let streamId := eci_streamId item in
  match f !! streamId with
  | None => <[streamId := {[sessionId := [item]]}]> f
  | Some failures =>
      match failures !! sessionId with
      | None => <[streamId := <[sessionId := [item]]> failures]> f
      | Some items =>
          if existsb (λ x, (eci_ref x =? eci_ref item)%nat) items then f
          else <[streamId := <[sessionId := items ++ [item]]> failures]> f
      end
  end.

(** The [catch] of [processEncryptedContentItem] *)
Definition decryptionFailed (d : Delegate) (item : EncryptedContentItem) (message : option string) : DM unit :=
  let sessionNotFound := isSessionNotFoundError message in
  let e := {| dse_missingSession := sessionNotFound; dse_kind := eci_kind item;
              dse_encryptedData := eci_encryptedData item |} in
  _ ← emit true (call_onDecryptionError item e);
  match onDecryptionError d item e with
  | Throw _ => finish
  | Ok _ =>
      if sessionNotFound then
        let sessionId := sessionIdOf (eci_encryptedData item) in
        if (String.length sessionId =? 0)%nat then finish
        else
          _ ← modify (λ s, s <| dx_decryptionFailures ::= recordFailure item sessionId |>);
          _ ← on_queue (eci_streamId item) (λ t, t <| isMissingKeys := true |>);
          finish
      else finish
  end.

(** *** Missing keys *)

Definition takeFirst {A} (count : nat) (array : list A) : list A := take count array.

Definition processMissingKeys (d : Delegate) (streamId : string) : DM unit :=
  this ← getM;
  let keys := (map_to_list (default ∅ (dx_decryptionFailures this !! streamId))).*1 in
  let missingSessionIds := takeFirst 100 (sort_strings keys) in
  if (length missingSessionIds =? 0)%nat then finish
  else if negb (hasStream d streamId) then finish
  else
    _ ← emit true (call_isUserEntitled streamId userId true);
    await (AtOwnEntitlement streamId missingSessionIds).

Fixpoint sortedArraysEqual (a b : list string) : bool :=
  match a, b with
  | [], [] => true
  | x :: a, y :: b => String.eqb x y && sortedArraysEqual a b
  | _, _ => false
  end.

Definition ownEntitlement (d : Delegate) (streamId : string) (missingSessionIds : list string) (isEntitled : bool)
    : DM unit :=
  _ ← emit true (answer_isUserEntitled streamId userId true isEntitled);
  if negb isEntitled then finish
  else
    let existingKeyRequest :=
      findJs (λ x, String.eqb (ksc_deviceKey x) (ud_deviceKey userDevice)) (getKeySolicitations d streamId) in
    if default false (ksc_isNewDevice <$> existingKeyRequest)
       || sortedArraysEqual (default [] (ksc_sessionIds <$> existingKeyRequest)) missingSessionIds
    then finish
    else _ ← emit true (call_getGroupSessionIds streamId); await (AtOwnSessionIds streamId missingSessionIds).

Definition solicit (streamId : string) (missingSessionIds knownSessionIds : list string) : DM unit :=
  _ ← emit true (call_sendKeySolicitation {|
        ksd_streamId := streamId; ksd_isNewDevice := (length knownSessionIds =? 0)%nat;
        ksd_missingSessionIds := missingSessionIds |});
  await AtSolicit.

(** *** Requests for keys *)

Definition processKeySolicitation (d : Delegate) (item : KeySolicitationItem) : DM unit :=
  if negb (hasStream d (ksi_streamId item)) then finish
  else
    _ ← emit true (call_isValidEvent item (isValidEvent d item));
    if negb (isValidEvent d item) then finish
    else _ ← emit true (call_getGroupSessionIds (ksi_streamId item)); await (AtSessionIds item).

Definition isRequested (item : KeySolicitationItem) (sessionId : string) : bool :=
  bool_decide (sessionId ∈ ksc_sessionIds (ksi_solicitation item)).

(** [item.solicitation.sessionIds.sort()], in place: the rest of the method sees
    the item with the ids in order. *)
Definition sortRequest (item : KeySolicitationItem) : KeySolicitationItem :=
  let k := ksi_solicitation item in {|
  ksi_streamId := ksi_streamId item; ksi_fromUserId := ksi_fromUserId item;
  ksi_fromUserAddress := ksi_fromUserAddress item;
  ksi_solicitation := {| ksc_deviceKey := ksc_deviceKey k; ksc_fallbackKey := ksc_fallbackKey k;
                         ksc_isNewDevice := ksc_isNewDevice k; ksc_sessionIds := sort_strings (ksc_sessionIds k) |};
  ksi_respondAfter := ksi_respondAfter item; ksi_sigBundle := ksi_sigBundle item; ksi_hashStr := ksi_hashStr item |}.

Definition sessionIdsKnown (item : KeySolicitationItem) (knownSessionIds : list string) : DM unit :=
  let item := sortRequest item in
  let knownSessionIds := sort_strings knownSessionIds in
  let replySessionIds := if ksc_isNewDevice (ksi_solicitation item) then knownSessionIds
                         else List.filter (isRequested item) knownSessionIds in
  if (length replySessionIds =? 0)%nat then finish
  else
    _ ← emit true (call_isUserEntitled (ksi_streamId item) (ksi_fromUserId item) false);
    await (AtEntitlement item replySessionIds).

Definition fulfilment (item : KeySolicitationItem) (allSessions : list GroupEncryptionSession) : KeyFulfilmentData := {|
  kfd_streamId := ksi_streamId item;
  kfd_userAddress := ksi_fromUserAddress item;
  kfd_deviceKey := ksc_deviceKey (ksi_solicitation item);
  kfd_sessionIds := sort_strings (List.filter (isRequested item) (gs_sessionId <$> allSessions)) |}.

(** The loop that exports sessions, and what follows it *)
Definition exportNext (item : KeySolicitationItem) (replySessionIds : list string)
    (allSessions : list GroupEncryptionSession) : DM unit :=
  match replySessionIds with
  | sessionId :: _ =>
      _ ← emit true (call_exportGroupSession (ksi_streamId item) sessionId);
      await (AtExport item replySessionIds allSessions)
  | [] =>
      if (length allSessions =? 0)%nat then finish
      else _ ← emit true (call_sendKeyFulfillment (fulfilment item allSessions)); await (AtFulfillment item allSessions)
  end.

Definition entitlementKnown (item : KeySolicitationItem) (replySessionIds : list string) (entitled : bool) : DM unit :=
  _ ← emit true (answer_isUserEntitled (ksi_streamId item) (ksi_fromUserId item) false entitled);
  if negb entitled then finish else exportNext item replySessionIds [].

Definition exported (item : KeySolicitationItem) (replySessionIds : list string)
    (allSessions : list GroupEncryptionSession) (session : option GroupEncryptionSession) : DM unit :=
  match replySessionIds with
  | sessionId :: replySessionIds =>
      _ ← emit true (answer_exportGroupSession (ksi_streamId item) sessionId session);
      exportNext item replySessionIds (allSessions ++ option_list session)
  | [] => finish
  end.

(** The sessions by their algorithm *)
Definition groupSessions (allSessions : list GroupEncryptionSession)
    : jsmap GroupEncryptionAlgorithmId (list GroupEncryptionSession) :=
  foldl (λ acc session,
    <[gs_algorithm session := default [] (acc !! gs_algorithm session) ++ [session]]> acc) ∅ allSessions.

Definition shareNext (item : KeySolicitationItem)
    (sessions : list (GroupEncryptionAlgorithmId * list GroupEncryptionSession)) : DM unit :=
  match sessions with
  | [] => finish
  | (algorithm, group) :: _ =>
      _ ← emit true (call_encryptAndShareGroupSessions {|
            gsd_streamId := ksi_streamId item; gsd_item := item; gsd_sessions := group; gsd_algorithm := algorithm |});
      await (AtShare item sessions)
  end.

Definition fulfilled (item : KeySolicitationItem) (allSessions : list GroupEncryptionSession)
    (error : option string) : DM unit :=
  _ ← emit true (answer_sendKeyFulfillment (fulfilment item allSessions) error);
  match error with
  | Some _ => finish
  | None => shareNext item (entries (groupSessions allSessions))
  end.

(** *** One tick *)

(** [dequeueUpToDate]: the item and what is left *)
Definition dequeueUpToDate (items : list KeySolicitationItem) (now : Z) (upToDateStreams : gset string)
    : option (KeySolicitationItem * list KeySolicitationItem) :=
  first ← head items;
  if now <? ksi_respondAfter first then None
  else
    i ← findIndex (λ x, (ksi_respondAfter x <=? now) && bool_decide (ksi_streamId x ∈ upToDateStreams)) items;
    x ← items !! i;
    Some (x, splice1 i items).

Definition sortKeySolicitations (t : StreamTasks) : StreamTasks :=
  t <| keySolicitations ::= stable_sort (λ a b, ksi_respondAfter a <=? ksi_respondAfter b) |>
    <| keySolicitationsNeedsSort := false |>.

(** The [for] loop over the streams *)
Fixpoint tickStreams (d : Delegate) (streamIds : list string) : DM unit :=
  match streamIds with
  | [] => _ ← setStatus idle; finish
  | streamId :: streamIds =>
      this ← getM;
      if negb (bool_decide (streamId ∈ dx_upToDateStreams this)) then tickStreams d streamIds
      else
        let queue := default newTasks (dx_streams this !! streamId) in
        match encryptedContent queue with
        | item :: rest =>
            _ ← on_queue streamId (λ t, t <| encryptedContent := rest |>);
            _ ← setStatus working;
            processEncryptedContentItem item
        | [] =>
            if isMissingKeys queue then
              _ ← setStatus working;
              _ ← on_queue streamId (λ t, t <| isMissingKeys := false |>);
              processMissingKeys d streamId
            else
              let queue := if keySolicitationsNeedsSort queue then sortKeySolicitations queue else queue in
              _ ← on_queue streamId (λ _, queue);
              match dequeueUpToDate (keySolicitations queue) (now d) (dx_upToDateStreams this) with
              | Some (item, rest) =>
                  _ ← on_queue streamId (λ t, t <| keySolicitations := rest |>);
                  _ ← setStatus working;
                  processKeySolicitation d item
              | None => tickStreams d streamIds
              end
        end
  end.

(** [streamIds.sort(...)]: the comparison runs when there are two elements. *)
Definition sortedStreamIds (d : Delegate) (s : Decryption) : Res (list string) :=
  let priority x := getPriorityForStream d x (dx_highPriorityIds s) (list_to_set (dx_recentStreamIds s)) in
  let streamIds := jm_keys (dx_streams s) in
  if (length streamIds <=? 1)%nat then Ok streamIds
  else
    items ← traverse (λ x, p ← priority x; Ok (p, x)) streamIds;
    Ok (stable_sort (λ a b, a.1 <=? b.1) items).*2.

(** The method throws before it has a promise, and with it the callback of the
    timer: nothing is waited for, and [timeoutId] stays set. *)
Definition tickThrows (e : JsError) : DM unit :=
  _ ← modify (λ s, s <| dx_tick := None |>);
  throwM e.

Definition tick (d : Delegate) : DM unit :=
  this ← getM;
  match dx_priorityTasks this, dx_newGroupSession this, dx_ownKeySolicitations this with
  | task :: rest, _, _ =>
      _ ← modify (λ s, s <| dx_priorityTasks := rest |>);
      _ ← setStatus updating;
      _ ← emit true (call_task task);
      await AtTask
  | [], session :: rest, _ =>
      _ ← modify (λ s, s <| dx_newGroupSession := rest |>);
      _ ← setStatus working;
      processNewGroupSession session
  | [], [], ownSolicitation :: rest =>
      _ ← modify (λ s, s <| dx_ownKeySolicitations := rest |>);
      _ ← setStatus working;
      processKeySolicitation d ownSolicitation
  | [], [], [] =>
      match sortedStreamIds d this with
      | Ok streamIds => tickStreams d streamIds
      | Throw e => tickThrows e
      end
  end.

(** ** What the event loop does *)

(** The timer of [checkStartTicking] fires. *)
Definition timerFires (d : Delegate) : DM unit :=
  this ← getM;
  if dx_timer this then _ ← modify (λ s, s <| dx_timer := false |>); tick d else mret tt.

(** The timer set at the end of a tick fires. *)
Definition recheckFires : DM unit :=
  this ← getM;
  match dx_rechecks this with
  | O => mret tt
  | S n => _ ← modify (λ s, s <| dx_rechecks := n |>); checkStartTicking
  end.

(** The promise the tick waits for settles. An answer of the wrong type does not
    occur. *)
Definition answered (d : Delegate) (a : Answer) : DM unit :=
  this ← getM;
  match dx_tick this, a with
  | None, _ => mret tt
  | Some (AtImport item _), Rejects _ => ackIfLast item
  | Some (AtDecrypt item), Rejects message => decryptionFailed d item message
  | Some _, Rejects _ => finish
  | Some (AtTask | AtAck | AtDecrypt _ | AtSolicit), Resolves => finish
  | Some (AtHasKey item ciphertext algorithm i needed), ResolvesBool hasKeys =>
      checkKeys item ciphertext algorithm (S i) (if hasKeys then needed else needed ++ [i])
  | Some (AtDeviceDecrypt item algorithm needed), ResolvesText cleartext =>
      deviceDecrypted item algorithm needed cleartext
  | Some (AtImport item sessions), Resolves => imported item sessions
  | Some (AtOwnEntitlement streamId missing), ResolvesBool entitled => ownEntitlement d streamId missing entitled
  | Some (AtOwnSessionIds streamId missing), ResolvesIds known => solicit streamId missing known
  | Some (AtSessionIds item), ResolvesIds known => sessionIdsKnown item known
  | Some (AtEntitlement item reply), ResolvesBool entitled => entitlementKnown item reply entitled
  | Some (AtExport item reply allSessions), ResolvesSession session => exported item reply allSessions session
  | Some (AtFulfillment item allSessions), ResolvesError error => fulfilled item allSessions error
  | Some (AtShare item (_ :: sessions)), Resolves => shareNext item sessions
  | Some _, _ => mret tt
  end.
End Decryption.
