(* ===== verification/DecryptionFacts.v ===== *)
(** * DecryptionFacts: the guarantees of the decryption queue as theorems

    Work is never left lying while the queue may tick; content is decrypted, given
    up with an error, or kept until its key arrives, and never lost or doubled;
    keys go only to entitled users who asked for them. *)

From Stdlib Require Import Strings.Byte.
From S2P Require Import Prelude JsLib JsMap Ids IdsFacts Proto Types StreamEvents Fixtures Decryption.

(** ** Everything that can happen to the queue *)

Inductive DecOp :=
  | D_sessions (sessions : GroupEncryptionSessions)
  | D_content (streamId eventId kind : string) (data : EncryptedData)
  | D_initSolicitations (d : Delegate) (streamId eventHashStr : string)
      (members : list (string * bytes * list KeySolicitationContent)) (sigBundle : EventSignatureBundle)
  | D_solicitation (d : Delegate) (streamId eventHashStr fromUserId : string) (fromUserAddress : bytes)
      (content : KeySolicitationContent) (sigBundle : EventSignatureBundle)
  | D_upToDate (streamId : string)
  | D_resetUpToDate
  | D_retry (streamId : string)
  | D_download
  | D_start
  | D_stop
  | D_priority (streamIds : list string)
  | D_paused (hidden : bool)
  | D_timer (d : Delegate)
  | D_recheck
  | D_answer (d : Delegate) (a : Answer).

Section Facts.
Context `{EthLib} (userDevice : UserDevice) (userId : string) (isUserInboxStreamUpToDate : gset string → bool).
Context (sessionKeys_fromJsonString : string → Res (list string)).

Abbreviation checkStartTicking := (checkStartTicking isUserInboxStreamUpToDate).

Definition run_op (op : DecOp) : DM unit :=
  match op with
  | D_sessions sessions => enqueueNewGroupSessions isUserInboxStreamUpToDate sessions
  | D_content streamId eventId kind data => enqueueNewEncryptedContent isUserInboxStreamUpToDate streamId eventId kind data
  | D_initSolicitations d streamId hash members sigBundle =>
      enqueueInitKeySolicitations userDevice userId isUserInboxStreamUpToDate d streamId hash members sigBundle
  | D_solicitation d streamId hash fromUserId fromUserAddress content sigBundle =>
      enqueueKeySolicitation userDevice userId isUserInboxStreamUpToDate d streamId hash fromUserId fromUserAddress
        content sigBundle
  | D_upToDate streamId => setStreamUpToDate isUserInboxStreamUpToDate streamId
  | D_resetUpToDate => resetUpToDateStreams isUserInboxStreamUpToDate
  | D_retry streamId => retryDecryptionFailures isUserInboxStreamUpToDate streamId
  | D_download => enqueueNewMessageDownload
  | D_start => start isUserInboxStreamUpToDate
  | D_stop => stop
  | D_priority streamIds => setHighPriorityStreams streamIds
  | D_paused hidden => setPaused isUserInboxStreamUpToDate hidden
  | D_timer d => timerFires userDevice userId d
  | D_recheck => recheckFires isUserInboxStreamUpToDate
  | D_answer d a => answered userDevice userId sessionKeys_fromJsonString d a
  end.

(** The state after a run and everything it did *)
Definition exec (ops : list DecOp) (s : Decryption) : Decryption * list DecOut :=
  foldl (λ '(s, tr) op, (post (run_op op) s, tr ++ out (run_op op) s)) (s, []) ops.

(** Induction over runs, for invariants of the state and of what was done *)
Lemma exec_invariant (I : list DecOut → Decryption → Prop) ops s :
  I [] s → (∀ tr s op, op ∈ ops → I tr s → I (tr ++ out (run_op op) s) (post (run_op op) s)) →
  I (exec ops s).2 (exec ops s).1.
Proof.
  intros H0 Hstep. unfold exec. set (acc := (s, [])). change (I acc.2 acc.1) in H0.
  clearbody acc. revert acc H0. induction ops as [|op ops IH]; intros [s' tr] H0; [done|]. simpl.
  apply IH; [|apply Hstep; [by left|done]]. intros tr' s'' op' Hin. apply Hstep. by right.
Qed.

Lemma exec_snoc ops op s : (exec (ops ++ [op]) s).1 = post (run_op op) (exec ops s).1.
Proof. unfold exec. rewrite foldl_app. simpl. by destruct (foldl _ _ ops). Qed.

(** ** Control

    Code of a tick ends by waiting for something or by settling, and does nothing
    else to the timers. *)

Definition ctl (s : Decryption) :=
  (dx_tick s, dx_timeoutId s, dx_timer s, dx_rechecks s, dx_started s, dx_running s, dx_paused s, dx_upToDateStreams s).
Definition env (s : Decryption) := (dx_timer s, dx_started s, dx_running s, dx_paused s, dx_upToDateStreams s).

(** A method that returns and leaves the control alone *)
Definition quiet {A} (m : DM A) : Prop := ∀ s, ctl (post m s) = ctl s ∧ ∃ a, res m s = Ok a.
Definition ends_at (m : DM unit) (s : Decryption) : Prop :=
  env (post m s) = env s
  ∧ (is_Some (dx_tick (post m s)) ∧ dx_timeoutId (post m s) = dx_timeoutId s ∧ dx_rechecks (post m s) = dx_rechecks s
     ∨ dx_tick (post m s) = None ∧ dx_timeoutId (post m s) = false ∧ dx_rechecks (post m s) = S (dx_rechecks s)).
Definition ends (m : DM unit) : Prop := ∀ s, ends_at m s.

Create HintDb dec.

Lemma quiet_bind {A B} (m : DM A) (f : A → DM B) : quiet m → (∀ a, quiet (f a)) → quiet (m ≫= f).
Proof.
  intros Hm Hf s. destruct (Hm s) as [E (a & Ha)]. rewrite (post_bind_ok _ _ a), (res_bind_ok _ _ a) by done.
  destruct (Hf a (post m s)) as [E' R]. split; [congruence|done].
Qed.
Lemma ends_bind {A} (m : DM A) (f : A → DM unit) : quiet m → (∀ a, ends (f a)) → ends (m ≫= f).
Proof.
  intros Hm Hf s. destruct (Hm s) as [E (a & Ha)]. unfold ends_at. rewrite (post_bind_ok _ _ a) by done.
  destruct (Hf a (post m s)) as [Ee Hc]. unfold ctl, env in *. injection E as E1 E2 E3 E4 E5 E6 E7 E8.
  rewrite E2, E4 in Hc. split; [|done]. rewrite Ee. congruence.
Qed.
Lemma quiet_get : quiet (getM : DM _).
Proof. intros s. split; [done|by eexists]. Qed.
Lemma quiet_ret {A} (a : A) : quiet (mret a : DM A).
Proof. intros s. split; [done|by eexists]. Qed.
Lemma quiet_emit b o : quiet (emit b o : DM unit).
Proof. intros s. split; [done|by eexists]. Qed.
Lemma quiet_modify f : (∀ s, ctl (f s) = ctl s) → quiet (modify f : DM unit).
Proof. intros Hf s. split; [apply Hf|by eexists]. Qed.
Lemma quiet_forM {A} (l : list A) (f : A → DM unit) : (∀ x, quiet (f x)) → quiet (forM l f).
Proof. intros Hf. induction l; simpl; [apply quiet_ret|]. by apply quiet_bind. Qed.
#[local] Hint Resolve quiet_get quiet_ret quiet_emit : dec.

Ltac quiet :=
  repeat first
    [ solve [auto with dec nocore]
    | apply quiet_bind; [|intros ?] | apply quiet_forM; intros ? | apply quiet_modify; intros ?; reflexivity
    | match goal with |- quiet (match ?x with _ => _ end) => destruct x end ].
Ltac ends :=
  repeat first
    [ solve [auto with dec nocore]
    | apply ends_bind; [solve [quiet]|intros ?]
    | match goal with |- ends (match ?x with _ => _ end) => destruct x end
    | match goal with |- ends (let _ := _ in _) => cbv zeta end ].

Lemma quiet_getQueue x : quiet (getQueue x).
Proof. apply quiet_modify. intros s. by destruct (dx_streams s !! x). Qed.
#[local] Hint Resolve quiet_getQueue : dec.
Lemma quiet_on_queue x f : quiet (on_queue x f).
Proof. unfold on_queue. quiet. Qed.
Lemma quiet_setStatus x : quiet (setStatus x).
Proof. unfold setStatus. quiet. Qed.
#[local] Hint Resolve quiet_on_queue quiet_setStatus : dec.
Lemma quiet_requeue x y : quiet (requeue x y).
Proof. unfold requeue. quiet. Qed.
#[local] Hint Resolve quiet_requeue : dec.

Lemma ends_await pc : ends (await pc).
Proof. intros s. split; [done|]. left. by split_and!. Qed.
Lemma ends_finish : ends finish.
Proof. intros s. split; [done|]. by right. Qed.
#[local] Hint Resolve ends_await ends_finish : dec.

Lemma ends_checkKeys i c a n l : ends (checkKeys i c a n l).
Proof. unfold checkKeys. ends. Qed.
#[local] Hint Resolve ends_checkKeys : dec.
Lemma ends_newGroupSession i : ends (processNewGroupSession userDevice i).
Proof. unfold processNewGroupSession. ends. Qed.
Lemma ends_ackIfLast i : ends (ackIfLast i).
Proof. unfold ackIfLast. ends. Qed.
#[local] Hint Resolve ends_newGroupSession ends_ackIfLast : dec.
Lemma ends_deviceDecrypted i a l c : ends (deviceDecrypted sessionKeys_fromJsonString i a l c).
Proof. unfold deviceDecrypted. ends. Qed.
Lemma ends_imported i l : ends (imported i l).
Proof. unfold imported. ends. Qed.
Lemma ends_content i : ends (processEncryptedContentItem i).
Proof. unfold processEncryptedContentItem. ends. Qed.
Lemma ends_decryptionFailed d i m : ends (decryptionFailed d i m).
Proof. unfold decryptionFailed. ends. Qed.
Lemma ends_missingKeys d x : ends (processMissingKeys userId d x).
Proof. unfold processMissingKeys. ends. Qed.
Lemma ends_ownEntitlement d x l b : ends (ownEntitlement userDevice userId d x l b).
Proof. unfold ownEntitlement. ends. Qed.
Lemma ends_solicit x l k : ends (solicit x l k).
Proof. unfold solicit. ends. Qed.
Lemma ends_keySolicitation d i : ends (processKeySolicitation d i).
Proof. unfold processKeySolicitation. ends. Qed.
Lemma ends_sessionIdsKnown i l : ends (sessionIdsKnown i l).
Proof. unfold sessionIdsKnown. ends. Qed.
Lemma ends_exportNext i l a : ends (exportNext i l a).
Proof. unfold exportNext. ends. Qed.
#[local] Hint Resolve ends_deviceDecrypted ends_imported ends_content ends_decryptionFailed ends_missingKeys
  ends_ownEntitlement ends_solicit ends_keySolicitation ends_sessionIdsKnown ends_exportNext : dec.
Lemma ends_entitlementKnown i l b : ends (entitlementKnown i l b).
Proof. unfold entitlementKnown. ends. Qed.
Lemma ends_exported i l a g : ends (exported i l a g).
Proof. unfold exported. ends. Qed.
Lemma ends_shareNext i l : ends (shareNext i l).
Proof. unfold shareNext. ends. Qed.
#[local] Hint Resolve ends_entitlementKnown ends_exported ends_shareNext : dec.
Lemma ends_fulfilled i a e : ends (fulfilled i a e).
Proof. unfold fulfilled. ends. Qed.
#[local] Hint Resolve ends_fulfilled : dec.

Lemma ends_tickStreams d l : ends (tickStreams userId d l).
Proof. induction l as [|x l IH]; simpl; ends. Qed.
#[local] Hint Resolve ends_tickStreams : dec.
(** A tick runs to its first wait or to its end, or the sort of the streams throws. *)
Lemma tick_cases (P : Decryption → Prop) d s :
  (∀ m, ends m → P (post m s)) → (∀ e, sortedStreamIds d s = Throw e → P (post (tickThrows e) s)) →
  P (post (tick userDevice userId d) s).
Proof.
  intros He Ht. unfold tick. run. destruct (dx_priorityTasks s) as [|t ts]; [|apply He; ends].
  destruct (dx_newGroupSession s) as [|n ns]; [|apply He; ends].
  destruct (dx_ownKeySolicitations s) as [|o os]; [|apply He; ends].
  destruct (sortedStreamIds d s) as [l|e]; [apply He; ends|by apply Ht].
Qed.

(** Every stream with a queue has a priority: its call does not throw. *)
Definition prioritised (d : Delegate) (s : Decryption) : Prop := ∀ x, x ∈ jm_keys (dx_streams s) →
  ∃ n, getPriorityForStream d x (dx_highPriorityIds s) (list_to_set (dx_recentStreamIds s)) = Ok n.
Lemma prioritised_sorts d s : prioritised d s → ∃ l, sortedStreamIds d s = Ok l.
Proof.
  intros Hp. unfold sortedStreamIds. cbv zeta. destruct (_ <=? 1)%nat; [by eexists|].
  assert (∃ l, traverse (λ x, p ← getPriorityForStream d x (dx_highPriorityIds s) (list_to_set (dx_recentStreamIds s));
    Ok (p, x)) (jm_keys (dx_streams s)) = Ok l) as [l ->]; [|by eexists].
  clear -Hp. unfold prioritised in Hp. induction (jm_keys (dx_streams s)) as [|x l IH]; [by eexists|].
  destruct (Hp x) as [n Hn]; [by left|]. destruct IH as [l' Hl]; [intros y Hy; apply Hp; by right|].
  exists ((n, x) :: l'). apply traverse_ok. constructor; [by rewrite Hn|]. by apply traverse_ok.
Qed.

(** ** Wake-ups *)

(** The queue may tick, and has something to do. *)
Definition ready (s : Decryption) : bool :=
  dx_started s && dx_running s && isUserInboxStreamUpToDate (dx_upToDateStreams s) && negb (dx_paused s).
Definition isEmpty (s : Decryption) : bool := mainQueuesEmpty s && streams_isEmpty s.
(** The timer of a tick is pending, a tick waits for an answer, or the timer that
    looks for more work is pending. *)
Definition ticking (s : Decryption) : Prop :=
  dx_timer s = true ∨ is_Some (dx_tick s) ∨ (0 < dx_rechecks s)%nat.

Definition timers (s : Decryption) : Prop :=
  (dx_timer s = true → dx_timeoutId s = true)
  ∧ (is_Some (dx_tick s) → dx_timer s = false ∧ (dx_running s = true → dx_timeoutId s = true)).
(** [timeoutId] is set only while there is something to clear it. *)
Definition tended (s : Decryption) : Prop := dx_timeoutId s = true → dx_timer s = true ∨ is_Some (dx_tick s).
Definition steady (s : Decryption) : Prop := timers s ∧ tended s.
Definition awake (s : Decryption) : Prop := steady s ∧ (ready s = true → isEmpty s = false → ticking s).

Lemma check_timers s : timers s → timers (post checkStartTicking s).
Proof.
  intros Ht. unfold Decryption.checkStartTicking. run.
  destruct (negb (dx_started s) || dx_timeoutId s || negb (dx_running s)
     || negb (isUserInboxStreamUpToDate (dx_upToDateStreams s)) || dx_paused s) eqn:Ec; [done|].
  destruct (mainQueuesEmpty s && streams_isEmpty s) eqn:Ee.
  - unfold setStatus. run. by case_bool_decide; run.
  - run. split; [done|]. intros Hp. destruct Ht as [_ Hr]. specialize (Hr Hp) as [_ Hr].
    destruct (dx_timeoutId s), (dx_running s), (dx_started s); try done. by specialize (Hr eq_refl).
Qed.
Lemma check_awake s : steady s → awake (post checkStartTicking s).
Proof.
  intros [Ht Hh]. cut (tended (post checkStartTicking s) ∧ (ready (post checkStartTicking s) = true →
    isEmpty (post checkStartTicking s) = false → ticking (post checkStartTicking s))).
  { intros [Hh' Ha]. split; [split; [by apply check_timers|done]|done]. }
  unfold Decryption.checkStartTicking. run.
  destruct (negb (dx_started s) || dx_timeoutId s || negb (dx_running s)
     || negb (isUserInboxStreamUpToDate (dx_upToDateStreams s)) || dx_paused s) eqn:Ec.
  - run. split; [done|]. unfold ready, ticking. intros Hr _. cut (dx_timeoutId s = true); [intros Hi; destruct (Hh Hi); auto|].
    destruct (dx_started s), (dx_timeoutId s), (dx_running s), (isUserInboxStreamUpToDate _), (dx_paused s); done.
  - destruct (mainQueuesEmpty s && streams_isEmpty s) eqn:Ee.
    + unfold setStatus. run. case_bool_decide; run; (split; [done|]); unfold isEmpty; intros _ Hn;
        change (mainQueuesEmpty s && streams_isEmpty s = false) in Hn; congruence.
    + run. split; [by left|]. by left.
Qed.

(** What the timers depend on *)
Definition tm (s : Decryption) := (dx_tick s, dx_timeoutId s, dx_timer s, dx_running s).
Lemma timers_tm s s' : tm s' = tm s → timers s → timers s'.
Proof. unfold tm, timers. intros E. by injection E as -> -> -> ->. Qed.
Lemma steady_tm s s' : tm s' = tm s → steady s → steady s'.
Proof. intros E [Ht Hh]. split; [by eapply timers_tm|]. revert Hh. unfold tm, tended in *. by injection E as -> -> -> _. Qed.
Lemma check_after {A} (m : DM A) s a : keeps tm m → res m s = Ok a → steady s →
  awake (post (m ≫= λ _, checkStartTicking) s).
Proof.
  intros Hk Hr Ht. rewrite (post_bind_ok _ _ a) by done. apply check_awake. by eapply steady_tm; [apply Hk|].
Qed.
Lemma quiet_tm {A} (m : DM A) : quiet m → keeps tm m.
Proof. intros Hq s. destruct (Hq s) as [E _]. unfold ctl, tm in *. by injection E as -> -> -> _ _ -> _ _. Qed.
Lemma check_after_quiet {A} (m : DM A) s : quiet m → steady s → awake (post (m ≫= λ _, checkStartTicking) s).
Proof. intros Hq Ht. destruct (Hq s) as [_ (a & Ha)]. by apply (check_after m s a); [apply quiet_tm| |]. Qed.

Lemma steady_quiet {A} (m : DM A) (f : A → DM unit) s : quiet m →
  (∀ a s', steady s' → awake (post (f a) s')) → steady s → awake (post (m ≫= f) s).
Proof.
  intros Hq Hf Ht. destruct (Hq s) as [_ (a & Ha)]. rewrite (post_bind_ok _ _ a) by done. apply Hf.
  by eapply steady_tm; [apply (quiet_tm m Hq)|].
Qed.

(** Steps that add no work *)
Definition shrinks : relation Decryption := λ s s', ctl s' = ctl s ∧ (isEmpty s = true → isEmpty s' = true).
#[local] Instance shrinks_preorder : PreOrder shrinks.
Proof. split; [by intros s|]. intros s1 s2 s3 [E1 H1] [E2 H2]. split; [congruence|auto]. Qed.
Lemma shrinks_awake s s' : shrinks s s' → awake s → awake s'.
Proof.
  intros [E Hw] [Ht Ha]. unfold ctl in E. injection E as E1 E2 E3 E4 E5 E6 E7 E8. split.
  - eapply steady_tm; [|done]. unfold tm. congruence.
  - unfold ready, ticking in *. rewrite E1, E3, E4, E5, E6, E7, E8. intros Hr He. apply Ha; [done|].
    destruct (isEmpty s); [|done]. by rewrite Hw in He.
Qed.

Lemma empty_streams_insert s x t : streams_isEmpty s = true → tasks_isEmpty t = true →
  forallb tasks_isEmpty (jm_values (<[x := t]> (dx_streams s))) = true.
Proof.
  unfold streams_isEmpty, jm_values, insert, jsmap_insert. simpl. destruct (dx_streams s) as [l]. simpl. intros Hl Ht.
  induction l as [|[k v] l IH]; simpl in *; [by rewrite Ht|]. apply andb_true_iff in Hl as [Hv Hl].
  case_decide; simpl; [by rewrite Ht|]. rewrite Hv. by apply IH.
Qed.
Lemma empty_streams_lookup s x t : streams_isEmpty s = true → dx_streams s !! x = Some t → tasks_isEmpty t = true.
Proof.
  unfold streams_isEmpty. rewrite forallb_forall. intros He Hx. apply He.
  apply list_elem_of_In, list_elem_of_fmap. exists (x, t). split; [done|]. by apply jm_lookup_entries.
Qed.

Lemma moves_shrinks_getQueue x : moves shrinks (getQueue x).
Proof.
  intros s. unfold getQueue. run. destruct (dx_streams s !! x) as [t|] eqn:Hx; [reflexivity|]. split; [done|].
  unfold isEmpty. intros [Hm Hs]%andb_true_iff. apply andb_true_iff. split; [done|]. by apply empty_streams_insert.
Qed.
#[local] Hint Resolve moves_shrinks_getQueue : moves.
Lemma moves_shrinks_on_queue x f : (∀ t, tasks_isEmpty t = true → tasks_isEmpty (f t) = true) →
  moves shrinks (on_queue x f).
Proof.
  intros Hf. unfold on_queue. moves. apply moves_modify. intros s. split; [done|].
  unfold isEmpty. intros [Hm Hs]%andb_true_iff. apply andb_true_iff. split; [done|].
  unfold streams_isEmpty. simpl. unfold jm_alter. destruct (dx_streams s !! x) as [t|] eqn:Hx; [|done].
  apply empty_streams_insert; [done|]. by apply Hf, (empty_streams_lookup s x).
Qed.
Lemma removeSolicitation_nil x k : removeSolicitation x k [] = [].
Proof. done. Qed.
Lemma shrinks_remove_own x k : moves shrinks
  (modify (λ s, s <| dx_ownKeySolicitations ::= removeSolicitation x k |>) : DM unit).
Proof.
  apply moves_modify. intros s. split; [done|]. unfold isEmpty, mainQueuesEmpty. simpl.
  intros [[[Hp Hn]%andb_true_iff Ho]%andb_true_iff Hs]%andb_true_iff.
  apply Nat.eqb_eq, length_zero_iff_nil in Ho. rewrite Ho, Hp, Hn. by rewrite removeSolicitation_nil.
Qed.
Lemma tasks_remove x k t : tasks_isEmpty t = true →
  tasks_isEmpty (t <| keySolicitations ::= removeSolicitation x k |>) = true.
Proof.
  unfold tasks_isEmpty. simpl. intros [[-> Hk]%andb_true_iff ->]%andb_true_iff.
  apply Nat.eqb_eq, length_zero_iff_nil in Hk. by rewrite Hk.
Qed.

(** Delays that do not throw *)
Definition delays (d : Delegate) : Prop := ∀ n, ∃ t, respondDelay d n = Ok t.

Lemma quiet_push x i : quiet (pushSolicitation userId x i).
Proof. unfold pushSolicitation. quiet. Qed.
#[local] Hint Resolve quiet_push : dec.
Lemma quiet_init d x h b n l : delays d → quiet (initSolicitations userDevice userId d x h b n l).
Proof.
  intros Hd. revert n. induction l as [|[[u a] c] l IH]; intros n; simpl; [apply quiet_ret|].
  destruct (_ || _); [apply IH|]. destruct (Hd n) as [t ->].
  apply quiet_bind; [intros s; split; [done|by eexists]|]. intros ?. apply quiet_bind; [apply quiet_push|]. intros ?. apply IH.
Qed.

Lemma awake_bind {A B} (m : DM A) (f : A → DM B) s : quiet m → moves shrinks m →
  (∀ a s', awake s' → awake (post (f a) s')) → awake s → awake (post (m ≫= f) s).
Proof.
  intros Hq Hm Hf Ha. destruct (Hq s) as [_ (a & Hr)]. rewrite (post_bind_ok _ _ a) by done.
  apply Hf. by eapply shrinks_awake; [apply Hm|].
Qed.

Lemma awake_solicitation d x h u a c b s : awake s →
  awake (post (run_op (D_solicitation d x h u a c b)) s).
Proof.
  simpl. unfold enqueueKeySolicitation. destruct (String.eqb (ksc_deviceKey c) _); [done|].
  apply awake_bind; [quiet|apply moves_shrinks_getQueue|]. intros _ s1. cbv zeta. apply awake_bind; [quiet| |].
  { destruct (String.eqb u userId); [apply shrinks_remove_own|]. apply moves_shrinks_on_queue, tasks_remove. }
  intros _ s2. destruct (_ || _); [|done]. apply awake_bind; [quiet|by apply moves_shrinks_on_queue|].
  intros _ s3 Ha. destruct (respondDelay d 0) as [t|e]; run; [|done].
  apply check_after_quiet; [apply quiet_push|apply Ha].
Qed.

Lemma awake_init d x h l b s : delays d → awake s → awake (post (run_op (D_initSolicitations d x h l b)) s).
Proof.
  intros Hd [Ht _]. simpl. unfold enqueueInitKeySolicitations. revert s Ht.
  intros s. apply steady_quiet; [quiet|]. intros _ ?. apply steady_quiet; [quiet|]. intros _ ?.
  apply steady_quiet; [by apply quiet_init|]. intros _ ?. by apply check_after_quiet; quiet.
Qed.

Lemma awake_retry x s : awake s → awake (post (run_op (D_retry x)) s).
Proof.
  simpl. unfold retryDecryptionFailures. apply awake_bind; [quiet|apply moves_shrinks_getQueue|].
  intros _ s1 Ha. run. destruct (negb _); [|done]. apply check_after_quiet; [quiet|]. apply Ha.
Qed.

Lemma ends_awake m s : ends m → dx_timer s = false → (dx_running s = true → dx_timeoutId s = true) →
  awake (post m s).
Proof.
  intros He Htm Hr. destruct (He s) as [E Hc]. unfold env in E. injection E as E1 E2 E3 E4 E5.
  unfold awake, steady, timers, tended, ready, ticking. rewrite E1, E2, E3, E4, E5, Htm.
  destruct Hc as [(Hs & -> & ->)|(-> & -> & ->)].
  - split; [split; [done|by right]|]. intros _ _. right. by left.
  - split; [split; [split; [done|by intros []]|done]|]. right. right. lia.
Qed.

(** An answer does nothing, or makes the tick run on to its next wait. *)
Lemma answer_cases (P : Decryption → Prop) d a s :
  P s → (∀ m, ends m → is_Some (dx_tick s) → P (post m s)) → P (post (run_op (D_answer d a)) s).
Proof.
  intros Hs He. simpl. unfold answered. run. destruct (dx_tick s) as [pc|] eqn:Et; [|done].
  destruct pc, a; try match goal with |- context [match ?l with [] => _ | _ :: _ => _ end] => destruct l end;
    first [exact Hs | apply He; [auto with dec nocore|done]].
Qed.
Lemma tick_awake m s : timers s → ends m → is_Some (dx_tick s) → awake (post m s).
Proof. intros [_ Ht] Hm Hp. destruct (Ht Hp). by apply ends_awake. Qed.
Lemma timer_awake d s : timers s → dx_timer s = true → prioritised d s →
  awake (post (tick userDevice userId d) (s <| dx_timer := false |>)).
Proof.
  intros [Ht _] Htm Hp. apply tick_cases.
  - intros m Hm. apply ends_awake; [done|done|]. intros _. exact (Ht Htm).
  - intros e He. destruct (prioritised_sorts d s Hp) as [l Hl]. change (sortedStreamIds d s = Throw e) in He. congruence.
Qed.
Lemma timer_timers d s : timers s → dx_timer s = true →
  timers (post (tick userDevice userId d) (s <| dx_timer := false |>)).
Proof.
  intros [Ht _] Htm. apply tick_cases; [|by intros e _; split; [|intros []]].
  intros m Hm. apply ends_awake; [done|done|]. intros _. exact (Ht Htm).
Qed.

Lemma awake_step op s : op ≠ D_download → (∀ d x h l b, op = D_initSolicitations d x h l b → delays d) →
  (∀ d, op = D_timer d → prioritised d s) → awake s → awake (post (run_op op) s).
Proof.
  intros Hd Hi Hp Ha. pose proof Ha as [Ht _]. destruct op; try done; simpl.
  - unfold enqueueNewGroupSessions. run. by apply check_awake.
  - unfold enqueueNewEncryptedContent. apply steady_quiet; [unfold whenM; quiet| |done]. intros _ s1 Ht1. run.
    apply check_after_quiet; [quiet|]. done.
  - eapply awake_init; eauto.
  - by apply awake_solicitation.
  - unfold setStreamUpToDate. run. by apply check_awake.
  - unfold resetUpToDateStreams. run. by apply check_awake.
  - by apply awake_retry.
  - unfold start. run. destruct (dx_started s); run; [done|]. unfold enqueueNewMessageDownload. run. by apply check_awake.
  - unfold stop. run. split; [split; [split|]; done|].
    unfold ready. simpl. by rewrite andb_false_r.
  - unfold setPaused. run. destruct hidden; [|by apply check_awake].
    run. split; [done|]. unfold ready. simpl. by rewrite andb_false_r.
  - unfold timerFires. run. destruct (dx_timer s) eqn:Etm; [|done]. run. apply timer_awake; [apply Ht|done|by apply Hp].
  - unfold recheckFires. run. destruct (dx_rechecks s) eqn:En; [done|]. run. by apply check_awake.
  - apply (answer_cases awake d a); [done|]. intros m. apply tick_awake, Ht.
Qed.

(** The timers stay in order in all runs. *)
Definition timed : relation Decryption := λ s s', timers s → timers s'.
#[local] Instance timed_preorder : PreOrder timed.
Proof. split; [by intros s ?|]. intros s1 s2 s3 H1 H2 Ht. auto. Qed.
Lemma timed_keeps {A} (m : DM A) : keeps tm m → moves timed m.
Proof. intros Hk s Ht. exact (timers_tm _ _ (Hk s) Ht). Qed.
Lemma timed_modify f : (∀ s, tm (f s) = tm s) → moves timed (modify f : DM unit).
Proof. intros Hf. by apply timed_keeps, keeps_modify. Qed.
Lemma timed_on_queue x f : moves timed (on_queue x f).
Proof. apply timed_keeps, quiet_tm, quiet_on_queue. Qed.
Lemma timed_getQueue x : moves timed (getQueue x).
Proof. apply timed_keeps, quiet_tm, quiet_getQueue. Qed.
Lemma timed_check : moves timed checkStartTicking.
Proof. exact check_timers. Qed.
Lemma timed_push x i : moves timed (pushSolicitation userId x i).
Proof. apply timed_keeps, quiet_tm, quiet_push. Qed.
#[local] Hint Resolve timed_on_queue timed_getQueue timed_check timed_push : moves.
Ltac timed := repeat (moves; try (apply timed_modify; intros ?; reflexivity)).
Lemma timed_init d x h b n l : moves timed (initSolicitations userDevice userId d x h b n l).
Proof.
  revert n. induction l as [|[[u a] c] l IH]; intros n; simpl; [moves|]. destruct (_ || _); [apply IH|]. timed.
Qed.
#[local] Hint Resolve timed_init : moves.

Lemma timed_stop : moves timed stop.
Proof. intros s Ht. by split. Qed.
#[local] Hint Resolve timed_stop : moves.

Lemma timers_step op s : timers s → timers (post (run_op op) s).
Proof.
  destruct (match op with D_timer _ | D_answer _ _ => true | _ => false end) eqn:Eo.
  - intros Ht. destruct op; try done.
    + simpl. unfold timerFires. run. destruct (dx_timer s) eqn:Etm; [|done]. run. by apply timer_timers.
    + apply (answer_cases timers d a); [done|]. intros m Hm Hp. by apply tick_awake.
  - revert s. change (moves timed (run_op op)). destruct op; try done; simpl;
      unfold enqueueNewGroupSessions, enqueueNewEncryptedContent, enqueueInitKeySolicitations, enqueueKeySolicitation,
        setStreamUpToDate, resetUpToDateStreams, retryDecryptionFailures, start, enqueueNewMessageDownload,
        setHighPriorityStreams, setPaused, recheckFires; timed.
Qed.


(** A tick that meets a stream whose priority throws leaves the queue stuck. *)
Definition wedged (s : Decryption) : Prop := dx_timeoutId s = true ∧ dx_timer s = false ∧ dx_tick s = None.
Lemma throw_sticks d s e : timers s → dx_timer s = true →
  dx_priorityTasks s = [] → dx_newGroupSession s = [] → dx_ownKeySolicitations s = [] →
  sortedStreamIds d s = Throw e → wedged (post (run_op (D_timer d)) s).
Proof.
  intros [Ht _] Htm Hp Hn Ho He. simpl. unfold timerFires. run. rewrite Htm. run. unfold tick. run.
  set (s1 := s <| dx_timer := false |>). change (dx_priorityTasks s1 = []) in Hp. change (dx_newGroupSession s1 = []) in Hn.
  change (dx_ownKeySolicitations s1 = []) in Ho. change (sortedStreamIds d s1 = Throw e) in He.
  rewrite Hp, Hn, Ho, He. split_and!; [|done|done]. exact (Ht Htm).
Qed.

(** Nothing but [stop] gets it out: every other call and event leaves it stuck. *)
Definition sticks : relation Decryption := λ s s', wedged s → wedged s'.
#[local] Instance sticks_preorder : PreOrder sticks.
Proof. split; [by intros s ?|]. intros s1 s2 s3 H1 H2 Ht. auto. Qed.
Lemma sticks_keeps {A} (m : DM A) : keeps tm m → moves sticks m.
Proof. intros Hk s (H1 & H2 & H3). specialize (Hk s). unfold tm in Hk. unfold wedged. injection Hk as -> -> -> _. by split_and!. Qed.
Lemma sticks_modify f : (∀ s, tm (f s) = tm s) → moves sticks (modify f : DM unit).
Proof. intros Hf. by apply sticks_keeps, keeps_modify. Qed.
Lemma sticks_on_queue x f : moves sticks (on_queue x f).
Proof. apply sticks_keeps, quiet_tm, quiet_on_queue. Qed.
Lemma sticks_getQueue x : moves sticks (getQueue x).
Proof. apply sticks_keeps, quiet_tm, quiet_getQueue. Qed.
Lemma sticks_push x i : moves sticks (pushSolicitation userId x i).
Proof. apply sticks_keeps, quiet_tm, quiet_push. Qed.
Lemma sticks_check : moves sticks checkStartTicking.
Proof.
  intros s (H1 & H2 & H3). unfold Decryption.checkStartTicking. run. rewrite H1, orb_true_r. by split_and!.
Qed.
#[local] Hint Resolve sticks_on_queue sticks_getQueue sticks_check sticks_push : moves.
Ltac sticks := repeat (moves; try (apply sticks_modify; intros ?; reflexivity)).
Lemma sticks_init d x h b n l : moves sticks (initSolicitations userDevice userId d x h b n l).
Proof.
  revert n. induction l as [|[[u a] c] l IH]; intros n; simpl; [moves|]. destruct (_ || _); [apply IH|]. sticks.
Qed.
#[local] Hint Resolve sticks_init : moves.
Lemma sticks_step op : op ≠ D_stop → moves sticks (run_op op).
Proof.
  intros Hs. destruct op; try done; simpl;
    unfold enqueueNewGroupSessions, enqueueNewEncryptedContent, enqueueInitKeySolicitations, enqueueKeySolicitation,
      setStreamUpToDate, resetUpToDateStreams, retryDecryptionFailures, start, enqueueNewMessageDownload,
      setHighPriorityStreams, setPaused, recheckFires; try solve [sticks]; intros s (H1 & H2 & H3).
  - unfold timerFires. run. by rewrite H2.
  - unfold answered. run. by rewrite H3.
Qed.
Lemma wedged_until_stop ops s : D_stop ∉ ops → wedged s → wedged (exec ops s).1.
Proof.
  intros Hn Hs. apply (exec_invariant (λ _, wedged)); [done|]. intros _ s' op Hin. apply sticks_step. by intros ->.
Qed.
End Facts.
