(* ===== verification/DecryptionKeys.v ===== *)
(** * DecryptionKeys: whom the decryption queue gives keys to, and what it asks for

    Keys of a stream are sent only in answer to a request that was valid, to a user
    who is entitled to them, and only keys that were asked for. The argument is
    about everything a run does, in its order. *)

From S2P Require Import Prelude JsLib JsMap Ids Proto Types StreamEvents Decryption DecryptionFacts.

(** The request wants the key: it names it, or comes from a device without keys. *)
Definition asked (item : KeySolicitationItem) (sessionId : string) : Prop :=
  ksc_isNewDevice (ksi_solicitation item) = true ∨ sessionId ∈ ksc_sessionIds (ksi_solicitation item).
(** The session came from the crypto module, for an id that the request wants. *)
Definition sourced (item : KeySolicitationItem) (seg : list DecOut) (g : GroupEncryptionSession) : Prop :=
  ∃ sessionId, asked item sessionId ∧ answer_exportGroupSession (ksi_streamId item) sessionId (Some g) ∈ seg.

(** What the queue does while it works on a request *)
Definition about (item : KeySolicitationItem) (o : DecOut) : Prop :=
  match o with
  | decryptionExtStatusChanged _ => True
  | call_getGroupSessionIds x | call_exportGroupSession x _ | answer_exportGroupSession x _ _ => x = ksi_streamId item
  | call_isUserEntitled x u skip => x = ksi_streamId item ∧ u = ksi_fromUserId item ∧ skip = false
  | answer_isUserEntitled x u skip b => x = ksi_streamId item ∧ u = ksi_fromUserId item ∧ skip = false ∧ b = true
  | call_sendKeyFulfillment data => ∃ all, data = fulfilment (sortRequest item) all
  | answer_sendKeyFulfillment data e => e = None ∧ ∃ all, data = fulfilment (sortRequest item) all
  | call_encryptAndShareGroupSessions data => gsd_item data = sortRequest item
  | _ => False
  end.

(** The run so far ends with work on the request, from the check that it is valid. *)
Definition phase (tr : list DecOut) (item : KeySolicitationItem) (P : list DecOut → Prop) : Prop :=
  ∃ tr0 seg, tr = tr0 ++ call_isValidEvent item true :: seg ∧ Forall (about item) seg ∧ P seg.

Definition entitled (item : KeySolicitationItem) (seg : list DecOut) : Prop :=
  call_isUserEntitled (ksi_streamId item) (ksi_fromUserId item) false ∈ seg
  ∧ answer_isUserEntitled (ksi_streamId item) (ksi_fromUserId item) false true ∈ seg.
Definition gathered (item : KeySolicitationItem) (all : list GroupEncryptionSession) (seg : list DecOut) : Prop :=
  entitled item seg ∧ ∀ g, g ∈ all → sourced item seg g.
Definition accepted (item : KeySolicitationItem) (all : list GroupEncryptionSession) (seg : list DecOut) : Prop :=
  gathered item all seg ∧ answer_sendKeyFulfillment (fulfilment (sortRequest item) all) None ∈ seg.

(** Sessions that may be sent: the request is the last one that was checked; since
    then its sender was found entitled, the sessions were exported for it and the
    fulfillment was accepted. *)
Definition granted (tr : list DecOut) (data : GroupSessionsData) : Prop :=
  ∃ item all, gsd_item data = sortRequest item ∧ gsd_streamId data = ksi_streamId item
    ∧ phase tr item (accepted item all)
    ∧ gsd_sessions data ≠ []
    ∧ ∀ g, g ∈ gsd_sessions data → g ∈ all ∧ gs_algorithm g = gsd_algorithm data.

(** Every share of a trace, with what came before it *)
Fixpoint shares_granted (tr tr' : list DecOut) : Prop :=
  match tr' with
  | [] => True
  | o :: tr' => match o with call_encryptAndShareGroupSessions data => granted tr data | _ => True end
                ∧ shares_granted (tr ++ [o]) tr'
  end.

(** What holds where the tick waits *)
Definition at_pc (tr : list DecOut) (pc : TickPc) : Prop :=
  match pc with
  | AtSessionIds item => phase tr item (λ _, True)
  | AtEntitlement item reply => ∃ item0, item = sortRequest item0 ∧ (∀ x, x ∈ reply → asked item0 x)
      ∧ phase tr item0 (λ seg, call_isUserEntitled (ksi_streamId item) (ksi_fromUserId item) false ∈ seg)
  | AtExport item reply all => ∃ item0, item = sortRequest item0 ∧ (∀ x, x ∈ reply → asked item0 x)
      ∧ phase tr item0 (gathered item0 all)
  | AtFulfillment item all => ∃ item0, item = sortRequest item0 ∧ all ≠ []
      ∧ phase tr item0 (gathered item0 all)
  | AtShare item groups => ∃ item0 all, item = sortRequest item0 ∧ phase tr item0 (accepted item0 all)
      ∧ Forall (λ '(algorithm, group), group ≠ [] ∧ ∀ g, g ∈ group → g ∈ all ∧ gs_algorithm g = algorithm) groups
  | _ => True
  end.

Lemma shares_granted_app tr tr1 tr2 :
  shares_granted tr (tr1 ++ tr2) ↔ shares_granted tr tr1 ∧ shares_granted (tr ++ tr1) tr2.
Proof.
  revert tr. induction tr1 as [|o tr1 IH]; intros tr; simpl.
  - rewrite app_nil_r. tauto.
  - rewrite IH, <- app_assoc. simpl. tauto.
Qed.

Lemma phase_app tr item (P Q : list DecOut → Prop) o :
  phase tr item P → Forall (about item) o → (∀ seg, P seg → Q (seg ++ o)) → phase (tr ++ o) item Q.
Proof.
  intros (tr0 & seg & -> & Hs & HP) Ho HQ. exists tr0, (seg ++ o). split_and!; [by rewrite <- app_assoc| |auto].
  by apply Forall_app.
Qed.
Lemma gathered_app item all seg o : gathered item all seg → gathered item all (seg ++ o).
Proof.
  intros [[? ?] Hs]. split; [split; apply elem_of_app; by left|]. intros g Hg. destruct (Hs g Hg) as (x & Hx & Hin).
  exists x. split; [done|]. apply elem_of_app. by left.
Qed.
Lemma accepted_app item all seg o : accepted item all seg → accepted item all (seg ++ o).
Proof. intros [? ?]. split; [by apply gathered_app|]. apply elem_of_app. by left. Qed.
#[local] Hint Resolve gathered_app accepted_app : core.

(** Status changes do not matter. *)
Definition is_status (o : DecOut) : Prop := match o with decryptionExtStatusChanged _ => True | _ => False end.
Lemma about_status item o : Forall is_status o → Forall (about item) o.
Proof. intros Ho. eapply Forall_impl; [done|]. by intros []. Qed.
Lemma shares_status tr o : Forall is_status o → shares_granted tr o.
Proof. intros Ho. revert tr. induction Ho as [|o l Hs Hl IH]; intros tr; [done|]. split; [by destruct o|apply IH]. Qed.
Lemma at_pc_status tr pc o : Forall is_status o → at_pc tr pc → at_pc (tr ++ o) pc.
Proof.
  intros Ho. pose proof (λ i, about_status i o Ho) as Ha.
  destruct pc; simpl; try done.
  - intros Hp. eapply phase_app; eauto.
  - intros (i0 & E & Hr & Hp). exists i0. split_and!; [done..|]. eapply phase_app; eauto.
    intros seg Hs. apply elem_of_app. by left.
  - intros (i0 & E & Hr & Hp). exists i0. split_and!; [done..|]. eapply phase_app; eauto.
  - intros (i0 & E & Hr & Hp). exists i0. split_and!; [done..|]. eapply phase_app; eauto.
  - intros (i0 & all & E & Hp & Hg). exists i0, all. split_and!; [done| |done]. eapply phase_app; eauto.
Qed.

(** ** Methods *)

Definition at_tick (tr : list DecOut) (s : Decryption) : Prop :=
  match dx_tick s with Some pc => at_pc tr pc | None => True end.
(** Code of a tick that shares only what is granted *)
Definition safe (tr : list DecOut) (m : DM unit) : Prop := ∀ s,
  shares_granted tr (out m s) ∧ at_tick (tr ++ out m s) (post m s).
(** A method that returns and tells at most its status *)
Definition mute {A} (m : DM A) : Prop := ∀ s, Forall is_status (out m s) ∧ ∃ a, res m s = Ok a.

Lemma safe_finish tr : safe tr finish.
Proof. by intros s. Qed.
Lemma safe_await tr pc : at_pc tr pc → safe tr (await pc).
Proof. intros Hp s. split; [done|]. unfold at_tick, await. run. by rewrite app_nil_r. Qed.
Lemma safe_emit tr o (k : unit → DM unit) :
  match o with call_encryptAndShareGroupSessions data => granted tr data | _ => True end →
  safe (tr ++ [o]) (k tt) → safe tr (emit true o ≫= k).
Proof.
  intros Ho Hk s. destruct (Hk s) as [Hs Ht]. run. rewrite app_assoc. done.
Qed.
Lemma safe_get tr (k : Decryption → DM unit) : (∀ s, safe tr (k s)) → safe tr (getM ≫= k).
Proof. intros Hk s. run. apply Hk. Qed.
(** A prefix that tells its status: the rest has to be safe whatever was told. *)
Lemma safe_bind {A} tr (m : DM A) (k : A → DM unit) : mute m → (∀ a o, Forall is_status o → safe (tr ++ o) (k a)) →
  safe tr (m ≫= k).
Proof.
  intros Hm Hk s. destruct (Hm s) as [Ho (a & Ha)]. destruct (Hk a _ Ho (post m s)) as [Hs Ht].
  rewrite (out_bind_ok _ _ a), (post_bind_ok _ _ a) by done. rewrite app_assoc. split; [|done].
  apply shares_granted_app. split; [by apply shares_status|done].
Qed.

Create HintDb mute.
Lemma mute_get : mute (getM : DM _).
Proof. intros s. split; [done|by eexists]. Qed.
Lemma mute_ret {A} (a : A) : mute (mret a : DM A).
Proof. intros s. split; [done|by eexists]. Qed.
Lemma mute_modify f : mute (modify f : DM unit).
Proof. intros s. split; [done|by eexists]. Qed.
Lemma mute_bind {A B} (m : DM A) (f : A → DM B) : mute m → (∀ a, mute (f a)) → mute (m ≫= f).
Proof.
  intros Hm Hf s. destruct (Hm s) as [Ho (a & Ha)]. rewrite (out_bind_ok _ _ a), (res_bind_ok _ _ a) by done.
  destruct (Hf a (post m s)) as [Ho' Hr]. split; [by apply Forall_app|done].
Qed.
Lemma mute_forM {A} (l : list A) (f : A → DM unit) : (∀ x, mute (f x)) → mute (forM l f).
Proof. intros Hf. induction l; simpl; [apply mute_ret|]. by apply mute_bind. Qed.
Lemma mute_getQueue x : mute (getQueue x).
Proof. apply mute_modify. Qed.
#[export] Hint Resolve mute_get mute_ret mute_modify mute_getQueue : mute.
Lemma mute_on_queue x f : mute (on_queue x f).
Proof. apply mute_bind; auto with mute. Qed.
Lemma mute_setStatus x : mute (setStatus x).
Proof.
  intros s. unfold setStatus. run. case_bool_decide; run; (split; [|by eexists]); [done|]. by constructor.
Qed.
#[export] Hint Resolve mute_on_queue mute_setStatus : mute.

Lemma mute_requeue x y : mute (requeue x y).
Proof.
  unfold requeue. apply mute_bind; [auto with mute|]. intros s. case_match; [|auto with mute]. apply mute_bind; auto with mute.
Qed.

Create HintDb safe.
Ltac safe :=
  repeat first
    [ apply safe_finish | apply safe_await; exact I | apply safe_get; intros ? | apply safe_emit; [exact I|]
    | solve [auto with safe nocore]
    | apply safe_bind; [solve [auto with mute nocore]|intros ???]
    | match goal with |- safe _ (match ?x with _ => _ end) => destruct x end
    | match goal with |- safe _ (let _ := _ in _) => cbv zeta end ].

Section Safe.
Context `{EthLib} (userDevice : UserDevice) (userId : string) (isUserInboxStreamUpToDate : gset string → bool).
Context (sessionKeys_fromJsonString : string → Res (list string)).

Lemma safe_checkKeys tr i c a n l : safe tr (checkKeys i c a n l).
Proof. unfold checkKeys. safe. Qed.
Lemma safe_ackIfLast tr i : safe tr (ackIfLast i).
Proof. unfold ackIfLast. safe. Qed.
#[local] Hint Resolve safe_checkKeys safe_ackIfLast : safe.
Lemma safe_newGroupSession tr i : safe tr (processNewGroupSession userDevice i).
Proof. unfold processNewGroupSession. safe. Qed.
Lemma safe_deviceDecrypted tr i a l c : safe tr (deviceDecrypted sessionKeys_fromJsonString i a l c).
Proof. unfold deviceDecrypted. safe. Qed.
Lemma safe_imported tr i l : safe tr (imported i l).
Proof. unfold imported. safe. apply safe_bind; [apply mute_forM; intros; apply mute_requeue|]. safe. Qed.
Lemma safe_content tr i : safe tr (processEncryptedContentItem i).
Proof. unfold processEncryptedContentItem. safe. Qed.
Lemma safe_decryptionFailed tr d i m : safe tr (decryptionFailed d i m).
Proof. unfold decryptionFailed. safe. Qed.
Lemma safe_missingKeys tr d x : safe tr (processMissingKeys userId d x).
Proof. unfold processMissingKeys. safe. Qed.
Lemma safe_ownEntitlement tr d x l b : safe tr (ownEntitlement userDevice userId d x l b).
Proof. unfold ownEntitlement. safe. Qed.
Lemma safe_solicit tr x l k : safe tr (solicit x l k).
Proof. unfold solicit. safe. Qed.
#[local] Hint Resolve safe_newGroupSession safe_deviceDecrypted safe_imported safe_content safe_decryptionFailed
  safe_missingKeys safe_ownEntitlement safe_solicit : safe.

Lemma phase_start tr item : phase (tr ++ [call_isValidEvent item true]) item (λ _, True).
Proof. by exists tr, []. Qed.
Lemma phase_step tr item (P Q : list DecOut → Prop) o :
  phase tr item P → about item o → (∀ seg, P seg → Q (seg ++ [o])) → phase (tr ++ [o]) item Q.
Proof. intros Hp Ho. apply phase_app; [done|]. by apply Forall_singleton. Qed.

Lemma safe_keySolicitation tr d i : safe tr (processKeySolicitation d i).
Proof.
  unfold processKeySolicitation. destruct (hasStream d _), (isValidEvent d i); simpl; safe. apply safe_await. simpl. eapply phase_step; [apply phase_start|done|done].
Qed.
#[local] Hint Resolve safe_keySolicitation : safe.

Lemma asked_reply item known x :
  x ∈ (if ksc_isNewDevice (ksi_solicitation (sortRequest item)) then sort_strings known
       else List.filter (isRequested (sortRequest item)) (sort_strings known)) → asked item x.
Proof.
  simpl. destruct (ksc_isNewDevice _) eqn:En; [by left|]. rewrite list_elem_of_In, filter_In. intros [_ Hr].
  right. unfold isRequested in Hr. apply bool_decide_eq_true in Hr. simpl in Hr. by rewrite sort_strings_Permutation in Hr.
Qed.
Lemma safe_sessionIdsKnown tr item known : phase tr item (λ _, True) → safe tr (sessionIdsKnown item known).
Proof.
  intros Hp. unfold sessionIdsKnown. safe. apply safe_await. exists item. split; [done|]. split; [apply asked_reply|].
  eapply phase_step; [done|done|]. intros seg _. apply elem_of_app. right. by left.
Qed.

Lemma safe_exportNext tr item reply all : (∀ x, x ∈ reply → asked item x) → phase tr item (gathered item all) →
  safe tr (exportNext (sortRequest item) reply all).
Proof.
  intros Hr Hp. unfold exportNext. destruct reply as [|x reply].
  - destruct all as [|g all]; [safe|]. simpl. safe. apply safe_await. exists item. split_and!; [done..|].
    eapply phase_step; [done| |auto]. by eexists.
  - safe. apply safe_await. exists item. split_and!; [done..|]. eapply phase_step; [done|done|auto].
Qed.
Lemma safe_entitlementKnown tr item reply b : (∀ x, x ∈ reply → asked item x) →
  phase tr item (λ seg, call_isUserEntitled (ksi_streamId item) (ksi_fromUserId item) false ∈ seg) →
  safe tr (entitlementKnown (sortRequest item) reply b).
Proof.
  intros Hr Hp. unfold entitlementKnown. destruct b; simpl; [|safe]. apply safe_emit; [done|].
  apply safe_exportNext; [done|].
  eapply phase_step; [done|done|]. intros seg Hs. split; [|by intros g ?%not_elem_of_nil].
  split; apply elem_of_app; [by left|right; by left].
Qed.
Lemma safe_exported tr item reply all g : (∀ x, x ∈ reply → asked item x) → phase tr item (gathered item all) →
  safe tr (exported (sortRequest item) reply all g).
Proof.
  intros Hr Hp. unfold exported. destruct reply as [|x reply]; safe.
  apply safe_exportNext; [intros y Hy; apply Hr; by right|]. eapply phase_step; [done|done|].
  intros seg Hg. destruct (gathered_app _ _ _ [answer_exportGroupSession (ksi_streamId item) x g] Hg) as [He Hs].
  split; [done|]. intros g' [Hin|Hin]%elem_of_app; [by apply Hs|]. destruct g as [g|]; [|by apply not_elem_of_nil in Hin].
  apply list_elem_of_singleton in Hin as ->. exists x. split; [apply Hr; by left|]. apply elem_of_app. right. by left.
Qed.

(** A group holds sessions of its algorithm. *)
Lemma groupSessions_spec all : Forall (λ '(algorithm, group),
  group ≠ [] ∧ ∀ g, g ∈ group → g ∈ all ∧ gs_algorithm g = algorithm) (entries (groupSessions all)).
Proof.
  unfold groupSessions. induction all as [|g all IH] using rev_ind; [done|]. rewrite foldl_snoc.
  set (m := foldl _ _ _) in *. unfold insert, jsmap_insert. simpl. unfold lookup, jsmap_lookup.
  destruct m as [l]. simpl in *. clear -IH.
  assert (Hw : ∀ a (group : list GroupEncryptionSession), (group ≠ [] ∧ ∀ g', g' ∈ group → g' ∈ all ∧ gs_algorithm g' = a) →
    group ≠ [] ∧ ∀ g', g' ∈ group → g' ∈ all ++ [g] ∧ gs_algorithm g' = a).
  { intros a group [Hn Hg]. split; [done|]. intros g' Hin. destruct (Hg g' Hin). split; [apply elem_of_app; by left|done]. }
  induction IH as [|[a group] l Hx Hl IHl]; simpl.
  - constructor; [|done]. split; [done|]. intros g' ->%list_elem_of_singleton. split; [apply elem_of_app; right; by left|done].
  - case_decide as Ha; [subst a|]; constructor; simpl; [|eapply Forall_impl; [done|]; intros [??]; apply Hw|by apply Hw|done].
    split; [by destruct group|]. intros g' [Hin|Hin]%elem_of_app; [by apply (proj2 (Hw _ _ Hx))|].
    apply list_elem_of_singleton in Hin as ->. split; [apply elem_of_app; right; by left|done].
Qed.

Lemma safe_shareNext tr item all groups : phase tr item (accepted item all) →
  Forall (λ '(algorithm, group), group ≠ [] ∧ ∀ g, g ∈ group → g ∈ all ∧ gs_algorithm g = algorithm) groups →
  safe tr (shareNext (sortRequest item) groups).
Proof.
  intros Hp Hg. unfold shareNext. destruct groups as [|[algorithm group] groups]; [safe|].
  apply Forall_cons in Hg as Hc. destruct Hc as [[Hne Hall] _]. apply safe_emit; [by exists item, all|].
  apply safe_await. exists item, all. split_and!; [done| |done]. eapply phase_step; [done|done|auto].
Qed.
Lemma safe_fulfilled tr item all e : phase tr item (gathered item all) → safe tr (fulfilled (sortRequest item) all e).
Proof.
  intros Hp. unfold fulfilled. safe. eapply safe_shareNext; [|apply groupSessions_spec].
  eapply phase_step; [done|by split; [|eexists]|]. intros seg Hs. split; [auto|]. apply elem_of_app. right. by left.
Qed.

Lemma safe_tickStreams tr d l : safe tr (tickStreams userId d l).
Proof. revert tr. induction l as [|x l IH]; intros tr; simpl; safe; apply IH. Qed.
#[local] Hint Resolve safe_tickStreams : safe.
Lemma safe_tick tr d : safe tr (tick userDevice userId d).
Proof. unfold tick. safe. Qed.

(** ** Runs *)

Definition keys_ok (tr : list DecOut) (s : Decryption) : Prop := shares_granted [] tr ∧ at_tick tr s.

Lemma keys_ok_safe tr s (m : DM unit) : safe tr m → keys_ok tr s → keys_ok (tr ++ out m s) (post m s).
Proof. intros Hm [Ht _]. destruct (Hm s). split; [|done]. by apply shares_granted_app. Qed.
Lemma keys_ok_frame tr s (m : DM unit) : Forall is_status (out m s) → dx_tick (post m s) = dx_tick s → keys_ok tr s →
  keys_ok (tr ++ out m s) (post m s).
Proof.
  intros Ho Ek [Ht Hk]. split; [apply shares_granted_app; split; [done|by apply shares_status]|].
  unfold at_tick in *. rewrite Ek. destruct (dx_tick s); [|done]. by apply at_pc_status.
Qed.

Lemma keys_ok_answer tr d a s : keys_ok tr s →
  keys_ok (tr ++ out (answered userDevice userId sessionKeys_fromJsonString d a) s)
    (post (answered userDevice userId sessionKeys_fromJsonString d a) s).
Proof.
  intros Hk. unfold answered. run. pose proof (proj2 Hk) as Ht. unfold at_tick in Ht.
  destruct (dx_tick s) as [pc|] eqn:Et; [|by run; rewrite app_nil_r].
  destruct pc, a; try match goal with |- context [match ?l with [] => _ | _ :: _ => _ end] => destruct l end;
    first [ by run; rewrite app_nil_r | apply keys_ok_safe; [|done]; try solve [safe] ]; simpl in Ht.
  - by apply safe_sessionIdsKnown.
  - destruct Ht as (i0 & -> & Hr & Hp). by apply safe_entitlementKnown.
  - destruct Ht as (i0 & -> & Hr & Hp). by apply safe_exported.
  - destruct Ht as (i0 & -> & _ & Hp). by apply safe_fulfilled.
  - destruct Ht as (i0 & all & -> & Hp & [_ Hg]%Forall_cons). by eapply safe_shareNext.
Qed.

(** The calls from outside a tick *)
Definition outside (op : DecOp) : bool := match op with D_timer _ | D_answer _ _ => false | _ => true end.
Definition hush {A} (m : DM A) : Prop := ∀ s, Forall is_status (out m s).

Lemma mute_hush {A} (m : DM A) : mute m → hush m.
Proof. intros Hm s. apply Hm. Qed.
Lemma hush_lift {A} (r : Res A) : hush (liftR r : DM A).
Proof. intros s. constructor. Qed.
Lemma hush_check b x e : hush (check b x e : DM unit).
Proof. intros s. unfold check, throwWithCode. by destruct b; run. Qed.
Lemma hush_bind {A B} (m : DM A) (f : A → DM B) : hush m → (∀ a, hush (f a)) → hush (m ≫= f).
Proof.
  intros Hm Hf s. rewrite out_bind. destruct (res m s) as [a|e]; [|done]. apply Forall_app. split; [done|apply Hf].
Qed.
Ltac hush :=
  repeat first
    [ apply mute_hush; solve [auto with mute nocore] | apply hush_lift | apply hush_check
    | apply hush_bind; [|intros ?]
    | match goal with |- hush (match ?x with _ => _ end) => destruct x end
    | match goal with |- hush (whenM _ _) => unfold whenM end
    | match goal with |- hush (let _ := _ in _) => cbv zeta end ].

Lemma hush_checkStart : hush (checkStartTicking isUserInboxStreamUpToDate).
Proof. unfold checkStartTicking. hush. Qed.
Lemma hush_push x i : hush (pushSolicitation userId x i).
Proof. unfold pushSolicitation. hush. Qed.
Lemma hush_init d x h b n l : hush (initSolicitations userDevice userId d x h b n l).
Proof.
  revert n. induction l as [|[[u a] c] l IH]; intros n; simpl; [hush|]. destruct (_ || _); [apply IH|].
  hush; [apply hush_push|apply IH].
Qed.
Lemma hush_outside op : outside op = true → hush (run_op userDevice userId isUserInboxStreamUpToDate sessionKeys_fromJsonString op).
Proof.
  destruct op; try done; intros _; simpl;
    unfold enqueueNewGroupSessions, enqueueNewEncryptedContent, enqueueInitKeySolicitations, enqueueKeySolicitation,
      setStreamUpToDate, resetUpToDateStreams, retryDecryptionFailures, start, stop, enqueueNewMessageDownload,
      setHighPriorityStreams, setPaused, recheckFires; hush; auto using hush_checkStart, hush_push, hush_init.
Qed.
Lemma keeps_tick_getQueue x : keeps dx_tick (getQueue x).
Proof. intros s. unfold getQueue. run. by destruct (dx_streams s !! x). Qed.
Lemma keeps_tick_on_queue x f : keeps dx_tick (on_queue x f).
Proof. intros s. unfold on_queue. run. apply keeps_tick_getQueue. Qed.
Lemma keeps_tick_setStatus x : keeps dx_tick (setStatus x).
Proof. unfold setStatus. keeps. Qed.
#[local] Hint Resolve keeps_tick_getQueue keeps_tick_on_queue keeps_tick_setStatus : keeps.
Lemma keeps_tick_checkStart : keeps dx_tick (checkStartTicking isUserInboxStreamUpToDate).
Proof. unfold checkStartTicking. keeps. Qed.
Lemma keeps_tick_push x i : keeps dx_tick (pushSolicitation userId x i).
Proof. unfold pushSolicitation. keeps. Qed.
#[local] Hint Resolve keeps_tick_checkStart keeps_tick_push : keeps.
Lemma keeps_tick_init d x h b n l : keeps dx_tick (initSolicitations userDevice userId d x h b n l).
Proof.
  revert n. induction l as [|[[u a] c] l IH]; intros n; simpl; [keeps|]. destruct (_ || _); [apply IH|]. keeps.
Qed.
#[local] Hint Resolve keeps_tick_init : keeps.
Lemma keeps_tick_outside op : outside op = true →
  keeps dx_tick (run_op userDevice userId isUserInboxStreamUpToDate sessionKeys_fromJsonString op).
Proof.
  destruct op; try done; intros _; simpl;
    unfold enqueueNewGroupSessions, enqueueNewEncryptedContent, enqueueInitKeySolicitations, enqueueKeySolicitation,
      setStreamUpToDate, resetUpToDateStreams, retryDecryptionFailures, start, stop, enqueueNewMessageDownload,
      setHighPriorityStreams, setPaused, recheckFires; keeps.
Qed.

Lemma keys_ok_step tr s op : keys_ok tr s →
  keys_ok (tr ++ out (run_op userDevice userId isUserInboxStreamUpToDate sessionKeys_fromJsonString op) s)
    (post (run_op userDevice userId isUserInboxStreamUpToDate sessionKeys_fromJsonString op) s).
Proof.
  intros Hk. destruct (outside op) eqn:Eo.
  - apply keys_ok_frame; [by apply hush_outside|by apply keeps_tick_outside|done].
  - destruct op; try done; [|by apply keys_ok_answer]. simpl. unfold timerFires. run.
    destruct (dx_timer s); [|by run; rewrite app_nil_r]. run. apply keys_ok_safe; [apply safe_tick|done].
Qed.

Lemma shares_granted_split tr pre data tail :
  shares_granted pre (tr ++ call_encryptAndShareGroupSessions data :: tail) → granted (pre ++ tr) data.
Proof. by intros [_ [Hg _]]%shares_granted_app. Qed.

Lemma keys_granted u ops data tr tail :
  (exec userDevice userId isUserInboxStreamUpToDate sessionKeys_fromJsonString ops (new u)).2
    = tr ++ call_encryptAndShareGroupSessions data :: tail → granted tr data.
Proof.
  intros E. apply (shares_granted_split tr [] data tail). rewrite <- E.
  refine (proj1 (exec_invariant _ _ _ _ keys_ok ops (new u) _ _)); [done|]. intros tr' s op _. apply keys_ok_step.
Qed.
End Safe.
