(* ===== verification/DecryptionContent.v ===== *)
(** * DecryptionContent: no encrypted content is lost or decrypted twice

    Items are numbered as they come in. At any time each of them is in exactly one
    place: in the queue of its stream, among the failures of its session, in the
    hands of the tick, or done with. *)

From S2P Require Import Prelude JsLib JsMap Ids Proto Types StreamEvents Decryption DecryptionFacts DecryptionKeys.

(** ** Contents of maps *)

Section Flat.
Context {K V A : Type} `{!EqDecision K} (g : K → V → list A).

(** Everything in a map, as one list *)
Definition flat (l : list (K * V)) : list A := l ≫= uncurry g.

Lemma flat_insert k v (m : jsmap K V) :
  flat (entries (<[k := v]> m)) ++ from_option (g k) [] (m !! k) ≡ₚ flat (entries m) ++ g k v.
Proof.
  unfold lookup, jsmap_lookup, insert, jsmap_insert, flat. destruct m as [l]. simpl.
  induction l as [|[k' v'] l IH]; csimpl; [by rewrite !app_nil_r|]. case_decide as Hk; csimpl; [subst|].
  - solve_Permutation.
  - rewrite <- !app_assoc. by f_equiv.
Qed.
Lemma flat_insert_same k v (m : jsmap K V) : g k v = from_option (g k) [] (m !! k) →
  flat (entries (<[k := v]> m)) = flat (entries m).
Proof.
  unfold lookup, jsmap_lookup, insert, jsmap_insert, flat. destruct m as [l]. simpl.
  induction l as [|[k' v'] l IH]; csimpl; [by intros ->|]. case_decide as Hk; csimpl; [subst|].
  - by intros ->.
  - intros E. by rewrite IH.
Qed.
End Flat.

Section FlatG.
Context {A V : Type} (g : string → V → list A).
Implicit Types m : gmap string V.

Lemma flat_permutation (l1 l2 : list (string * V)) : l1 ≡ₚ l2 → flat g l1 ≡ₚ flat g l2.
Proof. intros E. unfold flat. by rewrite E. Qed.
Lemma flat_g_delete k v m : m !! k = Some v → flat g (map_to_list m) ≡ₚ g k v ++ flat g (map_to_list (delete k m)).
Proof. intros E. by rewrite <- (flat_permutation _ _ (map_to_list_delete m k v E)). Qed.
Lemma flat_g_insert_new k v m : m !! k = None → flat g (map_to_list (<[k := v]> m)) ≡ₚ g k v ++ flat g (map_to_list m).
Proof. intros E. by rewrite (flat_permutation _ _ (map_to_list_insert m k v E)). Qed.
Lemma flat_g_insert_old k v v' m : m !! k = Some v' →
  flat g (map_to_list (<[k := v]> m)) ++ g k v' ≡ₚ flat g (map_to_list m) ++ g k v.
Proof.
  intros E. rewrite (flat_g_delete k v' m) by done.
  rewrite <- insert_delete_eq, (flat_g_insert_new k v (delete k m)) by apply lookup_delete_eq. solve_Permutation.
Qed.
End FlatG.

(** ** Where content is *)

(** In the queues, with their streams *)
Definition queued_in (m : jsmap string StreamTasks) : list (string * EncryptedContentItem) :=
  flat (λ x t, (x,.) <$> encryptedContent t) (entries m).
Definition queued (s : Decryption) : list (string * EncryptedContentItem) := queued_in (dx_streams s).
(** Among the failures, with stream and session *)
Definition failures_of (x : string) (m : gmap string (list EncryptedContentItem))
    : list (string * string * EncryptedContentItem) := flat (λ k l, (λ item, (x, k, item)) <$> l) (map_to_list m).
Definition failed (f : gmap string (gmap string (list EncryptedContentItem)))
    : list (string * string * EncryptedContentItem) := flat failures_of (map_to_list f).
Definition inflight (s : Decryption) : list EncryptedContentItem :=
  match dx_tick s with Some (AtDecrypt item) => [item] | _ => [] end.
Definition held (s : Decryption) : list EncryptedContentItem :=
  (queued s).*2 ++ (failed (dx_decryptionFailures s)).*2 ++ inflight s.

(** The item stays although its decryption failed: its key is missing. *)
Definition waits `{EthLib} (d : Delegate) (item : EncryptedContentItem) (message : option string) : bool :=
  is_Ok (onDecryptionError d item {| dse_missingSession := isSessionNotFoundError message; dse_kind := eci_kind item;
                                     dse_encryptedData := eci_encryptedData item |})
  && isSessionNotFoundError message && negb (String.length (sessionIdOf (eci_encryptedData item)) =? 0)%nat.

(** The items a step is done with: decrypted, or given up with an error *)
Definition settles `{EthLib} (op : DecOp) (s : Decryption) : list EncryptedContentItem :=
  match op, dx_tick s with
  | D_answer d Resolves, Some (AtDecrypt item) => [item]
  | D_answer d (Rejects message), Some (AtDecrypt item) => if waits d item message then [] else [item]
  | _, _ => []
  end.

Record conserved `{EthLib} (gone : list EncryptedContentItem) (s : Decryption) : Prop := {
  c_refs : eci_ref <$> (held s ++ gone) ≡ₚ seq 0 (dx_nextRef s);
  c_queued : Forall (λ '(x, item), eci_streamId item = x) (queued s);
  c_failed : Forall (λ '(x, k, item), eci_streamId item = x ∧ sessionIdOf (eci_encryptedData item) = k)
    (failed (dx_decryptionFailures s));
}.

(** What the methods that do not move content leave alone *)
Definition content (s : Decryption) := (queued s, dx_decryptionFailures s, dx_nextRef s).

Arguments queued_in : simpl never.

Lemma queued_insert x t m : queued_in (<[x := t]> m) ++ ((x,.) <$> from_option encryptedContent [] (m !! x))
  ≡ₚ queued_in m ++ ((x,.) <$> encryptedContent t).
Proof.
  pose proof (flat_insert (λ x t, (x,.) <$> encryptedContent t) x t m) as E. by destruct (m !! x).
Qed.
Lemma queued_insert_same x t m : encryptedContent t = from_option encryptedContent [] (m !! x) →
  queued_in (<[x := t]> m) = queued_in m.
Proof. intros E. apply flat_insert_same. rewrite E. by destruct (m !! x). Qed.

Lemma content_getQueue x : keeps content (getQueue x).
Proof.
  intros s. unfold getQueue. run. destruct (dx_streams s !! x) eqn:Ex; [done|].
  unfold content, queued. simpl. by rewrite queued_insert_same by (by rewrite Ex).
Qed.
#[local] Hint Resolve content_getQueue : keeps.

(** The tasks that [getQueue] finds or makes *)
Definition tasks (s : Decryption) (x : string) : StreamTasks := default newTasks (dx_streams s !! x).
Lemma tasks_getQueue x s : dx_streams (post (getQueue x) s) !! x = Some (tasks s x).
Proof.
  unfold getQueue, tasks. run. destruct (dx_streams s !! x) eqn:Ex; [done|]. simpl. by rewrite jm_lookup_insert_eq.
Qed.
Lemma streams_on_queue x f s :
  dx_streams (post (on_queue x f) s) = <[x := f (tasks s x)]> (dx_streams (post (getQueue x) s)).
Proof. unfold on_queue, jm_alter. rewrite (post_bind_ok _ _ tt) by done. run. simpl. by rewrite tasks_getQueue. Qed.
Lemma queued_getQueue x s : queued_in (dx_streams (post (getQueue x) s)) = queued s.
Proof. pose proof (content_getQueue x s) as E. by injection E. Qed.

Lemma queued_on_queue x f s :
  queued (post (on_queue x f) s) ++ ((x,.) <$> encryptedContent (tasks s x))
  ≡ₚ queued s ++ ((x,.) <$> encryptedContent (f (tasks s x))).
Proof.
  unfold queued at 1. rewrite streams_on_queue. pose proof (queued_insert x (f (tasks s x)) (dx_streams (post (getQueue x) s))) as E.
  by rewrite tasks_getQueue, queued_getQueue in E.
Qed.
Lemma on_queue_frame x f s : let s' := post (on_queue x f) s in
  dx_decryptionFailures s' = dx_decryptionFailures s ∧ dx_nextRef s' = dx_nextRef s ∧ dx_tick s' = dx_tick s.
Proof. unfold on_queue, getQueue. run. by destruct (dx_streams s !! x). Qed.
Lemma content_at_queue x f s : encryptedContent (f (tasks s x)) = encryptedContent (tasks s x) →
  content (post (on_queue x f) s) = content s.
Proof.
  intros Hf. destruct (on_queue_frame x f s) as (E1 & E2 & _). unfold content. rewrite E1, E2.
  unfold queued at 1. by rewrite streams_on_queue, queued_insert_same, queued_getQueue by by rewrite tasks_getQueue.
Qed.
Lemma content_on_queue x f : (∀ t, encryptedContent (f t) = encryptedContent t) → keeps content (on_queue x f).
Proof. intros Hf s. by apply content_at_queue. Qed.
Lemma content_setStatus x : keeps content (setStatus x).
Proof. unfold setStatus. keeps. Qed.
#[local] Hint Resolve content_setStatus : keeps.
#[local] Hint Extern 1 (keeps content (on_queue _ _)) => (apply content_on_queue; intros ?; reflexivity) : keeps.

Lemma content_inv s s' : content s' = content s →
  queued s' = queued s ∧ dx_decryptionFailures s' = dx_decryptionFailures s ∧ dx_nextRef s' = dx_nextRef s.
Proof. unfold content. intros E. split_and!; [exact (f_equal (λ p, p.1.1) E)|exact (f_equal (λ p, p.1.2) E)|exact (f_equal snd E)]. Qed.

(** ** Methods that leave content alone *)

(** Afterwards the tick has no content in its hands. *)
Definition lands (m : DM unit) : Prop := ∀ s, inflight (post m s) = [].
Lemma lands_finish : lands finish.
Proof. done. Qed.
Lemma lands_await pc : match pc with AtDecrypt _ => False | _ => True end → lands (await pc).
Proof. intros Hp s. unfold inflight, await. run. by destruct pc. Qed.
Lemma lands_emit o (k : unit → DM unit) : lands (k tt) → lands (emit true o ≫= k).
Proof. intros Hk s. run. apply Hk. Qed.
Lemma lands_bind {A} (m : DM A) (k : A → DM unit) : mute m → (∀ a, lands (k a)) → lands (m ≫= k).
Proof. intros Hm Hk s. destruct (Hm s) as [_ (a & Ha)]. rewrite (post_bind_ok _ _ a) by done. apply Hk. Qed.
Definition bystander (m : DM unit) : Prop := keeps content m ∧ lands m.

Create HintDb lands.
Ltac lands :=
  repeat first
    [ apply lands_finish | apply lands_await; exact I | apply lands_emit
    | solve [auto with lands nocore] | apply lands_bind; [solve [auto with mute nocore]|intros ?]
    | match goal with |- lands (match ?x with _ => _ end) => destruct x end
    | match goal with |- lands (let _ := _ in _) => cbv zeta end ].

Section Content.
Context `{EthLib} (userDevice : UserDevice) (userId : string) (isUserInboxStreamUpToDate : gset string → bool).
Context (sessionKeys_fromJsonString : string → Res (list string)).

Lemma content_await pc : keeps content (await pc).
Proof. unfold await. keeps. Qed.
Lemma content_finish : keeps content finish.
Proof. unfold finish. keeps. Qed.
#[local] Hint Resolve content_await content_finish : keeps.
Ltac bystander := split; [keeps|lands].
Lemma by_ackIfLast i : bystander (ackIfLast i).
Proof. unfold ackIfLast. bystander. Qed.
Lemma by_checkKeys i c a n l : bystander (checkKeys i c a n l).
Proof. unfold checkKeys. bystander. Qed.
Lemma by_newGroupSession i : bystander (processNewGroupSession userDevice i).
Proof. unfold processNewGroupSession. split; [keeps|lands]; apply by_checkKeys. Qed.
Lemma by_deviceDecrypted i a l c : bystander (deviceDecrypted sessionKeys_fromJsonString i a l c).
Proof. unfold deviceDecrypted. bystander. Qed.
Lemma by_missingKeys d x : bystander (processMissingKeys userId d x).
Proof. unfold processMissingKeys. bystander. Qed.
Lemma by_ownEntitlement d x l b : bystander (ownEntitlement userDevice userId d x l b).
Proof. unfold ownEntitlement. bystander. Qed.
Lemma by_solicit x l k : bystander (solicit x l k).
Proof. unfold solicit. bystander. Qed.
Lemma by_keySolicitation d i : bystander (processKeySolicitation d i).
Proof. unfold processKeySolicitation. bystander. Qed.
Lemma by_sessionIdsKnown i l : bystander (sessionIdsKnown i l).
Proof. unfold sessionIdsKnown. bystander. Qed.
Lemma by_exportNext i l a : bystander (exportNext i l a).
Proof. unfold exportNext. bystander. Qed.
Lemma by_entitlementKnown i l b : bystander (entitlementKnown i l b).
Proof. unfold entitlementKnown. split; [keeps|lands]; apply by_exportNext. Qed.
Lemma by_exported i l a g : bystander (exported i l a g).
Proof. unfold exported. split; [keeps|lands]; apply by_exportNext. Qed.
Lemma by_shareNext i l : bystander (shareNext i l).
Proof. unfold shareNext. bystander. Qed.
Lemma by_fulfilled i a e : bystander (fulfilled i a e).
Proof. unfold fulfilled. split; [keeps|lands]; apply by_shareNext. Qed.
Lemma by_finish : bystander finish.
Proof. bystander. Qed.

(** ** Methods that move content *)

Lemma queued_pop x item rest s : encryptedContent (tasks s x) = item :: rest →
  (x, item) :: queued (post (on_queue x (λ t, t <| encryptedContent := rest |>)) s) ≡ₚ queued s.
Proof.
  intros E. pose proof (queued_on_queue x (λ t, t <| encryptedContent := rest |>) s) as Hp. rewrite E in Hp. simpl in Hp.
  apply (Permutation_app_inv_r ((x,.) <$> rest)). rewrite <- Hp. solve_Permutation.
Qed.
Lemma queued_push x items s :
  queued (post (on_queue x (λ t, t <| encryptedContent ::= (.++ items) |>)) s) ≡ₚ queued s ++ ((x,.) <$> items).
Proof.
  pose proof (queued_on_queue x (λ t, t <| encryptedContent ::= (.++ items) |>) s) as Hp. simpl in Hp.
  rewrite fmap_app in Hp. apply (Permutation_app_inv_r ((x,.) <$> encryptedContent (tasks s x))). rewrite Hp. solve_Permutation.
Qed.

Lemma failed_present x k items (f : gmap string (gmap string (list EncryptedContentItem))) m item :
  f !! x = Some m → m !! k = Some items → item ∈ items → (x, k, item) ∈ failed f.
Proof.
  intros Hf Hm Hi. unfold failed. rewrite (flat_g_delete failures_of x m f Hf). apply elem_of_app. left.
  unfold failures_of. rewrite (flat_g_delete _ k items m Hm). apply elem_of_app. left. by apply list_elem_of_fmap_2 with (f := λ i, (x, k, i)).
Qed.
Lemma failed_record item k f : (∀ y, y ∈ (failed f).*2 → eci_ref y ≠ eci_ref item) →
  failed (recordFailure item k f) ≡ₚ (eci_streamId item, k, item) :: failed f.
Proof.
  intros Hn. unfold recordFailure. set (x := eci_streamId item). destruct (f !! x) as [m|] eqn:Ef; [|].
  2: { unfold failed. rewrite (flat_g_insert_new _ x _ f Ef). unfold failures_of at 1. by rewrite map_to_list_singleton. }
  destruct (m !! k) as [items|] eqn:Em.
  - destruct (existsb _ items) eqn:Ee.
    + exfalso. apply existsb_exists in Ee as (y & Hy%list_elem_of_In & Er%Nat.eqb_eq). apply (Hn y); [|done].
      apply list_elem_of_fmap. exists (x, k, y). split; [done|]. by eapply failed_present.
    + pose proof (flat_g_insert_old failures_of x (<[k := items ++ [item]]> m) m f Ef) as H1.
      pose proof (flat_g_insert_old (λ k l, (λ item, (x, k, item)) <$> l) k (items ++ [item]) items m Em) as H2.
      fold (failures_of x m) (failures_of x (<[k := items ++ [item]]> m)) in H2. fold (failed f) in H1.
      cbn beta in H2. rewrite fmap_app in H2. simpl in H2. unfold failed at 1.
      apply (Permutation_app_inv_r (failures_of x m ++ ((λ i, (x, k, i)) <$> items))).
      rewrite app_assoc, H1, <- app_assoc, H2. solve_Permutation.
  - pose proof (flat_g_insert_old failures_of x (<[k := [item]]> m) m f Ef) as H1. fold (failed f) in H1.
    pose proof (flat_g_insert_new (λ k l, (λ item, (x, k, item)) <$> l) k [item] m Em) as H2.
    fold (failures_of x m) (failures_of x (<[k := [item]]> m)) in H2. simpl in H2. unfold failed at 1.
    apply (Permutation_app_inv_r (failures_of x m)). rewrite H1, H2. solve_Permutation.
Qed.
Lemma failed_delete x k items (f : gmap string (gmap string (list EncryptedContentItem))) m :
  f !! x = Some m → m !! k = Some items →
  failed f ≡ₚ ((λ i, (x, k, i)) <$> items) ++ failed (alter (delete k) x f).
Proof.
  intros Ef Em. assert (alter (delete k) x f = <[x := delete k m]> f) as ->.
  { rewrite <- (insert_id f x m Ef) at 1. apply alter_insert_eq. }
  pose proof (flat_g_insert_old failures_of x (delete k m) m f Ef) as H1. fold (failed f) in H1.
  pose proof (flat_g_delete (λ k l, (λ item, (x, k, item)) <$> l) k items m Em) as H2.
  fold (failures_of x m) (failures_of x (delete k m)) in H2.
  apply (Permutation_app_inv_r (failures_of x (delete k m))). rewrite <- H1, H2. unfold failed. solve_Permutation.
Qed.

(** ** Conservation *)

Lemma conserved_frame gone s s' : content s' = content s → inflight s' = inflight s → conserved gone s → conserved gone s'.
Proof.
  intros (E1 & E2 & E3)%content_inv Ei [Hr Hq Hf]. split; [unfold held|..]; by rewrite ?E1, ?E2, ?E3, ?Ei.
Qed.
(** Code of a tick that does not touch content drops what the tick had. *)
Lemma conserved_by gone s m : bystander m → conserved gone s → conserved (inflight s ++ gone) (post m s).
Proof.
  intros [Hk Hl] [Hr Hq Hf]. destruct (content_inv _ _ (Hk s)) as (E1 & E2 & E3).
  split; rewrite ?E1, ?E2, ?E3; [|done..]. unfold held in *. rewrite E1, E2, Hl, <- Hr.
  apply fmap_Permutation. solve_Permutation.
Qed.
Lemma conserved_by_nil gone s m : bystander m → inflight s = [] → conserved gone s → conserved gone (post m s).
Proof. intros Hm Hi Hc. pose proof (conserved_by gone s m Hm Hc) as Hc'. by rewrite Hi in Hc'. Qed.

Lemma conserved_pop gone s x item rest : inflight s = [] → encryptedContent (tasks s x) = item :: rest → conserved gone s →
  conserved gone (post (_ ← on_queue x (λ t, t <| encryptedContent := rest |>); _ ← setStatus working;
                        processEncryptedContentItem item) s).
Proof.
  intros Hi Ex [Hr Hq Hf]. set (pop := on_queue x _). pose proof (queued_pop x item rest s Ex) as Hp. fold pop in Hp.
  destruct (on_queue_frame x (λ t, t <| encryptedContent := rest |>) s) as (Ef & En & _). fold pop in Ef, En.
  rewrite (post_bind_ok _ _ tt) by done. destruct (mute_setStatus working (post pop s)) as [_ (a & Ha)].
  rewrite (post_bind_ok _ _ a) by done. unfold processEncryptedContentItem, await. run.
  destruct (content_inv _ _ (content_setStatus working (post pop s))) as (E1 & E2 & E3).
  set (s' := post (setStatus working) (post pop s)) in *.
  assert (Hh : held (s' <| dx_tick := Some (AtDecrypt item) |>) ≡ₚ held s).
  { unfold held. change (queued (s' <| dx_tick := Some (AtDecrypt item) |>)) with (queued s'). simpl.
    rewrite E1, E2, Ef, Hi, <- Hp. simpl. solve_Permutation. }
  split; [rewrite Hh; simpl; by rewrite E3, En| |simpl; by rewrite E2, Ef].
  change (queued (s' <| dx_tick := Some (AtDecrypt item) |>)) with (queued s'). rewrite E1.
  rewrite <- Hp in Hq. by apply Forall_cons in Hq as [_ Hq].
Qed.

Lemma conserved_tickStreams gone d l s : inflight s = [] → conserved gone s →
  conserved gone (post (tickStreams userId d l) s).
Proof.
  revert s. induction l as [|x l IH]; intros s Hi Hc; simpl.
  { apply conserved_by_nil; [bystander|done|done]. }
  run. destruct (negb _); [by apply IH|]. fold (tasks s x). destruct (encryptedContent (tasks s x)) as [|item rest] eqn:Ex.
  2: by apply conserved_pop.
  destruct (isMissingKeys (tasks s x)).
  { apply conserved_by_nil; [|done|done]. split; [keeps|lands]; apply by_missingKeys. }
  set (queue := if keySolicitationsNeedsSort (tasks s x) then _ else _).
  assert (Eq : encryptedContent queue = encryptedContent (tasks s x)) by (unfold queue; by case_match).
  rewrite (post_bind_ok _ _ tt) by done. pose proof (content_at_queue x (λ _, queue) s Eq) as Ec.
  destruct (on_queue_frame x (λ _, queue) s) as (_ & _ & Et).
  assert (Hi' : inflight (post (on_queue x (λ _, queue)) s) = []) by (unfold inflight; by rewrite Et).
  assert (Hc' : conserved gone (post (on_queue x (λ _, queue)) s)) by (eapply conserved_frame; [done|congruence|done]).
  destruct (dequeueUpToDate _ _ _) as [[item rest]|]; [|by apply IH].
  apply conserved_by_nil; [|done|done]. split; [keeps|lands]; apply by_keySolicitation.
Qed.
Lemma conserved_tick gone d s : inflight s = [] → conserved gone s → conserved gone (post (tick userDevice userId d) s).
Proof.
  intros Hi Hc. unfold tick. run. destruct (dx_priorityTasks s); [destruct (dx_newGroupSession s);
    [destruct (dx_ownKeySolicitations s); [destruct (sortedStreamIds d s) as [l|e];
      [by apply conserved_tickStreams|apply conserved_by_nil; [bystander|done|done]]|]|]|];
    (apply conserved_by_nil; [|done|done]); split; [keeps|lands|keeps|lands|keeps|lands];
    first [apply by_keySolicitation|apply by_newGroupSession].
Qed.

(** *** A failed decryption *)

Lemma conserved_nodup gone s : conserved gone s → NoDup (eci_ref <$> (held s ++ gone)).
Proof. intros [Hr _ _]. rewrite Hr. apply NoDup_seq. Qed.
Lemma inflight_not_failed gone s item y : conserved gone s → inflight s = [item] →
  y ∈ (failed (dx_decryptionFailures s)).*2 → eci_ref y ≠ eci_ref item.
Proof.
  intros Hn%conserved_nodup Hi Hy. unfold held in Hn. rewrite Hi, !fmap_app in Hn.
  apply NoDup_app in Hn as (Hn & _ & _). apply NoDup_app in Hn as (_ & _ & Hn). apply NoDup_app in Hn as (_ & Hn & _).
  intros E. apply (Hn (eci_ref y)); [by apply list_elem_of_fmap_2|]. rewrite E. by left.
Qed.
Lemma conserved_record gone s item : inflight s = [item] → conserved gone s →
  conserved gone (post (_ ← modify (λ s, s <| dx_decryptionFailures ::= recordFailure item (sessionIdOf (eci_encryptedData item)) |>);
                        _ ← on_queue (eci_streamId item) (λ t, t <| isMissingKeys := true |>); finish) s).
Proof.
  intros Hi Hc. pose proof (λ y, inflight_not_failed gone s item y Hc Hi) as Hn. destruct Hc as [Hr Hq Hf].
  pose proof (failed_record item (sessionIdOf (eci_encryptedData item)) (dx_decryptionFailures s) Hn) as Hp.
  run. set (s1 := s <| dx_decryptionFailures ::= _ |>). set (m := on_queue _ _ ≫= _).
  assert (Hm : bystander m) by (unfold m; bystander). destruct Hm as [Hk Hl].
  destruct (content_inv _ _ (Hk s1)) as (E1 & E2 & E3). change (queued s1) with (queued s) in E1.
  change (dx_nextRef s1) with (dx_nextRef s) in E3. 
  change (dx_decryptionFailures s1) with
    (recordFailure item (sessionIdOf (eci_encryptedData item)) (dx_decryptionFailures s)) in E2.
  split; rewrite ?E1, ?E2, ?E3; [|done|].
  - rewrite <- Hr. apply fmap_Permutation. unfold held. rewrite E1, E2, Hl, Hi, Hp. simpl. solve_Permutation.
  - rewrite Hp. by constructor.
Qed.
Lemma conserved_failed gone d s item message : dx_tick s = Some (AtDecrypt item) → conserved gone s →
  conserved ((if waits d item message then [] else [item]) ++ gone) (post (decryptionFailed d item message) s).
Proof.
  intros Et Hc. assert (Hi : inflight s = [item]) by (unfold inflight; by rewrite Et).
  pose proof (conserved_by gone s _ by_finish Hc) as Hfin. rewrite Hi in Hfin.
  unfold decryptionFailed, waits. run. destruct (onDecryptionError _ _ _) as [[]|e]; [|done]. simpl.
  destruct (isSessionNotFoundError message); simpl; [|done]. destruct (_ =? 0)%nat; simpl; [done|].
  by apply conserved_record.
Qed.

(** *** New keys *)

Lemma conserved_requeue gone x k s : conserved gone s → conserved gone (post (requeue x k) s).
Proof.
  intros Hc. unfold requeue. run. destruct (dx_decryptionFailures s !! x) as [m|] eqn:Ex; simpl; [|done].
  destruct (m !! k) as [items|] eqn:Ek; [|done]. rewrite (post_bind_ok _ _ tt) by done. run.
  destruct Hc as [Hr Hq Hf]. pose proof (failed_delete x k items _ m Ex Ek) as Hd.
  pose proof (queued_push x items s) as Hp. set (push := on_queue x _) in *.
  destruct (on_queue_frame x (λ t, t <| encryptedContent ::= (.++ items) |>) s) as (E1 & E2 & E3). fold push in E1, E2, E3.
  match goal with |- conserved _ ?t => set (s' := t) end. rewrite Hd in Hf. apply Forall_app in Hf as [Hi Hf].
  assert (Ef : dx_decryptionFailures s' = alter (delete k) x (dx_decryptionFailures s)) by (unfold s'; cbn [dx_decryptionFailures]; by rewrite E1).
  change (queued (post push s)) with (queued s') in Hp. split; [|rewrite Hp|by rewrite Ef].
  - change (dx_nextRef s') with (dx_nextRef (post push s)). rewrite E2, <- Hr. apply fmap_Permutation. unfold held.
    change (inflight s') with (inflight (post push s)). unfold inflight at 1. rewrite E3. fold (inflight s).
    rewrite Ef, Hp, Hd, !fmap_app, <- !list_fmap_compose. unfold compose. simpl. rewrite !list_fmap_id. solve_Permutation.
  - apply Forall_app. split; [done|]. apply Forall_fmap. rewrite Forall_fmap in Hi. eapply Forall_impl; [exact Hi|].
    by intros i [? _].
Qed.
Lemma requeue_tick x k : keeps dx_tick (requeue x k).
Proof.
  intros s. unfold requeue. run. destruct (_ ← _; _) as [items|]; [|done]. rewrite (post_bind_ok _ _ tt) by done. run.
  apply (on_queue_frame x (λ t, t <| encryptedContent ::= (.++ items) |>) s).
Qed.
Lemma conserved_imported gone i l s : inflight s = [] → conserved gone s → conserved gone (post (imported i l) s).
Proof.
  intros Hi Hc. unfold imported. rewrite (post_bind_ok _ _ tt) by done.
  set (s1 := post (getQueue _) s). assert (Hi1 : inflight s1 = []).
  { unfold inflight. unfold s1, getQueue. run. by destruct (dx_streams s !! _). }
  assert (Hc1 : conserved gone s1) by (eapply conserved_frame; [apply content_getQueue|congruence|done]). clearbody s1.
  destruct (mute_forM l (λ session, requeue (ngs_streamId i) (gs_sessionId session))
    (λ session, mute_requeue _ _) s1) as [_ (a & Ha)]. rewrite (post_bind_ok _ _ a) by done.
  apply conserved_by_nil; [apply by_ackIfLast| |].
  - unfold inflight. assert (Hk : keeps dx_tick (forM l (λ session, requeue (ngs_streamId i) (gs_sessionId session)))).
    { apply keeps_forM. intros ?. apply requeue_tick. } by rewrite Hk.
  - clear -Hc1. revert s1 Hc1. induction l as [|g l IH]; intros s1 Hc1; simpl; [done|].
    destruct (mute_requeue (ngs_streamId i) (gs_sessionId g) s1) as [_ (a & Ha)]. rewrite (post_bind_ok _ _ a) by done.
    apply IH. by apply conserved_requeue.
Qed.

(** ** Runs *)

Abbreviation run_op := (run_op userDevice userId isUserInboxStreamUpToDate sessionKeys_fromJsonString).

Lemma content_checkStart : keeps content (checkStartTicking isUserInboxStreamUpToDate).
Proof. unfold checkStartTicking. keeps. Qed.
Lemma content_push x i : keeps content (pushSolicitation userId x i).
Proof. unfold pushSolicitation. keeps. Qed.
#[local] Hint Resolve content_checkStart content_push : keeps.
Lemma content_init d x h b n l : keeps content (initSolicitations userDevice userId d x h b n l).
Proof.
  revert n. induction l as [|[[u a] c] l IH]; intros n; simpl; [keeps|]. destruct (_ || _); [apply IH|]. keeps.
Qed.
#[local] Hint Resolve content_init : keeps.
Lemma content_outside op : outside op = true → (∀ x e k c, op ≠ D_content x e k c) → keeps content (run_op op).
Proof.
  destruct op; try done; intros _ Hn; [|by destruct (Hn streamId eventId kind data)|..]; simpl;
    unfold enqueueNewGroupSessions, enqueueInitKeySolicitations, enqueueKeySolicitation, setStreamUpToDate,
      resetUpToDateStreams, retryDecryptionFailures, start, stop, enqueueNewMessageDownload, setHighPriorityStreams,
      setPaused, recheckFires; keeps.
Qed.

(** New content gets the next number. *)
Lemma conserved_push gone x item s : eci_ref item = dx_nextRef s → eci_streamId item = x → conserved gone s →
  conserved gone (post (on_queue x (λ t, t <| encryptedContent ::= (.++ [item]) |>)) (s <| dx_nextRef ::= S |>)).
Proof.
  intros Er Ex [Hr Hq Hf]. set (s1 := s <| dx_nextRef ::= S |>). pose proof (queued_push x [item] s1) as Hp.
  set (push := on_queue x _) in *.
  destruct (on_queue_frame x (λ t, t <| encryptedContent ::= (.++ [item]) |>) s1) as (E1 & E2 & E3). fold push in E1, E2, E3.
  change (queued s1) with (queued s) in Hp. change (dx_decryptionFailures s1) with (dx_decryptionFailures s) in E1.
  change (dx_nextRef s1) with (S (dx_nextRef s)) in E2. change (dx_tick s1) with (dx_tick s) in E3. clearbody s1.
  split; [|rewrite Hp|by rewrite E1].
  - rewrite E2, seq_S, <- Hr. unfold held, inflight. rewrite E1, E3, Hp, !fmap_app. simpl. rewrite Er. solve_Permutation.
  - apply Forall_app. split; [done|]. by constructor.
Qed.
Lemma conserved_content gone x e k c s : conserved gone s → conserved gone (post (run_op (D_content x e k c)) s).
Proof.
  intros Hc. simpl. unfold enqueueNewEncryptedContent.
  set (m := whenM _ _). assert (Hm : ∃ s1, post m s = s1 ∧ res m s = Ok tt ∧ conserved gone s1).
  { eexists. split; [done|]. unfold m, whenM. destruct (_ || _); [|done]. split; [done|]. by apply (conserved_frame gone s). }
  destruct Hm as (s1 & E1 & Er & Hc1). rewrite (post_bind_ok _ _ tt), E1 by done. rewrite post_bind_getM. cbv zeta.
  set (item := {| eci_ref := _ |}). 
  rewrite post_bind_modify, (post_bind_ok _ _ tt) by done. eapply conserved_frame; [apply content_checkStart| |by apply conserved_push].
  unfold inflight. by rewrite keeps_tick_checkStart.
Qed.

Lemma conserved_answer gone d a s : conserved gone s →
  conserved (settles (D_answer d a) s ++ gone) (post (run_op (D_answer d a)) s).
Proof.
  intros Hc. simpl. unfold answered, settles. run. destruct (dx_tick s) as [pc|] eqn:Et; [|by destruct a].
  assert (Hi : inflight s = match pc with AtDecrypt item => [item] | _ => [] end) by (unfold inflight; by rewrite Et).
  destruct pc, a; try match goal with |- context [match ?l with [] => _ | _ :: _ => _ end] => destruct l end; try done;
    try (by apply conserved_by_nil; [eauto using by_finish, by_ackIfLast, by_checkKeys, by_deviceDecrypted, by_ownEntitlement,
      by_solicit, by_sessionIdsKnown, by_entitlementKnown, by_exported, by_fulfilled, by_shareNext| |]).
  - by apply conserved_imported.
  - by apply conserved_failed.
  - rewrite <- Hi. by apply conserved_by; [apply by_finish|].
Qed.

Lemma conserved_step gone op s : timers s → conserved gone s → conserved (settles op s ++ gone) (post (run_op op) s).
Proof.
  intros Ht Hc. destruct (outside op) eqn:Eo.
  - assert (settles op s = []) as -> by by destruct op. simpl.
    destruct (match op with D_content _ _ _ _ => true | _ => false end) eqn:Ec.
    + destruct op; try done. by apply conserved_content.
    + eapply conserved_frame; [apply content_outside; [done|by intros ???? ->]| |done].
      unfold inflight. by rewrite keeps_tick_outside.
  - destruct op; try done; [|by apply conserved_answer]. simpl. unfold timerFires. run.
    destruct (dx_timer s) eqn:Etm; [|done]. run. apply conserved_tick; [|by apply (conserved_frame gone s)].
    unfold inflight. simpl. destruct (dx_tick s) as [pc|] eqn:Ep; [|done]. destruct Ht as [_ Ht].
    rewrite Ep in Ht. destruct Ht as [Ht _]; [done|]. congruence.
Qed.

(** A run, with the items it is done with *)
Definition history (ops : list DecOp) (s : Decryption) : Decryption * list EncryptedContentItem :=
  foldl (λ '(s, gone) op, (post (run_op op) s, settles op s ++ gone)) (s, []) ops.

Lemma history_invariant ops s gone : timers s → conserved gone s →
  let '(s', gone') := foldl (λ '(s, gone) op, (post (run_op op) s, settles op s ++ gone)) (s, gone) ops in
  timers s' ∧ conserved gone' s'.
Proof.
  revert s gone. induction ops as [|op ops IH]; intros s gone Ht Hc; [done|]. apply IH; [by apply timers_step|].
  by apply conserved_step.
Qed.

(** C4. Content is conserved: in every run, each item that was ever enqueued is in
    exactly one place: in a queue, among the failures, with the tick in progress, or
    done with, which means that it was decrypted or that its decryption failed in a
    way that a key cannot cure. Queued content is in the queue of its own stream, and
    a failure is filed under its own stream and session. *)
Theorem content_conserved u ops :
  let s := (history ops (new u)).1 in let gone := (history ops (new u)).2 in
  eci_ref <$> (held s ++ gone) ≡ₚ seq 0 (dx_nextRef s)
  ∧ (∀ x item, (x, item) ∈ queued s → eci_streamId item = x)
  ∧ (∀ x k item, (x, k, item) ∈ failed (dx_decryptionFailures s) →
       eci_streamId item = x ∧ sessionIdOf (eci_encryptedData item) = k).
Proof.
  pose proof (history_invariant ops (new u) []) as Hi. unfold history. destruct (foldl _ _ ops) as [s gone]. simpl.
  destruct Hi as [_ [Hr Hq Hf]]; [by split; [|intros []]|by split|]. rewrite Forall_forall in Hq. rewrite Forall_forall in Hf.
  split_and!; [done|intros x item Hx; exact (Hq _ Hx)|intros x k item Hx; exact (Hf _ Hx)].
Qed.
End Content.

(** ** What new keys do *)

Definition failures_at (s : Decryption) (x k : string) : list EncryptedContentItem :=
  default [] (m ← dx_decryptionFailures s !! x; m !! k).

Lemma tasks_on_queue x f y s : tasks (post (on_queue x f) s) y = if decide (x = y) then f (tasks s x) else tasks s y.
Proof.
  unfold tasks at 1. rewrite streams_on_queue, jm_lookup_insert. case_decide; [done|].
  unfold getQueue. run. destruct (dx_streams s !! x) eqn:Ex; [done|]. simpl. by rewrite jm_lookup_insert_ne.
Qed.

Lemma requeue_spec x k s : let s' := post (requeue x k) s in
  encryptedContent (tasks s' x) = encryptedContent (tasks s x) ++ failures_at s x k
  ∧ ∀ j, failures_at s' x j = if decide (k = j) then [] else failures_at s x j.
Proof.
  unfold requeue. rewrite post_bind_getM. unfold failures_at. destruct (m ← _; _) as [items|] eqn:Em.
  - destruct (dx_decryptionFailures s !! x) as [m|] eqn:Ex; [|done]. simpl in Em.
    rewrite (post_bind_ok _ _ tt) by done. set (push := on_queue x _).
    destruct (on_queue_frame x (λ t, t <| encryptedContent ::= (.++ items) |>) s) as (E1 & _ & _). fold push in E1.
    rewrite post_modify. split.
    + transitivity (encryptedContent (tasks (post push s) x)); [done|]. unfold push. by rewrite tasks_on_queue, decide_True.
    + intros j. cbn [dx_decryptionFailures over]. rewrite E1, lookup_alter_eq, Ex. simpl.
      case_decide; [subst; by rewrite lookup_delete_eq|by rewrite lookup_delete_ne].
  - rewrite post_ret. split; [by rewrite app_nil_r|]. intros j. case_decide; [subst; by rewrite Em|done].
Qed.

Lemma requeue_all x ids s : NoDup ids → let s' := post (forM ids (requeue x)) s in
  encryptedContent (tasks s' x) = encryptedContent (tasks s x) ++ (ids ≫= failures_at s x)
  ∧ ∀ j, failures_at s' x j = if decide (j ∈ ids) then [] else failures_at s x j.
Proof.
  intros Hn. revert s. induction Hn as [|k ids Hk Hn IH]; intros s; simpl.
  { split; [by rewrite app_nil_r|]. done. }
  destruct (mute_requeue x k s) as [_ (a & Ha)]. rewrite (post_bind_ok _ _ a) by done.
  destruct (requeue_spec x k s) as [E1 E2]. destruct (IH (post (requeue x k) s)) as [H1 H2]. split.
  - rewrite H1, E1, <- app_assoc. do 2 f_equal. apply Forall_bind_ext, Forall_forall. intros j Hj. rewrite E2.
    case_decide; [by subst|done].
  - intros j. rewrite H2, E2. repeat case_decide; set_solver.
Qed.

Lemma forM_requeue x (sessions : list GroupEncryptionSession) :
  forM sessions (λ session, requeue x (gs_sessionId session)) = forM (gs_sessionId <$> sessions) (requeue x).
Proof. induction sessions as [|g l IH]; simpl; [done|]. by rewrite IH. Qed.
Lemma ack_frame i : keeps (λ s, (dx_streams s, dx_decryptionFailures s)) (ackIfLast i).
Proof. intros s. unfold ackIfLast, await, finish. run. by destruct (_ =? 0)%nat; run. Qed.

(** C35. New keys bring failed content back: when the sessions of a message have
    been imported, the content that failed for want of one of them is at the end of
    the queue of its stream, session by session and in the order it failed, and is no
    longer among the failures; the failures of other sessions stay. *)
Theorem new_keys_retry item sessions s : NoDup (gs_sessionId <$> sessions) →
  let x := ngs_streamId item in let s' := post (imported item sessions) s in
  encryptedContent (tasks s' x) = encryptedContent (tasks s x) ++ ((gs_sessionId <$> sessions) ≫= failures_at s x)
  ∧ ∀ k, failures_at s' x k = if decide (k ∈ gs_sessionId <$> sessions) then [] else failures_at s x k.
Proof.
  intros Hn x s'. set (s1 := post (getQueue x) s). set (s2 := post (forM (gs_sessionId <$> sessions) (requeue x)) s1).
  assert (Es : s' = post (ackIfLast item) s2).
  { unfold s', imported. fold x. rewrite (post_bind_ok _ _ tt), forM_requeue by done. fold s1.
    destruct (mute_forM (gs_sessionId <$> sessions) (requeue x) (mute_requeue x) s1) as [_ (a & Ha)].
    by rewrite (post_bind_ok _ _ a) by done. }
  pose proof (f_equal fst (ack_frame item s2)) as E1. pose proof (f_equal snd (ack_frame item s2)) as E2.
  rewrite <- Es in E1, E2. simpl in E1, E2. destruct (requeue_all x (gs_sessionId <$> sessions) s1 Hn) as [H1 H2]. fold s2 in H1, H2.
  destruct (content_inv _ _ (content_getQueue x s)) as (_ & Ef & _). fold s1 in Ef.
  assert (Hf : ∀ k, failures_at s1 x k = failures_at s x k) by (intros k; unfold failures_at; by rewrite Ef).
  assert (Ht : tasks s1 x = tasks s x) by (unfold tasks at 1; unfold s1; by rewrite tasks_getQueue). split.
  - unfold tasks at 1. rewrite E1. fold (tasks s2 x). rewrite H1, Ht. f_equal. apply Forall_bind_ext, Forall_true. done.
  - intros k. unfold failures_at at 1. rewrite E2. fold (failures_at s2 x k). by rewrite H2, Hf.
Qed.
