(* ===== verification/ClientDecryption.v ===== *)
(** * ClientDecryption: the decryption queue of the client
    (sdk/src/clientDecryptionExtensions.ts)

    [ClientDecryptionExtensions] connects the queue of Decryption.v with the
    client's streams: it listens to what they emit, decides which stream is served
    first, who may get keys and whether a request is authentic. *)

From S2P Require Import Prelude JsLib JsMap Ids Proto Types StreamEvents Members Channels Content StreamState Sign Unpack Decryption.

(** What the class reads of the client *)
Record Client := {
  cl_userId : string;
  cl_userInboxStreamId : option string;
  cl_streams : gmap string StreamStateView;
  cl_unpackEnvelopeOpts : option UnpackEnvelopeOpts;
}.

(** An answer, or the question to the entitlement delegate (for the permission to
    read) that has to be answered first *)
Inductive Entitlement :=
  | Settled (a : Answer)
  | AsksChain (spaceId channelId userId : string).

(** encryptedContentTypes.ts *)
Definition ContentKind_str (kind : ContentKind) : string :=
  match kind with
  | kind_text => "text" | kind_channelMessage => "channelMessage" | kind_channelProperties => "channelProperties"
  end.

Section Client.
Context `{EthLib, CryptoLib}.

Definition hasStream (c : Client) (streamId : string) : bool :=
  match cl_streams c !! streamId with Some _ => true | None => false end.

Definition isUserInboxStreamUpToDate (c : Client) (upToDateStreams : gset string) : bool :=
  match cl_userInboxStreamId c with
  | Some userInboxStreamId => bool_decide (userInboxStreamId ∈ upToDateStreams)
  | None => false
  end.

Definition getKeySolicitations (c : Client) (streamId : string) : list KeySolicitationContent :=
  default [] (stream ← cl_streams c !! streamId;
              member ← Members.joined (membershipContent stream) !! cl_userId c;
              Some (Members.me_solicitations member)).

(** [Math.random()] and the number of members only vary the delay [ms]. *)
Definition getRespondDelayMSForKeySolicitation (c : Client) (streamId : string) (ms : Z) : Res Z :=
  _ ← checkR (hasStream c streamId) "stream not found" ERR_UNSPECIFIED; Ok ms.

Definition isUserEntitledToKeyExchange (c : Client) (streamId userId : string) (skipOnChainValidation : bool)
    : Entitlement :=
  match cl_streams c !! streamId with
  | None => Settled (Rejects (Some "stream not found"))
  | Some view =>
      if negb (userIsEntitledToKeyExchange userId view) then Settled (ResolvesBool false)
      else match ssv_content view with
           | C_channel channel =>
               if negb skipOnChainValidation then AsksChain (Channel.spaceId channel) streamId userId
               else Settled (ResolvesBool true)
           | _ => Settled (ResolvesBool true)
           end
  end.
(** The rest of the method, with what the delegate says *)
Definition entitlementSettles (e : Entitlement) (entitlements : Res bool) : Answer :=
  match e with
  | Settled a => a
  | AsksChain _ _ _ => match entitlements with Ok b => ResolvesBool b | Throw _ => Rejects None end
  end.

(** With the cache [validatedEvents] *)
Definition isValidEvent (c : Client) (item : KeySolicitationItem) (validatedEvents : gmap string bool)
    : bool * gmap string bool :=
  if doCheckSignature (cl_unpackEnvelopeOpts c) then (true, validatedEvents)
  else
    let eventId := ksi_hashStr item in
    let sigBundle := ksi_sigBundle item in
    match sb_signature sigBundle with
    | None => (false, validatedEvents)
    | Some signature =>
        match validatedEvents !! eventId with
        | Some result => (result, validatedEvents)
        | None =>
            let result := is_Ok (checkEventSignature (sb_creatorAddress sigBundle) (sb_delegateSig sigBundle)
                                   (sb_delegateExpiryEpochMs sigBundle) (sb_hash sigBundle) signature) in
            (result, <[eventId := result]> validatedEvents)
        end
    end.

Definition getPriorityForStream (streamId : string) (highPriorityIds recentStreamIds : gset string) : Res Z :=
  let id := SStr streamId in
  if isUserDeviceStreamId id || isUserInboxStreamId id || isUserStreamId id || isUserSettingsStreamId id then Ok 0
  else
    let isChannel := isChannelStreamId id in
    let isDmOrGdm := isDMChannelStreamId id || isGDMChannelStreamId id in
    if (isDmOrGdm || isChannel) && bool_decide (streamId ∈ highPriorityIds) then Ok 1
    else if bool_decide (streamId ∈ recentStreamIds) then Ok 2
    else
      inViewedSpace ← (if isChannel
                       then spaceId ← spaceIdFromChannelId streamId; Ok (bool_decide (spaceId ∈ highPriorityIds))
                       else Ok false);
      if inViewedSpace : bool then Ok 3
      else if isDmOrGdm then Ok 4
      else if bool_decide (streamId ∈ highPriorityIds) then Ok 5
      else if isChannel then Ok 6
      else Ok 7.

(** The class as the queue sees it *)
Definition clientDelegate (c : Client) (validatedEvents : gmap string bool) (ms : nat → Z) (streamOfDelay : string)
    (onDecryptionError : EncryptedContentItem → DecryptionSessionError → Res unit) (now : Z) : Delegate := {|
  Decryption.hasStream := hasStream c;
  Decryption.getKeySolicitations := getKeySolicitations c;
  Decryption.isValidEvent := λ item, (isValidEvent c item validatedEvents).1;
  Decryption.getPriorityForStream := getPriorityForStream;
  Decryption.respondDelay := λ n, getRespondDelayMSForKeySolicitation c streamOfDelay (ms n);
  Decryption.onDecryptionError := onDecryptionError;
  Decryption.now := now |}.

(** ** Listeners *)

(** [client.on]: what the queue does about what a stream emits *)
Definition onEmit (userDevice : UserDevice) (c : Client) (delegate : string → Delegate) (e : Emit) : DM unit :=
  let inbox := isUserInboxStreamUpToDate c in
  match e with
  | newGroupSessions sessions _ => enqueueNewGroupSessions inbox sessions
  | newEncryptedContent streamId eventId content =>
      enqueueNewEncryptedContent inbox streamId eventId (ContentKind_str (ec_kind content)) (ec_content content)
  | newKeySolicitation streamId eventHashStr fromUserId fromUserAddress keySolicitation sigBundle
  | updatedKeySolicitation streamId eventHashStr fromUserId fromUserAddress keySolicitation sigBundle =>
      enqueueKeySolicitation userDevice (cl_userId c) inbox (delegate streamId) streamId eventHashStr fromUserId
        fromUserAddress keySolicitation sigBundle
  | initKeySolicitations streamId eventHashStr members sigBundle =>
      enqueueInitKeySolicitations userDevice (cl_userId c) inbox (delegate streamId) streamId eventHashStr members
        sigBundle
  | streamNewUserJoined streamId userId =>
      if String.eqb userId (cl_userId c) then retryDecryptionFailures inbox streamId else mret tt
  | streamInitialized streamId _ => if isUserInboxStreamId (SStr streamId) then enqueueNewMessageDownload else mret tt
  | _ => mret tt
  end.
Definition onStreamUpToDate (c : Client) (streamId : string) : DM unit :=
  setStreamUpToDate (isUserInboxStreamUpToDate c) streamId.
Definition onStreamSyncActive (c : Client) (active : bool) : DM unit :=
  if negb active then resetUpToDateStreams (isUserInboxStreamUpToDate c) else mret tt.
End Client.
