(* ===== verification/ClientDecryptionFacts.v ===== *)
(** * ClientDecryptionFacts: what the client makes of the decryption queue

    What streams emit is queued completely and in order; streams are served by
    priority; keys are for members, and for channels for those the chain lets read;
    requests are authentic. *)

From Stdlib Require Import Strings.Byte.
From S2P Require Import Prelude JsLib JsMap Ids IdsFacts Proto Types StreamEvents Members Channels Content StreamState Sign Unpack SignFacts Decryption DecryptionFacts DecryptionKeys DecryptionContent ClientDecryption.

(** ** Order of work *)

(** What a tick would do for a stream *)
Inductive Work := W_decrypt (item : EncryptedContentItem) | W_missingKeys | W_solicitation (item : KeySolicitationItem).
Definition work_of (d : Delegate) (s : Decryption) (x : string) : option Work :=
  if negb (bool_decide (x ∈ dx_upToDateStreams s)) then None
  else
    let queue := tasks s x in
    match encryptedContent queue with
    | item :: _ => Some (W_decrypt item)
    | [] =>
        if isMissingKeys queue then Some W_missingKeys
        else
          let queue := if keySolicitationsNeedsSort queue then sortKeySolicitations queue else queue in
          (W_solicitation ∘ fst) <$> dequeueUpToDate (keySolicitations queue) (now d) (dx_upToDateStreams s)
    end.

Section Order.
Context (userDevice : UserDevice) (userId : string).

(** Looking at a stream does not change what there is to do for any. *)
Lemma work_of_looked d s x y : let queue := tasks s x in
  let queue := if keySolicitationsNeedsSort queue then sortKeySolicitations queue else queue in
  work_of d (post (on_queue x (λ _, queue)) s) y = work_of d s y.
Proof.
  intros q queue. unfold work_of. rewrite tasks_on_queue.
  assert (dx_upToDateStreams (post (on_queue x (λ _, queue)) s) = dx_upToDateStreams s) as ->.
  { unfold on_queue, getQueue. run. by destruct (dx_streams s !! x). }
  case_decide as Hx; [subst y|done]. destruct (negb _); [done|]. fold q. unfold queue.
  by destruct (keySolicitationsNeedsSort q) eqn:En; simpl; rewrite ?En.
Qed.

Lemma lands_no_item m s item : lands m → dx_tick (post m s) ≠ Some (AtDecrypt item).
Proof. intros Hl E. specialize (Hl s). unfold inflight in Hl. by rewrite E in Hl. Qed.
Lemma tick_popped x f item s :
  dx_tick (post (_ ← on_queue x f; _ ← setStatus working; processEncryptedContentItem item) s) = Some (AtDecrypt item).
Proof.
  rewrite (post_bind_ok _ _ tt) by done. destruct (mute_setStatus working (post (on_queue x f) s)) as [_ (a & Ha)].
  by rewrite (post_bind_ok _ _ a).
Qed.

Lemma tickStreams_picks d l s item : dx_tick (post (tickStreams userId d l) s) = Some (AtDecrypt item) →
  ∃ l1 x l2, l = l1 ++ x :: l2 ∧ work_of d s x = Some (W_decrypt item) ∧ ∀ y, y ∈ l1 → work_of d s y = None.
Proof.
  revert s. induction l as [|x l IH]; intros s; simpl.
  { intros []%lands_no_item. lands. }
  assert (Hskip : ∀ s', (∀ y, work_of d s' y = work_of d s y) → work_of d s x = None →
    dx_tick (post (tickStreams userId d l) s') = Some (AtDecrypt item) →
    ∃ l1 z l2, x :: l = l1 ++ z :: l2 ∧ work_of d s z = Some (W_decrypt item) ∧ ∀ y, y ∈ l1 → work_of d s y = None).
  { intros s' Hw Hx (l1 & z & l2 & -> & Hz & Hn)%IH. exists (x :: l1), z, l2. split_and!; [done|by rewrite <- Hw|].
    intros y [->|Hy]%elem_of_cons; [done|]. rewrite <- Hw. by apply Hn. }
  rewrite post_bind_getM. destruct (negb _) eqn:Eu; [apply Hskip; [done|]; unfold work_of; by rewrite Eu|].
  fold (tasks s x). destruct (encryptedContent (tasks s x)) as [|i rest] eqn:Ec.
  2: { rewrite tick_popped. intros [= ->]. exists [], x, l. split_and!; [done|unfold work_of; by rewrite Eu, Ec|].
       by intros y ?%not_elem_of_nil. }
  destruct (isMissingKeys (tasks s x)) eqn:Em.
  { intros []%lands_no_item. lands. }
  cbv zeta. pose proof (work_of_looked d s x) as Hw. cbv zeta in Hw. set (queue := if keySolicitationsNeedsSort _ then _ else _) in *.
  rewrite (post_bind_ok _ _ tt) by done. destruct (dequeueUpToDate _ _ _) as [[i rest]|] eqn:Ed.
  { intros []%lands_no_item. lands. apply by_keySolicitation. }
  apply Hskip; [done|]. unfold work_of. rewrite Eu, Ec, Em. cbv zeta. fold queue. by rewrite Ed.
Qed.

(** The streams come in the order of their priorities. *)
Lemma sorted_streams d s l1 x l2 :
  let priority x := Decryption.getPriorityForStream d x (dx_highPriorityIds s) (list_to_set (dx_recentStreamIds s)) in
  sortedStreamIds d s = Ok (l1 ++ x :: l2) → x ∈ jm_keys (dx_streams s) ∧
  ∀ y, y ∈ jm_keys (dx_streams s) → y = x ∨ ∃ m n, priority y = Ok m ∧ priority x = Ok n ∧ (m < n → y ∈ l1).
Proof.
  intros priority. unfold sortedStreamIds. fold priority. cbv zeta. set (ids := jm_keys (dx_streams s)).
  destruct (length ids <=? 1)%nat eqn:Elen.
  { intros [= E]. rewrite E. apply Nat.leb_le in Elen. rewrite E, length_app in Elen. simpl in Elen.
    destruct l1; [|simpl in Elen; lia]. destruct l2; [|simpl in Elen; lia]. simpl. split; [by left|].
    intros y ->%list_elem_of_singleton. by left. }
  destruct (traverse _ ids) as [items|e] eqn:Ei; [|done]. intros [= El]. apply traverse_ok in Ei.
  assert (Hit : ∀ y, y ∈ ids → ∃ m, (m, y) ∈ items ∧ priority y = Ok m).
  { intros y Hy. apply list_elem_of_lookup in Hy as (i & Hi). destruct (Forall2_lookup_l _ _ _ _ _ Ei Hi) as ([m z] & Hz & E).
    apply bind_Ok in E as (m' & E & [= -> <-]). exists m. split; [by eapply list_elem_of_lookup_2|done]. }
  assert (Hid : ∀ m y, (m, y) ∈ items → y ∈ ids ∧ priority y = Ok m).
  { intros m y Hy. apply list_elem_of_lookup in Hy as (i & Hi). destruct (Forall2_lookup_r _ _ _ _ _ Ei Hi) as (z & Hz & E).
    apply bind_Ok in E as (m' & E & [= -> ->]). split; [by eapply list_elem_of_lookup_2|done]. }
  set (sorted := stable_sort _ items) in El.
  destruct (sorted !! length l1) as [[n x']|] eqn:Hn.
  2: { apply lookup_ge_None in Hn. rewrite <- (length_fmap snd), El, length_app in Hn. simpl in Hn. lia. }
  assert (x' = x) as ->.
  { apply (f_equal (fmap snd)) in Hn. rewrite <- list_lookup_fmap, El, lookup_app_r, Nat.sub_diag in Hn by lia.
    by injection Hn. }
  destruct (Hid n x) as [Hx En]; [unfold sorted in Hn; apply list_elem_of_lookup_2 in Hn; by rewrite stable_sort_Permutation in Hn|].
  split; [done|]. intros y Hy. right. destruct (Hit y Hy) as (m & Hm & Em). exists m, n. split_and!; [done..|]. intros Hlt.
  rewrite <- (stable_sort_Permutation (λ a b : Z * string, a.1 <=? b.1)) in Hm. fold sorted in Hm.
  apply list_elem_of_lookup in Hm as (j & Hj). destruct (decide (j < length l1)%nat) as [Hl|Hl].
  - apply (f_equal (fmap snd)) in Hj. rewrite <- list_lookup_fmap, El, lookup_app_l in Hj by done.
    by eapply list_elem_of_lookup_2.
  - pose proof (stable_sort_key_le fst items (length l1) j (n, x) (m, y) ltac:(lia) Hn Hj) as Hle. simpl in Hle. lia.
Qed.

(** The tick decrypts content of the most urgent stream that has something to do. *)
Lemma tick_picks d s item : dx_tick (post (tick userDevice userId d) s) = Some (AtDecrypt item) →
  mainQueuesEmpty s = true ∧
  let priority x := Decryption.getPriorityForStream d x (dx_highPriorityIds s) (list_to_set (dx_recentStreamIds s)) in
  ∃ x, x ∈ jm_keys (dx_streams s) ∧ work_of d s x = Some (W_decrypt item)
    ∧ ∀ y, y ∈ jm_keys (dx_streams s) →
        y = x ∨ ∃ m n, priority y = Ok m ∧ priority x = Ok n ∧ (m < n → work_of d s y = None).
Proof.
  unfold tick, mainQueuesEmpty. rewrite post_bind_getM.
  destruct (dx_priorityTasks s); [|intros []%lands_no_item; lands].
  destruct (dx_newGroupSession s); [|intros []%lands_no_item; lands; apply by_newGroupSession].
  destruct (dx_ownKeySolicitations s); [|intros []%lands_no_item; lands; apply by_keySolicitation].
  destruct (sortedStreamIds d s) as [l|e] eqn:El; [|done].
  intros (l1 & x & l2 & -> & Hx & Hn)%tickStreams_picks. split; [done|].
  destruct (sorted_streams d s l1 x l2 El) as [Hk Hp]. exists x. split_and!; [done..|].
  intros y Hy. destruct (Hp y Hy) as [->|(m & n & Em & En & Hlt)]; [by left|]. right. exists m, n. split_and!; auto.
Qed.
End Order.

(** A channel, direct message or group *)
Definition conversation `{EthLib} (x : string) : bool :=
  isChannelStreamId (SStr x) || isDMChannelStreamId (SStr x) || isGDMChannelStreamId (SStr x).
Definition userStream `{EthLib} (x : string) : bool :=
  isUserDeviceStreamId (SStr x) || isUserInboxStreamId (SStr x) || isUserStreamId (SStr x)
  || isUserSettingsStreamId (SStr x).

Section Priorities.
Context `{EthLib}.

Lemma priority_viewed y high recent n : conversation y = true → y ∈ high →
  ClientDecryption.getPriorityForStream y high recent = Ok n → n <= 1.
Proof.
  unfold conversation, ClientDecryption.getPriorityForStream. intros Hc Hh. rewrite (bool_decide_true _ Hh).
  destruct (isUserDeviceStreamId _ || _ || _ || _); [intros [= <-]; lia|]. revert Hc.
  destruct (isChannelStreamId (SStr y)), (isDMChannelStreamId (SStr y)), (isGDMChannelStreamId (SStr y)); simpl;
    intros; simplify_eq; lia || done.
Qed.
Lemma priority_rest x high recent n : userStream x = false → (conversation x = true → x ∉ high) →
  ClientDecryption.getPriorityForStream x high recent = Ok n → 2 <= n.
Proof.
  unfold userStream, conversation, ClientDecryption.getPriorityForStream. intros -> Hv.
  assert (Ex : (isDMChannelStreamId (SStr x) || isGDMChannelStreamId (SStr x) || isChannelStreamId (SStr x))
    && bool_decide (x ∈ high) = false).
  { apply andb_false_iff. destruct (isDMChannelStreamId (SStr x) || _ || _) eqn:Ed; [right|by left].
    apply bool_decide_eq_false, Hv. revert Ed.
    by destruct (isChannelStreamId (SStr x)), (isDMChannelStreamId (SStr x)), (isGDMChannelStreamId (SStr x)). }
  rewrite Ex. destruct (bool_decide (x ∈ recent)); [intros [= <-]; lia|]. destruct (isChannelStreamId (SStr x)) eqn:Ec;
    [destruct (spaceIdFromChannelId x) as [sp|e]; [|done]|]; cbn [mbind Res_bind];
    repeat match goal with |- context [if ?b then _ else _] => destruct b end; intros [= <-]; lia.
Qed.
End Priorities.

(** C34. What the user looks at comes first: when a tick of the client's queue
    decrypts content, there is no task, new session or request of the user's own
    devices waiting, no stream of smaller priority number has anything to do, and
    unless the content is of one of the user's own streams or of a conversation that
    is being viewed, no viewed conversation has anything to do. *)
Theorem viewed_first `{EthLib, CryptoLib} userDevice userId c v ms z oe t s item :
  let d := clientDelegate c v ms z oe t in
  dx_tick (post (tick userDevice userId d) s) = Some (AtDecrypt item) →
  mainQueuesEmpty s = true ∧
  ∃ x, x ∈ jm_keys (dx_streams s) ∧ work_of d s x = Some (W_decrypt item)
    ∧ (∀ y m n, y ∈ jm_keys (dx_streams s) →
         let priority x := ClientDecryption.getPriorityForStream x (dx_highPriorityIds s) (list_to_set (dx_recentStreamIds s)) in
         priority y = Ok m → priority x = Ok n → m < n → work_of d s y = None)
    ∧ (userStream x = false → (conversation x = true → x ∉ dx_highPriorityIds s) →
       ∀ y, y ∈ jm_keys (dx_streams s) → conversation y = true → y ∈ dx_highPriorityIds s → work_of d s y = None).
Proof.
  intros d (Hm & x & Hx & Hw & Hp)%tick_picks. split; [done|]. exists x. split_and!; [done..| |].
  - intros y m n Hy priority Em En Hlt. destruct (Hp y Hy) as [->|(m' & n' & Em' & En' & Hd)]; [|apply Hd].
    + exfalso. rewrite Em in En. simplify_eq. lia.
    + simpl in Em', En'. unfold priority in *. rewrite Em in Em'. rewrite En in En'. by simplify_eq.
  - intros Hu Hv y Hy Hc Hh. destruct (Hp y Hy) as [->|(m & n & Em & En & Hd)]; [by destruct (Hv Hc)|]. apply Hd.
    pose proof (priority_viewed y _ _ m Hc Hh Em). pose proof (priority_rest x _ _ n Hu Hv En). lia.
Qed.

(** ** Who gets keys *)

Section Keys.
Context `{EthLib, CryptoLib}.
Context (userDevice : UserDevice) (userId : string) (inbox : gset string → bool).
Context (sessionKeys_fromJsonString : string → Res (list string)).

(** The client knows the stream, the user is a member who may exchange keys there,
    and for a channel the chain lets them read it. *)
Definition mayHaveKeys (c : Client) (x u : string) (skip : bool) (chain : Res bool) : Prop :=
  ∃ view, cl_streams c !! x = Some view ∧ u ∈ getUsersEntitledToKeyExchange view
    ∧ ∀ channel, ssv_content view = C_channel channel → skip = false → chain = Ok true.

Lemma entitled_iff c x u skip chain :
  entitlementSettles (isUserEntitledToKeyExchange c x u skip) chain = ResolvesBool true ↔ mayHaveKeys c x u skip chain.
Proof.
  unfold isUserEntitledToKeyExchange, mayHaveKeys, userIsEntitledToKeyExchange.
  destruct (cl_streams c !! x) as [view|]; [|split; [done|by intros (? & ? & _)]].
  destruct (bool_decide _) eqn:Eu; simpl.
  - apply bool_decide_eq_true in Eu. split.
    + intros E. exists view. split_and!; [done..|]. intros channel Ec ->. rewrite Ec in E. simpl in E.
      by destruct chain as [[]|]; simplify_eq.
    + intros (view' & [= <-] & _ & Hc). destruct (ssv_content view); try done. destruct skip; [done|]. simpl.
      by rewrite (Hc c0).
  - apply bool_decide_eq_false in Eu. split; [done|]. intros (view' & [= <-] & ? & _). done.
Qed.

(** A run in which the client answers the questions who may have keys *)
Definition client_op (s : Decryption) (op : DecOp) (c : Client) (chain : Res bool) : DecOp :=
  match op, dx_tick s with
  | D_answer d _, Some (AtEntitlement item _) =>
      D_answer d (entitlementSettles (isUserEntitledToKeyExchange c (ksi_streamId item) (ksi_fromUserId item) false) chain)
  | D_answer d _, Some (AtOwnEntitlement x _) =>
      D_answer d (entitlementSettles (isUserEntitledToKeyExchange c x userId true) chain)
  | _, _ => op
  end.
Abbreviation run_op := (run_op userDevice userId inbox sessionKeys_fromJsonString).
Definition client_exec (ops : list (DecOp * Client * Res bool)) (s : Decryption) : Decryption * list DecOut :=
  foldl (λ '(s, tr) '(op, c, chain), let op := client_op s op c chain in
           (post (run_op op) s, tr ++ out (run_op op) s)) (s, []) ops.

(** Such a run is a run of the queue. *)
Lemma client_exec_exec ops s : ∃ ops', client_exec ops s = exec userDevice userId inbox sessionKeys_fromJsonString ops' s.
Proof.
  unfold client_exec, exec. generalize (s, [] : list DecOut). induction ops as [|[[op c] chain] ops IH]; intros [s' tr].
  - by exists [].
  - simpl. destruct (IH (post (run_op (client_op s' op c chain)) s', tr ++ out (run_op (client_op s' op c chain)) s')) as (ops' & E).
    by exists (client_op s' op c chain :: ops').
Qed.

(** Only the answer to a question says yes. *)
Definition no_yes (o : DecOut) : Prop :=
  match o with answer_isUserEntitled _ _ false true => False | _ => True end.
Definition quietly (m : DM unit) : Prop := ∀ s, Forall no_yes (out m s).
Lemma quietly_bind {A} (m : DM A) (k : A → DM unit) : mute m → (∀ a, quietly (k a)) → quietly (m ≫= k).
Proof.
  intros Hm Hk s. destruct (Hm s) as [Ho (a & Ha)]. rewrite (out_bind_ok _ _ a) by done. apply Forall_app. split; [|apply Hk].
  eapply Forall_impl; [exact Ho|]. by intros [].
Qed.
Lemma quietly_emit o (k : unit → DM unit) : no_yes o → quietly (k tt) → quietly (emit true o ≫= k).
Proof. intros Ho Hk s. run. by constructor. Qed.
Lemma quietly_modify f : quietly (modify f).
Proof. by intros s. Qed.
Ltac quietly :=
  repeat first
    [ apply quietly_modify | apply quietly_emit; [exact I|] | apply quietly_bind; [solve [auto with mute nocore]|intros ?]
    | match goal with |- quietly (match ?x with _ => _ end) => destruct x end
    | match goal with |- quietly (let _ := _ in _) => cbv zeta end ].

Lemma quietly_tick d : quietly (tick userDevice userId d).
Proof.
  assert (Hl : ∀ l, quietly (tickStreams userId d l)).
  { induction l as [|x l IH]; simpl; unfold processEncryptedContentItem, processMissingKeys, processKeySolicitation;
      quietly; apply IH. }
  unfold tick, processNewGroupSession, checkKeys, processKeySolicitation. quietly; [apply Hl|by intros s].
Qed.
Lemma quietly_exportNext i l a : quietly (exportNext i l a).
Proof. unfold exportNext. quietly. Qed.
Lemma quietly_ackIfLast i : quietly (ackIfLast i).
Proof. unfold ackIfLast. quietly. Qed.
Lemma quietly_imported i l : quietly (imported i l).
Proof.
  unfold imported. quietly. apply quietly_bind; [apply mute_forM; intros; apply mute_requeue|].
  intros ?. apply quietly_ackIfLast.
Qed.

Lemma quietly_out m s x u : quietly m → answer_isUserEntitled x u false true ∈ out m s → False.
Proof. intros Hm Hx. specialize (Hm s). rewrite Forall_forall in Hm. exact (Hm _ Hx). Qed.

(** Other answers do not say yes. *)
Lemma quietly_answered d a s x u : match dx_tick s with Some (AtEntitlement _ _) => False | _ => True end →
  answer_isUserEntitled x u false true ∈ out (answered userDevice userId sessionKeys_fromJsonString d a) s → False.
Proof.
  intros Hp. unfold answered. rewrite out_bind_getM. destruct (dx_tick s) as [pc|]; [|by intros ?%not_elem_of_nil].
  apply quietly_out. destruct pc, a; try done; try (by intros ?);
    unfold checkKeys, deviceDecrypted, decryptionFailed, ownEntitlement, solicit, sessionIdsKnown, exported, fulfilled, shareNext;
    first [apply quietly_imported | quietly; auto using quietly_ackIfLast, quietly_exportNext].
Qed.

(** A yes is what the client said. *)
Lemma yes_from_client s op c chain x u :
  answer_isUserEntitled x u false true ∈ out (run_op (client_op s op c chain)) s → mayHaveKeys c x u false chain.
Proof.
  intros Hin. destruct (outside op) eqn:Eo.
  { exfalso. assert (E : client_op s op c chain = op) by by destruct op. rewrite E in Hin.
    pose proof (hush_outside userDevice userId inbox sessionKeys_fromJsonString op Eo s) as Hs.
    rewrite Forall_forall in Hs. exact (Hs _ Hin). }
  destruct op as [| | | | | | | | | | | |d| |d a]; try done.
  { exfalso. revert Hin. simpl. unfold timerFires. rewrite out_bind_getM. destruct (dx_timer s); [|by intros ?%not_elem_of_nil].
    rewrite out_bind_modify. apply quietly_out, quietly_tick. }
  simpl in Hin. destruct (dx_tick s) as [pc|] eqn:Et; [|exfalso; by eapply quietly_answered in Hin; [|by rewrite Et]].
  destruct pc as [| | | | | |ownStream l| | | |item reply| | |];
    try (exfalso; by eapply quietly_answered in Hin; [|by rewrite Et]).
  revert Hin. set (a' := entitlementSettles _ _). simpl. unfold answered. rewrite out_bind_getM, Et.
  destruct a' as [| |b| | | |] eqn:Ea; try (by intros ?%not_elem_of_nil).
  unfold entitlementKnown. run. intros [Hx|Hx]%elem_of_cons; [|exfalso; revert Hx; apply quietly_out].
  - destruct b; [|done]. simplify_eq. by apply entitled_iff.
  - destruct b; simpl; [apply quietly_exportNext|quietly].
Qed.

Lemma client_exec_yes ops s x u : answer_isUserEntitled x u false true ∈ (client_exec ops s).2 →
  ∃ op c chain, (op, c, chain) ∈ ops ∧ mayHaveKeys c x u false chain.
Proof.
  unfold client_exec. enough (Hg : ∀ acc, answer_isUserEntitled x u false true ∈ (foldl (λ '(s, tr) '(op, c, chain),
      let op := client_op s op c chain in (post (run_op op) s, tr ++ out (run_op op) s)) acc ops).2 →
    answer_isUserEntitled x u false true ∈ acc.2 ∨ ∃ op c chain, (op, c, chain) ∈ ops ∧ mayHaveKeys c x u false chain).
  { intros [Hx|?]%Hg; [by apply not_elem_of_nil in Hx|done]. }
  induction ops as [|[[op c] chain] ops IH]; intros [s' tr]; simpl; [by left|].
  intros [[Hx|Hx]%elem_of_app|(op' & c' & chain' & Hin & Hm)]%IH; [by left| |].
  - right. exists op, c, chain. split; [by left|]. by eapply yes_from_client.
  - right. exists op', c', chain'. split; [by right|done].
Qed.

(** C2. In the client, keys go only to members: whenever the queue shares sessions,
    the request was checked as [granted] says, and the yes to the question whether
    its sender may have keys was given by the client for a stream it knows, of which
    the sender is a member (for direct messages: a participant), and, for a channel,
    on the word of the chain that they may read it. *)
Theorem keys_only_to_members u ops data tr tail :
  (client_exec ops (new u)).2 = tr ++ call_encryptAndShareGroupSessions data :: tail →
  granted tr data
  ∧ ∃ op c chain, (op, c, chain) ∈ ops
      ∧ mayHaveKeys c (gsd_streamId data) (ksi_fromUserId (gsd_item data)) false chain.
Proof.
  intros E. destruct (client_exec_exec ops (new u)) as (ops' & E').
  assert (Hg : granted tr data) by (eapply keys_granted; by rewrite <- E', E).
  split; [done|]. destruct Hg as (item & all & Ei & Es & (tr0 & seg & -> & _ & [[[_ Hyes] _] _]) & _).
  apply (client_exec_yes ops (new u)). rewrite E, Ei, Es. apply elem_of_app. left. apply elem_of_app. right. by right.
Qed.
End Keys.

(** ** Authentic requests *)

Section Authentic.
Context `{EthLib, CryptoLib, EnvelopeCodec, !EthLaws}.

(** The event of a request is signed for its creator. *)
Definition signed (b : EventSignatureBundle) : Prop :=
  ∃ signature key, sb_signature b = Some signature ∧ riverRecoverPubKey (sb_hash b) signature = Ok key
    ∧ speaksFor key (sb_creatorAddress b) (sb_delegateSig b) (sb_delegateExpiryEpochMs b).
(** The request is of an event that the client unpacked. *)
Definition unpacked (opts : option UnpackEnvelopeOpts) (item : KeySolicitationItem) : Prop :=
  ∃ envelope e, unpackEnvelope envelope opts = Ok e
    ∧ ksi_sigBundle item = getEventSignature e ∧ ksi_hashStr item = pe_hashStr e.

(** The answers to a sequence of questions *)
Fixpoint validities (c : Client) (items : list KeySolicitationItem) (m : gmap string bool) : list bool :=
  match items with
  | [] => []
  | item :: items => let '(b, m) := isValidEvent c item m in b :: validities c items m
  end.

Lemma check_signed b signature : sb_signature b = Some signature →
  is_Ok (checkEventSignature (sb_creatorAddress b) (sb_delegateSig b) (sb_delegateExpiryEpochMs b) (sb_hash b) signature) = true
  ↔ signed b.
Proof.
  intros Es. unfold signed. rewrite Es. set (r := checkEventSignature _ _ _ _ _).
  pose proof (checkEventSignature_Ok (sb_creatorAddress b) (sb_delegateSig b) (sb_delegateExpiryEpochMs b) (sb_hash b) signature) as Hc.
  fold r in Hc. split.
  - intros Hr. destruct r as [[]|]; [|done]. destruct (proj1 Hc eq_refl) as (key & Hk & Hsp). by exists signature, key.
  - intros (sig & key & [= <-] & Hk & Hsp). destruct r; [done|]. by discriminate (proj2 Hc (ex_intro _ key (conj Hk Hsp))).
Qed.

Lemma unpacked_signed opts item : doCheckSignature opts = true → unpacked opts item → signed (ksi_sigBundle item).
Proof.
  intros Ho (envelope & e & E & -> & _). unfold unpackEnvelope in E. rewrite Ho in E. ok_inv.
  unfold makeParsedEvent in E. ok_inv. subst. apply (check_signed _ (env_signature envelope)); [done|]. simpl.
  destruct (doCheckHash opts); ok_inv; subst;
    match goal with H : checkEventSignature _ _ _ _ _ = Ok ?u |- _ => destruct u; try by rewrite H end.
  match goal with H : bin_equal _ _ = true |- _ => apply bin_equal_true in H as <-; [by match goal with H : checkEventSignature _ _ _ _ _ = _ |- _ => rewrite H end|] end.
  intros Hn. apply (f_equal length) in Hn. unfold riverHash in Hn. by rewrite keccak256_length in Hn.
Qed.

(** What the cache says is so of all requests with that event. *)
Definition cache_ok (items : list KeySolicitationItem) (m : gmap string bool) : Prop :=
  ∀ item r, item ∈ items → m !! ksi_hashStr item = Some r → sb_signature (ksi_sigBundle item) ≠ None →
    r = true ↔ signed (ksi_sigBundle item).

Lemma isValidEvent_spec c all item m b m' : isValidEvent c item m = (b, m') → item ∈ all → unpacked (cl_unpackEnvelopeOpts c) item →
  (∀ x y, x ∈ all → y ∈ all → ksi_hashStr x = ksi_hashStr y → ksi_sigBundle x = ksi_sigBundle y) →
  cache_ok all m → cache_ok all m' ∧ (b = true ↔ signed (ksi_sigBundle item)).
Proof.
  intros E Hin Hu Hsame Hc. unfold isValidEvent in E. destruct (doCheckSignature _) eqn:Eo.
  { simplify_eq. split; [done|]. split; [|done]. intros _. by eapply unpacked_signed. }
  destruct (sb_signature (ksi_sigBundle item)) as [signature|] eqn:Es.
  2: { simplify_eq. split; [done|]. split; [done|]. intros (sig & key & E & _). congruence. }
  destruct (m !! ksi_hashStr item) as [r|] eqn:Em.
  { simplify_eq. split; [done|]. apply Hc; [done|done|]. by rewrite Es. }
  simplify_eq. pose proof (check_signed _ _ Es) as Hr. split; [|done].
  intros item' r' Hin' Hl Hs. destruct (decide (ksi_hashStr item = ksi_hashStr item')) as [Eh|Eh].
  - rewrite Eh, lookup_insert_eq in Hl. injection Hl as <-. by rewrite <- (Hsame item item').
  - rewrite lookup_insert_ne in Hl by done. by apply Hc.
Qed.

(** C24. Requests for keys are authentic: of the requests that the client takes from
    events it has unpacked, with or without checking signatures there, it finds
    valid exactly those that carry a signature of their event's hash by the key of
    their creator, or by a key the creator delegated to with the expiry they name.
    A verdict is kept under the hash of the event; this is for requests that carry
    the same creator, delegation and signature when their hashes are the same. *)
Theorem requests_authentic c items :
  (∀ item, item ∈ items → unpacked (cl_unpackEnvelopeOpts c) item) →
  (∀ x y, x ∈ items → y ∈ items → ksi_hashStr x = ksi_hashStr y → ksi_sigBundle x = ksi_sigBundle y) →
  ∀ i item b, items !! i = Some item → validities c items ∅ !! i = Some b → b = true ↔ signed (ksi_sigBundle item).
Proof.
  intros Hu Hsame. assert (Hc : cache_ok items ∅) by (intros ? ? ? E; by rewrite lookup_empty in E).
  enough (Hg : ∀ l m, l ⊆ items → cache_ok items m → ∀ i item b, l !! i = Some item →
    validities c l m !! i = Some b → b = true ↔ signed (ksi_sigBundle item)) by (intros i item b; by apply Hg).
  clear Hc. induction l as [|x l IH]; intros m Hl Hc i item b; [done|]. simpl. destruct (isValidEvent c x m) as [b' m'] eqn:E.
  destruct (isValidEvent_spec c items x m b' m' E) as [Hc' Hb]; [set_solver|apply Hu; set_solver|done|done|].
  destruct i as [|i]; simpl; [by intros [= ->] [= ->]|]. apply IH; [set_solver|done].
Qed.
End Authentic.

(** ** From the streams to the queue *)

Section Wiring.
Context `{EthLib, CryptoLib} (userDevice : UserDevice) (c : Client) (delegate : string → Delegate).

(** The queue after streams emitted events *)
Definition feed (es : list Emit) (s : Decryption) : Decryption :=
  foldl (λ s e, post (onEmit userDevice c delegate e) s) s es.
(** The content they emitted for a stream *)
Definition emitted (x : string) (es : list Emit) : list (string * string * EncryptedData) :=
  es ≫= λ e, match e with
    | newEncryptedContent y eventId content =>
        if decide (y = x) then [(eventId, ContentKind_str (ec_kind content), ec_content content)] else []
    | _ => []
    end.
Definition contents (s : Decryption) (x : string) : list (string * string * EncryptedData) :=
  (λ i, (eci_eventId i, eci_kind i, eci_encryptedData i)) <$> encryptedContent (tasks s x).

Definition queue_of (x : string) (s : Decryption) : list EncryptedContentItem := encryptedContent (tasks s x).
Lemma queue_getQueue x y : keeps (queue_of x) (getQueue y).
Proof.
  intros s. unfold queue_of, tasks, getQueue. run. destruct (dx_streams s !! y) eqn:Ey; [done|]. simpl.
  rewrite jm_lookup_insert. case_decide; [subst; by rewrite Ey|done].
Qed.
Lemma queue_on_queue x y f : (∀ t, encryptedContent (f t) = encryptedContent t) → keeps (queue_of x) (on_queue y f).
Proof. intros Hf s. unfold queue_of. rewrite tasks_on_queue. case_decide; [subst; by rewrite Hf|done]. Qed.
#[local] Hint Resolve queue_getQueue : keeps.
#[local] Hint Extern 1 (keeps (queue_of _) (on_queue _ _)) => (apply queue_on_queue; intros ?; reflexivity) : keeps.
Lemma queue_check x inbox : keeps (queue_of x) (checkStartTicking inbox).
Proof. unfold checkStartTicking, setStatus. keeps. Qed.
Lemma queue_push x u y i : keeps (queue_of x) (pushSolicitation u y i).
Proof. unfold pushSolicitation. keeps. Qed.
#[local] Hint Resolve queue_check queue_push : keeps.
Lemma queue_init x u d y h b n l : keeps (queue_of x) (initSolicitations userDevice u d y h b n l).
Proof.
  revert n. induction l as [|[[v a] k] l IH]; intros n; simpl; [keeps|]. destruct (_ || _); [apply IH|]. keeps.
Qed.
#[local] Hint Resolve queue_init : keeps.

Lemma contents_emit e s x : contents (post (onEmit userDevice c delegate e) s) x = contents s x ++ emitted x [e].
Proof.
  unfold emitted. simpl. rewrite app_nil_r.
  assert (Hk : ∀ m : DM unit, keeps (queue_of x) m → contents (post m s) x = contents s x ++ []).
  { intros m Hm. rewrite app_nil_r. unfold contents. f_equal. apply Hm. }
  destruct e; try (apply Hk; simpl; unfold enqueueNewGroupSessions, enqueueKeySolicitation, enqueueInitKeySolicitations,
    retryDecryptionFailures, enqueueNewMessageDownload; keeps; fail).
  simpl. unfold enqueueNewEncryptedContent. set (m := whenM _ _).
  assert (Em : res m s = Ok tt ∧ dx_streams (post m s) = dx_streams s) by (unfold m, whenM; by destruct (_ || _)).
  destruct Em as [Er Es]. rewrite (post_bind_ok _ _ tt), post_bind_getM by done. cbv zeta.
  set (s1 := post m s) in *. clearbody s1. set (item := {| eci_ref := _ |}).
  rewrite post_bind_modify, (post_bind_ok _ _ tt) by done. unfold contents.
  change (encryptedContent (tasks ?t x)) with (queue_of x t). rewrite queue_check. unfold queue_of. rewrite tasks_on_queue.
  assert (Et : ∀ y, tasks (s1 <| dx_nextRef ::= S |>) y = tasks s y) by (intros y; unfold tasks; simpl; by rewrite Es).
  rewrite !Et. case_decide; [subst|by rewrite app_nil_r]. simpl. by rewrite fmap_app.
Qed.

(** What streams emit gets to the queue: after any events of the streams, the
    content that waits in the queue of a stream is what waited there before, followed
    by all encrypted content the streams emitted for it, in the order they emitted
    it. *)
Theorem emitted_content_queued es s x : contents (feed es s) x = contents s x ++ emitted x es.
Proof.
  revert s. induction es as [|e es IH]; intros s; [by rewrite app_nil_r|]. simpl. rewrite IH, contents_emit, <- app_assoc.
  unfold emitted. simpl. by rewrite app_nil_r.
Qed.
End Wiring.
