(* ===== verification/DecryptionWitness.v ===== *)
(** * DecryptionWitness: the decryption queue at work

    A client with one channel: concrete runs of the queue for the theorems, and runs
    that show where it does less than its comments say. *)

From Stdlib Require Import Strings.Byte Strings.Ascii.
From S2P Require Import Prelude JsLib JsMap Ids IdsFacts Proto Types StreamEvents Members Channels Content Fixtures StreamState Sign Unpack SignFacts Decryption DecryptionFacts DecryptionKeys DecryptionContent ClientDecryption ClientDecryptionFacts.

Module DecryptionWitness.
Import ModelEth Fixtures ModelCrypto.

Definition me : string := user x0a.
Definition you : string := user x0b.
Definition myDevice : UserDevice := {| ud_deviceKey := "mine"; ud_fallbackKey := "f" |}.
Definition inboxId : string := "a1" +:+ toHex (addr x0a) +:+ Str.repeat "0"%char 22.
Definition channelId : string := "20" +:+ Str.repeat "1"%char 62.
Definition otherId : string := "20" +:+ Str.repeat "2"%char 62.
Definition keysOf (json : string) : Res (list string) := Ok [json].

(** A channel with one member *)
Definition channel : StreamStateView := {|
  ssv_streamId := channelId; ssv_userId := me; ssv_content := C_channel (Channel.new channelId);
  minipoolEvents := ∅; prevMiniblockHash := None; prevMiniblockNum := None; lastEventNum := 0;
  prevSnapshotMiniblockNum := 0; miniblockInfo := None; syncCookie := None;
  membershipContent := (Members.new channelId) <| Members.joinedUsers := {[ you ]} |> |}.
Definition client : Client := {|
  cl_userId := me; cl_userInboxStreamId := Some inboxId; cl_streams := {[ channelId := channel ]};
  cl_unpackEnvelopeOpts := None |}.
Definition inbox : gset string → bool := isUserInboxStreamUpToDate client.
Definition d : Delegate := clientDelegate client ∅ (λ _, 0) channelId (λ _ _, Ok tt) 1000.

Definition request : KeySolicitationContent := {|
  ksc_deviceKey := "yours"; ksc_fallbackKey := "g"; ksc_isNewDevice := false; ksc_sessionIds := ["k2"; "k1"] |}.
Definition bundle : EventSignatureBundle := {|
  sb_hash := [x01]; sb_signature := None; sb_creatorAddress := addr x0b; sb_delegateSig := []; sb_delegateExpiryEpochMs := 0 |}.
Definition session (k : string) : GroupEncryptionSession := {|
  gs_streamId := channelId; gs_sessionId := k; gs_sessionKey := "key"; gs_algorithm := GroupEncryption |}.

(** The queue starts and does its first two tasks. *)
Definition startup : list DecOp :=
  [D_upToDate inboxId; D_start; D_timer d; D_answer d Resolves; D_recheck; D_timer d; D_answer d Resolves; D_recheck].

(** A member asks for two keys, of which there is one. *)
Definition exchange : list DecOp := startup ++
  [D_upToDate channelId; D_solicitation d channelId "01" you (addr x0b) request bundle; D_timer d;
   D_answer d (ResolvesIds ["k3"; "k1"]); D_answer d Resolves; D_answer d (ResolvesSession (Some (session "k1")));
   D_answer d (ResolvesError None); D_answer d Resolves].

Definition run_client (ops : list DecOp) : Decryption * list DecOut :=
  client_exec myDevice me inbox keysOf ((λ op, (op, client, Ok true)) <$> ops) (new ∅).
Definition run_queue (ops : list DecOp) : Decryption * list DecOut := exec myDevice me inbox keysOf ops (new ∅).
Definition isAck (o : DecOut) : bool := match o with call_ackNewGroupSession _ => true | _ => false end.

(** ** Runs for the theorems *)

Ltac not_among :=
  intros; repeat match goal with
    | H : _ ∈ _ :: _ |- _ => apply elem_of_cons in H as [H|H]; [discriminate|]
    | H : _ ∈ [] |- _ => by apply not_elem_of_nil in H
    end.

Definition cipher (text : string) (k : string) : EncryptedData := Build_EncryptedData text "" "" k None None [] [] [] ENCRYPTED_DATA_VERSION_0.


Definition item : KeySolicitationItem := {|
  ksi_streamId := channelId; ksi_fromUserId := you; ksi_fromUserAddress := addr x0b; ksi_solicitation := request;
  ksi_respondAfter := 1000; ksi_sigBundle := bundle; ksi_hashStr := "01" |}.
Definition data : GroupSessionsData := {|
  gsd_streamId := channelId; gsd_item := sortRequest item; gsd_sessions := [session "k1"]; gsd_algorithm := GroupEncryption |}.

Lemma keys_only_to_members_witness : ∃ tr, (run_client exchange).2 = tr ++ [call_encryptAndShareGroupSessions data] ∧ granted tr data.
Proof.
  assert (E : (run_client exchange).2 = take 13 (run_client exchange).2 ++ [call_encryptAndShareGroupSessions data])
    by (vm_compute; reflexivity).
  destruct (keys_only_to_members myDevice me inbox keysOf ∅ ((λ op, (op, client, Ok true)) <$> exchange) data
    (take 13 (run_client exchange).2) [] E) as [Hg _].
  exact (ex_intro _ _ (conj E Hg)).
Defined.

Definition content (n : nat) (k : string) : EncryptedContentItem := {|
  eci_ref := n; eci_streamId := channelId; eci_eventId := "e"; eci_kind := "text"; eci_encryptedData := cipher "hello" k |}.
Definition stuck : Decryption :=
  (new ∅) <| dx_decryptionFailures := {[ channelId := <[ "k1" := [content 0 "k1"; content 2 "k1"] ]> {[ "k2" := [content 1 "k2"] ]} ]} |>.
Definition message (device : string) : GroupEncryptionSessions := {|
  ges_streamId := []; ges_senderKey := "yours"; ges_sessionIds := ["k1"]; ges_ciphertexts := {[ device := "c" ]};
  ges_algorithm := "" |}.
Definition arrival : NewGroupSessionItem := {| ngs_streamId := channelId; ngs_sessions := message "mine" |}.

Lemma new_keys_retry_witness :
  let s := post (imported arrival [session "k1"]) stuck in
  encryptedContent (tasks s channelId) = [content 0 "k1"; content 2 "k1"] ∧ failures_at s channelId "k1" = []
  ∧ failures_at s channelId "k2" = [content 1 "k2"].
Proof.
  destruct (new_keys_retry arrival [session "k1"] stuck (NoDup_singleton _)) as [H1 H2].
  exact (conj H1 (conj (H2 "k1") (H2 "k2"))).
Defined.

(** Content of a channel that is viewed and of one that is not *)
Definition viewing : Decryption := (run_queue (startup ++
  [D_upToDate otherId; D_upToDate channelId; D_priority [channelId];
   D_content otherId "e1" "text" (cipher "later" "k1"); D_content channelId "e2" "text" (cipher "now" "k1")])).1.
Definition first : EncryptedContentItem := {|
  eci_ref := 1; eci_streamId := channelId; eci_eventId := "e2"; eci_kind := "text"; eci_encryptedData := cipher "now" "k1" |}.
Lemma viewed_first_witness : mainQueuesEmpty viewing = true
  ∧ dx_tick (post (tick myDevice me d) viewing) = Some (AtDecrypt first).
Proof.
  assert (E : dx_tick (post (tick myDevice me d) viewing) = Some (AtDecrypt first)) by (vm_compute; reflexivity).
  destruct (viewed_first myDevice me client ∅ (λ _, 0) channelId (λ _ _, Ok tt) 1000 viewing first E) as [Hm _].
  exact (conj Hm E).
Defined.

(** A client that leaves signatures to the queue *)
Definition trusting : option UnpackEnvelopeOpts := Some {| disableHashValidation := false; disableSignatureValidation := true |}.
Definition trustingClient : Client := {|
  cl_userId := me; cl_userInboxStreamId := None; cl_streams := ∅; cl_unpackEnvelopeOpts := trusting |}.
Definition asItem (e : ParsedEvent) : KeySolicitationItem := {|
  ksi_streamId := channelId; ksi_fromUserId := you; ksi_fromUserAddress := addr x0b; ksi_solicitation := request;
  ksi_respondAfter := 0; ksi_sigBundle := getEventSignature e; ksi_hashStr := pe_hashStr e |}.
Definition directEvent : ParsedEvent :=
  match unpackEnvelope SignWitness.direct trusting with Ok e => e | Throw _ => parsed x00 x00 (P_metadataPayload None) end.

Lemma requests_authentic_witness :
  validities trustingClient [asItem directEvent] ∅ = [true] ∧ signed (getEventSignature directEvent).
Proof.
  assert (Eu : unpackEnvelope SignWitness.direct trusting = Ok directEvent) by (vm_compute; reflexivity).
  assert (E : validities trustingClient [asItem directEvent] ∅ = [true]) by (vm_compute; reflexivity).
  split; [exact E|]. apply (requests_authentic trustingClient [asItem directEvent]) with (i := 0%nat) (item := asItem directEvent) (b := true).
  - intros x Hx. apply list_elem_of_singleton in Hx. rewrite Hx. exact (ex_intro _ _ (ex_intro _ _ (conj Eu (conj eq_refl eq_refl)))).
  - intros x y Hx Hy _. apply list_elem_of_singleton in Hx, Hy. rewrite Hx, Hy. reflexivity.
  - reflexivity.
  - rewrite E. reflexivity.
  - reflexivity.
Defined.

(** ** What the queue does not do *)

(** A download that is asked for from outside waits until something else starts the
    timer. *)
Lemma download_not_woken : let s := (run_queue (startup ++ [D_download])).1 in
  ready inbox s = true ∧ isEmpty s = false ∧ dx_timeoutId s = false ∧ dx_rechecks s = 0%nat.
Proof. vm_compute. split_and!; reflexivity. Qed.

(** The queue of a stream whose id has the prefix of a channel and no more, beside
    the content of another one: the tick throws when it sorts the two, and no later
    call or event makes the queue tick. *)
Definition shortId : string := "20".
Definition malformed : list DecOp := startup ++
  [D_content channelId "e1" "text" (cipher "hello" "k1"); D_retry shortId; D_timer d].
Lemma throwing_priority_wedges ops : D_stop ∉ ops →
  let s := (exec myDevice me inbox keysOf ops (run_queue malformed).1).1 in
  dx_timeoutId s = true ∧ dx_timer s = false ∧ dx_tick s = None.
Proof. intros Hn. apply wedged_until_stop; [done|]. vm_compute. by split_and!. Qed.

(** The last message of a batch is not acknowledged when there is nothing in it for
    this device. *)
Definition skipped : list DecOp := startup ++ [D_sessions (message "another"); D_timer d; D_recheck].
Lemma skipped_not_acked :
  dx_newGroupSession (run_queue skipped).1 = [] ∧ dx_status (run_queue skipped).1 = done_
  ∧ existsb isAck (run_queue skipped).2 = false.
Proof. vm_compute. split_and!; reflexivity. Qed.

(** A failed item is kept and comes back with its key; nothing is lost on the way. *)
Definition decryption : list DecOp := startup ++
  [D_upToDate channelId; D_content channelId "e" "text" (cipher "hello" "k1"); D_timer d;
   D_answer d (Rejects (Some "Session not found"))].
Lemma missing_key_kept :
  let s := (history myDevice me inbox keysOf decryption (new ∅)).1 in
  failures_at s channelId "k1" = [content 0 "k1"] ∧ (history myDevice me inbox keysOf decryption (new ∅)).2 = []
  ∧ isMissingKeys (tasks s channelId) = true.
Proof. vm_compute. split_and!; reflexivity. Qed.
End DecryptionWitness.
