(* ===== verification/Persistence.v ===== *)
(** * Persistence: the cache of streams in the browser's database
    (sdk/src/streamUtils.ts, sdk/src/persistenceStore.ts)

    The database is four tables. Every request to it may fail: [ps_faults] says
    how the next requests end, [None] and an exhausted list meaning success. A
    failed request changes nothing. The asynchronous methods run one request
    after the other; requests of other calls that come between are further
    operations on the same store. The serialised messages, which the code only
    stores and decodes, are values of the type [Blob] of the codec. *)

From stdpp Require Import pretty.
From Stdlib Require Import Strings.Byte.
From S2P Require Import Prelude JsLib Ids Proto Types StreamEvents Sign Unpack.

(** ** Persisted messages (packages/proto/internal.proto) *)

Record PersistedEvent := {
  pv_event : option StreamEvent;
  pv_hash : bytes;
  pv_creatorUserId : string;
  pv_signature : bytes;
}.
Record PersistedMiniblock := {
  pm_hash : bytes;
  pm_header : option MiniblockHeader;
  pm_events : list PersistedEvent;
}.
Record PersistedSyncedStream := {
  pss_syncCookie : option SyncCookie;
  pss_lastSnapshotMiniblockNum : Z;
  pss_lastMiniblockNum : Z;
  pss_minipoolEvents : list PersistedEvent;
}.

(** [toBinary] and [fromBinary] of @bufbuild/protobuf at the three schemas that
    are stored; [toBinary] throws on a value outside the range of its field. *)
Class PersistenceCodec := {
  Blob : Type;
  syncedStream_toBinary : PersistedSyncedStream → Res Blob;
  syncedStream_fromBinary : Blob → Res PersistedSyncedStream;
  miniblock_toBinary : PersistedMiniblock → Res Blob;
  miniblock_fromBinary : Blob → Res PersistedMiniblock;
  snapshot_toBlob : Snapshot → Res Blob;
  snapshot_fromBlob : Blob → Res Snapshot;
}.

(** ** streamUtils.ts *)

Record ParsedPersistedSyncedStream := {
  pp_streamId : string;
  pp_syncCookie : SyncCookie;
  pp_lastSnapshotMiniblockNum : Z;
  pp_minipoolEvents : list ParsedEvent;
  pp_lastMiniblockNum : Z;
}.

Inductive Direction := forward | backward.
Definition isForward (direction : Direction) : bool :=
  match direction with forward => true | backward => false end.

Definition isPersistedEvent (event : ParsedEvent) (direction : Direction) : bool :=
  match ev_payload (pe_event event) with
  | P_channelPayload _ | P_dmChannelPayload _ | P_gdmChannelPayload _ | P_mediaPayload _ => true
  | P_userPayload content =>
      match content with
      | UP_blockchainTransaction _ | UP_receivedBlockchainTransaction _ => true
      | _ => isForward direction
      end
  | P_userSettingsPayload _ => isForward direction
  | P_miniblockHeader _ => true
  | P_userMetadataPayload _ => isForward direction
  | P_memberPayload content =>
      match content with
      | MP_keySolicitation _ | MP_keyFulfillment _ => isForward direction
      | MP_memberBlockchainTransaction _ => true
      | MP_unset => false
      | _ => isForward direction
      end
  | P_spacePayload _ | P_userInboxPayload _ => isForward direction
  | P_metadataPayload _ | P_unset => false
  end.

Section StreamUtils.
Context `{EthLib}.

Definition persistedEventToParsedEvent (event : PersistedEvent) : option ParsedEvent :=
  e ← pv_event event;
  Some {| pe_event := e;
          pe_hash := pv_hash event;
          pe_hashStr := bin_toHexString (pv_hash event);
          pe_signature := Some (pv_signature event);
          pe_creatorUserId := pv_creatorUserId event |}.

Definition persistedMiniblockToParsedMiniblock (miniblock : PersistedMiniblock) : option ParsedMiniblock :=
  header ← pm_header miniblock;
  Some {| mb_hash := pm_hash miniblock;
          mb_header := header;
          mb_events := omap persistedEventToParsedEvent (pm_events miniblock) |}.

Definition computeBackwardsCompatibleSnapshotHash (header : MiniblockHeader) : option bytes :=
  match mh_snapshotHash header with
  | Some hash => Some hash
  | None => match mh_snapshot header with Some _ => Some (replicate 16 x01) | None => None end
  end.

(** [{...header, snapshot: undefined, snapshotHash: compute...(header)}] *)
Definition zeroSnapshot (header : MiniblockHeader) : MiniblockHeader := {|
  mh_miniblockNum := mh_miniblockNum header;
  mh_prevMiniblockHash := mh_prevMiniblockHash header;
  mh_timestampMs := mh_timestampMs header;
  mh_eventHashes := mh_eventHashes header;
  mh_snapshot := None;
  mh_eventNumOffset := mh_eventNumOffset header;
  mh_prevSnapshotMiniblockNum := mh_prevSnapshotMiniblockNum header;
  mh_snapshotHash := computeBackwardsCompatibleSnapshotHash header;
  mh_content := mh_content header |}.

(** What [parsedEventToPersistedEvent] makes of the event object it is given:
    the payload of a header is replaced in place. *)
Definition zeroEvent (event : ParsedEvent) : ParsedEvent :=
  match ev_payload (pe_event event) with
  | P_miniblockHeader value =>
      let e := pe_event event in {|
        pe_event := {|
          ev_creatorAddress := ev_creatorAddress e;
          ev_delegateSig := ev_delegateSig e;
          ev_salt := ev_salt e;
          ev_prevMiniblockHash := ev_prevMiniblockHash e;
          ev_createdAtEpochMs := ev_createdAtEpochMs e;
          ev_delegateExpiryEpochMs := ev_delegateExpiryEpochMs e;
          ev_tags := ev_tags e;
          ev_prevMiniblockNum := ev_prevMiniblockNum e;
          ev_payload := P_miniblockHeader (zeroSnapshot value) |};
        pe_hash := pe_hash event;
        pe_hashStr := pe_hashStr event;
        pe_signature := pe_signature event;
        pe_creatorUserId := pe_creatorUserId event |}
  | _ => event
  end.

(** [create(PersistedEventSchema, {event, hash, signature, creatorUserId})] *)
Definition createPersistedEvent (event : ParsedEvent) : PersistedEvent := {|
  pv_event := Some (pe_event event);
  pv_hash := pe_hash event;
  pv_creatorUserId := pe_creatorUserId event;
  pv_signature := default [] (pe_signature event) |}.

Definition parsedEventToPersistedEvent (event : ParsedEvent) : PersistedEvent :=
  createPersistedEvent (zeroEvent event).

Definition parsedMiniblockToPersistedMiniblock (miniblock : ParsedMiniblock) (direction : Direction)
    : PersistedMiniblock := {|
  pm_hash := mb_hash miniblock;
  pm_header := Some (zeroSnapshot (mb_header miniblock));
  pm_events := parsedEventToPersistedEvent <$>
                 List.filter (λ event, isPersistedEvent event direction) (mb_events miniblock) |}.

Definition persistedSyncedStreamToParsedSyncedStream (streamId : string) (stream : PersistedSyncedStream)
    : option ParsedPersistedSyncedStream :=
  syncCookie ← pss_syncCookie stream;
  Some {| pp_streamId := streamId;
          pp_syncCookie := syncCookie;
          pp_lastSnapshotMiniblockNum := pss_lastSnapshotMiniblockNum stream;
          pp_minipoolEvents := omap persistedEventToParsedEvent (pss_minipoolEvents stream);
          pp_lastMiniblockNum := pss_lastMiniblockNum stream |}.
End StreamUtils.

(** ** persistenceStore.ts *)

Definition MAX_CACHED_SCROLLBACK_COUNT : nat := 3.
Definition DEFAULT_RETRY_COUNT : Z := 2.

Record LoadedStream := {
  ld_persistedSyncedStream : ParsedPersistedSyncedStream;
  ld_miniblocks : list ParsedMiniblock;
  ld_cleartexts : Cleartexts;
  ld_snapshot : Snapshot;
  ld_prependedMiniblocks : list ParsedMiniblock;
  ld_prevSnapshotMiniblockNum : Z;
}.

Definition topLevelRenderableEventInMiniblock (miniblock : ParsedMiniblock) : bool :=
  existsb (λ e,
    match ev_payload (pe_event e) with
    | P_channelPayload (CP_message v) | P_gdmChannelPayload (GDMP_message v)
    | P_dmChannelPayload (DMP_message v) => negb (truthy (ed_refEventId v))
    | _ => false
    end) (mb_events miniblock).

Definition hasTopLevelRenderableEvent (miniblocks : list ParsedMiniblock) : bool :=
  existsb topLevelRenderableEventInMiniblock miniblocks.

Section PersistenceStore.
Context `{EthLib, PersistenceCodec}.

Record PersistenceStore := {
  ps_cleartexts : gmap string Cleartext;
  ps_syncedStreams : gmap string Blob;
  ps_miniblocks : gmap (string * string) Blob;
  ps_snapshots : gmap string (Z * Blob);
  ps_faults : list (option JsError);
}.
#[export] Instance eta_PersistenceStore : Eta PersistenceStore := λ r,
  Build_PersistenceStore (ps_cleartexts r) (ps_syncedStreams r) (ps_miniblocks r) (ps_snapshots r) (ps_faults r).

Definition emptyStore (faults : list (option JsError)) : PersistenceStore := {|
  ps_cleartexts := ∅; ps_syncedStreams := ∅; ps_miniblocks := ∅; ps_snapshots := ∅; ps_faults := faults |}.

Abbreviation PM := (M Empty_set PersistenceStore).

(** One request to the database *)
Definition request : PM unit := λ s,
  match ps_faults s with
  | [] => (Ok tt, s, [])
  | fault :: faults =>
      (match fault with None => Ok tt | Some e => Throw e end, s <| ps_faults := faults |>, [])
  end.

(** The loop of [fnReadRetryer]; [retryCounter] is decremented in the [try]. *)
Fixpoint fnReadRetryer_loop {A} (fuel : nat) (fn : PM A) (retries retryCounter : Z) (lastErr : JsError) : PM A :=
  match fuel with
  | O => throwM (PlainError "out of fuel")
  | S fuel =>
      if retryCounter <=? 0 then throwM lastErr
      else
        let retryCounter := if retryCounter <? retries then retryCounter - 1 else retryCounter in
        catchM fn (λ err,
          match err with
          | DexieError name =>
              if String.eqb name "AbortError"
              then fnReadRetryer_loop fuel fn retries retryCounter err
              else throwM err
          | _ => throwM err
          end)
  end.

(** Without retries left [lastErr] is [undefined]. *)
Definition fnReadRetryer {A} (fn : PM A) (retries : Z) : PM A :=
  faults ← gets ps_faults;
  fnReadRetryer_loop (S (length faults)) fn retries retries (PlainError "undefined").

(** *** Cleartexts *)

Definition saveCleartext (eventId : string) (cleartext : Cleartext) : PM unit :=
  _ ← request;
  modify (λ s, s <| ps_cleartexts ::= <[eventId := cleartext]> |>).

Definition getCleartext (eventId : string) : PM (option Cleartext) :=
  _ ← request;
  gets (λ s, ps_cleartexts s !! eventId).

(** The records that [bulkGet] found, by their ids *)
Definition cleartextsOf (table : gmap string Cleartext) (eventIds : list string) : gmap string Cleartext :=
  foldl (λ acc eventId,
    match table !! eventId with Some cleartext => <[eventId := cleartext]> acc | None => acc end) ∅ eventIds.

Definition bulkGetCleartexts (eventIds : list string) : PM Cleartexts :=
  _ ← request;
  table ← gets ps_cleartexts;
  mret (match eventIds with [] => None | _ => Some (cleartextsOf table eventIds) end).

Definition getCleartexts (eventIds : list string) : PM Cleartexts :=
  fnReadRetryer (bulkGetCleartexts eventIds) DEFAULT_RETRY_COUNT.

(** *** Synced streams *)

Definition getSyncedStream (streamId : string) : PM (option ParsedPersistedSyncedStream) :=
  _ ← request;
  record ← gets (λ s, ps_syncedStreams s !! streamId);
  match record with
  | None => mret None
  | Some data =>
      cachedSyncedStream ← liftR (syncedStream_fromBinary data);
      mret (persistedSyncedStreamToParsedSyncedStream streamId cachedSyncedStream)
  end.

Definition saveSyncedStream (streamId : string) (syncedStream : PersistedSyncedStream) : PM unit :=
  data ← liftR (syncedStream_toBinary syncedStream);
  _ ← request;
  modify (λ s, s <| ps_syncedStreams ::= <[streamId := data]> |>).

(** [acc[x.streamId] = ...]; an entry may be [undefined]. *)
Definition getSyncedStreams (streamIds : list string)
    : PM (gmap string (option ParsedPersistedSyncedStream)) :=
  _ ← request;
  table ← gets ps_syncedStreams;
  records ← liftR (traverse (λ streamId,
    match table !! streamId with
    | None => Ok None
    | Some data => x ← syncedStream_fromBinary data; Ok (Some (streamId, x))
    end) streamIds);
  mret (foldl (λ acc record,
    match record with
    | Some (streamId, x) => <[streamId := persistedSyncedStreamToParsedSyncedStream streamId x]> acc
    | None => acc
    end) ∅ records).

(** *** Miniblocks *)

(** The caller's miniblocks after they were saved: the events that are stored
    have been changed in place. *)
Definition afterSave (direction : Direction) (miniblock : ParsedMiniblock) : ParsedMiniblock := {|
  mb_hash := mb_hash miniblock;
  mb_header := mb_header miniblock;
  mb_events := (λ e, if isPersistedEvent e direction then zeroEvent e else e) <$> mb_events miniblock |}.

(** [[streamId, miniblockNum.toString()]] *)
Definition miniblockKey (streamId : string) (miniblockNum : Z) : string * string :=
  (streamId, pretty miniblockNum).

Definition saveMiniblock (streamId : string) (miniblock : ParsedMiniblock) : PM unit :=
  let cachedMiniblock := parsedMiniblockToPersistedMiniblock miniblock forward in
  data ← liftR (miniblock_toBinary cachedMiniblock);
  _ ← request;
  modify (λ s, s <| ps_miniblocks ::=
    <[miniblockKey streamId (mh_miniblockNum (mb_header miniblock)) := data]> |>).

Definition saveMiniblocks (streamId : string) (miniblocks : list ParsedMiniblock) (direction : Direction)
    : PM unit :=
  records ← liftR (traverse (λ mb,
    data ← miniblock_toBinary (parsedMiniblockToPersistedMiniblock mb direction);
    Ok (miniblockKey streamId (mh_miniblockNum (mb_header mb)), data)) miniblocks);
  _ ← request;
  modify (λ s, s <| ps_miniblocks ::= λ table, foldl (λ acc r, <[r.1 := r.2]> acc) table records |>).

Definition getMiniblock (streamId : string) (miniblockNum : Z) : PM (option ParsedMiniblock) :=
  _ ← request;
  record ← gets (λ s, ps_miniblocks s !! miniblockKey streamId miniblockNum);
  match record with
  | None => mret None
  | Some data =>
      cachedMiniblock ← liftR (miniblock_fromBinary data);
      mret (persistedMiniblockToParsedMiniblock cachedMiniblock)
  end.

(** The ids from [rangeStart] to [rangeEnd], both included *)
Definition rangeIds (rangeStart rangeEnd : Z) : list Z := seqZ rangeStart (rangeEnd - rangeStart + 1).

Definition decodeMiniblock (record : option Blob) : Res (option ParsedMiniblock) :=
  match record with
  | None => Ok None
  | Some data =>
      cachedMiniblock ← miniblock_fromBinary data;
      Ok (persistedMiniblockToParsedMiniblock cachedMiniblock)
  end.

Definition getMiniblocks (streamId : string) (rangeStart rangeEnd : Z) : PM (list ParsedMiniblock) :=
  let ids := rangeIds rangeStart rangeEnd in
  _ ← request;
  table ← gets ps_miniblocks;
  records ← liftR (traverse (λ i, decodeMiniblock (table !! miniblockKey streamId i)) ids);
  let miniblocks := omap id records in
  mret (if (length miniblocks =? length ids)%nat then miniblocks else []).

(** *** Snapshots *)

Definition saveSnapshot (streamId : string) (miniblockNum : Z) (snapshot : Snapshot) : PM unit :=
  _ ← request;
  record ← gets (λ s, ps_snapshots s !! streamId);
  if match record with Some (num, _) => miniblockNum <=? num | None => false end then mret tt
  else
    data ← liftR (snapshot_toBlob snapshot);
    _ ← request;
    modify (λ s, s <| ps_snapshots ::= <[streamId := (miniblockNum, data)]> |>).

Definition getSnapshot (streamId : string) : PM (option (Snapshot * Z)) :=
  _ ← request;
  record ← gets (λ s, ps_snapshots s !! streamId);
  match record with
  | None => mret None
  | Some (miniblockNum, data) =>
      snapshot ← liftR (snapshot_fromBlob data);
      mret (Some (snapshot, miniblockNum))
  end.

(** *** Loading a stream *)

Definition isChannelStream (streamId : string) : bool :=
  isChannelStreamId (SStr streamId) || isDMChannelStreamId (SStr streamId)
  || isGDMChannelStreamId (SStr streamId).

(** The loop of [cachedScrollback], with [rounds] rounds left *)
Fixpoint cachedScrollback_loop (rounds : nat) (streamId : string) (fromInclusive toExclusive : Z)
    (miniblocks : list ParsedMiniblock) : PM (list ParsedMiniblock) :=
  match rounds with
  | O => mret miniblocks
  | S rounds =>
      if toExclusive <=? 0 then mret miniblocks
      else
        result ← getMiniblocks streamId fromInclusive (toExclusive - 1);
        match result with
        | [] => mret miniblocks
        | first :: _ =>
            let miniblocks := result ++ miniblocks in
            if hasTopLevelRenderableEvent miniblocks then mret miniblocks
            else cachedScrollback_loop rounds streamId
                   (mh_prevSnapshotMiniblockNum (mb_header first)) (mh_miniblockNum (mb_header first)) miniblocks
        end
  end.

Definition cachedScrollback (streamId : string) (fromInclusive toExclusive : Z) : PM (list ParsedMiniblock) :=
  if negb (isChannelStream streamId) then mret []
  else cachedScrollback_loop MAX_CACHED_SCROLLBACK_COUNT streamId fromInclusive toExclusive [].

(** [miniblocks.flatMap((mb) => mb.events.map((e) => e.hashStr))] *)
Definition hashesOf (miniblocks : list ParsedMiniblock) : list string :=
  miniblocks ≫= λ mb, pe_hashStr <$> mb_events mb.

Definition loadStream (streamId : string) (inPersistedSyncedStream : option ParsedPersistedSyncedStream)
    : PM (option LoadedStream) :=
  persistedSyncedStream ← match inPersistedSyncedStream with
                          | Some s => mret (Some s)
                          | None => getSyncedStream streamId
                          end;
  match persistedSyncedStream with
  | None => mret None
  | Some persisted =>
      miniblocks ← getMiniblocks streamId (pp_lastSnapshotMiniblockNum persisted) (pp_lastMiniblockNum persisted);
      match miniblocks with
      | [] => mret None
      | first :: _ =>
          snapshot ← getSnapshot streamId;
          match snapshot with
          | None => mret None
          | Some (snapshot, miniblockNum) =>
              if negb (miniblockNum =? pp_lastSnapshotMiniblockNum persisted) then mret None
              else
                prependedMiniblocks ←
                  (if isChannelStream streamId then
                     if hasTopLevelRenderableEvent miniblocks then mret []
                     else cachedScrollback streamId (mh_prevSnapshotMiniblockNum (mb_header first))
                            (mh_miniblockNum (mb_header first))
                   else mret []);
                cleartexts ← getCleartexts
                  (hashesOf miniblocks ++ eventIdsFromSnapshot snapshot ++ hashesOf prependedMiniblocks);
                mret (Some {|
                  ld_persistedSyncedStream := persisted;
                  ld_miniblocks := miniblocks;
                  ld_cleartexts := cleartexts;
                  ld_snapshot := snapshot;
                  ld_prependedMiniblocks := prependedMiniblocks;
                  ld_prevSnapshotMiniblockNum := mh_prevSnapshotMiniblockNum (mb_header first) |})
          end
      end
  end.

(** The loop of [loadStreams], in one transaction *)
Fixpoint loadStreams_loop (syncedStreams : gmap string (option ParsedPersistedSyncedStream))
    (streamIds : list string) (retVal : gmap string LoadedStream) : PM (gmap string LoadedStream) :=
  match streamIds with
  | [] => mret retVal
  | streamId :: streamIds =>
      match mjoin (syncedStreams !! streamId) with
      | None => loadStreams_loop syncedStreams streamIds retVal
      | Some s =>
          stream ← loadStream streamId (Some s);
          loadStreams_loop syncedStreams streamIds
            (match stream with Some stream => <[streamId := stream]> retVal | None => retVal end)
      end
  end.

Definition loadStreams (streamIds : list string) : PM (gmap string LoadedStream) :=
  syncedStreams ← getSyncedStreams streamIds;
  loadStreams_loop syncedStreams streamIds ∅.
End PersistenceStore.
