(* ===== verification/SyncedStream.v ===== *)
(** * SyncedStream: a stream that is cached (sdk/src/syncedStream.ts)

    A [SyncedStream] is a [Stream] that writes what it receives to the
    persistence store and can be initialised from there. Its methods run on the
    stream and the store; the calls of one stream follow each other, because the
    sync loop waits for each. The pool is read after waiting for the store, when
    messages of the user may have been added to it; what is stored of it is the
    same with and without them (see [persistTimelineEvent]). *)

From S2P Require Import Prelude JsLib JsMap Ids Proto Types StreamEvents StreamViews Content TimelinesView StreamState Stream Sign Persistence.

Inductive SyncedEmit :=
  | fromStream (e : Emit)
  | streamUpToDate (streamId : string).

Record SyncedEnv `{PersistenceCodec} := {
  se_env : Env StreamsView Stream;
  se_store : PersistenceStore;
}.
#[export] Instance eta_SyncedEnv `{PersistenceCodec} : Eta SyncedEnv := λ r,
  Build_SyncedEnv _ (se_env r) (se_store r).

Section SyncedStream.
Context `{EthLib, Codec, Lodash, PersistenceCodec}.

Abbreviation SyM := (M SyncedEmit SyncedEnv).

(** [super.m(...)] *)
Definition super {A} (m : StM A) : SyM A := λ s,
  match m (se_env s) with (r, e, o) => (r, s <| se_env := e |>, fromStream <$> o) end.

(** [await this.persistenceStore.m(...)] *)
Definition store {A} (m : M Empty_set PersistenceStore A) : SyM A := λ s,
  match m (se_store s) with (r, t, _) => (r, s <| se_store := t |>, []) end.

Definition streamId_ (s : SyncedEnv) : string := st_streamId (self (se_env s)).
Definition view_ (s : SyncedEnv) : StreamStateView := st_view (self (se_env s)).

Definition isUpToDate (s : SyncedEnv) : bool :=
  sst_isUpToDate (get StreamStatus_default (streamId_ s) (sv_streamStatus (view (se_env s)))).

Definition set_isUpToDate (value : bool) : SyM unit :=
  modify (λ s, s <| se_env ::= λ env, env <| view ::= λ v,
    v <| sv_streamStatus ::= setIsUpToDate (st_streamId (self env)) value |> |> |>).

Definition markUpToDate : SyM unit :=
  s ← getM;
  if isUpToDate s then mret tt
  else
    _ ← set_isUpToDate true;
    emit (negb (st_stopped (self (se_env s)))) (streamUpToDate (streamId_ s)).

Definition resetUpToDate : SyM unit := set_isUpToDate false.

Definition initializeFromPersistence (persistedData : option LoadedStream) : SyM bool :=
  s ← getM;
  loadedStream ← match persistedData with
                 | Some d => mret (Some d)
                 | None => store (loadStream (streamId_ s) None)
                 end;
  match loadedStream with
  | None => mret false
  | Some loaded =>
      catchM
        (match ld_miniblocks loaded with
         | [] => throwM (TypeError "Cannot read properties of undefined")
         | first :: _ =>
             _ ← super (Stream.initialize
                   (pp_syncCookie (ld_persistedSyncedStream loaded))
                   (pp_minipoolEvents (ld_persistedSyncedStream loaded))
                   (ld_snapshot loaded) (ld_miniblocks loaded) (ld_prependedMiniblocks loaded)
                   (mh_prevSnapshotMiniblockNum (mb_header first)) (ld_cleartexts loaded));
             mret true
         end)
        (λ _, mret false)
  end.

Definition initialize (nextSyncCookie : SyncCookie) (events : list ParsedEvent) (snapshot : Snapshot)
    (miniblocks prependedMiniblocks : list ParsedMiniblock) (prevSnapshotMiniblockNum : Z)
    (cleartexts : Cleartexts) : SyM unit :=
  _ ← super (Stream.initialize nextSyncCookie events snapshot miniblocks prependedMiniblocks
               prevSnapshotMiniblockNum cleartexts);
  s ← getM;
  match miniblocks, last miniblocks with
  | first :: _, Some lastBlock =>
      let cachedSyncedStream := {|
        pss_syncCookie := Some nextSyncCookie;
        pss_lastSnapshotMiniblockNum := mh_miniblockNum (mb_header first);
        pss_lastMiniblockNum := mh_miniblockNum (mb_header lastBlock);
        pss_minipoolEvents := createPersistedEvent <$> events |} in
      _ ← store (saveSyncedStream (streamId_ s) cachedSyncedStream);
      _ ← store (saveMiniblocks (streamId_ s) miniblocks forward);
      _ ← store (saveSnapshot (streamId_ s) (mh_miniblockNum (mb_header first)) snapshot);
      markUpToDate
  | _, _ => throwM (TypeError "Cannot read properties of undefined")
  end.

Definition initializeFromResponse (response : ParsedStreamResponse) : SyM unit :=
  cleartexts ← store (getCleartexts (psr_eventIds response));
  _ ← initialize (psc_nextSyncCookie (psr_streamAndCookie response))
        (psc_events (psr_streamAndCookie response)) (psr_snapshot response)
        (psc_miniblocks (psr_streamAndCookie response)) [] (psr_prevSnapshotMiniblockNum response)
        cleartexts;
  markUpToDate.

(** [create(PersistedSyncedStreamSchema, ...)] takes the fields of a
    [PersistedEvent] that a [StreamTimelineEvent] has: its creator. *)
Definition persistTimelineEvent (event : StreamTimelineEvent) : PersistedEvent := {|
  pv_event := None;
  pv_hash := [];
  pv_creatorUserId := ste_creatorUserId event;
  pv_signature := [] |}.

(** The objects of the pool *)
Definition poolEvents (s : SyncedEnv) : list StreamTimelineEvent :=
  omap (λ o, get_obj o (heap (se_env s))) (jm_values (minipoolEvents (view_ s))).

(** [new Map(...)] of the pool entries that have a remote event *)
Definition remotePool (s : SyncedEnv) : gmap string ParsedEvent :=
  foldl (λ acc p,
    match get_obj p.2 (heap (se_env s)) ≫= ste_remoteEvent with
    | Some event => <[p.1 := event]> acc
    | None => acc
    end) ∅ (entries (minipoolEvents (view_ s))).

Definition onMiniblockHeader (miniblockHeader : MiniblockHeader) (miniblockEvent : ParsedEvent) (hash : bytes)
    (snapshot : option ParsedSnapshot) (viewMinipoolEvents : gmap string ParsedEvent) : SyM unit :=
  s ← getM;
  let eventHashes := bin_toHexString <$> mh_eventHashes miniblockHeader in
  let events := omap (λ hash, viewMinipoolEvents !! hash) eventHashes in
  if negb (length events =? length eventHashes)%nat
  then throwM (PlainError "Couldn't find event for hash in miniblock")
  else
    let miniblock := {| mb_hash := hash; mb_header := miniblockHeader; mb_events := events ++ [miniblockEvent] |} in
    _ ← store (match snapshot, mh_snapshot miniblockHeader with
               | Some snapshot, inner =>
                   if bin_equal (Some (psn_hash snapshot)) (mh_snapshotHash miniblockHeader)
                   then saveSnapshot (streamId_ s) (mh_miniblockNum miniblockHeader) (psn_snapshot snapshot)
                   else match inner with
                        | Some inner => saveSnapshot (streamId_ s) (mh_miniblockNum miniblockHeader) inner
                        | None => mret tt
                        end
               | None, Some inner => saveSnapshot (streamId_ s) (mh_miniblockNum miniblockHeader) inner
               | None, None => mret tt
               end);
    _ ← store (saveMiniblock (streamId_ s) miniblock);
    match syncCookie (view_ s) with
    | None => mret tt
    | Some cookie =>
        let lastSnapshotMiniblockNum :=
          if isDefined (mh_snapshot miniblockHeader) || isDefined (mh_snapshotHash miniblockHeader)
          then mh_miniblockNum miniblockHeader else mh_prevSnapshotMiniblockNum miniblockHeader in
        store (saveSyncedStream (streamId_ s) {|
          pss_syncCookie := Some cookie;
          pss_lastSnapshotMiniblockNum := lastSnapshotMiniblockNum;
          pss_lastMiniblockNum := mh_miniblockNum miniblockHeader;
          pss_minipoolEvents := persistTimelineEvent <$> poolEvents s |})
    end.

(** The loop of [appendEvents] over the events *)
Fixpoint persist_loop (events : list ParsedEvent) (snapshot : option ParsedSnapshot)
    (minipoolEvents : gmap string ParsedEvent) : SyM unit :=
  match events with
  | [] => mret tt
  | event :: events =>
      match ev_payload (pe_event event) with
      | P_miniblockHeader value =>
          _ ← onMiniblockHeader value event (pe_hash event) snapshot minipoolEvents;
          persist_loop events snapshot minipoolEvents
      | _ => persist_loop events snapshot (<[pe_hashStr event := event]> minipoolEvents)
      end
  end.

Definition appendEvents (events : list ParsedEvent) (nextSyncCookie : SyncCookie)
    (snapshot : option ParsedSnapshot) (cleartexts : Cleartexts) : SyM unit :=
  s ← getM;
  let minipoolEvents := remotePool s in
  _ ← super (Stream.appendEvents events nextSyncCookie cleartexts);
  _ ← persist_loop events snapshot minipoolEvents;
  markUpToDate.
End SyncedStream.

Abbreviation SyM := (M SyncedEmit SyncedEnv).
