(* ===== verification/PersistenceFacts.v ===== *)
(** * PersistenceFacts: what is loaded from the cache was saved there

    The first part is about the store alone: whatever is saved, in whatever
    order, and whatever requests fail, a stream that loads is a gapless run of
    saved miniblocks up to the one its saved record names, starting at or before
    the one of the saved snapshot. The second part is about synced streams: the
    store follows what a stream receives. *)

From stdpp Require Import pretty.
From Stdlib Require Import Strings.Byte.
From S2P Require Import Prelude JsLib JsMap Ids IdsFacts Proto Types TimelineTypes TimelineEvent StreamEvents StreamViews Content TimelinesView StreamState Stream Sign Unpack Persistence SyncedStream Fixtures.

(** Messages survive their encoding. *)
Class PersistenceLaws `{PersistenceCodec} := {
  syncedStream_decoded m b : syncedStream_toBinary m = Ok b → syncedStream_fromBinary b = Ok m;
  miniblock_decoded m b : miniblock_toBinary m = Ok b → miniblock_fromBinary b = Ok m;
  snapshot_decoded m b : snapshot_toBlob m = Ok b → snapshot_fromBlob b = Ok m;
}.

(** ** What a round trip through the store makes of events and miniblocks *)

Section Reload.
Context `{EthLib}.

Definition reparse (event : ParsedEvent) : ParsedEvent := {|
  pe_event := pe_event event;
  pe_hash := pe_hash event;
  pe_hashStr := bin_toHexString (pe_hash event);
  pe_signature := Some (default [] (pe_signature event));
  pe_creatorUserId := pe_creatorUserId event |}.

Definition reload (direction : Direction) (miniblock : ParsedMiniblock) : ParsedMiniblock := {|
  mb_hash := mb_hash miniblock;
  mb_header := zeroSnapshot (mb_header miniblock);
  mb_events := (λ e, reparse (zeroEvent e)) <$>
                 List.filter (λ e, isPersistedEvent e direction) (mb_events miniblock) |}.

Lemma createPersistedEvent_parsed (l : list ParsedEvent) :
  omap persistedEventToParsedEvent (createPersistedEvent <$> l) = reparse <$> l.
Proof. induction l as [|e l IH]; [done|]. csimpl. by rewrite IH. Qed.

Lemma parsedMiniblock_reload direction miniblock :
  persistedMiniblockToParsedMiniblock (parsedMiniblockToPersistedMiniblock miniblock direction)
  = Some (reload direction miniblock).
Proof.
  unfold persistedMiniblockToParsedMiniblock, parsedMiniblockToPersistedMiniblock, reload. simpl. do 2 f_equal.
  induction (List.filter _ _) as [|e l IH]; [done|]. csimpl. by rewrite IH.
Qed.

(** An event with its hash string and a signature comes back as it was. *)
Lemma reparse_id event s :
  pe_hashStr event = bin_toHexString (pe_hash event) → pe_signature event = Some s → reparse event = event.
Proof. destruct event as [? ? ? ? ?]. unfold reparse. simpl. by intros -> ->. Qed.

Lemma persistTimelineEvent_lost (l : list StreamTimelineEvent) :
  omap persistedEventToParsedEvent (persistTimelineEvent <$> l) = [].
Proof. induction l as [|e l IH]; [done|]. csimpl. apply IH. Qed.
End Reload.

(** ** Reading

    [answers t m Q]: on a store with the tables [t], whatever requests fail, [m]
    leaves the tables alone and what it returns satisfies [Q]. *)

Section Answers.
Context `{EthLib, PersistenceCodec}.

Definition tables (s : PersistenceStore) : PersistenceStore := s <| ps_faults := [] |>.

Definition answers {A} (t : PersistenceStore) (m : M Empty_set PersistenceStore A) (Q : A → Prop) : Prop :=
  ∀ s, tables s = t → tables (post m s) = t ∧ ∀ a, res m s = Ok a → Q a.

Lemma answers_ret {A} t (a : A) (Q : A → Prop) : Q a → answers t (mret a) Q.
Proof. intros HQ s Hs. split; [done|]. by intros ? [= <-]. Qed.
Lemma answers_throw {A} t e (Q : A → Prop) : answers t (throwM e) Q.
Proof. by intros s Hs. Qed.
Lemma answers_lift {A} t (r : Res A) (Q : A → Prop) : (∀ a, r = Ok a → Q a) → answers t (liftR r) Q.
Proof. intros HQ s Hs. split; [done|]. intros a. apply HQ. Qed.
Lemma answers_gets {A} t (f : PersistenceStore → A) (Q : A → Prop) :
  (∀ s, tables s = t → Q (f s)) → answers t (gets f) Q.
Proof. intros HQ s Hs. split; [done|]. intros a [= <-]. by apply HQ. Qed.
Lemma answers_bind {A B} t (m : M _ _ A) (k : A → M _ _ B) (Q : A → Prop) (R : B → Prop) :
  answers t m Q → (∀ a, Q a → answers t (k a) R) → answers t (m ≫= k) R.
Proof.
  intros Hm Hk s Hs. destruct (Hm s Hs) as [Ht HQ]. rewrite post_bind, res_bind.
  destruct (res m s) as [a|e]; [|by split]. by apply Hk; [apply HQ|].
Qed.
Lemma answers_weaken {A} t (m : M _ _ A) (Q R : A → Prop) : answers t m Q → (∀ a, Q a → R a) → answers t m R.
Proof. intros Hm HQ s Hs. destruct (Hm s Hs) as [Ht H1]. split; [done|]. intros a Ha. by apply HQ, H1. Qed.
Lemma answers_catch {A} t (m : M _ _ A) h (Q : A → Prop) :
  answers t m Q → (∀ e, answers t (h e) Q) → answers t (catchM m h) Q.
Proof.
  intros Hm Hh s Hs. specialize (Hm s Hs). revert Hm. unfold post, res, catchM.
  destruct (m s) as [[[a|e] s1] o1]; simpl; [done|]. intros [H1 _].
  specialize (Hh e s1 H1). revert Hh. unfold post, res. by destruct (h e s1) as [[??]?].
Qed.
Lemma answers_request t : answers t request (λ _, True).
Proof. intros s Hs. unfold request, post, res. destruct (ps_faults s) as [|[e|] l] eqn:E; simpl; split; done. Qed.

(** A request, then a look at the tables *)
Lemma answers_read {A B} t (f : PersistenceStore → A) (k : A → M _ _ B) (Q : B → Prop) :
  (∀ s, f s = f (tables s)) → answers t (k (f t)) Q → answers t (_ ← request; x ← gets f; k x) Q.
Proof.
  intros Hf Hk. apply (answers_bind t _ _ (λ _, True)); [apply answers_request|]. intros _ _.
  apply (answers_bind t _ _ (λ x, x = f t)); [|by intros ? ->].
  apply answers_gets. intros s <-. apply Hf.
Qed.

Lemma answers_retry {A} t (fn : M _ _ A) retries (Q : A → Prop) :
  answers t fn Q → answers t (fnReadRetryer fn retries) Q.
Proof.
  intros Hfn. apply (answers_bind t _ _ (λ _, True)); [by apply answers_gets|]. intros faults _.
  generalize (S (length faults)) as fuel, (PlainError "undefined") as err, retries at 2 as counter.
  intros fuel. induction fuel as [|fuel IH]; intros err counter; simpl; [apply answers_throw|].
  destruct (counter <=? 0); [apply answers_throw|]. apply answers_catch; [done|]. intros [| | | | |name]; try apply answers_throw.
  destruct (String.eqb _ _); [apply IH|apply answers_throw].
Qed.
End Answers.

(** ** Histories of a store *)

Inductive StoreOp :=
  | SaveCleartext (eventId : string) (cleartext : Cleartext)
  | SaveSyncedStream (streamId : string) (syncedStream : PersistedSyncedStream)
  | SaveMiniblock (streamId : string) (miniblock : ParsedMiniblock)
  | SaveMiniblocks (streamId : string) (miniblocks : list ParsedMiniblock) (direction : Direction)
  | SaveSnapshot (streamId : string) (miniblockNum : Z) (snapshot : Snapshot)
  (** the requests that follow end as listed *)
  | Faults (faults : list (option JsError)).

(** A list of results none of which is undefined *)
Lemma omap_id_full {A} (l : list (option A)) : length (omap id l) = length l → l = Some <$> omap id l.
Proof.
  assert (Hle : ∀ l : list (option A), (length (omap id l) ≤ length l)%nat).
  { intros l'. induction l' as [|[x|] l' IH]; csimpl; lia. }
  induction l as [|[x|] l IH]; csimpl; [done|intros; f_equal; auto|].
  intros Hl. specialize (Hle l). lia.
Qed.

Section History.
Context `{EthLib, PersistenceCodec}.
Implicit Types (ops : list StoreOp) (s : PersistenceStore).

Definition save (op : StoreOp) : M Empty_set PersistenceStore unit :=
  match op with
  | SaveCleartext eventId cleartext => saveCleartext eventId cleartext
  | SaveSyncedStream streamId syncedStream => saveSyncedStream streamId syncedStream
  | SaveMiniblock streamId miniblock => saveMiniblock streamId miniblock
  | SaveMiniblocks streamId miniblocks direction => saveMiniblocks streamId miniblocks direction
  | SaveSnapshot streamId miniblockNum snapshot => saveSnapshot streamId miniblockNum snapshot
  | Faults faults => modify (λ s, s <| ps_faults := faults |>)
  end.

Definition history (ops : list StoreOp) : PersistenceStore :=
  foldl (λ s op, post (save op) s) (emptyStore []) ops.

(** What was saved, as it comes back *)
Definition savedBlock ops (streamId : string) (num : Z) (miniblock : ParsedMiniblock) : Prop :=
  ∃ direction b, mh_miniblockNum (mb_header b) = num ∧ miniblock = reload direction b
    ∧ ((direction = forward ∧ SaveMiniblock streamId b ∈ ops)
       ∨ ∃ l, b ∈ l ∧ SaveMiniblocks streamId l direction ∈ ops).
Definition savedRecord ops (streamId : string) (p : ParsedPersistedSyncedStream) : Prop :=
  ∃ q, SaveSyncedStream streamId q ∈ ops ∧ persistedSyncedStreamToParsedSyncedStream streamId q = Some p.

(** Every entry of a table decodes to something that was saved under its key. *)
Record traced ops s : Prop := {
  tr_cleartexts eventId c : ps_cleartexts s !! eventId = Some c → SaveCleartext eventId c ∈ ops;
  tr_records streamId data : ps_syncedStreams s !! streamId = Some data →
    ∃ q, SaveSyncedStream streamId q ∈ ops ∧ syncedStream_fromBinary data = Ok q;
  tr_blocks streamId num data : ps_miniblocks s !! miniblockKey streamId num = Some data →
    ∃ mb, savedBlock ops streamId num mb ∧ decodeMiniblock (Some data) = Ok (Some mb);
  tr_snapshots streamId num data : ps_snapshots s !! streamId = Some (num, data) →
    ∃ snapshot, SaveSnapshot streamId num snapshot ∈ ops ∧ snapshot_fromBlob data = Ok snapshot;
}.

#[export] Instance miniblockKey_inj : Inj2 (=) (=) (=) miniblockKey.
Proof. intros ? ? ? ? [= -> ->%(inj pretty)]. done. Qed.

Lemma savedBlock_mono ops op streamId num mb :
  savedBlock ops streamId num mb → savedBlock (ops ++ [op]) streamId num mb.
Proof.
  intros (d & b & Hn & Hm & Hs). exists d, b. split_and!; [done..|].
  destruct Hs as [[??]|(l & ? & ?)]; [left|right; exists l]; rewrite elem_of_app; auto.
Qed.

Lemma traced_mono ops op s : traced ops s → traced (ops ++ [op]) s.
Proof.
  intros [Hc Hr Hb Hs]. split.
  - intros ? ? ?%Hc. rewrite elem_of_app. auto.
  - intros ? ? (q & ? & ?)%Hr. exists q. rewrite elem_of_app. auto.
  - intros ? ? ? (mb & ? & ?)%Hb. exists mb. eauto using savedBlock_mono.
  - intros ? ? ? (sn & ? & ?)%Hs. exists sn. rewrite elem_of_app. auto.
Qed.

Lemma traced_faults ops s faults : traced ops s → traced ops (s <| ps_faults := faults |>).
Proof. intros [Hc Hr Hb Hs]. by split. Qed.

Lemma pres_request ops : pres (traced ops) request.
Proof.
  intros s Hs. unfold post, request. destruct (ps_faults s) as [|[e|] l]; [done|..]; by apply traced_faults.
Qed.

Context `{!PersistenceLaws}.

Lemma pres_bind_lift {A B} (I : PersistenceStore → Prop) (r : Res A) (k : A → M Empty_set PersistenceStore B) :
  (∀ a, r = Ok a → pres I (k a)) → pres I (liftR r ≫= k).
Proof. intros Hk. destruct r as [a|e]; [|by intros s]. intros s Hs. run. by apply Hk. Qed.

Lemma saveSyncedStream_traced ops streamId q :
  SaveSyncedStream streamId q ∈ ops → pres (traced ops) (saveSyncedStream streamId q).
Proof.
  intros Hop. apply pres_bind_lift. intros data Hdata. apply pres_bind; [apply pres_request|]. intros _.
  apply pres_modify. intros s [Hc Hr Hb Hs]. split; try done. intros id d. simpl. rewrite lookup_insert_Some.
  intros [[<- <-]|[? ?]]; [|by apply Hr]. exists q. split; [done|by apply syncedStream_decoded].
Qed.

Lemma saved_decodes direction b data :
  miniblock_toBinary (parsedMiniblockToPersistedMiniblock b direction) = Ok data →
  decodeMiniblock (Some data) = Ok (Some (reload direction b)).
Proof. intros Hd. unfold decodeMiniblock. by rewrite (miniblock_decoded _ _ Hd); simpl; rewrite parsedMiniblock_reload. Qed.

Lemma insert_block_traced ops s streamId b direction data :
  miniblock_toBinary (parsedMiniblockToPersistedMiniblock b direction) = Ok data →
  savedBlock ops streamId (mh_miniblockNum (mb_header b)) (reload direction b) →
  traced ops s → traced ops (s <| ps_miniblocks ::=
    <[miniblockKey streamId (mh_miniblockNum (mb_header b)) := data]> |>).
Proof.
  intros Hd Hsb [Hc Hr Hb Hs]. split; try done. intros id num d. simpl. rewrite lookup_insert_Some.
  intros [[[<- <-]%(inj2 miniblockKey) <-]|[? ?]]; [|by apply Hb]. eexists. split; [done|by apply saved_decodes].
Qed.

Lemma saveMiniblock_traced ops streamId b :
  SaveMiniblock streamId b ∈ ops → pres (traced ops) (saveMiniblock streamId b).
Proof.
  intros Hop. apply pres_bind_lift. intros data Hdata. apply pres_bind; [apply pres_request|]. intros _.
  apply pres_modify. intros s. apply (insert_block_traced _ _ _ _ forward); [done|].
  exists forward, b. auto.
Qed.

Lemma insert_blocks_traced ops streamId direction l records s :
  (∀ b, b ∈ l → savedBlock ops streamId (mh_miniblockNum (mb_header b)) (reload direction b)) →
  Forall2 (λ mb r, (data ← miniblock_toBinary (parsedMiniblockToPersistedMiniblock mb direction);
    Ok (miniblockKey streamId (mh_miniblockNum (mb_header mb)), data)) = Ok r) l records →
  traced ops s →
  traced ops (s <| ps_miniblocks ::= λ table, foldl (λ acc r, <[r.1 := r.2]> acc) table records |>).
Proof.
  intros Hl Hrecords. revert s. induction Hrecords as [|b r l records Hr Hrecords IH]; intros s Hs; [by destruct s|].
  apply bind_Ok in Hr as (data & Hd & Hr%(inj Ok)). subst r.
  assert (Hs' := insert_block_traced ops s streamId b direction data Hd (Hl b ltac:(by left)) Hs).
  exact (IH (λ b' Hb', Hl b' (list_elem_of_further _ _ _ Hb')) _ Hs').
Qed.

Lemma saveMiniblocks_traced ops streamId l direction :
  SaveMiniblocks streamId l direction ∈ ops → pres (traced ops) (saveMiniblocks streamId l direction).
Proof.
  intros Hop. apply pres_bind_lift. intros records Hrecords%traverse_ok. apply pres_bind; [apply pres_request|]. intros _.
  apply pres_modify. intros s. eapply insert_blocks_traced; [|done]. intros b Hb. exists direction, b. eauto 10.
Qed.

Lemma saveSnapshot_traced ops streamId num snapshot :
  SaveSnapshot streamId num snapshot ∈ ops → pres (traced ops) (saveSnapshot streamId num snapshot).
Proof.
  intros Hop. apply pres_bind; [apply pres_request|]. intros _. apply pres_bind; [by intros s|]. intros record.
  match goal with |- pres _ (if ?b then _ else _) => destruct b end; [by intros s|].
  apply pres_bind_lift. intros data Hdata. apply pres_bind; [apply pres_request|]. intros _.
  apply pres_modify. intros s [Hc Hr Hb Hs]. split; try done. intros id n d. simpl. rewrite lookup_insert_Some.
  intros [[<- [= <- <-]]|[? ?]]; [|by apply Hs]. exists snapshot. split; [done|by apply snapshot_decoded].
Qed.

Lemma save_traced ops op : op ∈ ops → pres (traced ops) (save op).
Proof.
  intros Hop. destruct op; simpl; auto using saveSyncedStream_traced, saveMiniblock_traced, saveMiniblocks_traced,
    saveSnapshot_traced.
  - apply pres_bind; [apply pres_request|]. intros _. apply pres_modify. intros s [Hc Hr Hb Hs]. split; try done.
    intros id c. simpl. rewrite lookup_insert_Some. intros [[<- <-]|[? ?]]; [done|by apply Hc].
  - apply pres_modify. intros s. apply traced_faults.
Qed.

Lemma history_traced ops : traced ops (history ops).
Proof.
  induction ops as [|op ops IH] using rev_ind; [by split|]. unfold history. rewrite foldl_app. simpl.
  apply save_traced; [rewrite elem_of_app; right; by left|]. by apply traced_mono.
Qed.

(** ** What loads *)

Lemma getMiniblocks_answers ops t streamId first last :
  traced ops t →
  answers t (getMiniblocks streamId first last) (λ l, l ≠ [] →
    Forall2 (savedBlock ops streamId) (rangeIds first last) l).
Proof.
  intros Ht. apply answers_read; [done|]. eapply answers_bind; [apply answers_lift; intros a Ha; exact Ha|].
  intros records Hrecords%traverse_ok. apply answers_ret. cbv zeta.
  destruct (_ =? _)%nat eqn:E; [|done]. intros _. apply Nat.eqb_eq in E.
  rewrite (Forall2_length _ _ _ Hrecords) in E. apply omap_id_full in E. rewrite E in Hrecords.
  apply Forall2_fmap_r in Hrecords. eapply Forall2_impl; [exact Hrecords|]. intros i mb.
  simpl. destruct (ps_miniblocks t !! miniblockKey streamId i) as [data|] eqn:Et; [|done].
  apply (tr_blocks _ _ Ht) in Et as (mb' & ? & ->). by intros [= <-].
Qed.

Lemma rangeIds_app a b c : a ≤ b → b - 1 ≤ c → rangeIds a (b - 1) ++ rangeIds b c = rangeIds a c.
Proof.
  intros. unfold rangeIds. replace (c - a + 1) with ((b - 1 - a + 1) + (c - b + 1)) by lia.
  rewrite (seqZ_app a (b - 1 - a + 1)) by lia. do 2 f_equal. lia.
Qed.

(** A run of saved blocks from some number up to [last] *)
Definition run_to ops (streamId : string) (first last : Z) (l : list ParsedMiniblock) : Prop :=
  Forall2 (savedBlock ops streamId) (rangeIds first last) l.

Lemma run_to_cons ops streamId first last b l :
  run_to ops streamId first last (b :: l) → first ≤ last ∧ mh_miniblockNum (mb_header b) = first.
Proof.
  unfold run_to, rangeIds. intros Hr. destruct (decide (first ≤ last)) as [Hle|Hle].
  - split; [done|]. rewrite seqZ_cons in Hr by lia. apply Forall2_cons in Hr as [(d & b' & Hn & -> & _) _]. done.
  - rewrite seqZ_nil in Hr by lia. by apply Forall2_nil_inv_l in Hr.
Qed.

Lemma scrollback_answers ops t streamId rounds : traced ops t →
  ∀ from to last l, to - 1 ≤ last → run_to ops streamId to last l →
  answers t (cachedScrollback_loop rounds streamId from to l) (λ l',
    ∃ a, a ≤ to ∧ run_to ops streamId a last l').
Proof.
  intros Ht. induction rounds as [|rounds IH]; intros from to last l Hto Hl; simpl; [apply answers_ret; by exists to|].
  destruct (to <=? 0); [apply answers_ret; by exists to|].
  eapply answers_bind; [by apply getMiniblocks_answers|]. intros [|b r] Hr; [apply answers_ret; by exists to|].
  specialize (Hr ltac:(done)). pose proof (run_to_cons _ _ _ _ _ _ Hr) as [Hle Hb].
  assert (Hrun : run_to ops streamId from last ((b :: r) ++ l)).
  { unfold run_to. rewrite <- (rangeIds_app from to last) by lia. by apply Forall2_app. }
  destruct (hasTopLevelRenderableEvent _); [apply answers_ret; exists from; split; [lia|done]|].
  rewrite Hb. eapply answers_weaken; [apply (IH _ from last); [lia|done]|]. intros l' (a & ? & ?). exists a. split; [lia|done].
Qed.

Lemma cleartextsOf_lookup table eventIds eventId :
  cleartextsOf table eventIds !! eventId = (if decide (eventId ∈ eventIds) then table !! eventId else None).
Proof.
  unfold cleartextsOf. induction eventIds as [|e l IH] using rev_ind; [apply lookup_empty|].
  rewrite foldl_app. simpl. destruct (table !! e) as [c|] eqn:E.
  - destruct (decide (e = eventId)) as [<-|Hne].
    + rewrite lookup_insert_eq, decide_True; [done|]. rewrite elem_of_app. right. by left.
    + rewrite lookup_insert_ne by done. rewrite IH. repeat case_decide; set_solver.
  - rewrite IH. destruct (decide (e = eventId)) as [<-|Hne].
    + rewrite E. by repeat case_decide.
    + repeat case_decide; set_solver.
Qed.

Lemma getCleartexts_answers t eventIds :
  answers t (getCleartexts eventIds) (λ c,
    ∀ eventId, cleartext_at c eventId = (if decide (eventId ∈ eventIds) then ps_cleartexts t !! eventId else None)).
Proof.
  apply answers_retry, answers_read; [done|]. apply answers_ret. intros eventId. destruct eventIds as [|e l]; [done|].
  apply cleartextsOf_lookup.
Qed.

(** A loaded stream that could have been saved by [ops] *)
Record consistent ops (streamId : string) (loaded : LoadedStream) : Prop := {
  co_record : savedRecord ops streamId (ld_persistedSyncedStream loaded);
  co_nonempty : ld_miniblocks loaded ≠ [];
  co_blocks : run_to ops streamId (pp_lastSnapshotMiniblockNum (ld_persistedSyncedStream loaded))
                (pp_lastMiniblockNum (ld_persistedSyncedStream loaded)) (ld_miniblocks loaded);
  co_scrollback : ∃ a, run_to ops streamId a (pp_lastMiniblockNum (ld_persistedSyncedStream loaded))
                         (ld_prependedMiniblocks loaded ++ ld_miniblocks loaded);
  co_snapshot : SaveSnapshot streamId (pp_lastSnapshotMiniblockNum (ld_persistedSyncedStream loaded))
                  (ld_snapshot loaded) ∈ ops;
  co_cleartexts eventId c : cleartext_at (ld_cleartexts loaded) eventId = Some c → SaveCleartext eventId c ∈ ops;
}.

Lemma getSyncedStream_answers ops t streamId :
  traced ops t →
  answers t (getSyncedStream streamId) (λ p, ∀ persisted, p = Some persisted → savedRecord ops streamId persisted).
Proof.
  intros Ht. apply answers_read; [done|]. destruct (ps_syncedStreams t !! streamId) as [data|] eqn:E; [|by apply answers_ret].
  apply (tr_records _ _ Ht) in E as (q & Hq & Hdata). rewrite Hdata.
  eapply answers_bind; [apply answers_lift; intros a Ha; exact Ha|]. intros q' [= <-].
  apply answers_ret. intros p Hp. by exists q.
Qed.

Lemma getSnapshot_answers ops t streamId :
  traced ops t →
  answers t (getSnapshot streamId) (λ r, ∀ snapshot num, r = Some (snapshot, num) → SaveSnapshot streamId num snapshot ∈ ops).
Proof.
  intros Ht. apply answers_read; [done|]. destruct (ps_snapshots t !! streamId) as [[num data]|] eqn:E; [|by apply answers_ret].
  apply (tr_snapshots _ _ Ht) in E as (q & Hq & Hdata). rewrite Hdata.
  eapply answers_bind; [apply answers_lift; intros a Ha; exact Ha|]. intros q' [= <-].
  apply answers_ret. by intros ? ? [= <- <-].
Qed.

Lemma loadStream_answers ops t streamId inPersisted :
  traced ops t → (∀ p, inPersisted = Some p → savedRecord ops streamId p) →
  answers t (loadStream streamId inPersisted) (λ r, ∀ loaded, r = Some loaded → consistent ops streamId loaded).
Proof.
  intros Ht Hin. unfold loadStream.
  eapply (answers_bind t _ _ (λ p, ∀ persisted, p = Some persisted → savedRecord ops streamId persisted)).
  { destruct inPersisted as [p|]; [by apply answers_ret|by apply getSyncedStream_answers]. }
  intros [p|] Hp; [|by apply answers_ret]. specialize (Hp p eq_refl).
  eapply answers_bind; [by apply getMiniblocks_answers|]. intros [|b l] Hl; [by apply answers_ret|].
  specialize (Hl ltac:(done)). fold (run_to ops streamId (pp_lastSnapshotMiniblockNum p) (pp_lastMiniblockNum p) (b :: l)) in Hl.
  pose proof (run_to_cons _ _ _ _ _ _ Hl) as [Hle Hb].
  eapply answers_bind; [by apply getSnapshot_answers|]. intros [[snapshot num]|] Hsn; [|by apply answers_ret].
  specialize (Hsn _ _ eq_refl). destruct (num =? _) eqn:En; cbn [negb]; [|by apply answers_ret]. apply Z.eqb_eq in En. subst num.
  eapply (answers_bind t _ _ (λ l', ∃ a, run_to ops streamId a (pp_lastMiniblockNum p) (l' ++ b :: l))).
  { assert (answers t (mret []) (λ l', ∃ a, run_to ops streamId a (pp_lastMiniblockNum p) (l' ++ b :: l))) as Hnil
      by (apply answers_ret; by eexists).
    destruct (isChannelStream streamId) eqn:Ec; [|done]. destruct (hasTopLevelRenderableEvent _); [done|].
    unfold cachedScrollback. rewrite Ec. cbn [negb]. rewrite Hb.
    eapply answers_weaken; [apply (scrollback_answers ops t _ _ Ht _ _ (pp_lastSnapshotMiniblockNum p - 1)); [lia|]|].
    - unfold run_to, rangeIds. rewrite seqZ_nil by lia. constructor.
    - intros l' (a & Ha & Hrun). exists a. unfold run_to. rewrite <- (rangeIds_app a (pp_lastSnapshotMiniblockNum p)) by lia.
      by apply Forall2_app. }
  intros l' Hl'. eapply answers_bind; [apply getCleartexts_answers|]. intros c Hc. apply answers_ret.
  intros loaded [= <-]. split; simpl; try done. intros eventId c'. rewrite Hc. case_decide; [|done]. apply (tr_cleartexts _ _ Ht).
Qed.

Lemma getSyncedStreams_answers ops t streamIds :
  traced ops t →
  answers t (getSyncedStreams streamIds) (λ m, ∀ streamId p, m !! streamId = Some (Some p) → savedRecord ops streamId p).
Proof.
  intros Ht. apply answers_read; [done|]. eapply answers_bind; [apply answers_lift; intros a Ha; exact Ha|].
  intros records Hrecords%traverse_ok. apply answers_ret.
  assert (Hr : Forall (λ r, ∀ streamId x, r = Some (streamId, x) → SaveSyncedStream streamId x ∈ ops) records).
  { clear -Ht Hrecords. induction Hrecords as [|id r ids records Hr _ IH]; constructor; [|done]. intros streamId x ->.
    destruct (ps_syncedStreams t !! id) as [data|] eqn:E; [|done]. apply (tr_records _ _ Ht) in E as (q & Hq & Hdata).
    rewrite Hdata in Hr. simpl in Hr. congruence. }
  clear Hrecords. induction records as [|r records IH] using rev_ind; [done|].
  apply Forall_app in Hr as [Hr1 Hr2]. apply Forall_inv in Hr2. rewrite foldl_app. simpl.
  destruct r as [[id x]|]; [|by apply IH]. intros streamId p. rewrite lookup_insert_Some.
  intros [[<- Hp]|[_ Hp]]; [|by eapply IH]. exists x. split; [by apply Hr2|done].
Qed.

Lemma loadStreams_answers ops t streamIds :
  traced ops t →
  answers t (loadStreams streamIds) (λ m, ∀ streamId loaded, m !! streamId = Some loaded → consistent ops streamId loaded).
Proof.
  intros Ht. eapply answers_bind; [by apply getSyncedStreams_answers|]. intros records Hrecords.
  assert (Hempty : ∀ streamId loaded, (∅ : gmap string LoadedStream) !! streamId = Some loaded → consistent ops streamId loaded) by done.
  revert Hempty. generalize (∅ : gmap string LoadedStream). induction streamIds as [|id ids IH]; intros m Hm; simpl; [by apply answers_ret|].
  destruct (mjoin (records !! id)) as [p|] eqn:E; [|by apply IH].
  eapply answers_bind; [apply loadStream_answers; [done|]|].
  - intros q [= <-]. apply Hrecords. destruct (records !! id) as [[]|]; simpl in E; congruence.
  - intros [stream|] Hs; apply IH; [|done]. intros streamId loaded. rewrite lookup_insert_Some.
    intros [[<- <-]|[_ ?]]; [by apply Hs|by apply Hm].
Qed.

(** C15. Whatever synced streams, miniblocks, snapshots and cleartexts are saved for
    whatever streams, in any order and with any requests to the database
    failing, then and when loading: a stream that loads consists of a record
    saved for it, the saved blocks from the record's snapshot to the record's
    last block without a gap, a scrollback that continues them downwards without
    a gap, the snapshot that was saved for the first of them, and saved
    cleartexts; otherwise loading returns nothing or throws. *)
Theorem loaded_consistent ops :
  (∀ streamId loaded, res (loadStream streamId None) (history ops) = Ok (Some loaded) → consistent ops streamId loaded)
  ∧ (∀ streamIds m streamId loaded, res (loadStreams streamIds) (history ops) = Ok m → m !! streamId = Some loaded →
       consistent ops streamId loaded).
Proof.
  pose proof (history_traced ops) as Ht.
  assert (Ht' : traced ops (tables (history ops))) by by apply traced_faults.
  split.
  - intros streamId loaded Hload.
    destruct (loadStream_answers ops (tables (history ops)) streamId None Ht') with (history ops) as [_ Hres]; [done..|].
    by apply (Hres _ Hload).
  - intros streamIds m streamId loaded Hload.
    destruct (loadStreams_answers ops (tables (history ops)) streamIds Ht') with (history ops) as [_ Hres]; [done|].
    apply (Hres _ Hload).
Qed.
End History.

(** ** Retries *)

Section Retries.
Context `{EthLib, PersistenceCodec}.

Definition aborted : option JsError := Some (DexieError "AbortError").

(** The answer of a request to a store whose next requests end as listed *)
Definition outcome (faults : list (option JsError)) : Res unit :=
  match faults with Some e :: _ => Throw e | _ => Ok tt end.

Lemma request_run s : res request s = outcome (ps_faults s) ∧ tables (post request s) = tables s
  ∧ ps_faults (post request s) = tail (ps_faults s).
Proof. unfold request, res, post, outcome. by destruct (ps_faults s) as [|[e|] l] eqn:E; simpl. Qed.

(** What [getCleartexts] returns when its request is answered *)
Definition found (s : PersistenceStore) (eventIds : list string) : Cleartexts :=
  match eventIds with [] => None | _ => Some (cleartextsOf (ps_cleartexts s) eventIds) end.

Lemma bulkGet_run eventIds s :
  res (bulkGetCleartexts eventIds) s = (λ _, found s eventIds) <$> outcome (ps_faults s)
  ∧ tables (post (bulkGetCleartexts eventIds) s) = tables s
  ∧ ps_faults (post (bulkGetCleartexts eventIds) s) = tail (ps_faults s).
Proof.
  destruct (request_run s) as (Hr & Ht & Hf). unfold bulkGetCleartexts. rewrite res_bind, post_bind, Hr.
  destruct (outcome (ps_faults s)) as [[]|e]; simpl; [|done]. run. split_and!; [|done..].
  do 2 f_equal. unfold found. destruct eventIds; [done|]. do 2 f_equal. exact (f_equal ps_cleartexts Ht).
Qed.

Lemma retry_loop n fuel eventIds faults retries err s :
  (n < fuel)%nat → 0 < retries → ps_faults s = replicate n aborted ++ faults → head faults ≠ Some aborted →
  res (fnReadRetryer_loop fuel (bulkGetCleartexts eventIds) retries retries err) s
  = (λ _, found s eventIds) <$> outcome faults.
Proof.
  intros Hfuel Hretries. revert n err s Hfuel. induction fuel as [|fuel IH]; intros n err s Hfuel Hs Hhead; [lia|].
  simpl. replace (retries <=? 0) with false by lia. rewrite Z.ltb_irrefl.
  destruct (bulkGet_run eventIds s) as (Hr & Ht & Hf). revert Hr Ht Hf. unfold res at 1 2, post, catchM.
  destruct (bulkGetCleartexts eventIds s) as [[r s'] o]. cbn [fst snd]. intros -> Ht Hf. rewrite Hs in *.
  destruct n as [|n]; simpl in *.
  - destruct faults as [|[[]|] faults]; simpl in *; try done.
    destruct (String.eqb_spec name "AbortError") as [->|]; [by destruct Hhead|done].
  - destruct (fnReadRetryer_loop _ _ _ _ _ s') as [[r2 s2] o2] eqn:E. simpl.
    specialize (IH n (DexieError "AbortError") s' ltac:(lia) Hf Hhead). unfold res in IH. rewrite E in IH. simpl in IH. rewrite IH.
    f_equal. unfold found. destruct eventIds; [done|]. by rewrite (f_equal ps_cleartexts Ht : ps_cleartexts s' = ps_cleartexts s).
Qed.

(** Reading cleartexts ends with the first request that is not aborted: it
    returns what is stored for the given events, or throws its error. Any number
    of aborted requests is repeated, although the code means to give up after two. *)
Theorem cleartexts_read n faults eventIds s :
  ps_faults s = replicate n aborted ++ faults → head faults ≠ Some aborted →
  res (getCleartexts eventIds) s = (λ _, found s eventIds) <$> outcome faults.
Proof.
  intros Hs Hhead. unfold getCleartexts, fnReadRetryer. run. apply (retry_loop n); [|done|done|done].
  rewrite Hs, length_app, length_replicate. lia.
Qed.
End Retries.
