(* ===== verification/SyncedStreamFacts.v ===== *)
(** * SyncedStreamFacts: the cache follows the stream

    [grow] is the specification: a cached stream is a snapshot with the blocks
    since, and a received header either adds its block or starts again from its
    own snapshot. After every run of a synced stream in which the headers fit,
    what loads from the store is exactly what the specification says. *)

From stdpp Require Import pretty.
From Stdlib Require Import Strings.Byte.
From S2P Require Import Prelude JsLib JsMap Ids IdsFacts Proto Types TimelineTypes StreamEvents StreamViews Content TimelinesView StreamState StreamStateFacts Stream StreamFacts StreamLifecycle Sign Unpack Persistence SyncedStream PersistenceFacts Fixtures.

Definition blockNum (mb : ParsedMiniblock) : Z := mh_miniblockNum (mb_header mb).

(** A snapshot, the blocks from its block [cc_first] to [cc_last] *)
Record Cache := {
  cc_first : Z;
  cc_last : Z;
  cc_snapshot : Snapshot;
  cc_blocks : list ParsedMiniblock;
}.

Definition hasSnapshot (header : MiniblockHeader) : bool :=
  isDefined (mh_snapshot header) || isDefined (mh_snapshotHash header).
Definition snapshotFor (snapshot : option ParsedSnapshot) (header : MiniblockHeader) : option Snapshot :=
  match snapshot with
  | Some sn => if bin_equal (Some (psn_hash sn)) (mh_snapshotHash header) then Some (psn_snapshot sn)
               else mh_snapshot header
  | None => mh_snapshot header
  end.

(** The cache after the next block, when it fits *)
Definition grow (snapshot : option ParsedSnapshot) (block : ParsedMiniblock) (c : Cache) : option Cache :=
  let header := mb_header block in
  if negb (mh_miniblockNum header =? cc_last c + 1) then None
  else if hasSnapshot header then
    sn ← snapshotFor snapshot header;
    Some {| cc_first := mh_miniblockNum header; cc_last := mh_miniblockNum header; cc_snapshot := sn;
            cc_blocks := [block] |}
  else if mh_prevSnapshotMiniblockNum header =? cc_first c then
    Some {| cc_first := cc_first c; cc_last := mh_miniblockNum header; cc_snapshot := cc_snapshot c;
            cc_blocks := cc_blocks c ++ [block] |}
  else None.

(** The block of a header, from the events of the pool that it names *)
Definition blockOf `{EthLib} (header : MiniblockHeader) (event : ParsedEvent) (pool : gmap string ParsedEvent)
    : option ParsedMiniblock :=
  let events := omap (λ hash, pool !! bin_toHexString hash) (mh_eventHashes header) in
  if (length events =? length (mh_eventHashes header))%nat
  then Some {| mb_hash := pe_hash event; mb_header := header; mb_events := events ++ [event] |} else None.

Fixpoint growBatch `{EthLib} (snapshot : option ParsedSnapshot) (events : list ParsedEvent)
    (pool : gmap string ParsedEvent) (c : Cache) : option Cache :=
  match events with
  | [] => Some c
  | event :: events =>
      match ev_payload (pe_event event) with
      | P_miniblockHeader header =>
          block ← blockOf header event pool;
          c ← grow snapshot block c;
          growBatch snapshot events pool c
      | _ => growBatch snapshot events (<[pe_hashStr event := event]> pool) c
      end
  end.

(** What a stream left in its cache: the cookie, the pool and the blocks *)
Record Memory := {
  me_cookie : SyncCookie;
  me_pool : list ParsedEvent;
  me_cache : Cache;
}.

Section Cached.
Context `{EthLib, PersistenceCodec}.
Implicit Types s : PersistenceStore.

Definition readable s : Prop :=
  ∀ k data, ps_miniblocks s !! k = Some data → ∃ mb, miniblock_fromBinary data = Ok mb.
Definition stored (streamId : string) s (b : ParsedMiniblock) : Prop :=
  ∃ data, ps_miniblocks s !! miniblockKey streamId (blockNum b) = Some data
          ∧ decodeMiniblock (Some data) = Ok (Some (reload forward b)).

Record cached_at (streamId : string) (m : Memory) s : Prop := {
  ca_readable : readable s;
  ca_bounds : cc_first (me_cache m) ≤ cc_last (me_cache m);
  ca_numbers : blockNum <$> cc_blocks (me_cache m) = rangeIds (cc_first (me_cache m)) (cc_last (me_cache m));
  ca_blocks : Forall (stored streamId s) (cc_blocks (me_cache m));
  ca_snapshot : ∃ data, ps_snapshots s !! streamId = Some (cc_first (me_cache m), data)
                        ∧ snapshot_fromBlob data = Ok (cc_snapshot (me_cache m));
  ca_record : ∃ data record, ps_syncedStreams s !! streamId = Some data ∧ syncedStream_fromBinary data = Ok record
                ∧ pss_syncCookie record = Some (me_cookie m)
                ∧ pss_lastSnapshotMiniblockNum record = cc_first (me_cache m)
                ∧ pss_lastMiniblockNum record = cc_last (me_cache m)
                ∧ omap persistedEventToParsedEvent (pss_minipoolEvents record) = me_pool m;
}.

Lemma cached_tables streamId m s s' : tables s' = tables s → cached_at streamId m s → cached_at streamId m s'.
Proof.
  intros Ht [Hr Hb Hn Hs Hsn Hrec].
  assert (ps_miniblocks s' = ps_miniblocks s) as Em by exact (f_equal ps_miniblocks Ht).
  assert (ps_snapshots s' = ps_snapshots s) as Es by exact (f_equal ps_snapshots Ht).
  assert (ps_syncedStreams s' = ps_syncedStreams s) as Er by exact (f_equal ps_syncedStreams Ht).
  split; try done.
  - unfold readable. by rewrite Em.
  - eapply Forall_impl; [exact Hs|]. intros b. unfold stored. by rewrite Em.
  - by rewrite Es.
  - by rewrite Er.
Qed.

(** ** Loading without failures *)

(** [m] only reads, and returns [a] *)
Definition reads {A} (m : M Empty_set PersistenceStore A) s (a : A) : Prop := m s = (Ok a, s, []).

Lemma reads_bind {A B} (m : M Empty_set PersistenceStore A) (k : A → M Empty_set PersistenceStore B) s a b :
  reads m s a → reads (k a) s b → reads (m ≫= k) s b.
Proof. unfold reads. intros Hm Hk. unfold mbind, M_bind. by rewrite Hm, Hk. Qed.

Lemma reads_request s : ps_faults s = [] → reads request s tt.
Proof. unfold reads, request. by intros ->. Qed.

(** A request and a look at the tables *)
Lemma reads_gets {A B} (f : PersistenceStore → A) (k : A → M Empty_set PersistenceStore B) s b :
  ps_faults s = [] → reads (k (f s)) s b → reads (_ ← request; x ← gets f; k x) s b.
Proof. intros Hf Hk. eapply reads_bind; [by apply reads_request|]. by eapply reads_bind. Qed.

Lemma getMiniblocks_reads streamId first last s :
  ps_faults s = [] → readable s → ∃ l, reads (getMiniblocks streamId first last) s l.
Proof.
  intros Hf Hr.
  assert (Hd : ∀ ids : list Z, ∃ records, traverse (λ i, decodeMiniblock (ps_miniblocks s !! miniblockKey streamId i)) ids = Ok records).
  { induction ids as [|i ids [records IH]]; [by eexists|]. simpl. rewrite IH.
    destruct (ps_miniblocks s !! miniblockKey streamId i) as [data|] eqn:E; simpl; [|by eexists].
    destruct (Hr _ _ E) as [mb ->]. simpl. by eexists. }
  destruct (Hd (rangeIds first last)) as [records Hrecords].
  exists (if (length (omap id records) =? length (rangeIds first last))%nat then omap id records else []).
  apply reads_gets; [done|].
  eapply (reads_bind _ _ _ records); [unfold reads, liftR; by rewrite Hrecords|reflexivity].
Qed.

Lemma getMiniblocks_stored streamId first last blocks s :
  ps_faults s = [] → blockNum <$> blocks = rangeIds first last → Forall (stored streamId s) blocks →
  reads (getMiniblocks streamId first last) s (reload forward <$> blocks).
Proof.
  intros Hf Hn Hs. apply reads_gets; [done|].
  eapply (reads_bind _ _ _ (Some <$> (reload forward <$> blocks))).
  - unfold reads, liftR. do 2 f_equal. apply traverse_ok. rewrite <- Hn, <- list_fmap_compose.
    apply Forall2_fmap, Forall_Forall2_diag. eapply Forall_impl; [exact Hs|]. intros b (data & Hd & Hdec). simpl.
    by rewrite Hd.
  - unfold reads. cbv zeta.
    assert (Ho : ∀ l : list ParsedMiniblock, omap id (Some <$> l) = l).
    { induction l as [|x l IH]; [done|]. csimpl. by rewrite IH. }
    rewrite Ho, <- Hn, !length_fmap, Nat.eqb_refl. done.
Qed.

Lemma scrollback_reads streamId s : ps_faults s = [] → readable s →
  ∀ rounds from to l, ∃ l', reads (cachedScrollback_loop rounds streamId from to l) s l'.
Proof.
  intros Hf Hr. induction rounds as [|rounds IH]; intros from to l; simpl; [by eexists|].
  destruct (to <=? 0); [by eexists|]. destruct (getMiniblocks_reads streamId from (to - 1) s Hf Hr) as [r Hread].
  destruct r as [|b r]; [eexists; by eapply reads_bind|].
  destruct (hasTopLevelRenderableEvent ((b :: r) ++ l)) eqn:E.
  - eexists. eapply reads_bind; [done|]. cbv zeta. by rewrite E.
  - destruct (IH (mh_prevSnapshotMiniblockNum (mb_header b)) (mh_miniblockNum (mb_header b)) ((b :: r) ++ l)) as [l' Hl'].
    exists l'. eapply reads_bind; [done|]. cbv zeta. by rewrite E.
Qed.

Lemma getCleartexts_reads eventIds s : ps_faults s = [] → ∃ c, reads (getCleartexts eventIds) s c.
Proof.
  intros Hf. exists (found s eventIds).
  assert (Hb : reads (bulkGetCleartexts eventIds) s (found s eventIds)) by by apply reads_gets.
  eapply (reads_bind _ _ _ []); [by unfold reads, gets; rewrite Hf|]. unfold reads in *. simpl. unfold catchM. by rewrite Hb.
Qed.

Lemma cached_loads streamId m s :
  cached_at streamId m s → ps_faults s = [] →
  ∃ loaded, reads (loadStream streamId None) s (Some loaded)
    ∧ pp_syncCookie (ld_persistedSyncedStream loaded) = me_cookie m
    ∧ pp_minipoolEvents (ld_persistedSyncedStream loaded) = me_pool m
    ∧ ld_snapshot loaded = cc_snapshot (me_cache m)
    ∧ ld_miniblocks loaded = reload forward <$> cc_blocks (me_cache m).
Proof.
  intros [Hr Hb Hn Hs (sdata & Hsn & Hsd) (data & record & Hrec & Hdec & Hcookie & Hfirst & Hlast & Hpool)] Hf.
  set (p := {| pp_streamId := streamId; pp_syncCookie := me_cookie m; pp_lastSnapshotMiniblockNum := cc_first (me_cache m);
               pp_minipoolEvents := me_pool m; pp_lastMiniblockNum := cc_last (me_cache m) |}).
  assert (Hget : reads (getSyncedStream streamId) s (Some p)).
  { apply reads_gets; [done|]. rewrite Hrec. eapply reads_bind; [unfold reads, liftR; by rewrite Hdec|].
    unfold persistedSyncedStreamToParsedSyncedStream. rewrite Hcookie. simpl. by rewrite Hfirst, Hlast, Hpool. }
  destruct (cc_blocks (me_cache m)) as [|b blocks] eqn:Eb.
  { exfalso. unfold rangeIds in Hn. rewrite seqZ_cons in Hn by lia. done. }
  pose proof (getMiniblocks_stored _ _ _ _ _ Hf Hn Hs) as Hblocks. rewrite fmap_cons in Hblocks |- *.
  set (l := reload forward b :: (reload forward <$> blocks)) in *.
  assert (Hsnap : reads (getSnapshot streamId) s (Some (cc_snapshot (me_cache m), cc_first (me_cache m)))).
  { apply reads_gets; [done|]. rewrite Hsn. eapply reads_bind; [unfold reads, liftR; by rewrite Hsd|]. done. }
  set (from := mh_prevSnapshotMiniblockNum (mb_header (reload forward b))).
  set (to := mh_miniblockNum (mb_header (reload forward b))).
  assert (Hpre : ∃ pre, reads (if isChannelStream streamId then
      if hasTopLevelRenderableEvent l then mret []
      else cachedScrollback streamId from to else mret []) s pre).
  { destruct (isChannelStream streamId) eqn:Ec; [|by eexists]. destruct (hasTopLevelRenderableEvent _); [by eexists|].
    unfold cachedScrollback. rewrite Ec. by apply scrollback_reads. }
  destruct Hpre as [pre Hpre].
  destruct (getCleartexts_reads (hashesOf l ++ eventIdsFromSnapshot (cc_snapshot (me_cache m))
              ++ hashesOf pre) s Hf) as [cts Hcts].
  eexists. split_and!.
  - eapply reads_bind; [exact Hget|]. eapply reads_bind; [exact Hblocks|]. unfold l at 1. cbv beta iota.
    eapply reads_bind; [exact Hsnap|].
    assert (Hsame : (cc_first (me_cache m) =? pp_lastSnapshotMiniblockNum p) = true) by apply Z.eqb_refl.
    cbv beta iota. rewrite Hsame. cbn [negb]. eapply reads_bind; [exact Hpre|]. eapply reads_bind; [exact Hcts|]. reflexivity.
  - done.
  - done.
  - done.
  - done.
Qed.
End Cached.

(** ** Saving *)

Section Saving.
Context `{EthLib, PersistenceCodec, !PersistenceLaws}.
Implicit Types s : PersistenceStore.

Lemma request_ok {A} (k : M Empty_set PersistenceStore A) s a :
  res (_ ← request; k) s = Ok a →
  ∃ s', tables s' = tables s ∧ res k s' = Ok a ∧ post (_ ← request; k) s = post k s'.
Proof.
  destruct (request_run s) as (Hr & Ht & _). rewrite res_bind, post_bind, Hr.
  destruct (outcome (ps_faults s)); [|done]. intros Hk. by exists (post request s).
Qed.

Lemma lift_ok {A B} (r : Res A) (k : A → M Empty_set PersistenceStore B) s b :
  res (liftR r ≫= k) s = Ok b → ∃ a, r = Ok a ∧ res (k a) s = Ok b ∧ post (liftR r ≫= k) s = post (k a) s.
Proof. destruct r as [a|e]; run; [|done]. intros Hk. by exists a. Qed.

Lemma saveSyncedStream_ok streamId p s u :
  res (saveSyncedStream streamId p) s = Ok u →
  ∃ data, syncedStream_fromBinary data = Ok p
    ∧ tables (post (saveSyncedStream streamId p) s) = tables (s <| ps_syncedStreams ::= <[streamId := data]> |>).
Proof.
  intros (data & Hd & Hr & Hp)%lift_ok. exists data. split; [by apply syncedStream_decoded|].
  apply request_ok in Hr as (s' & Ht & _ & Hp'). unfold saveSyncedStream. rewrite Hp, Hp'. run.
  by destruct s, s'; simplify_eq/=.
Qed.

Lemma saveMiniblock_ok streamId b s u :
  res (saveMiniblock streamId b) s = Ok u →
  ∃ data, decodeMiniblock (Some data) = Ok (Some (reload forward b))
    ∧ (∃ mb, miniblock_fromBinary data = Ok mb)
    ∧ tables (post (saveMiniblock streamId b) s)
      = tables (s <| ps_miniblocks ::= <[miniblockKey streamId (blockNum b) := data]> |>).
Proof.
  intros (data & Hd & Hr & Hp)%lift_ok. exists data. split_and!; [by apply saved_decodes|eexists; by apply miniblock_decoded|].
  apply request_ok in Hr as (s' & Ht & _ & Hp'). unfold saveMiniblock. rewrite Hp, Hp'. run.
  by destruct s, s'; simplify_eq/=.
Qed.

Lemma saveSnapshot_ok streamId num snapshot s u :
  res (saveSnapshot streamId num snapshot) s = Ok u →
  (∀ n d, ps_snapshots s !! streamId = Some (n, d) → n < num) →
  ∃ data, snapshot_fromBlob data = Ok snapshot
    ∧ tables (post (saveSnapshot streamId num snapshot) s) = tables (s <| ps_snapshots ::= <[streamId := (num, data)]> |>).
Proof.
  intros Hr Hold. unfold saveSnapshot in *. apply request_ok in Hr as (s1 & Ht & Hr & Hp). rewrite Hp. clear Hp.
  revert Hr. run. assert (Hs1 : ps_snapshots s1 = ps_snapshots s) by exact (f_equal ps_snapshots Ht). rewrite Hs1.
  assert (Hg : match ps_snapshots s !! streamId with Some (n, _) => num <=? n | None => false end = false).
  { destruct (ps_snapshots s !! streamId) as [[n d]|]; [|done]. specialize (Hold _ _ eq_refl). lia. }
  rewrite Hg. intros (data & Hd & Hr & Hp)%lift_ok. exists data. split; [by apply snapshot_decoded|].
  apply request_ok in Hr as (s' & Ht' & _ & Hp'). rewrite Hp, Hp'. run.
  destruct s, s1, s'; simplify_eq/=. done.
Qed.

Definition put (table : gmap (string * string) Blob) (records : list (string * string * Blob)) :=
  foldl (λ acc r, <[r.1 := r.2]> acc) table records.

Lemma put_other records table k : k ∉ records.*1 → put table records !! k = table !! k.
Proof.
  revert table. induction records as [|r records IH]; intros table Hk; [done|]. csimpl in Hk. apply not_elem_of_cons in Hk as [Hk1 Hk2].
  unfold put. simpl. fold (put (<[r.1:=r.2]> table) records). rewrite IH by done. by rewrite lookup_insert_ne.
Qed.

Lemma put_blocks streamId blocks records s :
  Forall2 (λ mb r, (data ← miniblock_toBinary (parsedMiniblockToPersistedMiniblock mb forward);
    Ok (miniblockKey streamId (mh_miniblockNum (mb_header mb)), data)) = Ok r) blocks records →
  NoDup (blockNum <$> blocks) → readable s →
  readable (s <| ps_miniblocks ::= λ t, put t records |>)
  ∧ Forall (stored streamId (s <| ps_miniblocks ::= λ t, put t records |>)) blocks.
Proof.
  intros Hd. revert s. induction Hd as [|b r blocks records Hr Hd IH]; intros s Hnodup Hread; [by destruct s|].
  apply bind_Ok in Hr as (data & Hb & Hr%(inj Ok)). subst r. csimpl in Hnodup. apply NoDup_cons in Hnodup as [Hb1 Hnodup].
  set (s1 := s <| ps_miniblocks ::= <[miniblockKey streamId (blockNum b) := data]> |>).
  assert (Hread1 : readable s1).
  { intros k d. simpl. rewrite lookup_insert_Some. intros [[_ <-]|[_ ?]]; [eexists; by apply miniblock_decoded|by eapply Hread]. }
  destruct (IH s1 Hnodup Hread1) as [Hr2 Hs2]. split; [exact Hr2|]. constructor; [|exact Hs2].
  exists data. split; [|by apply saved_decodes].
  change (put (ps_miniblocks s1) records !! miniblockKey streamId (blockNum b) = Some data). rewrite put_other.
  - simpl. by rewrite lookup_insert_eq.
  - intros Hin. apply Hb1. clear -Hd Hin. induction Hd as [|b' r' blocks records Hr' Hd IH]; csimpl in *; [by apply not_elem_of_nil in Hin|].
    apply bind_Ok in Hr' as (d' & _ & Hr'%(inj Ok)). subst r'. apply elem_of_cons in Hin as [E|Hin].
    + apply (inj2 miniblockKey) in E as [_ E]. rewrite E. by left.
    + right. auto.
Qed.

Lemma saveMiniblocks_ok streamId blocks s u :
  res (saveMiniblocks streamId blocks forward) s = Ok u → NoDup (blockNum <$> blocks) → readable s →
  ∃ table, tables (post (saveMiniblocks streamId blocks forward) s) = tables (s <| ps_miniblocks := table |>)
    ∧ readable (s <| ps_miniblocks := table |>) ∧ Forall (stored streamId (s <| ps_miniblocks := table |>)) blocks.
Proof.
  intros (records & Hd%traverse_ok & Hr & Hp)%lift_ok Hnodup Hread.
  apply request_ok in Hr as (s' & Ht & _ & Hp'). unfold saveMiniblocks. rewrite Hp, Hp'. run.
  exists (put (ps_miniblocks s) records). split; [by destruct s, s'; simplify_eq/=|].
  by apply put_blocks.
Qed.
Lemma ends_of_range first last blocks :
  first ≤ last → blockNum <$> blocks = rangeIds first last →
  ∃ b rest lb, blocks = b :: rest ∧ list.last (b :: rest) = Some lb ∧ blockNum b = first ∧ blockNum lb = last.
Proof.
  intros Hle Hn. destruct blocks as [|b rest].
  { unfold rangeIds in Hn. rewrite seqZ_cons in Hn by lia. done. }
  assert (Hl : list.last (rangeIds first last) = Some last).
  { rewrite <- (rangeIds_app first last last) by lia. unfold rangeIds at 2. replace (last - last + 1) with 1 by lia.
    apply last_snoc. }
  rewrite <- Hn, fmap_last in Hl. destruct (list.last (b :: rest)) as [lb|] eqn:E; [|done]. simplify_eq/=.
  exists b, rest, lb. split_and!; try done. unfold rangeIds in Hn. rewrite seqZ_cons in Hn by lia. by simplify_eq/=.
Qed.

Lemma readable_tables s s' : tables s' = tables s → readable s → readable s'.
Proof. intros Ht Hr. unfold readable. by rewrite (f_equal ps_miniblocks Ht : ps_miniblocks s' = ps_miniblocks s). Qed.

(** The three saves of [initialize] *)
Lemma saves_cached streamId cookie events snapshot blocks first last t0 u1 u2 u3 :
  let record := {| pss_syncCookie := Some cookie; pss_lastSnapshotMiniblockNum := first; pss_lastMiniblockNum := last;
                   pss_minipoolEvents := createPersistedEvent <$> events |} in
  let t1 := post (saveSyncedStream streamId record) t0 in
  let t2 := post (saveMiniblocks streamId blocks forward) t1 in
  res (saveSyncedStream streamId record) t0 = Ok u1 →
  res (saveMiniblocks streamId blocks forward) t1 = Ok u2 →
  res (saveSnapshot streamId first snapshot) t2 = Ok u3 →
  readable t0 → (∀ n d, ps_snapshots t0 !! streamId = Some (n, d) → n < first) →
  first ≤ last → blockNum <$> blocks = rangeIds first last →
  cached_at streamId {| me_cookie := cookie; me_pool := reparse <$> events;
    me_cache := {| cc_first := first; cc_last := last; cc_snapshot := snapshot; cc_blocks := blocks |} |}
    (post (saveSnapshot streamId first snapshot) t2).
Proof.
  intros record t1 t2 Hr1 Hr2 Hr3 Hread Hold Hle Hn.
  apply saveSyncedStream_ok in Hr1 as (data & Hdata & Ht1). fold t1 in Ht1.
  apply saveMiniblocks_ok in Hr2 as (table & Ht2 & Hread2 & Hst2); [fold t2 in Ht2| |by apply (readable_tables _ _ Ht1)].
  2: { rewrite Hn. apply NoDup_seqZ. }
  assert (Hsn : ps_snapshots t2 = ps_snapshots t0).
  { etrans; [exact (f_equal ps_snapshots Ht2)|exact (f_equal ps_snapshots Ht1)]. }
  apply saveSnapshot_ok in Hr3 as (sdata & Hsd & Ht3); [|by rewrite Hsn].
  eapply (cached_tables _ _ (t2 <| ps_snapshots ::= <[streamId := (first, sdata)]> |>)); [exact Ht3|].
  assert (Hmb : ps_miniblocks t2 = table) by exact (f_equal ps_miniblocks Ht2).
  split; cbn [me_cache cc_first cc_last cc_snapshot cc_blocks me_cookie me_pool]; try done.
  - intros k d. cbn. rewrite Hmb. apply Hread2.
  - eapply Forall_impl; [exact Hst2|]. intros b (d & Hd & Hdec). exists d. split; [|done]. cbn. by rewrite Hmb.
  - exists sdata. split; [|done]. cbn. by rewrite lookup_insert_eq.
  - exists data, record. split_and!; try done.
    + cbn. assert (Hss : ps_syncedStreams t2 = <[streamId := data]> (ps_syncedStreams t0)).
      { etrans; [exact (f_equal ps_syncedStreams Ht2)|exact (f_equal ps_syncedStreams Ht1)]. }
      by rewrite Hss, lookup_insert_eq.
    + apply createPersistedEvent_parsed.
Qed.

Lemma cached_bounds streamId m s n d :
  cached_at streamId m s → ps_snapshots s !! streamId = Some (n, d) → n ≤ cc_last (me_cache m).
Proof. intros [? Hle ? ? (data & Hs & _) ?] Hn. rewrite Hs in Hn. simplify_eq. done. Qed.

(** The saves for a header: its snapshot if it has one, its block, the record *)
Definition saveHeaderSnapshot (streamId : string) (snapshot : option ParsedSnapshot) (header : MiniblockHeader)
    : M Empty_set PersistenceStore unit :=
  match snapshotFor snapshot header with
  | Some sn => saveSnapshot streamId (mh_miniblockNum header) sn
  | None => mret tt
  end.

Lemma saveSnapshot_miniblocks streamId num sn : keeps ps_miniblocks (saveSnapshot streamId num sn).
Proof.
  assert (Hreq : keeps ps_miniblocks request) by (intros s; destruct (request_run s) as (_ & Ht & _); exact (f_equal ps_miniblocks Ht)).
  apply keeps_bind; [done|]. intros _. apply keeps_bind; [keeps|]. intros record.
  match goal with |- keeps _ (if ?b then _ else _) => destruct b end; [keeps|].
  apply keeps_bind; [keeps|]. intros data. apply keeps_bind; [done|]. intros _. by apply keeps_modify.
Qed.

Lemma grow_inv snapshot block c c' :
  grow snapshot block c = Some c' →
  let header := mb_header block in
  mh_miniblockNum header = cc_last c + 1 ∧ cc_last c' = mh_miniblockNum header
  ∧ ((hasSnapshot header = true ∧ ∃ sn, snapshotFor snapshot header = Some sn ∧ cc_first c' = mh_miniblockNum header
        ∧ cc_snapshot c' = sn ∧ cc_blocks c' = [block])
     ∨ (hasSnapshot header = false ∧ mh_prevSnapshotMiniblockNum header = cc_first c ∧ cc_first c' = cc_first c
        ∧ cc_snapshot c' = cc_snapshot c ∧ cc_blocks c' = cc_blocks c ++ [block])).
Proof.
  intros Hg header. unfold grow in Hg. fold header in Hg. destruct (_ =? cc_last c + 1) eqn:En; [|done]. cbn [negb] in Hg.
  destruct (hasSnapshot header).
  - destruct (snapshotFor snapshot header) as [sn|]; [|done]. simplify_eq/=. split_and!; [lia|done|]. left. eauto 10.
  - destruct (mh_prevSnapshotMiniblockNum header =? cc_first c) eqn:Ep; [|done]. simplify_eq/=. split_and!; [lia|done|].
    right. split_and!; [done|lia|done..].
Qed.

Lemma snapshotFor_none snapshot header :
  hasSnapshot header = false → (∀ sn, snapshot = Some sn → psn_hash sn ≠ []) → snapshotFor snapshot header = None.
Proof.
  unfold hasSnapshot, snapshotFor. intros [Hs Hh]%orb_false_iff Hne.
  destruct (mh_snapshot header); [done|]. destruct (mh_snapshotHash header); [done|].
  destruct snapshot as [sn|]; [|done]. specialize (Hne _ eq_refl). unfold bin_equal. by destruct (psn_hash sn).
Qed.

Lemma saveHeaderSnapshot_ok streamId m snapshot block c' t0 u :
  let header := mb_header block in
  res (saveHeaderSnapshot streamId snapshot header) t0 = Ok u →
  (∀ sn, snapshot = Some sn → psn_hash sn ≠ []) →
  cached_at streamId m t0 → grow snapshot block (me_cache m) = Some c' →
  ∃ d, ps_snapshots (post (saveHeaderSnapshot streamId snapshot header) t0) !! streamId = Some (cc_first c', d)
       ∧ snapshot_fromBlob d = Ok (cc_snapshot c').
Proof.
  intros header Hr Hhash Hc Hg. destruct (grow_inv _ _ _ _ Hg) as (Hnum & _ & Hcase). fold header in Hnum, Hcase.
  unfold saveHeaderSnapshot in *. destruct Hcase as [(_ & sn & Hsf & Hf & Hcs & _)|(Hsnap & _ & Hf & Hcs & _)].
  - rewrite Hsf in *. apply saveSnapshot_ok in Hr as (d & Hd & Ht).
    + exists d. rewrite Hf, Hcs. split; [|done].
      rewrite (f_equal ps_snapshots Ht : ps_snapshots (post _ _) = _). cbn. by rewrite lookup_insert_eq.
    + intros n d Hl. pose proof (cached_bounds _ _ _ _ _ Hc Hl). lia.
  - rewrite (snapshotFor_none _ _ Hsnap Hhash) in *. rewrite Hf, Hcs. apply (ca_snapshot _ _ _ Hc).
Qed.

(** A block stored on top of a cached stream *)
Lemma grown_blocks streamId m snapshot block c' t0 t bdata :
  cached_at streamId m t0 → grow snapshot block (me_cache m) = Some c' →
  decodeMiniblock (Some bdata) = Ok (Some (reload forward block)) →
  ps_miniblocks t = <[miniblockKey streamId (blockNum block) := bdata]> (ps_miniblocks t0) →
  cc_first c' ≤ cc_last c' ∧ blockNum <$> cc_blocks c' = rangeIds (cc_first c') (cc_last c')
  ∧ Forall (stored streamId t) (cc_blocks c').
Proof.
  intros [_ Hle Hn Hblocks _ _] Hg Hdec Ht. destruct (grow_inv _ _ _ _ Hg) as (Hnum & Hlast & Hcase).
  fold (blockNum block) in Hnum, Hlast, Hcase.
  assert (Hnew : stored streamId t block) by (exists bdata; by rewrite Ht, lookup_insert_eq).
  assert (Hone : ∀ n, rangeIds n n = [n]) by (intros n; unfold rangeIds; by replace (n - n + 1) with 1 by lia).
  destruct Hcase as [(_ & sn & _ & Hf & _ & Hcb)|(_ & _ & Hf & _ & Hcb)]; rewrite Hf, Hlast, Hcb.
  { split_and!; [lia|by rewrite Hone|by constructor]. }
  split_and!; [lia| |].
  - rewrite fmap_app, Hn, <- (rangeIds_app (cc_first (me_cache m)) (blockNum block) (blockNum block)), Hone by lia.
    f_equal. f_equal. lia.
  - apply Forall_app. split; [|by constructor]. apply Forall_forall. intros b Hb.
    pose proof (proj1 (Forall_forall _ _) Hblocks b Hb) as (d & Hd & Hdec'). exists d. split; [|done]. rewrite Ht.
    rewrite lookup_insert_ne; [done|]. intros [_ E]%(inj2 miniblockKey).
    assert (Hin : blockNum b ∈ rangeIds (cc_first (me_cache m)) (cc_last (me_cache m))) by (rewrite <- Hn; by apply list_elem_of_fmap_2).
    unfold rangeIds in Hin. apply elem_of_seqZ in Hin. lia.
Qed.

Lemma header_saves_cached streamId m cookie snapshot block pool c' t0 u1 u2 u3 :
  let header := mb_header block in
  let record := {| pss_syncCookie := Some cookie;
    pss_lastSnapshotMiniblockNum := if hasSnapshot header then mh_miniblockNum header else mh_prevSnapshotMiniblockNum header;
    pss_lastMiniblockNum := mh_miniblockNum header; pss_minipoolEvents := persistTimelineEvent <$> pool |} in
  let t1 := post (saveHeaderSnapshot streamId snapshot header) t0 in
  let t2 := post (saveMiniblock streamId block) t1 in
  res (saveHeaderSnapshot streamId snapshot header) t0 = Ok u1 →
  res (saveMiniblock streamId block) t1 = Ok u2 →
  res (saveSyncedStream streamId record) t2 = Ok u3 →
  (∀ sn, snapshot = Some sn → psn_hash sn ≠ []) →
  cached_at streamId m t0 → grow snapshot block (me_cache m) = Some c' →
  cached_at streamId {| me_cookie := cookie; me_pool := []; me_cache := c' |} (post (saveSyncedStream streamId record) t2).
Proof.
  intros header record t1 t2 Hr1 Hr2 Hr3 Hhash Hc Hg.
  destruct (saveHeaderSnapshot_ok _ _ _ _ _ _ _ Hr1 Hhash Hc Hg) as (sdata & Hsn & Hsd). fold t1 in Hsn.
  apply saveMiniblock_ok in Hr2 as (bdata & Hbdec & [mb Hmb] & Ht2). fold t2 in Ht2.
  apply saveSyncedStream_ok in Hr3 as (data & Hdata & Ht3). set (t3 := post (saveSyncedStream streamId record) t2) in *.
  assert (Hm1 : ps_miniblocks t1 = ps_miniblocks t0).
  { unfold t1, saveHeaderSnapshot. destruct (snapshotFor snapshot header); [|done]. apply saveSnapshot_miniblocks. }
  assert (Hm3 : ps_miniblocks t3 = <[miniblockKey streamId (blockNum block) := bdata]> (ps_miniblocks t0)).
  { etrans; [exact (f_equal ps_miniblocks Ht3)|]. etrans; [exact (f_equal ps_miniblocks Ht2)|]. cbn. by rewrite Hm1. }
  destruct (grown_blocks _ _ _ _ _ _ _ _ Hc Hg Hbdec Hm3) as (Hle & Hn & Hst).
  destruct (grow_inv _ _ _ _ Hg) as (_ & Hlast & Hcase). fold header in Hlast, Hcase.
  split; cbn [me_cache me_cookie me_pool]; try done.
  - intros k d. rewrite Hm3, lookup_insert_Some. intros [[_ <-]|[_ ?]]; [by exists mb|by eapply (ca_readable _ _ _ Hc)].
  - exists sdata. split; [|done]. etrans; [|exact Hsn]. f_equal.
    etrans; [exact (f_equal ps_snapshots Ht3)|exact (f_equal ps_snapshots Ht2)].
  - exists data, record. split_and!; try done.
    + rewrite (f_equal ps_syncedStreams Ht3 : ps_syncedStreams t3 = _). cbn. by rewrite lookup_insert_eq.
    + cbn. destruct Hcase as [(-> & sn & _ & -> & _)|(-> & Hp & -> & _)]; done.
    + apply persistTimelineEvent_lost.
Qed.

(** *** Saves beside a cached stream *)

(** A save that does not concern the cached part of a stream: cleartexts, other
    streams, and blocks below its first one, as a scrollback saves them *)
Definition elsewhere (streamId : string) (first : Z) (op : StoreOp) : Prop :=
  match op with
  | SaveCleartext _ _ | Faults _ => True
  | SaveSyncedStream id _ | SaveSnapshot id _ _ => id ≠ streamId
  | SaveMiniblock id b => id = streamId → blockNum b < first
  | SaveMiniblocks id l _ => id = streamId → Forall (λ b, blockNum b < first) l
  end.

Lemma cached_request streamId m : pres (cached_at streamId m) request.
Proof. intros s. apply cached_tables. by destruct (request_run s) as (_ & Ht & _). Qed.

Lemma cached_insert streamId m s id b direction data :
  miniblock_toBinary (parsedMiniblockToPersistedMiniblock b direction) = Ok data →
  (id = streamId → blockNum b < cc_first (me_cache m)) → cached_at streamId m s →
  cached_at streamId m (s <| ps_miniblocks ::= <[miniblockKey id (mh_miniblockNum (mb_header b)) := data]> |>).
Proof.
  intros Hd Hlow [Hr Hb Hn Hs Hsn Hrec]. split; try done.
  - intros k d. cbn. rewrite lookup_insert_Some. intros [[_ <-]|[_ ?]]; [eexists; by apply miniblock_decoded|by eapply Hr].
  - apply Forall_forall. intros x Hx. pose proof (proj1 (Forall_forall _ _) Hs x Hx) as (d & Hd' & Hdec).
    exists d. split; [|done]. cbn. rewrite lookup_insert_ne; [done|]. intros [E1 E2]%(inj2 miniblockKey).
    assert (Hin : blockNum x ∈ rangeIds (cc_first (me_cache m)) (cc_last (me_cache m))) by (rewrite <- Hn; by apply list_elem_of_fmap_2).
    unfold rangeIds in Hin. apply elem_of_seqZ in Hin. specialize (Hlow E1). unfold blockNum in *. lia.
Qed.

Lemma cached_inserts streamId m id direction l records s :
  Forall2 (λ mb r, (data ← miniblock_toBinary (parsedMiniblockToPersistedMiniblock mb direction);
    Ok (miniblockKey id (mh_miniblockNum (mb_header mb)), data)) = Ok r) l records →
  (id = streamId → Forall (λ b, blockNum b < cc_first (me_cache m)) l) → cached_at streamId m s →
  cached_at streamId m (s <| ps_miniblocks ::= λ table, foldl (λ acc r, <[r.1 := r.2]> acc) table records |>).
Proof.
  intros Hrecords. revert s. induction Hrecords as [|b r l records Hr _ IH]; intros s Hlow Hs; [by destruct s|].
  apply bind_Ok in Hr as (data & Hd & Hr%(inj Ok)). subst r.
  refine (IH _ _ (cached_insert _ _ _ id b direction data Hd _ Hs)); intros E; specialize (Hlow E); by inversion Hlow.
Qed.

Lemma cached_save streamId m op :
  elsewhere streamId (cc_first (me_cache m)) op → pres (cached_at streamId m) (save op).
Proof.
  destruct op as [e c|id p|id b|id l d|id n sn|faults]; simpl; intros Hop.
  - apply pres_bind; [apply cached_request|]. intros _. apply pres_modify. intros s. by intros [].
  - apply pres_bind_lift. intros data _. apply pres_bind; [apply cached_request|]. intros _. apply pres_modify.
    intros s [? ? ? ? ? Hrec]. split; try done. cbn. by rewrite lookup_insert_ne.
  - apply pres_bind_lift. intros data Hd. apply pres_bind; [apply cached_request|]. intros _. apply pres_modify.
    intros s. by eapply cached_insert.
  - apply pres_bind_lift. intros records Hd%traverse_ok. apply pres_bind; [apply cached_request|]. intros _. apply pres_modify.
    intros s. by eapply cached_inserts.
  - apply pres_bind; [apply cached_request|]. intros _. apply pres_bind; [apply pres_gets|]. intros record.
    match goal with |- pres _ (if ?b then _ else _) => destruct b end; [apply pres_ret|].
    apply pres_bind_lift. intros data _. apply pres_bind; [apply cached_request|]. intros _. apply pres_modify.
    intros s [? ? ? ? Hsn ?]. split; try done. cbn. by rewrite lookup_insert_ne.
  - apply pres_modify. intros s. by apply cached_tables.
Qed.
End Saving.

(** ** The methods of a synced stream *)

Section Methods.
Context `{EthLib, Codec, Lodash, PersistenceCodec, !PersistenceLaws}.
Implicit Types s : SyncedEnv.

Lemma res_super {A} (m : StM A) s : res (super m) s = res m (se_env s).
Proof. unfold res, super. by destruct (m (se_env s)) as [[??]?]. Qed.
Lemma post_super {A} (m : StM A) s : post (super m) s = s <| se_env := post m (se_env s) |>.
Proof. unfold post, super. by destruct (m (se_env s)) as [[??]?]. Qed.
Lemma res_store {A} (m : M Empty_set PersistenceStore A) s : res (store m) s = res m (se_store s).
Proof. unfold res, store. by destruct (m (se_store s)) as [[??]?]. Qed.
Lemma post_store {A} (m : M Empty_set PersistenceStore A) s : post (store m) s = s <| se_store := post m (se_store s) |>.
Proof. unfold post, store. by destruct (m (se_store s)) as [[??]?]. Qed.

Lemma bind_ok {A B} (m : SyM A) (k : A → SyM B) s b :
  res (m ≫= k) s = Ok b →
  ∃ a, res m s = Ok a ∧ res (k a) (post m s) = Ok b ∧ post (m ≫= k) s = post (k a) (post m s).
Proof. rewrite res_bind, post_bind. destruct (res m s) as [a|e]; [|done]. intros Hk. by exists a. Qed.

Lemma markUpToDate_keeps : keeps se_store markUpToDate ∧ keeps streamId_ markUpToDate.
Proof.
  split; intros s; unfold markUpToDate; run; destruct (isUpToDate s); run; [done| |done|]; unfold set_isUpToDate; by run.
Qed.

Lemma with_view_streamId {A} (m : SM A) : keeps (λ e : Env StreamsView Stream, st_streamId (self e)) (with_view m).
Proof. intros e. unfold post, with_view. by destruct (m _) as [[??]?]. Qed.
Lemma initialize_streamId c events snapshot mbs pre n cts :
  keeps (λ e : Env StreamsView Stream, st_streamId (self e)) (Stream.initialize c events snapshot mbs pre n cts).
Proof.
  apply keeps_bind; [keeps|]. intros e. apply keeps_bind; [keeps|]. intros v.
  apply keeps_bind; [by apply keeps_modify|]. intros _. apply with_view_streamId.
Qed.

(** [cached_at] holds when the four tables are as the saves left them. *)
Lemma initialize_cached cookie events snapshot blocks pre prev cts first last s :
  res (initialize cookie events snapshot blocks pre prev cts) s = Ok tt →
  readable (se_store s) →
  (∀ n d, ps_snapshots (se_store s) !! streamId_ s = Some (n, d) → n < first) →
  first ≤ last → blockNum <$> blocks = rangeIds first last →
  let s' := post (initialize cookie events snapshot blocks pre prev cts) s in
  streamId_ s' = streamId_ s
  ∧ cached_at (streamId_ s) {| me_cookie := cookie; me_pool := reparse <$> events;
      me_cache := {| cc_first := first; cc_last := last; cc_snapshot := snapshot; cc_blocks := blocks |} |} (se_store s').
Proof.
  intros Hr Hread Hold Hle Hn s'. unfold s'. clear s'. unfold initialize in *.
  apply bind_ok in Hr as ([] & Hsup & Hr & ->). rewrite post_super in *. rewrite res_super in Hsup. clear Hsup.
  pose proof (initialize_streamId cookie events snapshot blocks pre prev cts (se_env s)) as Hid. cbv beta in Hid.
  set (s1 := s <| se_env := _ |>) in *. assert (Hid1 : streamId_ s1 = streamId_ s) by exact Hid.
  assert (Hst : se_store s1 = se_store s) by done. clearbody s1. clear Hid. revert Hr. run.
  destruct (ends_of_range _ _ _ Hle Hn) as (b & rest & lb & -> & Hlb & Hb1 & Hb2). rewrite Hlb.
  unfold blockNum in Hb1, Hb2. rewrite Hb1, Hb2, Hid1.
  intros (u1 & Hr1 & Hr & ->)%bind_ok. rewrite res_store, Hst in Hr1. rewrite post_store in *.
  apply bind_ok in Hr as (u2 & Hr2 & Hr & ->). rewrite res_store in Hr2. rewrite post_store in *.
  apply bind_ok in Hr as (u3 & Hr3 & Hr & ->). rewrite res_store in Hr3. rewrite post_store in *.
  cbn [se_store over] in Hr2, Hr3 |- *. rewrite Hst in *.
  destruct markUpToDate_keeps as [Hk1 Hk2]. rewrite Hk1, Hk2. split; [exact Hid1|].
  by eapply saves_cached.
Qed.

Lemma onMiniblockHeader_cached header event snapshot pool m cookie c' block s :
  res (onMiniblockHeader header event (pe_hash event) snapshot pool) s = Ok tt →
  (∀ sn, snapshot = Some sn → psn_hash sn ≠ []) → syncCookie (view_ s) = Some cookie →
  cached_at (streamId_ s) m (se_store s) →
  blockOf header event pool = Some block → grow snapshot block (me_cache m) = Some c' →
  let s' := post (onMiniblockHeader header event (pe_hash event) snapshot pool) s in
  se_env s' = se_env s
  ∧ cached_at (streamId_ s) {| me_cookie := cookie; me_pool := []; me_cache := c' |} (se_store s').
Proof.
  intros Hr Hhash Hcookie Hc Hb Hg s'. unfold s'. clear s'. revert Hr. unfold onMiniblockHeader. run.
  unfold blockOf in Hb. rewrite length_fmap.
  assert (Homap : ∀ l : list bytes, omap (λ hash, pool !! hash) (bin_toHexString <$> l) = omap (λ hash, pool !! bin_toHexString hash) l).
  { induction l as [|h l IH]; [done|]. csimpl. by rewrite IH. }
  rewrite Homap. destruct (_ =? _)%nat; [|done]. cbn [negb]. injection Hb as <-.
  set (block := {| mb_hash := _ |}) in *.
  match goal with |- context [store ?m ≫= _] =>
    replace m with (saveHeaderSnapshot (streamId_ s) snapshot header) end.
  2: { unfold saveHeaderSnapshot, snapshotFor. destruct snapshot; [by destruct (bin_equal _ _)|by destruct (mh_snapshot header)]. }
  rewrite Hcookie. intros (u1 & Hr1 & Hr & ->)%bind_ok. rewrite res_store in Hr1. rewrite post_store in *.
  apply bind_ok in Hr as (u2 & Hr2 & Hr & ->). rewrite res_store in Hr2, Hr. rewrite !post_store in *.
  split; [done|]. exact (header_saves_cached _ _ _ _ block _ _ _ _ _ _ Hr1 Hr2 Hr Hhash Hc Hg).
Qed.

(** The memory after a batch *)
Definition remember (events : list ParsedEvent) (cookie : SyncCookie) (c : Cache) (m : Memory) : Memory :=
  if existsb isHeader events then {| me_cookie := cookie; me_pool := []; me_cache := c |}
  else {| me_cookie := me_cookie m; me_pool := me_pool m; me_cache := c |}.

Lemma persist_loop_cached events snapshot pool m cookie c' s :
  res (persist_loop events snapshot pool) s = Ok tt →
  (∀ sn, snapshot = Some sn → psn_hash sn ≠ []) → syncCookie (view_ s) = Some cookie →
  cached_at (streamId_ s) m (se_store s) → growBatch snapshot events pool (me_cache m) = Some c' →
  let s' := post (persist_loop events snapshot pool) s in
  se_env s' = se_env s ∧ cached_at (streamId_ s) (remember events cookie c' m) (se_store s').
Proof.
  intros Hr Hhash. revert pool m s Hr. induction events as [|event events IH]; intros pool m s Hr Hcookie Hc Hg.
  { injection Hg as <-. unfold remember. simpl. split; [done|]. by destruct m. }
  assert (Hother : (∀ v, ev_payload (pe_event event) ≠ P_miniblockHeader v) →
    res (persist_loop events snapshot (<[pe_hashStr event := event]> pool)) s = Ok tt →
    growBatch snapshot events (<[pe_hashStr event := event]> pool) (me_cache m) = Some c' →
    let s' := post (persist_loop events snapshot (<[pe_hashStr event := event]> pool)) s in
    se_env s' = se_env s ∧ cached_at (streamId_ s) (remember (event :: events) cookie c' m) (se_store s')).
  { intros Hno Hr' Hg'. assert (isHeader event = false) as Hh.
    { unfold isHeader. destruct (ev_payload (pe_event event)) eqn:E; try done. by destruct (Hno v). }
    unfold remember. cbn [existsb]. rewrite Hh. cbn [orb]. by apply IH. }
  cbn [persist_loop growBatch] in Hr, Hg |- *.
  destruct (ev_payload (pe_event event)) as [|header| | | | | | | | | | |] eqn:E; try by apply Hother.
  clear Hother. destruct (blockOf header event pool) as [block|] eqn:Eb; [|done]. simpl in Hg.
  destruct (grow snapshot block (me_cache m)) as [c1|] eqn:Eg; [|done]. simpl in Hg.
  apply bind_ok in Hr as ([] & Hr1 & Hr2 & ->).
  destruct (onMiniblockHeader_cached _ _ _ _ _ _ _ _ _ Hr1 Hhash Hcookie Hc Eb Eg) as [He1 Hc1].
  set (s1 := post (onMiniblockHeader _ _ _ _ _) s) in *.
  assert (Hid : streamId_ s1 = streamId_ s) by (unfold streamId_; by rewrite He1).
  assert (Hco : syncCookie (view_ s1) = Some cookie) by (unfold view_; by rewrite He1).
  rewrite <- Hid in Hc1. destruct (IH _ _ _ Hr2 Hco Hc1 Hg) as [He2 Hc2].
  rewrite Hid in Hc2. split; [congruence|].
  unfold remember in *. cbn [existsb].
  replace (isHeader event) with true by (unfold isHeader; by rewrite E). cbn [orb]. by destruct (existsb isHeader events).
Qed.

Lemma appendStreamAndCookie_cookie cookie events cts enc st v r :
  res (appendStreamAndCookie cookie events cts enc st) v = Ok r →
  syncCookie (self (post (appendStreamAndCookie cookie events cts enc st) v)) = Some cookie.
Proof.
  unfold appendStreamAndCookie. rewrite res_bind, post_bind.
  destruct (res (append_loop events _ cts enc st) v) as [a|]; [|done]. unfold on_self. by run.
Qed.

Lemma derefs_keeps l : keeps self (derefs l).
Proof. induction l as [|o l IH]; cbn [derefs]; keeps. Qed.

Lemma appendEvents_cookie events cookie cts (e : Env StreamsView Stream) :
  res (Stream.appendEvents events cookie cts) e = Ok tt →
  syncCookie (st_view (self (post (Stream.appendEvents events cookie cts) e))) = Some cookie.
Proof.
  set (v := Build_Env (heap e) (view e) (st_view (self e))).
  assert (Hv : res (StreamState.appendEvents events cookie cts) v = Ok tt →
    syncCookie (self (post (StreamState.appendEvents events cookie cts) v)) = Some cookie).
  { unfold StreamState.appendEvents. rewrite res_bind, post_bind.
    destruct (res (appendStreamAndCookie _ _ _ _ _) v) as [r|] eqn:E; [|done]. intros _.
    match goal with |- context [post ?k (post (appendStreamAndCookie cookie events cts true true) v)] =>
      assert (Hk : keeps self k) end.
    { repeat (apply keeps_bind; [first [apply derefs_keeps|keeps]|intros ?]). unfold on_timelines. keeps. }
    rewrite Hk. by eapply appendStreamAndCookie_cookie. }
  unfold Stream.appendEvents, with_view, res, post in *. fold v.
  destruct (StreamState.appendEvents events cookie cts v) as [[r e'] o]. simpl. apply Hv.
Qed.

Lemma appendEvents_cached events cookie snapshot cts m c' s :
  res (appendEvents events cookie snapshot cts) s = Ok tt →
  (∀ sn, snapshot = Some sn → psn_hash sn ≠ []) →
  cached_at (streamId_ s) m (se_store s) → growBatch snapshot events (remotePool s) (me_cache m) = Some c' →
  let s' := post (appendEvents events cookie snapshot cts) s in
  streamId_ s' = streamId_ s ∧ cached_at (streamId_ s) (remember events cookie c' m) (se_store s').
Proof.
  intros Hr Hhash Hc Hg s'. unfold s'. clear s'. revert Hr. unfold appendEvents. run.
  intros ([] & Hsup & Hr & ->)%bind_ok. rewrite post_super in *. rewrite res_super in Hsup.
  pose proof (appendEvents_cookie _ _ _ _ Hsup) as Hcookie.
  pose proof (with_view_streamId (StreamState.appendEvents events cookie cts) (se_env s)) as Hid. cbv beta in Hid.
  fold (Stream.appendEvents events cookie cts) in Hid. set (s1 := s <| se_env := _ |>) in *.
  assert (Hid1 : streamId_ s1 = streamId_ s) by exact Hid. assert (Hst : se_store s1 = se_store s) by done.
  assert (Hco : syncCookie (view_ s1) = Some cookie) by exact Hcookie. clearbody s1.
  apply bind_ok in Hr as ([] & Hr1 & Hr2 & ->). rewrite <- Hid1, <- Hst in Hc.
  destruct (persist_loop_cached _ _ _ _ _ _ _ Hr1 Hhash Hco Hc Hg) as [He2 Hc2].
  destruct markUpToDate_keeps as [Hk1 Hk2]. rewrite Hk1, Hk2, <- Hid1. split; [unfold streamId_; by rewrite He2|done].
Qed.

(** *** The cookie of a stream that is initialised *)

Definition cookieOf (e : SEnv) : option SyncCookie := syncCookie (self e).

Lemma getContent_cookie {A} (op : ∀ V X, AbstractContent V X → M Emit (Env V X) A) : keeps cookieOf (getContent op).
Proof. unfold getContent. apply keeps_bind; [keeps|]. intros this. destruct (ssv_content this); apply keeps_zoom; by intros. Qed.
Lemma on_members_cookie {A} (m : M Emit (Env StreamMemberIds Members.Members) A) : keeps cookieOf (on_members m).
Proof. apply keeps_zoom. by intros. Qed.
Lemma on_timelines_cookie {A} (m : M Emit TimelinesView A) : keeps cookieOf (on_timelines m).
Proof. apply keeps_zoom. by intros. Qed.
Lemma derefs_cookie l : keeps cookieOf (derefs l).
Proof. intros e. unfold cookieOf. by rewrite derefs_keeps. Qed.
Lemma updateMiniblockInfo_cookie value max min : keeps cookieOf (updateMiniblockInfo value max min).
Proof. apply keeps_modify. intros e. unfold cookieOf. simpl. by destruct (miniblockInfo (self e)). Qed.
#[local] Hint Resolve getContent_cookie on_members_cookie on_timelines_cookie derefs_cookie
  updateMiniblockInfo_cookie : keeps.

Lemma prependEvents_cookie mbs cts terminus enc st : keeps cookieOf (StreamState.prependEvents mbs cts terminus enc st).
Proof.
  assert (Hevents : ∀ hd events i, keeps cookieOf (miniblockEvents hd i events)).
  { intros hd events. induction events as [|p events IH]; intros i; cbn [miniblockEvents]; keeps. }
  assert (Hflat : keeps cookieOf (flatEvents mbs)).
  { induction mbs as [|mb mbs IH]; cbn [flatEvents]; keeps. }
  unfold StreamState.prependEvents. apply keeps_bind; [exact Hflat|]. intros prepended. keeps.
  unfold prepend_object, processPrependedEvent, remoteOf, deref, prepend_payload, on_self. keeps.
Qed.
#[local] Hint Resolve prependEvents_cookie : keeps.

(** A method that, when it returns, has set the cookie *)
Definition sets_cookie (cookie : SyncCookie) (m : SM unit) : Prop :=
  ∀ e, res m e = Ok tt → cookieOf (post m e) = Some cookie.

Lemma sets_later {A} cookie (m : SM A) (k : A → SM unit) :
  (∀ a, sets_cookie cookie (k a)) → sets_cookie cookie (m ≫= k).
Proof. intros Hk e. rewrite res_bind, post_bind. destruct (res m e) as [a|]; [apply Hk|done]. Qed.
Lemma sets_now cookie events cts enc st (k : Appended → SM unit) :
  (∀ r, keeps cookieOf (k r)) → sets_cookie cookie (appendStreamAndCookie cookie events cts enc st ≫= k).
Proof.
  intros Hk e. rewrite res_bind, post_bind. destruct (res (appendStreamAndCookie _ _ _ _ _) e) as [r|] eqn:E; [|done].
  intros _. rewrite Hk. by eapply appendStreamAndCookie_cookie.
Qed.

Lemma initialize_cookie cookie events snapshot mbs pre n cts locals em :
  sets_cookie cookie (StreamState.initialize cookie events snapshot mbs pre n cts locals em).
Proof.
  apply sets_later. intros this. destruct mbs as [|block0 blocks]; [by intros e|].
  destruct (list.last (block0 :: blocks)) as [lastBlock|]; [|by intros e]. destruct (list.last (mb_events block0)) as [p|]; [|by intros e].
  do 7 (apply sets_later; intros ?). apply sets_now. intros r.
  unfold initialize_local, on_self, on_view, mutate. keeps.
Qed.

Lemma stream_initialize_cookie cookie events snapshot mbs pre n cts (e : Env StreamsView Stream) :
  res (Stream.initialize cookie events snapshot mbs pre n cts) e = Ok tt →
  syncCookie (st_view (self (post (Stream.initialize cookie events snapshot mbs pre n cts) e))) = Some cookie.
Proof.
  unfold Stream.initialize. run. destruct (StreamState.new _ _) as [v|]; run; [|done]. unfold on_self. run.
  unfold with_view, res, post. cbn [heap view self over].
  match goal with |- context [StreamState.initialize _ _ _ _ _ _ _ ?l _ ?e1] =>
    pose proof (initialize_cookie cookie events snapshot mbs pre n cts l true e1) as Hc end.
  unfold cookieOf, res, post in Hc. destruct (StreamState.initialize _ _ _ _ _ _ _ _ _ _) as [[r e'] o]. simpl. exact Hc.
Qed.

Lemma restored_cookie loaded s :
  reads (loadStream (streamId_ s) None) (se_store s) (Some loaded) →
  res (initializeFromPersistence None) s = Ok true →
  syncCookie (view_ (post (initializeFromPersistence None) s)) = Some (pp_syncCookie (ld_persistedSyncedStream loaded)).
Proof.
  intros Hload. unfold initializeFromPersistence. run.
  assert (Hres : res (store (loadStream (streamId_ s) None)) s = Ok (Some loaded)) by (rewrite res_store; unfold res; by rewrite Hload).
  assert (Hpost : post (store (loadStream (streamId_ s) None)) s = s)
    by (rewrite post_store; unfold post; rewrite Hload; by destruct s).
  rewrite (res_bind_ok _ _ _ _ Hres), (post_bind_ok _ _ _ _ Hres), Hpost. cbv beta iota.
  rewrite catch_res, catch_post. destruct (ld_miniblocks loaded) as [|first rest]; [by run|].
  destruct (res (super _ ≫= _) s) as [b|] eqn:E; [|done]. intros _.
  apply bind_ok in E as ([] & Hi & _ & ->). rewrite res_super in Hi. rewrite post_super. run.
  by apply stream_initialize_cookie.
Qed.

(** *** Runs *)

(** A batch that continues the stream, whose call returns; meanwhile anything
    may happen to the view, and anything may be saved or fail beside the cached
    part of the stream. *)
Inductive cache_step : relation (SyncedEnv * Memory) :=
  | step_append s m events cookie snapshot cts c' :
      res (appendEvents events cookie snapshot cts) s = Ok tt →
      (∀ sn, snapshot = Some sn → psn_hash sn ≠ []) →
      growBatch snapshot events (remotePool s) (me_cache m) = Some c' →
      cache_step (s, m) (post (appendEvents events cookie snapshot cts) s, remember events cookie c' m)
  | step_view s e m :
      st_streamId (self e) = streamId_ s → cache_step (s, m) (s <| se_env := e |>, m)
  | step_save s op m :
      elsewhere (streamId_ s) (cc_first (me_cache m)) op → cache_step (s, m) (s <| se_store ::= post (save op) |>, m).

Lemma cache_steps_cached p p' :
  rtc cache_step p p' → cached_at (streamId_ p.1) p.2 (se_store p.1) →
  streamId_ p'.1 = streamId_ p.1 ∧ cached_at (streamId_ p.1) p'.2 (se_store p'.1).
Proof.
  intros Hsteps. induction Hsteps as [p|p q r Hstep _ IH]; intros Hc; [done|].
  assert (streamId_ q.1 = streamId_ p.1 ∧ cached_at (streamId_ p.1) q.2 (se_store q.1)) as [Hid Hq].
  { destruct Hstep as [s m events cookie snapshot cts c' Hr Hh Hg|s e m Hid|s op m Hop]; cbn [fst snd] in *.
    - by apply appendEvents_cached.
    - done.
    - split; [done|]. by apply cached_save. }
  rewrite <- Hid in *. by apply IH.
Qed.

(** C6. A stream can be restarted from its cache. It was initialised from the
    network, with a newer snapshot than the cache had; then it received batches
    whose headers continue it: each has the next number, names the last snapshot,
    and comes with its own snapshot when it has one. Every call returned; in
    between the view changed in any way, and cleartexts, other streams and older
    blocks of this stream were saved, with any requests failing. Then what loads
    from the store is the last snapshot received, all blocks since it as they
    come back from the store, in order and without a gap, and the cookie of the
    last batch that had a header; and a stream that is initialised from it asks
    for updates with that cookie. *)
Theorem restart_resumes cookie events snapshot blocks pre prev cts first last s s' m :
  res (initialize cookie events snapshot blocks pre prev cts) s = Ok tt →
  readable (se_store s) →
  (∀ n d, ps_snapshots (se_store s) !! streamId_ s = Some (n, d) → n < first) →
  first ≤ last → blockNum <$> blocks = rangeIds first last →
  rtc cache_step
    (post (initialize cookie events snapshot blocks pre prev cts) s,
     {| me_cookie := cookie; me_pool := reparse <$> events;
        me_cache := {| cc_first := first; cc_last := last; cc_snapshot := snapshot; cc_blocks := blocks |} |})
    (s', m) →
  ps_faults (se_store s') = [] →
  ∃ loaded, res (loadStream (streamId_ s) None) (se_store s') = Ok (Some loaded)
    ∧ pp_syncCookie (ld_persistedSyncedStream loaded) = me_cookie m
    ∧ pp_minipoolEvents (ld_persistedSyncedStream loaded) = me_pool m
    ∧ ld_snapshot loaded = cc_snapshot (me_cache m)
    ∧ ld_miniblocks loaded = reload forward <$> cc_blocks (me_cache m)
    ∧ (∀ fresh, streamId_ fresh = streamId_ s → se_store fresh = se_store s' →
         res (initializeFromPersistence None) fresh = Ok true →
         syncCookie (view_ (post (initializeFromPersistence None) fresh)) = Some (me_cookie m)).
Proof.
  intros Hr Hread Hold Hle Hn Hsteps Hf.
  destruct (initialize_cached _ _ _ _ _ _ _ _ _ _ Hr Hread Hold Hle Hn) as [Hid Hc].
  rewrite <- Hid in Hc. destruct (cache_steps_cached _ _ Hsteps Hc) as [_ Hc']. cbn [fst snd] in Hc'. rewrite Hid in Hc'.
  destruct (cached_loads _ _ _ Hc' Hf) as (loaded & Hload & Hck & Hpool & Hsn & Hb). exists loaded.
  split; [unfold res; by rewrite Hload|]. split_and!; [done..|]. intros fresh Hfid Hfst Hfr.
  rewrite <- Hck. apply restored_cookie; [|done]. by rewrite Hfid, Hfst.
Qed.
End Methods.

(** ** Concrete runs *)

Module PersistenceWitness.
Import ModelEth Fixtures StreamWitness LifecycleExample.

(** Messages are stored as they are. *)
#[export] Instance blobs : PersistenceCodec := {|
  Blob := PersistedSyncedStream + PersistedMiniblock + Snapshot;
  syncedStream_toBinary := λ m, Ok (inl (inl m));
  syncedStream_fromBinary := λ b, match b with inl (inl m) => Ok m | _ => Throw (PlainError "decode") end;
  miniblock_toBinary := λ m, Ok (inl (inr m));
  miniblock_fromBinary := λ b, match b with inl (inr m) => Ok m | _ => Throw (PlainError "decode") end;
  snapshot_toBlob := λ m, Ok (inr m);
  snapshot_fromBlob := λ b, match b with inr m => Ok m | _ => Throw (PlainError "decode") end;
|}.
#[export] Instance blobs_laws : PersistenceLaws.
Proof. by split; intros m b [= <-]. Qed.

Definition begun : SyncedEnv := Build_SyncedEnv blobs start (emptyStore []).
Definition initialized : SyncedEnv := post (initialize cookie [] channelSnapshot [block] [] 0 None) begun.
Definition memory0 : Memory := {| me_cookie := cookie; me_pool := reparse <$> [];
  me_cache := {| cc_first := 0; cc_last := 0; cc_snapshot := channelSnapshot; cc_blocks := [block] |} |}.

(** A message with the header that confirms it, and a message that stays in the pool *)
Definition cookie1 : SyncCookie := {| ck_nodeAddress := [x01]; ck_streamId := []; ck_minipoolGen := 2; ck_prevMiniblockHash := [x08] |}.
Definition batch : list ParsedEvent := [message x01; message x02; headerEvent x08 (header 1 1 [[x01]])].
Definition block1 : ParsedMiniblock := {|
  mb_hash := [x08]; mb_header := header 1 1 [[x01]]; mb_events := [message x01; headerEvent x08 (header 1 1 [[x01]])] |}.
Definition cache1 : Cache := {| cc_first := 0; cc_last := 1; cc_snapshot := channelSnapshot; cc_blocks := [block; block1] |}.
Definition appended : SyncedEnv := post (appendEvents batch cookie1 None None) initialized.

Lemma restart_resumes_witness :
  ∃ loaded, res (loadStream channelId None) (se_store appended) = Ok (Some loaded)
    ∧ pp_syncCookie (ld_persistedSyncedStream loaded) = cookie1
    ∧ ld_miniblocks loaded = reload forward <$> [block; block1].
Proof.
  destruct (restart_resumes cookie [] channelSnapshot [block] [] 0 None 0 0 begun appended (remember batch cookie1 cache1 memory0))
    as (loaded & Hload & Hcookie & _ & _ & Hblocks & _).
  - vm_compute. reflexivity.
  - intros k data. unfold begun. simpl. rewrite lookup_empty. discriminate.
  - intros n d. unfold begun. simpl. rewrite lookup_empty. discriminate.
  - lia.
  - reflexivity.
  - apply rtc_once. apply (step_append initialized memory0 batch cookie1 None None cache1).
    + vm_compute. reflexivity.
    + discriminate.
    + vm_compute. reflexivity.
  - vm_compute. reflexivity.
  - exact (ex_intro _ loaded (conj Hload (conj Hcookie Hblocks))).
Defined.

(** The message that waits in the pool is not loaded with the record. *)
Lemma pool_not_restored :
  jm_keys (minipoolEvents (view_ appended)) = ["02"]
  ∧ match res (loadStream channelId None) (se_store appended) with
    | Ok (Some loaded) => pp_minipoolEvents (ld_persistedSyncedStream loaded) = []
    | _ => False
    end.
Proof. split; vm_compute; reflexivity. Qed.

(** Saves of which one request fails and is repeated *)
Definition saves : list StoreOp := [
  Faults [None; Some (DexieError "QuotaExceededError")];
  SaveMiniblocks channelId [block] forward;
  SaveSnapshot channelId 0 channelSnapshot;
  SaveSyncedStream channelId {| pss_syncCookie := Some cookie; pss_lastSnapshotMiniblockNum := 0;
    pss_lastMiniblockNum := 0; pss_minipoolEvents := [] |};
  SaveSnapshot channelId 0 channelSnapshot].

Lemma loaded_consistent_witness :
  ∃ loaded, res (loadStream channelId None) (history saves) = Ok (Some loaded) ∧ consistent saves channelId loaded.
Proof.
  assert (Hload : ∃ loaded, res (loadStream channelId None) (history saves) = Ok (Some loaded)).
  { eexists. vm_compute. reflexivity. }
  destruct Hload as [loaded Hload].
  exact (ex_intro _ loaded (conj Hload (proj1 (loaded_consistent saves) channelId loaded Hload))).
Defined.

Lemma cleartexts_read_witness :
  res (getCleartexts ["01"]) (emptyStore (replicate 5 aborted)) = Ok (Some ∅).
Proof. exact (cleartexts_read 5 [] ["01"] (emptyStore (replicate 5 aborted)) eq_refl ltac:(discriminate)). Defined.

(** A block of a scrollback with a key solicitation, a message and its header *)
Definition solicitation : ParsedEvent := parsed x03 x0a (P_memberPayload (MP_keySolicitation
  {| ks_deviceKey := "d"; ks_fallbackKey := "f"; ks_isNewDevice := false; ks_sessionIds := ["s"] |})).
Definition old : ParsedMiniblock := {|
  mb_hash := []; mb_header := header 0 10 [[x03]; [x02]];
  mb_events := [solicitation; message x02; headerEvent x09 (header 0 10 [[x03]; [x02]])] |}.
(** The number that the event "02" gets when the block is prepended *)
Definition numberOf (mb : ParsedMiniblock) : option Z :=
  match res (flatEvents [mb] ≫= derefs) env0 with
  | Ok l => e ← list_find (λ e, ste_hashStr e = "02") l; ste_confirmedEventNum e.2
  | Throw _ => None
  end.

Lemma cached_scrollback_renumbered :
  numberOf old = Some 11 ∧ numberOf (reload backward old) = Some 10.
Proof. split; vm_compute; reflexivity. Qed.
End PersistenceWitness.
