(* ===== verification/StreamLoading.v ===== *)
(** * StreamLoading: loading the streams of a user
    (sdk/src/syncedStreamsExtension.ts)

    A [SyncedStreamsExtension] runs tasks, one per tick: it reads the streams of
    high priority from the cache, starts the sync, reads the other streams from
    the cache in batches, and asks the network for those that are left. The
    asynchronous methods are cut at their [await]s; where the tick of a timer
    waits is part of the state ([sl_running]), and the answers of the cache, of
    [initStream] and of [startSyncStreams], the timers and the scheduling of
    p-limit are operations. Calls to the delegate and to the cache are outputs.
    A [Set] is the list of its elements in insertion order. *)

From S2P Require Import Prelude JsLib Ids Proto Types Persistence.

Definition MAX_CONCURRENT_FROM_PERSISTENCE : nat := 10.

(** [new Set(l)] *)
Definition setOf (l : list string) : list string :=
  foldl (λ acc x, if bool_decide (x ∈ acc) then acc else acc ++ [x]) [] l.
(** [set.delete(x)] *)
Definition set_delete (x : string) (l : list string) : list string := List.filter (λ y, negb (String.eqb x y)) l.

(** [progress] is a quotient of two numbers. *)
Record ClientInitStatus := {
  cs_isHighPriorityDataLoaded : bool;
  cs_isLocalDataLoaded : bool;
  cs_isRemoteDataLoaded : bool;
  cs_progress : Z * Z;
}.

(** The closures in [tasks]; the step task owns the array of the ids that are left. *)
Inductive Task :=
  | LoadStreamsFromPersistence
  | StepTask (streamIds : list string)
  | FinalTask
  | LoadStreamsFromNetwork.

(** Where the tick of a timer waits: for the cache, for the calls of
    [initStream] that are listed, for the start of the sync. *)
Inductive Waiting :=
  | LoadingHigh
  | InitHigh (pending : list string)
  | StartingSync
  | LoadingStep (streamIdsForStep streamIds : list string)
  | InitStep (pending streamIds : list string)
  | Network (queued started : list string).

Inductive LoadOut :=
  | emitClientInitStatus (status : ClientInitStatus)
  | loadStreams_ (streamIds : list string)
  | initStream (streamId : string) (allowGetStream : bool) (persistedData : option LoadedStream)
  | startSyncStreams.

(** [sl_armed] are the timers that have not fired, by number; [sl_followUps]
    counts the timers that call [checkStartTicking]. *)
Record Loading := {
  sl_tasks : list Task;
  sl_streamIds : list string;
  sl_highPriorityIds : list string;
  sl_started : bool;
  sl_timeoutId : option nat;
  sl_armed : gset nat;
  sl_nextTimer : nat;
  sl_running : gmap nat Waiting;
  sl_followUps : nat;
  sl_startSyncRequested : bool;
  sl_didLoadStreamsFromPersistence : bool;
  sl_didLoadHighPriorityStreams : bool;
  sl_streamCountRequiringNetworkAccess : Z;
  sl_numStreamsLoadedFromCache : Z;
  sl_numStreamsLoadedFromNetwork : Z;
  sl_numStreamsFailedToLoad : Z;
  sl_totalStreamCount : Z;
  sl_loadedStreamCount : Z;
  sl_initStatus : ClientInitStatus;
}.
#[export] Instance eta_Loading : Eta Loading := λ r,
  Build_Loading (sl_tasks r) (sl_streamIds r) (sl_highPriorityIds r) (sl_started r) (sl_timeoutId r)
    (sl_armed r) (sl_nextTimer r) (sl_running r) (sl_followUps r) (sl_startSyncRequested r)
    (sl_didLoadStreamsFromPersistence r) (sl_didLoadHighPriorityStreams r)
    (sl_streamCountRequiringNetworkAccess r) (sl_numStreamsLoadedFromCache r)
    (sl_numStreamsLoadedFromNetwork r) (sl_numStreamsFailedToLoad r) (sl_totalStreamCount r)
    (sl_loadedStreamCount r) (sl_initStatus r).

Definition new (highPriorityStreamIds : list string) : Loading := {|
  sl_tasks := []; sl_streamIds := []; sl_highPriorityIds := setOf highPriorityStreamIds;
  sl_started := false; sl_timeoutId := None; sl_armed := ∅; sl_nextTimer := 0; sl_running := ∅;
  sl_followUps := 0; sl_startSyncRequested := false; sl_didLoadStreamsFromPersistence := false;
  sl_didLoadHighPriorityStreams := false; sl_streamCountRequiringNetworkAccess := 0;
  sl_numStreamsLoadedFromCache := 0; sl_numStreamsLoadedFromNetwork := 0; sl_numStreamsFailedToLoad := 0;
  sl_totalStreamCount := 0; sl_loadedStreamCount := 0;
  sl_initStatus := {| cs_isHighPriorityDataLoaded := false; cs_isLocalDataLoaded := false;
                      cs_isRemoteDataLoaded := false; cs_progress := (0, 1) |} |}.

Abbreviation LdM := (M LoadOut Loading).

(** ** Priorities *)

Section Priority.
Context `{EthLib}.

Definition isDmOrGdm (streamId : string) : bool :=
  isDMChannelStreamId (SStr streamId) || isGDMChannelStreamId (SStr streamId).

Definition priorityFromStreamId (streamId : string) (highPriorityIds : list string) : Res Z :=
  if isUserDeviceStreamId (SStr streamId) || isUserInboxStreamId (SStr streamId)
     || isUserStreamId (SStr streamId) || isUserSettingsStreamId (SStr streamId)
  then Ok 0
  else if bool_decide (streamId ∈ highPriorityIds) then Ok 1
  else if existsb isDmOrGdm highPriorityIds && isDmOrGdm streamId then Ok 2
  else if isSpaceStreamId (SStr streamId) then Ok 3
  else if isChannelStreamId (SStr streamId)
  then
    spaceId ← spaceIdFromChannelId streamId;
    Ok (if bool_decide (spaceId ∈ highPriorityIds) then 4 else 5)
  else Ok 6.

(** [streamIds.map((streamId) => ({streamId, priority}))] *)
Definition withPriority (highPriorityIds l : list string) : Res (list (Z * string)) :=
  traverse (λ x, p ← priorityFromStreamId x highPriorityIds; Ok (p, x)) l.

Definition sorted (items : list (Z * string)) : list string := (stable_sort (λ a b, a.1 <=? b.1) items).*2.

(** [streamIds.sort(...)]: the comparison runs when there are two elements. *)
Definition sortByPriority (highPriorityIds l : list string) : Res (list string) :=
  if (length l <=? 1)%nat then Ok l else items ← withPriority highPriorityIds l; Ok (sorted items).

(** ** Status and timers *)

Definition emitClientStatus : LdM unit :=
  _ ← modify (λ s, s <| sl_initStatus := {|
        cs_isHighPriorityDataLoaded := sl_didLoadHighPriorityStreams s;
        cs_isLocalDataLoaded := sl_didLoadStreamsFromPersistence s;
        cs_isRemoteDataLoaded :=
          sl_didLoadStreamsFromPersistence s && (sl_streamCountRequiringNetworkAccess s =? 0);
        cs_progress := if 0 <? sl_totalStreamCount s
                       then (sl_totalStreamCount s - Z.of_nat (length (sl_streamIds s)), sl_totalStreamCount s)
                       else cs_progress (sl_initStatus s) |} |>);
  s ← getM;
  emit true (emitClientInitStatus (sl_initStatus s)).

Definition checkStartTicking : LdM unit :=
  s ← getM;
  if negb (sl_started s) || isDefined (sl_timeoutId s) then mret tt
  else if match sl_tasks s with [] => negb (sl_startSyncRequested s) | _ => false end then emitClientStatus
  else modify (λ s, s <| sl_timeoutId := Some (sl_nextTimer s) |>
                      <| sl_armed ::= λ a, {[sl_nextTimer s]} ∪ a |>
                      <| sl_nextTimer ::= S |>).

(** The promise of a tick is settled: [.catch(...).finally(...)]. *)
Definition tickDone (k : nat) : LdM unit :=
  modify (λ s, s <| sl_running ::= delete k |> <| sl_timeoutId := None |> <| sl_followUps ::= S |>).

Definition wait (k : nat) (w : Waiting) : LdM unit := modify (λ s, s <| sl_running ::= <[k := w]> |>).

(** ** Loading from the cache *)

(** The calls of [loadStreamFromPersistence], up to their [await]s; the result
    is the streams whose [initStream] was called. *)
Fixpoint callLoads (streamIds : list string) (loadedStreams : gmap string LoadedStream) : LdM (list string) :=
  match streamIds with
  | [] => mret []
  | streamId :: streamIds =>
      s ← getM;
      let allowGetStream := bool_decide (streamId ∈ sl_highPriorityIds s) in
      let persistedData := loadedStreams !! streamId in
      if negb (isDefined persistedData) && negb allowGetStream then
        _ ← modify (λ s, s <| sl_streamCountRequiringNetworkAccess ::= Z.succ |>);
        _ ← emitClientStatus;
        callLoads streamIds loadedStreams
      else
        _ ← emit true (initStream streamId allowGetStream persistedData);
        pending ← callLoads streamIds loadedStreams;
        mret (streamId :: pending)
  end.

(** [loadStreamFromPersistence] after its [await] *)
Definition loadedFromPersistence (streamId : string) (ok : bool) : LdM unit :=
  _ ← modify (λ s,
        if ok then s <| sl_loadedStreamCount ::= Z.succ |> <| sl_numStreamsLoadedFromCache ::= Z.succ |>
                     <| sl_streamIds ::= set_delete streamId |>
        else s <| sl_streamCountRequiringNetworkAccess ::= Z.succ |>);
  emitClientStatus.

(** [loadStreamsFromPersistence] once the streams of high priority are done *)
Definition afterHigh (k : nat) : LdM unit :=
  _ ← modify (λ s, s <| sl_didLoadHighPriorityStreams := true |>);
  _ ← emitClientStatus;
  _ ← emit true startSyncStreams;
  wait k StartingSync.

(** ... and once the sync was started or has failed to start *)
Definition afterStartSync (k : nat) : LdM unit :=
  _ ← modify (λ s, s <| sl_tasks ::= λ l, StepTask (sl_streamIds s) :: FinalTask :: l |>);
  tickDone k.

Definition afterStep (k : nat) (streamIds : list string) : LdM unit :=
  _ ← modify (λ s, s <| sl_tasks ::= cons (StepTask streamIds) |>);
  tickDone k.

Definition stepTask (k : nat) (streamIds : list string) : LdM unit :=
  match streamIds with
  | [] => tickDone k
  | _ =>
      s ← getM;
      match sortByPriority (sl_highPriorityIds s) streamIds with
      | Throw _ => tickDone k
      | Ok streamIds =>
          let streamIdsForStep := take MAX_CONCURRENT_FROM_PERSISTENCE streamIds in
          _ ← emit true (loadStreams_ streamIdsForStep);
          wait k (LoadingStep streamIdsForStep (drop MAX_CONCURRENT_FROM_PERSISTENCE streamIds))
      end
  end.

(** ** Loading from the network *)

Definition afterNetwork (k : nat) : LdM unit :=
  _ ← emitClientStatus;
  tickDone k.

Definition loadStreamsFromNetwork (k : nat) : LdM unit :=
  s ← getM;
  match withPriority (sl_highPriorityIds s) (sl_streamIds s) with
  | Throw _ => tickDone k
  | Ok items =>
      match sorted items with
      | [] => afterNetwork k
      | queued => wait k (Network queued [])
      end
  end.

(** The function given to [concurrencyLimit], after its [await] *)
Definition loadedFromNetwork (streamId : string) (ok : bool) : LdM unit :=
  _ ← modify (λ s,
        (if ok then s <| sl_numStreamsLoadedFromNetwork ::= Z.succ |> <| sl_streamIds ::= set_delete streamId |>
         else s <| sl_numStreamsFailedToLoad ::= Z.succ |>)
        <| sl_loadedStreamCount ::= Z.succ |>
        <| sl_streamCountRequiringNetworkAccess ::= Z.pred |>);
  emitClientStatus.

(** ** Ticks *)

(** [this.tick()], up to the first [await] of its task *)
Definition tick (k : nat) : LdM unit :=
  s ← getM;
  match sl_tasks s with
  | [] => tickDone k
  | task :: tasks =>
      _ ← modify (λ s, s <| sl_tasks := tasks |>);
      match task with
      | LoadStreamsFromPersistence =>
          _ ← emit true (loadStreams_ (sl_highPriorityIds s));
          wait k LoadingHigh
      | StepTask streamIds => stepTask k streamIds
      | FinalTask =>
          _ ← modify (λ s, s <| sl_didLoadStreamsFromPersistence := true |>);
          _ ← emitClientStatus;
          tickDone k
      | LoadStreamsFromNetwork => loadStreamsFromNetwork k
      end
  end.

(** The timer [k] fires. *)
Definition timerFires (k : nat) : LdM unit :=
  s ← getM;
  if bool_decide (k ∈ sl_armed s) then
    _ ← modify (λ s, s <| sl_armed ::= λ a, a ∖ {[k]} |>);
    tick k
  else mret tt.

(** A timer that calls [checkStartTicking] fires. *)
Definition followUp : LdM unit :=
  s ← getM;
  match sl_followUps s with
  | O => mret tt
  | S n =>
      _ ← modify (λ s, s <| sl_followUps := n |>);
      checkStartTicking
  end.

(** The cache answers the tick [k]; [None] is an error. *)
Definition streamsLoaded (k : nat) (answer : option (gmap string LoadedStream)) : LdM unit :=
  s ← getM;
  match sl_running s !! k, answer with
  | Some LoadingHigh, Some loadedStreams =>
      let hpStreamIds := List.filter (λ x, isDefined (loadedStreams !! x)) (sl_highPriorityIds s) in
      pending ← callLoads hpStreamIds loadedStreams;
      match pending with
      | [] => afterHigh k
      | _ => wait k (InitHigh pending)
      end
  | Some (LoadingStep streamIdsForStep streamIds), Some loadedStreams =>
      pending ← callLoads streamIdsForStep loadedStreams;
      match pending with
      | [] => afterStep k streamIds
      | _ => wait k (InitStep pending streamIds)
      end
  | Some (LoadingHigh | LoadingStep _ _), None => tickDone k
  | _, _ => mret tt
  end.

(** The call of [initStream] for a stream, made by the tick [k], settles. *)
Definition initSettled (k : nat) (streamId : string) (ok : bool) : LdM unit :=
  s ← getM;
  match sl_running s !! k with
  | Some (InitHigh pending) =>
      if negb (bool_decide (streamId ∈ pending)) then mret tt
      else
        _ ← loadedFromPersistence streamId ok;
        match set_delete streamId pending with
        | [] => afterHigh k
        | pending => wait k (InitHigh pending)
        end
  | Some (InitStep pending streamIds) =>
      if negb (bool_decide (streamId ∈ pending)) then mret tt
      else
        _ ← loadedFromPersistence streamId ok;
        match set_delete streamId pending with
        | [] => afterStep k streamIds
        | pending => wait k (InitStep pending streamIds)
        end
  | Some (Network queued started) =>
      if negb (bool_decide (streamId ∈ started)) then mret tt
      else
        _ ← loadedFromNetwork streamId ok;
        match queued, set_delete streamId started with
        | [], [] => afterNetwork k
        | _, started => wait k (Network queued started)
        end
  | _ => mret tt
  end.

(** [startSyncStreams] settles; its errors are caught. *)
Definition syncStarted (k : nat) : LdM unit :=
  s ← getM;
  match sl_running s !! k with
  | Some StartingSync => afterStartSync k
  | _ => mret tt
  end.

(** p-limit runs the function of a stream that waits. *)
Definition limitRuns (k : nat) (streamId : string) : LdM unit :=
  s ← getM;
  match sl_running s !! k with
  | Some (Network queued started) =>
      if negb (bool_decide (streamId ∈ queued)) then mret tt
      else
        _ ← emit true (initStream streamId true None);
        wait k (Network (set_delete streamId queued) (started ++ [streamId]))
  | _ => mret tt
  end.

(** ** Calls *)

Definition setStreamIds (streamIds : list string) : LdM unit :=
  s ← getM;
  _ ← check (length (sl_streamIds s) =? 0)%nat "setStreamIds called twice" ERR_UNSPECIFIED;
  modify (λ s, s <| sl_streamIds := setOf streamIds |>
                 <| sl_totalStreamCount := Z.of_nat (length streamIds) |>).

Definition setHighPriorityStreams (streamIds : list string) : LdM unit :=
  modify (λ s, s <| sl_highPriorityIds := setOf streamIds |>).

Definition setStartSyncRequested (startSyncRequested : bool) : LdM unit :=
  _ ← modify (λ s, s <| sl_startSyncRequested := startSyncRequested |>);
  whenM startSyncRequested checkStartTicking.

Definition start : LdM unit :=
  s ← getM;
  _ ← check (negb (sl_started s)) "start() called twice" ERR_UNSPECIFIED;
  _ ← modify (λ s, s <| sl_started := true |> <| sl_numStreamsLoadedFromCache := 0 |>
                     <| sl_numStreamsLoadedFromNetwork := 0 |> <| sl_numStreamsFailedToLoad := 0 |>
                     <| sl_tasks ::= λ l, l ++ [LoadStreamsFromPersistence; LoadStreamsFromNetwork] |>);
  checkStartTicking.

(** [stop]: it then waits for the tick that was last started, which changes nothing. *)
Definition stop : LdM unit :=
  modify (λ s, match sl_timeoutId s with
               | Some k => s <| sl_armed ::= λ a, a ∖ {[k]} |> <| sl_timeoutId := None |>
               | None => s
               end).
End Priority.
