(* ===== verification/StreamLoadingFacts.v ===== *)
(** * StreamLoadingFacts: every stream is loaded or tried

    The loader goes through a fixed sequence of phases, under every interleaving
    of answers, timers and calls other than [stop], after which streams may wait
    for ever but none is lost. When nothing is pending any
    more, the streams that are left were all asked for from the network; the
    status says so unless the cache failed or a stream of high priority did. *)

From Stdlib Require Import Strings.Ascii Strings.Byte.
From S2P Require Import Prelude JsLib Ids IdsFacts Proto Types Fixtures SyncBooks Persistence StreamLoading.

(** ** Sets as lists *)

Lemma setOf_spec l : NoDup (setOf l) ∧ ∀ x, x ∈ setOf l ↔ x ∈ l.
Proof.
  unfold setOf. induction l as [|y l [IH1 IH2]] using rev_ind; [split; [constructor|done]|].
  rewrite foldl_app. simpl. case_bool_decide as Hy.
  - split; [done|]. intros x. rewrite IH2, elem_of_app. set_solver.
  - split; [|set_solver]. apply NoDup_app. split_and!; [done|set_solver|apply NoDup_singleton].
Qed.

Lemma elem_of_set_delete x y l : x ∈ set_delete y l ↔ x ≠ y ∧ x ∈ l.
Proof.
  unfold set_delete. rewrite !list_elem_of_In, List.filter_In, negb_true_iff, String.eqb_neq. naive_solver.
Qed.
Lemma NoDup_set_delete y l : NoDup l → NoDup (set_delete y l).
Proof. unfold set_delete. rewrite !NoDup_ListNoDup. apply List.NoDup_filter. Qed.
Lemma set_delete_absent y l : y ∉ l → set_delete y l = l.
Proof.
  unfold set_delete. induction l as [|x l IH]; [done|]. simpl. intros [Hx Hl]%not_elem_of_cons.
  destruct (String.eqb_spec y x); [done|]. simpl. by rewrite IH.
Qed.
Lemma length_set_delete y l : NoDup l → y ∈ l → S (length (set_delete y l)) = length l.
Proof.
  induction l as [|x l IH]; [by intros _ ?%not_elem_of_nil|]. intros [Hx Hl]%NoDup_cons Hy. unfold set_delete. simpl.
  destruct (String.eqb_spec y x) as [->|Hne]; simpl.
  - f_equal. fold (set_delete x l). by rewrite set_delete_absent.
  - fold (set_delete y l). rewrite IH; [done|done|]. by apply elem_of_cons in Hy as [|].
Qed.

(** ** Operations *)

Inductive LoadOp :=
  | SetHighPriorityStreams (streamIds : list string)
  | SetStartSyncRequested (requested : bool)
  | TimerFires (k : nat)
  | FollowUp
  | StreamsLoaded (k : nat) (answer : option (gmap string LoadedStream))
  | InitSettled (k : nat) (streamId : string) (ok : bool)
  | SyncStarted (k : nat)
  | LimitRuns (k : nat) (streamId : string)
  | Stop.

Section Phases.
Context `{EthLib}.

Definition run_op (op : LoadOp) : LdM unit :=
  match op with
  | SetHighPriorityStreams streamIds => setHighPriorityStreams streamIds
  | SetStartSyncRequested requested => setStartSyncRequested requested
  | TimerFires k => timerFires k
  | FollowUp => followUp
  | StreamsLoaded k answer => streamsLoaded k answer
  | InitSettled k streamId ok => initSettled k streamId ok
  | SyncStarted k => syncStarted k
  | LimitRuns k streamId => limitRuns k streamId
  | Stop => stop
  end.

(** The loader, given the streams and started; a sync may have been requested before. *)
Definition begin (highPriorityStreamIds : list string) (requested : bool) (streamIds : list string) : Loading :=
  post (_ ← setStartSyncRequested requested; _ ← setStreamIds streamIds; start) (new highPriorityStreamIds).

Inductive Phase :=
  | PBegin
  | PLoadHigh
  | PInitHigh (pending : list string)
  | PStartSync
  | PStep (rest : list string)
  | PLoadStep (batch rest : list string)
  | PInitStep (pending rest : list string)
  | PFinal
  | PNetwork
  | PInNetwork (queued started : list string)
  | PDone.

Definition tasksAt (p : Phase) : list Task :=
  match p with
  | PBegin => [LoadStreamsFromPersistence; LoadStreamsFromNetwork]
  | PLoadHigh | PInitHigh _ | PStartSync => [LoadStreamsFromNetwork]
  | PStep l => [StepTask l; FinalTask; LoadStreamsFromNetwork]
  | PLoadStep _ _ | PInitStep _ _ | PFinal => [FinalTask; LoadStreamsFromNetwork]
  | PNetwork => [LoadStreamsFromNetwork]
  | PInNetwork _ _ | PDone => []
  end.
Definition waitingAt (p : Phase) : option Waiting :=
  match p with
  | PLoadHigh => Some LoadingHigh
  | PInitHigh pending => Some (InitHigh pending)
  | PStartSync => Some StartingSync
  | PLoadStep batch rest => Some (LoadingStep batch rest)
  | PInitStep pending rest => Some (InitStep pending rest)
  | PInNetwork queued started => Some (Network queued started)
  | _ => None
  end.

(** The state is in the phase [p]: one tick runs, holding the timer, or none does. *)
Record in_phase (p : Phase) (s : Loading) : Prop := {
  ph_started : sl_started s = true;
  ph_tasks : sl_tasks s = tasksAt p;
  ph_ids : NoDup (sl_streamIds s);
  ph_high : NoDup (sl_highPriorityIds s);
  ph_timers :
    match waitingAt p with
    | Some w => ∃ k, sl_running s = {[k := w]} ∧ sl_timeoutId s = Some k ∧ sl_armed s = ∅
    | None => sl_running s = ∅
        ∧ ((sl_timeoutId s = None ∧ sl_armed s = ∅) ∨ ∃ k, sl_timeoutId s = Some k ∧ sl_armed s = {[k]})
    end;
}.

(** ... and work that is left is never forgotten *)
Definition at_phase (p : Phase) (s : Loading) : Prop :=
  in_phase p s ∧ (tasksAt p ≠ [] → waitingAt p = None → sl_timeoutId s = None → (0 < sl_followUps s)%nat).

(** The numbers that the status is made of *)
Definition books (s : Loading) :=
  (sl_streamIds s, sl_streamCountRequiringNetworkAccess s, sl_numStreamsFailedToLoad s,
   sl_didLoadStreamsFromPersistence s, sl_didLoadHighPriorityStreams s, sl_totalStreamCount s).

Definition statusOf (s : Loading) : ClientInitStatus := {|
  cs_isHighPriorityDataLoaded := sl_didLoadHighPriorityStreams s;
  cs_isLocalDataLoaded := sl_didLoadStreamsFromPersistence s;
  cs_isRemoteDataLoaded := sl_didLoadStreamsFromPersistence s && (sl_streamCountRequiringNetworkAccess s =? 0);
  cs_progress := if 0 <? sl_totalStreamCount s
                 then (sl_totalStreamCount s - Z.of_nat (length (sl_streamIds s)), sl_totalStreamCount s)
                 else cs_progress (sl_initStatus s) |}.

Lemma status_post s : post emitClientStatus s = s <| sl_initStatus := statusOf s |>.
Proof. unfold emitClientStatus. by run. Qed.
Lemma status_res s : res emitClientStatus s = Ok tt.
Proof. unfold emitClientStatus. by run. Qed.
Lemma post_bind_emitStatus {A} (k : unit → LdM A) s :
  post (emitClientStatus ≫= k) s = post (k tt) (s <| sl_initStatus := statusOf s |>).
Proof. by rewrite (post_bind_ok _ _ _ _ (status_res s)), status_post. Qed.

(** The tick of the timer [k] runs, alone. *)
Record holding (k : nat) (s : Loading) : Prop := {
  ho_started : sl_started s = true;
  ho_ids : NoDup (sl_streamIds s);
  ho_high : NoDup (sl_highPriorityIds s);
  ho_running : sl_running s = ∅ ∨ ∃ w, sl_running s = {[k := w]};
  ho_timeout : sl_timeoutId s = Some k;
  ho_armed : sl_armed s = ∅;
}.

Lemma holding_done k p s :
  holding k s → sl_tasks s = tasksAt p → waitingAt p = None → at_phase p (post (tickDone k) s).
Proof.
  intros [Hs Hi Hh Hr Ht Ha] Htasks Hw. split.
  - split; [done..|]. rewrite Hw. split; [|by left]. simpl.
    destruct Hr as [->|[w ->]]; [apply delete_empty|apply delete_singleton_eq].
  - intros _ _ _. simpl. lia.
Qed.

Lemma holding_wait k p w s :
  holding k s → sl_tasks s = tasksAt p → waitingAt p = Some w → at_phase p (post (wait k w) s).
Proof.
  intros [Hs Hi Hh Hr Ht Ha] Htasks Hw. split; [|by rewrite Hw].
  split; [done..|]. rewrite Hw. exists k. split_and!; [|done..]. simpl.
  destruct Hr as [->|[w' ->]]; [done|apply insert_singleton_eq].
Qed.

Lemma in_phase_holding p w k s :
  in_phase p s → waitingAt p = Some w → is_Some (sl_running s !! k) → holding k s ∧ sl_running s !! k = Some w.
Proof.
  intros [Hs Htasks Hi Hh Ht] Hw. rewrite Hw in Ht. destruct Ht as (k' & Hr & Htm & Ha). rewrite Hr.
  destruct (decide (k = k')) as [->|Hne]; [|rewrite lookup_singleton_ne by done; by intros []].
  rewrite lookup_singleton_eq. intros _. split; [|done]. split; try done. right. by exists w.
Qed.

Lemma in_phase_idle p k s : in_phase p s → waitingAt p = None → sl_running s !! k = None.
Proof. intros [Hs Htasks Hi Hh Ht] Hw. rewrite Hw in Ht. destruct Ht as [-> _]. apply lookup_empty. Qed.

Lemma check_at p s :
  in_phase p s →
  at_phase p (post checkStartTicking s) ∧ books (post checkStartTicking s) = books s
  ∧ (sl_initStatus (post checkStartTicking s) = sl_initStatus s
     ∨ sl_initStatus (post checkStartTicking s) = statusOf s).
Proof.
  intros Hp. pose proof Hp as [Hs Htasks Hi Hh Ht]. unfold checkStartTicking. run. rewrite Hs. cbn [negb orb].
  destruct (sl_timeoutId s) as [k|] eqn:Etm; cbn [isDefined].
  { split_and!; [|done|by left]. split; [done|]. intros _ _ Hn. rewrite post_ret in Hn. congruence. }
  assert (Hw : waitingAt p = None).
  { destruct (waitingAt p) as [w|]; [|done]. destruct Ht as (k & _ & Hk & _). congruence. }
  rewrite Hw in Ht. destruct Ht as [Hr [[_ Ha]|(k & Hk & _)]]; [|congruence].
  match goal with |- context [if ?c then emitClientStatus else _] => destruct c eqn:Eb end.
  - rewrite status_post. split_and!; [|done|by right]. split.
    + split; [done..|]. rewrite Hw. simpl. split; [done|]. left. done.
    + intros Hne. rewrite <- Htasks in Hne. by destruct (sl_tasks s).
  - run. split_and!; [|done|by left]. split.
    + split; [done..|]. rewrite Hw. simpl. split; [done|]. right. exists (sl_nextTimer s). rewrite Ha. split; [done|set_solver].
    + done.
Qed.

(** ** Transitions *)

Definition pendingOf (hp : list string) (loadedStreams : gmap string LoadedStream) (ids : list string) : list string :=
  List.filter (λ x, isDefined (loadedStreams !! x) || bool_decide (x ∈ hp)) ids.

Lemma callLoads_run ids loadedStreams s :
  let pending := pendingOf (sl_highPriorityIds s) loadedStreams ids in
  res (callLoads ids loadedStreams) s = Ok pending
  ∧ ∃ status, post (callLoads ids loadedStreams) s
      = s <| sl_streamCountRequiringNetworkAccess ::= λ n, n + Z.of_nat (length ids) - Z.of_nat (length pending) |>
          <| sl_initStatus := status |>.
Proof.
  revert s. induction ids as [|x ids IH]; intros s; cbn [callLoads].
  { split; [done|]. exists (sl_initStatus s). unfold post. simpl. destruct s. simpl. f_equal. lia. }
  unfold pendingOf. simpl. run.
  destruct (isDefined (loadedStreams !! x)) eqn:Ed; destruct (bool_decide (x ∈ sl_highPriorityIds s)) eqn:Eb; cbn [negb andb orb].
  1-3: run; destruct (IH s) as [Hr [st Hp]]; rewrite (res_bind_ok _ _ _ _ Hr), (post_bind_ok _ _ _ _ Hr); run; split; [done|];
    rewrite Hp; exists st; unfold pendingOf; destruct s; simpl; f_equal; lia.
  run. rewrite (res_bind_ok _ _ _ _ (status_res _)), post_bind_emitStatus, status_post.
  match goal with |- context [res (callLoads ids loadedStreams) ?s1] => destruct (IH s1) as [Hr [st Hp]] end.
  split; [exact Hr|]. rewrite Hp. exists st. destruct s. simpl. f_equal. unfold pendingOf. lia.
Qed.

(** [books] with the given streams, count, failures and flags *)
Definition booked (s : Loading) (ids : list string) (count failed : Z) (cacheRead highRead : bool) :=
  (ids, count, failed, cacheRead, highRead, sl_totalStreamCount s).
Abbreviation ids := sl_streamIds.
Abbreviation count := sl_streamCountRequiringNetworkAccess.
Abbreviation nfailed := sl_numStreamsFailedToLoad.
Abbreviation cacheRead := sl_didLoadStreamsFromPersistence.
Abbreviation highRead := sl_didLoadHighPriorityStreams.

Lemma booked_of s s1 l n f b1 b2 : books s1 = booked s l n f b1 b2 →
  ∀ g, booked s1 (ids s1) (count s1) (nfailed s1) (cacheRead s1) (g (highRead s1)) = booked s l n f b1 (g b2).
Proof. unfold books, booked. by intros [= -> -> -> -> -> ->]. Qed.

(** The phase when the calls of [initStream] that are listed remain *)
Definition highPhase (pending : list string) : Phase := match pending with [] => PStartSync | l => PInitHigh l end.
Definition stepPhase (pending rest : list string) : Phase :=
  match pending with [] => PStep rest | l => PInitStep l rest end.
Definition networkPhase (queued started : list string) : Phase :=
  match queued, started with [], [] => PDone | q, l => PInNetwork q l end.
Definition allRead (pending : list string) (b : bool) : bool := match pending with [] => true | _ => b end.

(** What a call or an answer does to the phase and the books; [o] is what is emitted. *)
Inductive moved (s s' : Loading) (o : list LoadOut) : Phase → LoadOp → Phase → Prop :=
  | mv_same p op :
      books s' = books s → (sl_initStatus s' = sl_initStatus s ∨ sl_initStatus s' = statusOf s) → moved s s' o p op p
  | mv_begin k : books s' = books s → moved s s' o PBegin (TimerFires k) PLoadHigh
  | mv_high_failed k : books s' = books s → moved s s' o PLoadHigh (StreamsLoaded k None) PNetwork
  | mv_high k m pending :
      NoDup (sl_highPriorityIds s) → pending = List.filter (λ x, isDefined (m !! x)) (sl_highPriorityIds s) →
      books s' = booked s (ids s) (count s) (nfailed s) (cacheRead s) (allRead pending (highRead s)) →
      moved s s' o PLoadHigh (StreamsLoaded k (Some m)) (highPhase pending)
  | mv_init_high k id (ok : bool) pending :
      id ∈ pending →
      books s' = booked s (if ok then set_delete id (ids s) else ids s) (count s + if ok then 0 else 1) (nfailed s)
                   (cacheRead s) (allRead (set_delete id pending) (highRead s)) →
      moved s s' o (PInitHigh pending) (InitSettled k id ok) (highPhase (set_delete id pending))
  | mv_start_sync k : books s' = books s → moved s s' o PStartSync (SyncStarted k) (PStep (ids s))
  | mv_step_end k l :
      (l = [] ∨ ∃ e, sortByPriority (sl_highPriorityIds s) l = Throw e) → books s' = books s →
      moved s s' o (PStep l) (TimerFires k) PFinal
  | mv_step k l l' :
      l ≠ [] → sortByPriority (sl_highPriorityIds s) l = Ok l' → books s' = books s →
      o = [loadStreams_ (take MAX_CONCURRENT_FROM_PERSISTENCE l')] →
      moved s s' o (PStep l) (TimerFires k)
        (PLoadStep (take MAX_CONCURRENT_FROM_PERSISTENCE l') (drop MAX_CONCURRENT_FROM_PERSISTENCE l'))
  | mv_batch_failed k batch rest : books s' = books s → moved s s' o (PLoadStep batch rest) (StreamsLoaded k None) PFinal
  | mv_batch k m batch rest pending :
      pending = pendingOf (sl_highPriorityIds s) m batch →
      books s' = booked s (ids s) (count s + Z.of_nat (length batch) - Z.of_nat (length pending)) (nfailed s)
                   (cacheRead s) (highRead s) →
      moved s s' o (PLoadStep batch rest) (StreamsLoaded k (Some m)) (stepPhase pending rest)
  | mv_init_step k id (ok : bool) pending rest :
      id ∈ pending →
      books s' = booked s (if ok then set_delete id (ids s) else ids s) (count s + if ok then 0 else 1) (nfailed s)
                   (cacheRead s) (highRead s) →
      moved s s' o (PInitStep pending rest) (InitSettled k id ok) (stepPhase (set_delete id pending) rest)
  | mv_final k :
      books s' = booked s (ids s) (count s) (nfailed s) true (highRead s) → moved s s' o PFinal (TimerFires k) PNetwork
  | mv_network_failed k e :
      withPriority (sl_highPriorityIds s) (ids s) = Throw e → books s' = books s →
      moved s s' o PNetwork (TimerFires k) PDone
  | mv_network k queued :
      queued ≡ₚ ids s → books s' = books s → (queued = [] → sl_initStatus s' = statusOf s) →
      moved s s' o PNetwork (TimerFires k) (networkPhase queued [])
  | mv_limit k id queued started :
      id ∈ queued → books s' = books s → o = [initStream id true None] →
      moved s s' o (PInNetwork queued started) (LimitRuns k id) (PInNetwork (set_delete id queued) (started ++ [id]))
  | mv_settled k id (ok : bool) queued started :
      id ∈ started →
      books s' = booked s (if ok then set_delete id (ids s) else ids s) (count s - 1)
                   (nfailed s + if ok then 0 else 1) (cacheRead s) (highRead s) →
      (queued = [] → set_delete id started = [] → sl_initStatus s' = statusOf s') →
      moved s s' o (PInNetwork queued started) (InitSettled k id ok) (networkPhase queued (set_delete id started)).

(** An operation that does not concern the tick that runs *)
Lemma moved_skip p op s : at_phase p s → at_phase p s ∧ moved s s [] p op p.
Proof. intros Hp. split; [done|]. apply mv_same; [done|by left]. Qed.

Lemma step_high streamIds p s :
  at_phase p s → let s' := post (setHighPriorityStreams streamIds) s in
  at_phase p s' ∧ moved s s' (out (setHighPriorityStreams streamIds) s) p (SetHighPriorityStreams streamIds) p.
Proof.
  intros [[Hs Htasks Hi Hh Ht] Hawake]. split; [|apply mv_same; [done|by left]].
  split; [|done]. split; [done..| |done]. apply setOf_spec.
Qed.

Lemma step_check b p s :
  at_phase p s → let s' := post (setStartSyncRequested b) s in
  at_phase p s' ∧ moved s s' (out (setStartSyncRequested b) s) p (SetStartSyncRequested b) p.
Proof.
  intros [Hp Hawake]. unfold setStartSyncRequested. run.
  assert (Hp1 : in_phase p (s <| sl_startSyncRequested := b |>)) by (destruct Hp; by split).
  destruct b; cbn [whenM].
  - destruct (check_at _ _ Hp1) as (Hat & Hb & Hst). split; [done|]. by apply mv_same.
  - run. split; [done|]. apply mv_same; [done|by left].
Qed.

Lemma step_followUp p s :
  at_phase p s → let s' := post followUp s in at_phase p s' ∧ moved s s' (out followUp s) p FollowUp p.
Proof.
  intros [Hp Hawake]. unfold followUp. run. destruct (sl_followUps s) as [|n] eqn:E.
  - run. split; [split; [done|]; by rewrite E|]. apply mv_same; [done|by left].
  - run. assert (Hp1 : in_phase p (s <| sl_followUps := n |>)) by (destruct Hp; by split).
    destruct (check_at _ _ Hp1) as (Hat & Hb & Hst). split; [done|]. by apply mv_same.
Qed.

(** What follows when the calls of [initStream] that are listed remain *)
Lemma high_left k pending s :
  holding k s → sl_tasks s = [LoadStreamsFromNetwork] →
  let m := match pending with [] => afterHigh k | _ => wait k (InitHigh pending) end in
  at_phase (highPhase pending) (post m s)
  ∧ books (post m s) = booked s (ids s) (count s) (nfailed s) (cacheRead s) (allRead pending (highRead s)).
Proof.
  intros Hh Ht. destruct pending as [|x l]; [|split; [by apply holding_wait|done]].
  unfold afterHigh. cbv zeta. run. rewrite post_bind_emitStatus. run. split; [|done].
  apply holding_wait; [|done|done]. destruct Hh. by split.
Qed.

Lemma step_left k pending rest s :
  holding k s → sl_tasks s = [FinalTask; LoadStreamsFromNetwork] →
  let m := match pending with [] => afterStep k rest | _ => wait k (InitStep pending rest) end in
  at_phase (stepPhase pending rest) (post m s) ∧ books (post m s) = books s.
Proof.
  intros Hh Ht. destruct pending as [|x l]; [|split; [by apply holding_wait|done]].
  unfold afterStep. cbv zeta. run. split; [|done].
  apply holding_done; [|by simpl; rewrite Ht|done]. destruct Hh. by split.
Qed.

Lemma network_left k queued started s :
  holding k s → sl_tasks s = [] →
  let m := match queued, started with [], [] => afterNetwork k | _, _ => wait k (Network queued started) end in
  at_phase (networkPhase queued started) (post m s) ∧ books (post m s) = books s
  ∧ (queued = [] → started = [] → sl_initStatus (post m s) = statusOf s).
Proof.
  intros Hh Ht. destruct queued as [|x q]; [destruct started as [|y l]|]; [|split_and!; [by apply holding_wait|done|done]..].
  unfold afterNetwork. cbv zeta. rewrite post_bind_emitStatus. split_and!; [|done..].
  apply holding_done; [|done|done]. destruct Hh. by split.
Qed.

(** [holding] and the task list do not depend on counters and status. *)
Lemma holding_counts k s f : holding k s → holding k (s <| sl_streamCountRequiringNetworkAccess ::= f |>).
Proof. intros []. by split. Qed.
Lemma holding_status k s st : holding k s → holding k (s <| sl_initStatus := st |>).
Proof. intros []. by split. Qed.

Lemma pendingOf_loaded hp (m : gmap string LoadedStream) l :
  pendingOf hp m (List.filter (λ x, isDefined (m !! x)) l) = List.filter (λ x, isDefined (m !! x)) l.
Proof.
  unfold pendingOf. induction l as [|x l IH]; [done|]. simpl. destruct (isDefined (m !! x)) eqn:E; [|done].
  simpl. rewrite E. simpl. by rewrite IH.
Qed.

Lemma step_loaded_high k m s :
  at_phase PLoadHigh s → is_Some (sl_running s !! k) →
  let s' := post (streamsLoaded k (Some m)) s in
  ∃ p', at_phase p' s' ∧ moved s s' (out (streamsLoaded k (Some m)) s) PLoadHigh (StreamsLoaded k (Some m)) p'.
Proof.
  intros [Hp _] Hk. destruct (in_phase_holding _ _ _ _ Hp eq_refl Hk) as [Hh Hr]. pose proof (ph_tasks _ _ Hp) as Htasks.
  unfold streamsLoaded. run. rewrite Hr. set (l := List.filter _ (sl_highPriorityIds s)).
  destruct (callLoads_run l m s) as [Hres [st Hpost]]. unfold l in Hres, Hpost. rewrite pendingOf_loaded in Hres, Hpost. fold l in Hres, Hpost.
  rewrite (post_bind_ok _ _ _ _ Hres), Hpost. set (s1 := s <| sl_streamCountRequiringNetworkAccess ::= _ |> <| sl_initStatus := st |>).
  assert (Hh1 : holding k s1) by by apply holding_status, holding_counts.
  destruct (high_left k l s1 Hh1 Htasks) as [Hat Hbk]. exists (highPhase l). split; [exact Hat|].
  apply mv_high; [apply (ph_high _ _ Hp)|done|]. rewrite Hbk. unfold booked, s1. simpl. repeat f_equal. lia.
Qed.

Lemma step_loaded_batch k m batch rest s :
  at_phase (PLoadStep batch rest) s → is_Some (sl_running s !! k) →
  let s' := post (streamsLoaded k (Some m)) s in
  ∃ p', at_phase p' s' ∧ moved s s' (out (streamsLoaded k (Some m)) s) (PLoadStep batch rest) (StreamsLoaded k (Some m)) p'.
Proof.
  intros [Hp _] Hk. destruct (in_phase_holding _ _ _ _ Hp eq_refl Hk) as [Hh Hr]. pose proof (ph_tasks _ _ Hp) as Htasks.
  unfold streamsLoaded. run. rewrite Hr. destruct (callLoads_run batch m s) as [Hres [st Hpost]].
  set (l := pendingOf (sl_highPriorityIds s) m batch) in *.
  rewrite (post_bind_ok _ _ _ _ Hres), Hpost. set (s1 := s <| sl_streamCountRequiringNetworkAccess ::= _ |> <| sl_initStatus := st |>).
  assert (Hh1 : holding k s1) by by apply holding_status, holding_counts.
  destruct (step_left k l rest s1 Hh1 Htasks) as [Hat Hbk]. exists (stepPhase l rest). split; [exact Hat|].
  apply mv_batch; [done|]. by rewrite Hbk.
Qed.

Lemma step_loaded k answer p s :
  at_phase p s → let s' := post (streamsLoaded k answer) s in
  ∃ p', at_phase p' s' ∧ moved s s' (out (streamsLoaded k answer) s) p (StreamsLoaded k answer) p'.
Proof.
  intros Hat s'. destruct (sl_running s !! k) as [w|] eqn:Ek.
  2: { exists p. unfold s', streamsLoaded, out, post. cbv [mbind M_bind getM]. simpl. rewrite Ek. by apply moved_skip. }
  destruct (waitingAt p) as [w'|] eqn:Ew; [|pose proof (in_phase_idle p k s (proj1 Hat) Ew); congruence].
  destruct (in_phase_holding _ _ k _ (proj1 Hat) Ew ltac:(by eexists)) as [Hh Hr]. pose proof (ph_tasks _ _ (proj1 Hat)) as Htasks.
  assert (Hk : is_Some (sl_running s !! k)) by by eexists.
  assert (Hskip : (∀ a, streamsLoaded k a s = (Ok tt, s, [])) → ∃ p', at_phase p' s' ∧ moved s s' (out (streamsLoaded k answer) s) p (StreamsLoaded k answer) p').
  { intros Hno. exists p. unfold s', out, post. rewrite Hno. by apply moved_skip. }
  assert (Hfail : ∀ p', answer = None → sl_tasks s = tasksAt p' → waitingAt p' = None →
    streamsLoaded k None s = tickDone k s → at_phase p' s' ∧ books s' = books s).
  { intros p' -> Ht' Hw' Heq. unfold s', post. rewrite Heq. split; [by apply holding_done|done]. }
  destruct p; try discriminate; injection Ew as <-.
  - destruct answer as [m|]; [by apply step_loaded_high|]. exists PNetwork.
    destruct (Hfail PNetwork eq_refl Htasks eq_refl) as [? ?]; [|split; [done|by apply mv_high_failed]].
    unfold streamsLoaded. cbv [mbind M_bind getM]. simpl. by rewrite Hr.
  - apply Hskip. intros a. unfold streamsLoaded. cbv [mbind M_bind getM]. simpl. rewrite Hr. by destruct a.
  - apply Hskip. intros a. unfold streamsLoaded. cbv [mbind M_bind getM]. simpl. rewrite Hr. by destruct a.
  - destruct answer as [m|]; [by apply step_loaded_batch|]. exists PFinal.
    destruct (Hfail PFinal eq_refl Htasks eq_refl) as [? ?]; [|split; [done|by apply mv_batch_failed]].
    unfold streamsLoaded. cbv [mbind M_bind getM]. simpl. by rewrite Hr.
  - apply Hskip. intros a. unfold streamsLoaded. cbv [mbind M_bind getM]. simpl. rewrite Hr. by destruct a.
  - apply Hskip. intros a. unfold streamsLoaded. cbv [mbind M_bind getM]. simpl. rewrite Hr. by destruct a.
Qed.

Lemma fromPersistence_post id ok s :
  let s1 := if ok : bool
            then s <| sl_loadedStreamCount ::= Z.succ |> <| sl_numStreamsLoadedFromCache ::= Z.succ |>
                   <| sl_streamIds ::= set_delete id |>
            else s <| sl_streamCountRequiringNetworkAccess ::= Z.succ |> in
  res (loadedFromPersistence id ok) s = Ok tt
  ∧ post (loadedFromPersistence id ok) s = s1 <| sl_initStatus := statusOf s1 |>.
Proof. unfold loadedFromPersistence. run. by rewrite status_res, status_post. Qed.

Lemma fromPersistence_holding k id ok s :
  holding k s → let s1 := post (loadedFromPersistence id ok) s in
  holding k s1 ∧ sl_tasks s1 = sl_tasks s
  ∧ books s1 = booked s (if ok then set_delete id (ids s) else ids s) (count s + if ok then 0 else 1) (nfailed s)
                 (cacheRead s) (highRead s).
Proof.
  intros [] s1. unfold s1. destruct (fromPersistence_post id ok s) as [_ ->].
  split_and!; destruct ok; try (split; simpl; auto using NoDup_set_delete); try done.
  unfold books, booked. simpl. by rewrite Z.add_0_r.
Qed.

Lemma fromNetwork_post id ok s :
  let s1 := (if ok : bool then s <| sl_numStreamsLoadedFromNetwork ::= Z.succ |> <| sl_streamIds ::= set_delete id |>
             else s <| sl_numStreamsFailedToLoad ::= Z.succ |>)
            <| sl_loadedStreamCount ::= Z.succ |> <| sl_streamCountRequiringNetworkAccess ::= Z.pred |> in
  res (loadedFromNetwork id ok) s = Ok tt
  ∧ post (loadedFromNetwork id ok) s = s1 <| sl_initStatus := statusOf s1 |>.
Proof. unfold loadedFromNetwork. run. by rewrite status_res, status_post. Qed.

Lemma fromNetwork_holding k id ok s :
  holding k s → let s1 := post (loadedFromNetwork id ok) s in
  holding k s1 ∧ sl_tasks s1 = sl_tasks s
  ∧ books s1 = booked s (if ok then set_delete id (ids s) else ids s) (count s - 1)
                 (nfailed s + if ok then 0 else 1) (cacheRead s) (highRead s).
Proof.
  intros [] s1. unfold s1. destruct (fromNetwork_post id ok s) as [_ ->].
  split_and!; destruct ok; try (split; simpl; auto using NoDup_set_delete); try done.
  unfold books, booked. simpl. by rewrite Z.add_0_r.
Qed.

(** The status that was emitted last is that of the books. *)
Lemma status_current s s' : books s' = books s → sl_initStatus s' = statusOf s → sl_initStatus s' = statusOf s'.
Proof.
  unfold books. intros Hb Hs. injection Hb as H1 H2 H3 H4 H5 H6. rewrite Hs. unfold statusOf.
  rewrite Hs, H1, H2, H4, H5, H6. simpl. by destruct (0 <? sl_totalStreamCount s).
Qed.

Lemma step_init_high k id ok pending s :
  at_phase (PInitHigh pending) s → is_Some (sl_running s !! k) → id ∈ pending →
  let s' := post (initSettled k id ok) s in
  ∃ p', at_phase p' s' ∧ moved s s' (out (initSettled k id ok) s) (PInitHigh pending) (InitSettled k id ok) p'.
Proof.
  intros [Hp _] Hk Hin s'. destruct (in_phase_holding _ _ _ _ Hp eq_refl Hk) as [Hh Hr]. pose proof (ph_tasks _ _ Hp) as Htasks.
  destruct (fromPersistence_post id ok s) as [Hres _]. destruct (fromPersistence_holding k id ok s Hh) as (Hh1 & Ht1 & Hb1).
  destruct (high_left k (set_delete id pending) _ Hh1) as [Hat' Hb']; [by rewrite Ht1, Htasks|].
  exists (highPhase (set_delete id pending)).
  assert (Hs' : s' = post (match set_delete id pending with [] => afterHigh k | _ => wait k (InitHigh (set_delete id pending)) end)
                       (post (loadedFromPersistence id ok) s)).
  { unfold s', initSettled. run. rewrite Hr, bool_decide_eq_true_2 by done. cbn [negb]. rewrite (post_bind_ok _ _ _ _ Hres).
    by destruct (set_delete id pending). }
  rewrite Hs'. split; [exact Hat'|]. apply mv_init_high; [done|]. rewrite Hb'.
  by rewrite (booked_of _ _ _ _ _ _ _ Hb1).
Qed.

Lemma step_init_batch k id ok pending rest s :
  at_phase (PInitStep pending rest) s → is_Some (sl_running s !! k) → id ∈ pending →
  let s' := post (initSettled k id ok) s in
  ∃ p', at_phase p' s' ∧ moved s s' (out (initSettled k id ok) s) (PInitStep pending rest) (InitSettled k id ok) p'.
Proof.
  intros [Hp _] Hk Hin s'. destruct (in_phase_holding _ _ _ _ Hp eq_refl Hk) as [Hh Hr]. pose proof (ph_tasks _ _ Hp) as Htasks.
  destruct (fromPersistence_post id ok s) as [Hres _]. destruct (fromPersistence_holding k id ok s Hh) as (Hh1 & Ht1 & Hb1).
  destruct (step_left k (set_delete id pending) rest _ Hh1) as [Hat' Hb']; [by rewrite Ht1, Htasks|].
  exists (stepPhase (set_delete id pending) rest).
  assert (Hs' : s' = post (match set_delete id pending with [] => afterStep k rest | _ => wait k (InitStep (set_delete id pending) rest) end)
                       (post (loadedFromPersistence id ok) s)).
  { unfold s', initSettled. run. rewrite Hr, bool_decide_eq_true_2 by done. cbn [negb]. rewrite (post_bind_ok _ _ _ _ Hres).
    by destruct (set_delete id pending). }
  rewrite Hs'. split; [exact Hat'|]. apply mv_init_step; [done|]. by rewrite Hb'.
Qed.

Lemma step_init_network k id ok queued started s :
  at_phase (PInNetwork queued started) s → is_Some (sl_running s !! k) → id ∈ started →
  let s' := post (initSettled k id ok) s in
  ∃ p', at_phase p' s' ∧ moved s s' (out (initSettled k id ok) s) (PInNetwork queued started) (InitSettled k id ok) p'.
Proof.
  intros [Hp _] Hk Hin s'. destruct (in_phase_holding _ _ _ _ Hp eq_refl Hk) as [Hh Hr]. pose proof (ph_tasks _ _ Hp) as Htasks.
  destruct (fromNetwork_post id ok s) as [Hres _]. destruct (fromNetwork_holding k id ok s Hh) as (Hh1 & Ht1 & Hb1).
  destruct (network_left k queued (set_delete id started) _ Hh1) as (Hat' & Hb' & Hst); [by rewrite Ht1, Htasks|].
  exists (networkPhase queued (set_delete id started)).
  assert (Hs' : s' = post (match queued, set_delete id started with [], [] => afterNetwork k
                           | _, _ => wait k (Network queued (set_delete id started)) end)
                       (post (loadedFromNetwork id ok) s)).
  { unfold s', initSettled. run. rewrite Hr, bool_decide_eq_true_2 by done. cbn [negb]. rewrite (post_bind_ok _ _ _ _ Hres).
    by destruct queued, (set_delete id started). }
  rewrite Hs'. split; [exact Hat'|]. apply mv_settled; [done|by rewrite Hb'|].
  intros Hq Hst0. by apply (status_current _ _ Hb'), Hst.
Qed.

Lemma step_init k id ok p s :
  at_phase p s → let s' := post (initSettled k id ok) s in
  ∃ p', at_phase p' s' ∧ moved s s' (out (initSettled k id ok) s) p (InitSettled k id ok) p'.
Proof.
  intros Hat s'.
  assert (Hskip : initSettled k id ok s = (Ok tt, s, []) →
    ∃ p', at_phase p' s' ∧ moved s s' (out (initSettled k id ok) s) p (InitSettled k id ok) p').
  { intros Hno. exists p. unfold s', out, post. rewrite Hno. by apply moved_skip. }
  destruct (sl_running s !! k) as [w|] eqn:Ek.
  2: { apply Hskip. unfold initSettled. cbv [mbind M_bind getM]. simpl. by rewrite Ek. }
  assert (Hk : is_Some (sl_running s !! k)) by by eexists.
  destruct (waitingAt p) as [w'|] eqn:Ew; [|pose proof (in_phase_idle p k s (proj1 Hat) Ew); congruence].
  destruct (in_phase_holding _ _ k _ (proj1 Hat) Ew Hk) as [_ Hr].
  assert (Hno : match w' with
    | InitHigh l | InitStep l _ | Network _ l => id ∉ l | _ => True end → initSettled k id ok s = (Ok tt, s, [])).
  { intros Hn. unfold initSettled. cbv [mbind M_bind getM]. simpl. rewrite Hr.
    destruct w'; try done; by rewrite bool_decide_eq_false_2. }
  destruct p; try discriminate; injection Ew as <-; try (by apply Hskip, Hno).
  - destruct (decide (id ∈ pending)); [by apply step_init_high|by apply Hskip, Hno].
  - destruct (decide (id ∈ pending)); [by apply step_init_batch|by apply Hskip, Hno].
  - destruct (decide (id ∈ started)); [by apply step_init_network|by apply Hskip, Hno].
Qed.

Lemma step_sync k p s :
  at_phase p s → let s' := post (syncStarted k) s in
  ∃ p', at_phase p' s' ∧ moved s s' (out (syncStarted k) s) p (SyncStarted k) p'.
Proof.
  intros Hat s'.
  assert (Hskip : syncStarted k s = (Ok tt, s, []) → ∃ p', at_phase p' s' ∧ moved s s' (out (syncStarted k) s) p (SyncStarted k) p').
  { intros Hno. exists p. unfold s', out, post. rewrite Hno. by apply moved_skip. }
  destruct (sl_running s !! k) as [w|] eqn:Ek.
  2: { apply Hskip. unfold syncStarted. cbv [mbind M_bind getM]. simpl. by rewrite Ek. }
  destruct (waitingAt p) as [w'|] eqn:Ew; [|pose proof (in_phase_idle p k s (proj1 Hat) Ew); congruence].
  destruct (in_phase_holding _ _ k _ (proj1 Hat) Ew ltac:(by eexists)) as [Hh Hr]. pose proof (ph_tasks _ _ (proj1 Hat)) as Htasks.
  destruct p; try discriminate; injection Ew as <-;
    try (apply Hskip; unfold syncStarted; cbv [mbind M_bind getM]; simpl; by rewrite Hr).
  exists (PStep (ids s)). unfold s', syncStarted. run. rewrite Hr. unfold afterStartSync. run.
  split; [|by apply mv_start_sync]. apply holding_done; [by destruct Hh; split|by simpl; rewrite Htasks|done].
Qed.

Lemma step_limit k id p s :
  at_phase p s → let s' := post (limitRuns k id) s in
  ∃ p', at_phase p' s' ∧ moved s s' (out (limitRuns k id) s) p (LimitRuns k id) p'.
Proof.
  intros Hat s'.
  assert (Hskip : limitRuns k id s = (Ok tt, s, []) → ∃ p', at_phase p' s' ∧ moved s s' (out (limitRuns k id) s) p (LimitRuns k id) p').
  { intros Hno. exists p. unfold s', out, post. rewrite Hno. by apply moved_skip. }
  destruct (sl_running s !! k) as [w|] eqn:Ek.
  2: { apply Hskip. unfold limitRuns. cbv [mbind M_bind getM]. simpl. by rewrite Ek. }
  destruct (waitingAt p) as [w'|] eqn:Ew; [|pose proof (in_phase_idle p k s (proj1 Hat) Ew); congruence].
  destruct (in_phase_holding _ _ k _ (proj1 Hat) Ew ltac:(by eexists)) as [Hh Hr]. pose proof (ph_tasks _ _ (proj1 Hat)) as Htasks.
  destruct p; try discriminate; injection Ew as <-;
    try (apply Hskip; unfold limitRuns; cbv [mbind M_bind getM]; simpl; by rewrite Hr).
  destruct (decide (id ∈ queued)) as [Hin|Hin].
  2: { apply Hskip. unfold limitRuns. cbv [mbind M_bind getM]. simpl. by rewrite Hr, bool_decide_eq_false_2. }
  exists (PInNetwork (set_delete id queued) (started ++ [id])).
  unfold s', limitRuns. run. rewrite Hr, bool_decide_eq_true_2 by done. cbn [negb]. run.
  split; [by apply holding_wait|]. by apply mv_limit.
Qed.

Lemma step_network k s :
  holding k s → sl_tasks s = [] → let s' := post (loadStreamsFromNetwork k) s in
  ∃ p', at_phase p' s' ∧ moved s s' (out (loadStreamsFromNetwork k) s) PNetwork (TimerFires k) p'.
Proof.
  intros Hh Ht s'. unfold s', loadStreamsFromNetwork. run.
  destruct (withPriority (sl_highPriorityIds s) (sl_streamIds s)) as [items|e] eqn:E.
  - assert (Hperm : sorted items ≡ₚ sl_streamIds s).
    { unfold sorted. rewrite stable_sort_Permutation. apply traverse_ok in E.
      induction E as [|x r l items Hx _ IH]; [done|]. csimpl. destruct (priorityFromStreamId x _); [|done].
      injection Hx as <-. simpl. by rewrite IH. }
    destruct (network_left k (sorted items) [] s Hh Ht) as (Hat & Hb & Hst).
    exists (networkPhase (sorted items) []). destruct (sorted items) eqn:Es.
    + split; [exact Hat|]. apply mv_network; [done|exact Hb|]. intros _. by apply Hst.
    + split; [exact Hat|]. by apply mv_network.
  - run. exists PDone. split; [by apply holding_done|]. by eapply mv_network_failed.
Qed.

Lemma step_tick k p s :
  holding k s → sl_tasks s = tasksAt p → waitingAt p = None →
  let s' := post (tick k) s in
  ∃ p', at_phase p' s' ∧ moved s s' (out (tick k) s) p (TimerFires k) p'.
Proof.
  intros Hh Ht Hw s'. unfold s', tick. run. rewrite Ht.
  assert (Hh1 : ∀ l, holding k (s <| sl_tasks := l |>)) by (intros l; destruct Hh; by split).
  destruct p; try discriminate; cbn [tasksAt].
  - run. exists PLoadHigh. split; [by apply holding_wait|]. by apply mv_begin.
  - run. unfold stepTask. destruct rest as [|x l0] eqn:Er.
    { exists PFinal. split; [by apply holding_done|]. apply mv_step_end; [by left|done]. }
    rewrite <- Er. run.
    change (sl_highPriorityIds (s <| sl_tasks := [FinalTask; LoadStreamsFromNetwork] |>)) with (sl_highPriorityIds s).
    destruct (sortByPriority (sl_highPriorityIds s) rest) as [l|e] eqn:Es.
    + run. exists (PLoadStep (take MAX_CONCURRENT_FROM_PERSISTENCE l) (drop MAX_CONCURRENT_FROM_PERSISTENCE l)).
      split; [apply holding_wait; [apply (Hh1 [FinalTask; LoadStreamsFromNetwork])|done|done]|]. rewrite Er in *. by apply mv_step.
    + run. exists PFinal. split; [apply holding_done; [apply (Hh1 [FinalTask; LoadStreamsFromNetwork])|done|done]|].
      rewrite Er in *. apply mv_step_end; [right; by exists e|done].
  - run. rewrite post_bind_emitStatus. exists PNetwork. split; [|by apply mv_final].
    apply holding_done; [destruct Hh; by split|done|done].
  - run. destruct (step_network k _ (Hh1 []) eq_refl) as (p' & Hat & Hm). exists p'. split; [done|].
    inversion Hm; subst; try (by constructor).
    + eapply mv_network_failed; [|done]. done.
  - run. exists PDone. split; [by apply holding_done|]. apply mv_same; [done|by left].
Qed.

Lemma step_timer k p s :
  at_phase p s → let s' := post (timerFires k) s in
  ∃ p', at_phase p' s' ∧ moved s s' (out (timerFires k) s) p (TimerFires k) p'.
Proof.
  intros [[Hs Htasks Hi Hh Ht] Hawake] s'. destruct (decide (k ∈ sl_armed s)) as [Hk|Hk].
  2: { exists p. unfold s', timerFires, out, post. cbv [mbind M_bind getM]. simpl. rewrite bool_decide_eq_false_2 by done.
       apply moved_skip. by split. }
  destruct (waitingAt p) as [w|] eqn:Ew; [destruct Ht as (k' & _ & _ & Ha); rewrite Ha in Hk; set_solver|].
  destruct Ht as [Hr [[_ Ha]|(k' & Htm & Ha)]]; [rewrite Ha in Hk; set_solver|].
  assert (k' = k) as -> by (rewrite Ha in Hk; set_solver).
  set (s1 := s <| sl_armed ::= λ a, a ∖ {[k]} |>).
  assert (Hh1 : holding k s1) by (split; [done..|by left|done|simpl; rewrite Ha; set_solver]).
  destruct (step_tick k p s1 Hh1 Htasks Ew) as (p' & Hat & Hm). exists p'.
  assert (Hrun : timerFires k s = tick k s1).
  { unfold timerFires. rewrite bind_getM, bool_decide_eq_true_2 by done. by rewrite bind_modify. }
  unfold s', out, post. rewrite Hrun. split; [exact Hat|].
  inversion Hm; subst; try (by constructor); by econstructor.
Qed.

Lemma step_op op p s :
  op ≠ Stop → at_phase p s → ∃ p', at_phase p' (post (run_op op) s) ∧ moved s (post (run_op op) s) (out (run_op op) s) p op p'.
Proof.
  intros Hns Hp. destruct op; cbn [run_op].
  - exists p. by apply step_high.
  - exists p. by apply step_check.
  - by apply step_timer.
  - exists p. by apply step_followUp.
  - by apply step_loaded.
  - by apply step_init.
  - by apply step_sync.
  - by apply step_limit.
  - done.
Qed.

Lemma begin_at highPriorityStreamIds requested streamIds :
  at_phase PBegin (begin highPriorityStreamIds requested streamIds)
  ∧ books (begin highPriorityStreamIds requested streamIds)
    = (setOf streamIds, 0, 0, false, false, Z.of_nat (length streamIds))
  ∧ sl_highPriorityIds (begin highPriorityStreamIds requested streamIds) = setOf highPriorityStreamIds.
Proof.
  assert (Hb : begin highPriorityStreamIds requested streamIds
    = (new highPriorityStreamIds) <| sl_startSyncRequested := requested |> <| sl_streamIds := setOf streamIds |>
        <| sl_totalStreamCount := Z.of_nat (length streamIds) |> <| sl_started := true |>
        <| sl_tasks := [LoadStreamsFromPersistence; LoadStreamsFromNetwork] |>
        <| sl_timeoutId := Some O |> <| sl_armed := {[O]} ∪ ∅ |> <| sl_nextTimer := 1%nat |>).
  { by destruct requested. }
  rewrite Hb. split_and!; [|done..]. split; [|done]. split; [done..| | |].
  - simpl. apply setOf_spec.
  - simpl. apply setOf_spec.
  - simpl. split; [done|]. right. exists O. split; [done|set_solver].
Qed.

(** ** Runs *)

Fixpoint exec (ops : list LoadOp) (s : Loading) : Loading * list LoadOut :=
  match ops with
  | [] => (s, [])
  | op :: ops =>
      let '(s', o) := exec ops (post (run_op op) s) in (s', out (run_op op) s ++ o)
  end.

Lemma loadPriority_valid x hp : isValidStreamId x = true → ∃ p, priorityFromStreamId x hp = Ok p.
Proof.
  intros Hv. unfold priorityFromStreamId. destruct (_ || _); [by eexists|]. case_bool_decide; [by eexists|].
  destruct (_ && _); [by eexists|]. destruct (isSpaceStreamId _); [by eexists|].
  destruct (isChannelStreamId (SStr x)) eqn:Hc; [|by eexists].
  destruct (spaceIdFromChannelId_valid x Hv Hc) as [sp ->]. by eexists.
Qed.

Definition all_valid (l : list string) : Prop := ∀ x, x ∈ l → isValidStreamId x = true.

Lemma withPriority_valid hp l : all_valid l → ∃ items, withPriority hp l = Ok items.
Proof.
  unfold withPriority. induction l as [|x l IH]; intros Hv; [by eexists|]. simpl.
  destruct (loadPriority_valid x hp) as [p ->]; [apply Hv; by left|]. simpl.
  destruct IH as [items ->]; [intros y Hy; apply Hv; by right|]. by eexists.
Qed.

Lemma sortByPriority_valid hp l : all_valid l → ∃ l', sortByPriority hp l = Ok l' ∧ l' ≡ₚ l.
Proof.
  intros Hv. unfold sortByPriority. destruct (_ <=? _)%nat; [by eexists|].
  destruct (withPriority_valid hp l Hv) as [items E]. rewrite E. eexists. split; [done|].
  unfold sorted. rewrite stable_sort_Permutation. apply traverse_ok in E.
  induction E as [|x r l items Hx _ IH]; [done|]. csimpl. destruct (priorityFromStreamId x _); [|done].
  injection Hx as <-. simpl. rewrite IH; [done|]. intros y Hy. apply Hv. by right.
Qed.

(** The cases of a move, with what each does to the books *)
Ltac move_cases Hm Hb :=
  inversion Hm as [? ? Hb|? Hb|? Hb|? ? ? ? ? Hb|? ? ? ? ? Hb|? Hb|? ? ? Hb|? ? ? ? ? Hb|? ? ? Hb|? ? ? ? ? ? Hb|? ? ? ? ? ? Hb|? Hb|? ? ? Hb
    |? ? ? Hb|? ? ? ? ? Hb|? ? ? ? ? ? Hb]; subst; unfold books, booked in Hb.

(** The streams of the loader are those it was given and that were not initialised. *)
Record tracked (given : list string) (ops : list LoadOp) (s : Loading) : Prop := {
  tk_given x : x ∈ ids s → x ∈ given;
  tk_settled x : x ∈ given → x ∈ ids s ∨ ∃ k, InitSettled k x true ∈ ops;
}.

(** What the network phase has done so far; [o] is everything that was emitted. *)
Definition networked (o : list LoadOut) (p : Phase) (s : Loading) : Prop :=
  match p with
  | PInNetwork queued started =>
      NoDup (queued ++ started) ∧ (∀ x, x ∈ queued ++ started → x ∈ ids s)
      ∧ (∀ x, x ∈ ids s → x ∈ queued ∨ initStream x true None ∈ o)
      ∧ nfailed s + Z.of_nat (length queued) + Z.of_nat (length started) = Z.of_nat (length (ids s))
  | PDone =>
      (∀ x, x ∈ ids s → initStream x true None ∈ o) ∧ nfailed s = Z.of_nat (length (ids s))
      ∧ sl_initStatus s = statusOf s
  | _ => nfailed s = 0
  end.

Lemma tracked_step given ops op p p' s s' o :
  tracked given ops s → moved s s' o p op p' → tracked given (ops ++ [op]) s'.
Proof.
  intros [Hg Hs] Hm.
  assert (Hsame : ids s' = ids s → tracked given (ops ++ [op]) s').
  { intros E. split; [by rewrite E|]. intros x Hx. rewrite E. destruct (Hs x Hx) as [|[k Hk]]; [by left|].
    right. exists k. rewrite elem_of_app. by left. }
  assert (Hdel : ∀ k x (ok : bool), op = InitSettled k x ok → ids s' = (if ok then set_delete x (ids s) else ids s) →
    tracked given (ops ++ [op]) s').
  { intros k x ok -> E. destruct ok; [|by apply Hsame]. split.
    - intros y. rewrite E, elem_of_set_delete. intros [_ Hy]. by apply Hg.
    - intros y Hy. rewrite E, elem_of_set_delete. destruct (decide (y = x)) as [->|Hne].
      + right. exists k. rewrite elem_of_app. right. by left.
      + destruct (Hs y Hy) as [|[k' Hk']]; [by left|]. right. exists k'. rewrite elem_of_app. by left. }
  move_cases Hm Hb; injection Hb as Hids _ _ _ _ _; eauto.
Qed.

Lemma networked_more o o' p s : networked o p s → networked (o ++ o') p s.
Proof.
  destruct p; simpl; try done.
  - intros (Hn & Hin & Ha & Hf). split_and!; try done. intros x Hx. destruct (Ha x Hx); [by left|right; rewrite elem_of_app; by left].
  - intros (Ha & Hf & Hst). split_and!; try done. intros x Hx. rewrite elem_of_app. left. by apply Ha.
Qed.

(** A stream leaves the queue, or its call settles. *)
Lemma networked_settled o queued started x (ok : bool) s s' :
  NoDup (ids s) → networked o (PInNetwork queued started) s → x ∈ started →
  books s' = booked s (if ok then set_delete x (ids s) else ids s) (count s - 1) (nfailed s + if ok then 0 else 1)
               (cacheRead s) (highRead s) →
  (queued = [] → set_delete x started = [] → sl_initStatus s' = statusOf s') →
  networked o (networkPhase queued (set_delete x started)) s'.
Proof.
  intros Hnd (Hn & Hin & Ha & Hf) Hx Hb Hst. unfold books, booked in Hb. injection Hb as Hids _ Hfail _ _ _.
  apply NoDup_app in Hn as (Hnq & Hdisj & Hns). pose proof (length_set_delete x started Hns Hx) as Hlen.
  assert (Hxs : x ∈ ids s) by (apply Hin; rewrite elem_of_app; by right).
  pose proof (length_set_delete x (ids s) Hnd Hxs) as Hlen'.
  assert (Hask : ∀ y, y ∈ ids s' → y ∈ queued ∨ initStream y true None ∈ o).
  { intros y Hy. apply Ha. rewrite Hids in Hy. destruct ok; [by apply elem_of_set_delete in Hy as [_ ?]|done]. }
  assert (Hcount : nfailed s' + Z.of_nat (length queued) + Z.of_nat (length (set_delete x started)) = Z.of_nat (length (ids s'))).
  { rewrite Hfail, Hids. destruct ok; lia. }
  assert (Hnet : networked o (PInNetwork queued (set_delete x started)) s').
  { split_and!; [| |done|done].
    - apply NoDup_app. split_and!; [done| |by apply NoDup_set_delete]. intros y Hy. rewrite elem_of_set_delete. intros [_ ?].
      by apply (Hdisj y).
    - intros y Hy. assert (Hyx : y ≠ x ∧ y ∈ queued ++ started).
      { apply elem_of_app in Hy as [Hy|Hy]; [|apply elem_of_set_delete in Hy as [? ?]; split; [done|rewrite elem_of_app; by right]].
        split; [intros ->; by apply (Hdisj x)|rewrite elem_of_app; by left]. }
      rewrite Hids. destruct Hyx as [Hne Hy']. destruct ok; [rewrite elem_of_set_delete; split; [done|]|]; by apply Hin. }
  destruct queued as [|q queued]; [|exact Hnet]. destruct (set_delete x started) as [|y l] eqn:E; [|exact Hnet].
  simpl. split_and!; [|simpl in Hcount; lia|by apply Hst].
  intros y Hy. destruct (Hask y Hy) as [Hq|]; [by apply not_elem_of_nil in Hq|done].
Qed.

Lemma networked_queued o queued s s' :
  NoDup (ids s) → nfailed s = 0 → queued ≡ₚ ids s → books s' = books s → (queued = [] → sl_initStatus s' = statusOf s) →
  networked o (networkPhase queued []) s'.
Proof.
  intros Hnd Hn Hq Hb Hst. pose proof (status_current s s' Hb) as Hcur. unfold books in Hb. injection Hb as Hids _ Hf _ _ _.
  pose proof (Permutation_length Hq) as Hlen. destruct queued as [|q queued]; simpl.
  - rewrite Hids, Hf. split_and!; [|simpl in Hlen; lia|by apply Hcur, Hst]. intros x Hx. rewrite <- Hq in Hx. by apply not_elem_of_nil in Hx.
  - rewrite app_nil_r, Hids, Hf. split_and!; [by rewrite Hq|by intros x; rewrite Hq|intros x; rewrite <- Hq; by left|simpl in *; lia].
Qed.

Lemma networked_limit o queued started x s s' :
  networked o (PInNetwork queued started) s → x ∈ queued → books s' = books s →
  networked (o ++ [initStream x true None]) (PInNetwork (set_delete x queued) (started ++ [x])) s'.
Proof.
  intros (Hn & Hin & Ha & Hf) Hx Hb. unfold books in Hb. injection Hb as Hids _ Hfail _ _ _.
  apply NoDup_app in Hn as (Hnq & Hdisj & Hns). pose proof (length_set_delete x queued Hnq Hx) as Hlen.
  split_and!; rewrite ?Hids, ?Hfail.
  - apply NoDup_app. split_and!; [by apply NoDup_set_delete| |].
    + intros y. rewrite elem_of_set_delete, elem_of_app, list_elem_of_singleton. intros [Hne Hy] [Hy'|Hy']; [by apply (Hdisj y)|done].
    + apply NoDup_app. split_and!; [done| |apply NoDup_singleton]. intros y Hy ->%list_elem_of_singleton. by apply (Hdisj x).
  - intros y. rewrite !elem_of_app, elem_of_set_delete, list_elem_of_singleton. intros [[_ Hy]|[Hy| ->]]; apply Hin; rewrite elem_of_app; auto.
  - intros y Hy. rewrite elem_of_set_delete, elem_of_app, list_elem_of_singleton.
    destruct (decide (y = x)) as [->|Hne]; [by right; right|]. destruct (Ha y Hy); [by left|by right; left].
  - rewrite length_app. simpl. lia.
Qed.

Lemma networked_step given ops o o' op p p' s s' :
  all_valid given → tracked given ops s → NoDup (ids s) → networked o p s → moved s s' o' p op p' →
  networked (o ++ o') p' s'.
Proof.
  intros Hv Ht Hnd Hn Hm. pose proof (networked_more o o' p s Hn) as Hmore.
  assert (Hsame : books s' = books s → (sl_initStatus s' = sl_initStatus s ∨ sl_initStatus s' = statusOf s) → networked (o ++ o') p s').
  { intros Hb Hst. pose proof Hb as Hb0. unfold books in Hb. injection Hb as Hids _ Hfail _ _ _.
    destruct p; simpl in *; rewrite ?Hids, ?Hfail; try done. destruct Hmore as (? & ? & Hcur). split_and!; [done..|].
    apply (status_current s); [done|]. destruct Hst; congruence. }
  assert (Hplain : nfailed s = 0 → nfailed s' = nfailed s → ∀ q, match q with PInNetwork _ _ | PDone => False | _ => True end →
    networked (o ++ o') q s').
  { intros H0 Hf q Hq. destruct q; simpl; try done; congruence. }
  assert (Hfail : ∀ l n b1 b2, books s' = booked s l n (nfailed s) b1 b2 → nfailed s' = nfailed s).
  { intros l n b1 b2 Hb. unfold books, booked in Hb. by injection Hb as _ _ Hf _ _ _. }
  inversion Hm; subst; simpl in Hn; try (by apply Hsame); try (apply (Hplain Hn); [by eapply Hfail|]; by repeat case_match).
  1-4: apply (Hplain Hn); [by eapply Hfail|]; unfold highPhase, stepPhase; by repeat case_match.
  - destruct (withPriority_valid (sl_highPriorityIds s) (ids s)) as [items ?]; [|congruence].
    intros x Hx. by apply Hv, (tk_given _ _ _ Ht).
  - by apply (networked_queued _ _ s).
  - by apply (networked_limit _ _ _ _ s).
  - by apply (networked_settled _ _ _ _ ok s).
Qed.

(** Nothing that the status does not foresee happens: the loader is not stopped,
    the cache does not fail, and neither does the initialisation of a stream of high priority before the
    others. *)
Definition clean (s : Loading) (op : LoadOp) : Prop :=
  match op with
  | StreamsLoaded _ None | Stop => False
  | InitSettled _ x false => ∀ k pending, sl_running s !! k = Some (InitHigh pending) → x ∉ pending
  | _ => True
  end.

(** In a clean run the count is the number of streams that the network will be asked for. *)
Definition counted (p : Phase) (s : Loading) : Prop :=
  let left l := NoDup l ∧ (∀ x, x ∈ l → x ∈ ids s) ∧ count s + Z.of_nat (length l) = Z.of_nat (length (ids s)) in
  match p with
  | PBegin | PLoadHigh | PInitHigh _ => count s = 0
  | PStartSync => count s = 0 ∧ highRead s = true
  | PStep l => left l ∧ highRead s = true
  | PLoadStep batch rest => left (batch ++ rest) ∧ highRead s = true
  | PInitStep pending rest => left (pending ++ rest) ∧ highRead s = true
  | PFinal => count s = Z.of_nat (length (ids s)) ∧ highRead s = true
  | PNetwork => count s = Z.of_nat (length (ids s)) ∧ highRead s = true ∧ cacheRead s = true
  | PInNetwork queued started =>
      count s = Z.of_nat (length queued) + Z.of_nat (length started) ∧ highRead s = true ∧ cacheRead s = true
  | PDone => count s = 0 ∧ highRead s = true ∧ cacheRead s = true
  end.

Lemma counted_batch batch rest m hp s s' :
  counted (PLoadStep batch rest) s →
  books s' = booked s (ids s) (count s + Z.of_nat (length batch) - Z.of_nat (length (pendingOf hp m batch))) (nfailed s)
               (cacheRead s) (highRead s) →
  counted (stepPhase (pendingOf hp m batch) rest) s'.
Proof.
  intros [(Hn & Hin & Hc) Hh] Hb. unfold books, booked in Hb. injection Hb as Hids Hcount _ _ Hh' _.
  apply NoDup_app in Hn as (Hnb & Hdisj & Hnr). rewrite length_app in Hc.
  assert (Hsub : ∀ x, x ∈ pendingOf hp m batch → x ∈ batch).
  { intros x. unfold pendingOf. rewrite !list_elem_of_In, List.filter_In. by intros [??]. }
  assert (Hnp : NoDup (pendingOf hp m batch)).
  { unfold pendingOf. rewrite NoDup_ListNoDup in *. by apply List.NoDup_filter. }
  assert (Hall : counted (PInitStep (pendingOf hp m batch) rest) s').
  { simpl. rewrite Hids, Hcount, Hh', length_app. split_and!; [| |lia|done].
    - apply NoDup_app. split_and!; [done| |done]. intros x Hx. by apply Hdisj, Hsub.
    - intros x. rewrite elem_of_app. intros [Hx|Hx]; apply Hin; rewrite elem_of_app; auto. }
  destruct (pendingOf hp m batch); exact Hall.
Qed.

Lemma counted_settled pending rest x (ok : bool) s s' :
  NoDup (ids s) → counted (PInitStep pending rest) s → x ∈ pending →
  books s' = booked s (if ok then set_delete x (ids s) else ids s) (count s + if ok then 0 else 1) (nfailed s)
               (cacheRead s) (highRead s) →
  counted (stepPhase (set_delete x pending) rest) s'.
Proof.
  intros Hnd [(Hn & Hin & Hc) Hh] Hx Hb. unfold books, booked in Hb. injection Hb as Hids Hcount _ _ Hh' _.
  apply NoDup_app in Hn as (Hnp & Hdisj & Hnr). pose proof (length_set_delete x pending Hnp Hx) as Hlen.
  assert (Hxs : x ∈ ids s) by (apply Hin; rewrite elem_of_app; by left).
  pose proof (length_set_delete x (ids s) Hnd Hxs) as Hlen'. rewrite length_app in Hc.
  assert (Hall : counted (PInitStep (set_delete x pending) rest) s').
  { simpl. rewrite Hids, Hcount, Hh', length_app. split_and!; [| | |done].
    - apply NoDup_app. split_and!; [by apply NoDup_set_delete| |done]. intros y [_ Hy]%elem_of_set_delete. by apply Hdisj.
    - intros y Hy. assert (y ≠ x ∧ y ∈ ids s) as [Hne Hy'].
      { apply elem_of_app in Hy as [[Hne Hy]%elem_of_set_delete|Hy]; split; try done.
        - apply Hin. rewrite elem_of_app. by left.
        - intros ->. by apply (Hdisj x).
        - apply Hin. rewrite elem_of_app. by right. }
      destruct ok; [by rewrite elem_of_set_delete|done].
    - destruct ok; lia. }
  destruct (set_delete x pending); exact Hall.
Qed.

Lemma counted_books p s s' : books s' = books s → counted p s → counted p s'.
Proof.
  intros Hb. unfold books in Hb. injection Hb as Hids Hcount _ Hcr Hhr _.
  destruct p; simpl in *; by rewrite ?Hids, ?Hcount, ?Hcr, ?Hhr.
Qed.

Lemma counted_network queued started s :
  counted (networkPhase queued started) s
  ↔ count s = Z.of_nat (length queued) + Z.of_nat (length started) ∧ highRead s = true ∧ cacheRead s = true.
Proof. by destruct queued, started. Qed.

(** The streams of high priority are all read, or one of them is still initialised. *)
Lemma counted_high pending n s s' :
  count s = 0 → books s' = booked s n (count s) (nfailed s) (cacheRead s) (allRead pending (highRead s)) →
  counted (highPhase pending) s'.
Proof.
  intros Hc Hb. unfold books, booked in Hb. injection Hb as _ Hcount _ _ Hh _. destruct pending; simpl in *; by rewrite Hcount.
Qed.

Lemma counted_step given ops o op p p' s s' :
  all_valid given → tracked given ops s → at_phase p s → clean s op →
  networked o p s → counted p s → moved s s' (out (run_op op) s) p op p' → counted p' s'.
Proof.
  intros Hv Ht Hat Hcl Hn Hc Hm. pose proof (ph_ids _ _ (proj1 Hat)) as Hnd.
  inversion Hm; subst; try (by eapply counted_books); try done.
  - eapply counted_high; [exact Hc|done].
  - destruct ok; [eapply counted_high; [exact Hc|by rewrite Z.add_0_r in *]|].
    destruct Hat as [[_ _ _ _ (k' & Hrun & _)] _]. exfalso. apply (Hcl k' pending); [|done]. by rewrite Hrun, lookup_singleton_eq.
  - eapply counted_books; [done|]. simpl in *. split_and!; [done|done|lia|tauto].
  - assert (Hl : l = []).
    { match goal with Hl : l = [] ∨ _ |- _ => destruct Hl as [|[e He]]; [done|] end. destruct (sortByPriority_valid (sl_highPriorityIds s) l) as (? & ? & _); [|congruence].
      intros x Hx. apply Hv, (tk_given _ _ _ Ht). by apply Hc. }
    subst l. eapply counted_books; [done|]. simpl in *. split; [lia|tauto].
  - eapply counted_books; [done|]. destruct (sortByPriority_valid (sl_highPriorityIds s) l) as (l2 & E2 & Hperm).
    { intros x Hx. apply Hv, (tk_given _ _ _ Ht). by apply Hc. }
    assert (l2 = l') as -> by congruence. simpl. rewrite take_drop. destruct Hc as [(?&?&?) ?].
    split_and!; [by rewrite Hperm|intros x; rewrite Hperm; auto|by rewrite Hperm|done].
  - by eapply counted_batch.
  - by eapply counted_settled.
  - match goal with Hb : books s' = _ |- _ => unfold books, booked in Hb; injection Hb as Hids Hcount _ Hcr Hhr _ end.
    simpl in *. rewrite Hids, Hcount, Hcr, Hhr. tauto.
  - destruct (withPriority_valid (sl_highPriorityIds s) (ids s)) as [items ?]; [|congruence].
    intros x Hx. by apply Hv, (tk_given _ _ _ Ht).
  - eapply counted_books; [done|]. rewrite counted_network. simpl in *.
    match goal with Hq : queued ≡ₚ _ |- _ => rewrite Hq end. split_and!; [lia|tauto..].
  - eapply counted_books; [done|]. destruct Hn as (Hn & _). apply NoDup_app in Hn as (Hnq & _ & _).
    pose proof (length_set_delete id queued Hnq ltac:(done)). simpl in *. rewrite length_app. simpl. split_and!; [lia|tauto..].
  - destruct Hn as (Hn & _). apply NoDup_app in Hn as (_ & _ & Hns). pose proof (length_set_delete id started Hns ltac:(done)).
    match goal with Hb : books s' = _ |- _ => unfold books, booked in Hb; injection Hb as Hids Hcount _ Hcr Hhr _ end.
    rewrite counted_network. simpl in *. rewrite Hcount, Hcr, Hhr. split_and!; [lia|tauto..].
Qed.

(** The flag of the local data is set when the cache was read, or has failed. *)
Definition unread (p : Phase) (s : Loading) : Prop :=
  match p with PNetwork | PInNetwork _ _ | PDone => True | _ => cacheRead s = false end.

Lemma unread_step op p p' s s' o : unread p s → moved s s' o p op p' → unread p' s'.
Proof.
  intros Hu Hm.
  move_cases Hm Hb; injection Hb as _ _ _ Hc _ _;
    unfold highPhase, stepPhase, networkPhase; repeat case_match; simpl in *; try done; try congruence.
  destruct p'; simpl in *; congruence.
Qed.

Lemma total_step op p p' s s' o : moved s s' o p op p' → sl_totalStreamCount s' = sl_totalStreamCount s.
Proof.
  intros Hm.
  move_cases Hm Hb; by injection Hb.
Qed.

Record loading (given : list string) (ops : list LoadOp) (o : list LoadOut) (s : Loading) (p : Phase) : Prop := {
  ld_at : at_phase p s;
  ld_tracked : tracked given ops s;
  ld_networked : networked o p s;
  ld_unread : unread p s;
  ld_total : sl_totalStreamCount s = Z.of_nat (length given);
}.

Fixpoint clean_run (ops : list LoadOp) (s : Loading) : Prop :=
  match ops with
  | [] => True
  | op :: ops => clean s op ∧ clean_run ops (post (run_op op) s)
  end.

Lemma loading_step given ops o s p op :
  op ≠ Stop → all_valid given → loading given ops o s p →
  ∃ p', loading given (ops ++ [op]) (o ++ out (run_op op) s) (post (run_op op) s) p'
    ∧ (clean s op → counted p s → counted p' (post (run_op op) s)).
Proof.
  intros Hns Hv [Hat Ht Hn Hu Htot]. destruct (step_op op p s Hns Hat) as (p' & Hat' & Hm). exists p'. split.
  - split; [done|by eapply tracked_step| |by eapply unread_step|by rewrite (total_step _ _ _ _ _ _ Hm)].
    eapply networked_step; [done..| |done|done]. apply (ph_ids _ _ (proj1 Hat)).
  - intros Hcl Hc. by eapply counted_step.
Qed.

Lemma loading_exec given ops' : ∀ ops o s p,
  Stop ∉ ops' → all_valid given → loading given ops o s p →
  ∃ p', loading given (ops ++ ops') (o ++ (exec ops' s).2) (exec ops' s).1 p'
    ∧ (clean_run ops' s → counted p s → counted p' (exec ops' s).1).
Proof.
  induction ops' as [|op ops' IH]; intros ops o s p Hns Hv Hl.
  - exists p. by rewrite !app_nil_r.
  - apply not_elem_of_cons in Hns as [Hop Hns].
    destruct (loading_step _ _ _ _ _ op (not_eq_sym Hop) Hv Hl) as (p1 & Hl1 & Hc1).
    destruct (IH _ _ _ _ Hns Hv Hl1) as (p2 & Hl2 & Hc2). exists p2. rewrite <- !app_assoc in Hl2. simpl in *.
    destruct (exec ops' (post (run_op op) s)) as [s' o']. simpl in *. split; [done|]. intros [? ?] ?. auto.
Qed.

Lemma loading_begin highPriorityStreamIds requested given :
  loading given [] [] (begin highPriorityStreamIds requested given) PBegin
  ∧ counted PBegin (begin highPriorityStreamIds requested given).
Proof.
  destruct (begin_at highPriorityStreamIds requested given) as (Hat & Hb & _).
  unfold books in Hb. injection Hb as Hids Hc Hf Hcr Hhr Htot. destruct (setOf_spec given) as [_ Hin].
  split; [|done]. split; [done| |done..]. split; intros x; rewrite Hids, Hin; auto.
Qed.

(** No task is left and no tick runs. *)
Definition finished (s : Loading) : Prop := sl_tasks s = [] ∧ sl_running s = ∅.
(** Something will happen: an answer is waited for, or a timer is set. *)
Definition due (s : Loading) : Prop := sl_running s ≠ ∅ ∨ sl_armed s ≠ ∅ ∨ (0 < sl_followUps s)%nat.

Lemma at_phase_due p s : at_phase p s → p = PDone ∧ finished s ∨ p ≠ PDone ∧ ¬ finished s ∧ due s.
Proof.
  intros [[_ Htasks _ _ Ht] Hawake]. unfold finished, due. rewrite Htasks. destruct (waitingAt p) as [w|] eqn:Ew.
  - right. destruct Ht as (k & Hr & _). rewrite Hr. split_and!; [by intros ->| |left; apply map_non_empty_singleton].
    intros [_ Hf]. by apply map_non_empty_singleton in Hf.
  - destruct Ht as [Hr Htm]. destruct (decide (tasksAt p = [])) as [E|E].
    + left. destruct p; try discriminate. by rewrite Hr.
    + right. split_and!; [by intros ->|by intros [? _]|]. destruct Htm as [[Hno _]|(k & _ & Ha)]; [auto|].
      right; left. rewrite Ha. set_solver.
Qed.

Lemma clean_unstopped ops s : clean_run ops s → Stop ∉ ops.
Proof.
  revert s. induction ops as [|op ops IH]; intros s; [intros _; apply not_elem_of_nil|].
  intros [Hop Hops] [<-|Hin]%elem_of_cons; [done|]. by apply (IH _ Hops).
Qed.

(** *** Streams, whether or not the loader is stopped *)

Lemma keeps_status : keeps sl_streamIds emitClientStatus.
Proof. unfold emitClientStatus. keeps. Qed.
Lemma keeps_checkTicking : keeps sl_streamIds checkStartTicking.
Proof. pose proof keeps_status. unfold checkStartTicking. keeps. Qed.
Lemma keeps_done k : keeps sl_streamIds (tickDone k).
Proof. unfold tickDone. keeps. Qed.
Lemma keeps_wait k w : keeps sl_streamIds (wait k w).
Proof. unfold wait. keeps. Qed.
#[local] Hint Resolve keeps_status keeps_checkTicking keeps_done keeps_wait : keeps.

Lemma keeps_callLoads l m : keeps sl_streamIds (callLoads l m).
Proof. induction l as [|x l IH]; cbn [callLoads]; keeps. Qed.
Lemma keeps_afterHigh k : keeps sl_streamIds (afterHigh k).
Proof. unfold afterHigh. keeps. Qed.
Lemma keeps_afterStep k l : keeps sl_streamIds (afterStep k l).
Proof. unfold afterStep. keeps. Qed.
Lemma keeps_afterNetwork k : keeps sl_streamIds (afterNetwork k).
Proof. unfold afterNetwork. keeps. Qed.
#[local] Hint Resolve keeps_callLoads keeps_afterHigh keeps_afterStep keeps_afterNetwork : keeps.

Lemma keeps_tick k : keeps sl_streamIds (tick k).
Proof. unfold tick, stepTask, loadStreamsFromNetwork. keeps. Qed.
#[local] Hint Resolve keeps_tick : keeps.

(** What an answer of [initStream] does to the listed streams *)
Definition settledIds (x : string) (ok : bool) (l : list string) : list string := if ok then set_delete x l else l.

Lemma initSettled_ids k x ok s :
  sl_streamIds (post (initSettled k x ok) s) = sl_streamIds s
  ∨ sl_streamIds (post (initSettled k x ok) s) = settledIds x ok (sl_streamIds s).
Proof.
  assert (Hafter : ∀ (m : LdM unit) (c : unit → LdM unit),
    (∀ u, keeps sl_streamIds (c u)) → res m s = Ok tt → sl_streamIds (post m s) = settledIds x ok (sl_streamIds s) →
    sl_streamIds (post (m ≫= c) s) = settledIds x ok (sl_streamIds s)).
  { intros m c Hc Hr Hm. rewrite (post_bind_ok _ _ _ _ Hr), Hc. exact Hm. }
  assert (Hp : sl_streamIds (post (loadedFromPersistence x ok) s) = settledIds x ok (sl_streamIds s)
               ∧ res (loadedFromPersistence x ok) s = Ok tt).
  { unfold loadedFromPersistence. run. rewrite keeps_status, status_res. by destruct ok. }
  assert (Hn : sl_streamIds (post (loadedFromNetwork x ok) s) = settledIds x ok (sl_streamIds s)
               ∧ res (loadedFromNetwork x ok) s = Ok tt).
  { unfold loadedFromNetwork. run. rewrite keeps_status, status_res. by destruct ok. }
  unfold initSettled. run. destruct (sl_running s !! k) as [[]|]; try (by left);
    (case_bool_decide; simpl; [right|by left]); (apply Hafter; [intros []; keeps|tauto..]).
Qed.

Lemma run_op_ids op s :
  sl_streamIds (post (run_op op) s) = sl_streamIds s
  ∨ ∃ k x, op = InitSettled k x true ∧ sl_streamIds (post (run_op op) s) = set_delete x (sl_streamIds s).
Proof.
  assert (Hk : keeps sl_streamIds (run_op op) → sl_streamIds (post (run_op op) s) = sl_streamIds s) by (intros Hk; apply Hk).
  destruct op as [l|b|k|  |k a|k x ok|k|k x|];
    [..|destruct (initSettled_ids k x ok s) as [|E]; [by left|]; destruct ok; [right; by exists k, x|by left]| | |];
    left; apply Hk; cbn [run_op];
    unfold setHighPriorityStreams, setStartSyncRequested, timerFires, followUp, streamsLoaded, syncStarted, afterStartSync,
      limitRuns, stop; keeps.
  apply keeps_modify. intros s1. by destruct (sl_timeoutId s1).
Qed.

Lemma exec_ids ops s x :
  x ∈ sl_streamIds s → x ∈ sl_streamIds (exec ops s).1 ∨ ∃ k, InitSettled k x true ∈ ops.
Proof.
  revert s. induction ops as [|op ops IH]; intros s Hx; [by left|]. simpl.
  destruct (exec ops (post (run_op op) s)) as [s' o] eqn:E.
  assert (Hrest : x ∈ sl_streamIds (post (run_op op) s) → x ∈ sl_streamIds s' ∨ ∃ k, InitSettled k x true ∈ op :: ops).
  { intros Hin. specialize (IH _ Hin). rewrite E in IH. destruct IH as [|[k Hk]]; [by left|]. right. exists k. by right. }
  destruct (run_op_ids op s) as [Eq|(k & y & -> & Eq)]; rewrite Eq in Hrest; [by apply Hrest|].
  destruct (decide (x = y)) as [->|Hne]; [right; exists k; by left|]. apply Hrest. by rewrite elem_of_set_delete.
Qed.

(** C16. The loader neither loses a stream nor falls asleep. It is given valid
    stream ids and started; then timers fire, the cache answers or fails,
    [initStream] succeeds or fails, p-limit picks the streams it likes and the
    client changes the streams of high priority, asks for a sync or stops the
    loader, in any order. At every moment a stream it was given was initialised
    or is still listed. As long as the loader was not stopped: unless the
    loading has ended, an answer is waited for or a timer is set; when it has
    ended, each stream that is still listed was asked from the network and is
    counted as failed, and the progress that was last emitted is the share of
    the streams that were initialised. *)
Theorem loading_complete highPriorityStreamIds requested given ops :
  all_valid given →
  let '(s, o) := exec ops (begin highPriorityStreamIds requested given) in
  (∀ x, x ∈ given → x ∈ sl_streamIds s ∨ ∃ k, InitSettled k x true ∈ ops)
  ∧ (Stop ∉ ops →
     (¬ finished s → due s)
     ∧ (finished s →
        (∀ x, x ∈ sl_streamIds s → initStream x true None ∈ o)
        ∧ sl_numStreamsFailedToLoad s = Z.of_nat (length (sl_streamIds s))
        ∧ (given ≠ [] →
           cs_progress (sl_initStatus s)
           = (Z.of_nat (length given) - sl_numStreamsFailedToLoad s, Z.of_nat (length given))))).
Proof.
  intros Hv. pose proof (exec_ids ops (begin highPriorityStreamIds requested given)) as Hids.
  destruct (begin_at highPriorityStreamIds requested given) as (_ & Hb & _).
  destruct (loading_begin highPriorityStreamIds requested given) as [Hl _].
  pose proof (λ Hns, loading_exec given ops [] [] _ _ Hns Hv Hl) as Hrun. simpl in Hrun.
  destruct (exec ops _) as [s o]. simpl in *. split.
  { intros x Hx. apply Hids. unfold books in Hb. injection Hb as -> _. by apply setOf_spec. }
  intros Hns. destruct (Hrun Hns) as (p & [Hat Ht Hn _ Htot] & _). pose proof (at_phase_due p s Hat) as Hdue.
  split; [tauto|]. intros Hf.
  destruct Hdue as [[-> _]|(_ & ? & _)]; [|done]. destruct Hn as (Hask & Hfail & Hst). split_and!; [done..|].
  intros Hne. rewrite Hst. unfold statusOf. cbn [cs_progress]. rewrite Htot, Hfail.
  destruct given; [done|]. by rewrite (proj2 (Z.ltb_lt _ _)) by (simpl; lia).
Qed.

End Phases.

(** ** Runs on concrete streams *)
Module LoadingWitness.
Import ModelEth Fixtures.

(** A space of high priority, a channel and a conversation *)
Definition space : string := "10" +:+ Str.repeat "1"%char 40 +:+ Str.repeat "0"%char 22.
Definition channel : string := "20" +:+ Str.repeat "1"%char 62.
Definition dm : string := "88" +:+ Str.repeat "2"%char 62.

Definition cached (streamId : string) : LoadedStream := {|
  ld_persistedSyncedStream := {|
    pp_streamId := streamId;
    pp_syncCookie := {| ck_nodeAddress := []; ck_streamId := []; ck_minipoolGen := 1; ck_prevMiniblockHash := [] |};
    pp_lastSnapshotMiniblockNum := 0; pp_minipoolEvents := []; pp_lastMiniblockNum := 0 |};
  ld_miniblocks := []; ld_cleartexts := None; ld_snapshot := snapshot []; ld_prependedMiniblocks := [];
  ld_prevSnapshotMiniblockNum := 0 |}.
Definition hits (l : list string) : option (gmap string LoadedStream) :=
  Some (list_to_map ((λ x, (x, cached x)) <$> l)).

Lemma ids_valid : all_valid [space; channel; dm].
Proof.
  intros x Hx. repeat (apply elem_of_cons in Hx as [->|Hx]; [vm_compute; reflexivity|]). by apply not_elem_of_nil in Hx.
Qed.

(** The space and the channel are cached; the network does not know the conversation. *)
Definition session : list LoadOp := [
  TimerFires 0; StreamsLoaded 0 (hits [space]); InitSettled 0 space true; SyncStarted 0; FollowUp;
  TimerFires 1; StreamsLoaded 1 (hits [channel]); InitSettled 1 channel true; FollowUp;
  TimerFires 2; FollowUp; TimerFires 3; FollowUp;
  TimerFires 4; LimitRuns 4 dm; InitSettled 4 dm false; FollowUp].
Definition loaded : Loading * list LoadOut := exec session (begin [space] false [space; channel; dm]).


Lemma session_finished : finished loaded.1 ∧ sl_streamIds loaded.1 = [dm].
Proof. split; [split|]; vm_compute; reflexivity. Qed.
Lemma session_clean : clean_run session (begin [space] false [space; channel; dm]).
Proof.
  repeat (split; [exact I|]). split; [|split; exact I]. intros k pending Hk. exfalso.
  match type of Hk with sl_running ?s !! _ = _ =>
    assert (Hr : sl_running s = {[4%nat := Network [] [dm]]}) by (vm_compute; reflexivity) end.
  rewrite Hr in Hk. by apply lookup_singleton_Some in Hk as [_ [=]].
Qed.

Lemma loading_complete_witness :
  initStream dm true None ∈ loaded.2
  ∧ cs_progress (sl_initStatus loaded.1) = (3 - sl_numStreamsFailedToLoad loaded.1, 3).
Proof.
  pose proof (loading_complete [space] false [space; channel; dm] session ids_valid) as Ht.
  destruct session_finished as [Hf Hids]. unfold loaded in *.
  destruct (exec session (begin [space] false [space; channel; dm])) as [s o]. simpl in Hf, Hids.
  destruct Ht as (_ & Ht). destruct (Ht (clean_unstopped _ _ session_clean)) as [_ Hend].
  destruct (Hend Hf) as (Hask & _ & Hp). split.
  - apply Hask. rewrite Hids. apply list_elem_of_singleton. reflexivity.
  - apply Hp. discriminate.
Defined.


(** A cached space whose first initialisation fails is counted twice: every
    stream is loaded, and the remote data is never reported as loaded. *)
Definition failing : list LoadOp := [
  TimerFires 0; StreamsLoaded 0 (hits [space]); InitSettled 0 space false; SyncStarted 0; FollowUp;
  TimerFires 1; StreamsLoaded 1 (hits [space]); InitSettled 1 space true; FollowUp;
  TimerFires 2; FollowUp; TimerFires 3; FollowUp; TimerFires 4; FollowUp].
Lemma remote_never_loaded :
  let s := (exec failing (begin [space] false [space])).1 in
  sl_tasks s = [] ∧ sl_running s = ∅ ∧ sl_armed s = ∅ ∧ sl_followUps s = 0%nat ∧ sl_streamIds s = []
  ∧ cs_isRemoteDataLoaded (sl_initStatus s) = false.
Proof. split_and!; vm_compute; reflexivity. Qed.

(** The cache fails when it is first read: no status ever reports the local data as loaded. *)
Lemma local_never_loaded :
  let s := (exec [TimerFires 0; StreamsLoaded 0 None; FollowUp; TimerFires 1; LimitRuns 1 space; InitSettled 1 space true; FollowUp]
              (begin [space] false [space])).1 in
  sl_tasks s = [] ∧ sl_running s = ∅ ∧ sl_armed s = ∅ ∧ sl_followUps s = 0%nat ∧ sl_streamIds s = []
  ∧ cs_isHighPriorityDataLoaded (sl_initStatus s) = false ∧ cs_isLocalDataLoaded (sl_initStatus s) = false.
Proof. split_and!; vm_compute; reflexivity. Qed.

(** Stopped while a tick waits for the cache, the loader goes on when the cache answers. *)
Lemma stop_goes_on :
  let s := post stop (exec [TimerFires 0] (begin [space] false [space; channel])).1 in
  (exec [StreamsLoaded 0 (hits []); SyncStarted 0; FollowUp; TimerFires 1] s).2
  = [emitClientInitStatus (sl_initStatus (post (_ ← modify (λ s, s <| sl_didLoadHighPriorityStreams := true |>); emitClientStatus) s));
     startSyncStreams; loadStreams_ [space; channel]].
Proof. vm_compute. reflexivity. Qed.
End LoadingWitness.
