(* ===== verification/Sending.v ===== *)
(** * Sending: adding an event to a stream
    (sdk/src/client.ts: makeEventAndAddToStream,
    makeEventWithHashAndAddToStream; sdk/src/rpcInterceptors.ts: the errors)

    The client makes and signs an event on top of the last miniblock it knows,
    gives the local copy of the message the id of the event, and asks the node
    to add it. Some refusals are answered by another attempt. The method is cut
    where it waits for the node: [attempt] runs up to the request, [answered]
    from the answer to the result or the next attempt. Salts and the clock are
    arguments; one stream of the client is modelled, with the store. *)

From Stdlib Require Import Strings.Ascii Strings.Byte.
From S2P Require Import Prelude JsLib JsMap Ids Proto Types StreamEvents Content TimelinesView StreamState Stream Sign Decryption Persistence SyncedStream.

(** ** Errors of the node (rpcInterceptors.ts) *)

(** [err.message]; those of the database do not get here. *)
Definition messageOf (err : JsError) : string :=
  match err with
  | CodeException m _ | PlainError m | TypeError m | SyntaxError m | RangeError m | DexieError m => m
  end.

(** The codes the client looks for, with [`${error.valueOf()}:${Err[error]}`] *)
Inductive RpcErr := PERMISSION_DENIED | BAD_PREV_MINIBLOCK_HASH | MINIBLOCK_TOO_NEW.
Definition RpcErr_str (error : RpcErr) : string :=
  match error with
  | PERMISSION_DENIED => "7:PERMISSION_DENIED"
  | BAD_PREV_MINIBLOCK_HASH => "24:BAD_PREV_MINIBLOCK_HASH"
  | MINIBLOCK_TOO_NEW => "63:MINIBLOCK_TOO_NEW"
  end.

Definition errorContains (err : JsError) (error : RpcErr) : bool := str_includes (messageOf err) (RpcErr_str error).
Definition errorContainsMessage (err : JsError) (message : string) : bool := str_includes (messageOf err) message.

(** [s.split(separator)] for a separator that is not empty; [skip] characters
    of a separator are left, [part] is the current part. *)
Fixpoint split_loop (separator : string) (skip : nat) (part s : string) : list string :=
  match s with
  | "" => [part]
  | String c s' =>
      match skip with
      | S skip => split_loop separator skip part s'
      | O => if Str.startsWith s separator
             then part :: split_loop separator (String.length separator - 1) "" s'
             else split_loop separator 0 (part +:+ String c "") s'
      end
  end.
Definition split (s separator : string) : list string := split_loop separator 0 "" s.

Definition trim (s : string) : string := trim_end (trim_start s).

Definition getRpcErrorProperty (err : JsError) (prop : string) : option string :=
  match split (messageOf err) (prop +:+ " = ") with
  | [_; rest] => trim <$> head (split rest " ")
  | _ => None
  end.

(** ** The client *)

(** [AddEventResponse.Error] *)
Record AddEventResponse_Error := { ae_code : Z; ae_msg : string; ae_funcs : list string }.

Inductive SendOut :=
  | fromSynced (e : SyncedEmit)
  | addEvent (streamId : bytes) (event : Envelope) (optional : option bool).

(** A stream of the client; [cn_has] tells whether [this.streams] has it. *)
Record Client `{PersistenceCodec} := {
  cn_synced : SyncedEnv;
  cn_has : bool;
  cn_hasUserStreamId : bool;
}.
#[export] Instance eta_Client `{PersistenceCodec} : Eta Client := λ r,
  Build_Client _ (cn_synced r) (cn_has r) (cn_hasUserStreamId r).

(** The arguments of [makeEventWithHashAndAddToStream] after the stream id *)
Record SendArgs := {
  sa_payload : Payload;
  sa_prevMiniblockHash : bytes;
  sa_prevMiniblockNum : Z;
  sa_optional : option bool;
  sa_localId : option string;
  sa_cleartext : option Cleartext;
  sa_tags : option Tags;
  sa_retryCount : option Z;
}.

(** What it returns; the previous hash is that of the last attempt. *)
Record Added := {
  ad_prevMiniblockHash : bytes;
  ad_eventId : string;
  ad_error : option AddEventResponse_Error;
}.

(** What follows an answer: the result, or another attempt after a delay in milliseconds *)
Inductive Next :=
  | Settled (added : Added)
  | RetryAfter (delay : Z) (args : SendArgs).

Section Sending.
Context `{EthLib, Codec, Lodash, CryptoLib, EnvelopeCodec, PersistenceCodec}.

Abbreviation ClM := (M SendOut Client).

Definition on_synced {A} (m : M SyncedEmit SyncedEnv A) : ClM A := λ c,
  match m (cn_synced c) with (r, s, o) => (r, c <| cn_synced := s |>, fromSynced <$> o) end.

Definition assert (condition : bool) (message : string) : ClM unit :=
  if condition then mret tt else throwM (PlainError message).

(** [this.streams.get(streamId)?.updateLocalEvent(...)] *)
Definition updateLocal (localId eventId : string) (status : LocalEventStatus) : ClM unit :=
  c ← getM;
  whenM (cn_has c) (on_synced (super (Stream.updateLocalEvent localId eventId status))).

(** The function [makeRetry] *)
Definition retryArgs (args : SendArgs) (eventId : string) (prevMiniblockHash : bytes) (prevMiniblockNum : Z) : SendArgs := {|
  sa_payload := sa_payload args;
  sa_prevMiniblockHash := prevMiniblockHash;
  sa_prevMiniblockNum := prevMiniblockNum;
  sa_optional := sa_optional args;
  sa_localId := (λ _, eventId) <$> sa_localId args;
  sa_cleartext := sa_cleartext args;
  sa_tags := sa_tags args;
  sa_retryCount := Some (default 0 (sa_retryCount args) + 1) |}.

(** The [catch] block *)
Definition refused (args : SendArgs) (eventId : string) (err : JsError) : ClM Next :=
  let retryCount := default 0 (sa_retryCount args) in
  if errorContains err MINIBLOCK_TOO_NEW then
    mret (RetryAfter 1000 (retryArgs args eventId (sa_prevMiniblockHash args) (sa_prevMiniblockNum args)))
  else if errorContains err BAD_PREV_MINIBLOCK_HASH && (retryCount <? 3) then
    let expectedHash := getRpcErrorProperty err "expected" in
    _ ← check (isDefined expectedHash) "expected hash not found in error" ERR_UNSPECIFIED;
    let expectedMiniblockNum := getRpcErrorProperty err "expNum" in
    _ ← check (isDefined expectedMiniblockNum) "expected miniblock num not found in error" ERR_UNSPECIFIED;
    prevMiniblockHash ← liftR (bin_fromHexString (default "" expectedHash));
    prevMiniblockNum ← liftR (BigInt_string (default "" expectedMiniblockNum));
    mret (RetryAfter 0 (retryArgs args eventId prevMiniblockHash prevMiniblockNum))
  else if errorContains err PERMISSION_DENIED
          && (errorContainsMessage err "Transaction has 0 confirmations."
              || errorContainsMessage err "Transaction receipt not found")
          && (retryCount <? 3) then
    mret (RetryAfter 2000 (retryArgs args eventId (sa_prevMiniblockHash args) (sa_prevMiniblockNum args)))
  else
    _ ← match sa_localId args with
        | Some localId => whenM (truthy_str localId) (updateLocal localId eventId failed)
        | None => mret tt
        end;
    throwM err.

(** The node has answered the request. *)
Definition answered (args : SendArgs) (eventId : string) (answer : Res (option AddEventResponse_Error)) : ClM Next :=
  catchM
    (error ← liftR answer;
     _ ← match sa_localId args with
         | Some localId => whenM (truthy_str localId) (updateLocal localId eventId sent)
         | None => mret tt
         end;
     mret (Settled {| ad_prevMiniblockHash := sa_prevMiniblockHash args; ad_eventId := eventId; ad_error := error |}))
    (refused args eventId).

(** The event is made and the local copy has its id: the cleartext is saved and
    the request made. The result is the id of the event; [inr] when the request
    could not be made, in the [try]. *)
Definition requestEvent (args : SendArgs) (event : Envelope) (streamId : string) : ClM (string + Next) :=
  let eventId := bin_toHexString (env_hash event) in
  _ ← match sa_cleartext args with
      | Some cleartext => on_synced (store (saveCleartext eventId cleartext))
      | None => mret tt
      end;
  match streamIdAsBytes (SStr streamId) with
  | Ok streamIdBytes =>
      _ ← emit true (addEvent streamIdBytes event (sa_optional args));
      mret (inl eventId)
  | Throw err =>
      next ← refused args eventId err;
      mret (inr next)
  end.

(** Up to the request *)
Definition attempt (signerContext : SignerContext) (args : SendArgs) (salt : bytes) (now : Z) : ClM (string + Next) :=
  c ← getM;
  let streamId := streamId_ (cn_synced c) in
  _ ← check (negb (String.eqb streamId "")) "streamId must be defined" ERR_UNSPECIFIED;
  event ← liftR (makeEvent signerContext (sa_payload args) salt now (Some (sa_prevMiniblockHash args))
                   (Some (sa_prevMiniblockNum args)) (sa_tags args));
  let eventId := bin_toHexString (env_hash event) in
  _ ← match sa_localId args with
      | Some localId =>
          whenM (truthy_str localId)
            (_ ← assert (cn_has c) ("unknown stream " +:+ streamId);
             on_synced (super (Stream.updateLocalEvent localId eventId sending)))
      | None => mret tt
      end;
  requestEvent args event streamId.

(** [makeEventAndAddToStream] up to its call of the method above *)
Definition makeEventAndAddToStream (payload : Payload) (optional : option bool) (localId : option string)
    (cleartext : option Cleartext) (tags : option Tags) : ClM SendArgs :=
  c ← getM;
  let streamId := streamId_ (cn_synced c) in
  _ ← assert (cn_hasUserStreamId c) "userStreamId must be set";
  _ ← assert (cn_has c) ("unknown stream " +:+ streamId);
  let view := view_ (cn_synced c) in
  _ ← assert (isDefined (prevMiniblockHash view)) ("no prev miniblock hash for stream " +:+ streamId);
  _ ← assert (isDefined (prevMiniblockNum view)) ("no prev miniblock num for stream " +:+ streamId);
  mret {| sa_payload := payload;
          sa_prevMiniblockHash := default [] (prevMiniblockHash view);
          sa_prevMiniblockNum := default 0 (prevMiniblockNum view);
          sa_optional := optional; sa_localId := localId; sa_cleartext := cleartext; sa_tags := tags;
          sa_retryCount := None |}.
End Sending.
