(* ===== verification/LocalCopyFacts.v ===== *)
(** * LocalCopyFacts: the local copy of a message while it is sent

    Between an attempt to send a message and the answer, and between an answer and
    the next attempt, the stream goes on: events arrive and are confirmed, older
    ones are fetched, content is decrypted, other messages are sent. None of it
    touches the local copy of the message, unless a miniblock confirms it. *)

From Stdlib Require Import Strings.Ascii Strings.Byte.
From S2P Require Import Prelude JsLib JsMap Ids IdsFacts Proto Types TimelineTypes StreamEvents StreamViews Content ContentLaws Members Timelines TimelinesView StreamState StreamStateFacts StreamFacts.

Section Copy.
Context `{EthLib, Codec, Lodash}.
Context (o : ObjId) (localId id : string) (status : LocalEventStatus).

(** The object [o] is the local copy of a message, in the pool under [id], and
    there is nothing else under its former id. *)
Record copy (env : SEnv) : Prop := {
  cp_heap : heap_wf (heap env);
  cp_pool : minipoolEvents (self env) !! id = Some o;
  cp_local : localId = id ∨ minipoolEvents (self env) !! localId = None;
  cp_status : ∃ e l, get_obj o (heap env) = Some e ∧ ste_localEvent e = Some l ∧ le_status l = status;
}.
Definition leaves : relation SEnv := λ env env', copy env → copy env'.
#[local] Instance leaves_preorder : PreOrder leaves.
Proof. split; [by intros env Hc|]. intros e1 e2 e3 H12 H23 Hc. auto. Qed.

Lemma leaves_same env env' : heap_same (heap env) (heap env') →
  minipoolEvents (self env') = minipoolEvents (self env) → leaves env env'.
Proof.
  intros Hh Hp [Hw Ho Hl (e & l & He & Hle & Hs)]. destruct (Hh Hw) as (Hw' & _ & Hk).
  destruct (Hk o e He) as (e' & He' & E). split; rewrite ?Hp; [done..|]. exists e', l. split_and!; [done| |done].
  unfold same_event in E. destruct e, e'. simpl in *. congruence.
Qed.
Lemma leaves_quiet {A} (m : SM A) : moves quiet m → moves leaves m.
Proof.
  intros Hm env. destruct (Hm env) as [Hh Hs]. apply leaves_same; [by apply heap_ext_same|].
  unfold shell in Hs. by simplify_eq.
Qed.
Lemma leaves_on_self f : (∀ s, minipoolEvents (f s) = minipoolEvents s) → moves leaves (on_self f).
Proof. intros Hf env. apply leaves_same; [reflexivity|apply Hf]. Qed.
Lemma leaves_mutate o' f : (∀ e, ste_localEvent (f e) = ste_localEvent e) → moves leaves (mutate o' f).
Proof.
  intros Hf env [Hw Ho Hl (e & l & He & Hle & Hs)]. split; simpl; [|done|done|].
  - intros o''. simpl. rewrite lookup_alter_is_Some. apply Hw.
  - rewrite get_obj_update, He. case_decide; [|by exists e, l]. eexists _, l. split_and!; [done| |done]. by rewrite Hf.
Qed.
Lemma leaves_newEvent e : moves leaves (newEvent e : SM ObjId).
Proof. intros env. apply leaves_same; [|done]. apply heap_ext_same, (heap_ext_alloc e). Qed.
Lemma leaves_updateMiniblockInfo value max min : moves leaves (updateMiniblockInfo value max min).
Proof. apply leaves_on_self. intros s. by destruct (miniblockInfo s). Qed.
#[local] Hint Resolve leaves_newEvent leaves_updateMiniblockInfo : moves.
#[local] Hint Extern 2 (moves leaves (on_self _)) => apply leaves_on_self; intros; reflexivity : moves.
#[local] Hint Extern 2 (moves leaves (mutate _ _)) => apply leaves_mutate; intros; reflexivity : moves.
#[local] Hint Extern 2 (moves leaves (on_timelines _)) => apply leaves_quiet, moves_quiet_timelines : moves.
#[local] Hint Extern 2 (moves leaves (on_members _)) =>
  apply leaves_quiet, moves_quiet_part, moves_on_members; auto with moves nocore : moves.
#[local] Hint Extern 2 (moves leaves (getContent _)) =>
  apply leaves_quiet, moves_quiet_part, moves_getContent; intros; auto with moves nocore : moves.

(** ** Events that arrive *)

(** The event is not a header that confirms the copy, and does not come under the
    former id of the message; it may be the event of the message itself. *)
Definition spares_event (p : ParsedEvent) : Prop :=
  (localId = id ∨ pe_hashStr p ≠ localId)
  ∧ ∀ value, ev_payload (pe_event p) = P_miniblockHeader value → id ∉ bin_toHexString <$> mh_eventHashes value.

Lemma leaves_delete k : k ≠ id → moves leaves (on_self (λ s, s <| minipoolEvents ::= delete k |>)).
Proof.
  intros Hk env [Hw Ho Hl Hs]. split; simpl; [done| | |done].
  - by rewrite jm_lookup_delete, decide_False.
  - destruct Hl as [->|Hl]; [by left|]. right. rewrite jm_lookup_delete. by case_decide.
Qed.
Lemma leaves_header_loop hd hashes i acc enc st : id ∉ bin_toHexString <$> hashes →
  moves leaves (processMiniblockHeader_loop hd hashes i acc enc st).
Proof.
  revert i acc. induction hashes as [|h hashes IH]; intros i acc Hn; cbn [processMiniblockHeader_loop]; [moves|].
  rewrite fmap_cons, not_elem_of_cons in Hn. destruct Hn as [Hne Hn].
  apply moves_bind; [typeclasses eauto|moves|intros this]. destruct (minipoolEvents this !! _); [|by apply IH].
  apply moves_bind; [typeclasses eauto|by apply leaves_delete|intros ?].
  do 4 (apply moves_bind; [typeclasses eauto|moves|intros ?]). by apply IH.
Qed.
Lemma leaves_append_payload o' p ct enc st : spares_event p → moves leaves (append_payload o' p ct enc st).
Proof.
  intros [_ Hh]. unfold append_payload. destruct (ev_payload (pe_event p)); try solve [moves].
  apply moves_bind; [typeclasses eauto| |intros ?; moves]. unfold append_header.
  do 5 (apply moves_bind; [typeclasses eauto|moves|intros ?]). by apply leaves_header_loop, Hh.
Qed.

Lemma leaves_append_one acc p cts enc st : spares_event p → moves leaves (append_one acc p cts enc st).
Proof.
  intros Hp env. destruct (minipoolEvents (self env) !! pe_hashStr p) as [o'|] eqn:Ho.
  - destruct (append_one_existing acc p cts enc st o' env Ho) as [-> _].
    by apply (leaves_mutate o' (λ e, e <| ste_remoteEvent := Some p |>)).
  - destruct (append_one_new acc p cts enc st env Ho) as [-> _].
    set (e := makeRemoteTimelineEvent _ _ _ _). etrans; [|by apply leaves_append_payload].
    trans (fresh p env).
    { etrans; [apply (leaves_newEvent e)|]. by apply (leaves_on_self (λ s, s <| lastEventNum ::= λ n, n + 1 |>)). }
    unfold pooled. destruct (isHeader p); [reflexivity|]. intros [Hw Hi Hl Hs]. split; simpl; [done| | |done].
    + rewrite jm_lookup_insert_ne; [done|]. intros E. simpl in Hi, E. congruence.
    + destruct Hl as [->|Hl]; [by left|]. destruct Hp as [[->|Hne] _]; [by left|]. right. by rewrite jm_lookup_insert_ne.
Qed.
Lemma leaves_append_loop events acc cts enc st : Forall spares_event events →
  moves leaves (append_loop events acc cts enc st).
Proof.
  intros He. revert acc. induction He as [|p events Hp He IH]; intros acc; cbn [append_loop]; [moves|].
  apply moves_bind; [typeclasses eauto|by apply leaves_append_one|intros ?; apply IH].
Qed.
Lemma leaves_derefs l : moves leaves (derefs l).
Proof. induction l; cbn [derefs]; moves. Qed.
#[local] Hint Resolve leaves_derefs : moves.
Lemma leaves_appendEvents events cookie cts : Forall spares_event events → moves leaves (appendEvents events cookie cts).
Proof.
  intros He. unfold appendEvents, appendStreamAndCookie. apply moves_bind; [typeclasses eauto| |intros ?; moves].
  apply moves_bind; [typeclasses eauto|by apply leaves_append_loop|intros ?; moves].
Qed.

(** ** Events that were fetched, and content that was decrypted *)

Lemma leaves_processPrependedEvent o' ct enc st : moves leaves (processPrependedEvent o' ct enc st).
Proof. unfold processPrependedEvent, remoteOf, prepend_payload. moves. Qed.
#[local] Hint Resolve leaves_processPrependedEvent : moves.
Lemma leaves_miniblockEvents hd i events : moves leaves (miniblockEvents hd i events).
Proof. revert i. induction events; intros i; cbn [miniblockEvents]; moves. Qed.
#[local] Hint Resolve leaves_miniblockEvents : moves.
Lemma leaves_flatEvents mbs : moves leaves (flatEvents mbs).
Proof. induction mbs; cbn [flatEvents]; moves. Qed.
#[local] Hint Resolve leaves_flatEvents : moves.
Lemma leaves_prependEvents mbs cts terminus enc st : moves leaves (prependEvents mbs cts terminus enc st).
Proof. unfold prependEvents, prepend_object. moves. Qed.
Lemma leaves_updateDecryptedContent eventId content : moves leaves (updateDecryptedContent eventId content).
Proof. unfold updateDecryptedContent. moves. Qed.
Lemma leaves_updateDecryptedContentError eventId err : moves leaves (updateDecryptedContentError eventId err).
Proof. unfold updateDecryptedContentError. moves. Qed.

(** ** Other messages *)

Lemma leaves_appendLocalEvent msg st em random now env : "~" +:+ random ≠ id → "~" +:+ random ≠ localId →
  leaves env (post (appendLocalEvent msg st em random now) env).
Proof.
  intros Hi Hl. pose proof (appendLocalEvent_quiet msg st em random now env) as [Hh Hs].
  etrans; [|apply leaves_same; [by apply heap_ext_same|unfold shell in Hs; by simplify_eq]].
  intros Hc. apply (leaves_newEvent (localEvent msg st random now (self env))) in Hc as [Hw Ho Hl' Hst].
  split; simpl; [done| | |done].
  - by rewrite jm_lookup_insert_ne.
  - destruct Hl' as [->|Hl']; [by left|]. right. by rewrite jm_lookup_insert_ne.
Qed.

(** [updateLocalEvent] of a message with other ids *)
Lemma leaves_updateLocalEvent localId' hash st env : localId' ≠ id → hash ≠ id → hash ≠ localId → stream_wf env →
  leaves env (post (updateLocalEvent localId' hash st) env).
Proof.
  intros Hl Hi Hhl Hw. unfold updateLocalEvent. rewrite post_bind_gets.
  destruct (nullish _ _) as [o'|] eqn:En; [|reflexivity].
  assert (∃ k, k ≠ id ∧ minipoolEvents (self env) !! k = Some o') as (k & Hk & Ho').
  { destruct (minipoolEvents (self env) !! localId') as [?|] eqn:E; simpl in En; simplify_eq; [by exists localId'|by exists hash]. }
  destruct (wf_pool _ Hw _ _ Ho') as (e & He & Hek). at_event He. destruct (isLocalEvent e); [|run; reflexivity]. run_env.
  match goal with |- leaves _ (post ?m ?env1) => trans env1; [|assert (Hm : moves leaves m) by moves; apply Hm] end.
  intros [Hwh Ho Hlo (e0 & l & He0 & Hle & Hs)].
  assert (Hne : o ≠ o'). { intros ->. destruct (wf_pool _ Hw _ _ Ho) as (e' & ? & ?). congruence. }
  split; simpl.
  - intros o''. simpl. rewrite lookup_alter_is_Some. apply Hwh.
  - rewrite jm_lookup_insert_ne, jm_lookup_delete, decide_False by congruence. done.
  - destruct Hlo as [->|Hlo]; [by left|]. right. rewrite jm_lookup_insert_ne, jm_lookup_delete by congruence. by case_decide.
  - rewrite get_obj_update, decide_False by done. by exists e0, l.
Qed.
End Copy.
