(* ===== verification/SendingFacts.v ===== *)
(** * SendingFacts: what becomes of a message that is sent

    The local copy of a message follows the attempts to send it: it always
    carries the id of the event that was made last, and ends as sent or as
    failed. *)

From Stdlib Require Import Strings.Ascii Strings.Byte.
From S2P Require Import Prelude JsLib JsMap Ids IdsFacts Proto Types TimelineTypes StreamEvents Content Fixtures Timelines TimelinesView StreamState StreamStateFacts StreamFacts Stream StreamLifecycle Sign SignFacts Unpack Persistence PersistenceFacts SyncedStream SyncedStreamFacts LocalCopyFacts Sending.

Section Sending.
Context `{EthLib, Codec, Lodash, CryptoLib, EnvelopeCodec, PersistenceCodec}.

(** The view of the stream, with the heap and the stores *)
Definition venv (c : Client) : SEnv :=
  let env := se_env (cn_synced c) in Build_Env (heap env) (view env) (st_view (self env)).
Definition pool (c : Client) : jsmap string ObjId := minipoolEvents (view_ (cn_synced c)).

(** The object [o] is the local copy of a message, in the pool under [id]. *)
Record held (o : ObjId) (id : string) (status : LocalEventStatus) (c : Client) : Prop := {
  hd_has : cn_has c = true;
  hd_wf : stream_wf (venv c);
  hd_pool : pool c !! id = Some o;
  hd_status : ∃ e l, get_obj o (heap (venv c)) = Some e ∧ ste_localEvent e = Some l ∧ le_status l = status;
}.

(** [updateLocalEvent(localId, id, ...)] finds it. *)
Definition ready (o : ObjId) (localId id : string) (status : LocalEventStatus) (c : Client) : Prop :=
  held o id status c ∧ nullish (pool c !! localId) (pool c !! id) = Some o.

Lemma held_ready o id status c : held o id status c → ready o id id status c.
Proof. intros Hh. split; [done|]. unfold nullish. by rewrite (hd_pool _ _ _ _ Hh). Qed.

Lemma on_synced_super {A} (m : SM A) c :
  venv (post (on_synced (super (with_view m))) c) = post m (venv c)
  ∧ cn_has (post (on_synced (super (with_view m))) c) = cn_has c
  ∧ res (on_synced (super (with_view m))) c = res m (venv c).
Proof.
  unfold venv, post, res, on_synced, super, with_view. simpl.
  destruct (m _) as [[r e] o]. simpl. by destruct e.
Qed.

(** The update moves the object to the new id, also when the timeline throws. *)
Lemma renamed o e id status localId h status' env :
  stream_wf env → minipoolEvents (self env) !! id = Some o → get_obj o (heap env) = Some e → isLocalEvent e = true →
  le_status <$> ste_localEvent e = Some status →
  nullish (minipoolEvents (self env) !! localId) (minipoolEvents (self env) !! h) = Some o →
  let env' := post (StreamState.updateLocalEvent localId h status') env in
  minipoolEvents (self env') !! h = Some o
  ∧ nullish (minipoolEvents (self env') !! localId) (minipoolEvents (self env') !! h) = Some o
  ∧ ∃ e' l, get_obj o (heap env') = Some e' ∧ ste_localEvent e' = Some l ∧ le_status l = status'.
Proof.
  intros Hw Hid He Hl Hst Hn env'.
  assert (Hq : quiet (env <| heap ::= update_obj o (λ e, e <| ste_hashStr := h |>
                              <| ste_localEvent ::= fmap (λ l, l <| le_status := status' |>) |>) |>
                          <| self ::= λ s, s <| minipoolEvents ::= λ m, <[h := o]> (delete (ste_hashStr e) m) |> |>) env').
  { unfold env', StreamState.updateLocalEvent. rewrite post_bind_gets, Hn. cbv iota. at_event He. rewrite Hl. run_env.
    apply (moves_bind quiet); [moves|intros ?; moves]. }
  destruct (quiet_self _ _ Hq) as [Hp _]. simpl in Hp. 
  destruct (ste_localEvent e) as [l|] eqn:El; [|done].
  split_and!.
  - rewrite Hp. apply jm_lookup_insert_eq.
  - rewrite Hp, jm_lookup_insert_eq. destruct (decide (h = localId)) as [->|Hne]; [by rewrite jm_lookup_insert_eq|].
    rewrite jm_lookup_insert_ne by done. rewrite jm_lookup_delete. case_decide as Hd; [done|].
    destruct (minipoolEvents (self env) !! localId) as [o'|] eqn:E; [|done]. simpl in Hn. injection Hn as ->.
    destruct (wf_pool _ Hw _ _ E) as (e' & He' & Hk). congruence.
  - destruct (quiet_obj _ _ o (e <| ste_hashStr := h |> <| ste_localEvent ::= fmap (λ l, l <| le_status := status' |>) |>) Hq)
      as [d Hd].
    + intros o'. simpl. rewrite lookup_alter_is_Some. apply (wf_heap _ Hw).
    + simpl. rewrite get_obj_update, decide_True by done. by rewrite He.
    + eexists _, (l <| le_status := status' |>). split; [exact Hd|]. simpl. by rewrite El.
Qed.

Lemma update_ready o localId id h status status' c :
  held o id status c → nullish (pool c !! localId) (pool c !! h) = Some o →
  ready o localId h status' (post (on_synced (super (Stream.updateLocalEvent localId h status'))) c).
Proof.
  intros [Hhas Hw Hp (e & l & He & Hl & Hst)] Hn.
  destruct (on_synced_super (StreamState.updateLocalEvent localId h status') c) as (Hv & Hc & _).
  destruct (renamed o e id status localId h status' (venv c)) as (Hp' & Hn' & Hst'); try done.
  { unfold isLocalEvent. by rewrite Hl. } { rewrite Hl. simpl. congruence. }
  assert (Hpool : ∀ c, pool c = minipoolEvents (self (venv c))) by done.
  split; [split|]; unfold Stream.updateLocalEvent.
  - by rewrite Hc.
  - rewrite Hv. by apply (vs_wf _ _ (moves_updateLocalEvent localId h status' (venv c))).
  - by rewrite Hpool, Hv.
  - by rewrite Hv.
  - by rewrite Hpool, Hv.
Qed.

Lemma on_synced_store {A} (m : M Empty_set PersistenceStore A) c :
  venv (post (on_synced (store m)) c) = venv c ∧ cn_has (post (on_synced (store m)) c) = cn_has c.
Proof.
  unfold venv, post, on_synced, store. simpl. destruct (m _) as [[r e] o]. by simpl.
Qed.

Lemma super_then {A} (m : StM A) s : post (super (m ≫= λ _, mret tt)) s = post (super m) s.
Proof. unfold post, super. cbv [mbind M_bind]. by destruct (m (se_env s)) as [[[a|e] t] os]. Qed.

Lemma ready_same o localId id status c c' :
  venv c' = venv c → cn_has c' = cn_has c → ready o localId id status c → ready o localId id status c'.
Proof.
  intros Hv Hc [[Hh Hw Hp Hs] Hn].
  assert (Hpool : pool c' = pool c) by exact (f_equal (λ e : SEnv, minipoolEvents (self e)) Hv).
  split; [split|]; rewrite ?Hpool, ?Hv, ?Hc; done.
Qed.

Lemma then_throws {A B} (m : M SendOut Client A) err c :
  ∃ e, res (m ≫= λ _, throwM (A:=B) err) c = Throw e ∧ post (m ≫= λ _, throwM (A:=B) err) c = post m c.
Proof. unfold res, post. cbv [mbind M_bind]. destruct (m c) as [[[a|e] c'] o]; by eexists. Qed.

(** The node asks for an event on another miniblock, without naming that properly. *)
Definition unnamed (err : JsError) : bool :=
  errorContains err BAD_PREV_MINIBLOCK_HASH &&
  match getRpcErrorProperty err "expected", getRpcErrorProperty err "expNum" with
  | Some hash, Some num => negb (is_Ok (bin_fromHexString hash) && is_Ok (BigInt_string num))
  | _, _ => true
  end.

(** The [catch] block: the copy has failed, or another attempt follows. *)
Lemma refused_ready o localId id status args err c :
  sa_localId args = Some localId → truthy_str localId = true → ready o localId id status c →
  let c' := post (refused args id err) c in
  match res (refused args id err) c with
  | Ok (Settled _) => False
  | Ok (RetryAfter _ args') =>
      ready o localId id status c' ∧ sa_localId args' = Some id
      ∧ sa_retryCount args' = Some (default 0 (sa_retryCount args) + 1)
      ∧ (errorContains err MINIBLOCK_TOO_NEW = true ∨ default 0 (sa_retryCount args) < 3)
  | Throw _ => ready o localId id failed c'
      ∨ ready o localId id status c' ∧ unnamed err = true ∧ default 0 (sa_retryCount args) < 3
  end.
Proof.
  intros Hl Ht Hr. unfold refused. rewrite Hl, Ht.
  destruct (errorContains err MINIBLOCK_TOO_NEW); [run; simpl; rewrite Hl; by auto|].
  destruct (errorContains err BAD_PREV_MINIBLOCK_HASH && _) eqn:Eb.
  - apply andb_true_iff in Eb as [Eb Hlt%Z.ltb_lt]. unfold unnamed. rewrite Eb.
    destruct (getRpcErrorProperty err "expected") as [hash|]; [|run; by right].
    destruct (getRpcErrorProperty err "expNum") as [num|]; [|run; by right].
    unfold check. cbn [isDefined default from_option]. run. unfold Datatypes.id.
    destruct (bin_fromHexString hash); [|run; by right]. run.
    destruct (BigInt_string num); run; [|by right]. simpl. rewrite Hl. by auto.
  - destruct (errorContains err PERMISSION_DENIED && _ && _) eqn:Ep.
    { apply andb_true_iff in Ep as [_ Hlt%Z.ltb_lt]. run. simpl. rewrite Hl. by auto. }
    cbn [whenM]. unfold updateLocal. run. rewrite (hd_has _ _ _ _ (proj1 Hr)). cbn [whenM].
    destruct Hr as [Hh Hn]. pose proof (update_ready o localId id id status failed c Hh Hn) as Hu.
    destruct (then_throws (on_synced (super (updateLocalEvent localId id failed))) err c (B:=Next)) as (e' & -> & ->). by left.
Qed.

Context `{!EthLaws}.

Lemma made_id context payload salt now prevHash prevNum tags event :
  makeEvent context payload salt now prevHash prevNum tags = Ok event → truthy_str (bin_toHexString (env_hash event)) = true.
Proof.
  unfold makeEvent, makeEvent_impl. intros Hm. repeat (apply bind_Ok in Hm as (? & _ & Hm)). injection Hm as <-. simpl.
  unfold truthy_str. apply negb_true_iff, String.eqb_neq. intros E. apply (f_equal String.length) in E.
  unfold bin_toHexString, riverHash in E. by rewrite bytesToHex_length, keccak256_length in E.
Qed.

Lemma bind_fails {A B} (m : M SendOut Client A) (k : A → M SendOut Client B) e c :
  res m c = Throw e → res (m ≫= k) c = Throw e ∧ post (m ≫= k) c = post m c.
Proof. unfold res, post. cbv [mbind M_bind]. destruct (m c) as [[[a|?] c'] o]; simpl; [done|]. by intros [= ->]. Qed.

(** How the copy stands after a stretch that ends in a request *)
Definition attempted (o : ObjId) (localId : string) (args : SendArgs) (r : Res (string + Next)) (c : Client) (out : list SendOut) : Prop :=
  match r with
  | Ok (inl id) => ready o localId id sending c ∧ truthy_str id = true
      ∧ ∃ sid event, addEvent sid event (sa_optional args) ∈ out ∧ bin_toHexString (env_hash event) = id
  | Ok (inr (Settled _)) => False
  | Ok (inr (RetryAfter _ args')) => ∃ id, ready o localId id sending c ∧ truthy_str id = true ∧ sa_localId args' = Some id
      ∧ sa_retryCount args' = Some (default 0 (sa_retryCount args) + 1)
  | Throw _ => ∃ id status, held o id status c
  end.

Lemma request_attempted o localId args event streamId c :
  sa_localId args = Some localId → truthy_str localId = true → truthy_str (bin_toHexString (env_hash event)) = true →
  ready o localId (bin_toHexString (env_hash event)) sending c →
  attempted o localId args (res (requestEvent args event streamId) c) (post (requestEvent args event streamId) c)
    (out (requestEvent args event streamId) c).
Proof.
  intros Hl Ht Hid Hr. unfold requestEvent. set (id := bin_toHexString (env_hash event)) in *.
  set (save := match sa_cleartext args with Some _ => _ | None => _ end).
  assert (Hs : ready o localId id sending (post save c)).
  { unfold save. destruct (sa_cleartext args); [|done]. destruct (on_synced_store (saveCleartext id c0) c). by apply (ready_same _ _ _ _ c). }
  destruct (res save c) as [[]|e] eqn:Es.
  2: { destruct (bind_fails save (λ _, match streamIdAsBytes (SStr streamId) with
         | Ok b => _ ← emit true (addEvent b event (sa_optional args)); mret (inl id)
         | Throw err => next ← refused args id err; mret (inr next) end) e c Es) as [Hres Hpost].
       rewrite Hres, Hpost. exists id, sending. apply Hs. }
  rewrite (res_bind_ok _ _ _ _ Es), (post_bind_ok _ _ _ _ Es), (out_bind_ok _ _ _ _ Es).
  destruct (streamIdAsBytes _) as [b|err].
  - run. split; [done|]. split; [done|]. exists b, event. split; [|done]. rewrite elem_of_app. right. by left.
  - pose proof (refused_ready o localId id sending args err (post save c) Hl Ht Hs) as Hf. cbv zeta in Hf.
    destruct (res (refused args id err) _) as [[added|d args']|e] eqn:Er; [done| |].
    + rewrite (res_bind_ok _ _ _ _ Er), (post_bind_ok _ _ _ _ Er). run. exists id. by destruct Hf as (? & ? & ? & _).
    + destruct (bind_fails _ (λ next, mret (inr next : string + Next)) e _ Er) as [-> ->].
      destruct Hf as [[Hf _]|[[Hf _] _]]; eexists _, _; exact Hf.
Qed.

Lemma attempt_attempted o localId status context args salt now c :
  sa_localId args = Some localId → truthy_str localId = true → held o localId status c →
  attempted o localId args (res (attempt context args salt now) c) (post (attempt context args salt now) c)
    (out (attempt context args salt now) c).
Proof.
  intros Hl Ht Hh. unfold attempt. run. rewrite Hl, Ht.
  destruct (String.eqb _ ""); cbn [negb]; [run; by exists localId, status|]. run.
  destruct (makeEvent _ _ _ _ _ _ _) as [event|e] eqn:Em; [|run; by exists localId, status]. run.
  cbn [whenM]. unfold assert. rewrite (hd_has _ _ _ _ Hh). run.
  set (id := bin_toHexString (env_hash event)).
  assert (Hu : ready o localId id sending (post (on_synced (super (updateLocalEvent localId id sending))) c)).
  { apply (update_ready o localId localId id status); [done|]. unfold nullish. by rewrite (hd_pool _ _ _ _ Hh). }
  set (m := on_synced (super (updateLocalEvent localId id sending))) in *.
  destruct (res m c) as [[]|e] eqn:Er.
  - rewrite (res_bind_ok _ _ _ _ Er), (post_bind_ok _ _ _ _ Er), (out_bind_ok _ _ _ _ Er).
    pose proof (request_attempted o localId args event (streamId_ (cn_synced c)) (post m c) Hl Ht (made_id _ _ _ _ _ _ _ _ Em) Hu) as Hq.
    destruct (res (requestEvent _ _ _) _) as [[id'|[|]]|]; try exact Hq.
    destruct Hq as (? & ? & sid & event' & Hin & ?). split; [done|]. split; [done|]. exists sid, event'.
    rewrite elem_of_app. by auto.
  - destruct (bind_fails m (λ _, requestEvent args event (streamId_ (cn_synced c))) e c Er) as [-> ->].
    exists id, sending. apply Hu.
Qed.

Lemma catch_ok {A} (m : M SendOut Client A) h a c :
  res m c = Ok a → res (catchM m h) c = Ok a ∧ post (catchM m h) c = post m c.
Proof. unfold res, post, catchM. destruct (m c) as [[[?|?] c'] o]; simpl; [by intros [= ->]|done]. Qed.
Lemma catch_throw {A} (m : M SendOut Client A) h e c :
  res m c = Throw e → res (catchM m h) c = res (h e) (post m c) ∧ post (catchM m h) c = post (h e) (post m c).
Proof.
  unfold res, post, catchM. destruct (m c) as [[[?|?] c'] o]; simpl; [done|]. intros [= ->]. by destruct (h e c') as [[??]?].
Qed.

(** The answer: sent, failed, or another attempt *)
Lemma answered_ready o localId id args answer c :
  sa_localId args = Some localId → truthy_str localId = true → ready o localId id sending c →
  let c' := post (answered args id answer) c in
  match res (answered args id answer) c, answer with
  | Ok (Settled added), Ok error => ready o localId id sent c' ∧ ad_eventId added = id ∧ ad_error added = error
  | Ok (Settled _), Throw _ => False
  | Ok (RetryAfter _ args'), _ => (∃ status, ready o localId id status c') ∧ sa_localId args' = Some id
      ∧ sa_retryCount args' = Some (default 0 (sa_retryCount args) + 1)
      ∧ (∀ err, answer = Throw err → errorContains err MINIBLOCK_TOO_NEW = true ∨ default 0 (sa_retryCount args) < 3)
  | Throw _, Ok _ => ∃ status, ready o localId id status c'
  | Throw _, Throw err => ready o localId id failed c'
      ∨ ready o localId id sending c' ∧ unnamed err = true ∧ default 0 (sa_retryCount args) < 3
  end.
Proof.
  intros Hl Ht Hr. unfold answered. rewrite Hl, Ht. cbn [whenM]. set (body := _ ≫= _).
  assert (Hbody : match answer with
    | Throw err => res body c = Throw err ∧ post body c = c
    | Ok error => ready o localId id sent (post body c) ∧ ∀ next, res body c = Ok next →
        next = Settled {| ad_prevMiniblockHash := sa_prevMiniblockHash args; ad_eventId := id; ad_error := error |}
    end).
  { unfold body. destruct answer as [error|err]; run; [|done].
    unfold updateLocal. run. rewrite (hd_has _ _ _ _ (proj1 Hr)). cbn [whenM].
    pose proof (update_ready o localId id id sending sent c (proj1 Hr) (proj2 Hr)) as Hu.
    set (m := on_synced (super (updateLocalEvent localId id sent))) in *. destruct (res m c) as [[]|e] eqn:Er.
    - rewrite (post_bind_ok _ _ _ _ Er), (res_bind_ok _ _ _ _ Er). run. split; [done|]. by intros next [= <-].
    - destruct (bind_fails m (λ _, mret (Settled {| ad_prevMiniblockHash := sa_prevMiniblockHash args; ad_eventId := id;
        ad_error := error |})) e c Er) as [-> ->]. by split. }
  clearbody body. destruct answer as [error|err].
  - destruct Hbody as [Hs Hn]. destruct (res body c) as [next|e] eqn:Er.
    + destruct (catch_ok body (refused args id) next c Er) as [-> ->]. by rewrite (Hn next eq_refl).
    + destruct (catch_throw body (refused args id) e c Er) as [-> ->].
      pose proof (refused_ready o localId id sent args e _ Hl Ht Hs) as Hf. cbv zeta in Hf.
      destruct (res (refused args id e) _) as [[|]|]; [done| |].
      * destruct Hf as (? & ? & ? & _). split_and!; [by eexists|done|done|done].
      * destruct Hf as [?|[? _]]; by eexists.
  - destruct Hbody as [Er Hp]. destruct (catch_throw body (refused args id) err c Er) as [-> ->]. rewrite Hp.
    pose proof (refused_ready o localId id sending args err c Hl Ht Hr) as Hf. cbv zeta in Hf.
    destruct (res (refused args id err) _) as [[|]|]; [done| |done].
    destruct Hf as (? & ? & ? & ?). split_and!; [by eexists|done|done|]. by intros ? [= <-].
Qed.

(** ** While the client waits *)

(** What happens to the stream meanwhile *)
Inductive Meanwhile :=
  | W_append (events : list ParsedEvent) (cookie : SyncCookie) (snapshot : option ParsedSnapshot) (cleartexts : Cleartexts)
  | W_prepend (miniblocks : list ParsedMiniblock) (cleartexts : Cleartexts) (terminus : bool)
  | W_decrypted (eventId : string) (content : DecryptedContent)
  | W_decryptedError (eventId : string) (err : DecryptionSessionError)
  | W_appendLocal (message : ChannelMessage) (status : LocalEventStatus) (random : string) (now : Z)
  | W_updateLocal (localId hash : string) (status : LocalEventStatus)
  | W_resetUpToDate
  | W_save (op : StoreOp).

Definition meanwhile (op : Meanwhile) : M SyncedEmit SyncedEnv unit :=
  match op with
  | W_append events cookie snapshot cleartexts => SyncedStream.appendEvents events cookie snapshot cleartexts
  | W_prepend miniblocks cleartexts terminus => super (Stream.prependEvents miniblocks cleartexts terminus)
  | W_decrypted eventId content => super (Stream.updateDecryptedContent eventId content)
  | W_decryptedError eventId err => super (Stream.updateDecryptedContentError eventId err)
  | W_appendLocal message status random now => _ ← super (Stream.appendLocalEvent message status random now); mret tt
  | W_updateLocal localId hash status => super (Stream.updateLocalEvent localId hash status)
  | W_resetUpToDate => resetUpToDate
  | W_save op => store (save op)
  end.

(** It is about other messages: no miniblock confirms the event [id] of this one,
    and its ids are not those of another one. The event itself may arrive. *)
Definition spares (localId id : string) (op : Meanwhile) : Prop :=
  match op with
  | W_append events _ _ _ => Forall (spares_event localId id) events
  | W_appendLocal _ _ random _ => "~" +:+ random ≠ id ∧ "~" +:+ random ≠ localId
  | W_updateLocal localId' hash _ => localId' ≠ id ∧ hash ≠ id ∧ hash ≠ localId
  | _ => True
  end.
Definition waits (localId id : string) (c c' : Client) : Prop :=
  ∃ ops, Forall (spares localId id) ops ∧ c' = foldl (λ c op, post (on_synced (meanwhile op)) c) c ops.

Definition venv_ (s : SyncedEnv) : SEnv := Build_Env (heap (se_env s)) (view (se_env s)) (view_ s).
Definition stays (o : ObjId) (localId id : string) (status : LocalEventStatus) : relation SyncedEnv := λ s s',
  stream_wf (venv_ s) ∧ copy o localId id status (venv_ s) → stream_wf (venv_ s') ∧ copy o localId id status (venv_ s').

Section Waiting.
Context (o : ObjId) (localId id : string) (status : LocalEventStatus).
Abbreviation stays := (stays o localId id status).
#[local] Instance stays_preorder : PreOrder stays.
Proof. split; [by intros s Hs|]. intros s1 s2 s3 H12 H23 Hs. auto. Qed.
Lemma stays_super {A} (m : SM A) :
  moves view_step m → (∀ env, stream_wf env → leaves o localId id status env (post m env)) →
  moves stays (super (with_view m)).
Proof.
  intros Hv Hl s [Hw Hc].
  assert (E : venv_ (post (super (with_view m)) s) = post m (venv_ s)).
  { unfold venv_, view_, post, super, with_view. simpl. destruct (m _) as [[r e] out]. simpl. by destruct e. }
  rewrite E. split; [by apply (vs_wf _ _ (Hv _))|by apply Hl].
Qed.
Lemma stays_store {A} (m : M Empty_set PersistenceStore A) : moves stays (store m).
Proof. intros s Hs. unfold venv_, view_, post, store in *. destruct (m _) as [[r e] out]. exact Hs. Qed.
Lemma stays_set_isUpToDate b : moves stays (set_isUpToDate b).
Proof. intros s [[Hh Hp Hi] [Hw Ho Hl Hs]]. split; by split. Qed.
#[local] Hint Resolve @stays_store stays_set_isUpToDate : moves.
Lemma stays_persist_loop events snapshot pool : moves stays (persist_loop events snapshot pool).
Proof.
  revert pool. induction events as [|p events IH]; intros pool; cbn [persist_loop]; [moves|].
  destruct (ev_payload (pe_event p)); try apply IH. unfold onMiniblockHeader. moves.
Qed.
#[local] Hint Resolve stays_persist_loop : moves.

Lemma stays_meanwhile op : spares localId id op → moves stays (meanwhile op).
Proof.
  destruct op; simpl; intros Hs.
  - unfold SyncedStream.appendEvents. apply moves_bind; [typeclasses eauto|moves|intros s].
    apply moves_bind; [typeclasses eauto| |intros ?; unfold markUpToDate; moves].
    apply stays_super; [apply moves_appendEvents|]. intros env _. by apply leaves_appendEvents.
  - intros s. unfold Stream.prependEvents. rewrite super_then.
    apply stays_super; [apply moves_prependEvents|]. intros env _. apply leaves_prependEvents.
  - apply stays_super; [apply moves_updateDecryptedContent|]. intros env _. apply leaves_updateDecryptedContent.
  - apply stays_super; [apply moves_updateDecryptedContentError|]. intros env _. apply leaves_updateDecryptedContentError.
  - apply moves_bind; [typeclasses eauto| |intros ?; moves].
    apply stays_super; [apply moves_appendLocalEvent|]. intros env _. destruct Hs. by apply leaves_appendLocalEvent.
  - destruct Hs as (? & ? & ?). apply stays_super; [apply moves_updateLocalEvent|]. intros env Hw. by apply leaves_updateLocalEvent.
  - unfold resetUpToDate. moves.
  - moves.
Qed.
End Waiting.

Lemma ready_stays o localId id status c : ready o localId id status c ↔
  cn_has c = true ∧ stream_wf (venv_ (cn_synced c)) ∧ copy o localId id status (venv_ (cn_synced c)).
Proof.
  split.
  - intros [[Hh Hw Hp Hs] Hn]. split_and!; [done|done|]. split; [apply Hw|done| |done].
    destruct (pool c !! localId) as [o'|] eqn:E; [|by right]. simpl in Hn. injection Hn as ->. left.
    destruct (wf_pool _ Hw _ _ E) as (e & He & <-). destruct (wf_pool _ Hw _ _ Hp) as (e' & He' & <-). congruence.
  - intros (Hh & Hw & [Hhp Hp Hl Hs]). split; [by split|]. change (pool c !! id = Some o) in Hp.
    destruct Hl as [->|Hl]; [by rewrite Hp|]. change (pool c !! localId = None) in Hl. by rewrite Hl.
Qed.
Lemma waits_ready o localId id status c c' :
  waits localId id c c' → ready o localId id status c → ready o localId id status c'.
Proof.
  intros (ops & Hs & ->). revert c. induction Hs as [|op ops Hop Hs IH]; intros c Hr; [done|]. simpl. apply IH.
  apply ready_stays in Hr as (Hh & Hr). apply ready_stays.
  assert (E : cn_synced (post (on_synced (meanwhile op)) c) = post (meanwhile op) (cn_synced c)
    ∧ cn_has (post (on_synced (meanwhile op)) c) = cn_has c).
  { unfold on_synced, post. by destruct (meanwhile op _) as [[??]?]. }
  destruct E as [-> ->]. split; [done|]. by apply (stays_meanwhile o localId id status op Hop).
Qed.

Abbreviation Answer := (Res (option AddEventResponse_Error)).

(** A run of [makeEventWithHashAndAddToStream]: the answers that were followed by
    another attempt, the answer that ended it ([None]: an attempt threw), the
    requests, the result *)
Inductive Sends (context : SignerContext) :
    SendArgs → Client → list Answer → option Answer → list SendOut → Res Added → Client → Prop :=
  | sends_throws args c salt now e :
      res (attempt context args salt now) c = Throw e →
      Sends context args c [] None (out (attempt context args salt now) c) (Throw e) (post (attempt context args salt now) c)
  | sends_blocked args c salt now d args' id c2 l f os r c3 :
      res (attempt context args salt now) c = Ok (inr (RetryAfter d args')) →
      sa_localId args' = Some id → waits id id (post (attempt context args salt now) c) c2 →
      Sends context args' c2 l f os r c3 →
      Sends context args c l f (out (attempt context args salt now) c ++ os) r c3
  | sends_settled args c salt now localId id c1 a added :
      res (attempt context args salt now) c = Ok (inl id) →
      sa_localId args = Some localId → waits localId id (post (attempt context args salt now) c) c1 →
      res (answered args id a) c1 = Ok (Settled added) →
      Sends context args c [] (Some a) (out (attempt context args salt now) c) (Ok added) (post (answered args id a) c1)
  | sends_refused args c salt now localId id c1 a e :
      res (attempt context args salt now) c = Ok (inl id) →
      sa_localId args = Some localId → waits localId id (post (attempt context args salt now) c) c1 →
      res (answered args id a) c1 = Throw e →
      Sends context args c [] (Some a) (out (attempt context args salt now) c) (Throw e) (post (answered args id a) c1)
  | sends_retry args c salt now localId id c1 a d args' c2 l f os r c3 :
      res (attempt context args salt now) c = Ok (inl id) →
      sa_localId args = Some localId → waits localId id (post (attempt context args salt now) c) c1 →
      res (answered args id a) c1 = Ok (RetryAfter d args') →
      waits id id (post (answered args id a) c1) c2 →
      Sends context args' c2 l f os r c3 →
      Sends context args c (a :: l) f (out (attempt context args salt now) c ++ os) r c3.

(** The copy at the end of a run with a number of attempts *)
Definition settled (o : ObjId) (retries : Z) (f : option Answer) (os : list SendOut) (r : Res Added) (c : Client) : Prop :=
  match r, f with
  | Ok added, Some (Ok error) =>
      held o (ad_eventId added) sent c ∧ ad_error added = error
      ∧ ∃ sid event optional, addEvent sid event optional ∈ os ∧ bin_toHexString (env_hash event) = ad_eventId added
  | Ok _, _ => False
  | Throw _, Some (Throw err) =>
      ∃ id, held o id failed c ∨ held o id sending c ∧ unnamed err = true ∧ retries < 3
  | Throw _, _ => ∃ id status, held o id status c
  end.

(** An answer that is retried three times at most *)
Definition limited (a : Answer) : bool := match a with Ok _ => false | Throw err => negb (errorContains err MINIBLOCK_TOO_NEW) end.

Lemma settled_more o n n' f os os' r c : n <= n' → settled o n' f os' r c → settled o n f (os ++ os') r c.
Proof.
  unfold settled. intros Hn. destruct r as [added|].
  - destruct f as [[error|]|]; [|done..].
    intros (? & ? & sid & event & optional & Hin & ?). split_and!; [done..|]. exists sid, event, optional. split; [|done].
    rewrite elem_of_app. by right.
  - destruct f as [[|]|]; [done| |done]. intros (id & [?|(? & ? & ?)]); exists id; [by left|right; split_and!; [done..|lia]].
Qed.

Lemma sends_settles o context args c l f os r c' :
  Sends context args c l f os r c' → ∀ localId status,
  sa_localId args = Some localId → truthy_str localId = true → held o localId status c →
  let n := default 0 (sa_retryCount args) in
  settled o (n + Z.of_nat (length l)) f os r c' ∧ Z.of_nat (length (List.filter limited l)) <= Z.max 0 (3 - n).
Proof.
  induction 1 as [args c salt now e Ha|args c salt now d args' i c2 l f os r c3 Ha Hi Hu Hs IH
    |args c salt now x id c1 a added Ha Hx Hu Hr|args c salt now x id c1 a e Ha Hx Hu Hr
    |args c salt now x id c1 a d args' c2 l f os r c3 Ha Hx Hu Hr Hu' Hs IH];
    intros localId status Hl Ht Hh; pose proof (attempt_attempted o localId status context args salt now c Hl Ht Hh) as Hatt;
    rewrite Ha in Hatt; simpl in Hatt; try (rewrite Hx in Hl; injection Hl as ->);
    set (n := default 0 (sa_retryCount args)) in *; cbv zeta.
  - split; [exact Hatt|simpl; lia].
  - destruct Hatt as (id & Hrd & Hid & Hl' & Hn'). rewrite Hl' in Hi. injection Hi as <-.
    destruct (IH id sending Hl' Hid) as [Hset Hlen]; [by apply (waits_ready _ _ _ _ _ _ Hu), held_ready, Hrd|].
    rewrite Hn' in Hset, Hlen. simpl in Hset, Hlen. split; [eapply settled_more; [|done]; lia|lia].
  - destruct Hatt as (Hrd & Hid & sid & event & Hin & Hev). split; [|simpl; lia].
    pose proof (answered_ready o localId id args a c1 Hx Ht (waits_ready _ _ _ _ _ _ Hu Hrd)) as Hans. cbv zeta in Hans. rewrite Hr in Hans.
    destruct a as [error|err]; [|done]. destruct Hans as ([Hsent _] & Heq & Herr). unfold settled. rewrite Heq.
    split_and!; [done..|]. by exists sid, event, (sa_optional args).
  - destruct Hatt as (Hrd & Hid & _). split; [|simpl; lia].
    pose proof (answered_ready o localId id args a c1 Hx Ht (waits_ready _ _ _ _ _ _ Hu Hrd)) as Hans. cbv zeta in Hans. rewrite Hr in Hans.
    destruct a as [error|err]; simpl.
    + destruct Hans as [st [Hst _]]. by exists id, st.
    + exists id. destruct Hans as [[Hf _]|([Hf _] & Hb & Hc)]; [by left|right]. rewrite Z.add_0_r. by split_and!.
  - destruct Hatt as (Hrd & Hid & _).
    pose proof (answered_ready o localId id args a c1 Hx Ht (waits_ready _ _ _ _ _ _ Hu Hrd)) as Hans. cbv zeta in Hans. rewrite Hr in Hans.
    assert (Hans' : (∃ status, ready o localId id status (post (answered args id a) c1)) ∧ sa_localId args' = Some id
      ∧ sa_retryCount args' = Some (n + 1) ∧ (∀ err, a = Throw err → errorContains err MINIBLOCK_TOO_NEW = true ∨ n < 3)).
    { by destruct a. }
    clear Hans. destruct Hans' as ([st [Hst _]] & Hl' & Hn' & Hlim).
    destruct (IH id st Hl' Hid) as [Hset Hlen]; [by apply (waits_ready _ _ _ _ _ _ Hu'), held_ready|].
    rewrite Hn' in Hset, Hlen. change (default 0 (Some (n + 1))) with (n + 1) in Hset, Hlen.
    split; [eapply settled_more; [|done]; simpl; lia|].
    destruct a as [error|err]; simpl; [lia|]. destruct (errorContains err MINIBLOCK_TOO_NEW) eqn:Et; simpl; [lia|].
    destruct (Hlim err eq_refl); [congruence|lia].
Qed.

(** C10. A message that is sent is never lost. Its local copy is in the pool under
    its local id; then the client makes events and asks the node to add them, in
    as many attempts as the answers call for. While it waits, events arrive
    (also the event of the message) and miniblocks confirm others, older events
    are fetched, content is decrypted, and other messages are added and sent;
    only a miniblock that confirms the message, and a new start or the removal of
    the stream, are left out. When the node has accepted an event and the call
    returns, the copy is in the pool under the id of that event, which was
    requested, and is marked as sent. When the call throws because the node
    refused, the copy is marked as failed, unless, within the first three retries,
    the node asked for another miniblock without naming its hash and number
    properly. When an attempt throws or the local update of an accepted event
    does, the copy is still in the pool. Refusals other than too new a miniblock
    are followed by another attempt three times at most. *)
Theorem message_settles o context args c retried final os r c' localId status :
  sa_localId args = Some localId → truthy_str localId = true → sa_retryCount args = None →
  held o localId status c → Sends context args c retried final os r c' →
  settled o (Z.of_nat (length retried)) final os r c' ∧ (length (List.filter limited retried) <= 3)%nat.
Proof.
  intros Hl Ht Hn Hh Hs. destruct (sends_settles o _ _ _ _ _ _ _ _ Hs localId status Hl Ht Hh) as [Hset Hlen].
  rewrite Hn in Hset, Hlen. simpl in Hset, Hlen. split; [done|lia].
Qed.
End Sending.

Module SendingWitness.
Import ModelEth Fixtures ModelCrypto StreamWitness LifecycleExample PersistenceWitness.

(** Events that differ in the miniblock they are made on have different ids. *)
#[local] Instance prevCodec : EnvelopeCodec := {|
  streamEvent_toBinary := λ e, default [] (ev_prevMiniblockHash e);
  streamEvent_fromBinary := λ _, failure;
  snapshot_fromBinary := λ _, failure;
  bearerToken_toBinary := λ _, [];
  bearerToken_fromBinary := λ _, failure;
|}.

Definition context : SignerContext := {|
  sc_signerPrivateKey := "0b"; sc_creatorAddress := addr x0a; sc_delegateSig := None; sc_delegateExpiryEpochMs := None |}.
(** The message ~x waits to be sent. *)
Definition client : Client := Build_Client blobs (Build_SyncedEnv blobs sending_ (emptyStore [])) true true.
Definition args : SendArgs := {|
  sa_payload := P_channelPayload (CP_message (encrypted "hi")); sa_prevMiniblockHash := replicate 32 x01;
  sa_prevMiniblockNum := 3; sa_optional := None; sa_localId := Some "~x"; sa_cleartext := None; sa_tags := None;
  sa_retryCount := None |}.
Definition stale : JsError := PlainError
  ("24:BAD_PREV_MINIBLOCK_HASH expected = " +:+ toHex (replicate 32 x02) +:+ " expNum = 4 miniblockNum = 3").

Definition requested (m : M SendOut Client (string + Next)) (c : Client) : string :=
  match res m c with Ok (inl id) => id | _ => "" end.
Definition retry (m : M SendOut Client Next) (c : Client) : SendArgs :=
  match res m c with Ok (RetryAfter _ args) => args | _ => args end.

Definition first : M SendOut Client (string + Next) := attempt context args [] 10.
Lemma client_held : held O "~x" sending client.
Proof.
  split; [done| |vm_compute; reflexivity|eexists _, _; split_and!; vm_compute; reflexivity].
  apply (vs_wf _ _ (moves_appendLocalEvent (CM_post (textPost "hi")) sending true "x" 5 env0)), env0_wf.
Qed.
(** While the client waits for the first answer, the event and another message
    arrive and a miniblock confirms that one; then a third message is sent. *)
Definition firstId : string := requested first client.
Definition other : ParsedEvent := StreamWitness.message x05.
Definition arrivals : list Meanwhile :=
  [W_append [other; StreamWitness.headerEvent x08 (StreamWitness.header 1 1 [[x05]])] cookie None None;
   W_appendLocal (CM_post (textPost "third")) sending "z" 6].
Definition client0 : Client := foldl (λ c op, post (on_synced (meanwhile op)) c) (post first client) arrivals.
Definition refusal : M SendOut Client Next := answered args firstId (Throw stale).
Definition client1 : Client := post refusal client0.
Definition args1 : SendArgs := retry refusal client0.
Definition second : M SendOut Client (string + Next) := attempt context args1 [] 11.
Definition acceptance : M SendOut Client Next := answered args1 (requested second client1) (Ok None).

(** The first event is refused, the second one is accepted. *)
Lemma message_sends :
  ∃ os added, Sends context args client [Throw stale] (Some (Ok None)) os (Ok added) (post acceptance (post second client1)).
Proof.
  eexists _, _.
  eapply (sends_retry context args client [] 10 "~x" firstId client0 (Throw stale) 0 args1 client1).
  - vm_compute. reflexivity.
  - reflexivity.
  - exists arrivals. split; [|reflexivity]. apply Forall_cons_2; [|apply Forall_cons_2; [|apply Forall_nil_2]].
    + apply Forall_cons_2; [|apply Forall_cons_2; [|apply Forall_nil_2]].
      * split; [right; vm_compute; discriminate|]. intros value Hv. vm_compute in Hv. discriminate.
      * split; [right; vm_compute; discriminate|]. intros value Hv. injection Hv as <-. vm_compute.
        intros Hin. apply list_elem_of_singleton in Hin. discriminate.
    + split; vm_compute; discriminate.
  - vm_compute. reflexivity.
  - by exists [].
  - eapply (sends_settled context args1 client1 [] 11 firstId (requested second client1) (post second client1) (Ok None)).
    + vm_compute. reflexivity.
    + vm_compute. reflexivity.
    + by exists [].
    + vm_compute. reflexivity.
Qed.

Lemma message_settles_witness :
  ∃ id, held O id sent (post acceptance (post second client1)).
Proof.
  destruct message_sends as (os & added & Hs).
  destruct (message_settles O context args client [Throw stale] (Some (Ok None)) os (Ok added) _ "~x" sending
    eq_refl eq_refl eq_refl client_held Hs) as [[Hh _] _].
  exact (ex_intro _ (ad_eventId added) Hh).
Defined.

(** A miniblock confirms the event before the answer of the node arrives: the
    call throws although the event was added. *)
Definition id1 : string := firstId.
Definition hash1 : bytes := match fromHex id1 with Ok b => b | Throw _ => [] end.
Definition own : ParsedEvent := {|
  pe_event := streamEvent x0a (sa_payload args); pe_hash := hash1; pe_hashStr := id1;
  pe_signature := None; pe_creatorUserId := user x0a |}.
Definition arrival : M SendOut Client unit :=
  on_synced (SyncedStream.appendEvents [own; StreamWitness.headerEvent x08 (StreamWitness.header 1 1 [hash1])] cookie None None).
Lemma accepted_then_thrown :
  is_Ok (res arrival (post first client)) = true
  ∧ res (answered args id1 (Ok None)) (post first client)
    = Ok (Settled {| ad_prevMiniblockHash := replicate 32 x01; ad_eventId := id1; ad_error := None |})
  ∧ res (answered args id1 (Ok None)) (post arrival (post first client))
    = Throw (CodeException "Local event not found ~x" ERR_UNSPECIFIED).
Proof. split_and!; vm_compute; reflexivity. Qed.

(** An event that cannot be made leaves the message marked as being sent. *)
Lemma unmade_stays_sending :
  let failing := attempt context (retryArgs args "~x" [x01] 3) [] 10 in
  is_Ok (res failing client) = false ∧ held O "~x" sending (post failing client).
Proof. split; [vm_compute; reflexivity|]. exact client_held. Qed.
End SendingWitness.
