(* ===== verification/Scrollback.v ===== *)
(** * Scrollback: older miniblocks of a stream
    (sdk/src/client.ts: getMiniblocks, scrollback;
    sdk/src/makeStreamRpcClient.ts: getMiniblocks)

    When the user scrolls up, the client asks for the miniblocks between the
    previous snapshot and the first one it has: from the cache as far down as it
    goes, then from the node, in as many rounds as the node wants, and prepends
    them to the view. The methods are cut where the stream may change meanwhile;
    the answers of the node are a list. *)

From stdpp Require Import pretty.
From S2P Require Import Prelude JsLib JsMap Ids Proto Types StreamEvents Content TimelinesView StreamState Stream Sign Unpack Persistence SyncedStream Sending.

(** ** makeStreamRpcClient.ts *)

(** [GetMiniblocksResponse] *)
Record GetMiniblocksResponse := {
  gm_miniblocks : list Miniblock;
  gm_terminus : bool;
  gm_snapshots : gmap string Envelope;
}.

Section Rpc.
Context `{EthLib, CryptoLib, EnvelopeCodec}.

(** [parsedSnapshots], when snapshots are not omitted *)
Definition fetchedSnapshot (response : GetMiniblocksResponse) (unpackEnvelopeOpts : option UnpackEnvelopeOpts)
    (miniblock : ParsedMiniblock) : Res (option (string * Snapshot)) :=
  let num := pretty (mh_miniblockNum (mb_header miniblock)) in
  match gm_snapshots response !! num with
  | None => Ok None
  | Some envelope =>
      parsed ← unpackSnapshot (pe_event <$> last (mb_events miniblock)) (mh_snapshotHash (mb_header miniblock))
                 envelope unpackEnvelopeOpts;
      Ok (Some (num, psn_snapshot parsed))
  end.

(** [fetchMiniblocksFromRpc] from the response on: the miniblocks, the terminus,
    where to go on, the snapshots *)
Definition fetchMiniblocksFromRpc (response : GetMiniblocksResponse) (fromInclusive : Z) (omitSnapshots : bool)
    (unpackEnvelopeOpts : option UnpackEnvelopeOpts) : Res (list ParsedMiniblock * bool * Z * gmap string Snapshot) :=
  unpacked ← traverse (λ miniblock,
      unpackedMiniblock ← unpackMiniblock miniblock unpackEnvelopeOpts;
      snapshot ← (if omitSnapshots then Ok None else fetchedSnapshot response unpackEnvelopeOpts unpackedMiniblock);
      Ok (unpackedMiniblock, snapshot)) (gm_miniblocks response);
  let miniblocks := unpacked.*1 in
  let respondedFromInclusive :=
    match miniblocks with [] => fromInclusive | mb :: _ => mh_miniblockNum (mb_header mb) end in
  Ok (miniblocks, gm_terminus response,
      respondedFromInclusive + Z.of_nat (length (gm_miniblocks response)),
      foldl (λ acc p, <[p.1 := p.2]> acc) ∅ (omap snd unpacked)).

(** The [while] loop of [getMiniblocks]; [None]: the next answer has not come. *)
Fixpoint getMiniblocks_loop (answers : list (Res GetMiniblocksResponse)) (currentFromInclusive toExclusive : Z)
    (omitSnapshots : bool) (opts : option UnpackEnvelopeOpts) (allMiniblocks : list ParsedMiniblock)
    (reachedTerminus : bool) (parsedSnapshots : gmap string Snapshot)
    : option (Res (list ParsedMiniblock * bool * gmap string Snapshot)) :=
  if negb (currentFromInclusive <? toExclusive) then Some (Ok (allMiniblocks, reachedTerminus, parsedSnapshots))
  else
    match answers with
    | [] => None
    | answer :: answers =>
        match response ← answer; fetchMiniblocksFromRpc response currentFromInclusive omitSnapshots opts with
        | Throw e => Some (Throw e)
        | Ok (miniblocks, terminus, nextFromInclusive, snapshots) =>
            let allMiniblocks := allMiniblocks ++ miniblocks in
            let parsedSnapshots := if omitSnapshots then parsedSnapshots else snapshots ∪ parsedSnapshots in
            let reachedTerminus := reachedTerminus || terminus in
            if currentFromInclusive =? nextFromInclusive
            then Some (Ok (allMiniblocks, reachedTerminus, parsedSnapshots))
            else getMiniblocks_loop answers nextFromInclusive toExclusive omitSnapshots opts allMiniblocks
                   reachedTerminus parsedSnapshots
        end
    end.
Definition getMiniblocksRpc (answers : list (Res GetMiniblocksResponse)) (fromInclusive toExclusive : Z)
    (omitSnapshots : bool) (opts : option UnpackEnvelopeOpts)
    : option (Res (list ParsedMiniblock * bool * gmap string Snapshot)) :=
  getMiniblocks_loop answers fromInclusive toExclusive omitSnapshots opts [] false ∅.
End Rpc.

(** ** client.ts *)

(** [{ terminus, fromInclusiveMiniblockNum }] *)
Record ScrollResult := { sr_terminus : bool; sr_fromInclusiveMiniblockNum : Z }.

Section Scrollback.
Context `{EthLib, Codec, Lodash, CryptoLib, EnvelopeCodec, PersistenceCodec}.

(** The loop over the cache, from [i] downwards for at most [count] blocks. The
    blocks are those found, in the order in which they are pushed, with the new
    [toExclusive]; an error stops the loop and is caught. *)
Fixpoint readCached (count : nat) (streamId : string) (i : Z) (cachedMiniblocks : list ParsedMiniblock)
    : M Empty_set PersistenceStore (list ParsedMiniblock * Z) :=
  match count with
  | O => mret (reverse cachedMiniblocks, i + 1)
  | S count =>
      miniblock ← catchM (m ← getMiniblock streamId i; mret (Ok m)) (λ e, mret (Throw e));
      match miniblock with
      | Ok (Some miniblock) => readCached count streamId (i - 1) (cachedMiniblocks ++ [miniblock])
      | Ok None => mret (reverse cachedMiniblocks, i + 1)
      | Throw _ => mret (cachedMiniblocks, i + 1)
      end
  end.

(** [getMiniblocks] up to the node: the cached blocks and the end of the rest *)
Definition getCachedMiniblocks (streamId : string) (fromInclusive toExclusive : Z)
    : M Empty_set PersistenceStore (list ParsedMiniblock * Z) :=
  readCached (Z.to_nat (toExclusive - fromInclusive)) streamId (toExclusive - 1) [].

(** ... and once the node has sent the rest: the events of the blocks that are
    saved lose their snapshots. *)
Definition gotMiniblocks (streamId : string) (cachedMiniblocks miniblocks : list ParsedMiniblock) (terminus : bool)
    (skipPersistence : bool) : M Empty_set PersistenceStore (list ParsedMiniblock * bool) :=
  if skipPersistence then mret (miniblocks ++ cachedMiniblocks, terminus)
  else
    _ ← saveMiniblocks streamId miniblocks backward;
    mret ((afterSave backward <$> miniblocks) ++ cachedMiniblocks, terminus).

(** [getMiniblocks]; [None]: an answer of the node is waited for. *)
Definition getMiniblocks (streamId : string) (fromInclusive toExclusive : Z) (skipPersistence : bool)
    (opts : option UnpackEnvelopeOpts) (answers : list (Res GetMiniblocksResponse))
    : M Empty_set PersistenceStore (option (list ParsedMiniblock * bool)) :=
  '(cachedMiniblocks, toExclusive) ← getCachedMiniblocks streamId fromInclusive toExclusive;
  if toExclusive =? fromInclusive then mret (Some (cachedMiniblocks, toExclusive =? 0))
  else
    match getMiniblocksRpc answers fromInclusive toExclusive true opts with
    | None => mret None
    | Some (Throw e) => throwM e
    | Some (Ok (miniblocks, terminus, _)) =>
        r ← gotMiniblocks streamId cachedMiniblocks miniblocks terminus skipPersistence;
        mret (Some r)
    end.

(** [_scrollback] up to its call of [getMiniblocks]: the range to ask for *)
Definition beginScrollback : M SendOut Client (ScrollResult + Z * Z) :=
  c ← getM;
  let view := view_ (cn_synced c) in
  _ ← check (cn_has c) ("stream not found: " +:+ streamId_ (cn_synced c)) ERR_UNSPECIFIED;
  match miniblockInfo view with
  | None => throwWithCode ("stream not initialized: " +:+ streamId_ (cn_synced c)) ERR_UNSPECIFIED
  | Some info =>
      if mbi_terminusReached info
      then mret (inl {| sr_terminus := true; sr_fromInclusiveMiniblockNum := mbi_min info |})
      else
        _ ← check (prevSnapshotMiniblockNum view <=? mbi_min info) "Unknown" ERR_UNSPECIFIED;
        mret (inr (prevSnapshotMiniblockNum view, mbi_min info))
  end.

(** ... and from its answer on; the cleartexts were read meanwhile. *)
Definition endScrollback (fromInclusive toExclusive : Z) (miniblocks : list ParsedMiniblock) (terminus : bool)
    (cleartexts : Cleartexts) : M SendOut Client ScrollResult :=
  c ← getM;
  if default (-1) (mbi_min <$> miniblockInfo (view_ (cn_synced c))) =? toExclusive then
    _ ← on_synced (super (Stream.prependEvents miniblocks cleartexts terminus));
    mret {| sr_terminus := terminus; sr_fromInclusiveMiniblockNum := fromInclusive |}
  else mret {| sr_terminus := false; sr_fromInclusiveMiniblockNum := fromInclusive |}.
End Scrollback.
