(* ===== verification/ScrollbackFacts.v ===== *)
(** * ScrollbackFacts: older miniblocks join the ones that are there

    The miniblocks that scrolling back fetches, partly from the cache and partly
    from the node, are a gapless run that ends right below the first miniblock of
    the view, and the view then begins where the run begins. *)

From Stdlib Require Import Strings.Ascii Strings.Byte.
From S2P Require Import Prelude JsLib JsMap Ids IdsFacts Proto Types TimelineTypes StreamEvents Content ContentLaws ContentFacts Members Fixtures Timelines TimelinesView StreamState StreamStateFacts StreamFacts Stream StreamLifecycle Sign SignFacts Unpack Persistence PersistenceFacts SyncedStream SyncedStreamFacts Sending SendingFacts Scrollback.

(** ** From the cache *)

Section Cache.
Context `{EthLib, Codec, Lodash, CryptoLib, EnvelopeCodec, PersistenceCodec}.

Lemma getMiniblock_clean ops s streamId i :
  traced ops s → ps_faults s = [] →
  ∃ r, getMiniblock streamId i s = (Ok r, s, []) ∧ ∀ mb, r = Some mb → savedBlock ops streamId i mb.
Proof.
  intros Ht Hf. unfold getMiniblock, request. cbv [mbind M_bind gets]. rewrite Hf. simpl.
  destruct (ps_miniblocks s !! miniblockKey streamId i) as [data|] eqn:E; [|by exists None].
  apply (tr_blocks _ _ Ht) in E as (mb & Hs & Hd). simpl in Hd. unfold liftR.
  destruct (miniblock_fromBinary data) as [m|]; [|done]. simpl in *. exists (Some mb). injection Hd as Hd. rewrite Hd.
  split; [done|]. by intros ? [= <-].
Qed.

Lemma readCached_clean ops s streamId count : ∀ i acc last,
  traced ops s → ps_faults s = [] → i <= last → Forall2 (savedBlock ops streamId) (rangeIds (i + 1) last) (reverse acc) →
  ∃ l to, readCached count streamId i acc s = (Ok (l, to), s, [])
    ∧ i + 1 - Z.of_nat count <= to <= i + 1 ∧ Forall2 (savedBlock ops streamId) (rangeIds to last) l.
Proof.
  induction count as [|count IH]; intros i acc last Ht Hf Hi Hacc; cbn [readCached].
  { exists (reverse acc), (i + 1). split; [done|]. split; [lia|done]. }
  destruct (getMiniblock_clean ops s streamId i Ht Hf) as (r & Hr & Hs). cbv [mbind M_bind catchM]. rewrite Hr. simpl.
  destruct r as [mb|].
  - destruct (IH (i - 1) (acc ++ [mb]) last Ht Hf) as (l & to & -> & Hto & Hl); [lia| |].
    + rewrite reverse_snoc. replace (i - 1 + 1) with i by lia. unfold rangeIds. rewrite seqZ_cons by lia.
      constructor; [by apply Hs|]. replace (Z.pred (last - i + 1)) with (last - (i + 1) + 1) by lia. exact Hacc.
    + exists l, to. split; [done|]. split; [lia|done].
  - exists (reverse acc), (i + 1). split; [done|]. split; [lia|done].
Qed.

(** ** From the node *)

(** An answer to the request for the blocks from [from] up to [to]: the node has
    the blocks from [trim] on, and sends a run of them, which is not empty if it
    has any. *)
Definition serves (trim : Z) (opts : option UnpackEnvelopeOpts) (from to : Z) (response : GetMiniblocksResponse) : Prop :=
  ∃ mbs, traverse (λ m, unpackMiniblock m opts) (gm_miniblocks response) = Ok mbs
  ∧ blockNum <$> mbs = rangeIds (Z.max from trim) (Z.max from trim + Z.of_nat (length mbs) - 1)
  ∧ Z.max from trim + Z.of_nat (length mbs) <= Z.max to trim
  ∧ (trim < to → mbs ≠ []).

(** Each answer serves the request that it answers, or is an error. *)
Fixpoint served (trim : Z) (opts : option UnpackEnvelopeOpts) (answers : list (Res GetMiniblocksResponse)) (from to : Z) : Prop :=
  match answers with
  | [] => True
  | Throw _ :: _ => True
  | Ok response :: answers => serves trim opts from to response
      ∧ served trim opts answers (Z.max from trim + Z.of_nat (length (gm_miniblocks response))) to
  end.

Lemma fetch_serves trim opts from to response :
  serves trim opts from to response →
  ∃ mbs next, fetchMiniblocksFromRpc response from true opts = Ok (mbs, gm_terminus response, next, ∅)
  ∧ blockNum <$> mbs = rangeIds (Z.max from trim) (Z.max from trim + Z.of_nat (length mbs) - 1)
  ∧ Z.max from trim + Z.of_nat (length mbs) <= Z.max to trim ∧ (trim < to → mbs ≠ [])
  ∧ length (gm_miniblocks response) = length mbs
  ∧ next = (if decide (mbs = []) then from else Z.max from trim + Z.of_nat (length mbs)).
Proof.
  intros (mbs & Hm & Hn & Hle & Hne). apply traverse_ok in Hm as Hm'. pose proof (Forall2_length _ _ _ Hm') as Hlen.
  assert (Hu : traverse (λ m, mb ← unpackMiniblock m opts; snapshot ← (Ok None : Res (option (string * Snapshot))); Ok (mb, snapshot))
    (gm_miniblocks response) = Ok ((λ mb, (mb, None)) <$> mbs)).
  { clear Hn Hle Hne Hlen Hm. induction Hm' as [|m mb l mbs Hx _ IH]; [done|]. simpl. rewrite Hx. simpl.
    simpl in IH. by rewrite IH. }
  unfold fetchMiniblocksFromRpc. rewrite Hu. simpl.
  assert (Hfst : ((λ mb : ParsedMiniblock, (mb, None : option (string * Snapshot))) <$> mbs).*1 = mbs).
  { clear. induction mbs as [|mb mbs IH]; [done|]. csimpl. by rewrite IH. }
  assert (Hsnd : omap snd ((λ mb : ParsedMiniblock, (mb, None : option (string * Snapshot))) <$> mbs) = []).
  { clear. induction mbs as [|mb mbs IH]; [done|]. csimpl. by rewrite IH. }
  rewrite Hfst, Hsnd. simpl. eexists mbs, _. split; [done|]. split_and!; try done.
  destruct mbs as [|mb mbs]; simpl in *; [rewrite Hlen; lia|].
  unfold rangeIds in Hn. rewrite seqZ_cons in Hn by lia. injection Hn as Hn _. unfold blockNum in Hn. rewrite Hn, Hlen. lia.
Qed.

Lemma rangeIds_nil a b : b < a → rangeIds a b = [].
Proof. intros. unfold rangeIds. by rewrite seqZ_nil by lia. Qed.

Lemma rounds_run trim opts to answers : ∀ cur acc t snapshots,
  served trim opts answers cur to →
  match getMiniblocks_loop answers cur to true opts acc t snapshots with
  | None => Z.of_nat (length answers) < to - cur
  | Some (Throw _) => True
  | Some (Ok (l, _, _)) => ∃ rest, l = acc ++ rest ∧ blockNum <$> rest = rangeIds (Z.max cur trim) (to - 1)
  end.
Proof.
  induction answers as [|a answers IH]; intros cur acc t snapshots Hs; cbn [getMiniblocks_loop];
    (destruct (Z.ltb_spec cur to); cbn [negb];
     [|exists []; split; [by rewrite app_nil_r|]; by rewrite rangeIds_nil by lia]).
  { simpl. lia. }
  destruct a as [response|e]; [|done]. destruct Hs as [Hs Hrest].
  destruct (fetch_serves _ _ _ _ _ Hs) as (mbs & next & Hf & Hn & Hle & Hne & Hlen & Hnext).
  cbv [mbind Res_bind]. rewrite Hf. destruct (decide (mbs = [])) as [->|Hm].
  - rewrite Hnext, Z.eqb_refl. exists []. split; [done|]. rewrite rangeIds_nil; [done|].
    destruct (decide (trim < to)) as [Ht|]; [by destruct (Hne Ht)|lia].
  - assert (Hpos : (0 < length mbs)%nat) by (destruct mbs; [done|simpl; lia]).
    destruct (Z.eqb_spec cur next); [lia|]. rewrite Hlen in Hrest. rewrite <- Hnext in Hrest.
    specialize (IH next (acc ++ mbs) (t || gm_terminus response) snapshots Hrest).
    destruct (getMiniblocks_loop answers next to true opts _ _ _) as [[[[l t'] ss]|e]|]; [|done|simpl; lia].
    destruct IH as (rest & -> & Hr). exists (mbs ++ rest). split; [by rewrite app_assoc|].
    rewrite fmap_app, Hn, Hr. replace (Z.max next trim) with next by lia.
    replace (Z.max cur trim + Z.of_nat (length mbs)) with next by lia. apply rangeIds_app; lia.
Qed.

Lemma saved_numbers ops streamId first last l :
  Forall2 (savedBlock ops streamId) (rangeIds first last) l → blockNum <$> l = rangeIds first last.
Proof.
  induction 1 as [|n mb ns l (d & b & Hn & -> & _) _ IH]; [done|]. csimpl. rewrite IH. f_equal. exact Hn.
Qed.

(** [getMiniblocks] on a store whose requests succeed: a run up to [to], or the
    node has not answered often enough. *)
Lemma getMiniblocks_run ops s trim opts streamId from to skip answers :
  traced ops s → ps_faults s = [] → from <= to →
  (∀ l to', res (getCachedMiniblocks streamId from to) s = Ok (l, to') → served trim opts answers from to') →
  match res (getMiniblocks streamId from to skip opts answers) s with
  | Ok None => Z.of_nat (length answers) < to - from
  | Ok (Some (l, _)) => ∃ start, from <= start <= Z.max from (Z.min to trim) ∧ blockNum <$> l = rangeIds start (to - 1)
  | Throw _ => True
  end.
Proof.
  intros Ht Hf Hle Hs. unfold getMiniblocks, getCachedMiniblocks in *.
  destruct (readCached_clean ops s streamId (Z.to_nat (to - from)) (to - 1) [] (to - 1) Ht Hf) as (l & to' & Hr & Hto & Hl).
  { lia. } { rewrite rangeIds_nil by lia. constructor. }
  assert (Hres : res (readCached (Z.to_nat (to - from)) streamId (to - 1) []) s = Ok (l, to')) by (unfold res; by rewrite Hr).
  rewrite (res_bind_ok _ _ _ _ Hres). apply saved_numbers in Hl.
  destruct (Z.eqb_spec to' from) as [->|Hne]; [exists from; split; [lia|done]|].
  pose proof (rounds_run trim opts to' answers from [] false ∅ (Hs l to' Hres)) as Hrun. unfold getMiniblocksRpc.
  destruct (getMiniblocks_loop _ _ _ _ _ _ _ _) as [[[[mbs t] ss]|e]|]; [|done|simpl; lia].
  destruct Hrun as (rest & -> & Hn). simpl in Hn.
  assert (Hall : ∃ start, from <= start <= Z.max from (Z.min to trim) ∧ blockNum <$> rest ++ l = rangeIds start (to - 1)).
  { rewrite fmap_app, Hn, Hl. destruct (decide (trim < to')) as [Htrim|Htrim].
    - exists (Z.max from trim). split; [lia|]. apply rangeIds_app; lia.
    - exists to'. split; [lia|]. by rewrite rangeIds_nil by lia. }
  unfold gotMiniblocks. destruct skip; [by run|]. rewrite res_bind, res_bind.
  destruct (res (saveMiniblocks _ _ _) _); [|done]. run. destruct Hall as (start & Hst & Hall). exists start. split; [done|].
  rewrite fmap_app in *. rewrite <- Hall. f_equal. rewrite <- list_fmap_compose. by apply list_fmap_ext.
Qed.
End Cache.

(** ** Into the view *)

Section View.
Context `{EthLib, Codec, Lodash}.

Definition headerOf (p : ParsedEvent) : option MiniblockHeader :=
  match ev_payload (pe_event p) with P_miniblockHeader h => Some h | _ => None end.

(** The range of the view and where the previous snapshot is *)
Definition marks (s : StreamStateView) : option MiniblockInfo * Z := (miniblockInfo s, prevSnapshotMiniblockNum s).
Definition lowered (m : option MiniblockInfo * Z) (h : MiniblockHeader) : option MiniblockInfo * Z :=
  (Some match m.1 with
   | None => {| mbi_max := mh_miniblockNum h; mbi_min := mh_miniblockNum h; mbi_terminusReached := mh_miniblockNum h =? 0 |}
   | Some info =>
       let info := if truthy_bigint (Some (mh_miniblockNum h)) && (mh_miniblockNum h <? mbi_min info)
                   then info <| mbi_min := mh_miniblockNum h |> else info in
       if (mbi_min info =? 0) || (mbi_max info =? 0) then info <| mbi_terminusReached := true |> else info
   end, mh_prevSnapshotMiniblockNum h).

Definition remembers (h : Heap) (o : ObjId) (p : ParsedEvent) : Prop :=
  ∃ e, get_obj o h = Some e ∧ ste_remoteEvent e = Some p.

Lemma remembers_ext h h' o p : heap_wf h → heap_ext h h' → remembers h o p → remembers h' o p.
Proof.
  intros Hw Hx (e & He & Hp). destruct (Hx Hw) as (_ & _ & Hk). destruct (Hk o e He) as (e' & He' & Heq).
  exists e'. split; [done|]. rewrite <- Hp, <- Heq. by destruct e'.
Qed.

Lemma quiet_prepend o p ct enc st : headerOf p = None → moves quiet (prepend_payload o p ct enc st).
Proof.
  intros Hp. unfold prepend_payload. unfold headerOf in Hp.
  destruct (ev_payload (pe_event p)); try done; try (by intros env); apply moves_quiet_part;
    try (apply moves_getContent; intros; auto with moves nocore).
  apply moves_on_members. auto with moves nocore.
Qed.

Lemma header_prepend o p h ct enc st env :
  headerOf p = Some h →
  heap (post (prepend_payload o p ct enc st) env) = heap env
  ∧ marks (self (post (prepend_payload o p ct enc st) env)) = lowered (marks (self env)) h.
Proof.
  unfold headerOf, prepend_payload. destruct (ev_payload (pe_event p)); try done. intros [= ->].
  unfold updateMiniblockInfo, lowered, marks. run_env. split; [done|]. simpl.
  by destruct (miniblockInfo (self env)) as [info|].
Qed.

Lemma prepend_one cts enc st o p env :
  heap_wf (heap env) → remembers (heap env) o p →
  res (prepend_object cts enc st o) env = Ok tt
  ∧ heap_ext (heap env) (heap (post (prepend_object cts enc st o) env))
  ∧ marks (self (post (prepend_object cts enc st o) env))
    = match headerOf p with Some h => lowered (marks (self env)) h | None => marks (self env) end.
Proof.
  intros Hw (e & He & Hp). unfold prepend_object. rewrite (res_bind_deref _ _ _ _ He), (post_bind_deref _ _ _ _ He).
  unfold processPrependedEvent.
  match goal with |- context [remoteOf o ≫= ?k] => destruct (remoteOf_run o e p k env He Hp) as [-> ->] end.
  rewrite catch_res, catch_post. split; [by destruct (res _ env) as [[]|]|]. destruct (headerOf p) as [h|] eqn:Eh.
  - destruct (header_prepend o p h (cleartext_at cts (ste_hashStr e)) enc st env Eh) as [Hh Hm]. rewrite Hh. split; [reflexivity|done].
  - destruct (quiet_prepend o p (cleartext_at cts (ste_hashStr e)) enc st Eh env) as [Hh Hs]. split; [done|].
    unfold shell in Hs. injection Hs as _ _ _ _ _ _ _ Hsnap Hinfo _. unfold marks. by rewrite Hsnap, Hinfo.
Qed.

Definition loweredAll (m : option MiniblockInfo * Z) (ps : list ParsedEvent) : option MiniblockInfo * Z :=
  foldl lowered m (omap headerOf ps).

Lemma prepend_all cts enc st : ∀ os ps env,
  heap_wf (heap env) → Forall2 (remembers (heap env)) os ps →
  res (forM os (prepend_object cts enc st)) env = Ok tt
  ∧ marks (self (post (forM os (prepend_object cts enc st)) env)) = loweredAll (marks (self env)) ps.
Proof.
  induction os as [|o os IH]; intros ps env Hw Hos; apply Forall2_cons_inv_l in Hos || apply Forall2_nil_inv_l in Hos; [by subst|].
  destruct Hos as (p & ps' & Hp & Hos & ->). destruct (prepend_one cts enc st o p env Hw Hp) as (Hr & Hx & Hm).
  cbn [forM]. rewrite (res_bind_ok _ _ _ _ Hr), (post_bind_ok _ _ _ _ Hr).
  destruct (IH ps' (post (prepend_object cts enc st o) env)) as [-> ->].
  - by destruct (Hx Hw).
  - eapply Forall2_impl; [exact Hos|]. intros o' p' Ho. by apply (remembers_ext (heap env)).
  - split; [done|]. rewrite Hm. unfold loweredAll. csimpl. by destruct (headerOf p).
Qed.

(** Objects are made for the events, in their order. *)
Definition makes (m : SM (list ObjId)) (ps : list ParsedEvent) : Prop :=
  ∀ env, heap_wf (heap env) → ∃ os h, m env = (Ok os, Build_Env h (view env) (self env), []) ∧ heap_ext (heap env) h ∧ heap_wf h
    ∧ Forall2 (remembers h) os ps.

Lemma makes_app (m1 m2 : SM (list ObjId)) (ps1 ps2 : list ParsedEvent) :
  makes m1 ps1 → makes m2 ps2 → makes (l ← m1; r ← m2; mret (l ++ r)) (ps1 ++ ps2).
Proof.
  intros M1 M2 env Hw. destruct (M1 env Hw) as (os1 & h1 & E1 & X1 & W1 & F1).
  destruct (M2 (Build_Env h1 (view env) (self env)) W1) as (os2 & h2 & E2 & X2 & W2 & F2). simpl in *.
  exists (os1 ++ os2), h2. cbv [mbind M_bind mret M_ret]. rewrite E1, E2. simpl. split_and!; [done|by etrans|done|].
  apply Forall2_app; [|done]. eapply Forall2_impl; [exact F1|]. intros o p. by apply remembers_ext.
Qed.

Lemma makes_block hd : ∀ events i, makes (miniblockEvents hd i events) events.
Proof.
  induction events as [|p events IH]; intros i env Hw; cbn [miniblockEvents].
  { exists [], (heap env). split; [by destruct env|]. split; [reflexivity|]. split; [done|constructor]. }
  set (e := makeRemoteTimelineEvent p _ _ _). cbv [mbind M_bind newEvent mret M_ret].
  destruct (heap_ext_alloc e (heap env) Hw) as (Hw1 & _). pose proof (heap_ext_alloc e (heap env)) as X1.
  destruct (alloc_obj e (heap env)) as [o h1] eqn:Ea. simpl in *.
  destruct (IH (i + 1) (Build_Env h1 (view env) (self env)) Hw1) as (os & h2 & E2 & X2 & W2 & F2). rewrite E2. simpl.
  exists (o :: os), h2. split_and!; [done|by etrans|done|]. constructor; [|done].
  apply (remembers_ext h1); [done..|]. exists e. split; [|done].
  assert (o = next_id (heap env)) as -> by (by injection Ea). pose proof (get_obj_alloc e (heap env)) as Hg.
  by rewrite Ea in Hg.
Qed.

Lemma makes_blocks mbs : makes (flatEvents mbs) (mbs ≫= mb_events).
Proof.
  induction mbs as [|mb mbs IH]; cbn [flatEvents].
  - intros env Hw. exists [], (heap env). split; [by destruct env|]. split; [reflexivity|]. split; [done|constructor].
  - csimpl. apply makes_app; [apply makes_block|exact IH].
Qed.

Lemma quiet_marks env env' : quiet env env' → marks (self env') = marks (self env).
Proof. intros [_ Hs]. unfold shell in Hs. injection Hs as _ _ _ _ _ _ _ Hsnap Hinfo _. unfold marks. by rewrite Hsnap, Hinfo. Qed.
Lemma quiet_derefs os : moves quiet (derefs os).
Proof. induction os; cbn [derefs]; moves. Qed.

Lemma prependEvents_marks mbs cts terminus enc st env :
  heap_wf (heap env) →
  let m := marks (self (post (StreamState.prependEvents mbs cts terminus enc st) env)) in
  let m' := loweredAll (marks (self env)) (reverse (mbs ≫= mb_events)) in
  mbi_min <$> m.1 = mbi_min <$> m'.1 ∧ m.2 = m'.2.
Proof.
  intros Hw m m'. destruct (makes_blocks mbs env Hw) as (os & h & Em & Hx & Hw' & Hos).
  assert (Hres : res (flatEvents mbs) env = Ok os) by (unfold res; by rewrite Em).
  assert (Hpost : post (flatEvents mbs) env = Build_Env h (view env) (self env)) by (unfold post; by rewrite Em).
  unfold m, StreamState.prependEvents. rewrite (post_bind_ok _ _ _ _ Hres), Hpost.
  destruct (prepend_all cts enc st (reverse os) (reverse (mbs ≫= mb_events)) (Build_Env h (view env) (self env))) as [Hr Hm]; [done| |].
  { by apply Forall2_reverse. }
  rewrite (post_bind_ok _ _ _ _ Hr).
  assert (Htail : moves quiet (env ← getM; _ ← whenM (isInitialized env)
        (events ← derefs os; on_timelines (TimelinesView.streamUpdated (ssv_streamId (self env)) {|
           ch_prepended := Some events; ch_appended := None; ch_updated := None; ch_confirmed := None |}));
        (mret os : SM (list ObjId)))) by (moves; apply quiet_derefs).
  destruct terminus; cbn [whenM].
  - unfold on_self. rewrite post_bind_modify, (quiet_marks _ _ (Htail _)). unfold m'.
    change (self (Build_Env h (view env) (self env))) with (self env) in Hm. rewrite <- Hm. unfold marks. simpl.
    match goal with |- context [miniblockInfo ?s] => by destruct (miniblockInfo s) end.
  - rewrite post_bind_ret, (quiet_marks _ _ (Htail _)), Hm. done.
Qed.

(** A miniblock with its header among its events *)
Definition framedBlock (mb : ParsedMiniblock) : Prop :=
  ∃ h, omap headerOf (mb_events mb) = [h] ∧ mh_miniblockNum h = blockNum mb
    ∧ mh_prevSnapshotMiniblockNum h = mh_prevSnapshotMiniblockNum (mb_header mb).
Definition heads (h : MiniblockHeader) (mb : ParsedMiniblock) : Prop :=
  mh_miniblockNum h = blockNum mb ∧ mh_prevSnapshotMiniblockNum h = mh_prevSnapshotMiniblockNum (mb_header mb).

Lemma omap_reverse {A B} (f : A → option B) (l : list A) : omap f (reverse l) = reverse (omap f l).
Proof.
  induction l as [|x l IH]; [done|]. rewrite reverse_cons, omap_app, IH. csimpl.
  destruct (f x); simpl; [by rewrite reverse_cons|by rewrite app_nil_r].
Qed.

Lemma headers_of mbs : Forall framedBlock mbs →
  ∃ hs, omap headerOf (reverse (mbs ≫= mb_events)) = reverse hs ∧ Forall2 heads hs mbs.
Proof.
  intros Hf. rewrite omap_reverse. induction Hf as [|mb mbs (h & Hh & Hn & Hp) _ (hs & IH & Hhs)]; [by exists []|].
  exists (h :: hs). csimpl. rewrite omap_app, Hh. apply (inj reverse) in IH. rewrite IH. split; [done|].
  by constructor.
Qed.

(** The headers are met from the last to the first one. *)
Lemma lowered_down : ∀ hs start to info prev,
  mh_miniblockNum <$> hs = rangeIds start (to - 1) → mbi_min info = to → 0 <= start <= to →
  let m := foldl lowered (Some info, prev) (reverse hs) in
  (∃ info', m.1 = Some info' ∧ mbi_min info' = if decide (start = to) then to else Z.max 1 start)
  ∧ m.2 = default prev (mh_prevSnapshotMiniblockNum <$> head hs).
Proof.
  induction hs as [|h hs IH]; intros start to info prev Hn Hmin Hs.
  { simpl. assert (start = to) as ->. { destruct (decide (start = to)); [done|]. unfold rangeIds in Hn. rewrite seqZ_cons in Hn by lia. done. }
    rewrite decide_True by done. split; [by exists info|done]. }
  assert (Hlt : start < to). { destruct (decide (start < to)); [done|]. rewrite rangeIds_nil in Hn by lia. done. }
  unfold rangeIds in Hn. rewrite seqZ_cons in Hn by lia. injection Hn as Hh Hn.
  destruct (IH (Z.succ start) to info prev) as [(info' & Hi & Hm) _]; [|done|lia|].
  { etrans; [exact Hn|]. unfold rangeIds. f_equal. lia. }
  rewrite reverse_cons, foldl_app. cbn [foldl]. unfold lowered at 1. rewrite Hi, decide_False by lia. cbn [fst snd head fmap option_fmap].
  split; [|by unfold lowered]. eexists. split; [done|]. rewrite Hh.
  assert (Hm' : mbi_min info' = Z.succ start) by (destruct (decide _); lia).
  unfold truthy_bigint. rewrite Hm'. destruct (Z.eqb_spec start 0) as [->|Hne]; simpl.
  - rewrite Hm'. by destruct ((_ =? _) || _).
  - rewrite (proj2 (Z.ltb_lt _ _)) by lia. simpl. destruct ((_ =? _) || _); simpl; lia.
Qed.

Lemma prepended_marks mbs cts terminus enc st env start to :
  heap_wf (heap env) → Forall framedBlock mbs → blockNum <$> mbs = rangeIds start (to - 1) → 0 <= start < to →
  mbi_min <$> miniblockInfo (self env) = Some to →
  let s := self (post (StreamState.prependEvents mbs cts terminus enc st) env) in
  mbi_min <$> miniblockInfo s = Some (Z.max 1 start)
  ∧ Some (prevSnapshotMiniblockNum s) = mh_prevSnapshotMiniblockNum ∘ mb_header <$> head mbs.
Proof.
  intros Hw Hf Hn Hs Hmin. destruct (prependEvents_marks mbs cts terminus enc st env Hw) as [H1' H2']. cbv zeta.
  destruct (headers_of mbs Hf) as (hs & Hhs & Hall). destruct (miniblockInfo (self env)) as [info|] eqn:Ei; [|done].
  injection Hmin as Hmin. unfold loweredAll in *. rewrite Hhs in *. unfold marks at 2 in H1'. unfold marks at 2 in H2'. rewrite Ei in *.
  destruct (lowered_down hs start to info (prevSnapshotMiniblockNum (self env))) as [(info' & Hi & Hm) Hp]; [|done|lia|].
  { rewrite <- Hn. clear -Hall. induction Hall as [|h mb hs mbs [Hh _] _ IH]; [done|]. csimpl. by rewrite Hh, IH. }
  rewrite Hi in H1'. rewrite Hp in H2'. simpl in H1', H2'. rewrite decide_False in Hm by lia. split; [by rewrite H1', <- Hm|].
  rewrite H2'. destruct Hall as [|h mb hs mbs [_ Hpv] _]; [|by simpl; rewrite Hpv].
  unfold rangeIds in Hn. by rewrite seqZ_cons in Hn by lia.
Qed.
End View.

Section Scrollback.
Context `{EthLib, Codec, Lodash, CryptoLib, EnvelopeCodec, PersistenceCodec, !PersistenceLaws}.

(** The first miniblock of the view *)
Definition firstBlock (c : Client) : option Z := mbi_min <$> miniblockInfo (view_ (cn_synced c)).

Lemma begin_range c from to :
  res beginScrollback c = Ok (inr (from, to)) → from <= to ∧ firstBlock c = Some to.
Proof.
  unfold beginScrollback, firstBlock, check. run. destruct (cn_has c); [|done]. run.
  destruct (miniblockInfo _) as [info|]; [|done]. destruct (mbi_terminusReached info); [done|].
  match goal with |- context [?a <=? ?b] => destruct (Z.leb_spec a b) end; [|done]. run. intros [= <- <-]. by split.
Qed.

Lemma end_prepends c from to start l terminus cts :
  stream_wf (venv c) → Forall framedBlock l → blockNum <$> l = rangeIds start (to - 1) → 0 <= start < to →
  firstBlock c = Some to →
  let c' := post (endScrollback from to l terminus cts) c in
  firstBlock c' = Some (Z.max 1 start)
  ∧ Some (prevSnapshotMiniblockNum (view_ (cn_synced c'))) = mh_prevSnapshotMiniblockNum ∘ mb_header <$> head l.
Proof.
  intros Hw Hf Hn Hs Hmin c'.
  assert (Hview : ∀ c, view_ (cn_synced c) = self (venv c)) by done.
  assert (Hv : venv c' = post (StreamState.prependEvents l cts terminus true true) (venv c)).
  { unfold c', endScrollback. run. unfold firstBlock in Hmin. rewrite Hmin. simpl default. rewrite Z.eqb_refl. unfold Stream.prependEvents.
    destruct (on_synced_super (StreamState.prependEvents l cts terminus true true) c) as (Hv & _ & _).
    rewrite <- Hv. unfold post, on_synced, super, venv. cbv [mbind M_bind mret M_ret].
    destruct (with_view _ _) as [[[?|?] ?] ?]; done. }
  destruct (prepended_marks l cts terminus true true (venv c) start to (wf_heap _ Hw) Hf Hn Hs) as [H1' H2']; [exact Hmin|].
  unfold firstBlock. by rewrite !Hview, Hv.
Qed.

(** C17. Scrolling back leaves no gap. The client asks for the blocks below the
    first one of the view, with whatever was ever saved in the cache. When the
    requests to the cache succeed, the answers of the node are runs of the blocks
    it has, or errors, and the call returns: the blocks that come back are a
    gapless run that ends right below the first block of the view, and starts at
    the previous snapshot if the node has that block; the node is asked no more
    often than blocks are missing. If the view has changed its first block
    meanwhile, nothing is done. Otherwise, when each block carries its header,
    the view afterwards starts where the run starts, or at block 1 when the run
    starts at block 0, and knows the previous snapshot of its new first block. *)
Theorem scrollback_joins ops trim opts skip answers c from to :
  ps_faults (history ops) = [] →
  res beginScrollback c = Ok (inr (from, to)) →
  let streamId := streamId_ (cn_synced c) in
  (∀ l to', res (getCachedMiniblocks streamId from to) (history ops) = Ok (l, to') → served trim opts answers from to') →
  match res (Scrollback.getMiniblocks streamId from to skip opts answers) (history ops) with
  | Throw _ => True
  | Ok None => Z.of_nat (length answers) < to - from
  | Ok (Some (l, terminus)) =>
      ∃ start, from <= start <= Z.max from (Z.min to trim) ∧ blockNum <$> l = rangeIds start (to - 1)
      ∧ ∀ c' cts,
          let c'' := post (endScrollback from to l terminus cts) c' in
          (firstBlock c' ≠ Some to → 0 <= to → c'' = c')
          ∧ (firstBlock c' = Some to → stream_wf (venv c') → Forall framedBlock l → 0 <= start < to →
             firstBlock c'' = Some (Z.max 1 start)
             ∧ Some (prevSnapshotMiniblockNum (view_ (cn_synced c''))) = mh_prevSnapshotMiniblockNum ∘ mb_header <$> head l)
  end.
Proof.
  intros Hfaults Hbegin streamId Hserved. destruct (begin_range c from to Hbegin) as [Hle _].
  pose proof (getMiniblocks_run ops (history ops) trim opts streamId from to skip answers (history_traced ops) Hfaults Hle Hserved) as Hrun.
  destruct (res (Scrollback.getMiniblocks _ _ _ _ _ _) _) as [[[l terminus]|]|]; [|done..]. destruct Hrun as (start & Hst & Hn). exists start. split_and!; [lia|lia|done|].
  intros c' cts. split.
  - intros Hne Hto. unfold endScrollback. run. unfold firstBlock in Hne.
    rewrite (proj2 (Z.eqb_neq _ _)); [done|]. destruct (mbi_min <$> _); simpl; [congruence|lia].
  - intros Hfirst Hw Hf Hs. by apply (end_prepends c' from to start).
Qed.
End Scrollback.

Module ScrollbackWitness.
Import ModelEth Fixtures ModelCrypto SignWitness StreamWitness LifecycleExample PersistenceWitness.

Definition numbered (n : Z) (hash : byte) : ParsedMiniblock := {|
  mb_hash := [hash]; mb_header := StreamWitness.header n n [];
  mb_events := [StreamWitness.headerEvent hash (StreamWitness.header n n [])] |}.
(** A view that starts at block 2; block 1 is cached, block 0 is not. *)
Definition shown : Client :=
  Build_Client blobs
    (post (initialize cookie [] channelSnapshot [numbered 2 x12] [] 0 None) begun) true true.
Definition kept : list StoreOp := [SaveMiniblocks channelId [numbered 1 x11] backward].
Definition answer : Res GetMiniblocksResponse := Ok {|
  gm_miniblocks := sac_miniblocks SignWitness.stream; gm_terminus := true; gm_snapshots := ∅ |}.

Lemma answer_served l to' :
  res (getCachedMiniblocks channelId 0 2) (history kept) = Ok (l, to') → served 0 None [answer] 0 to'.
Proof.
  assert (Hc : ∃ l, res (getCachedMiniblocks channelId 0 2) (history kept) = Ok (l, 1)) by (eexists; vm_compute; reflexivity).
  destruct Hc as [l1 Hc]. rewrite Hc. intros [= <- <-]. split; [|exact I]. eexists. split; [vm_compute; reflexivity|].
  split; [vm_compute; reflexivity|]. split; [vm_compute; discriminate|]. discriminate.
Qed.

Lemma scrollback_joins_witness :
  ∃ l, res (Scrollback.getMiniblocks channelId 0 2 false None [answer]) (history kept) = Ok (Some (l, true))
    ∧ blockNum <$> l = [0; 1].
Proof.
  assert (Hl : ∃ l, res (Scrollback.getMiniblocks channelId 0 2 false None [answer]) (history kept) = Ok (Some (l, true)))
    by (eexists; vm_compute; reflexivity).
  destruct Hl as [l Hl]. exists l. split; [exact Hl|].
  assert (Hb : res beginScrollback shown = Ok (inr (0, 2))) by (vm_compute; reflexivity).
  assert (Hf : ps_faults (history kept) = []) by (vm_compute; reflexivity).
  pose proof (scrollback_joins kept 0 None false [answer] shown 0 2 Hf Hb answer_served) as Ht.
  change (streamId_ (cn_synced shown)) with channelId in Ht. rewrite Hl in Ht. destruct Ht as (start & Hs & Hn & _).
  assert (start = 0) as -> by lia. exact Hn.
Defined.

(** A request to the cache fails after two blocks were read: they are returned
    in the wrong order, the later one first. *)
Lemma cached_out_of_order :
  blockNum <$> match res (getCachedMiniblocks channelId 0 4)
      (history [SaveMiniblocks channelId [numbered 2 x12; numbered 3 x13] backward; Faults [None; None; aborted]]) with
    | Ok (l, _) => l | Throw _ => [] end = [3; 2].
Proof. vm_compute. reflexivity. Qed.
End ScrollbackWitness.
