(* ===== verification/Tags.v ===== *)
(** * Tags: the tags of outgoing messages (sdk/src/tags.ts)

    Tags tell the notification service what kind of message an event is and whom
    it concerns. The timeline of the stream view is an argument. *)

From S2P Require Import Prelude JsLib Ids Proto Types TimelineTypes.

Section Tags.
Context `{EthLib}.

(** [streamView.timeline.find((x) => x.eventId === eventId)] *)
Definition findInTimeline (eventId : string) (timeline : list TimelineEvent) : option TimelineEvent :=
  findJs (λ x, String.eqb (tl_eventId x) eventId) timeline.

Definition getParentThreadId (eventId : option string) (timeline : list TimelineEvent) : Res (option bytes) :=
  match eventId with
  | Some eventId =>
      if negb (truthy_str eventId) then Ok None
      else
        match findInTimeline eventId timeline with
        | None => Ok None
        | Some event =>
            match tl_content event with
            | Some (TE_ChannelMessage m) =>
                match cme_threadId m with
                | Some threadId => if truthy_str threadId then Some <$> bin_fromHexString threadId else Ok None
                | None => Ok None
                end
            | _ => Ok None
            end
        end
  | None => Ok None
  end.

Definition getThreadId (message : ChannelMessage) (timeline : list TimelineEvent) : Res (option bytes) :=
  match message with
  | CM_post post =>
      match po_threadId post with
      | Some threadId => if truthy_str threadId then Some <$> bin_fromHexString threadId else Ok None
      | None => Ok None
      end
  | CM_reaction refEventId _ | CM_edit refEventId _ | CM_redaction refEventId _ =>
      getParentThreadId (Some refEventId) timeline
  | CM_unset => Ok None
  end.

Definition getMessageInteractionType (message : ChannelMessage) : MessageInteractionType :=
  match message with
  | CM_reaction _ _ => MIT_REACTION
  | CM_post post => if truthy (po_threadId post) then MIT_REPLY else if truthy (po_replyId post) then MIT_REPLY else MIT_POST
  | CM_edit _ _ => MIT_EDIT
  | CM_redaction _ _ => MIT_REDACTION
  | CM_unset => MIT_UNSPECIFIED
  end.

(** The mentions of a post with text *)
Definition mentionsOf (message : ChannelMessage) : list PostMention :=
  match message with
  | CM_post post => match po_content post with PC_text text => txt_mentions text | _ => [] end
  | _ => []
  end.

Definition getGroupMentionTypes (message : ChannelMessage) : list GroupMentionType :=
  if existsb (λ m, match mn_mentionBehavior m with MB_atChannel => true | _ => false end) (mentionsOf message)
  then [GMT_AT_CHANNEL] else [].

Definition getMentionedUserAddresses (message : ChannelMessage) : Res (list bytes) :=
  traverse (λ m, addressFromUserId (mn_userId m))
    (List.filter (λ m, match mn_mentionBehavior m with MB_unset => truthy_str (mn_userId m) | _ => false end)
       (mentionsOf message)).

(** [content?.kind === ChannelMessage && content.threadId === parentId] *)
Definition inThread (parentId : string) (event : TimelineEvent) : bool :=
  match tl_content event with
  | Some (TE_ChannelMessage m) => bool_decide (cme_threadId m = Some parentId)
  | _ => false
  end.

(** A [Set] of arrays keeps every array that is added, also equal ones. *)
Definition participantsFromParentEventId (parentId : string) (timeline : list TimelineEvent) : Res (list bytes) :=
  parent ← match findInTimeline parentId timeline with
           | Some parentEvent =>
               if truthy_str (tl_sender parentEvent) then (λ a, [a]) <$> addressFromUserId (tl_sender parentEvent) else Ok []
           | None => Ok []
           end;
  replies ← traverse (λ event, addressFromUserId (tl_sender event)) (List.filter (inThread parentId) timeline);
  Ok (parent ++ replies).

(** [threadId || replyId] *)
Definition parentIdOf (post : Post) : option string :=
  if truthy (po_threadId post) then po_threadId post else po_replyId post.

Definition getParticipatingUserAddresses (message : ChannelMessage) (timeline : list TimelineEvent) : Res (list bytes) :=
  match message with
  | CM_reaction refEventId _ =>
      match findInTimeline refEventId timeline with
      | Some event => (λ a, [a]) <$> addressFromUserId (tl_sender event)
      | None => Ok []
      end
  | CM_post post =>
      match parentIdOf post with
      | Some parentId => if truthy_str parentId then participantsFromParentEventId parentId timeline else Ok []
      | None => Ok []
      end
  | _ => Ok []
  end.

Definition unsafe_makeTags (message : ChannelMessage) : Res Tags :=
  mentioned ← getMentionedUserAddresses message;
  threadId ← match message with
             | CM_post post =>
                 match po_threadId post with
                 | Some threadId => if truthy_str threadId then Some <$> bin_fromHexString threadId else Ok None
                 | None => Ok None
                 end
             | _ => Ok None
             end;
  Ok {| tg_messageInteractionType := getMessageInteractionType message;
        tg_groupMentionTypes := getGroupMentionTypes message;
        tg_mentionedUserAddresses := mentioned;
        tg_participatingUserAddresses := [];
        tg_threadId := threadId |}.

Definition makeTags (message : ChannelMessage) (timeline : list TimelineEvent) : Res Tags :=
  mentioned ← getMentionedUserAddresses message;
  participating ← getParticipatingUserAddresses message timeline;
  threadId ← getThreadId message timeline;
  Ok {| tg_messageInteractionType := getMessageInteractionType message;
        tg_groupMentionTypes := getGroupMentionTypes message;
        tg_mentionedUserAddresses := mentioned;
        tg_participatingUserAddresses := participating;
        tg_threadId := threadId |}.

(** The tip names its message. *)
Definition makeTipTags (messageId : option string) (toUserId : string) (timeline : list TimelineEvent) : Res Tags :=
  to ← addressFromUserId toUserId;
  threadId ← getParentThreadId messageId timeline;
  Ok {| tg_messageInteractionType := MIT_TIP; tg_groupMentionTypes := []; tg_mentionedUserAddresses := [];
        tg_participatingUserAddresses := [to]; tg_threadId := threadId |}.

Definition makeTransferTags (messageId : bytes) (timeline : list TimelineEvent) : Res Tags :=
  participating ← participantsFromParentEventId (bin_toHexString messageId) timeline;
  threadId ← getParentThreadId (Some (bytesToHex messageId)) timeline;
  Ok {| tg_messageInteractionType := MIT_TRADE; tg_groupMentionTypes := []; tg_mentionedUserAddresses := [];
        tg_participatingUserAddresses := participating; tg_threadId := threadId |}.
End Tags.
