(* ===== verification/TagsFacts.v ===== *)
(** * TagsFacts: whom a message concerns

    The participants and the mentioned users in the tags of a message are exactly
    the people in the conversation and those named in the text. *)

From Stdlib Require Import Strings.Ascii Strings.Byte.
From S2P Require Import Prelude JsLib Ids IdsFacts Proto Types TimelineTypes Fixtures Timelines TimelinesFacts Tags.

Section Tags.
Context `{EthLib}.

(** The first event of a timeline with an id *)
Definition first_with (eventId : string) (timeline : list TimelineEvent) (e : TimelineEvent) : Prop :=
  ∃ before after, timeline = before ++ e :: after ∧ tl_eventId e = eventId ∧ ∀ x, x ∈ before → tl_eventId x ≠ eventId.
(** The message that a post answers: that of its thread, or else the one it replies to *)
Definition answers (post : Post) (parentId : string) : Prop :=
  parentId ≠ "" ∧ (po_threadId post = Some parentId
    ∨ (po_threadId post = None ∨ po_threadId post = Some "") ∧ po_replyId post = Some parentId).
(** A mention in the text of a post *)
Definition mentions (message : ChannelMessage) (m : PostMention) : Prop :=
  ∃ post text, message = CM_post post ∧ po_content post = PC_text text ∧ m ∈ txt_mentions text.
(** The people in the conversation below [parentId]: the author of that message, and
    those who wrote in its thread *)
Definition participates (parentId : string) (timeline : list TimelineEvent) (a : bytes) : Prop :=
  (∃ e, first_with parentId timeline e ∧ tl_sender e ≠ "" ∧ addressFromUserId (tl_sender e) = Ok a)
  ∨ ∃ e m, e ∈ timeline ∧ tl_content e = Some (TE_ChannelMessage m) ∧ cme_threadId m = Some parentId
      ∧ addressFromUserId (tl_sender e) = Ok a.

Lemma found_first eventId timeline e : findInTimeline eventId timeline = Some e ↔ first_with eventId timeline e.
Proof.
  unfold findInTimeline, first_with. induction timeline as [|x l IH].
  { split; [done|]. by intros ([|? ?] & ? & ? & _). }
  rewrite findJs_cons. destruct (String.eqb_spec (tl_eventId x) eventId) as [Ex|Ex].
  - split; [intros [= <-]; exists [], l; split_and!; [done..|by intros ? ?%not_elem_of_nil]|].
    intros ([|y before] & after & E & _ & Hn); simplify_eq/=; [done|]. by destruct (Hn y); [left|].
  - rewrite IH. split.
    + intros (before & after & -> & He & Hn). exists (x :: before), after. split_and!; [done..|].
      intros y [->|Hy]%elem_of_cons; [done|by apply Hn].
    + intros ([|y before] & after & E & He & Hn); simplify_eq/=. exists before, after. split_and!; [done..|].
      intros z Hz. apply Hn. by right.
Qed.
Lemma in_thread parentId e : inThread parentId e = true ↔
  ∃ m, tl_content e = Some (TE_ChannelMessage m) ∧ cme_threadId m = Some parentId.
Proof.
  unfold inThread. split.
  - destruct (tl_content e) as [[]|]; try done. intros Hb%bool_decide_eq_true. eauto.
  - intros (m & -> & ?). by apply bool_decide_eq_true.
Qed.
Lemma mentions_of message m : m ∈ mentionsOf message ↔ mentions message m.
Proof.
  unfold mentionsOf, mentions. split.
  - destruct message as [|post| | |]; try by intros ?%not_elem_of_nil. destruct (po_content post) eqn:Ep;
      try by intros ?%not_elem_of_nil. eauto.
  - by intros (post & text & -> & -> & ?).
Qed.

Lemma traverse_elem {A B} (f : A → Res B) l r y : traverse f l = Ok r → y ∈ r ↔ ∃ x, x ∈ l ∧ f x = Ok y.
Proof.
  intros Ht. apply traverse_ok in Ht. induction Ht as [|x z l r Hx _ IH]; [set_solver|].
  rewrite elem_of_cons, IH. split.
  - intros [->|(x' & Hin & Hf)]; [exists x; split; [by left|done]|exists x'; split; [by right|done]].
  - intros (x' & [->|Hin]%elem_of_cons & Hf); [left; congruence|right; eauto].
Qed.

Lemma author_exact eventId timeline l (P : TimelineEvent → bool) :
  match findInTimeline eventId timeline with
  | Some e => if P e then (λ a, [a]) <$> addressFromUserId (tl_sender e) else Ok []
  | None => Ok []
  end = Ok l →
  ∀ a, a ∈ l ↔ ∃ e, first_with eventId timeline e ∧ P e = true ∧ addressFromUserId (tl_sender e) = Ok a.
Proof.
  intros Hl a. setoid_rewrite <- found_first. destruct (findInTimeline eventId timeline) as [e|].
  2: { injection Hl as <-. split; [by intros ?%not_elem_of_nil|by intros (? & ? & _)]. }
  destruct (P e) eqn:EP.
  - destruct (addressFromUserId (tl_sender e)) as [b|] eqn:Eb; [|done]. injection Hl as <-.
    rewrite list_elem_of_singleton. split; [intros ->; by exists e|]. intros (e' & [= <-] & _ & Hb). congruence.
  - injection Hl as <-. split; [by intros ?%not_elem_of_nil|]. intros (e' & [= <-] & He & _). congruence.
Qed.

Lemma participants_exact parentId timeline l :
  participantsFromParentEventId parentId timeline = Ok l → ∀ a, a ∈ l ↔ participates parentId timeline a.
Proof.
  unfold participantsFromParentEventId, participates. intros Hl a.
  apply bind_Ok in Hl as (parent & Hp & (replies & Hr & [= <-])%bind_Ok).
  rewrite elem_of_app, (traverse_elem _ _ _ a Hr), (author_exact _ _ _ _ Hp a). unfold truthy_str.
  setoid_rewrite negb_true_iff. setoid_rewrite String.eqb_neq.
  split; (intros [?|He]; [by left|right]).
  - destruct He as (e & [Hin (m & Hm & Ht)%in_thread]%list_elem_of_In%List.filter_In & Ha). exists e, m.
    by rewrite list_elem_of_In.
  - destruct He as (e & m & Hin & Hm & Ht & Ha). exists e. split; [|done]. apply list_elem_of_In, List.filter_In.
    rewrite <- list_elem_of_In. split; [done|]. apply in_thread. eauto.
Qed.

Lemma parent_answers post parentId : parentIdOf post = Some parentId → parentId ≠ "" → answers post parentId.
Proof.
  unfold parentIdOf, answers. intros Hp Hne. split; [done|].
  destruct (po_threadId post) as [[|c t]|]; simpl in Hp; auto.
Qed.
Lemma answers_parent post parentId : answers post parentId → parentIdOf post = Some parentId.
Proof. unfold parentIdOf. intros [Hne [->|[[-> | ->] ->]]]; [by destruct parentId|done..]. Qed.

Lemma mentioned_exact message l : getMentionedUserAddresses message = Ok l →
  ∀ a, a ∈ l ↔ ∃ m, mentions message m ∧ mn_mentionBehavior m = MB_unset ∧ mn_userId m ≠ ""
    ∧ addressFromUserId (mn_userId m) = Ok a.
Proof.
  unfold getMentionedUserAddresses. intros Hm a. rewrite (traverse_elem _ _ _ a Hm). setoid_rewrite <- mentions_of.
  split; intros (m & Hin & Ha).
  - apply list_elem_of_In, List.filter_In in Hin as [Hin Hb]. exists m. rewrite list_elem_of_In.
    destruct (mn_mentionBehavior m); [|done..]. split_and!; [done..| |done]. intros E. unfold truthy_str in Hb. by rewrite E in Hb.
  - destruct Ha as (Hb & Hne & Ha). exists m. split; [|done]. apply list_elem_of_In, List.filter_In. rewrite <- list_elem_of_In.
    split; [done|]. rewrite Hb. unfold truthy_str. by apply negb_true_iff, String.eqb_neq.
Qed.
Lemma group_mentions message :
  GMT_AT_CHANNEL ∈ getGroupMentionTypes message ↔ ∃ m, mentions message m ∧ mn_mentionBehavior m = MB_atChannel.
Proof.
  unfold getGroupMentionTypes. setoid_rewrite <- mentions_of. destruct (existsb _ _) eqn:E.
  - apply existsb_exists in E as (m & Hin%list_elem_of_In & Hb). split; [|intros _; by left]. intros _. exists m.
    split; [done|]. by destruct (mn_mentionBehavior m).
  - split; [by intros ?%not_elem_of_nil|]. intros (m & Hin & Hb). exfalso. apply not_true_iff_false in E. apply E.
    apply existsb_exists. exists m. by rewrite Hb, <- list_elem_of_In.
Qed.

(** C39. A message tells those whom it concerns. When the tags of a message can be
    made: the mentioned users are exactly those whom the text of a post mentions by
    their id, and the channel is named exactly when the text mentions it; a post in
    a thread, or else one that replies to a message, is tagged as a reply, and its
    participants are exactly the author of the first message with that id and those
    who have written in the thread of that id; other posts have no participants;
    a reaction concerns exactly the author of the first message with the id it is
    for; and edits and redactions concern nobody. *)
Theorem tags_notify message timeline tags :
  makeTags message timeline = Ok tags →
  (∀ a, a ∈ tg_mentionedUserAddresses tags ↔
     ∃ m, mentions message m ∧ mn_mentionBehavior m = MB_unset ∧ mn_userId m ≠ "" ∧ addressFromUserId (mn_userId m) = Ok a)
  ∧ (GMT_AT_CHANNEL ∈ tg_groupMentionTypes tags ↔ ∃ m, mentions message m ∧ mn_mentionBehavior m = MB_atChannel)
  ∧ (∀ post parentId, message = CM_post post → answers post parentId →
       tg_messageInteractionType tags = MIT_REPLY
       ∧ ∀ a, a ∈ tg_participatingUserAddresses tags ↔ participates parentId timeline a)
  ∧ (∀ post, message = CM_post post → (∀ parentId, ¬ answers post parentId) →
       tg_messageInteractionType tags = MIT_POST ∧ tg_participatingUserAddresses tags = [])
  ∧ (∀ refEventId reaction, message = CM_reaction refEventId reaction →
       tg_messageInteractionType tags = MIT_REACTION
       ∧ ∀ a, a ∈ tg_participatingUserAddresses tags ↔
           ∃ e, first_with refEventId timeline e ∧ addressFromUserId (tl_sender e) = Ok a)
  ∧ match message with CM_post _ | CM_reaction _ _ => True | _ => tg_participatingUserAddresses tags = [] end.
Proof.
  intros Ht. apply bind_Ok in Ht as (mentioned & Hm & (participating & Hp & (threadId & _ & [= <-])%bind_Ok)%bind_Ok).
  cbn [tg_mentionedUserAddresses tg_participatingUserAddresses tg_messageInteractionType tg_groupMentionTypes]. split_and!.
  - by apply mentioned_exact.
  - apply group_mentions.
  - intros post parentId -> Ha. pose proof (answers_parent _ _ Ha) as Hpar. destruct Ha as [Hne Ha].
    cbn [getParticipatingUserAddresses] in Hp. rewrite Hpar in Hp. destruct parentId as [|c t]; [done|].
    split; [|by apply participants_exact]. simpl. unfold truthy. destruct Ha as [->|[[-> | ->] ->]]; done.
  - intros post -> Hn. assert (Hpar : parentIdOf post = None ∨ parentIdOf post = Some "").
    { destruct (parentIdOf post) as [[|c t]|] eqn:E; auto. by destruct (Hn _ (parent_answers _ _ E ltac:(done))). }
    split; [|cbn [getParticipatingUserAddresses] in Hp; destruct Hpar as [E|E]; rewrite E in Hp; by injection Hp as <-].
    simpl. unfold parentIdOf, truthy in *. destruct (po_threadId post) as [[|c t]|]; simpl in *; [|by destruct Hpar|];
      by destruct Hpar as [-> | ->].
  - intros ref r ->. split; [done|]. intros a. rewrite (author_exact ref timeline participating (λ _, true) Hp a). naive_solver.
  - destruct message; try done; by injection Hp as <-.
Qed.
End Tags.

Module TagsWitness.
Import ModelEth Fixtures TimelinesWitness.

(** A message and two answers of one user in its thread *)
Definition thread : list TimelineEvent := [
  ev "0a" (user x0a) 1 (TE_ChannelMessage (msg "hello" None));
  ev "0b" (user x0b) 2 (TE_ChannelMessage ((msg "one" None) <| cme_threadId := Some "0a" |>));
  ev "0c" (user x0b) 3 (TE_ChannelMessage ((msg "two" None) <| cme_threadId := Some "0a" |>))].
Definition reply : ChannelMessage := CM_post (Build_Post (Some "0a") None None None (PC_text (Build_PostText_ "three" [] []))).
Definition made : Tags := {|
  tg_messageInteractionType := MIT_REPLY; tg_groupMentionTypes := []; tg_mentionedUserAddresses := [];
  tg_participatingUserAddresses := [addr x0a; addr x0b; addr x0b]; tg_threadId := Some [x0a] |}.

(** A user who has answered twice is listed twice. *)
Lemma participants_repeated : makeTags reply thread = Ok made.
Proof. vm_compute. reflexivity. Qed.

Lemma tags_notify_witness : participates "0a" thread (addr x0b).
Proof.
  destruct (tags_notify reply thread made) as (_ & _ & Hp & _).
  - vm_compute. reflexivity.
  - destruct (Hp _ "0a" eq_refl) as [_ Ha].
    + split; [discriminate|by left].
    + apply Ha. right. left.
Defined.
End TagsWitness.
