(* ===== verification/Transforms.v ===== *)
(** * Transforms: lists derived from the stores
    (sdk/src/views/transforms, sdk/src/views/streams/spaceMentionsTransform.ts)

    Each transform computes a value from the stores; when it equals the previous
    result that object is returned again, which is the same value. The order of
    [localeCompare] depends on the host and is the class [Collation]. *)

From S2P Require Import Prelude JsLib Ids Proto Types TimelineTypes TimelineEvent StreamViews Timelines UnreadMarkers.

(** [a.localeCompare(b) <= 0] *)
Class Collation := locale_leb : string → string → bool.

(** [prevResult && isEqual(prevResult, result) ? prevResult : result] *)
Definition reuse {A} `{EqDecision A} (prevResult : option A) (result : A) : A :=
  match prevResult with
  | Some prev => if bool_decide (prev = result) then prev else result
  | None => result
  end.

Record DmAndGdmModel := {
  dg_id : string;
  dg_joined : bool;
  dg_left : bool;
  dg_userIds : list string;
  dg_properties : option ChannelProperties;
  dg_isDecryptingProperties : option bool;
  dg_lastEventCreatedAtEpochMs : Z;
  dg_isGdm : bool;
}.
#[export] Instance DmAndGdmModel_eq_dec : EqDecision DmAndGdmModel.
Proof. solve_decision. Defined.
#[export] Instance Membership_eq_dec : EqDecision Membership.
Proof. solve_decision. Defined.

(** The stores; [Object.entries] gives their entries in some order. *)
Record DmsInput := {
  di_userId : string;
  di_memberships : gmap string Membership;
  di_streamMemberIds : gmap string (list string);
  di_dmStreams : gmap string DmStreamModel;
  di_gdmStreams : gmap string GdmStreamModel;
}.

Record MentionResult := {
  mr_unread : bool;
  mr_channelId : string;
  mr_timestamp : Z;
  mr_event : TimelineEvent;
  mr_thread : option TimelineEvent;
}.
Record SpaceMentions := {
  sm_mentions : list MentionResult;
  sm_unreadThreadCount : Z;
  sm_unreadChannelCount : Z;
}.
(** lodash's isEqual on mentions *)
Class MentionsEqual := sameMentions : list MentionResult → list MentionResult → bool.

Definition mentionOf (channelId : string) (threadsStats : gmap string (gmap string ThreadStatsData))
    (unreadMarkers : gmap string FullyReadMarker) (event : TimelineEvent) : MentionResult :=
  let threadStat := if truthy (tl_threadParentId event)
                    then threadsStats !! channelId ≫= λ m, m !! default "" (tl_threadParentId event) else None in
  {| mr_unread := match unreadMarkers !! default channelId (tl_threadParentId event) with
                  | Some m => fr_isUnread m && (fr_eventNum m <=? tl_eventNum event)
                  | None => false
                  end;
     mr_channelId := channelId;
     mr_timestamp := tl_createdAtEpochMs event;
     mr_event := event;
     mr_thread := threadStat ≫= ts_parentEvent |}.

(** The comparison gives no positive number: unread first, then later first. *)
Definition mention_leb (a b : MentionResult) : bool :=
  if mr_unread a && negb (mr_unread b) then true
  else if negb (mr_unread a) && mr_unread b then false
  else mr_timestamp b <=? mr_timestamp a.

Section Transforms.
Context `{EthLib, Collation, MentionsEqual}.

Definition sortLocale (l : list string) : list string := stable_sort locale_leb l.

(** The model of a group; the user is not listed. *)
Definition gdmModel (value : DmsInput) (entry : string * GdmStreamModel) : DmAndGdmModel :=
  let '(streamId, gdmStream) := entry in
  let membership := di_memberships value !! streamId in
  {| dg_id := streamId;
     dg_joined := bool_decide (membership = Some Mb_Join);
     dg_left := bool_decide (membership = Some Mb_Leave);
     dg_userIds := match di_streamMemberIds value !! streamId with
                   | Some l => sortLocale (List.filter (λ u, negb (String.eqb u (di_userId value))) l)
                   | None => []
                   end;
     dg_properties := gdm_metadata gdmStream;
     dg_isDecryptingProperties := Some (negb (bool_decide (gdm_latestMetadataEventId gdmStream = gdm_metadataEventId gdmStream)));
     dg_lastEventCreatedAtEpochMs := gdm_lastEventCreatedAtEpochMs gdmStream;
     dg_isGdm := true |}.

(** The model of a conversation of two; a conversation with oneself lists the user. *)
Definition dmModel (value : DmsInput) (entry : string * DmStreamModel) : DmAndGdmModel :=
  let '(streamId, dmStream) := entry in
  let membership := di_memberships value !! streamId in
  {| dg_id := streamId;
     dg_joined := bool_decide (membership = Some Mb_Join);
     dg_left := bool_decide (membership = Some Mb_Leave);
     dg_userIds := match di_streamMemberIds value !! streamId with
                   | Some l => sortLocale (List.filter (λ u, negb (String.eqb u (di_userId value)) || (length l =? 1)%nat) l)
                   | None => []
                   end;
     dg_properties := None;
     dg_isDecryptingProperties := None;
     dg_lastEventCreatedAtEpochMs := dmm_lastEventCreatedAtEpochMs dmStream;
     dg_isGdm := false |}.

(** The comparison gives no positive number: later first, then by id. *)
Definition recent_leb (a b : DmAndGdmModel) : bool :=
  if dg_lastEventCreatedAtEpochMs a =? dg_lastEventCreatedAtEpochMs b
  then negb (Str.ltb (dg_id b) (dg_id a))
  else dg_lastEventCreatedAtEpochMs b <? dg_lastEventCreatedAtEpochMs a.

Definition dmsAndGdmsTransform (value : DmsInput) (prevResult : option (list DmAndGdmModel)) : list DmAndGdmModel :=
  let gdmStreams := gdmModel value <$> map_to_list (di_gdmStreams value) in
  let dmStreams := dmModel value <$> map_to_list (di_dmStreams value) in
  reuse prevResult (stable_sort recent_leb (dmStreams ++ gdmStreams)).

Definition membershipsTransform (userStream : option UserStreamModel) (prevResult : option (gmap string Membership))
    : Res (gmap string Membership) :=
  entries ← traverse (λ '(k, m), op ← toMembership (um_op m); Ok (k, op))
              (map_to_list (from_option uvm_streamMemberships ∅ userStream));
  Ok (reuse prevResult (list_to_map entries)).

Definition spaceIdsTransform (memberships : gmap string Membership) (prevResult : option (list string)) : list string :=
  reuse prevResult
    (sortLocale (List.filter (λ p, isSpaceStreamId (SStr p.1) && bool_decide (p.2 = Mb_Join)) (map_to_list memberships)).*1).

Definition blockedUserIdsTransform (value : gmap string UserBlocks) (prevState : option (gset string)) : gset string :=
  reuse prevState
    (list_to_set (List.filter (λ p, match last (ub_blocks p.2) with Some b => blk_isBlocked b | None => false end)
                    (map_to_list value)).*1).

Definition dmsAndGdmsUnreadIdsTransform (myDmsAndGdms : list DmAndGdmModel) (markers : gmap string FullyReadMarker)
    (prevResult : option (gset string)) : gset string :=
  reuse prevResult
    (list_to_set (dg_id <$> List.filter (λ d, match markers !! dg_id d with Some m => fr_isUnread m | None => false end)
                    myDmsAndGdms)).

(** ** spaceMentionsTransform.ts *)

(** A loop over the timelines that may end the whole transform: [None] *)
Fixpoint channelMentions (entries : list (string * list TimelineEvent))
    (threadsStats : gmap string (gmap string ThreadStatsData)) (unreadMarkers : gmap string FullyReadMarker)
    (mentionsMap : gmap string (list MentionResult)) : Res (option (gmap string (list MentionResult))) :=
  match entries with
  | [] => Ok (Some mentionsMap)
  | (streamId, timeline) :: entries =>
      if negb (isChannelStreamId (SStr streamId)) then channelMentions entries threadsStats unreadMarkers mentionsMap
      else
        spaceId ← spaceIdFromChannelId streamId;
        match timeline with
        | [] => Ok None
        | _ =>
            let mentions := mentionOf streamId threadsStats unreadMarkers <$> List.filter tl_isMentioned timeline in
            channelMentions entries threadsStats unreadMarkers
              (<[spaceId := default [] (mentionsMap !! spaceId) ++ mentions]> mentionsMap)
        end
  end.

Definition setMentions (spaceId : string) (mentions : list MentionResult) (prev : gmap string SpaceMentions)
    : gmap string SpaceMentions :=
  if match prev !! spaceId with Some p => sameMentions (sm_mentions p) mentions | None => false end then prev
  else <[spaceId := {|
         sm_mentions := mentions;
         sm_unreadThreadCount := Z.of_nat (length (List.filter (λ m, isDefined (mr_thread m) && mr_unread m) mentions));
         sm_unreadChannelCount := Z.of_nat (length (List.filter (λ m, negb (isDefined (mr_thread m)) && mr_unread m) mentions)) |}]> prev.

(** [entries] is [Object.entries(timelines)]. *)
Definition spaceMentionsTransform (entries : list (string * list TimelineEvent))
    (threadsStats : gmap string (gmap string ThreadStatsData)) (unreadMarkers : gmap string FullyReadMarker)
    (state : option (gmap string SpaceMentions)) : Res (gmap string SpaceMentions) :=
  let state := default ∅ state in
  mentionsMap ← channelMentions entries threadsStats unreadMarkers ∅;
  match mentionsMap with
  | None => Ok state
  | Some mentionsMap =>
      Ok (foldl (λ state p, setMentions p.1 (stable_sort mention_leb p.2) state) state (map_to_list mentionsMap))
  end.
End Transforms.
