(* ===== verification/TransformsFacts.v ===== *)
(** * TransformsFacts: the list of conversations

    Every conversation is listed once, the latest first, with the people in it;
    the mentions of a space are counted right, but an empty channel stops the
    count. *)

From Stdlib Require Import Strings.Ascii Strings.Byte.
From S2P Require Import Prelude JsLib Ids IdsFacts Proto Types TimelineTypes TimelineEvent StreamViews Fixtures Timelines TimelinesFacts UnreadMarkers Transforms.

Lemma reuse_result {A} `{EqDecision A} (prev : option A) (result : A) : reuse prev result = result.
Proof. unfold reuse. destruct prev as [p|]; [|done]. by case_bool_decide. Qed.

Section Conversations.
Context `{EthLib, Collation}.

Lemma recent_total a b : recent_leb a b = true ∨ recent_leb b a = true.
Proof.
  unfold recent_leb, Str.ltb, String.ltb. rewrite (Z.eqb_sym (dg_lastEventCreatedAtEpochMs b)).
  destruct (Z.eqb_spec (dg_lastEventCreatedAtEpochMs a) (dg_lastEventCreatedAtEpochMs b)) as [|Hne].
  - rewrite (String.compare_antisym (dg_id a) (dg_id b)). destruct (String.compare (dg_id b) (dg_id a)); simpl; auto.
  - rewrite !Z.ltb_lt. lia.
Qed.
(** The order of the list: the later last event first, then the smaller id *)
Definition listed_before (a b : DmAndGdmModel) : Prop :=
  dg_lastEventCreatedAtEpochMs b < dg_lastEventCreatedAtEpochMs a
  ∨ dg_lastEventCreatedAtEpochMs a = dg_lastEventCreatedAtEpochMs b ∧ String.le (dg_id a) (dg_id b).
Lemma recent_listed a b : recent_leb a b = true → listed_before a b.
Proof.
  unfold recent_leb, listed_before, Str.ltb, String.ltb.
  destruct (Z.eqb_spec (dg_lastEventCreatedAtEpochMs a) (dg_lastEventCreatedAtEpochMs b)) as [E|]; [|rewrite Z.ltb_lt; lia].
  intros Hc. right. split; [done|]. unfold String.le, String.leb.
  pose proof (String.compare_antisym (dg_id a) (dg_id b)) as Ha. revert Hc Ha.
  by destruct (String.compare (dg_id a) (dg_id b)), (String.compare (dg_id b) (dg_id a)).
Qed.
#[local] Instance listed_before_trans : Transitive listed_before.
Proof.
  unfold listed_before. intros a b c [?|[? Hab]] [?|[? Hbc]]; [left; lia..|right]. split; [lia|]. by trans (dg_id b).
Qed.

Lemma Sorted_weaken {A} (R S : relation A) l : (∀ a b, R a b → S a b) → Sorted R l → Sorted S l.
Proof.
  intros HRS. induction 1 as [|x l _ IH Hx]; [constructor|]. constructor; [done|]. destruct Hx; constructor. auto.
Qed.

Lemma elem_sortLocale (P : string → bool) u l : u ∈ sortLocale (List.filter P l) ↔ u ∈ l ∧ P u = true.
Proof. unfold sortLocale. rewrite stable_sort_Permutation, !list_elem_of_In, List.filter_In. done. Qed.

(** C40. The list of conversations is complete and in order. Whatever was shown
    before, it has each conversation of two and each group of the stores exactly
    once; a conversation whose last event is later comes first, and of two with
    the same time the one with the smaller id comes first; a group lists its
    members but the user, and a conversation of two lists the other one, or the
    user who talks to nobody else. *)
Theorem conversations_listed value prevResult :
  let l := dmsAndGdmsTransform value prevResult in
  (∀ x, x ∈ l ↔ (∃ id d, di_dmStreams value !! id = Some d ∧ x = dmModel value (id, d))
               ∨ (∃ id g, di_gdmStreams value !! id = Some g ∧ x = gdmModel value (id, g)))
  ∧ length l = (size (di_dmStreams value) + size (di_gdmStreams value))%nat
  ∧ (∀ i j x y, (i < j)%nat → l !! i = Some x → l !! j = Some y → listed_before x y)
  ∧ (∀ x u, x ∈ l → u ∈ dg_userIds x ↔
       ∃ members, di_streamMemberIds value !! dg_id x = Some members ∧ u ∈ members
         ∧ (u ≠ di_userId value ∨ dg_isGdm x = false ∧ length members = 1%nat)).
Proof.
  intros l. unfold l, dmsAndGdmsTransform. rewrite reuse_result.
  set (models := _ ++ _).
  assert (Hin : ∀ x, x ∈ models ↔ (∃ id d, di_dmStreams value !! id = Some d ∧ x = dmModel value (id, d))
               ∨ (∃ id g, di_gdmStreams value !! id = Some g ∧ x = gdmModel value (id, g))).
  { intros x. unfold models. rewrite elem_of_app, !list_elem_of_fmap. split.
    - intros [([id d] & -> & Hd%elem_of_map_to_list)|([id g] & -> & Hg%elem_of_map_to_list)]; [left|right]; eauto.
    - intros [(id & d & Hd%elem_of_map_to_list & ->)|(id & g & Hg%elem_of_map_to_list & ->)]; [left|right]; eauto. }
  assert (Hsorted : Sorted (λ a b, recent_leb a b = true) (stable_sort recent_leb models)) by apply stable_sort_Sorted, recent_total.
  split_and!.
  - intros x. by rewrite stable_sort_Permutation, Hin.
  - rewrite length_stable_sort. unfold models. by rewrite length_app, !length_fmap, !length_map_to_list.
  - intros i j x y. apply StronglySorted_lookup, Sorted_StronglySorted; [apply _|].
    eapply Sorted_weaken; [|exact Hsorted]. intros a b. apply recent_listed.
  - intros x u. rewrite stable_sort_Permutation, Hin. intros [(id & d & _ & ->)|(id & g & _ & ->)]; simpl;
      (destruct (di_streamMemberIds value !! id) as [members|]; [|split; [by intros ?%not_elem_of_nil|by intros (? & ? & _)]]);
      rewrite elem_sortLocale.
    + rewrite orb_true_iff, negb_true_iff, String.eqb_neq, Nat.eqb_eq. split; [intros [? [?|?]]; exists members; auto|].
      intros (m & [= <-] & ? & [?|[_ ?]]); auto.
    + rewrite negb_true_iff, String.eqb_neq. split; [intros [? ?]; exists members; auto|].
      intros (m & [= <-] & ? & [?|[? _]]); [auto|done].
Qed.
End Conversations.

Module TransformsWitness.
Import ModelEth Fixtures TimelinesWitness.
#[local] Instance bytewise : Collation := λ a b, negb (Str.ltb b a).
#[local] Instance differ : MentionsEqual := λ _ _, false.

Definition channel1 : string := "20" +:+ Str.repeat "1"%char 62.
Definition channel2 : string := "20" +:+ Str.repeat "2"%char 62.
Definition mentioned : TimelineEvent := hello <| tl_isMentioned := true |>.

(** A channel whose timeline is empty keeps the mentions of all other channels from being found. *)
Lemma empty_channel_stops :
  size (match spaceMentionsTransform [(channel1, [mentioned])] ∅ ∅ None with Ok m => m | Throw _ => ∅ end) = 1%nat
  ∧ spaceMentionsTransform [(channel1, [mentioned]); (channel2, [])] ∅ ∅ None = Ok ∅.
Proof. split; vm_compute; reflexivity. Qed.
End TransformsWitness.
